(* ===== verification/_CoqProject ===== *)
-Q . S2P
Prelude.v
Words.v
StdMap.v
Spans.v
MemAlloc.v
SrcDataPool.v
Bytes.v
Payload.v
Ring.v
Incoming.v
Endpoint.v
Lmb.v
EndpointManager.v
Polling.v
GasnetMem.v
RemoteWrite.v
Fence.v
RemoteOps.v
Memories.v
Instances.v
Future.v
RemoteId.v
CommandLine.v
Environment.v
NodeTables.v
Lookup.v
Startup.v
Messages.v
RemoteAlloc.v
Launch.v
SendRequest.v
Timing.v
Collective.v
Machine.v
Shutdown.v
Runtime.v
