(* ===== verification/Prelude.v ===== *)
(** * The low-level runtime of Legion: active messages and memories

    A development about the C++ files of src/templates: activemsg.cc and
    activemsg.h (the active-message layer over GASNet), mem_impl.cc and
    mem_impl.h (memories, instances, remote writes and reductions), and parts
    of runtime_impl.cc and runtime_impl.h (startup, the description of the
    machine, look-up by handle, collective spawns, shutdown, the life of the
    runtime object).

    ** The program and its model

    A node talks to another by active messages.  A message class turns a struct
    into handler arguments and back; [enqueue_message] makes an
    [OutgoingMessage] whose payload is a [PayloadSource]; the payload is
    copied into the registered [SrcDataPool] (or waits for room there, under
    a limit on spilled bytes), and the message is queued in the
    [ActiveMessageEndpoint] of its target.  The [EndpointManager] keeps a
    ring of endpoints with work and pushes their queues: short messages go
    out as they are, long ones are cut into chunks and written to the target's
    long message buffers (LMBs), which the two ends flip between them.  The
    receiver reassembles the chunks and hands the message to the
    [IncomingMessageManager], whose threads run the handlers.  Memories are
    built on this: [do_remote_write] and its variants cut data into messages,
    a fence waits until all of them have been applied, and allocation on
    another node is a request whose reply sets a [HandlerReplyFuture].  At
    startup a node attaches its segment, creates its memories and processors,
    adds the affinities between them and announces itself; [run] spawns the
    first tasks on all nodes, and a request to shut down ends them all; then
    the polling threads drain the queues and leave, and the runtime object
    deletes what it owns.

    The files, in dependency order:

    - Prelude: machine integers, assertions ([assert!], a failed one has no
      result), arrays indexed by C++ integers, sums, rounding, tactics.
    - Words: bytes of little-endian words and structs stored in bytes.
    - StdMap: [std::map] as a list in key order.
    - Spans: the free list of both allocators: a coalesced list of spans that
      tiles an interval together with the spans in use.
    - MemAlloc: [MemoryImpl::alloc_bytes_local] and [free_bytes_local].
    - SrcDataPool: the pool, its waiting queue and the spill accounting.
    - Bytes: memories as functions from address to byte, [memcpy].
    - Payload: payload sources, [OutgoingMessage], [reserve_srcdata] and the
      delay line of deferred frees.
    - Ring: the circular to-do array both managers use.
    - Incoming: [IncomingMessageManager] and its handler threads.
    - Endpoint: queues, LMB bookkeeping, chunking and reassembly.
    - Lmb: two endpoints and the messages between them as a transition system.
    - EndpointManager: the manager, the push loop, polling, interleavings.
    - Polling: the polling threads, from their start until they are joined.
    - GasnetMem: [GASNetMemory], striped over the nodes.
    - RemoteWrite: the three [do_remote_write] functions.
    - Fence: the table of partial writes, fences, [LocalCPUMemory].
    - RemoteOps: remote serialization, reductions and reduction lists.
    - Memories: the virtual calls of the memory classes, [RemoteMemory].
    - Instances: instance slots, proxies and storage requests.
    - Future: [HandlerReplyFuture], remote allocation.
    - RemoteId: [RemoteIDAllocator] and its messages.
    - CommandLine: [REALM_DEFAULT_ARGS] in [network_init].
    - Environment: the variables [network_init] sets and those that
      [configure_from_command_line] reads, and left-over options.
    - NodeTables: identifiers, tables and look-up of memories and processors.
    - Lookup: the leaves of dynamic tables and the other [get_*_impl] functions,
      with the lock-free construction in [get_sparsity_impl].
    - Startup: handler table, options, segment layout, registered memories.
    - Messages: the message classes of activemsg.h, the handlers GASNet calls,
      and [IncomingMessage::run_handler].
    - RemoteAlloc: [RemoteMemAllocRequest] end to end: the structs on the wire,
      the two short messages, the owner's allocation and the reply.
    - Launch: the ids and structs of the message classes, and the registration
      of their handlers with those of the endpoint manager.
    - SendRequest: the short messages of mem_impl.cc and runtime_impl.cc, from
      the members [send_request] assigns to those [handle_request] reads.
    - Timing: the recorders of message times and handler statistics.
    - Collective: [collective_spawn], [collective_spawn_by_kind] and [run] on
      all nodes.
    - Machine: [CoreModule], the objects a configuration creates, affinities and
      the announcement.
    - Shutdown: requests to shut down, on all nodes.
    - Runtime: the class [Runtime], what a [RuntimeImpl] owns in a heap of live
      objects, and its teardown.

    A class is a record of its data members, and a member function a
    definition of (nearly always) the same name from the record and the
    arguments to the new record and the result.  A function that may fail an
    assertion or read through a null pointer returns an option.  Pointers are
    integers, [0] is null, and objects that are shared live in a store
    indexed by pointer ([Wire] in Endpoint, the message store in Incoming).
    [size_t], [int] and the handler arguments wrap at their width where the
    code relies on it; where a theorem needs sizes not to overflow its
    hypotheses say so.  A lock makes its critical section one step; threads
    are relations between states ([..._step]) whose steps are critical
    sections, or single statements in Future and in Lookup, where the code
    works without the lock.

    ** What the theorems say

    - Allocation: the free list and the blocks in use tile the memory, an
      allocation succeeds exactly when a block is large enough, freeing undoes
      it, double frees are caught; a pointer given back to the pool merges with
      its neighbours and serves waiting messages in order; spilled bytes are
      counted exactly and those of threads that may be suspended stay within
      the limit.
    - Delivery: the struct a request packs is the struct the handler gets, for
      short messages and for those with a payload (which arrives as the bytes
      the request named, and whose source pointer comes back and is released),
      and the handler of every
      class is installed under its id; the members of the short messages arrive
      with the values they were given; a long message is reassembled exactly
      once under any order of its chunks; unconsumed data in the LMBs is never
      overwritten and the sender is never left without a buffer; the push loop
      ends and sends in order; no endpoint with work is missing from the ring,
      and polling threads that are told to stop drain it first; incoming
      messages are handled once, none is lost, in order for one thread.
    - Remote memory: what arrives is what was sent, for contiguous, strided
      and span payloads, for global memory (a refinement of a flat array of
      bytes), serialized elements and reductions, whose operator the owner
      finds by its identifier; a fence is acknowledged once
      and only when the bytes are there; allocation gives the same from every
      node, down to the words of its two messages and the future that brings
      the offset back, and [get_bytes] fetches what [put_bytes] sent.
    - Control: instance slots, remote identifiers, futures, default arguments,
      the layout of the segment and the objects a node starts with, what it
      announces, look-up by handle, also by threads at once, the order in
      which [run] starts tasks, and shutdown.  There is one runtime at a time,
      and all it made is deleted once; what the user set in the environment
      stays.
    - Errors: nodes that disagree on a collective spawn stop before any task is
      spawned.  Lemmas show what goes wrong where the code does not do what
      it means to: pushing that spins, small unordered payloads, strided
      payloads without a pool, a future read too early, shifts that overflow,
      an unterminated quote, a pointer as the first word of a struct,
      [free_bytes] away from the owner, a message queued just before the
      polling threads stop, a second runtime that can never be shut down, a
      signal handler that asserts it is not called, a number of buffers that
      wraps at 32 bits.

    ** Bounds and fuel

    Loops that do not recurse on their data take fuel and have no result when
    it runs out, and the theorems show that enough is given.  [satisfy_more]
    in the pool gets one more than the number of waiting messages.
    [push_loop] needs more than [push_measure], which counts what is queued
    and the buffers that can still be flipped; [em_push_messages] may run
    forever, and [push_messages_spins] says when.  The striping loops of
    GasnetMem get more than the number of bytes, the chunking loops of
    RemoteWrite more than the number of bytes or lines plus the number of
    spans, and those of RemoteOps more than the number of elements: each round
    takes at least one.  [split_args] gets the length of its string plus one,
    [digits_of] the ten digits of an [int].

    ** What is not modelled

    GASNet, [ID], [DynamicTable], [MachineImpl], the event, task, processor and
    instance metadata implementations, [CommandLineParser] and the
    serializers and reduction operators are not under src/: they are
    parameters, type classes with their laws ([GasnetRDMA] in GasnetMem,
    [IdLaws] in NodeTables, [HandleLaws] and [TableLaws] in Lookup,
    [MachineLaws] in Machine, the classes of events in Collective, of
    serializers and operators in RemoteOps) or messages that leave the model.
    So are the ids and structs of message classes of other files in Launch,
    and [delete_container_contents] of realm/utils.h in Runtime.
    Of [configure_from_command_line] and [start] the rest reserves cores,
    starts threads of other files and opens traces; the creation of a thread
    and the calls of [sigaction], [alarm] and [setenv] are the C library's,
    and modules other than [CoreModule] are not under src/.  The variants
    without GASNet at the end of activemsg.cc do nothing or assert.
    Disk and file memories are only declared there.  The trace code and the
    status reports only print, under compile-time switches that are off.  The other
    activemsg_*.cc files are copies of parts of activemsg.cc for the MyDef
    preprocessor, or unused. *)

From Stdlib Require Export ZArith Lia Permutation Sorted.
From stdpp Require Export prelude list_numbers gmap.

#[export] Set Default Goal Selector "!".
#[export] Set Warnings "-clear-no-such-hyp".
Open Scope Z_scope.

Declare Scope realm_scope.
Delimit Scope realm_scope with realm.
Open Scope realm_scope.

(** ** Machine integers *)

(** [size_t] and [uint64_t] arithmetic is modulo 2^64; [int] is 32 bits wide
    and two's complement.  Pointers are [Z] with [0] for the null pointer. *)
Definition u64 (z : Z) : Z := z `mod` 2 ^ 64.
Definition u32 (z : Z) : Z := z `mod` 2 ^ 32.
Definition i64 (z : Z) : Z := (z + 2 ^ 63) `mod` 2 ^ 64 - 2 ^ 63.
Definition i32 (z : Z) : Z := (z + 2 ^ 31) `mod` 2 ^ 32 - 2 ^ 31.

#[global] Arguments u64 : simpl never.
#[global] Arguments u32 : simpl never.
#[global] Arguments i64 : simpl never.
#[global] Arguments i32 : simpl never.

(** The value range of the two widths. *)
Definition is_u64 (z : Z) : Prop := 0 ≤ z < 2 ^ 64.
Definition is_i32 (z : Z) : Prop := - 2 ^ 31 ≤ z < 2 ^ 31.

Lemma u64_id z : is_u64 z → u64 z = z.
Proof. intros ?. by apply Z.mod_small. Qed.

Lemma u64_range z : is_u64 (u64 z).
Proof. apply Z.mod_pos_bound. lia. Qed.

Lemma i32_id z : is_i32 z → i32 z = z.
Proof. unfold i32, is_i32. intros ?. rewrite Z.mod_small; lia. Qed.

Lemma i64_id z : - 2 ^ 63 ≤ z < 2 ^ 63 → i64 z = z.
Proof. unfold i64. intros ?. rewrite Z.mod_small; lia. Qed.

Lemma i32_range z : is_i32 (i32 z).
Proof.
  unfold i32, is_i32.
  pose proof (Z.mod_pos_bound (z + 2 ^ 31) (2 ^ 32) ltac:(lia)). lia.
Qed.

(** ** Assertions

    A C++ [assert] that fails (or a dereference of a null pointer) ends the
    process: the operation has no result, [None].  [assert c; k] goes on with
    [k] when [c] holds. *)
Definition assert_ {A} (P : Prop) `{Decision P} (k : option A) : option A :=
  if decide P then k else None.
Notation "'assert!' P ';' k" := (assert_ P k)
  (at level 10, P at level 99, k at level 200,
   format "'assert!'  P ; '//' k") : realm_scope.

Lemma assert_true {A} (P : Prop) `{Decision P} (k : option A) :
  P → assert_ P k = k.
Proof. intros. unfold assert_. by rewrite decide_True. Qed.

Lemma assert_Some {A} (P : Prop) `{Decision P} (k : option A) a :
  assert_ P k = Some a ↔ P ∧ k = Some a.
Proof. unfold assert_. case_decide; split; tauto || congruence || intuition congruence. Qed.

(** ** Arrays indexed by a C++ integer *)
Definition zlen {A} (l : list A) : Z := Z.of_nat (length l).
Definition aget {A} (l : list A) (i : Z) : option A :=
  if decide (0 ≤ i) then l !! Z.to_nat i else None.
Definition aset {A} (l : list A) (i : Z) (x : A) : list A :=
  if decide (0 ≤ i) then <[Z.to_nat i := x]> l else l.

Lemma aset_length {A} (l : list A) i x : length (aset l i x) = length l.
Proof. unfold aset. case_decide; [apply length_insert | done]. Qed.

Lemma aget_aset_eq {A} (l : list A) i x :
  0 ≤ i < zlen l → aget (aset l i x) i = Some x.
Proof.
  intros. unfold aget, aset, zlen in *. rewrite !decide_True by lia.
  apply list_lookup_insert_eq. lia.
Qed.

Lemma aget_aset_ne {A} (l : list A) i j x :
  i ≠ j → aget (aset l i x) j = aget l j.
Proof.
  intros. unfold aget, aset. repeat case_decide; try done.
  apply list_lookup_insert_ne. lia.
Qed.

Lemma aget_Some_range {A} (l : list A) i x :
  aget l i = Some x → 0 ≤ i < zlen l.
Proof.
  unfold aget, zlen. case_decide; [|done]. intros ?%lookup_lt_Some. lia.
Qed.

Lemma aget_elem_of {A} (l : list A) i x : aget l i = Some x → x ∈ l.
Proof. unfold aget. case_decide; [|done]. apply list_elem_of_lookup_2. Qed.

Lemma aget_is_Some {A} (l : list A) i :
  0 ≤ i < zlen l → is_Some (aget l i).
Proof.
  unfold zlen. intros. unfold aget. rewrite decide_True by lia.
  apply lookup_lt_is_Some. lia.
Qed.

Lemma aget_nil {A} i : aget (@nil A) i = None.
Proof. unfold aget. by case_decide. Qed.

Lemma aget_cons_succ {A} (x : A) l i : 0 ≤ i → aget (x :: l) (i + 1) = aget l i.
Proof.
  intros. unfold aget. rewrite !decide_True by lia.
  by replace (Z.to_nat (i + 1)) with (S (Z.to_nat i)) by lia.
Qed.

Lemma aget_cons_pos {A} (x : A) l i : 0 < i → aget (x :: l) i = aget l (i - 1).
Proof.
  intros. replace i with (i - 1 + 1) at 1 by lia. apply aget_cons_succ. lia.
Qed.

Lemma zlen_app {A} (l k : list A) : zlen (l ++ k) = zlen l + zlen k.
Proof. unfold zlen. rewrite length_app. lia. Qed.

Lemma zlen_cons {A} (x : A) l : zlen (x :: l) = 1 + zlen l.
Proof. unfold zlen. simpl. lia. Qed.

Lemma zlen_nonneg {A} (l : list A) : 0 ≤ zlen l.
Proof. unfold zlen. lia. Qed.

Lemma aget_app_l {A} (l k : list A) i : i < zlen l → aget (l ++ k) i = aget l i.
Proof. intros. unfold aget, zlen in *. case_decide; [|done]. apply lookup_app_l. lia. Qed.

Lemma aget_app_r {A} (l k : list A) i : zlen l ≤ i → aget (l ++ k) i = aget k (i - zlen l).
Proof.
  intros. unfold aget, zlen in *. rewrite !decide_True by lia. rewrite lookup_app_r by lia.
  f_equal. lia.
Qed.

(** ** Sums over lists of integers *)
Definition Zsum (l : list Z) : Z := foldr Z.add 0 l.

Lemma Zsum_app l k : Zsum (l ++ k) = Zsum l + Zsum k.
Proof. unfold Zsum. induction l; simpl; lia. Qed.

Lemma Zsum_cons x l : Zsum (x :: l) = x + Zsum l.
Proof. done. Qed.

Lemma Zsum_perm l k : l ≡ₚ k → Zsum l = Zsum k.
Proof. unfold Zsum. induction 1; simpl; lia. Qed.

#[export] Instance Zsum_proper : Proper ((≡ₚ) ==> eq) Zsum.
Proof. intros l k. apply Zsum_perm. Qed.

#[export] Instance zlen_proper {A} : Proper ((≡ₚ) ==> eq) (@zlen A).
Proof. intros l k Hp. unfold zlen. by rewrite Hp. Qed.

Lemma Zsum_nonneg l : Forall (λ x, 0 ≤ x) l → 0 ≤ Zsum l.
Proof. unfold Zsum. induction 1; simpl; lia. Qed.

(** ** Rounding up to a multiple *)
Definition round_up (a n : Z) : Z :=
  let r := n `mod` a in if decide (0 < r) then n + (a - r) else n.

Lemma round_up_spec a n :
  0 < a → 0 ≤ n → (a | round_up a n) ∧ n ≤ round_up a n < n + a.
Proof.
  intros Ha Hn. unfold round_up.
  pose proof (Z.mod_pos_bound n a Ha). pose proof (Z.div_mod n a ltac:(lia)).
  case_decide.
  - split; [|lia]. exists (n `div` a + 1). lia.
  - split; [|lia]. exists (n `div` a). lia.
Qed.

Lemma round_up_le a n m :
  0 < a → 0 ≤ n ≤ m → (a | m) → round_up a n ≤ m.
Proof.
  intros Ha Hn [q ->].
  destruct (round_up_spec a n Ha ltac:(lia)) as [[q' Hq] Hr].
  destruct (Z.le_gt_cases q' q); nia.
Qed.

Lemma round_up_id a n : 0 < a → (a | n) → round_up a n = n.
Proof.
  intros Ha Hd. unfold round_up. apply Z.mod_divide in Hd; [|lia].
  rewrite Hd. by rewrite decide_False by lia.
Qed.

(** ** Proof automation *)
Create HintDb realm.
Create Rewrite HintDb realm.
#[export] Hint Resolve u64_range i32_range : realm.
#[export] Hint Rewrite @aset_length @length_app Zsum_app Zsum_cons : realm.

(** Split every hypothesis that is an assertion of the error monad. *)
Ltac asserts :=
  repeat match goal with
  | H : assert_ _ _ = Some _ |- _ =>
      apply assert_Some in H; let H' := fresh "Hassert" in destruct H as [H' H]
  | H : (match ?x with Some _ => _ | None => None end) = Some _ |- _ =>
      destruct x eqn:?; [|discriminate H]
  | H : mbind _ ?x = Some _ |- _ =>
      apply bind_Some in H; destruct H as (? & ? & H)
  end.

Ltac split_all := repeat match goal with |- _ ∧ _ => split end.
Ltac crunch := autorewrite with realm in *; simplify_eq/=; auto with realm.
