(* ===== verification/Words.v ===== *)
(** * Structs as handler arguments

    A message struct travels as 32-bit handler arguments: the sender reads it
    as an array of [int], the receiver writes the arguments into the [raw]
    member of a union and reads its [typed] member.  Both are views of the
    same bytes, least significant byte first, as on the machines the runtime
    is built for. *)

From S2P Require Import Prelude.

Definition is_byte (b : Z) : Prop := 0 ≤ b < 256.

Fixpoint le_bytes (n : nat) (z : Z) : list Z :=
  match n with
  | O => []
  | S n => z `mod` 256 :: le_bytes n (z `div` 256)
  end.

Fixpoint le_val (bs : list Z) : Z :=
  match bs with [] => 0 | b :: bs => b + 256 * le_val bs end.

(** [((const int * )p)[i]] for [i < n]. *)
Fixpoint ints_of (n : nat) (bs : list Z) : list Z :=
  match n with
  | O => []
  | S n => i32 (le_val (take 4 bs)) :: ints_of n (drop 4 bs)
  end.

(** The bytes of an array of 32-bit words. *)
Definition bytes_of (ws : list Z) : list Z := ws ≫= λ w, le_bytes 4 (u32 w).

(** A store of [bs] at offset [off] of an object. *)
Definition store_at (off : nat) (bs obj : list Z) : list Z :=
  take off obj ++ bs ++ drop (off + length bs) obj.

Lemma le_bytes_length n : ∀ z, length (le_bytes n z) = n.
Proof. induction n as [|n IH]; intros z; simpl; [done|]. by rewrite IH. Qed.

Lemma le_bytes_byte n : ∀ z, Forall is_byte (le_bytes n z).
Proof.
  induction n as [|n IH]; intros z; simpl; constructor; [|done].
  apply Z.mod_pos_bound. lia.
Qed.

Lemma le_val_range bs : Forall is_byte bs → 0 ≤ le_val bs < 256 ^ zlen bs.
Proof.
  induction 1 as [|b bs Hb _ IH]; [done|]. rewrite zlen_cons. simpl.
  rewrite Z.pow_add_r by (pose proof (zlen_nonneg bs); lia).
  unfold is_byte in Hb. lia.
Qed.

Lemma le_val_bytes n : ∀ z, le_val (le_bytes n z) = z `mod` 256 ^ Z.of_nat n.
Proof.
  induction n as [|n IH]; intros z; cbn [le_bytes le_val].
  - by rewrite Z.mod_1_r.
  - rewrite IH, Nat2Z.inj_succ, Z.pow_succ_r by lia.
    rewrite (Z.rem_mul_r z 256) by lia. lia.
Qed.

Lemma le_bytes_val bs n : Forall is_byte bs → length bs = n → le_bytes n (le_val bs) = bs.
Proof.
  intros Hb <-. induction Hb as [|b bs Hb _ IH]; [done|]. simpl. unfold is_byte in Hb.
  rewrite Z.mul_comm, Z.mod_add, Z.div_add by lia.
  by rewrite Z.mod_small, Z.div_small, Z.add_0_l, IH by done.
Qed.

Lemma le_val_app bs bs' : le_val (bs ++ bs') = le_val bs + 256 ^ zlen bs * le_val bs'.
Proof.
  induction bs as [|b bs IH]; simpl; [unfold zlen; simpl; lia|].
  rewrite IH, zlen_cons, Z.pow_add_r by (pose proof (zlen_nonneg bs); lia). lia.
Qed.

Lemma ints_of_length n : ∀ bs, length (ints_of n bs) = n.
Proof. induction n as [|n IH]; intros bs; simpl; [done|]. by rewrite IH. Qed.

Lemma bytes_of_cons w ws : bytes_of (w :: ws) = le_bytes 4 (u32 w) ++ bytes_of ws.
Proof. done. Qed.

Lemma bytes_of_app ws ws' : bytes_of (ws ++ ws') = bytes_of ws ++ bytes_of ws'.
Proof. apply bind_app. Qed.

Lemma bytes_of_length ws : length (bytes_of ws) = (4 * length ws)%nat.
Proof.
  induction ws as [|w ws IH]; [done|]. rewrite bytes_of_cons, length_app, IH. simpl. lia.
Qed.

(** A value survives the cast to [int] and back. *)
Lemma u32_i32_id z : 0 ≤ z < 2 ^ 32 → u32 (i32 z) = z.
Proof.
  intros Hz. unfold u32, i32. rewrite Zminus_mod, Z.mod_mod by lia.
  rewrite <- Zminus_mod. replace (z + 2 ^ 31 - 2 ^ 31) with z by lia. by apply Z.mod_small.
Qed.

(** The word written is the word read. *)
Lemma le_bytes_i32_val bs :
  Forall is_byte bs → length bs = 4%nat → le_bytes 4 (u32 (i32 (le_val bs))) = bs.
Proof.
  intros Hb Hl. rewrite u32_i32_id; [by apply le_bytes_val|].
  pose proof (le_val_range bs Hb) as Hr. unfold zlen in Hr. by rewrite Hl in Hr.
Qed.

(** The bytes read as [n] words are the first [4 n] bytes. *)
Lemma bytes_of_ints n : ∀ bs,
  Forall is_byte bs → (4 * n ≤ length bs)%nat → bytes_of (ints_of n bs) = take (4 * n) bs.
Proof.
  induction n as [|n IH]; intros bs Hb Hl; [done|]. cbn [ints_of].
  rewrite bytes_of_cons, le_bytes_i32_val.
  - rewrite IH; [|by apply Forall_drop|rewrite length_drop; lia].
    rewrite <- (take_drop 4 bs) at 3. rewrite take_app, length_take, Nat.min_l by lia.
    rewrite take_take. rewrite Nat.min_r by lia. do 2 f_equal. lia.
  - by apply Forall_take.
  - rewrite length_take. lia.
Qed.

Lemma store_at_length off bs obj :
  (off + length bs ≤ length obj)%nat → length (store_at off bs obj) = length obj.
Proof. intros. unfold store_at. rewrite !length_app, length_take, length_drop. lia. Qed.

Lemma store_at_byte off bs obj :
  Forall is_byte bs → Forall is_byte obj → Forall is_byte (store_at off bs obj).
Proof.
  intros. unfold store_at. repeat apply Forall_app_2; [by apply Forall_take|done|by apply Forall_drop].
Qed.

(** A word stored in the array of arguments is a store of its bytes. *)
Lemma bytes_of_aset ws i w :
  0 ≤ i < zlen ws → bytes_of (aset ws i w) = store_at (Z.to_nat (4 * i)) (le_bytes 4 (u32 w)) (bytes_of ws).
Proof.
  intros Hi. unfold aset, store_at. rewrite decide_True by lia. unfold zlen in Hi.
  rewrite le_bytes_length. replace (Z.to_nat (4 * i)) with (4 * Z.to_nat i)%nat by lia.
  generalize (Z.to_nat i) as k, (ltac:(lia) : (Z.to_nat i < length ws)%nat). clear.
  intros k. revert ws. induction k as [|k IH]; intros [|v ws] Hk; simpl in Hk; [lia| |lia|].
  - done.
  - cbn [insert list_insert]. rewrite !bytes_of_cons, IH by lia.
    replace (4 * S k)%nat with (4 + 4 * k)%nat by lia.
    set (b := le_bytes 4 (u32 v)). assert (length b = 4%nat) as Hb by done. clearbody b.
    destruct b as [|b0 [|b1 [|b2 [|b3 [|? ?]]]]]; try discriminate. done.
Qed.
