(* ===== verification/StdMap.v ===== *)
(** * [std::map] with integer keys

    The ordered associative container the runtime keeps its free lists in.
    A map is the list of its entries in iteration order, that is by strictly
    increasing key; an iterator is a position in that list, so [lower_bound]
    is the split of the list at that position. *)

From S2P Require Import Prelude.

Section omap.
Context {V : Type}.
Implicit Types (m : list (Z * V)) (k : Z) (v : V).

Definition klt (a b : Z * V) : Prop := a.1 < b.1.

(** Iteration order: strictly increasing keys. *)
Definition om_ok m : Prop := StronglySorted klt m.

Fixpoint om_find k m : option V :=
  match m with
  | [] => None
  | (k', v) :: m' => if decide (k = k') then Some v else om_find k m'
  end.

(** [m[k] = v] *)
Fixpoint om_insert k v m : list (Z * V) :=
  match m with
  | [] => [(k, v)]
  | (k', v') :: m' =>
      if decide (k < k') then (k, v) :: m
      else if decide (k = k') then (k, v) :: m'
      else (k', v') :: om_insert k v m'
  end.

Fixpoint om_erase k m : list (Z * V) :=
  match m with
  | [] => []
  | (k', v') :: m' => if decide (k = k') then m' else (k', v') :: om_erase k m'
  end.

(** [lower_bound k]: the entries before and from the returned iterator. *)
Fixpoint om_lower_bound k m : list (Z * V) * list (Z * V) :=
  match m with
  | [] => ([], [])
  | (k', v) :: m' =>
      if decide (k' < k)
      then let '(b, a) := om_lower_bound k m' in ((k', v) :: b, a)
      else ([], m)
  end.

#[global] Instance klt_trans : Transitive klt.
Proof. unfold klt. intros ???. lia. Qed.

Lemma om_ok_nil : om_ok [].
Proof. constructor. Qed.

Lemma om_ok_cons_inv k v m :
  om_ok ((k, v) :: m) → om_ok m ∧ Forall (λ e, k < e.1) m.
Proof. intros H. inv H. done. Qed.

Lemma om_ok_cons k v m :
  om_ok m → Forall (λ e, k < e.1) m → om_ok ((k, v) :: m).
Proof. intros ??. by constructor. Qed.

Lemma om_find_elem k v m : om_find k m = Some v → (k, v) ∈ m.
Proof.
  induction m as [|[k' v'] m IH]; simpl; [done|].
  case_decide; [|set_solver]. intros. simplify_eq. set_solver.
Qed.

Lemma om_elem_find k v m : om_ok m → (k, v) ∈ m → om_find k m = Some v.
Proof.
  induction m as [|[k' v'] m IH]; [set_solver|].
  intros [? Hlt]%om_ok_cons_inv [?|Hin]%elem_of_cons; simplify_eq/=.
  - by rewrite decide_True.
  - rewrite Forall_forall in Hlt. specialize (Hlt _ Hin). simpl in Hlt.
    rewrite decide_False by lia. auto.
Qed.

Lemma om_find_None k m :
  om_find k m = None ↔ Forall (λ e, e.1 ≠ k) m.
Proof.
  induction m as [|[k' v'] m IH]; simpl.
  - split; auto.
  - rewrite Forall_cons; simpl. case_decide; [intuition congruence|].
    rewrite IH. intuition congruence.
Qed.

Lemma om_insert_Forall (P : Z * V → Prop) k v m :
  P (k, v) → Forall P m → Forall P (om_insert k v m).
Proof.
  intros Hp. induction 1 as [|[k' v'] m ?? IH]; simpl; [auto|].
  repeat case_decide; auto.
Qed.

Lemma om_insert_ok k v m : om_ok m → om_ok (om_insert k v m).
Proof.
  induction m as [|[k' v'] m IH]; simpl; intros Hok.
  - repeat constructor.
  - apply om_ok_cons_inv in Hok as [Hok Hlt]. repeat case_decide.
    + apply om_ok_cons; [by apply om_ok_cons|]. constructor; simpl; [done|].
      eapply Forall_impl; [done|]. simpl. intros. lia.
    + subst. by apply om_ok_cons.
    + apply om_ok_cons; [auto|]. apply om_insert_Forall; simpl; [lia|done].
Qed.

Lemma om_insert_fresh k v m :
  om_find k m = None → om_insert k v m ≡ₚ (k, v) :: m.
Proof.
  induction m as [|[k' v'] m IH]; simpl; intros Hf; [done|].
  destruct (decide (k = k')); [done|]. case_decide; [done|].
  rewrite IH by done. apply Permutation_swap.
Qed.

Lemma om_erase_Forall (P : Z * V → Prop) k m :
  Forall P m → Forall P (om_erase k m).
Proof.
  induction 1 as [|[k' v'] m ?? IH]; simpl; [auto|]. case_decide; auto.
Qed.

Lemma om_erase_ok k m : om_ok m → om_ok (om_erase k m).
Proof.
  induction m as [|[k' v'] m IH]; simpl; [done|].
  intros [Hok Hlt]%om_ok_cons_inv. case_decide; [done|].
  apply om_ok_cons; [auto|]. by apply om_erase_Forall.
Qed.

Lemma om_erase_perm k v m :
  om_find k m = Some v → m ≡ₚ (k, v) :: om_erase k m.
Proof.
  induction m as [|[k' v'] m IH]; simpl; [done|].
  case_decide; intros; simplify_eq; [done|].
  etrans; [apply Permutation_skip, IH; done|]. apply Permutation_swap.
Qed.

Lemma om_find_erase_eq k m : om_ok m → om_find k (om_erase k m) = None.
Proof.
  induction m as [|[k' v'] m IH]; simpl; [done|].
  intros [Hok Hlt]%om_ok_cons_inv. case_decide; simpl.
  - subst. apply om_find_None. eapply Forall_impl; [done|]. simpl. lia.
  - by rewrite decide_False; auto.
Qed.

Lemma om_insert_update k v v0 m :
  om_ok m → om_find k m = Some v0 →
  om_insert k v m ≡ₚ (k, v) :: om_erase k m.
Proof.
  induction m as [|[k' v'] m IH]; simpl; [done|].
  intros [Hok Hlt]%om_ok_cons_inv. case_decide.
  - intros. simplify_eq. by rewrite decide_False by lia.
  - intros Hf. rewrite decide_False.
    + rewrite IH by done. apply Permutation_swap.
    + apply om_find_elem in Hf. rewrite Forall_forall in Hlt.
      specialize (Hlt _ Hf). simpl in Hlt. lia.
Qed.

Lemma om_find_insert_eq k v m : om_find k (om_insert k v m) = Some v.
Proof.
  induction m as [|[k' v'] m IH]; simpl.
  - by rewrite decide_True.
  - repeat case_decide; simplify_eq/=; repeat case_decide; congruence || done.
Qed.

Lemma om_find_insert_ne k k' v m :
  k ≠ k' → om_find k' (om_insert k v m) = om_find k' m.
Proof.
  intros Hne. induction m as [|[k0 v0] m IH]; simpl.
  - by rewrite decide_False.
  - repeat case_decide; simplify_eq/=; repeat case_decide; congruence || done.
Qed.

Lemma om_find_erase_ne k k' m :
  k ≠ k' → om_find k' (om_erase k m) = om_find k' m.
Proof.
  intros Hne. induction m as [|[k0 v0] m IH]; simpl; [done|].
  repeat case_decide; simplify_eq/=; repeat case_decide; congruence || done.
Qed.

Lemma om_lower_bound_spec k m b a :
  om_ok m → om_lower_bound k m = (b, a) →
  m = b ++ a ∧ Forall (λ e, e.1 < k) b ∧ Forall (λ e, k ≤ e.1) a.
Proof.
  revert b a. induction m as [|[k' v'] m IH]; simpl; intros b a Hok Heq.
  - simplify_eq. auto.
  - apply om_ok_cons_inv in Hok as [Hok Hlt]. case_decide.
    + destruct (om_lower_bound k m) as [b' a'] eqn:E. simplify_eq.
      destruct (IH _ _ Hok eq_refl) as (-> & ? & ?). split_all; auto.
    + simplify_eq. split_all; auto. constructor; simpl; [lia|].
      eapply Forall_impl; [done|]. simpl. lia.
Qed.

Lemma om_ok_app m1 m2 :
  om_ok (m1 ++ m2) ↔
  om_ok m1 ∧ om_ok m2 ∧ (∀ e1 e2, e1 ∈ m1 → e2 ∈ m2 → e1.1 < e2.1).
Proof.
  induction m1 as [|[k v] m1 IH]; simpl.
  - split; [intros; split_all; [constructor|done|set_solver]|tauto].
  - split.
    + intros [Hok Hlt]%om_ok_cons_inv. apply IH in Hok as (? & ? & Hx).
      apply Forall_app in Hlt as [Hlt1 Hlt2]. rewrite Forall_forall in Hlt2.
      split_all; [by apply om_ok_cons|done|].
      intros e1 e2 [->|?]%elem_of_cons ?; [by apply Hlt2|by apply Hx].
    + intros ([Hok Hlt]%om_ok_cons_inv & Hok2 & Hx).
      apply om_ok_cons.
      * apply IH. split_all; [done|done|]. intros. apply Hx; set_solver.
      * apply Forall_app. split; [done|]. apply Forall_forall.
        intros e He. apply (Hx (k, v)); set_solver.
Qed.

Lemma om_lower_bound_app k b a :
  Forall (λ e, e.1 < k) b → Forall (λ e, k ≤ e.1) a → om_lower_bound k (b ++ a) = (b, a).
Proof.
  intros Hb Ha. induction Hb as [|[k' v] b Hk Hb IH]; simpl.
  - destruct Ha as [|[k' v] a Hk Ha]; [done|]. simpl in *. by rewrite decide_False by lia.
  - simpl in Hk. rewrite decide_True by done. by rewrite IH.
Qed.

(** Two ordered maps with the same entries are the same list. *)
Lemma om_ok_perm_eq m1 m2 : om_ok m1 → om_ok m2 → m1 ≡ₚ m2 → m1 = m2.
Proof.
  revert m2. induction m1 as [|[k v] m1 IH]; intros m2 H1 H2 Hp.
  - apply Permutation_nil_l in Hp. done.
  - destruct m2 as [|[k' v'] m2].
    { by apply Permutation_nil_r in Hp. }
    apply om_ok_cons_inv in H1 as [H1 L1]. apply om_ok_cons_inv in H2 as [H2 L2].
    rewrite Forall_forall in L1. rewrite Forall_forall in L2.
    assert ((k, v) ∈ (k', v') :: m2) as A by (rewrite <- Hp; set_solver).
    assert ((k', v') ∈ (k, v) :: m1) as B by (rewrite Hp; set_solver).
    apply elem_of_cons in A as [A|A]; apply elem_of_cons in B as [B|B];
      simplify_eq.
    + f_equal. apply IH; [done..|]. by apply Permutation_cons_inv in Hp.
    + f_equal. apply IH; [done..|]. by apply Permutation_cons_inv in Hp.
    + f_equal. apply IH; [done..|]. by apply Permutation_cons_inv in Hp.
    + specialize (L1 _ B). specialize (L2 _ A). simpl in *. lia.
Qed.

(** Keys of an ordered map are distinct. *)
Lemma om_ok_keys_inj k v1 v2 m :
  om_ok m → (k, v1) ∈ m → (k, v2) ∈ m → v1 = v2.
Proof.
  intros Hok H1%om_elem_find H2%om_elem_find; [congruence|done..].
Qed.

End omap.

#[export] Hint Resolve om_ok_nil om_insert_ok om_erase_ok : realm.
