(* ===== verification/Spans.v ===== *)
(** * Spans of memory and tilings

    Both allocators of the runtime ([MemoryImpl::free_blocks] and
    [SrcDataPool]) keep maps from the first byte of a span to its length.
    [covers x l] counts the spans of [l] that contain byte [x]; a list of
    spans tiles a range when every byte of the range is in exactly one span
    and no byte outside it is in any. *)

From S2P Require Import Prelude StdMap.

(** A span [(first, length)] contains the bytes [first .. first+length-1]. *)
Definition cov (x : Z) (s : Z * Z) : Z :=
  if decide (s.1 ≤ x < s.1 + s.2) then 1 else 0.
Definition covers (x : Z) (l : list (Z * Z)) : Z := Zsum (cov x <$> l).

Definition nonempty (l : list (Z * Z)) : Prop := Forall (λ s, 0 < s.2) l.

Definition Tiled (lo hi : Z) (l : list (Z * Z)) : Prop :=
  nonempty l ∧ ∀ x, covers x l = cov x (lo, hi - lo).

(** No two spans of the list are adjacent. *)
Definition coalesced (l : list (Z * Z)) : Prop :=
  ∀ s1 s2, s1 ∈ l → s2 ∈ l → s1.1 + s1.2 ≠ s2.1.

Definition disjoint_spans (s1 s2 : Z * Z) : Prop :=
  s1.1 + s1.2 ≤ s2.1 ∨ s2.1 + s2.2 ≤ s1.1.

Definition sizes (l : list (Z * Z)) : Z := Zsum (snd <$> l).

Lemma covers_nil x : covers x [] = 0.
Proof. done. Qed.

Lemma covers_cons x s l : covers x (s :: l) = cov x s + covers x l.
Proof. done. Qed.

Lemma covers_app x l k : covers x (l ++ k) = covers x l + covers x k.
Proof. unfold covers. by rewrite fmap_app, Zsum_app. Qed.

Lemma sizes_cons p n l : sizes ((p, n) :: l) = n + sizes l.
Proof. done. Qed.

Lemma sizes_app l k : sizes (l ++ k) = sizes l + sizes k.
Proof. unfold sizes. by rewrite fmap_app, Zsum_app. Qed.

Lemma sizes_nonneg l : Forall (λ s, 0 ≤ s.2) l → 0 ≤ sizes l.
Proof. intros. apply Zsum_nonneg, Forall_fmap. done. Qed.

#[export] Hint Rewrite covers_cons covers_app covers_nil sizes_cons sizes_app : realm.

#[global] Instance covers_Proper : Proper (eq ==> (≡ₚ) ==> eq) covers.
Proof. intros x ? <- l k H. unfold covers. apply Zsum_perm. by rewrite H. Qed.

#[global] Instance nonempty_Proper : Proper ((≡ₚ) ==> iff) nonempty.
Proof. intros l k H. unfold nonempty. by rewrite H. Qed.

#[global] Instance Tiled_Proper : Proper (eq ==> eq ==> (≡ₚ) ==> iff) Tiled.
Proof.
  intros lo ? <- hi ? <- l k H. unfold Tiled.
  setoid_rewrite H. done.
Qed.

#[global] Instance coalesced_Proper : Proper ((≡ₚ) ==> iff) coalesced.
Proof. intros l k H. unfold coalesced. by setoid_rewrite H. Qed.

#[global] Instance sizes_Proper : Proper ((≡ₚ) ==> eq) sizes.
Proof. intros l k H. unfold sizes. apply Zsum_perm. by rewrite H. Qed.

Lemma cov_range x s : 0 ≤ cov x s ≤ 1.
Proof. unfold cov. case_decide; lia. Qed.

Lemma covers_nonneg x l : 0 ≤ covers x l.
Proof.
  induction l as [|s l IH]; autorewrite with realm; [lia|].
  pose proof (cov_range x s). lia.
Qed.

(** Cutting a span in two leaves the same bytes covered. *)
Lemma cov_split x a n m :
  0 ≤ n → 0 ≤ m → cov x (a, n + m) = cov x (a, n) + cov x (a + n, m).
Proof. intros. unfold cov. simpl. repeat case_decide; lia. Qed.

Lemma covers_rev x l : covers x (reverse l) = covers x l.
Proof. by rewrite reverse_Permutation. Qed.

Lemma Tiled_bounds lo hi l s :
  Tiled lo hi l → s ∈ l → lo ≤ s.1 ∧ 0 < s.2 ∧ s.1 + s.2 ≤ hi.
Proof.
  intros [Hp Hc] Hin. destruct (list_elem_of_split _ _ Hin) as (l1 & l2 & ->).
  assert (0 < s.2) as Hs by (unfold nonempty in Hp; rewrite Forall_forall in Hp; auto).
  assert (∀ x, s.1 ≤ x < s.1 + s.2 → lo ≤ x < hi) as H.
  { intros x Hx. specialize (Hc x). autorewrite with realm in Hc.
    pose proof (covers_nonneg x l1). pose proof (covers_nonneg x l2).
    unfold cov in Hc. simpl in Hc. rewrite decide_True in Hc by lia.
    case_decide; lia. }
  pose proof (H s.1). pose proof (H (s.1 + s.2 - 1)). lia.
Qed.

Lemma Tiled_disjoint lo hi s1 s2 l :
  Tiled lo hi (s1 :: s2 :: l) → disjoint_spans s1 s2.
Proof.
  intros Ht.
  pose proof (Tiled_bounds _ _ _ s1 Ht ltac:(set_solver)) as H1.
  pose proof (Tiled_bounds _ _ _ s2 Ht ltac:(set_solver)) as H2.
  destruct Ht as [_ Hc]. specialize (Hc (Z.max s1.1 s2.1)).
  autorewrite with realm in Hc. pose proof (covers_nonneg (Z.max s1.1 s2.1) l).
  unfold cov in Hc. simpl in Hc. unfold disjoint_spans.
  repeat case_decide; lia.
Qed.

(** Any two different positions of a tiling hold disjoint spans. *)
Lemma Tiled_elem_disjoint lo hi s1 s2 l k :
  Tiled lo hi (l ++ k) → s1 ∈ l → s2 ∈ k → disjoint_spans s1 s2.
Proof.
  intros Ht (l1 & l2 & ->)%list_elem_of_split (k1 & k2 & ->)%list_elem_of_split.
  apply (Tiled_disjoint lo hi _ _ (l1 ++ l2 ++ k1 ++ k2)).
  revert Ht. apply Tiled_Proper; [done..|]. solve_Permutation.
Qed.

Lemma Tiled_cons_disjoint lo hi s t l :
  Tiled lo hi (s :: l) → t ∈ l → disjoint_spans s t.
Proof. intros Ht Hin. apply (Tiled_elem_disjoint lo hi s t [s] l Ht); set_solver. Qed.

Lemma Tiled_one lo hi : lo < hi → Tiled lo hi [(lo, hi - lo)].
Proof.
  intros. split; [constructor; simpl; [lia|constructor]|].
  intros x. autorewrite with realm. lia.
Qed.

(** A non-empty range has a span that starts at its first byte, and the rest
    tiles what follows it. *)
Lemma Tiled_head lo hi l :
  Tiled lo hi l → lo < hi →
  ∃ n l', l ≡ₚ (lo, n) :: l' ∧ 0 < n ∧ Tiled (lo + n) hi l'.
Proof.
  intros Ht Hlt.
  assert (∃ s, s ∈ l ∧ s.1 ≤ lo < s.1 + s.2) as (s & Hin & Hs).
  { destruct Ht as [_ Hc]. specialize (Hc lo). unfold cov at 1 in Hc.
    simpl in Hc. rewrite decide_True in Hc by lia. clear Hlt.
    induction l as [|s l IH]; autorewrite with realm in Hc; [lia|].
    destruct (decide (s.1 ≤ lo < s.1 + s.2)); [exists s; set_solver|].
    unfold cov in Hc. rewrite decide_False in Hc by lia.
    destruct IH as (s' & ? & ?); [lia|]. exists s'. set_solver. }
  pose proof (Tiled_bounds _ _ _ _ Ht Hin).
  assert (s = (lo, s.2)) as Es by (destruct s; simpl in *; f_equal; lia).
  destruct (list_elem_of_split _ _ Hin) as (l1 & l2 & ->).
  exists s.2, (l1 ++ l2). rewrite <- Es. split_all; [solve_Permutation|lia|].
  assert (Tiled lo hi (s :: l1 ++ l2)) as [Hp Hc].
  { revert Ht. apply Tiled_Proper; [done..|]. solve_Permutation. }
  split; [by inv Hp|]. intros x. specialize (Hc x). rewrite covers_cons in Hc.
  replace (hi - lo) with (s.2 + (hi - (lo + s.2))) in Hc by lia.
  rewrite cov_split in Hc by lia. rewrite <- Es in Hc. lia.
Qed.

Lemma Tiled_empty lo hi l : hi ≤ lo → Tiled lo hi l → l = [].
Proof.
  intros Hle Ht. destruct l as [|s l]; [done|].
  pose proof (Tiled_bounds _ _ _ s Ht ltac:(set_solver)). lia.
Qed.

(** Nothing is lost: the lengths of a tiling add up to the range. *)
Lemma Tiled_sizes lo hi l : lo ≤ hi → Tiled lo hi l → sizes l = hi - lo.
Proof.
  remember (length l) as n eqn:Hn. revert lo l Hn.
  induction n as [|n IH]; intros lo l Hn Hle Ht.
  - destruct l; [|done]. unfold sizes. simpl.
    destruct (decide (lo < hi)); [|lia].
    destruct (Tiled_head _ _ _ Ht) as (? & ? & Hp & _); [done|].
    by apply Permutation_nil_l in Hp.
  - destruct (decide (lo < hi)).
    + destruct (Tiled_head _ _ _ Ht) as (m & l' & Hp & Hm & Ht'); [done|].
      rewrite Hp. unfold sizes. simpl. change (m + sizes l' = hi - lo).
      rewrite (IH (lo + m) l'); [lia| |by pose proof (Tiled_bounds _ _ _ (lo, m) Ht ltac:(rewrite Hp; set_solver)); simpl in *; lia|done].
      rewrite Hp in Hn. by simplify_eq/=.
    + rewrite (Tiled_empty lo hi l) by (done || lia). unfold sizes. simpl. lia.
Qed.

(** A tiling without adjacent spans is a single span. *)
Lemma Tiled_coalesced lo hi l :
  lo < hi → Tiled lo hi l → coalesced l → l = [(lo, hi - lo)].
Proof.
  intros Hlt Ht Hc.
  destruct (Tiled_head _ _ _ Ht Hlt) as (n & l' & Hp & Hn & Ht').
  destruct (decide (lo + n < hi)) as [Hlt'|].
  - destruct (Tiled_head _ _ _ Ht' Hlt') as (n' & l'' & Hp' & _ & _).
    exfalso. apply (Hc (lo, n) (lo + n, n')); simpl; [| |done].
    + rewrite Hp. set_solver.
    + rewrite Hp, Hp'. set_solver.
  - apply Tiled_empty in Ht'; [|lia]. subst. apply Permutation_singleton_r in Hp.
    subst. pose proof (Tiled_bounds _ _ _ (lo, n) Ht ltac:(set_solver)).
    simpl in *. do 2 f_equal. lia.
Qed.

(** Growing or cutting one tile: the two rewriting steps of the allocators. *)
Lemma Tiled_merge lo hi a n m l :
  Tiled lo hi ((a, n) :: (a + n, m) :: l) → Tiled lo hi ((a, n + m) :: l).
Proof.
  intros [Hp Hc]. unfold nonempty in Hp.
  rewrite !Forall_cons in Hp. destruct Hp as (Hn & Hm & Hp). simpl in *.
  split; [constructor; simpl; [lia|done]|]. intros x. rewrite <- Hc.
  autorewrite with realm. rewrite cov_split by lia. lia.
Qed.

Lemma Tiled_cut lo hi a n m l :
  0 < n → 0 < m →
  Tiled lo hi ((a, n + m) :: l) → Tiled lo hi ((a, n) :: (a + n, m) :: l).
Proof.
  intros Hn Hm [Hp Hc]. unfold nonempty in Hp. rewrite Forall_cons in Hp.
  destruct Hp as [? Hp]. split; [repeat constructor; simpl; done|].
  intros x. rewrite <- Hc. autorewrite with realm. rewrite cov_split by lia. lia.
Qed.

(** ** Adjacency *)
Lemma coalesced_cons p n l :
  coalesced ((p, n) :: l) ↔
  n ≠ 0 ∧ coalesced l ∧ ∀ s, s ∈ l → s.1 + s.2 ≠ p ∧ p + n ≠ s.1.
Proof.
  unfold coalesced. split.
  - intros H. split_all.
    + specialize (H (p, n) (p, n)). simpl in H. intros ->. apply H; [set_solver..|lia].
    + intros. apply H; set_solver.
    + intros s Hs. split; [apply (H s (p, n))|apply (H (p, n) s)]; set_solver.
  - intros (Hn & Hl & Hs) s1 s2 [->|H1]%elem_of_cons [->|H2]%elem_of_cons; simpl.
    + lia.
    + by apply Hs.
    + by apply Hs.
    + by apply Hl.
Qed.

Lemma coalesced_sub l k : (∀ s, s ∈ l → s ∈ k) → coalesced k → coalesced l.
Proof. intros Hs Hk s1 s2 ??. apply Hk; auto. Qed.

Lemma coalesced_nil : coalesced [].
Proof. intros ??. set_solver. Qed.

#[export] Hint Resolve coalesced_nil Tiled_one : realm.

(** ** Free lists

    A well-formed free list next to the spans [a] in use: ordered by address,
    tiling the range together with [a], and coalesced. *)
Record FreeList (lo hi : Z) (fb a : list (Z * Z)) : Prop := mkFreeList {
  fl_ok : om_ok fb;
  fl_tiled : Tiled lo hi (fb ++ a);
  fl_coalesced : coalesced fb }.

(** No entry of [fb] has key [p] when the non-empty span [(p, n)] is outside
    of it. *)
Lemma span_fresh lo hi fb a p n :
  Tiled lo hi ((p, n) :: fb ++ a) → om_find p fb = None.
Proof.
  intros Ht. apply om_find_None, Forall_forall. intros s Hin Heq.
  pose proof (Tiled_elem_disjoint lo hi (p, n) s [(p, n)] (fb ++ a) Ht
                ltac:(set_solver) ltac:(set_solver)) as Hd.
  pose proof (Tiled_bounds _ _ _ s Ht ltac:(set_solver)).
  pose proof (Tiled_bounds _ _ _ (p, n) Ht ltac:(set_solver)).
  unfold disjoint_spans in Hd. simpl in *. lia.
Qed.

(** Adding a span that touches no free span. *)
Lemma free_insert lo hi fb a p n :
  om_ok fb → Tiled lo hi ((p, n) :: fb ++ a) → coalesced fb →
  (∀ s, s ∈ fb → s.1 + s.2 ≠ p) → (∀ s, s ∈ fb → p + n ≠ s.1) →
  FreeList lo hi (om_insert p n fb) a.
Proof.
  intros Hok Ht Hco Hb Ha.
  pose proof (om_insert_fresh p n fb (span_fresh _ _ _ _ _ _ Ht)) as Hp.
  split; [auto with realm| |].
  - by rewrite Hp.
  - rewrite Hp. apply coalesced_cons. split_all; [|done|auto].
    pose proof (Tiled_bounds _ _ _ (p, n) Ht ltac:(set_solver)). simpl in *. lia.
Qed.

(** Adding a span that ends where the free span [(ka, na)] starts. *)
Lemma free_eat_after lo hi fb a p n ka na :
  om_ok fb → Tiled lo hi ((p, n) :: fb ++ a) → coalesced fb →
  om_find ka fb = Some na → p + n = ka →
  Tiled lo hi ((p, n + na) :: om_erase ka fb ++ a) ∧ coalesced (om_erase ka fb) ∧
  (∀ s, s ∈ om_erase ka fb → p + (n + na) ≠ s.1) ∧
  (∀ s, s ∈ om_erase ka fb → s ∈ fb).
Proof.
  intros Hok Ht Hco Hf <-. pose proof (om_erase_perm _ _ _ Hf) as Hp.
  rewrite Hp in Ht, Hco. split_all.
  - by apply Tiled_merge.
  - by apply coalesced_cons in Hco as (_ & ? & _).
  - intros s Hin. apply coalesced_cons in Hco as (_ & _ & Hadj).
    specialize (Hadj _ Hin). lia.
  - intros s Hin. rewrite Hp. set_solver.
Qed.

(** Growing the free span [(kb, nb)] that ends where the new one starts. *)
Lemma free_grow_before lo hi fb a p n kb nb :
  om_ok fb → Tiled lo hi ((p, n) :: fb ++ a) → coalesced fb →
  om_find kb fb = Some nb → kb + nb = p → (∀ s, s ∈ fb → p + n ≠ s.1) →
  FreeList lo hi (om_insert kb (nb + n) fb) a.
Proof.
  intros Hok Ht Hco Hf <- Ha.
  pose proof (Tiled_bounds _ _ _ (kb + nb, n) Ht ltac:(set_solver)) as Hn.
  pose proof (om_insert_update kb (nb + n) nb fb Hok Hf) as Hi.
  pose proof (om_erase_perm _ _ _ Hf) as Hp.
  split; [auto with realm| |]; rewrite Hi.
  - rewrite Hp in Ht. simpl in *. rewrite Permutation_swap in Ht. by apply Tiled_merge.
  - pose proof Hco as Hco'. rewrite Hp in Hco'.
    apply coalesced_cons in Hco' as (? & ? & Hadj).
    assert (0 < nb) as Hnb.
    { pose proof (Tiled_bounds _ _ _ (kb, nb) Ht) as B. simpl in B. apply B.
      apply om_find_elem in Hf. set_solver. }
    simpl in Hn. apply coalesced_cons. split_all; [lia|done|]. intros s Hin. split.
    + apply Hadj, Hin.
    + rewrite Z.add_assoc. apply Ha. rewrite Hp. set_solver.
Qed.

(** Which free span can be adjacent to a released one: only the neighbours
    that [lower_bound] finds. *)
Lemma lower_bound_neighbours lo hi fb a p n b af :
  om_ok fb → Tiled lo hi ((p, n) :: fb ++ a) → om_lower_bound p fb = (b, af) →
  fb = b ++ af ∧
  (∀ s, s ∈ fb → s.1 + s.2 = p → last b = Some s) ∧
  (∀ s, s ∈ fb → p + n = s.1 → head af = Some s) ∧
  (∀ s, last b = Some s → s.1 + s.2 ≤ p) ∧
  (∀ s, head af = Some s → p + n ≤ s.1).
Proof.
  intros Hok Ht Hlb.
  destruct (om_lower_bound_spec _ _ _ _ Hok Hlb) as (-> & Hb & Haf).
  rewrite Forall_forall in Hb. rewrite Forall_forall in Haf.
  assert (∀ s, s ∈ b ++ af → 0 < s.2 ∧ disjoint_spans (p, n) s) as Hd.
  { intros s Hin. split; [apply (Tiled_bounds _ _ _ s Ht); set_solver|].
    apply (Tiled_elem_disjoint lo hi _ _ [(p, n)] ((b ++ af) ++ a) Ht); set_solver. }
  pose proof (Tiled_bounds _ _ _ (p, n) Ht ltac:(set_solver)) as Hn. simpl in Hn.
  unfold disjoint_spans in Hd. simpl in Hd.
  assert (om_ok b ∧ om_ok af) as [Hokb Hoka] by (apply om_ok_app in Hok; tauto).
  split; [done|]. split_all.
  - intros s Hin Hs. pose proof (Hd _ Hin).
    apply elem_of_app in Hin as [Hin|Hin]; [|specialize (Haf _ Hin); lia].
    destruct (last b) as [t|] eqn:El.
    + apply last_Some in El as [b' ->].
      apply elem_of_app in Hin as [Hin|[->|Hin]%elem_of_cons]; [|done|set_solver].
      exfalso. apply om_ok_app in Hokb as (_ & _ & Hlt).
      specialize (Hlt s t Hin ltac:(set_solver)).
      pose proof (Hd t ltac:(set_solver)). specialize (Hb t ltac:(set_solver)).
      destruct (list_elem_of_split _ _ Hin) as (l1 & l2 & ->).
      assert (disjoint_spans s t) as [?|?]; [|lia..].
      apply (Tiled_disjoint lo hi s t ((p, n) :: (l1 ++ l2) ++ af ++ a)).
      revert Ht. apply Tiled_Proper; [done..|]. solve_Permutation.
    + apply last_None in El. subst. set_solver.
  - intros s Hin Hs. pose proof (Hd _ Hin).
    apply elem_of_app in Hin as [Hin|Hin]; [specialize (Hb _ Hin); lia|].
    destruct af as [|t af]; [set_solver|]. simpl.
    apply elem_of_cons in Hin as [->|Hin]; [done|]. exfalso.
    destruct t as [kt nt]. apply om_ok_cons_inv in Hoka as [_ Hlt].
    rewrite Forall_forall in Hlt. specialize (Hlt _ Hin). simpl in Hlt.
    pose proof (Hd (kt, nt) ltac:(set_solver)) as Hdt.
    specialize (Haf (kt, nt) ltac:(set_solver)). simpl in *. lia.
  - intros s Hs. apply last_Some in Hs as [b' ->].
    pose proof (Hd s ltac:(set_solver)). specialize (Hb s ltac:(set_solver)). lia.
  - intros s Hs. destruct af as [|t af]; [done|]. simplify_eq/=.
    pose proof (Hd s ltac:(set_solver)). specialize (Haf s ltac:(set_solver)). lia.
Qed.

(** Taking [size] bytes off the top of the free span [(f, n)]. *)
Lemma free_take_top lo hi fb a f n size :
  FreeList lo hi fb a → om_find f fb = Some n → 0 < size ≤ n →
  FreeList lo hi (if decide (n = size) then om_erase f fb else om_insert f (n - size) fb)
    ((f + (n - size), size) :: a).
Proof.
  intros [Hok Ht Hco] Hf Hs.
  pose proof (om_erase_perm _ _ _ Hf) as Hp. set (rest := om_erase f fb) in *.
  rewrite Hp in Ht, Hco. apply coalesced_cons in Hco as (Hn0 & Hco & Hadj).
  pose proof (Tiled_bounds _ _ _ (f, n) Ht ltac:(set_solver)) as Hb. simpl in Hb.
  split.
  - case_decide; auto with realm. by apply om_erase_ok.
  - case_decide.
    + subst. rewrite Z.sub_diag, Z.add_0_r, <- Permutation_middle. done.
    + rewrite om_insert_update by done. rewrite <- Permutation_middle. simpl.
      rewrite Permutation_swap. apply Tiled_cut; [lia..|].
      by replace (n - size + size) with n by lia.
  - case_decide; [done|]. rewrite om_insert_update by done.
    apply coalesced_cons. split_all; [lia|done|]. intros s Hin. split.
    + apply Hadj, Hin.
    + pose proof (Tiled_elem_disjoint lo hi (f, n) s [(f, n)] (rest ++ a) Ht
                    ltac:(set_solver) ltac:(set_solver)) as [?|?]; simpl in *; [lia|].
      pose proof (Tiled_bounds _ _ _ s Ht ltac:(set_solver)). lia.
Qed.

Lemma FreeList_elem lo hi fb a s :
  FreeList lo hi fb a → s ∈ fb ++ a → lo ≤ s.1 ∧ 0 < s.2 ∧ s.1 + s.2 ≤ hi.
Proof. intros H. apply Tiled_bounds, H. Qed.

Lemma FreeList_sizes lo hi fb a :
  lo ≤ hi → FreeList lo hi fb a →
  sizes fb + sizes a = hi - lo ∧ 0 ≤ sizes fb ∧ 0 ≤ sizes a.
Proof.
  intros Hle H. rewrite <- sizes_app, (Tiled_sizes lo hi) by (done || apply H).
  split_all; [done|..]; apply sizes_nonneg, Forall_forall; intros s Hs;
    pose proof (FreeList_elem _ _ _ _ s H ltac:(set_solver)); lia.
Qed.

Lemma FreeList_init lo hi : lo < hi → FreeList lo hi [(lo, hi - lo)] [].
Proof.
  intros. split.
  - apply om_ok_cons; constructor.
  - by apply Tiled_one.
  - apply coalesced_cons. split_all; [lia|auto with realm|set_solver].
Qed.

(** The boundaries of a coalesced free span are boundaries of spans in use or
    of the range itself. *)
Lemma Tiled_cover_elem lo hi l x :
  Tiled lo hi l → lo ≤ x < hi → ∃ s, s ∈ l ∧ s.1 ≤ x < s.1 + s.2.
Proof.
  intros [_ Hc] Hx. specialize (Hc x). unfold cov at 1 in Hc. simpl in Hc.
  rewrite decide_True in Hc by lia. clear Hx.
  induction l as [|s l IH]; autorewrite with realm in Hc; [lia|].
  destruct (decide (s.1 ≤ x < s.1 + s.2)); [exists s; set_solver|].
  unfold cov in Hc. rewrite decide_False in Hc by lia.
  destruct IH as (s' & ? & ?); [lia|]. exists s'. set_solver.
Qed.

(** Two spans of a tiling that share a byte are the same span. *)
Lemma Tiled_same lo hi l s t x :
  Tiled lo hi l → s ∈ l → t ∈ l → s.1 ≤ x < s.1 + s.2 → t.1 ≤ x < t.1 + t.2 → s = t.
Proof.
  intros Ht (l1 & l2 & ->)%list_elem_of_split Htin Hs Hx.
  destruct (decide (s = t)) as [|Hne]; [done|]. exfalso.
  assert (Tiled lo hi ([s] ++ (l1 ++ l2))) as Ht'.
  { revert Ht. apply Tiled_Proper; [done..|]. solve_Permutation. }
  assert (disjoint_spans s t) as [?|?]; [|lia..].
  apply (Tiled_elem_disjoint _ _ _ _ _ _ Ht'); set_solver.
Qed.

Lemma FreeList_end lo hi fb a s :
  FreeList lo hi fb a → s ∈ fb →
  s.1 + s.2 = hi ∨ ∃ t, t ∈ a ∧ t.1 = s.1 + s.2.
Proof.
  intros [Hok Ht Hco] Hs. pose proof (Tiled_bounds _ _ _ s Ht ltac:(set_solver)).
  destruct (decide (s.1 + s.2 = hi)); [by left|right].
  destruct (Tiled_cover_elem _ _ _ (s.1 + s.2) Ht ltac:(lia)) as (t & Hin & Hx).
  assert (t.1 = s.1 + s.2) as E.
  { destruct (decide (t.1 = s.1 + s.2)) as [|Hn]; [done|]. exfalso.
    assert (t = s) as ->; [|lia].
    apply (Tiled_same _ _ _ t s (s.1 + s.2 - 1) Ht); [done|set_solver|lia..]. }
  exists t. split; [|done]. apply elem_of_app in Hin as [Hin|]; [|done].
  exfalso. by apply (Hco s t).
Qed.

(** ** The free list is canonical

    A coalesced free list is determined by the spans in use. *)
Lemma FreeList_sub lo hi fb fb' a s :
  FreeList lo hi fb a → FreeList lo hi fb' a → s ∈ fb → s ∈ fb'.
Proof.
  intros [Hok Ht Hco] [Hok' Ht' Hco'] Hs.
  pose proof (Tiled_bounds _ _ _ s Ht ltac:(set_solver)) as Hb.
  (* a byte free in one list is free in the other *)
  assert (∀ g h u x, Tiled lo hi (g ++ a) → Tiled lo hi (h ++ a) →
            u ∈ g → u.1 ≤ x < u.1 + u.2 → ∃ t, t ∈ h ∧ t.1 ≤ x < t.1 + t.2) as Hfree.
  { intros g h u x Hg Hh Hu Hx. pose proof (Tiled_bounds _ _ _ u Hg ltac:(set_solver)).
    destruct (Tiled_cover_elem _ _ _ x Hh ltac:(lia)) as (t & Hin & Hxt).
    apply elem_of_app in Hin as [Hin|Hin]; [eauto|exfalso].
    pose proof (Tiled_elem_disjoint _ _ _ _ _ _ Hg Hu Hin) as [?|?]; lia. }
  destruct (Hfree fb fb' s s.1 Ht Ht' Hs ltac:(lia)) as (t & Hin & Hx).
  enough (s = t) as -> by done.
  assert (∀ g h u v, Tiled lo hi (g ++ a) → coalesced g → Tiled lo hi (h ++ a) →
            u ∈ g → v ∈ h → v.1 ≤ u.1 < v.1 + v.2 → u.1 ≤ v.1) as Hstart.
  { intros g h u v Hg Hcg Hh Hu Hv Hx'. destruct (decide (u.1 ≤ v.1)); [done|exfalso].
    destruct (Hfree h g v (u.1 - 1) Hh Hg Hv ltac:(lia)) as (w & Hw & Hxw).
    apply (Hcg w u); [done..|].
    pose proof (Tiled_bounds _ _ _ u Hg ltac:(set_solver)).
    destruct (decide (w.1 + w.2 = u.1)); [done|exfalso].
    assert (w = u) as ->; [|lia].
    apply (Tiled_same _ _ _ w u u.1 Hg); [set_solver..|lia|lia]. }
  assert (∀ g h u v, Tiled lo hi (g ++ a) → coalesced h → Tiled lo hi (h ++ a) →
            u ∈ g → v ∈ h → v.1 = u.1 → u.1 + u.2 ≤ v.1 + v.2) as Hend.
  { intros g h u v Hg Hch Hh Hu Hv Hx'.
    destruct (decide (u.1 + u.2 ≤ v.1 + v.2)); [done|exfalso].
    pose proof (Tiled_bounds _ _ _ v Hh ltac:(set_solver)).
    destruct (Hfree g h u (v.1 + v.2) Hg Hh Hu ltac:(lia)) as (w & Hw & Hxw).
    apply (Hch v w); [done..|].
    destruct (decide (v.1 + v.2 = w.1)); [done|exfalso].
    assert (v = w) as ->; [|lia].
    apply (Tiled_same _ _ _ v w (v.1 + v.2 - 1) Hh); [set_solver..|lia|lia]. }
  assert (t.1 = s.1) as E1 by (pose proof (Hstart fb fb' s t Ht Hco Ht' Hs Hin Hx); lia).
  pose proof (Hend fb fb' s t Ht Hco' Ht' Hs Hin E1).
  pose proof (Hend fb' fb t s Ht' Hco Ht Hin Hs ltac:(lia)).
  destruct s, t; simpl in *. f_equal; lia.
Qed.

Lemma om_ok_NoDup {V} (m : list (Z * V)) : om_ok m → NoDup m.
Proof.
  induction m as [|[k v] m IH]; [constructor|].
  intros [Hok Hlt]%om_ok_cons_inv. constructor; [|auto].
  rewrite Forall_forall in Hlt. intros Hin. specialize (Hlt _ Hin). simpl in Hlt. lia.
Qed.

Lemma FreeList_unique lo hi fb fb' a :
  FreeList lo hi fb a → FreeList lo hi fb' a → fb = fb'.
Proof.
  intros H H'. apply om_ok_perm_eq; [apply H|apply H'|].
  apply NoDup_Permutation; [apply om_ok_NoDup, H|apply om_ok_NoDup, H'|].
  intros s. split; by eapply FreeList_sub.
Qed.

Lemma FreeList_perm lo hi fb a a' :
  a ≡ₚ a' → FreeList lo hi fb a → FreeList lo hi fb a'.
Proof. intros Hp [? Ht ?]. split; [done| |done]. by rewrite <- Hp. Qed.
