(* ===== verification/MemAlloc.v ===== *)
(** * [MemoryImpl]: the free-block allocator of a memory

    [alloc_bytes_local] and [free_bytes_local] of src/templates/mem_impl.cc,
    with the usage gauges.  The specification is the set of allocated blocks:
    free and allocated blocks tile the memory at every step. *)

From S2P Require Import Prelude StdMap Spans.

Record MemoryImpl := mkMem {
  mem_size : Z;
  alignment : Z;
  free_blocks : list (Z * Z);
  usage : Z;
  peak_usage : Z;
  peak_footprint : Z }.

(** "make bad offsets really obvious (+1 PB)"; [off_t] is 8 bytes wide. *)
Definition ZERO_SIZE_INSTANCE_OFFSET : Z := 2 ^ 50.

(** Both operations pad the size the same way: [leftover] is an [off_t]. *)
Definition pad_size (al size : Z) : Z :=
  if decide (al > 0) then
    let leftover := i64 (size `mod` al) in
    if decide (leftover > 0) then u64 (size + (al - leftover)) else size
  else size.

(** Charge an allocation of [size] bytes at [retval] to the gauges. *)
Definition account (m : MemoryImpl) (fb : list (Z * Z)) (retval size : Z) : MemoryImpl :=
  let u := u64 (usage m + size) in
  let footprint := u64 (mem_size m - retval) in
  mkMem (mem_size m) (alignment m) fb u
    (if decide (u > peak_usage m) then u else peak_usage m)
    (if decide (footprint > peak_footprint m) then footprint else peak_footprint m).

(** The scan of [free_blocks] from its end: [rfb] is the part of the map not
    yet visited, last entry first. *)
Fixpoint alloc_scan (m : MemoryImpl) (rfb : list (Z * Z)) (size : Z) : MemoryImpl * Z :=
  match rfb with
  | [] => (m, -1)
  | (first, second) :: rfb' =>
      if decide (second = i64 size) then
        (account m (om_erase first (free_blocks m)) first size, first)
      else if decide (second > i64 size) then
        let leftover := i64 (second - size) in
        let retval := first + leftover in
        (account m (om_insert first leftover (free_blocks m)) retval size, retval)
      else alloc_scan m rfb' size
  end.

Definition alloc_bytes_local (m : MemoryImpl) (size : Z) : MemoryImpl * Z :=
  if decide (size = 0) then (m, i64 (mem_size m + ZERO_SIZE_INSTANCE_OFFSET))
  else
    let size := u64 (pad_size (alignment m) size + 0) in
    alloc_scan m (reverse (free_blocks m)) size.

Definition set_free (m : MemoryImpl) (fb : list (Z * Z)) (u : Z) : MemoryImpl :=
  mkMem (mem_size m) (alignment m) fb u (peak_usage m) (peak_footprint m).

(** "if we're adjacent with the before, grow it instead of adding a new
    range": [before] is the entry below the freed block. *)
Definition free_before (fb : list (Z * Z)) (before : Z * Z) (offset size : Z)
    : option (list (Z * Z)) :=
  assert! before.1 + before.2 ≤ offset;
  if decide (before.1 + before.2 = offset)
  then Some (om_insert before.1 (before.2 + size) fb)
  else Some (om_insert offset size fb).

(** The update of [free_blocks]: the block is merged with the entries before
    and after it. *)
Definition free_update (fb : list (Z * Z)) (offset size : Z) : option (list (Z * Z)) :=
  match fb with
  | [] => Some (om_insert offset size fb)
  | _ =>
    match om_lower_bound offset fb with
    | ([], after :: _) =>
        assert! offset + size ≤ after.1;
        if decide (offset + size = after.1)
        then Some (om_insert offset (size + after.2) (om_erase after.1 fb))
        else Some (om_insert offset size fb)
    | (b, after :: _) =>
        before ← last b;
        assert! offset + size ≤ after.1;
        if decide (offset + size = after.1)
        then free_before (om_erase after.1 fb) before offset (size + after.2)
        else free_before fb before offset size
    | (b, []) =>
        before ← last b;
        free_before fb before offset size
    end
  end.

Definition free_bytes_local (m : MemoryImpl) (offset size : Z) : option MemoryImpl :=
  if decide (size = 0) then
    assert! u64 offset = u64 (mem_size m + ZERO_SIZE_INSTANCE_OFFSET);
    Some m
  else
    let size := pad_size (alignment m) size in
    let u := u64 (usage m - size) in
    fb ← free_update (free_blocks m) offset size;
    Some (set_free m fb u).

(** A freshly constructed [LocalCPUMemory]: one free block. *)
Definition mem_init (size al : Z) : MemoryImpl := mkMem size al [(0, size)] 0 0 0.

(** ** Invariant *)

(** [a] lists the blocks handed out and not yet freed, with their padded
    length. *)
Record mem_inv (m : MemoryImpl) (a : list (Z * Z)) : Prop := {
  mi_free : FreeList 0 (mem_size m) (free_blocks m) a;
  mi_usage : usage m = sizes a;
  mi_size : 0 < mem_size m < 2 ^ 62;
  mi_align : 0 ≤ alignment m < 2 ^ 62;
  mi_peak : usage m ≤ peak_usage m }.

Lemma pad_size_spec al size :
  0 ≤ al < 2 ^ 62 → 0 < size < 2 ^ 62 →
  size ≤ pad_size al size < 2 ^ 63 ∧
  (0 < al → pad_size al size = round_up al size).
Proof.
  intros Hal Hs. unfold pad_size, round_up.
  destruct (decide (al > 0)); [|lia].
  pose proof (Z.mod_pos_bound size al ltac:(lia)).
  rewrite i64_id by lia.
  case_decide; [|split; [lia|intros; by rewrite decide_False by lia]].
  rewrite u64_id by (unfold is_u64; lia). split; [lia|].
  intros. by rewrite decide_True by lia.
Qed.

(** ** The allocation scan *)

(** First fit from the top: every entry above the one taken is too small. *)
Lemma alloc_scan_spec m rfb size :
  0 < size < 2 ^ 63 → Forall (λ s, 0 < s.2 < 2 ^ 63) rfb →
  (Forall (λ s, s.2 < size) rfb ∧ alloc_scan m rfb size = (m, -1)) ∨
  ∃ above f n below,
    rfb = above ++ (f, n) :: below ∧ Forall (λ s, s.2 < size) above ∧
    size ≤ n ∧
    alloc_scan m rfb size =
      (account m (if decide (n = size) then om_erase f (free_blocks m)
                  else om_insert f (n - size) (free_blocks m))
         (f + (n - size)) size, f + (n - size)).
Proof.
  intros Hs. induction 1 as [|[f n] rfb Hn Hrfb IH]; simpl.
  - by left.
  - simpl in Hn. rewrite i64_id by lia. destruct (decide (n = size)) as [->|].
    + right. exists [], f, size, rfb. split_all; [done|constructor|lia|].
      rewrite decide_True by done. by rewrite Z.sub_diag, Z.add_0_r.
    + destruct (decide (n > size)).
      * right. exists [], f, n, rfb. split_all; [done|constructor|lia|].
        rewrite i64_id by lia. by rewrite decide_False.
      * destruct IH as [[? ->]|(ab & f' & n' & be & -> & Hab & Hle & ->)].
        -- left. split; [constructor; simpl; [lia|done]|done].
        -- right. exists ((f, n) :: ab), f', n', be.
           split_all; [done| |done|done]. constructor; simpl; [lia|done].
Qed.

Lemma mem_inv_elem m a s :
  mem_inv m a → s ∈ free_blocks m ++ a →
  0 ≤ s.1 ∧ 0 < s.2 ∧ s.1 + s.2 ≤ mem_size m.
Proof. intros H. apply FreeList_elem, H. Qed.

Lemma mem_inv_sizes m a :
  mem_inv m a →
  sizes (free_blocks m) + usage m = mem_size m ∧
  0 ≤ sizes (free_blocks m) ∧ 0 ≤ usage m.
Proof.
  intros H. rewrite (mi_usage _ _ H). pose proof (mi_size _ _ H).
  pose proof (FreeList_sizes 0 (mem_size m) _ a ltac:(lia) (mi_free _ _ H)). lia.
Qed.

(** Taking [size] bytes off the top of the free block [(f, n)]. *)
Lemma take_top_inv m a f n size :
  mem_inv m a → om_find f (free_blocks m) = Some n → 0 < size ≤ n →
  mem_inv
    (account m (if decide (n = size) then om_erase f (free_blocks m)
                else om_insert f (n - size) (free_blocks m))
       (f + (n - size)) size)
    ((f + (n - size), size) :: a).
Proof.
  intros H Hf Hs. pose proof (mem_inv_sizes _ _ H) as Hu.
  pose proof (mi_size _ _ H). pose proof (mi_peak _ _ H).
  pose proof (free_take_top _ _ _ _ _ _ size (mi_free _ _ H) Hf Hs) as Hfree.
  assert (n ≤ mem_size m).
  { pose proof (mem_inv_elem _ _ (f, n) H
      ltac:(apply elem_of_app; left; by apply om_find_elem)). simpl in *. lia. }
  split; simpl; [done| |done|apply H|repeat case_decide; lia].
  rewrite sizes_cons, <- (mi_usage _ _ H), u64_id by (unfold is_u64; lia). lia.
Qed.

Lemma mem_inv_scan m a :
  mem_inv m a → Forall (λ s, 0 < s.2 < 2 ^ 63) (reverse (free_blocks m)).
Proof.
  intros H. apply Forall_forall. intros s Hin%elem_of_reverse.
  pose proof (mem_inv_elem _ _ s H ltac:(set_solver)).
  pose proof (mi_size _ _ H). lia.
Qed.

Lemma alloc_bytes_local_eq m a size :
  mem_inv m a → 0 < size < 2 ^ 62 →
  alloc_bytes_local m size =
    alloc_scan m (reverse (free_blocks m)) (pad_size (alignment m) size).
Proof.
  intros H Hs. unfold alloc_bytes_local. rewrite decide_False by lia.
  rewrite Z.add_0_r. rewrite u64_id; [done|].
  pose proof (pad_size_spec (alignment m) size (mi_align _ _ H) Hs). unfold is_u64. lia.
Qed.

Lemma mem_init_inv size al :
  0 < size < 2 ^ 62 → 0 ≤ al < 2 ^ 62 → mem_inv (mem_init size al) [].
Proof.
  intros Hs Ha. split; simpl; try done.
  rewrite <- (Z.sub_0_r size) at 2. apply FreeList_init. lia.
Qed.

(** ** Freeing *)

Lemma last_find {V} (b af : list (Z * V)) k v :
  om_ok (b ++ af) → last b = Some (k, v) → om_find k (b ++ af) = Some v.
Proof.
  intros Hok [b' ->]%last_Some. apply om_elem_find; [done|]. set_solver.
Qed.

Lemma head_find {V} (b af : list (Z * V)) k v :
  om_ok (b ++ af) → head af = Some (k, v) → om_find k (b ++ af) = Some v.
Proof.
  intros Hok Hh. apply om_elem_find; [done|]. destruct af; simplify_eq/=. set_solver.
Qed.


Lemma free_before_spec lo hi fb a before off size :
  om_ok fb → Tiled lo hi ((off, size) :: fb ++ a) → coalesced fb →
  om_find before.1 fb = Some before.2 → before.1 + before.2 ≤ off →
  (∀ s, s ∈ fb → s.1 + s.2 = off → s = before) →
  (∀ s, s ∈ fb → off + size ≠ s.1) →
  ∃ fb', free_before fb before off size = Some fb' ∧ FreeList lo hi fb' a.
Proof.
  intros Hok Ht Hco Hf Hle Hb Ha. unfold free_before. rewrite assert_true by done.
  case_decide; eexists; (split; [done|]).
  - eapply free_grow_before; done.
  - apply free_insert; [done..| |done]. intros s Hs Heq.
    rewrite (Hb s Hs Heq) in Heq. done.
Qed.

(** Freeing below a free block [(ka, na)]: with a free block before it, and as
    the first one. *)
Lemma free_between_spec lo hi fb a kb nb ka na off size :
  om_ok fb → Tiled lo hi ((off, size) :: fb ++ a) → coalesced fb →
  om_find kb fb = Some nb → kb + nb ≤ off → om_find ka fb = Some na → off + size ≤ ka →
  (∀ s, s ∈ fb → s.1 + s.2 = off → s = (kb, nb)) →
  (∀ s, s ∈ fb → off + size = s.1 → s = (ka, na)) →
  ∃ fb', (if decide (off + size = ka) then free_before (om_erase ka fb) (kb, nb) off (size + na)
          else free_before fb (kb, nb) off size) = Some fb' ∧ FreeList lo hi fb' a.
Proof.
  intros Hok Ht Hco Hfb Hkb Hfa Hka Hb Ha. case_decide as Hadj.
  - destruct (free_eat_after _ _ _ _ _ _ _ _ Hok Ht Hco Hfa Hadj) as (Ht' & Hco' & Hn & Hsub).
    apply free_before_spec with (1 := om_erase_ok _ _ Hok); try done.
    + simpl. rewrite om_find_erase_ne; [done|]. intros ->.
      assert (na = nb) as -> by congruence.
      pose proof (Tiled_bounds _ _ _ (kb, nb) Ht ltac:(apply om_find_elem in Hfb; set_solver)).
      pose proof (Tiled_bounds _ _ _ (off, size) Ht ltac:(set_solver)). simpl in *. lia.
    + intros s Hs Heq. by apply Hb; [apply Hsub|].
  - apply free_before_spec; try done.
    intros s Hs Heq. apply Hadj. by rewrite (Ha s Hs Heq) in Heq.
Qed.

Lemma free_first_spec lo hi fb a ka na off size :
  om_ok fb → Tiled lo hi ((off, size) :: fb ++ a) → coalesced fb →
  om_find ka fb = Some na →
  (∀ s, s ∈ fb → s.1 + s.2 ≠ off) → (∀ s, s ∈ fb → off + size = s.1 → s = (ka, na)) →
  ∃ fb', (if decide (off + size = ka) then Some (om_insert off (size + na) (om_erase ka fb))
          else Some (om_insert off size fb)) = Some fb' ∧ FreeList lo hi fb' a.
Proof.
  intros Hok Ht Hco Hfa Hb Ha. case_decide as Hadj; (eexists; split; [done|]).
  - destruct (free_eat_after _ _ _ _ _ _ _ _ Hok Ht Hco Hfa Hadj) as (Ht' & Hco' & Hn & Hsub).
    apply free_insert; [auto with realm|done..| |done]. intros s Hs. by apply Hb, Hsub.
  - apply free_insert; [done..|]. intros s Hs Heq. apply Hadj. by rewrite (Ha s Hs Heq) in Heq.
Qed.

(** The merge never trips an assertion and leaves a well-formed free list. *)
Lemma free_update_spec lo hi fb a off size :
  FreeList lo hi fb ((off, size) :: a) →
  ∃ fb', free_update fb off size = Some fb' ∧ FreeList lo hi fb' a.
Proof.
  intros [Hok Ht Hco]. rewrite <- Permutation_middle in Ht. unfold free_update.
  destruct (om_lower_bound off fb) as [b af] eqn:Hlb.
  destruct (lower_bound_neighbours _ _ _ _ _ _ _ _ Hok Ht Hlb)
    as (E & Hb & Ha & Hbl & Hal).
  destruct (decide (fb = [])) as [->|Hne].
  { eexists; split; [done|]. apply free_insert; [done..| |]; set_solver. }
  assert (∀ X (x y : X), match fb with [] => x | _ => y end = y) as Efb by (by destruct fb).
  rewrite Efb. clear Efb. destruct af as [|[ka na] af].
  - destruct (last b) as [[kb nb]|] eqn:El; [|apply last_None in El; by subst].
    destruct (free_before_spec lo hi fb a (kb, nb) off size) as (fb' & E' & Hfl); try done.
    + simpl. rewrite E in *. by apply last_find.
    + by apply Hbl.
    + intros s Hs Heq. specialize (Hb s Hs Heq). congruence.
    + intros s Hs Heq. by specialize (Ha s Hs Heq).
    + exists fb'. split; [|done]. destruct b; simplify_eq/=; by rewrite ?El.
  - specialize (Hal _ eq_refl) as Hle. simpl in Hle.
    assert (om_find ka fb = Some na) as Hfa by (rewrite E in *; by eapply head_find).
    assert (∀ s, s ∈ fb → off + size = s.1 → s = (ka, na)) as Ha'.
    { intros s Hs Heq. specialize (Ha s Hs Heq). by simplify_eq/=. }
    destruct (last b) as [[kb nb]|] eqn:El.
    + destruct b as [|b0 b]; [done|]. cbv beta iota. simpl. rewrite assert_true by done.
      apply free_between_spec; try done.
      * rewrite E in *. by apply last_find.
      * by apply (Hbl _ eq_refl).
      * intros s Hs Heq. specialize (Hb s Hs Heq). congruence.
    + apply last_None in El. subst b. simpl. rewrite assert_true by done.
      apply free_first_spec; try done. intros s Hs Heq. by specialize (Hb s Hs Heq).
Qed.

(** A block whose first byte is already free is refused. *)
Lemma free_update_double lo hi fb a off size s :
  FreeList lo hi fb a → s ∈ fb → s.1 ≤ off < s.1 + s.2 → 0 < size →
  free_update fb off size = None.
Proof.
  intros [Hok Ht Hco] Hin Hx Hs. unfold free_update.
  destruct (om_lower_bound off fb) as [b af] eqn:Hlb.
  destruct (om_lower_bound_spec _ _ _ _ Hok Hlb) as (E & Hb & Haf).
  rewrite Forall_forall in Hb. rewrite Forall_forall in Haf.
  assert (∀ X (x y : X), match fb with [] => x | _ => y end = y) as Efb
    by (destruct fb; [set_solver|done]).
  rewrite Efb. clear Efb.
  assert (∀ t fb' sz, last b = Some t → s ∈ b → free_before fb' t off sz = None) as Hbef.
  { intros t fb' sz Hl Hsb. unfold free_before, assert_.
    rewrite decide_False; [done|]. apply last_Some in Hl as [b' ->].
    enough (s = t) as -> by lia.
    apply elem_of_app in Hsb as [Hsb|Hsb]; [|set_solver]. exfalso.
    rewrite E in Hok. apply om_ok_app in Hok as (Hok & _).
    apply om_ok_app in Hok as (_ & _ & Hlt). specialize (Hlt s t Hsb ltac:(set_solver)).
    specialize (Hb t ltac:(set_solver)).
    assert (s = t) as ->; [|lia].
    apply (Tiled_same _ _ _ s t t.1 Ht); [set_solver..|lia|].
    pose proof (Tiled_bounds _ _ _ t Ht ltac:(set_solver)). lia. }
  rewrite E in Hin. apply elem_of_app in Hin as [Hsb|Hsa].
  - destruct (last b) as [t|] eqn:El; [|apply last_None in El; subst; set_solver].
    destruct b as [|b0 b]; [set_solver|]. cbv beta iota.
    destruct af as [|ka af]; simpl.
    + by apply Hbef.
    + unfold assert_. repeat case_decide; try done; by apply Hbef.
  - specialize (Haf _ Hsa) as Hk. assert (s.1 = off) as Eo by lia.
    destruct af as [|ka af]; [set_solver|].
    assert (¬ off + size ≤ ka.1) as Hn.
    { rewrite E in Hok. apply om_ok_app in Hok as (_ & Hok & _). destruct ka as [ka na].
      apply om_ok_cons_inv in Hok as [_ Hlt]. rewrite Forall_forall in Hlt.
      apply elem_of_cons in Hsa as [->|Hsa]; simpl in *; [lia|].
      specialize (Hlt _ Hsa). lia. }
    destruct b as [|b0 b]; cbv beta iota; [by unfold assert_; rewrite decide_False|].
    destruct (last (b0 :: b)) as [t|]; simpl; [|done].
    unfold assert_. by rewrite decide_False.
Qed.

(** What one allocation does, in terms of the free block it is cut from. *)
Lemma alloc_bytes_local_cases m a size :
  mem_inv m a → 0 < size < 2 ^ 62 →
  let padded := pad_size (alignment m) size in
  (alloc_bytes_local m size = (m, -1) ∧ Forall (λ s, s.2 < padded) (free_blocks m)) ∨
  ∃ f n m', alloc_bytes_local m size = (m', f + (n - padded)) ∧ padded ≤ n ∧
    (f, n) ∈ free_blocks m ∧ mem_inv m' ((f + (n - padded), padded) :: a) ∧
    usage m' = usage m + padded ∧ alignment m' = alignment m.
Proof.
  intros H Hs. simpl. rewrite (alloc_bytes_local_eq _ a) by done.
  pose proof (pad_size_spec (alignment m) size (mi_align _ _ H) Hs) as [Hp _].
  set (padded := pad_size _ _) in *.
  destruct (alloc_scan_spec m (reverse (free_blocks m)) padded ltac:(lia) (mem_inv_scan _ _ H))
    as [[Hf ->]|(ab & f & n & be & E & _ & Hle & ->)].
  - left. split; [done|]. by apply Forall_reverse.
  - right. assert ((f, n) ∈ free_blocks m) as Hin.
    { apply elem_of_reverse. rewrite E. set_solver. }
    assert (om_find f (free_blocks m) = Some n) as Hf
      by (apply om_elem_find; [apply H|done]).
    pose proof (take_top_inv _ _ _ _ padded H Hf ltac:(lia)) as Hi.
    pose proof (mi_usage _ _ Hi) as Hu. rewrite sizes_cons, <- (mi_usage _ _ H) in Hu.
    eexists f, n, _. split_all; [done..|lia|done].
Qed.

(** ** Properties *)

(** C1. [alloc_bytes_local] either returns an offset whose padded block was
    free, leaving every other allocated block untouched, or returns -1 with
    the memory unchanged, and then only when no free block is large enough.
    Free and allocated blocks tile the memory and the free blocks stay
    coalesced, so the block returned overlaps no other allocated one and lies
    inside the memory. *)
Theorem alloc_bytes_local_ok m a size :
  mem_inv m a → 0 < size < 2 ^ 62 →
  let padded := pad_size (alignment m) size in
  let '(m', r) := alloc_bytes_local m size in
  (r = -1 ∧ m' = m ∧ Forall (λ s, s.2 < padded) (free_blocks m)) ∨
  (0 ≤ r ∧ r + padded ≤ mem_size m ∧ mem_inv m' ((r, padded) :: a) ∧
   Forall (disjoint_spans (r, padded)) a).
Proof.
  intros H Hs. simpl.
  destruct (alloc_bytes_local_cases _ _ _ H Hs) as [[-> ?]|(f & n & m' & -> & Hn & Hin & Hi & _)].
  - by left.
  - right. pose proof (mem_inv_elem _ _ _ Hi ltac:(apply elem_of_app; right; left)) as Hb.
    pose proof (pad_size_spec (alignment m) size (mi_align _ _ H) Hs) as [Hp _].
    pose proof (mem_inv_elem _ _ (f, n) H ltac:(set_solver)) as Hb'.
    simpl in *. split_all; [lia..|done|]. apply Forall_forall. intros t Ht.
    pose proof (fl_tiled _ _ _ _ (mi_free _ _ Hi)) as Htl.
    rewrite <- Permutation_middle in Htl.
    apply (Tiled_elem_disjoint 0 (mem_size m') _ _ [_] (_ ++ a) Htl); set_solver.
Qed.

Lemma alloc_bytes_local_ok_witness :
  let '(m', r) := alloc_bytes_local (mem_init 4096 256) 1000 in
  r = 3072 ∧
  ((r = -1 ∧ m' = mem_init 4096 256 ∧ Forall (λ s, s.2 < 1024) [(0, 4096)]) ∨
   (0 ≤ r ∧ r + 1024 ≤ 4096 ∧ mem_inv m' [(r, 1024)] ∧ Forall (disjoint_spans (r, 1024)) [])).
Proof.
  split; [reflexivity|].
  exact (alloc_bytes_local_ok (mem_init 4096 256) [] 1000
           (mem_init_inv 4096 256 ltac:(lia) ltac:(lia)) ltac:(lia)).
Defined.

(** C2. Freeing an allocated block never fails an assertion, and the freed
    bytes are free again: the remaining allocated blocks and the coalesced
    free blocks tile the memory, and the usage gauge drops by the padded
    size. *)
Theorem free_bytes_local_ok m a off size :
  0 < size < 2 ^ 62 → mem_inv m ((off, pad_size (alignment m) size) :: a) →
  ∃ m', free_bytes_local m off size = Some m' ∧ mem_inv m' a ∧
        usage m' + pad_size (alignment m) size = usage m.
Proof.
  intros Hs H. unfold free_bytes_local. rewrite decide_False by lia.
  pose proof (pad_size_spec (alignment m) size (mi_align _ _ H) Hs) as [Hp _].
  set (padded := pad_size _ _) in *.
  destruct (free_update_spec _ _ _ _ _ _ (mi_free _ _ H)) as (fb' & -> & Hfl).
  simpl. pose proof (mem_inv_sizes _ _ H) as (Hu & Hu1 & Hu2).
  pose proof (mi_usage _ _ H) as Hua. rewrite sizes_cons in Hua.
  pose proof (FreeList_sizes 0 (mem_size m) _ a ltac:(pose proof (mi_size _ _ H); lia) Hfl).
  pose proof (mi_size _ _ H).
  assert (u64 (usage m - padded) = usage m - padded) as Eu
    by (apply u64_id; unfold is_u64; lia).
  eexists. split_all; [done| |simpl; rewrite Eu; lia].
  pose proof (mi_peak _ _ H). split; simpl; [done|lia|done|apply H|lia].
Qed.

Lemma mem_inv_alloc_example :
  mem_inv (alloc_bytes_local (mem_init 4096 256) 1000).1 [(3072, 1024)].
Proof.
  exact (take_top_inv (mem_init 4096 256) [] 0 4096 1024
           (mem_init_inv 4096 256 ltac:(lia) ltac:(lia)) eq_refl ltac:(lia)).
Qed.

Lemma free_bytes_local_ok_witness :
  ∃ m', free_bytes_local (alloc_bytes_local (mem_init 4096 256) 1000).1 3072 1000 = Some m' ∧
        mem_inv m' [] ∧ usage m' + 1024 = 1024.
Proof.
  exact (free_bytes_local_ok (alloc_bytes_local (mem_init 4096 256) 1000).1 [] 3072 1000
           ltac:(lia) mem_inv_alloc_example).
Defined.

(** Freeing the block just allocated restores the memory: the free list is
    the same list as before and the usage gauge the same number. *)
Theorem alloc_free_roundtrip m a size m' r :
  mem_inv m a → 0 < size < 2 ^ 62 → alloc_bytes_local m size = (m', r) → r ≠ -1 →
  ∃ m'', free_bytes_local m' r size = Some m'' ∧
         free_blocks m'' = free_blocks m ∧ usage m'' = usage m ∧ mem_inv m'' a.
Proof.
  intros H Hs E Hr.
  destruct (alloc_bytes_local_cases _ _ _ H Hs) as [[E' ?]|(f & n & m1 & E' & Hn & Hin & Hi & Hu & Hal)];
    rewrite E in E'; simplify_eq.
  unfold free_bytes_local. rewrite decide_False by lia. rewrite Hal.
  pose proof (pad_size_spec (alignment m) size (mi_align _ _ H) Hs) as [Hp _].
  set (padded := pad_size _ _) in *.
  destruct (free_update_spec _ _ _ _ _ _ (mi_free _ _ Hi)) as (fb' & -> & Hfl).
  assert (mem_size m1 = mem_size m) as Esz.
  { revert E. rewrite (alloc_bytes_local_eq _ a) by done. clear. generalize (pad_size (alignment m) size).
    intros z. generalize (reverse (free_blocks m)). intros l. induction l as [|[??] l IH]; simpl; intros; [by simplify_eq|].
    repeat case_decide; simplify_eq/=; auto. }
  rewrite Esz in Hfl. pose proof (FreeList_unique _ _ _ _ _ (mi_free _ _ H) Hfl) as <-.
  pose proof (mem_inv_sizes _ _ H). pose proof (mi_size _ _ H). pose proof (mi_peak _ _ Hi).
  assert (u64 (usage m1 - padded) = usage m) as Eu
    by (rewrite Hu, u64_id; unfold is_u64; lia).
  eexists. simpl. split_all; [done|done|done|]. pose proof (mi_align _ _ H).
  split; simpl; rewrite ?Eu, ?Esz, ?Hal; [done|apply H|done|done|lia].
Qed.

Lemma alloc_free_roundtrip_witness :
  ∃ m'', free_bytes_local (alloc_bytes_local (mem_init 4096 256) 1000).1 3072 1000 = Some m'' ∧
         free_blocks m'' = [(0, 4096)] ∧ usage m'' = 0 ∧ mem_inv m'' [].
Proof.
  exact (alloc_free_roundtrip (mem_init 4096 256) [] 1000 _ 3072
           (mem_init_inv 4096 256 ltac:(lia) ltac:(lia)) ltac:(lia) eq_refl ltac:(lia)).
Defined.

(** When the memory is a whole number of alignment units and every
    allocated block is aligned, the next block is aligned too, in offset and in
    length: the boundaries of coalesced free blocks are boundaries of allocated
    ones. *)
Theorem alloc_bytes_local_aligned m a size m' r :
  mem_inv m a → 0 < size < 2 ^ 62 → 0 < alignment m → (alignment m | mem_size m) →
  Forall (λ s, (alignment m | s.1)) a →
  alloc_bytes_local m size = (m', r) → r ≠ -1 →
  (alignment m | r) ∧ (alignment m | pad_size (alignment m) size).
Proof.
  intros H Hs Hal Hd Ha E Hr.
  destruct (pad_size_spec (alignment m) size (mi_align _ _ H) Hs) as [Hp Hru].
  destruct (round_up_spec (alignment m) size Hal ltac:(lia)) as [Hdp _].
  rewrite <- (Hru Hal) in Hdp. split; [|done].
  destruct (alloc_bytes_local_cases _ _ _ H Hs) as [[E' ?]|(f & n & m1 & E' & Hn & Hin & _)];
    rewrite E in E'; simplify_eq.
  replace (f + (n - pad_size (alignment m) size))
    with ((f + n) - pad_size (alignment m) size) by lia.
  apply Z.divide_sub_r; [|done].
  destruct (FreeList_end _ _ _ _ _ (mi_free _ _ H) Hin) as [E2|(t & Ht & E2)]; simpl in E2.
  - by rewrite E2.
  - rewrite <- E2. rewrite Forall_forall in Ha. by apply Ha.
Qed.

Lemma alloc_bytes_local_aligned_witness :
  (256 | 3072) ∧ (256 | pad_size 256 1000).
Proof.
  exact (alloc_bytes_local_aligned (mem_init 4096 256) [] 1000 _ 3072
           (mem_init_inv 4096 256 ltac:(lia) ltac:(lia)) ltac:(lia)
           ltac:(simpl; lia) ltac:(exists 16; reflexivity) (Forall_nil_2 _) eq_refl ltac:(lia)).
Defined.

(** A block whose first byte is already free, a double free among them, is
    caught: [free_bytes_local] fails an assertion instead of corrupting the
    free list. *)
Theorem free_bytes_local_double m a off size s :
  mem_inv m a → 0 < size < 2 ^ 62 → s ∈ free_blocks m → s.1 ≤ off < s.1 + s.2 →
  free_bytes_local m off size = None.
Proof.
  intros H Hs Hin Hx. unfold free_bytes_local. rewrite decide_False by lia.
  pose proof (pad_size_spec (alignment m) size (mi_align _ _ H) Hs) as [Hp _].
  by rewrite (free_update_double _ _ _ _ off _ s (mi_free _ _ H)) by (done || lia).
Qed.

Lemma free_bytes_local_double_witness :
  free_bytes_local (mem_init 4096 256) 1024 100 = None.
Proof.
  exact (free_bytes_local_double (mem_init 4096 256) [] 1024 100 (0, 4096)
           (mem_init_inv 4096 256 ltac:(lia) ltac:(lia)) ltac:(lia)
           ltac:(left) ltac:(simpl; lia)).
Defined.

(** A request of 2^63 bytes is not refused: the signed comparison sees a
    negative size, and the "offset" returned is garbage. *)
Lemma alloc_bytes_local_huge :
  alloc_bytes_local (mem_init 1024 0) (2 ^ 63) =
  (mkMem 1024 0 [(0, 1024 - 2 ^ 63)] (2 ^ 63) (2 ^ 63) (2 ^ 63), 1024 - 2 ^ 63).
Proof. vm_compute. reflexivity. Qed.

(** Zero-byte requests bypass the free list both ways. *)
Lemma alloc_free_zero m a :
  mem_inv m a →
  ∃ r, alloc_bytes_local m 0 = (m, r) ∧ mem_size m < r ∧ free_bytes_local m r 0 = Some m.
Proof.
  intros H. pose proof (mi_size _ _ H). unfold alloc_bytes_local, free_bytes_local.
  exists (mem_size m + ZERO_SIZE_INSTANCE_OFFSET). unfold ZERO_SIZE_INSTANCE_OFFSET.
  rewrite !decide_True by done. rewrite i64_id by lia. split_all; [done|lia|].
  by rewrite assert_true.
Qed.
