(* ===== verification/SrcDataPool.v ===== *)
(** * [SrcDataPool]: the pool of registered source memory

    Payloads are copied into registered memory before a long message is sent.
    [alloc_srcptr], [add_pending] and [release_srcptr] of
    src/templates/activemsg.cc, and the accounting of spilled payloads. *)

From S2P Require Import Prelude StdMap Spans.

(** ** Data *)

(** The static limits of the class. *)
Record spill_limits := mkLimits {
  max_spill_bytes : Z;
  print_spill_threshold : Z;
  print_spill_step : Z }.

(** Spill accounting; the three arrays are indexed by message id. *)
Record spill_state := mkSpill {
  current_spill_bytes : Z;
  peak_spill_bytes : Z;
  current_spill_threshold : Z;
  current_permsg_spill_bytes : list Z;
  peak_permsg_spill_bytes : list Z;
  total_permsg_spill_bytes : list Z;
  current_suspended_spillers : Z;
  total_suspended_spillers : Z;
  total_suspended_time : Z }.

(** A pending allocation is the message waiting for it and its
    [payload_size]. *)
Record SrcDataPool := mkSdp {
  total_size : Z;
  free_list : list (Z * Z);
  pending_allocations : list (Z * Z);
  in_use : list (Z * Z);
  alloc_counts : list (Z * Z);
  spill : spill_state }.

Definition set_lists (s : SrcDataPool) (fl pend iu : list (Z * Z)) : SrcDataPool :=
  mkSdp (total_size s) fl pend iu (alloc_counts s) (spill s).

Definition set_spill (s : SrcDataPool) (sp : spill_state) : SrcDataPool :=
  mkSdp (total_size s) (free_list s) (pending_allocations s) (in_use s) (alloc_counts s) sp.

(** ** Construction *)
Definition SrcDataPool_init (lim : spill_limits) (base size : Z) : SrcDataPool :=
  mkSdp size [(base, size)] [] [] []
    (mkSpill 0 0 (print_spill_threshold lim)
       (replicate 256 0) (replicate 256 0) (replicate 256 0) 0 0 0).

(** The destructor reports how many source pointers were counted and how many
    counts did not return to zero. *)
Definition SrcDataPool_fini (s : SrcDataPool) : Z * Z :=
  foldl (λ '(total, nonzero) e,
           (total + 1, if decide (e.2 ≠ 0) then nonzero + 1 else nonzero))
    (0, 0) (alloc_counts s).

(** ** Allocation *)
Definition BLOCK_SIZE : Z := 64.

Definition round_up_size (size : Z) : Z :=
  let remainder := size `mod` BLOCK_SIZE in
  if decide (remainder ≠ 0) then u64 (size + (BLOCK_SIZE - remainder)) else size.

(** The walk of the free list: [inl p] when a span of exactly the size needed
    is met, otherwise the smallest larger span seen (0 for none). *)
Fixpoint walk_free_list (l : list (Z * Z)) (size_needed : Z) (ub ub_size : Z) : Z + Z :=
  match l with
  | [] => inr ub
  | (first, second) :: l' =>
      if decide (second = size_needed) then inl first
      else if decide (second > size_needed) then
        if decide (ub = 0) then walk_free_list l' size_needed first second
        else if decide (second < ub_size) then walk_free_list l' size_needed first second
        else walk_free_list l' size_needed ub ub_size
      else walk_free_list l' size_needed ub ub_size
  end.

(** Returns the null pointer when the caller has to wait. *)
Definition alloc_srcptr (s : SrcDataPool) (size_needed : Z) : option (SrcDataPool * Z) :=
  assert! ¬ size_needed > total_size s;
  match pending_allocations s with
  | _ :: _ => Some (s, 0)
  | [] =>
      let size_needed := round_up_size size_needed in
      match walk_free_list (free_list s) size_needed 0 0 with
      | inl srcptr =>
          Some (set_lists s (om_erase srcptr (free_list s)) []
                  (om_insert srcptr size_needed (in_use s)), srcptr)
      | inr ub =>
          if decide (ub ≠ 0) then
            second ← om_find ub (free_list s);
            let srcptr := ub + (second - size_needed) in
            Some (set_lists s (om_insert ub (u64 (second - size_needed)) (free_list s)) []
                    (om_insert srcptr size_needed (in_use s)), srcptr)
          else Some (s, 0)
      end
  end.

Definition add_pending (s : SrcDataPool) (msg payload_size : Z) : option SrcDataPool :=
  assert! ¬ payload_size > total_size s;
  Some (set_lists s (free_list s) (pending_allocations s ++ [(msg, payload_size)]) (in_use s)).

(** ** Release *)

(** "look below first": [rb] holds the entries before the iterator [above],
    nearest first. *)
Fixpoint merge_below (rb : list (Z * Z)) (p size : Z) : list (Z * Z) * Z * Z :=
  match rb with
  | [] => ([], p, size)
  | (first, second) :: rb' =>
      if decide (first + second ≠ p) then (rb, p, size)
      else merge_below rb' first (u64 (size + second))
  end.

(** "now look above" *)
Fixpoint merge_above (af : list (Z * Z)) (p size : Z) : list (Z * Z) * Z :=
  match af with
  | [] => ([], size)
  | (first, second) :: af' =>
      if decide (p + size ≠ first) then (af, size)
      else merge_above af' p (u64 (size + second))
  end.

(** The free list after absorbing the neighbours of the released span, and the
    grown span, which is not in the list. *)
Definition absorb (fl : list (Z * Z)) (p size : Z) : list (Z * Z) * Z * Z :=
  match fl with
  | [] => ([], p, size)
  | _ =>
      let '(b, af) := om_lower_bound p fl in
      let '(rb, p', size') := merge_below (reverse b) p size in
      let '(af', size'') := merge_above af p' size' in
      (reverse rb ++ af', p', size'')
  end.

(** "now see if we can satisfy any other pending allocations": the loop calls
    the normal allocator on the front of the queue.  Each round pops one
    entry, so a fuel above the length of the queue is never used up. *)
Fixpoint satisfy_more (fuel : nat) (s : SrcDataPool) (satisfied : list (Z * Z))
    : option (SrcDataPool * list (Z * Z)) :=
  match fuel with
  | O => None
  | S fuel =>
      match pending_allocations s with
      | [] => Some (s, satisfied)
      | (msg, payload_size) :: _ =>
          '(s', ptr) ← alloc_srcptr s payload_size;
          if decide (ptr = 0) then Some (s', satisfied)
          else satisfy_more fuel
                 (set_lists s' (free_list s') (tail (pending_allocations s')) (in_use s'))
                 (satisfied ++ [(msg, ptr)])
      end
  end.

(** The critical section of [release_srcptr]; the second result lists the
    messages that got a source pointer. *)
Definition release_srcptr (s : SrcDataPool) (srcptr : Z)
    : option (SrcDataPool * list (Z * Z)) :=
  size ← om_find srcptr (in_use s);
  let iu := om_erase srcptr (in_use s) in
  assert! om_find srcptr (free_list s) = None;
  let '(fl, p, size) := absorb (free_list s) srcptr size in
  match pending_allocations s with
  | (msg, payload_size) :: pend =>
      if decide (payload_size ≤ size) then
        let act_size := round_up_size payload_size in
        let iu := om_insert p act_size iu in
        let fl := if decide (size > act_size)
                  then om_insert (p + act_size) (u64 (size - act_size)) fl else fl in
        satisfy_more (S (length pend)) (set_lists s fl pend iu) [(msg, p)]
      else Some (set_lists s (om_insert p size fl) (pending_allocations s) iu, [])
  | [] => Some (set_lists s (om_insert p size fl) [] iu, [])
  end.

(** ** Invariant *)

Definition aligned (base : Z) (s : Z * Z) : Prop :=
  (BLOCK_SIZE | s.1 - base) ∧ (BLOCK_SIZE | s.2).

(** Free and used spans tile the pool, in blocks of 64 bytes; a message only
    waits while some span is in use, whose release will serve it. *)
Record sdp_inv (base : Z) (s : SrcDataPool) : Prop := {
  si_free : FreeList base (base + total_size s) (free_list s) (in_use s);
  si_use_ok : om_ok (in_use s);
  si_size : 0 < base ∧ 0 < total_size s ∧ base + total_size s < 2 ^ 63;
  si_total : (BLOCK_SIZE | total_size s);
  si_aligned : Forall (aligned base) (free_list s ++ in_use s);
  si_pending : Forall (λ e, 0 < e.2 ≤ total_size s) (pending_allocations s);
  si_progress : pending_allocations s ≠ [] → in_use s ≠ [] }.

Lemma round_up_size_eq n : 0 ≤ n < 2 ^ 63 → round_up_size n = round_up BLOCK_SIZE n.
Proof.
  intros Hn. unfold round_up_size, round_up, BLOCK_SIZE.
  pose proof (Z.mod_pos_bound n 64 ltac:(lia)).
  repeat case_decide; try lia. rewrite u64_id; [done|unfold is_u64; lia].
Qed.

Lemma round_up_size_spec t n :
  0 < n ≤ t → t < 2 ^ 63 → (BLOCK_SIZE | t) →
  n ≤ round_up_size n ≤ t ∧ (BLOCK_SIZE | round_up_size n).
Proof.
  intros Hn Ht Hd. rewrite round_up_size_eq by lia.
  destruct (round_up_spec BLOCK_SIZE n) as [? ?]; [unfold BLOCK_SIZE; lia..|].
  pose proof (round_up_le BLOCK_SIZE n t ltac:(unfold BLOCK_SIZE; lia) ltac:(lia) Hd).
  split; [lia|done].
Qed.

(** ** The walk is a best fit *)
Lemma walk_free_list_spec l need ub ubn :
  Forall (λ s, 0 < s.1) l → (ub = 0 ∨ (0 < ub ∧ need < ubn)) →
  match walk_free_list l need ub ubn with
  | inl p => (p, need) ∈ l
  | inr p =>
      (p = 0 ∧ ub = 0 ∧ Forall (λ s, s.2 < need) l) ∨
      ∃ n, need < n ∧ p ≠ 0 ∧ ((p, n) ∈ l ∨ (p, n) = (ub, ubn)) ∧
           Forall (λ s, need ≤ s.2 → n ≤ s.2) l ∧ (ub = 0 ∨ n ≤ ubn)
  end.
Proof.
  revert ub ubn. induction l as [|[f n] l IH]; intros ub ubn Hpos Hub; simpl.
  { destruct Hub as [->|[? ?]]; [left; by auto|right].
    exists ubn. split_all; [lia|lia|by right|constructor|by right]. }
  apply Forall_cons in Hpos as [Hf Hpos]; simpl in Hf.
  destruct (decide (n = need)) as [->|Hn]; [set_solver|].
  assert (∀ ub' ubn', (ub' = 0 ∨ (0 < ub' ∧ need < ubn')) →
    ((ub', ubn') = (ub, ubn) ∨ (ub', ubn') = (f, n) ∧ (ub = 0 ∨ n ≤ ubn)) →
    (need < n → ub' ≠ 0 ∧ ubn' ≤ n) → (ub = 0 → n < need → ub' = 0) →
    match walk_free_list l need ub' ubn' with
    | inl p => (p, need) ∈ (f, n) :: l
    | inr p => (p = 0 ∧ ub = 0 ∧ Forall (λ s, s.2 < need) ((f, n) :: l)) ∨
       ∃ n0, need < n0 ∧ p ≠ 0 ∧ ((p, n0) ∈ (f, n) :: l ∨ (p, n0) = (ub, ubn)) ∧
           Forall (λ s, need ≤ s.2 → n0 ≤ s.2) ((f, n) :: l) ∧ (ub = 0 ∨ n0 ≤ ubn)
    end) as Hgo.
  { intros ub' ubn' Hub' Hor Hbig Hsmall. specialize (IH ub' ubn' Hpos Hub').
    destruct (walk_free_list l need ub' ubn') as [p|p]; [set_solver|].
    destruct IH as [(-> & -> & HF)|(k & Hk & Hp & Hin & HF & Hle)].
    - left. split_all; [done| |].
      + destruct Hor as [?|[? ?]]; simplify_eq; lia.
      + constructor; [simpl; destruct (decide (need < n)); [naive_solver|lia]|done].
    - right. exists k. split_all; [done|done| | |].
      + destruct Hin as [?|?]; [set_solver|]. destruct Hor as [?|[? ?]]; simplify_eq; set_solver.
      + constructor; [simpl; intros; destruct Hle; [naive_solver lia|]|done].
        destruct (Hbig ltac:(lia)). lia.
      + destruct Hor as [?|[? ?]]; simplify_eq; destruct Hle; lia. }
  repeat case_decide; apply Hgo; first [by auto|lia|intros; lia|naive_solver lia|idtac].
Qed.

Lemma sdp_inv_elem base s e :
  sdp_inv base s → e ∈ free_list s ++ in_use s →
  base ≤ e.1 ∧ 0 < e.2 ∧ e.1 + e.2 ≤ base + total_size s.
Proof. intros H. apply FreeList_elem, H. Qed.

(** A span of the pool outside the free list becomes used: the two maps stay
    a tiling of the pool. *)
Lemma use_span base s fl pend iu p n :
  0 < base ∧ 0 < total_size s ∧ base + total_size s < 2 ^ 63 →
  (BLOCK_SIZE | total_size s) →
  FreeList base (base + total_size s) fl ((p, n) :: iu) → om_ok iu →
  Forall (aligned base) (fl ++ (p, n) :: iu) →
  Forall (λ e, 0 < e.2 ≤ total_size s) pend →
  sdp_inv base (set_lists s fl pend (om_insert p n iu)).
Proof.
  intros Hsz Htot Hfl Hok Hal Hpend.
  assert (om_insert p n iu ≡ₚ (p, n) :: iu) as Hp.
  { apply om_insert_fresh. apply (span_fresh base (base + total_size s) iu fl p n).
    pose proof (fl_tiled _ _ _ _ Hfl) as Ht. revert Ht.
    apply Tiled_Proper; [done..|]. solve_Permutation. }
  split; simpl; [|auto with realm|done|done| |done|].
  - by eapply FreeList_perm; [symmetry|].
  - by rewrite Hp.
  - intros _ E. rewrite E in Hp. by apply Permutation_nil_cons in Hp.
Qed.

(** What one allocation does: refuse, or cut the block off a smallest free
    span that is large enough. *)
Lemma alloc_srcptr_cases base s size :
  sdp_inv base s → 0 < size ≤ total_size s →
  let need := round_up_size size in
  (alloc_srcptr s size = Some (s, 0) ∧
   (pending_allocations s ≠ [] ∨ Forall (λ e, e.2 < need) (free_list s))) ∨
  (pending_allocations s = [] ∧
   ∃ f n s', (f, n) ∈ free_list s ∧ need ≤ n ∧
     Forall (λ e, need ≤ e.2 → n ≤ e.2) (free_list s) ∧
     alloc_srcptr s size = Some (s', f + (n - need)) ∧ 0 < f + (n - need) ∧
     s' = set_lists s (if decide (n = need) then om_erase f (free_list s)
                       else om_insert f (n - need) (free_list s)) []
            (om_insert (f + (n - need)) need (in_use s)) ∧
     sdp_inv base s').
Proof.
  intros H Hs need. destruct (si_size _ _ H) as (Hb & Ht & Hm).
  destruct (round_up_size_spec _ _ Hs ltac:(lia) (si_total _ _ H)) as [Hneed Hdiv].
  fold need in Hneed, Hdiv. unfold alloc_srcptr. rewrite assert_true by lia.
  destruct (pending_allocations s) as [|pa pend] eqn:Epend; [|left; split; [done|by left]].
  fold need.
  assert (Forall (λ e, 0 < e.1) (free_list s)) as Hpos.
  { apply Forall_forall. intros e He. pose proof (sdp_inv_elem _ _ e H ltac:(set_solver)). lia. }
  pose proof (walk_free_list_spec (free_list s) need 0 0 Hpos (or_introl eq_refl)) as Hw.
  assert (∀ f n, (f, n) ∈ free_list s → need ≤ n →
    sdp_inv base (set_lists s (if decide (n = need) then om_erase f (free_list s)
                               else om_insert f (n - need) (free_list s)) []
            (om_insert (f + (n - need)) need (in_use s)))) as Hinv.
  { intros f n Hin Hle. pose proof (om_elem_find _ _ _ (fl_ok _ _ _ _ (si_free _ _ H)) Hin) as Hf.
    pose proof (free_take_top _ _ _ _ _ _ need (si_free _ _ H) Hf ltac:(lia)) as Hfl.
    apply use_span; [done|apply H|done|apply H| |constructor].
    pose proof (si_aligned _ _ H) as Hal. pose proof (om_erase_perm _ _ _ Hf) as Hp.
    rewrite Hp in Hal. apply Forall_cons in Hal as [[Hd1 Hd2] Hal]. simpl in Hd1, Hd2.
    apply Forall_app in Hal as [Hal1 Hal2].
    assert (aligned base (f + (n - need), need)).
    { split; [|done]. simpl. replace (f + (n - need) - base) with ((f - base) + n - need) by lia.
      apply Z.divide_sub_r; [by apply Z.divide_add_r|done]. }
    apply Forall_app. split; [|by constructor]. case_decide; [done|].
    rewrite om_insert_update by (done || apply H). constructor; [|done].
    split; simpl; [done|by apply Z.divide_sub_r]. }
  destruct (walk_free_list (free_list s) need 0 0) as [p|p].
  - right. split; [done|]. pose proof (Hinv _ _ Hw ltac:(lia)) as Hi.
    eexists p, need, _. pose proof (sdp_inv_elem _ _ (p, need) H ltac:(set_solver)).
    simpl in *. split_all; [done|lia| |..|done|exact Hi].
    + apply Forall_forall. intros; lia.
    + rewrite decide_True by done. by rewrite Z.sub_diag, Z.add_0_r.
    + lia.
  - destruct Hw as [(-> & _ & HF)|(n & Hn & Hp & [Hin|Hin] & HF & _)].
    + left. split; [done|]. by right.
    + right. split; [done|]. rewrite decide_True by done.
      pose proof (Hinv _ _ Hin ltac:(lia)) as Hi.
      pose proof (sdp_inv_elem _ _ (p, n) H ltac:(set_solver)). simpl in *.
      rewrite (om_elem_find _ _ _ (fl_ok _ _ _ _ (si_free _ _ H)) Hin). simpl.
      rewrite u64_id by (unfold is_u64; lia).
      eexists p, n, _. split_all; [done|lia|done| |lia|done|done].
      by rewrite decide_False by lia.
    + simplify_eq.
Qed.

(** ** Merging on release *)

Lemma merge_below_spec lo hi rb rest p n :
  0 ≤ lo → hi < 2 ^ 63 → Tiled lo hi ((p, n) :: rb ++ rest) →
  let '(rb', p', n') := merge_below rb p n in
  Tiled lo hi ((p', n') :: rb' ++ rest) ∧ (∃ g, rb = g ++ rb') ∧ p' + n' = p + n ∧
  p' ≤ p ∧ (∀ e, head rb' = Some e → e.1 + e.2 ≠ p') ∧
  (∀ P : Z * Z → Prop, P (p, n) → Forall P rb →
     (∀ a b c, P (a, b) → P (a + b, c) → P (a, b + c)) → P (p', n')).
Proof.
  intros Hlo Hhi. revert p n. induction rb as [|[f m] rb IH]; intros p n Ht; simpl.
  { split_all; [done|by exists []|lia|lia|done|auto]. }
  case_decide as Hadj.
  { split_all; [done|by exists []|lia|lia| |auto]. intros e E. by simplify_eq/=. }
  assert (p = f + m) as -> by lia. clear Hadj.
  pose proof (Tiled_bounds _ _ _ (f, m) Ht ltac:(set_solver)) as Hb1.
  pose proof (Tiled_bounds _ _ _ (f + m, n) Ht ltac:(set_solver)) as Hb2. simpl in *.
  rewrite u64_id by (unfold is_u64; lia).
  assert (Tiled lo hi ((f, n + m) :: rb ++ rest)) as Ht'.
  { rewrite (Z.add_comm n m). apply Tiled_merge. by rewrite Permutation_swap. }
  specialize (IH _ _ Ht'). destruct (merge_below rb f (n + m)) as [[rb' p'] n'].
  destruct IH as (? & (g & ->) & ? & ? & ? & HP). split_all; [done| |lia|lia|done|].
  - by exists ((f, m) :: g).
  - intros P Hp HF Hm. apply Forall_cons in HF as [Hf HF]. apply HP; [|done|done].
    rewrite (Z.add_comm n m). auto.
Qed.

Lemma merge_above_spec lo hi af rest p n :
  0 ≤ lo → hi < 2 ^ 63 → Tiled lo hi ((p, n) :: af ++ rest) →
  let '(af', n') := merge_above af p n in
  Tiled lo hi ((p, n') :: af' ++ rest) ∧ (∃ g, af = g ++ af') ∧
  (∀ e, head af' = Some e → p + n' ≠ e.1) ∧
  (∀ P : Z * Z → Prop, P (p, n) → Forall P af →
     (∀ a b c, P (a, b) → P (a + b, c) → P (a, b + c)) → P (p, n')).
Proof.
  intros Hlo Hhi. revert n. induction af as [|[f m] af IH]; intros n Ht; simpl.
  { split_all; [done|by exists []|done|auto]. }
  case_decide as Hadj.
  { split_all; [done|by exists []| |auto]. intros e E. by simplify_eq/=. }
  assert (f = p + n) as -> by lia. clear Hadj.
  pose proof (Tiled_bounds _ _ _ (p, n) Ht ltac:(set_solver)) as Hb1.
  pose proof (Tiled_bounds _ _ _ (p + n, m) Ht ltac:(set_solver)) as Hb2. simpl in *.
  rewrite u64_id by (unfold is_u64; lia).
  specialize (IH _ (Tiled_merge _ _ _ _ _ _ Ht)).
  destruct (merge_above af p (n + m)) as [af' n'].
  destruct IH as (? & (g & ->) & ? & HP). split_all; [done| |done|].
  - by exists ((p + n, m) :: g).
  - intros P Hp HF Hm. apply Forall_cons in HF as [Hf HF]. apply HP; auto.
Qed.

(** The grown span is outside of the remaining free list and touches none of
    its entries. *)
Lemma absorb_spec lo hi fl rest p n :
  0 ≤ lo → hi < 2 ^ 63 → om_ok fl → Tiled lo hi ((p, n) :: fl ++ rest) → coalesced fl →
  let '(fl', p', n') := absorb fl p n in
  om_ok fl' ∧ Tiled lo hi ((p', n') :: fl' ++ rest) ∧ coalesced fl' ∧
  (∀ e, e ∈ fl' → e.1 + e.2 ≠ p') ∧ (∀ e, e ∈ fl' → p' + n' ≠ e.1) ∧
  (∀ e, e ∈ fl' → e ∈ fl) ∧
  (∀ P : Z * Z → Prop, P (p, n) → Forall P fl →
     (∀ a b c, P (a, b) → P (a + b, c) → P (a, b + c)) → P (p', n')).
Proof.
  intros Hlo Hhi Hok Ht Hco. unfold absorb.
  destruct (decide (fl = [])) as [->|Hne].
  { split_all; auto with realm; set_solver. }
  assert (∀ X (x y : X), match fl with [] => x | _ => y end = y) as -> by (by destruct fl).
  destruct (om_lower_bound p fl) as [b af] eqn:Hlb.
  destruct (om_lower_bound_spec _ _ _ _ Hok Hlb) as (-> & Hb & Haf).
  rewrite Forall_forall in Hb. rewrite Forall_forall in Haf.
  assert (Tiled lo hi ((p, n) :: reverse b ++ (af ++ rest))) as Ht1.
  { revert Ht. apply Tiled_Proper; [done..|]. rewrite reverse_Permutation. by rewrite app_assoc. }
  pose proof (merge_below_spec _ _ _ _ _ _ Hlo Hhi Ht1) as Hmb.
  destruct (merge_below (reverse b) p n) as [[rb p'] n'].
  destruct Hmb as (Ht2 & (g & Eg) & Hend & Hpp & Hhd & HP1).
  assert (Tiled lo hi ((p', n') :: af ++ (rb ++ rest))) as Ht3.
  { revert Ht2. apply Tiled_Proper; [done..|]. solve_Permutation. }
  pose proof (merge_above_spec _ _ _ _ _ _ Hlo Hhi Ht3) as Hma.
  destruct (merge_above af p' n') as [af' n''].
  destruct Hma as (Ht4 & (h & Eh) & Hhd2 & HP2).
  assert (b = reverse rb ++ reverse g) as Eb
    by (rewrite <- reverse_app, <- Eg; by rewrite reverse_involutive).
  assert (Tiled lo hi ((p', n'') :: (reverse rb ++ af') ++ rest)) as Ht5.
  { revert Ht4. apply Tiled_Proper; [done..|]. rewrite reverse_Permutation. solve_Permutation. }
  subst b af.
  assert (om_ok (reverse rb ++ af')) as Hok'.
  { apply om_ok_app in Hok as (H1 & H2 & H3). apply om_ok_app in H1 as (H1 & _ & _).
    apply om_ok_app in H2 as (_ & H2 & _). apply om_ok_app. split_all; [done..|].
    intros. apply H3; set_solver. }
  pose proof (Tiled_bounds _ _ _ (p, n) Ht ltac:(set_solver)) as Hpn. simpl in Hpn.
  assert (om_lower_bound p' (reverse rb ++ af') = (reverse rb, af')) as Hlb'.
  { apply om_lower_bound_app; apply Forall_forall; intros e He.
    - specialize (Hb e ltac:(set_solver)).
      pose proof (Tiled_bounds _ _ _ e Ht2 ltac:(set_solver)).
      pose proof (Tiled_cons_disjoint _ _ _ e _ Ht2 ltac:(set_solver)) as [?|?];
        simpl in *; lia.
    - specialize (Haf e ltac:(set_solver)). lia. }
  destruct (lower_bound_neighbours _ _ _ _ _ _ _ _ Hok' Ht5 Hlb') as (_ & Hl & Hr & _).
  split_all; [done|done| |..].
  - eapply coalesced_sub; [|done]. set_solver.
  - intros e He Heq. specialize (Hl e He Heq). rewrite last_reverse in Hl. by eapply Hhd.
  - intros e He Heq. specialize (Hr e He Heq). by eapply Hhd2.
  - set_solver.
  - intros P Hp HF Hm. apply Forall_app in HF as [HF1 HF2]. apply HP2; [|done|done].
    apply HP1; [done| |done]. rewrite Eg in *. rewrite <- Eg.
    apply Forall_forall. intros e He. rewrite Forall_forall in HF1. apply HF1. set_solver.
Qed.

Lemma aligned_merge base a b c :
  aligned base (a, b) → aligned base (a + b, c) → aligned base (a, b + c).
Proof.
  intros [Ha Hb] [_ Hc]. simpl in *. split; simpl; [done|]. by apply Z.divide_add_r.
Qed.

(** The loop after the first satisfied message never serves a second one:
    [alloc_srcptr] refuses as long as anything is pending. *)
Lemma satisfy_more_stuck s sat :
  Forall (λ e, e.2 ≤ total_size s) (pending_allocations s) →
  satisfy_more (S (length (pending_allocations s))) s sat = Some (s, sat).
Proof.
  intros Hp. simpl. destruct (pending_allocations s) as [|[msg sz] pend] eqn:E; [done|].
  apply Forall_cons in Hp as [Hsz _]. simpl in Hsz.
  unfold alloc_srcptr. rewrite assert_true by lia. by rewrite E.
Qed.

(** The first [act] bytes of the released span go to the message at the front
    of the queue, the rest is a free span again. *)
Lemma give_front lo hi fl rest p n act :
  om_ok fl → Tiled lo hi ((p, n) :: fl ++ rest) → coalesced fl →
  (∀ e, e ∈ fl → e.1 + e.2 ≠ p) → (∀ e, e ∈ fl → p + n ≠ e.1) → 0 < act ≤ n →
  FreeList lo hi (if decide (n > act) then om_insert (p + act) (n - act) fl else fl)
    ((p, act) :: rest).
Proof.
  intros Hok Ht Hco Hb Ha Hact. case_decide.
  - replace n with (act + (n - act)) in Ht by lia.
    apply free_insert; [done| |done| |].
    + apply Tiled_cut in Ht; [|lia..]. rewrite Permutation_swap in Ht.
      revert Ht. apply Tiled_Proper; [done..|]. solve_Permutation.
    + intros e He Heq. pose proof (Tiled_bounds _ _ _ e Ht ltac:(set_solver)).
      pose proof (Tiled_cons_disjoint _ _ _ e _ Ht ltac:(set_solver)) as [?|?]; simpl in *; lia.
    + intros e He. replace (p + act + (n - act)) with (p + n) by lia. auto.
  - assert (n = act) as -> by lia. split; [done| |done].
    revert Ht. apply Tiled_Proper; [done..|]. solve_Permutation.
Qed.

(** The merged span put back, unless the last user is gone while messages wait;
    then everything is free. *)
Lemma release_to_free base s fl q k rest :
  sdp_inv base s → om_ok rest → om_ok fl → coalesced fl →
  Tiled base (base + total_size s) ((q, k) :: fl ++ rest) →
  (∀ e, e ∈ fl → e.1 + e.2 ≠ q) → (∀ e, e ∈ fl → q + k ≠ e.1) →
  Forall (aligned base) fl → Forall (aligned base) rest → aligned base (q, k) →
  sdp_inv base (set_lists s (om_insert q k fl) (pending_allocations s) rest) ∨
  rest = [] ∧ pending_allocations s ≠ [] ∧ k = total_size s.
Proof.
  intros H Hrest Hok Hco Ht Hl Hr Halfl Halr Halq.
  destruct (si_size _ _ H) as (Hb & Htot & Hm).
  pose proof (free_insert _ _ _ _ _ _ Hok Ht Hco Hl Hr) as Hfl.
  destruct (decide (rest = [] ∧ pending_allocations s ≠ [])) as [[E0 ?]|Hne].
  - right. split_all; [done..|]. rewrite E0 in *.
    pose proof (Tiled_coalesced base (base + total_size s) _ ltac:(lia)
      ltac:(pose proof (fl_tiled _ _ _ _ Hfl) as T; rewrite app_nil_r in T; exact T)
      (fl_coalesced _ _ _ _ Hfl)) as E1.
    pose proof (om_find_insert_eq q k fl) as E2. rewrite E1 in E2. simpl in E2.
    case_decide; simplify_eq. lia.
  - left. split; simpl; [done|done|done|apply H| |apply H|].
    + apply Forall_app. split; [|done]. by apply om_insert_Forall.
    + intros Hpend E. by apply Hne.
Qed.

(** The front of the merged span given to the first waiting message. *)
Lemma release_to_waiter base s fl q k rest msg sz pend :
  sdp_inv base s → om_ok rest → om_ok fl → coalesced fl →
  Tiled base (base + total_size s) ((q, k) :: fl ++ rest) →
  (∀ e, e ∈ fl → e.1 + e.2 ≠ q) → (∀ e, e ∈ fl → q + k ≠ e.1) →
  Forall (aligned base) fl → Forall (aligned base) rest → aligned base (q, k) →
  pending_allocations s = (msg, sz) :: pend → sz ≤ k →
  let act := round_up_size sz in
  let fl' := if decide (k > act) then om_insert (q + act) (u64 (k - act)) fl else fl in
  sdp_inv base (set_lists s fl' pend (om_insert q act rest)).
Proof.
  intros H Hrest Hok Hco Ht Hl Hr Halfl Halr Halq Epend Hfit act.
  destruct (si_size _ _ H) as (Hb & Htot & Hm).
  pose proof (si_pending _ _ H) as Hpend. rewrite Epend in Hpend.
  apply Forall_cons in Hpend as [Hsz Hpend]. simpl in Hsz.
  pose proof (Tiled_bounds _ _ _ (q, k) Ht ltac:(set_solver)) as Hqk. simpl in Hqk.
  destruct (round_up_size_spec k sz ltac:(lia) ltac:(lia) (proj2 Halq)) as [Hact Hdiv].
  fold act in Hact, Hdiv.
  pose proof (give_front _ _ _ _ _ _ act Hok Ht Hco Hl Hr ltac:(lia)) as Hfl.
  rewrite u64_id by (unfold is_u64; lia). intros fl'.
  apply use_span; [done|apply H|done|done| |done].
  apply Forall_app. split; [|constructor; [split; [apply Halq|done]|done]].
  subst fl'. case_decide; [|done]. apply om_insert_Forall; [|done].
  destruct Halq as [Hd1 Hd2]. simpl in *. split; simpl.
  - replace (q + act - base) with ((q - base) + act) by lia. by apply Z.divide_add_r.
  - by apply Z.divide_sub_r.
Qed.

(** The grown span holds the one it grew from. *)
Lemma absorb_contains lo hi fl rest p n fl' q k :
  0 < n → Tiled lo hi ((p, n) :: fl ++ rest) → Tiled lo hi ((q, k) :: fl' ++ rest) →
  (∀ e, e ∈ fl' → e ∈ fl) → q ≤ p ∧ p + n ≤ q + k.
Proof.
  intros Hn Ht Ht' Hsub. pose proof (Tiled_bounds _ _ _ (p, n) Ht ltac:(set_solver)) as Hb. simpl in Hb.
  assert (∀ x, p ≤ x < p + n → q ≤ x < q + k) as Hin.
  { intros x Hx. destruct (Tiled_cover_elem _ _ _ x Ht' ltac:(lia)) as (t & Hin & Hxt).
    apply elem_of_cons in Hin as [->|Hin]; [done|exfalso].
    assert (t ∈ fl ++ rest) as Hin' by set_solver.
    destruct (Tiled_cons_disjoint _ _ _ t _ Ht Hin'); simpl in *; lia. }
  pose proof (Hin p ltac:(lia)). pose proof (Hin (p + n - 1) ltac:(lia)). lia.
Qed.

(** The span [(q, k)] that is free around [ptr] once its own span of [n] bytes
    is returned; [fl] is the coalesced list of all that is then not in use. *)
Definition freed_span (base : Z) (s : SrcDataPool) (ptr n : Z) (fl : list (Z * Z)) (q k : Z) : Prop :=
  FreeList base (base + total_size s) fl (om_erase ptr (in_use s)) ∧
  (q, k) ∈ fl ∧ q ≤ ptr ∧ ptr + n ≤ q + k.

Lemma release_srcptr_spec base s p n :
  sdp_inv base s → om_find p (in_use s) = Some n →
  ∃ s' sat fl q k, freed_span base s p n fl q k ∧
    release_srcptr s p = Some (s', sat) ∧ sdp_inv base s' ∧ total_size s' = total_size s ∧
    match pending_allocations s with
    | (msg, sz) :: pend =>
        if decide (sz ≤ k) then
          sat = [(msg, q)] ∧ pending_allocations s' = pend ∧
          in_use s' = om_insert q (round_up_size sz) (om_erase p (in_use s))
        else sat = [] ∧ pending_allocations s' = pending_allocations s ∧
          in_use s' = om_erase p (in_use s) ∧ free_list s' = fl
    | [] => sat = [] ∧ pending_allocations s' = [] ∧
        in_use s' = om_erase p (in_use s) ∧ free_list s' = fl
    end.
Proof.
  intros H Hf. destruct (si_size _ _ H) as (Hb & Htot & Hm).
  pose proof (om_erase_perm _ _ _ Hf) as Hp. unfold freed_span. set (rest := om_erase p (in_use s)) in *.
  assert (om_ok rest) as Hrest by (apply om_erase_ok, H).
  destruct (si_free _ _ H) as [Hok Ht Hco].
  assert (Tiled base (base + total_size s) ((p, n) :: free_list s ++ rest)) as Ht1.
  { revert Ht. apply Tiled_Proper; [done..|]. rewrite Hp. solve_Permutation. }
  pose proof (Tiled_bounds _ _ _ (p, n) Ht1 ltac:(set_solver)) as Hpn. simpl in Hpn.
  pose proof (si_aligned _ _ H) as Hal. rewrite Hp in Hal.
  apply Forall_app in Hal as [Hal1 [Hal0 Hal2]%Forall_cons].
  unfold release_srcptr. rewrite Hf. simpl. fold rest.
  rewrite assert_true by (by eapply span_fresh).
  pose proof (absorb_spec base (base + total_size s) _ _ _ _ ltac:(lia) Hm Hok Ht1 Hco) as Hab.
  destruct (absorb (free_list s) p n) as [[fl q] k].
  destruct Hab as (Hok' & Ht2 & Hco' & Hl & Hr & Hsub & HP).
  assert (0 < n) as Hn by lia.
  pose proof (absorb_contains _ _ _ _ _ _ _ _ _ Hn Ht1 Ht2 Hsub) as [Hq Hk].
  assert (aligned base (q, k)) as Halq by (apply HP; [done|done|]; apply aligned_merge).
  assert (Forall (aligned base) fl) as Halfl.
  { apply Forall_forall. intros e He. rewrite Forall_forall in Hal1. auto. }
  pose proof (free_insert _ _ _ _ _ _ Hok' Ht2 Hco' Hl Hr) as Hfl.
  assert ((q, k) ∈ om_insert q k fl) as Hqk.
  { rewrite (om_insert_fresh q k fl (span_fresh _ _ _ _ _ _ Ht2)). by left. }
  pose proof (release_to_free base s fl q k rest H Hrest Hok' Hco' Ht2 Hl Hr Halfl Hal2 Halq) as Hback.
  pose proof (λ msg sz pend, release_to_waiter base s fl q k rest msg sz pend
    H Hrest Hok' Hco' Ht2 Hl Hr Halfl Hal2 Halq) as Hgive.
  destruct (pending_allocations s) as [|[msg sz] pend] eqn:Epend.
  { destruct Hback as [Hback|(_ & ? & _)]; [|done].
    eexists _, _, (om_insert q k fl), q, k. by split_all. }
  pose proof (si_pending _ _ H) as Hpend. rewrite Epend in Hpend.
  apply Forall_cons in Hpend as [Hsz Hpend]. simpl in Hsz. case_decide as Hfit.
  - specialize (Hgive msg sz pend eq_refl Hfit). cbv zeta in Hgive.
    match type of Hgive with sdp_inv _ ?s0 => set (s1 := s0) in Hgive end.
    exists s1, [(msg, q)], (om_insert q k fl), q, k.
    rewrite (decide_True (P := sz ≤ k)) by done. split_all; try done.
    apply (satisfy_more_stuck s1). eapply Forall_impl; [exact Hpend|]. simpl. lia.
  - destruct Hback as [Hback|(_ & _ & ->)]; [|lia].
    eexists _, _, (om_insert q k fl), q, k.
    rewrite (decide_False (P := sz ≤ k)) by done. by split_all.
Qed.

Lemma release_srcptr_cases base s p n :
  sdp_inv base s → om_find p (in_use s) = Some n →
  ∃ s' sat, release_srcptr s p = Some (s', sat) ∧ sdp_inv base s'.
Proof.
  intros H Hf. destruct (release_srcptr_spec _ _ _ _ H Hf) as (s' & sat & fl & q & k & _ & E & Hi & _).
  by exists s', sat.
Qed.

Lemma sdp_init_inv lim base size :
  0 < base → 0 < size → base + size < 2 ^ 63 → (BLOCK_SIZE | size) →
  sdp_inv base (SrcDataPool_init lim base size).
Proof.
  intros Hb Hs Hm Hd. split; simpl; [|constructor|lia|done| |constructor|done].
  - replace size with (base + size - base) at 2 by lia. apply FreeList_init. lia.
  - repeat constructor; simpl; [|done]. rewrite Z.sub_diag. apply Z.divide_0_r.
Qed.

(** ** Properties of the pool *)

(** [alloc_srcptr] is a best fit: a successful allocation returns the top
    of a smallest free span that holds the rounded size, inside the pool and
    disjoint from every span in use; it is refused only when messages are
    already waiting or no free span is large enough. *)
Lemma alloc_srcptr_ok base s size :
  sdp_inv base s → 0 < size ≤ total_size s →
  ∃ s' ptr, alloc_srcptr s size = Some (s', ptr) ∧ sdp_inv base s' ∧
    if decide (ptr = 0)
    then s' = s ∧ (pending_allocations s ≠ [] ∨
                   Forall (λ e, e.2 < round_up_size size) (free_list s))
    else base ≤ ptr ∧ ptr + round_up_size size ≤ base + total_size s ∧
         Forall (disjoint_spans (ptr, round_up_size size)) (in_use s) ∧
         om_find ptr (in_use s') = Some (round_up_size size) ∧
         ∃ f n, (f, n) ∈ free_list s ∧ ptr + round_up_size size = f + n ∧
                Forall (λ e, round_up_size size ≤ e.2 → n ≤ e.2) (free_list s).
Proof.
  intros H Hs.
  destruct (alloc_srcptr_cases _ _ _ H Hs)
    as [[-> Hwhy]|(Hpend & f & n & s' & Hin & Hn & HF & -> & Hpos & -> & Hi)].
  - exists s, 0. rewrite decide_True by done. done.
  - eexists _, _. split_all; [done|done|]. rewrite decide_False by lia.
    set (need := round_up_size size) in *.
    pose proof (sdp_inv_elem _ _ (f, n) H ltac:(set_solver)) as Hb.
    destruct (si_size _ _ H) as (? & ? & ?).
    destruct (round_up_size_spec _ _ Hs ltac:(lia) (si_total _ _ H)) as [Hneed _].
    fold need in Hneed. simpl in *.
    split_all; [lia|lia| |apply om_find_insert_eq|exists f, n; split_all; [done|lia|done]].
    apply Forall_forall. intros e He.
    destruct (Tiled_elem_disjoint _ _ _ _ _ _ (fl_tiled _ _ _ _ (si_free _ _ H)) Hin He);
      unfold disjoint_spans; simpl in *; lia.
Qed.

Lemma alloc_srcptr_ok_witness :
  let s := SrcDataPool_init (mkLimits 0 0 0) 4096 1024 in
  ∃ s' ptr, alloc_srcptr s 100 = Some (s', ptr) ∧ sdp_inv 4096 s' ∧
    if decide (ptr = 0)
    then s' = s ∧ (pending_allocations s ≠ [] ∨
                   Forall (λ e, e.2 < round_up_size 100) (free_list s))
    else 4096 ≤ ptr ∧ ptr + round_up_size 100 ≤ 4096 + total_size s ∧
         Forall (disjoint_spans (ptr, round_up_size 100)) (in_use s) ∧
         om_find ptr (in_use s') = Some (round_up_size 100) ∧
         ∃ f n, (f, n) ∈ free_list s ∧ ptr + round_up_size 100 = f + n ∧
                Forall (λ e, round_up_size 100 ≤ e.2 → n ≤ e.2) (free_list s).
Proof.
  exact (alloc_srcptr_ok 4096 (SrcDataPool_init (mkLimits 0 0 0) 4096 1024) 100
           (sdp_init_inv (mkLimits 0 0 0) 4096 1024 ltac:(lia) ltac:(lia) ltac:(lia)
              ltac:(exists 16; reflexivity)) ltac:(simpl; lia)).
Defined.

(** C19. [release_srcptr] succeeds exactly on pointers in use; any other
    pointer fails its assertion.  The span of the pointer is no longer in use
    and merges with the free spans it touches.  The message at the front of the
    queue is served exactly when it fits in the merged span: it leaves the
    queue and gets the start of that span, of which it then uses its size
    rounded up to whole blocks, and the rest is free again.  Otherwise nobody is
    served and the whole merged span is free, so that the free list is again
    the coalesced rest of the pool. *)
Theorem release_srcptr_ok base s ptr :
  sdp_inv base s →
  match om_find ptr (in_use s) with
  | None => release_srcptr s ptr = None
  | Some n =>
      ∃ s' sat fl q k, freed_span base s ptr n fl q k ∧
        release_srcptr s ptr = Some (s', sat) ∧ sdp_inv base s' ∧ total_size s' = total_size s ∧
        match pending_allocations s with
        | (msg, sz) :: pend =>
            if decide (sz ≤ k) then
              sat = [(msg, q)] ∧ pending_allocations s' = pend ∧
              in_use s' = om_insert q (round_up_size sz) (om_erase ptr (in_use s))
            else sat = [] ∧ pending_allocations s' = pending_allocations s ∧
              in_use s' = om_erase ptr (in_use s) ∧ free_list s' = fl
        | [] => sat = [] ∧ pending_allocations s' = [] ∧
            in_use s' = om_erase ptr (in_use s) ∧ free_list s' = fl
        end
  end.
Proof.
  intros H. destruct (om_find ptr (in_use s)) as [n|] eqn:Hf.
  - by apply release_srcptr_spec.
  - unfold release_srcptr. by rewrite Hf.
Qed.

Definition example_pool : SrcDataPool :=
  mkSdp 256 [] [(1, 64); (2, 64)] [(64, 256)] [] (mkSpill 0 0 0 [] [] [] 0 0 0).

Lemma example_pool_inv : sdp_inv 64 example_pool.
Proof.
  split; simpl; [|apply om_ok_cons; constructor|lia|by exists 4| | |done].
  - split; [constructor| |auto with realm]. exact (Tiled_one 64 320 ltac:(lia)).
  - repeat constructor; simpl; [exists 0; lia|by exists 4].
  - repeat constructor; simpl; lia.
Qed.

Lemma release_srcptr_ok_witness :
  ∃ s' sat fl q k, freed_span 64 example_pool 64 256 fl q k ∧
    release_srcptr example_pool 64 = Some (s', sat) ∧ sdp_inv 64 s' ∧ total_size s' = 256 ∧
    if decide (64 ≤ k) then
      sat = [(1, q)] ∧ pending_allocations s' = [(2, 64)] ∧ in_use s' = om_insert q 64 []
    else sat = [] ∧ pending_allocations s' = [(1, 64); (2, 64)] ∧ in_use s' = [] ∧ free_list s' = fl.
Proof. exact (release_srcptr_ok 64 example_pool 64 example_pool_inv). Defined.

(** One operation of the pool: a message gets its source pointer at once, or
    queues up after a refused allocation, or a pointer is released. *)
Inductive sdp_step (s : SrcDataPool) : SrcDataPool → Prop :=
| step_reserve size s' ptr :
    0 < size ≤ total_size s → alloc_srcptr s size = Some (s', ptr) → ptr ≠ 0 →
    sdp_step s s'
| step_queue size msg s' s'' :
    0 < size ≤ total_size s → alloc_srcptr s size = Some (s', 0) →
    add_pending s' msg size = Some s'' → sdp_step s s''
| step_release ptr s' sat :
    release_srcptr s ptr = Some (s', sat) → sdp_step s s'.

Lemma sdp_step_inv base s s' : sdp_inv base s → sdp_step s s' → sdp_inv base s'.
Proof.
  intros H [size s1 ptr Hs E Hp|size msg s1 s2 Hs E Ha|ptr s1 sat E].
  - destruct (alloc_srcptr_cases _ _ _ H Hs) as [[E' _]|(_ & f & n & s2 & _ & _ & _ & E' & _ & _ & Hi)];
      rewrite E in E'; by simplify_eq.
  - destruct (alloc_srcptr_cases _ _ _ H Hs) as [[E' Hwhy]|(_ & f & n & s3 & _ & _ & _ & E' & ? & _)];
      rewrite E in E'; simplify_eq; [|lia].
    unfold add_pending in Ha. asserts. simplify_eq.
    split; simpl; try apply H.
    + apply Forall_app. split; [apply H|]. apply Forall_singleton. done.
    + intros _ E0. destruct Hwhy as [Hwhy|Hwhy]; [by apply (si_progress _ _ H)|].
      destruct (si_size _ _ H) as (? & ? & ?).
      pose proof (si_free _ _ H) as [_ Ht Hco]. rewrite E0, app_nil_r in Ht.
      rewrite (Tiled_coalesced base (base + total_size s) _ ltac:(lia) Ht Hco) in Hwhy.
      apply Forall_cons in Hwhy as [Hlt _]. simpl in Hlt.
      destruct (round_up_size_spec (total_size s) size Hs ltac:(lia) (si_total _ _ H)). lia.
  - destruct (om_find ptr (in_use s)) as [n|] eqn:Hf.
    + destruct (release_srcptr_cases _ _ _ _ H Hf) as (s2 & sat' & E' & Hi).
      rewrite E in E'. by simplify_eq.
    + unfold release_srcptr in E. by rewrite Hf in E.
Qed.

Lemma sdp_steps_inv base s s' : sdp_inv base s → rtc sdp_step s s' → sdp_inv base s'.
Proof. intros H. induction 1; eauto using sdp_step_inv. Qed.

(** C3. In every state a pool of 64-byte blocks can reach, the spans in use
    are pairwise disjoint and inside the pool, and the queue of waiting
    messages is never stranded: while a message waits, some span is in use
    whose release is still to come. *)
Theorem sdp_reachable_safe lim base size s :
  0 < base → 0 < size → base + size < 2 ^ 63 → (BLOCK_SIZE | size) →
  rtc sdp_step (SrcDataPool_init lim base size) s →
  (∀ i j p q, in_use s !! i = Some p → in_use s !! j = Some q → i ≠ j → disjoint_spans p q) ∧
  (∀ p, p ∈ in_use s → base ≤ p.1 ∧ p.1 + p.2 ≤ base + total_size s) ∧
  sizes (free_list s) + sizes (in_use s) = total_size s ∧
  (pending_allocations s ≠ [] → ∃ p n, om_find p (in_use s) = Some n).
Proof.
  intros Hb Hs Hm Hd Hr.
  pose proof (sdp_steps_inv base _ _ (sdp_init_inv lim base size Hb Hs Hm Hd) Hr) as H.
  destruct (si_size _ _ H) as (? & ? & ?). split_all.
  - intros i j p q Hi Hj Hne. destruct (decide (p.1 + p.2 ≤ q.1 ∨ q.1 + q.2 ≤ p.1)) as [|Hn]; [done|exfalso].
    pose proof (fl_tiled _ _ _ _ (si_free _ _ H)) as Ht.
    assert (p ∈ in_use s ∧ q ∈ in_use s) as [Hp Hq] by (split; by eapply list_elem_of_lookup_2).
    pose proof (sdp_inv_elem _ _ p H ltac:(set_solver)) as Bp.
    pose proof (sdp_inv_elem _ _ q H ltac:(set_solver)) as Bq.
    assert (p = q) as ->.
    { apply (Tiled_same _ _ _ p q (Z.max p.1 q.1) Ht); [set_solver..|lia|lia]. }
    apply Hne. exact (NoDup_lookup (in_use s) _ _ _ (om_ok_NoDup (in_use s) (si_use_ok _ _ H)) Hi Hj).
  - intros p Hp. pose proof (sdp_inv_elem _ _ p H ltac:(set_solver)). lia.
  - pose proof (FreeList_sizes base (base + total_size s) _ _ ltac:(lia) (si_free _ _ H)). lia.
  - intros Hpend. pose proof (si_progress _ _ H Hpend) as Hne.
    destruct (in_use s) as [|[p n] iu]; [done|]. exists p, n. simpl. by rewrite decide_True.
Qed.

(** A message has taken the whole pool and another one waits. *)
Definition example_full : SrcDataPool :=
  mkSdp 1024 [] [(7, 100)] [(4096, 1024)] [] (spill (SrcDataPool_init (mkLimits 0 0 0) 4096 1024)).

Lemma sdp_reachable_safe_witness :
  let s := example_full in
  (∀ i j p q, in_use s !! i = Some p → in_use s !! j = Some q → i ≠ j → disjoint_spans p q) ∧
  (∀ p, p ∈ in_use s → 4096 ≤ p.1 ∧ p.1 + p.2 ≤ 4096 + total_size s) ∧
  sizes (free_list s) + sizes (in_use s) = total_size s ∧
  (pending_allocations s ≠ [] → ∃ p n, om_find p (in_use s) = Some n).
Proof.
  refine (sdp_reachable_safe (mkLimits 0 0 0) 4096 1024 _ ltac:(lia) ltac:(lia) ltac:(lia)
           ltac:(exists 16; reflexivity) _).
  eapply rtc_l; [eapply (step_reserve _ 1024 _ 4096); [simpl; lia|vm_compute; reflexivity|done]|].
  eapply rtc_l; [eapply (step_queue _ 100 7); [simpl; lia|vm_compute; reflexivity|vm_compute; reflexivity]|].
  apply rtc_refl.
Defined.

(** A release serves at most one waiting message: the loop meant to serve
    further ones calls [alloc_srcptr], which refuses while the queue is not
    empty, so it stops at its first round. *)
Theorem release_serves_at_most_one s ptr s' sat :
  release_srcptr s ptr = Some (s', sat) → (length sat ≤ 1)%nat.
Proof.
  unfold release_srcptr. intros E. asserts.
  destruct (absorb _ _ _) as [[fl p] n].
  destruct (pending_allocations s) as [|[msg sz] pend]; [simplify_eq; simpl; lia|].
  case_decide; [|simplify_eq; simpl; lia].
  cbn [satisfy_more] in E. destruct pend as [|[msg' sz'] pend]; simpl in E;
    [simplify_eq; simpl; lia|].
  unfold alloc_srcptr, assert_ in E. simpl in E.
  destruct (decide (¬ sz' > total_size s)); simplify_eq/=. lia.
Qed.

Lemma release_serves_at_most_one_witness :
  (length [(1, 64)] ≤ 1)%nat.
Proof.
  exact (release_serves_at_most_one example_pool 64
           (mkSdp 256 [(128, 192)] [(2, 64)] [(64, 64)] [] (spill example_pool))
           [(1, 64)] eq_refl).
Defined.

(** ** Spill accounting *)

(** [alloc_spill_memory] grants the bytes, or leaves the thread suspended. *)
Inductive spill_result :=
| SpillGranted (sp : spill_state)
| SpillSuspended (sp : spill_state).

(** [always] is [ThreadLocal::always_allow_spilling].  The output of
    [print_spill_data] is not part of the state. *)
Definition alloc_spill_memory (lim : spill_limits) (always : bool) (sp : spill_state)
    (size_needed msgtype : Z) (first_try : bool) : option spill_result :=
  let new_spill_bytes := u64 (current_spill_bytes sp + size_needed) in
  if decide (max_spill_bytes lim = 0 ∨ always = true ∨ new_spill_bytes ≤ max_spill_bytes lim) then
    let '(peak, threshold) :=
      if decide (new_spill_bytes > peak_spill_bytes sp) then
        (new_spill_bytes,
         if decide (current_spill_threshold sp ≤ new_spill_bytes)
         then u64 (current_spill_threshold sp + print_spill_step lim)
         else current_spill_threshold sp)
      else (peak_spill_bytes sp, current_spill_threshold sp) in
    cur_permsg ← aget (current_permsg_spill_bytes sp) msgtype;
    peak_permsg ← aget (peak_permsg_spill_bytes sp) msgtype;
    let new_permsg := u64 (cur_permsg + size_needed) in
    Some (SpillGranted
      (mkSpill new_spill_bytes peak threshold
         (aset (current_permsg_spill_bytes sp) msgtype new_permsg)
         (if decide (new_permsg > peak_permsg)
          then aset (peak_permsg_spill_bytes sp) msgtype new_permsg
          else peak_permsg_spill_bytes sp)
         (total_permsg_spill_bytes sp)
         (current_suspended_spillers sp) (total_suspended_spillers sp)
         (total_suspended_time sp)))
  else
    assert! size_needed ≤ max_spill_bytes lim;
    Some (SpillSuspended
      (mkSpill (current_spill_bytes sp) (peak_spill_bytes sp) (current_spill_threshold sp)
         (current_permsg_spill_bytes sp) (peak_permsg_spill_bytes sp)
         (total_permsg_spill_bytes sp)
         (current_suspended_spillers sp + 1)
         (if first_try then total_suspended_spillers sp + 1 else total_suspended_spillers sp)
         (total_suspended_time sp))).

(** The test of the wait loop: a suspended thread goes on sleeping ([None]) or
    leaves the loop after [delta] time units and returns false to be retried. *)
Definition spill_wakeup (lim : spill_limits) (sp : spill_state) (size_needed delta : Z)
    : option spill_state :=
  if decide (u64 (current_spill_bytes sp + size_needed) > max_spill_bytes lim) then None
  else Some (mkSpill (current_spill_bytes sp) (peak_spill_bytes sp) (current_spill_threshold sp)
         (current_permsg_spill_bytes sp) (peak_permsg_spill_bytes sp)
         (total_permsg_spill_bytes sp)
         (current_suspended_spillers sp - 1) (total_suspended_spillers sp)
         (total_suspended_time sp + delta)).

(** The second result says whether the condition variable is broadcast. *)
Definition release_spill_memory (sp : spill_state) (size_released msgtype : Z)
    : option (spill_state * bool) :=
  cur_permsg ← aget (current_permsg_spill_bytes sp) msgtype;
  Some (mkSpill (u64 (current_spill_bytes sp - size_released)) (peak_spill_bytes sp)
          (current_spill_threshold sp)
          (aset (current_permsg_spill_bytes sp) msgtype (u64 (cur_permsg - size_released)))
          (peak_permsg_spill_bytes sp) (total_permsg_spill_bytes sp)
          (current_suspended_spillers sp) (total_suspended_spillers sp)
          (total_suspended_time sp),
        bool_decide (current_suspended_spillers sp > 0)).

(** *** Several threads spilling *)

(** [holders] are the reservations granted to ordinary threads and not
    released, [exempt] those granted to threads that may always spill,
    [waiters] the suspended requests; each is a size and a message id. *)
Record spill_sys := mkSys {
  sys_sp : spill_state;
  holders : list (Z * Z);
  exempt : list (Z * Z);
  waiters : list (Z * Z) }.

Definition hsum (h : list (Z * Z)) : Z := Zsum (fst <$> h).
Definition hsum_of (mt : Z) (h : list (Z * Z)) : Z := hsum (filter (λ e, e.2 = mt) h).

(** Every thread asks with its own [always_allow_spilling]; the bytes held at
    any time exist in memory. *)
Inductive spill_step (lim : spill_limits) : spill_sys → spill_sys → Prop :=
| spill_grant sp h x w size mt always ft sp' :
    0 < size → hsum (h ++ x) + size < 2 ^ 63 →
    alloc_spill_memory lim always sp size mt ft = Some (SpillGranted sp') →
    spill_step lim (mkSys sp h x w)
      (if always : bool then mkSys sp' h ((size, mt) :: x) w else mkSys sp' ((size, mt) :: h) x w)
| spill_suspend sp h x w size mt always ft sp' :
    0 < size → hsum (h ++ x) + size < 2 ^ 63 → 0 ≤ mt < 256 →
    alloc_spill_memory lim always sp size mt ft = Some (SpillSuspended sp') →
    spill_step lim (mkSys sp h x w) (mkSys sp' h x ((size, mt) :: w))
| spill_wake sp h x w w' size mt delta sp' :
    w ≡ₚ (size, mt) :: w' → spill_wakeup lim sp size delta = Some sp' →
    spill_step lim (mkSys sp h x w) (mkSys sp' h x w')
| spill_release sp h h' x w size mt sp' bc :
    h ≡ₚ (size, mt) :: h' → release_spill_memory sp size mt = Some (sp', bc) →
    spill_step lim (mkSys sp h x w) (mkSys sp' h' x w)
| spill_release_exempt sp h x x' w size mt sp' bc :
    x ≡ₚ (size, mt) :: x' → release_spill_memory sp size mt = Some (sp', bc) →
    spill_step lim (mkSys sp h x w) (mkSys sp' h x' w).

(** The counters against the reservations [h] that are held. *)
Record spill_counts (sp : spill_state) (h : list (Z * Z)) : Prop := {
  sp_cur : current_spill_bytes sp = hsum h;
  sp_hold : Forall (λ e, 0 < e.1) h;
  sp_fits : hsum h < 2 ^ 63;
  sp_len : length (current_permsg_spill_bytes sp) = 256%nat ∧
           length (peak_permsg_spill_bytes sp) = 256%nat;
  sp_permsg : ∀ mt, 0 ≤ mt < 256 →
    aget (current_permsg_spill_bytes sp) mt = Some (hsum_of mt h);
  sp_mts : Forall (λ e, 0 ≤ e.2 < 256) h }.

Record spill_inv (lim : spill_limits) (y : spill_sys) : Prop := {
  sp_counts : spill_counts (sys_sp y) (holders y ++ exempt y);
  sp_bound : hsum (holders y) ≤ max_spill_bytes lim;
  sp_wait : Forall (λ e, 0 < e.1 ≤ max_spill_bytes lim ∧ 0 ≤ e.2 < 256) (waiters y);
  sp_susp : current_suspended_spillers (sys_sp y) = zlen (waiters y) }.

Lemma hsum_perm h h' : h ≡ₚ h' → hsum h = hsum h'.
Proof. intros Hp. unfold hsum. apply Zsum_perm. by rewrite Hp. Qed.

Lemma hsum_of_perm mt h h' : h ≡ₚ h' → hsum_of mt h = hsum_of mt h'.
Proof. intros Hp. unfold hsum_of. apply hsum_perm. by rewrite Hp. Qed.

Lemma hsum_cons size mt h : hsum ((size, mt) :: h) = size + hsum h.
Proof. done. Qed.

Lemma hsum_of_cons mt size mt' h :
  hsum_of mt ((size, mt') :: h) = (if decide (mt' = mt) then size else 0) + hsum_of mt h.
Proof. unfold hsum_of. rewrite filter_cons. simpl. by case_decide. Qed.

Lemma hsum_bounds mt h :
  Forall (λ e, 0 < e.1) h → 0 ≤ hsum_of mt h ≤ hsum h.
Proof.
  induction 1 as [|[sz m] h Hs _ IH]; [done|]. rewrite hsum_of_cons.
  rewrite hsum_cons. simpl in Hs. case_decide; lia.
Qed.

Lemma hsum_app h x : hsum (h ++ x) = hsum h + hsum x.
Proof. unfold hsum. by rewrite fmap_app, Zsum_app. Qed.

Lemma spill_counts_perm sp h h' : h ≡ₚ h' → spill_counts sp h → spill_counts sp h'.
Proof.
  intros Hp [Hcur Hh Hf Hlen Hper Hmt]. rewrite Hp in Hh, Hmt.
  rewrite (hsum_perm _ _ Hp) in Hcur, Hf. split; try done.
  intros mt Hm. by rewrite Hper, (hsum_of_perm mt _ _ Hp).
Qed.

Lemma hsum_pos h : Forall (λ e, 0 < e.1) h → 0 ≤ hsum h.
Proof. intros Hh. pose proof (hsum_bounds 0 h Hh). lia. Qed.

(** A granted reservation, to whomever. *)
Lemma spill_grant_counts lim sp h size mt always ft sp' :
  spill_counts sp h → 0 < size → hsum h + size < 2 ^ 63 →
  alloc_spill_memory lim always sp size mt ft = Some (SpillGranted sp') →
  spill_counts sp' ((size, mt) :: h) ∧
  current_suspended_spillers sp' = current_suspended_spillers sp ∧
  (max_spill_bytes lim = 0 ∨ always = true ∨ hsum h + size ≤ max_spill_bytes lim).
Proof.
  intros [Hcur Hh Hf [Hlen Hlen'] Hper Hmt] Hs Hfit E. unfold alloc_spill_memory in E.
  assert (u64 (current_spill_bytes sp + size) = hsum h + size) as Eu.
  { rewrite Hcur. pose proof (hsum_pos h Hh). apply u64_id. unfold is_u64. lia. }
  rewrite Eu in E. case_decide as Hcase; [|asserts; done].
  destruct (if decide _ then _ else _) as [pk th].
  destruct (aget (current_permsg_spill_bytes sp) mt) as [cp|] eqn:Ecp; [|done].
  destruct (aget (peak_permsg_spill_bytes sp) mt) as [pp|]; [|done]. simplify_eq/=.
  pose proof (aget_Some_range _ _ _ Ecp) as Hr. unfold zlen in Hr. rewrite Hlen in Hr.
  rewrite Hper in Ecp by lia. simplify_eq. pose proof (hsum_bounds mt h Hh).
  split; [|done]. split; simpl; rewrite ?hsum_cons; try done; try lia.
  - constructor; [simpl; lia|done].
  - rewrite aset_length. split; [done|]. case_decide; [by rewrite aset_length|done].
  - intros mt' Hm. rewrite hsum_of_cons. case_decide.
    + subst. rewrite aget_aset_eq by (unfold zlen; lia).
      rewrite u64_id by (unfold is_u64; lia). f_equal. lia.
    + rewrite aget_aset_ne by done. by rewrite Hper.
  - constructor; [simpl; lia|done].
Qed.

(** Any reservation held can be given back. *)
Lemma spill_release_counts sp h h' size mt :
  spill_counts sp h → h ≡ₚ (size, mt) :: h' →
  ∃ sp', release_spill_memory sp size mt =
      Some (sp', bool_decide (current_suspended_spillers sp > 0)) ∧
    spill_counts sp' h' ∧ current_suspended_spillers sp' = current_suspended_spillers sp.
Proof.
  intros H Hp. apply (spill_counts_perm _ _ _ Hp) in H as [Hcur Hh Hf [Hlen Hlen'] Hper Hmt].
  pose proof (hsum_bounds mt _ Hh) as Hb. apply Forall_cons in Hh as [Hs Hh].
  apply Forall_cons in Hmt as [Hm Hmt]. simpl in Hs, Hm. pose proof (hsum_bounds mt _ Hh) as Hb'.
  unfold release_spill_memory. rewrite Hper by done. simpl. eexists. split; [done|]. split; [|done].
  rewrite hsum_cons in *. rewrite hsum_of_cons in *. rewrite decide_True in * by done.
  split; simpl; try done.
  - rewrite Hcur, u64_id by (unfold is_u64; lia). lia.
  - lia.
  - by rewrite aset_length.
  - intros mt' Hm'. destruct (decide (mt = mt')) as [<-|].
    + rewrite aget_aset_eq by (unfold zlen; lia). f_equal.
      rewrite u64_id by (unfold is_u64; lia). lia.
    + rewrite aget_aset_ne by done. rewrite Hper by done. f_equal.
      rewrite hsum_of_cons. by rewrite decide_False.
Qed.

Lemma spill_counts_same sp sp' h :
  current_spill_bytes sp' = current_spill_bytes sp →
  current_permsg_spill_bytes sp' = current_permsg_spill_bytes sp →
  peak_permsg_spill_bytes sp' = peak_permsg_spill_bytes sp →
  spill_counts sp h → spill_counts sp' h.
Proof. intros E1 E2 E3 []. split; rewrite ?E1, ?E2, ?E3; done. Qed.

Lemma spill_wakeup_counts lim sp h size delta sp' :
  spill_wakeup lim sp size delta = Some sp' → spill_counts sp h → spill_counts sp' h.
Proof.
  unfold spill_wakeup. case_decide; [done|]. intros [= <-]. by apply spill_counts_same.
Qed.

Lemma spill_step_inv lim y y' :
  0 < max_spill_bytes lim → spill_inv lim y → spill_step lim y y' → spill_inv lim y'.
Proof.
  intros Hmax [Hc Hbd Hw Hsus] Hstep.
  destruct Hstep as [sp h x w size mt always ft sp' Hs Hf E|sp h x w size mt always ft sp' Hs Hf Hmt E|
    sp h x w w' size mt delta sp' Hp E|sp h h' x w size mt sp' bc Hp E|
    sp h x x' w size mt sp' bc Hp E]; simpl in *.
  - destruct (spill_grant_counts _ _ _ _ _ _ _ _ Hc Hs Hf E) as (Hc' & Es & Hlim).
    rewrite <- Es in Hsus. destruct always; split; simpl; try done.
    + eapply spill_counts_perm; [|exact Hc']. solve_Permutation.
    + pose proof (hsum_pos x) as Hx. rewrite hsum_app in Hlim. rewrite hsum_cons.
      destruct Hc as [_ [_ Hxp]%Forall_app _ _ _ _]. specialize (Hx Hxp).
      destruct Hlim as [?|[?|?]]; [lia|done|lia].
  - unfold alloc_spill_memory in E. case_decide as Hcase.
    { destruct (if decide _ then _ else _) as [pk th]. asserts. by simplify_eq. }
    asserts. simplify_eq. split; simpl; try done.
    + by apply (spill_counts_same sp).
    + constructor; [simpl; lia|done].
    + unfold zlen in *. simpl. lia.
  - pose proof (spill_wakeup_counts _ _ _ _ _ _ E Hc).
    unfold spill_wakeup in E. case_decide; [done|]. simplify_eq. split; simpl; try done.
    + rewrite Hp in Hw. by apply Forall_cons in Hw as [_ ?].
    + rewrite Hsus. unfold zlen. rewrite Hp. simpl. lia.
  - destruct (spill_release_counts sp (h ++ x) (h' ++ x) size mt Hc) as (sp1 & E1 & Hc' & Es).
    { by rewrite Hp. }
    rewrite E in E1. simplify_eq. split; simpl; try done; [|by rewrite Es].
    rewrite (hsum_perm _ _ Hp), hsum_cons in Hbd. destruct Hc as [_ Hh _ _ _ _].
    rewrite Hp in Hh. apply Forall_app in Hh as [[Hh _]%Forall_cons _]. simpl in Hh. lia.
  - destruct (spill_release_counts sp (h ++ x) (h ++ x') size mt Hc) as (sp1 & E1 & Hc' & Es).
    { rewrite Hp. solve_Permutation. }
    rewrite E in E1. simplify_eq. split; simpl; try done. by rewrite Es.
Qed.

Definition spill_start (lim : spill_limits) : spill_sys :=
  mkSys (spill (SrcDataPool_init lim 0 0)) [] [] [].

Lemma spill_start_inv lim : 0 < max_spill_bytes lim → spill_inv lim (spill_start lim).
Proof.
  intros Hm. split; simpl; try done; [|unfold hsum; simpl; lia].
  split; simpl; try done. intros mt Hmt. unfold aget. rewrite decide_True by lia.
  change (replicate 256 0 !! Z.to_nat mt = Some 0). apply lookup_replicate_2. lia.
Qed.

Lemma spill_steps_inv lim y y' :
  0 < max_spill_bytes lim → spill_inv lim y → rtc (spill_step lim) y y' →
  spill_inv lim y'.
Proof. intros Hm Hy. induction 1; eauto using spill_step_inv. Qed.

(** What fits is granted. *)
Lemma spill_granted lim sp h size mt always ft :
  spill_counts sp h → 0 < size → hsum h + size ≤ max_spill_bytes lim < 2 ^ 62 → 0 ≤ mt < 256 →
  ∃ sp', alloc_spill_memory lim always sp size mt ft = Some (SpillGranted sp').
Proof.
  intros [Hcur Hh _ [_ Hlen] Hper _] Hs Hfit Hmt. pose proof (hsum_pos _ Hh).
  unfold alloc_spill_memory. rewrite Hcur, u64_id by (unfold is_u64; lia).
  rewrite decide_True by (right; right; lia).
  destruct (if decide _ then _ else _) as [pk th]. rewrite Hper by done. simpl.
  destruct (aget_is_Some (peak_permsg_spill_bytes sp) mt) as [pp ->]; [unfold zlen; lia|].
  by eexists.
Qed.

(** A suspended request wakes exactly when it fits, and is then granted. *)
Lemma spill_wakeup_fits lim y size mt delta :
  max_spill_bytes lim < 2 ^ 62 → spill_inv lim y → (size, mt) ∈ waiters y →
  size ≤ max_spill_bytes lim ∧
  if decide (hsum (holders y ++ exempt y) + size ≤ max_spill_bytes lim)
  then ∃ sp1 sp2, spill_wakeup lim (sys_sp y) size delta = Some sp1 ∧
    alloc_spill_memory lim false sp1 size mt false = Some (SpillGranted sp2)
  else spill_wakeup lim (sys_sp y) size delta = None.
Proof.
  intros Hm [Hc Hbd Hw _] Hin. rewrite Forall_forall in Hw. destruct (Hw _ Hin) as [Hs Hmt].
  simpl in Hs, Hmt. split; [lia|]. pose proof (hsum_pos _ (sp_hold _ _ Hc)).
  pose proof (sp_fits _ _ Hc).
  assert (u64 (current_spill_bytes (sys_sp y) + size) = hsum (holders y ++ exempt y) + size) as Eu.
  { rewrite (sp_cur _ _ Hc). apply u64_id. unfold is_u64. lia. }
  case_decide as Hfit; [|unfold spill_wakeup; by rewrite Eu, decide_True by lia].
  destruct (spill_wakeup lim (sys_sp y) size delta) as [sp1|] eqn:E1;
    [|unfold spill_wakeup in E1; by rewrite Eu, decide_False in E1 by lia].
  destruct (spill_granted lim sp1 (holders y ++ exempt y) size mt false false) as [sp2 E2];
    [by eapply spill_wakeup_counts|lia..|by exists sp1, sp2].
Qed.

(** The holders can always come to their end. *)
Lemma spill_drains lim y :
  0 < max_spill_bytes lim → spill_inv lim y →
  ∃ y', rtc (spill_step lim) y y' ∧ holders y' = [] ∧ exempt y' = [] ∧ waiters y' = waiters y.
Proof.
  intros Hm. remember (length (holders y ++ exempt y)) as n eqn:En. revert y En.
  induction n as [|n IH]; intros [sp h x w] En H; simpl in En.
  { symmetry in En. apply length_zero_iff_nil, app_eq_nil in En as [-> ->].
    exists (mkSys sp [] [] w). split_all; done || apply rtc_refl. }
  assert (∃ y1, spill_step lim (mkSys sp h x w) y1 ∧
    n = length (holders y1 ++ exempt y1) ∧ waiters y1 = w) as (y1 & Hstep & En1 & Hw).
  { destruct h as [|[size mt] h].
    - destruct x as [|[size mt] x]; [done|].
      destruct (spill_release_counts sp _ x size mt (sp_counts _ _ H)) as (sp' & E & _); [done|].
      exists (mkSys sp' [] x w). split_all; [|simpl in *; lia|done]. by eapply spill_release_exempt.
    - destruct (spill_release_counts sp _ (h ++ x) size mt (sp_counts _ _ H)) as (sp' & E & _); [done|].
      exists (mkSys sp' h x w). split_all; [|simpl in *; lia|done]. by eapply spill_release. }
  destruct (IH y1 En1 (spill_step_inv _ _ _ Hm H Hstep)) as (y' & Hr & Hh & Hx & Hw').
  exists y'. split_all; [by eapply rtc_l|done|done|simpl; congruence].
Qed.

(** C20. The spill accounting is exact, and the limit holds for those it is
    meant for.  In every state that ordinary and exempted threads can reach,
    the bytes spilled are the sum of the reservations held, per message id
    too.  Threads that may always spill can take the sum above the limit, but
    the bytes held by the others never exceed it, and no request of theirs is
    granted that would take the sum above it.  Every reservation can be given
    back, which wakes the suspended threads exactly when there are any; a
    suspended request wakes exactly when it fits beside what is held, is then
    granted, and always fits once the reservations are given back, which can
    always happen. *)
Theorem spill_reachable_safe lim y :
  0 < max_spill_bytes lim < 2 ^ 62 → rtc (spill_step lim) (spill_start lim) y →
  let held := holders y ++ exempt y in
  current_spill_bytes (sys_sp y) = hsum held ∧
  (∀ mt, 0 ≤ mt < 256 → aget (current_permsg_spill_bytes (sys_sp y)) mt = Some (hsum_of mt held)) ∧
  hsum (holders y) ≤ max_spill_bytes lim ∧
  (∀ size mt ft sp', 0 < size → hsum held + size < 2 ^ 63 →
     alloc_spill_memory lim false (sys_sp y) size mt ft = Some (SpillGranted sp') →
     current_spill_bytes sp' = hsum held + size ∧ hsum held + size ≤ max_spill_bytes lim) ∧
  (∀ size mt, (size, mt) ∈ held → ∃ sp',
     release_spill_memory (sys_sp y) size mt = Some (sp', bool_decide (waiters y ≠ []))) ∧
  (∀ size mt delta, (size, mt) ∈ waiters y → size ≤ max_spill_bytes lim ∧
     if decide (hsum held + size ≤ max_spill_bytes lim)
     then ∃ sp1 sp2, spill_wakeup lim (sys_sp y) size delta = Some sp1 ∧
       alloc_spill_memory lim false sp1 size mt false = Some (SpillGranted sp2)
     else spill_wakeup lim (sys_sp y) size delta = None) ∧
  ∃ y', rtc (spill_step lim) y y' ∧ holders y' = [] ∧ exempt y' = [] ∧ waiters y' = waiters y.
Proof.
  intros Hm Hr held.
  assert (spill_inv lim y) as H by (apply (spill_steps_inv lim (spill_start lim)); [lia|apply spill_start_inv; lia|done]).
  pose proof (sp_counts _ _ H) as Hc. fold held in Hc.
  split_all; [apply Hc|apply Hc|apply H| | | |apply spill_drains; [lia|done]].
  - intros size mt ft sp' Hs Hf E.
    destruct (spill_grant_counts _ _ _ _ _ _ _ _ Hc Hs Hf E) as (Hc' & _ & Hlim).
    rewrite (sp_cur _ _ Hc'), hsum_cons. destruct Hlim as [?|[?|?]]; [lia|done|lia].
  - intros size mt Hin. apply elem_of_Permutation in Hin as [h' Hp].
    destruct (spill_release_counts _ _ _ _ _ Hc Hp) as (sp' & E & _). exists sp'.
    rewrite E. do 2 f_equal. apply bool_decide_ext. rewrite (sp_susp _ _ H). unfold zlen.
    destruct (waiters y); simpl; split; done || lia.
  - intros size mt delta. apply spill_wakeup_fits; [lia|done].
Qed.

(** With a limit of 100 bytes one thread holds 60, an exempted one 50 more, and
    a request for 30 is suspended. *)
Definition example_spilling : spill_sys :=
  mkSys (mkSpill 110 110 1024
           ([0; 60; 50] ++ replicate 253 0) ([0; 60; 50] ++ replicate 253 0) (replicate 256 0) 1 1 0)
    [(60, 1)] [(50, 2)] [(30, 3)].

Lemma example_spilling_reachable :
  let lim := mkLimits 100 1024 1024 in rtc (spill_step lim) (spill_start lim) example_spilling.
Proof.
  intros lim. unfold spill_start.
  eapply rtc_l; [eapply (spill_grant lim _ _ _ _ 60 1 false true); [lia|done|vm_compute; reflexivity]|].
  eapply rtc_l; [eapply (spill_grant lim _ _ _ _ 50 2 true true); [lia|done|vm_compute; reflexivity]|].
  eapply rtc_l; [eapply (spill_suspend lim _ _ _ _ 30 3 false true); [lia|done|lia|vm_compute; reflexivity]|].
  apply rtc_refl.
Qed.

Lemma spill_reachable_safe_witness :
  let lim := mkLimits 100 1024 1024 in let y := example_spilling in
  hsum [(60, 1); (50, 2)] = 110 ∧ hsum [(60, 1)] ≤ 100 ∧
  (∃ sp', release_spill_memory (sys_sp y) 60 1 = Some (sp', true)) ∧
  spill_wakeup lim (sys_sp y) 30 5 = None ∧
  ∃ y', rtc (spill_step lim) y y' ∧ holders y' = [] ∧ exempt y' = [] ∧ waiters y' = [(30, 3)].
Proof.
  intros lim y.
  destruct (spill_reachable_safe lim y ltac:(simpl; lia) example_spilling_reachable)
    as (_ & _ & Hlim & _ & Hrel & Hwake & Hdrain).
  split_all; [done|exact Hlim| | |exact Hdrain].
  - apply (Hrel 60 1). by left.
  - apply (Hwake 30 3 5). by left.
Defined.
