(* ===== verification/Bytes.v ===== *)
(** * Byte-addressed memory

    The address space a node's pointers range over: every address holds a
    byte.  [memcpy] reads its source before it writes, which is what the
    calls of the source, whose ranges never overlap, can observe. *)

From S2P Require Import Prelude.

Definition mem : Type := Z → Z.

Definition read_bytes (m : mem) (a n : Z) : list Z := m <$> seqZ a n.

Definition write_bytes (m : mem) (a : Z) (bs : list Z) : mem := λ x,
  if decide (a ≤ x < a + zlen bs) then default (m x) (aget bs (x - a)) else m x.

Definition memcpy (m : mem) (dst src n : Z) : mem :=
  write_bytes m dst (read_bytes m src n).

(** Agreement on a range; two memories are the same when they agree
    everywhere. *)
Definition agree (m m' : mem) (a n : Z) : Prop := ∀ x, a ≤ x < a + n → m x = m' x.
Definition mem_eq (m m' : mem) : Prop := ∀ x, m x = m' x.

#[global] Instance mem_eq_equiv : Equivalence mem_eq.
Proof.
  split; unfold mem_eq.
  - done.
  - intros m m' H x. by rewrite H.
  - intros m1 m2 m3 H H' x. by rewrite H, H'.
Qed.

Definition no_overlap (a n b k : Z) : Prop := a + n ≤ b ∨ b + k ≤ a.

Lemma read_bytes_nil m a n : n ≤ 0 → read_bytes m a n = [].
Proof. intros. unfold read_bytes. by rewrite seqZ_nil. Qed.

Lemma read_bytes_cons m a n :
  0 < n → read_bytes m a n = m a :: read_bytes m (a + 1) (n - 1).
Proof.
  intros. unfold read_bytes. rewrite seqZ_cons by lia. simpl.
  by rewrite Z.add_1_r, Z.sub_1_r.
Qed.

Lemma read_bytes_zlen m a n : 0 ≤ n → zlen (read_bytes m a n) = n.
Proof. intros. unfold zlen, read_bytes. rewrite length_fmap, length_seqZ. lia. Qed.

Lemma read_bytes_lookup m a n i :
  0 ≤ i < n → aget (read_bytes m a n) i = Some (m (a + i)).
Proof.
  intros. unfold aget, read_bytes. rewrite decide_True by lia.
  rewrite list_lookup_fmap, lookup_seqZ_lt by lia. simpl. do 2 f_equal. lia.
Qed.

Lemma read_bytes_app m a n k :
  0 ≤ n → 0 ≤ k → read_bytes m a (n + k) = read_bytes m a n ++ read_bytes m (a + n) k.
Proof. intros. unfold read_bytes. rewrite seqZ_app by lia. apply fmap_app. Qed.

Lemma read_bytes_agree m m' a n :
  agree m m' a n → read_bytes m a n = read_bytes m' a n.
Proof.
  intros H. unfold read_bytes. apply list_fmap_ext. intros i x Hx%list_elem_of_lookup_2.
  apply elem_of_seqZ in Hx. apply H. lia.
Qed.

#[global] Instance read_bytes_proper : Proper (mem_eq ==> eq ==> eq ==> eq) read_bytes.
Proof. intros m m' H a ? <- n ? <-. apply read_bytes_agree. intros x _. apply H. Qed.

Lemma aget_default {A} (l : list A) i (d : A) x :
  aget l i = Some x → default d (aget l i) = x.
Proof. by intros ->. Qed.

Lemma write_bytes_out m a bs x :
  ¬ (a ≤ x < a + zlen bs) → write_bytes m a bs x = m x.
Proof. intros. unfold write_bytes. by rewrite decide_False. Qed.

Lemma write_bytes_in m a bs x b :
  aget bs (x - a) = Some b → write_bytes m a bs x = b.
Proof.
  intros Hg. pose proof (aget_Some_range _ _ _ Hg). unfold write_bytes.
  rewrite decide_True by lia. by rewrite Hg.
Qed.

Lemma write_bytes_nil m a : mem_eq (write_bytes m a []) m.
Proof. intros x. apply write_bytes_out. unfold zlen. simpl. lia. Qed.

Lemma read_write_same m a bs : read_bytes (write_bytes m a bs) a (zlen bs) = bs.
Proof.
  apply list_eq. intros i. unfold read_bytes. rewrite list_lookup_fmap.
  destruct (decide (i < length bs)%nat) as [Hi|Hi].
  - rewrite lookup_seqZ_lt by (unfold zlen; lia). simpl.
    destruct (lookup_lt_is_Some_2 bs i Hi) as [b Hb]. rewrite Hb. f_equal.
    apply write_bytes_in. unfold aget. rewrite decide_True by lia.
    by replace (Z.to_nat (a + Z.of_nat i - a)) with i by lia.
  - rewrite lookup_seqZ_ge by (unfold zlen; lia). by rewrite lookup_ge_None_2 by lia.
Qed.

Lemma read_write_out m a bs b n :
  no_overlap a (zlen bs) b n → read_bytes (write_bytes m a bs) b n = read_bytes m b n.
Proof.
  intros Hd. apply read_bytes_agree. intros x Hx. apply write_bytes_out.
  unfold no_overlap in Hd. lia.
Qed.

Lemma read_write_same' m a bs n :
  n = zlen bs → read_bytes (write_bytes m a bs) a n = bs.
Proof. intros ->. apply read_write_same. Qed.

Lemma write_bytes_app m a bs bs' :
  mem_eq (write_bytes m a (bs ++ bs'))
         (write_bytes (write_bytes m a bs) (a + zlen bs) bs').
Proof.
  intros x. unfold write_bytes, zlen, aget. rewrite length_app.
  repeat (case_decide; try lia); simpl; try done.
  - rewrite lookup_app_r by lia. do 2 f_equal. lia.
  - by rewrite lookup_app_l by lia.
Qed.

#[global] Instance write_bytes_proper : Proper (mem_eq ==> eq ==> eq ==> mem_eq) write_bytes.
Proof.
  intros m m' H a ? <- bs ? <- x. unfold write_bytes. by rewrite H.
Qed.

Lemma memcpy_read m dst src n :
  0 ≤ n → read_bytes (memcpy m dst src n) dst n = read_bytes m src n.
Proof. intros. unfold memcpy. apply read_write_same'. by rewrite read_bytes_zlen. Qed.

Lemma memcpy_out m dst src n b k :
  0 ≤ n → no_overlap dst n b k →
  read_bytes (memcpy m dst src n) b k = read_bytes m b k.
Proof. intros. apply read_write_out. by rewrite read_bytes_zlen. Qed.
#[export] Hint Rewrite @read_bytes_zlen using lia : realm.
