(* ===== verification/Payload.v ===== *)
(** * Message payloads and outgoing messages

    The payload sources of src/templates/activemsg.cc (contiguous, strided and
    span lists) with their [copy_data], the deferred-free ring, and the life
    of an [OutgoingMessage]: [set_payload], [reserve_srcdata],
    [assign_srcdata_pointer] and the destructor, over a node with its memory,
    its C heap and its source-data pool. *)

From S2P Require Import Prelude StdMap Spans SrcDataPool Bytes.

(** ** Payload modes *)
Inductive PayloadMode :=
| PAYLOAD_NONE | PAYLOAD_KEEP | PAYLOAD_FREE | PAYLOAD_COPY
| PAYLOAD_SRCPTR | PAYLOAD_PENDING | PAYLOAD_KEEPREG | PAYLOAD_EMPTY.

#[global] Instance PayloadMode_eq_dec : EqDecision PayloadMode.
Proof. solve_decision. Defined.

(** ** Deferred frees

    A ring of the last [DEFERRED_FREE_COUNT] pointers handed to
    [deferred_free]; the null pointer fills unused slots. *)
Definition DEFERRED_FREE_COUNT : Z := 128.

Record DeferredFrees := mkDeferred {
  deferred_frees : list Z;
  deferred_free_pos : Z }.

Definition init_deferred_frees : DeferredFrees :=
  mkDeferred (replicate (Z.to_nat DEFERRED_FREE_COUNT) 0) 0.

(** The second result is the pointer passed to [free], if any. *)
Definition deferred_free (d : DeferredFrees) (ptr : Z) : option (DeferredFrees * option Z) :=
  oldptr ← aget (deferred_frees d) (deferred_free_pos d);
  Some (mkDeferred (aset (deferred_frees d) (deferred_free_pos d) ptr)
          ((deferred_free_pos d + 1) `mod` DEFERRED_FREE_COUNT),
        if decide (oldptr = 0) then None else Some oldptr).

(** ** The node *)

(** [heap] is the set of live blocks of the C heap, by address. *)
Record Node := mkNode {
  bytes : mem;
  heap : gset Z;
  srcdatapool : option SrcDataPool;
  deferred : DeferredFrees }.

Definition set_bytes (n : Node) (m : mem) : Node :=
  mkNode m (heap n) (srcdatapool n) (deferred n).
Definition set_heap (n : Node) (h : gset Z) : Node :=
  mkNode (bytes n) h (srcdatapool n) (deferred n).
Definition set_pool (n : Node) (p : SrcDataPool) : Node :=
  mkNode (bytes n) (heap n) (Some p) (deferred n).
Definition set_deferred (n : Node) (d : DeferredFrees) : Node :=
  mkNode (bytes n) (heap n) (srcdatapool n) d.

(** [free(0)] does nothing; freeing a block that is not live is undefined and
    has no result. *)
Definition c_free (n : Node) (p : Z) : option Node :=
  if decide (p = 0) then Some n
  else assert! p ∈ heap n; Some (set_heap n (heap n ∖ {[p]})).

(** [malloc] returned [p]; the code asserts that it is not null. *)
Definition c_malloc (n : Node) (p : Z) : option Node :=
  assert! p ≠ 0;
  Some (set_heap n ({[p]} ∪ heap n)).

(** The call [srcdatapool->release_spill_memory]; the pool must exist. *)
Definition pool_release_spill (n : Node) (size msgid : Z) : option Node :=
  p ← srcdatapool n;
  '(sp, _) ← release_spill_memory (spill p) size msgid;
  Some (set_pool n (set_spill p sp)).

(** ** Payload sources *)
Inductive PayloadSource :=
| ContiguousPayload (srcptr size : Z) (mode : PayloadMode)
| TwoDPayload (srcptr line_size line_count line_stride : Z) (mode : PayloadMode)
| SpanPayload (spans : list (Z * Z)) (size : Z) (mode : PayloadMode).

(** Only [ContiguousPayload] overrides the two accessors; the base class
    asserts in the first and returns [PAYLOAD_KEEP] from the second. *)
Definition get_contig_pointer (ps : PayloadSource) : option Z :=
  match ps with ContiguousPayload srcptr _ _ => Some srcptr | _ => None end.

Definition get_payload_mode (ps : PayloadSource) : PayloadMode :=
  match ps with ContiguousPayload _ _ mode => mode | _ => PAYLOAD_KEEP end.

Definition contig_copy_data (srcptr size : Z) (mode : PayloadMode) (dest : Z) (n : Node)
    : option Node :=
  let n := set_bytes n (memcpy (bytes n) dest srcptr size) in
  if decide (mode = PAYLOAD_FREE) then c_free n srcptr else Some n.

Fixpoint twod_copy_lines (line_count : nat) (m : mem) (dst_c src_c line_size line_stride : Z)
    : mem :=
  match line_count with
  | O => m
  | S k => twod_copy_lines k (memcpy m dst_c src_c line_size)
             (dst_c + line_size) (src_c + line_stride) line_size line_stride
  end.

(** [bytes_left] is a [size_t]; the second assertion of the loop is always
    true. *)
Fixpoint span_copy_spans (spans : list (Z * Z)) (m : mem) (dst_c bytes_left : Z)
    : option mem :=
  match spans with
  | [] => assert! bytes_left = 0; Some m
  | (first, second) :: spans' =>
      assert! second ≤ bytes_left;
      span_copy_spans spans' (memcpy m dst_c first second)
        (dst_c + second) (u64 (bytes_left - second))
  end.

Definition copy_data (ps : PayloadSource) (dest : Z) (n : Node) : option Node :=
  match ps with
  | ContiguousPayload srcptr size mode => contig_copy_data srcptr size mode dest n
  | TwoDPayload srcptr line_size line_count line_stride _ =>
      Some (set_bytes n (twod_copy_lines (Z.to_nat line_count) (bytes n) dest srcptr
                           line_size line_stride))
  | SpanPayload spans size _ =>
      m ← span_copy_spans spans (bytes n) dest size; Some (set_bytes n m)
  end.

(** ** Outgoing messages *)
Record OutgoingMessage := mkMsg {
  msgid : Z;
  num_args : Z;
  args : list Z;
  payload : Z;
  payload_size : Z;
  payload_mode : PayloadMode;
  dstptr : Z;
  payload_src : option PayloadSource }.

Definition set_payload_state (m : OutgoingMessage) (p : Z) (mode : PayloadMode)
    (src : option PayloadSource) : OutgoingMessage :=
  mkMsg (msgid m) (num_args m) (args m) p (payload_size m) mode (dstptr m) src.

(** [args] has room for 16 ints. *)
Definition OutgoingMessage_init (msgid num_args : Z) (args : list Z) : option OutgoingMessage :=
  assert! num_args ≤ 16;
  Some (mkMsg msgid num_args (take (Z.to_nat num_args) args) 0 0 PAYLOAD_NONE 0 None).

Definition OutgoingMessage_fini (m : OutgoingMessage) (n : Node) : option Node :=
  n ← (if decide (payload_mode m = PAYLOAD_COPY ∨ payload_mode m = PAYLOAD_FREE) then
         if decide (payload_size m > 0) then
           n ← pool_release_spill n (payload_size m) (msgid m);
           '(d, freed) ← deferred_free (deferred n) (payload m);
           c_free (set_deferred n d) (default 0 freed)
         else Some n
       else Some n);
  match payload_src m with
  | None => Some n
  | Some _ => assert! payload_mode m = PAYLOAD_KEEPREG; Some n
  end.

Definition set_payload (lmb_size : Z) (m : OutgoingMessage) (src : PayloadSource)
    (size : Z) (mode : PayloadMode) (dst : Z) : option OutgoingMessage :=
  assert! payload_mode m = PAYLOAD_NONE;
  assert! mode ≠ PAYLOAD_NONE;
  assert! size > 0;
  assert! dst ≠ 0 ∨ size ≤ lmb_size;
  Some (mkMsg (msgid m) (num_args m) (args m) 0 size mode dst (Some src)).

Definition set_payload_empty (m : OutgoingMessage) : OutgoingMessage :=
  set_payload_state m (payload m) PAYLOAD_EMPTY (payload_src m).

(** The part of [reserve_srcdata] that runs under the pool's lock; [self] is
    the message, [copy_ptr] the block [malloc] returns. *)
Definition reserve_locked (self copy_ptr : Z) (m : OutgoingMessage) (src : PayloadSource)
    (n : Node) (p : SrcDataPool) : option (OutgoingMessage * Node * Z) :=
  '(p, srcptr) ← alloc_srcptr p (payload_size m);
  if decide (srcptr ≠ 0) then
    n ← (if decide (payload_mode m = PAYLOAD_COPY ∨ payload_mode m = PAYLOAD_FREE)
         then pool_release_spill (set_pool n p) (payload_size m) (msgid m)
         else Some (set_pool n p));
    Some (set_payload_state m srcptr PAYLOAD_SRCPTR (Some src), n, srcptr)
  else
    '(src, n) ← (if decide (payload_mode m = PAYLOAD_COPY) then
                   n ← c_malloc (set_pool n p) copy_ptr;
                   n ← copy_data src copy_ptr n;
                   Some (ContiguousPayload copy_ptr (payload_size m) PAYLOAD_FREE, n)
                 else Some (src, set_pool n p));
    p ← srcdatapool n;
    p ← add_pending p self (payload_size m);
    Some (set_payload_state m (payload m) PAYLOAD_PENDING (Some src), set_pool n p, 0).

(** Without a pool: use the data in place or copy it to the heap. *)
Definition reserve_heap (copy_ptr : Z) (m : OutgoingMessage) (src : PayloadSource) (n : Node)
    : option (OutgoingMessage * Node) :=
  contig ← get_contig_pointer src;
  if decide (contig ≠ 0 ∧ payload_mode m ≠ PAYLOAD_COPY) then
    Some (set_payload_state m contig (get_payload_mode src) None, n)
  else
    n ← c_malloc n copy_ptr;
    n ← copy_data src copy_ptr n;
    Some (set_payload_state m copy_ptr PAYLOAD_FREE None, n).

Definition reserve_srcdata (self copy_ptr : Z) (m : OutgoingMessage) (n : Node)
    : option (OutgoingMessage * Node) :=
  if decide (payload_mode m = PAYLOAD_NONE ∨ payload_mode m = PAYLOAD_EMPTY) then Some (m, n)
  else
    src ← payload_src m;
    keep ← (if decide (payload_mode m = PAYLOAD_KEEPREG)
            then get_contig_pointer src else Some 0);
    if decide (keep ≠ 0) then
      Some (set_payload_state m keep (payload_mode m) (Some src), n)
    else
      match srcdatapool n with
      | Some p =>
          '(m, n, srcptr) ← reserve_locked self copy_ptr m src n p;
          if decide (srcptr ≠ 0) then
            n ← copy_data src srcptr n;
            Some (set_payload_state m (payload m) (payload_mode m) None, n)
          else Some (m, n)
      | None => reserve_heap copy_ptr m src n
      end.

Definition assign_srcdata_pointer (m : OutgoingMessage) (ptr : Z) (n : Node)
    : option (OutgoingMessage * Node) :=
  assert! payload_mode m = PAYLOAD_PENDING;
  src ← payload_src m;
  n ← copy_data src ptr n;
  let was_using_spill := bool_decide (get_payload_mode src = PAYLOAD_FREE) in
  n ← (if was_using_spill then pool_release_spill n (payload_size m) (msgid m) else Some n);
  Some (set_payload_state m ptr PAYLOAD_SRCPTR None, n).

(** The three [enqueue_message] entry points build the message header before
    they hand it to the endpoint manager.  [mynode] and the registered segment
    [(addr, size)] are the node's own. *)
Definition is_registered (seg : Z * Z) (ptr : Z) : bool :=
  let offset := i64 (ptr - seg.1) in bool_decide (0 ≤ offset ∧ u64 offset < seg.2).

Definition arg_words (arg_size : Z) : Z := (arg_size + 4 - 1) `div` 4.

Definition attach (lmb_size : Z) (hdr : OutgoingMessage) (mode : PayloadMode)
    (src : PayloadSource) (size dst : Z) : option OutgoingMessage :=
  if decide (mode ≠ PAYLOAD_NONE) then
    if decide (size > 0) then set_payload lmb_size hdr src size mode dst
    else Some (set_payload_empty hdr)
  else Some hdr.

Definition contig_message (lmb_size : Z) (mynode : Z) (seg : Z * Z)
    (target mid : Z) (ints : list Z) (arg_size : Z)
    (payload size : Z) (mode : PayloadMode) (dst : Z) : option OutgoingMessage :=
  assert! target ≠ mynode;
  hdr ← OutgoingMessage_init mid (arg_words arg_size) ints;
  let mode := if decide (mode = PAYLOAD_KEEP ∧ is_registered seg payload = true)
              then PAYLOAD_KEEPREG else mode in
  attach lmb_size hdr mode (ContiguousPayload payload size mode) size dst.

Definition twod_message (lmb_size : Z) (mynode : Z)
    (target mid : Z) (ints : list Z) (arg_size : Z)
    (payload line_size line_stride line_count : Z) (mode : PayloadMode) (dst : Z)
    : option OutgoingMessage :=
  assert! target ≠ mynode;
  hdr ← OutgoingMessage_init mid (arg_words arg_size) ints;
  let size := u64 (line_size * line_count) in
  attach lmb_size hdr mode (TwoDPayload payload line_size line_count line_stride mode) size dst.

Definition span_message (lmb_size : Z) (mynode : Z)
    (target mid : Z) (ints : list Z) (arg_size : Z)
    (spans : list (Z * Z)) (size : Z) (mode : PayloadMode) (dst : Z)
    : option OutgoingMessage :=
  assert! target ≠ mynode;
  hdr ← OutgoingMessage_init mid (arg_words arg_size) ints;
  attach lmb_size hdr mode (SpanPayload spans size mode) size dst.

(** ** Specification of a payload: the bytes it stands for *)

Definition src_ranges (ps : PayloadSource) : list (Z * Z) :=
  match ps with
  | ContiguousPayload srcptr size _ => [(srcptr, size)]
  | TwoDPayload srcptr line_size line_count line_stride _ =>
      (λ i, (srcptr + i * line_stride, line_size)) <$> seqZ 0 line_count
  | SpanPayload spans _ _ => spans
  end.

Definition gather (m : mem) (l : list (Z * Z)) : list Z :=
  l ≫= λ r, read_bytes m r.1 r.2.

Definition payload_bytes (m : mem) (ps : PayloadSource) : list Z := gather m (src_ranges ps).

Definition clear_of (dst n : Z) (l : list (Z * Z)) : Prop :=
  Forall (λ r, no_overlap dst n r.1 r.2) l.

(** What a caller supplies: [size] bytes in all, of which a span list has the
    exact sum, and a freed source that is live. *)
Record payload_ok (n : Node) (ps : PayloadSource) (size : Z) : Prop := {
  po_size : sizes (src_ranges ps) = size;
  po_pos : Forall (λ r, 0 ≤ r.2) (src_ranges ps);
  po_u64 : is_u64 size;
  po_span : match ps with SpanPayload _ s _ => s = size | _ => True end;
  po_live : match ps with
            | ContiguousPayload p _ PAYLOAD_FREE => p ≠ 0 ∧ p ∈ heap n
            | _ => True end }.

Fixpoint copy_chunks (m : mem) (dst : Z) (l : list (Z * Z)) : mem :=
  match l with
  | [] => m
  | (a, k) :: l' => copy_chunks (memcpy m dst a k) (dst + k) l'
  end.

Lemma chunk_sizes_nonneg l : Forall (λ r : Z * Z, 0 ≤ r.2) l → 0 ≤ sizes l.
Proof. intros H. apply Zsum_nonneg. by apply Forall_fmap. Qed.

Lemma gather_agree m m' l :
  (∀ r, r ∈ l → agree m m' r.1 r.2) → gather m l = gather m' l.
Proof.
  unfold gather. induction l as [|r l IH]; intros H; csimpl; [done|].
  rewrite (read_bytes_agree m m') by (apply H; set_solver).
  f_equal. apply IH. set_solver.
Qed.

Lemma gather_zlen m l : Forall (λ r : Z * Z, 0 ≤ r.2) l → zlen (gather m l) = sizes l.
Proof.
  unfold gather. induction 1 as [|r l Hr Hl IH]; csimpl; [done|].
  unfold zlen in *. rewrite length_app, Nat2Z.inj_add, IH.
  change (Z.of_nat (length (read_bytes m r.1 r.2))) with (zlen (read_bytes m r.1 r.2)).
  rewrite read_bytes_zlen by done. destruct r. by rewrite sizes_cons.
Qed.

Lemma copy_chunks_spec l : ∀ m dst,
  Forall (λ r, 0 ≤ r.2) l → clear_of dst (sizes l) l →
  read_bytes (copy_chunks m dst l) dst (sizes l) = gather m l ∧
  ∀ x, ¬ (dst ≤ x < dst + sizes l) → copy_chunks m dst l x = m x.
Proof.
  induction l as [|[a k] l IH]; intros m dst Hp Hc; [by rewrite read_bytes_nil|].
  apply Forall_cons in Hp as [Hk Hp]. apply Forall_cons in Hc as [Hd Hc]. simpl in *.
  rewrite sizes_cons in *. pose proof (chunk_sizes_nonneg _ Hp) as Hs.
  destruct (IH (memcpy m dst a k) (dst + k) Hp) as [Hr Ho].
  { eapply Forall_impl; [exact Hc|]. unfold no_overlap. intros r Hr. simpl in *. lia. }
  assert (∀ b n, no_overlap dst k b n → agree (memcpy m dst a k) m b n) as Hag.
  { intros b n Hn x Hx. apply write_bytes_out. rewrite read_bytes_zlen by done.
    unfold no_overlap in Hn. lia. }
  split.
  - rewrite read_bytes_app by done. unfold gather. csimpl. f_equal.
    + rewrite (read_bytes_agree _ (memcpy m dst a k)).
      * by apply memcpy_read.
      * intros x Hx. apply Ho. lia.
    + fold (gather m l). rewrite Hr. apply gather_agree. intros r Hin. apply Hag.
      unfold clear_of in Hc. rewrite Forall_forall in Hc. specialize (Hc _ Hin).
      unfold no_overlap in *. lia.
  - intros x Hx. rewrite Ho by lia. apply write_bytes_out.
    rewrite read_bytes_zlen by done. lia.
Qed.

Lemma twod_copy_lines_chunks ls st : ∀ k m d s,
  twod_copy_lines k m d s ls st =
  copy_chunks m d ((λ i, (s + i * st, ls)) <$> seqZ 0 (Z.of_nat k)).
Proof.
  induction k as [|k IH]; intros m d s; [done|].
  rewrite seqZ_cons by lia. csimpl. rewrite IH.
  replace (s + 0 * st) with s by lia. f_equal.
  replace (Z.pred (Z.of_nat (S k))) with (Z.of_nat k) by lia.
  rewrite <- Z.add_1_l, <- fmap_add_seqZ, <- list_fmap_compose.
  apply list_fmap_ext. intros i x _. simpl. f_equal. lia.
Qed.

Lemma span_copy_spans_chunks l : ∀ m d,
  Forall (λ r, 0 ≤ r.2) l → is_u64 (sizes l) →
  span_copy_spans l m d (sizes l) = Some (copy_chunks m d l).
Proof.
  induction l as [|[a k] l IH]; intros m d Hp Hu; csimpl; [done|].
  apply Forall_cons in Hp as [Hk Hp]. simpl in Hk.
  pose proof (chunk_sizes_nonneg _ Hp). rewrite sizes_cons in *.
  unfold is_u64 in *. rewrite assert_true by lia.
  replace (k + sizes l - k) with (sizes l) by lia.
  rewrite u64_id by (unfold is_u64; lia). apply IH; [done|lia].
Qed.

(** The heap after a copy: an owned source is freed. *)
Definition heap_after (ps : PayloadSource) (h : gset Z) : gset Z :=
  match ps with ContiguousPayload p _ PAYLOAD_FREE => h ∖ {[p]} | _ => h end.

Lemma copy_data_chunks n ps size dst :
  payload_ok n ps size →
  copy_data ps dst n =
    Some (mkNode (copy_chunks (bytes n) dst (src_ranges ps)) (heap_after ps (heap n))
            (srcdatapool n) (deferred n)).
Proof.
  intros [Hs Hp Hu Hsp Hl]. destruct ps as [p k mode|p ls lc st mode|sp k mode]; simpl in *.
  - unfold contig_copy_data. case_decide as Hm; [subst mode|by destruct mode].
    destruct Hl as [Hne Hin]. unfold c_free. rewrite decide_False by done.
    by rewrite assert_true.
  - rewrite twod_copy_lines_chunks. unfold set_bytes. do 3 f_equal.
    destruct (decide (0 ≤ lc)); [by rewrite Z2Nat.id|].
    rewrite !seqZ_nil by lia. done.
  - rewrite Hsp, <- Hs, span_copy_spans_chunks; [done..|by rewrite Hs].
Qed.

(** [copy_data] gathers: whatever the layout of the payload, the copy
    never fails an assertion and the destination then holds exactly the
    payload's bytes, every other byte is unchanged, and an owned source is
    freed. *)
Lemma copy_data_gathers n ps size dst :
  payload_ok n ps size → clear_of dst size (src_ranges ps) →
  ∃ n', copy_data ps dst n = Some n' ∧
    read_bytes (bytes n') dst size = payload_bytes (bytes n) ps ∧
    zlen (payload_bytes (bytes n) ps) = size ∧
    (∀ x, ¬ (dst ≤ x < dst + size) → bytes n' x = bytes n x) ∧
    heap n' = heap_after ps (heap n) ∧
    srcdatapool n' = srcdatapool n ∧ deferred n' = deferred n.
Proof.
  intros H Hc. pose proof (po_size _ _ _ H) as Hs. rewrite <- Hs in Hc.
  destruct (copy_chunks_spec (src_ranges ps) (bytes n) dst (po_pos _ _ _ H) Hc) as [Hr Ho].
  eexists. split; [by eapply copy_data_chunks|]. simpl. rewrite Hs in *.
  split_all; try done. unfold payload_bytes. rewrite gather_zlen by apply H. done.
Qed.

Lemma copy_data_gathers_witness :
  let n := mkNode (λ x, x) ∅ None init_deferred_frees in
  ∃ n', copy_data (TwoDPayload 1000 2 3 (-10) PAYLOAD_KEEP) 5000 n = Some n' ∧
    read_bytes (bytes n') 5000 6 = [1000; 1001; 990; 991; 980; 981] ∧
    zlen [1000; 1001; 990; 991; 980; 981] = 6 ∧
    (∀ x, ¬ (5000 ≤ x < 5000 + 6) → bytes n' x = bytes n x) ∧
    heap n' = heap n ∧ srcdatapool n' = srcdatapool n ∧ deferred n' = deferred n.
Proof.
  refine (copy_data_gathers _ (TwoDPayload 1000 2 3 (-10) PAYLOAD_KEEP) 6 5000 _ _).
  - split; try done. by repeat constructor.
  - apply Forall_fmap, Forall_forall. intros i Hi%elem_of_seqZ.
    unfold no_overlap. simpl. lia.
Defined.

(** ** The life of a message *)

(** A message as [enqueue_message] leaves it, before [reserve_srcdata]: which
    kind of source goes with which mode. *)
Definition mode_ok (mode : PayloadMode) (src : PayloadSource) : Prop :=
  match mode with
  | PAYLOAD_KEEP | PAYLOAD_COPY => get_payload_mode src ≠ PAYLOAD_FREE
  | PAYLOAD_FREE => get_payload_mode src = PAYLOAD_FREE
  | PAYLOAD_KEEPREG => ∃ p k, src = ContiguousPayload p k PAYLOAD_KEEPREG ∧ p ≠ 0
  | _ => False
  end.

Lemma copy_data_frame ps dst n n' :
  copy_data ps dst n = Some n' → srcdatapool n' = srcdatapool n ∧ deferred n' = deferred n.
Proof.
  intros E. destruct ps as [p k mode|p ls lc st mode|sp k mode]; simpl in E.
  - unfold contig_copy_data, c_free in E. repeat case_decide; asserts; by simplify_eq.
  - by simplify_eq.
  - by asserts; simplify_eq.
Qed.

Lemma sdp_inv_set_spill base p sp : sdp_inv base p → sdp_inv base (set_spill p sp).
Proof. intros H. destruct H. by split. Qed.

Lemma alloc_srcptr_spill p size p' ptr :
  alloc_srcptr p size = Some (p', ptr) → spill p' = spill p ∧ total_size p' = total_size p.
Proof.
  unfold alloc_srcptr. intros E. asserts. destruct (pending_allocations p); [|by simplify_eq].
  destruct (walk_free_list _ _ _ _); [by simplify_eq|].
  case_decide; asserts; by simplify_eq.
Qed.

(** Spill bytes a message still holds a reservation for. *)
Definition spill_owed (m : OutgoingMessage) : Z :=
  match payload_mode m with
  | PAYLOAD_COPY | PAYLOAD_FREE => payload_size m
  | PAYLOAD_PENDING =>
      match payload_src m with
      | Some src => if decide (get_payload_mode src = PAYLOAD_FREE) then payload_size m else 0
      | None => 0
      end
  | _ => 0
  end.

Definition well_moded (m : OutgoingMessage) : Prop :=
  match payload_mode m with
  | PAYLOAD_KEEP | PAYLOAD_COPY | PAYLOAD_FREE =>
      ∃ src, payload_src m = Some src ∧ mode_ok (payload_mode m) src
  | PAYLOAD_PENDING => payload_src m ≠ None
  | PAYLOAD_KEEPREG => True
  | _ => payload_src m = None
  end ∧ 0 ≤ payload_size m.

(** What happens to a message between its creation and its destruction, on a
    node with a source-data pool. *)
Inductive msg_event : OutgoingMessage * Node → OutgoingMessage * Node → Prop :=
| ev_reserve self cp m n m' n' :
    is_Some (srcdatapool n) → payload_mode m ∈ [PAYLOAD_NONE; PAYLOAD_EMPTY; PAYLOAD_KEEP; PAYLOAD_FREE; PAYLOAD_COPY] →
    reserve_srcdata self cp m n = Some (m', n') → msg_event (m, n) (m', n')
| ev_assign ptr m n m' n' :
    assign_srcdata_pointer m ptr n = Some (m', n') → msg_event (m, n) (m', n').

Definition spilled (n : Node) : Z :=
  match srcdatapool n with Some p => current_spill_bytes (spill p) | None => 0 end.

Lemma pool_release_spill_spilled n size mid n' :
  pool_release_spill n size mid = Some n' →
  spilled n' = u64 (spilled n - size) ∧ is_Some (srcdatapool n').
Proof.
  unfold pool_release_spill, spilled. intros E. asserts.
  destruct (srcdatapool n) as [p|]; [|done]. simpl in *. simplify_eq.
  unfold release_spill_memory in *. asserts. by simplify_eq/=.
Qed.

Lemma u64_mod_eq a b : (2 ^ 64 | a - b) → u64 a = u64 b.
Proof.
  intros [k Hk]. unfold u64. replace a with (b + k * 2 ^ 64) by lia.
  apply Z_mod_plus_full.
Qed.

Lemma u64_sub_l a b : u64 (u64 a - b) = u64 (a - b).
Proof.
  apply u64_mod_eq. unfold u64. exists (- (a `div` 2 ^ 64)).
  pose proof (Z.div_mod a (2 ^ 64) ltac:(lia)). lia.
Qed.

Lemma u64_u64 a : u64 (u64 a) = u64 a.
Proof. apply u64_id, u64_range. Qed.

Lemma c_free_frame n p n' :
  c_free n p = Some n' → srcdatapool n' = srcdatapool n ∧ bytes n' = bytes n.
Proof. unfold c_free. intros E. case_decide; asserts; by simplify_eq. Qed.

Lemma spilled_eq n n' : srcdatapool n' = srcdatapool n → spilled n' = spilled n.
Proof. unfold spilled. by intros ->. Qed.

(** Under the lock: a granted pointer gives the reservation back, a refused
    one keeps it. *)
Lemma reserve_locked_spill self cp m src n p m' n' ptr :
  srcdatapool n = Some p → payload_src m = Some src → mode_ok (payload_mode m) src →
  payload_mode m ≠ PAYLOAD_KEEPREG →
  reserve_locked self cp m src n p = Some (m', n', ptr) →
  payload_size m' = payload_size m ∧
  u64 (spilled n' - spill_owed m') = u64 (spilled n - spill_owed m) ∧
  if decide (ptr ≠ 0)
  then payload_mode m' = PAYLOAD_SRCPTR
  else payload_mode m' = PAYLOAD_PENDING ∧ payload_src m' ≠ None.
Proof.
  intros Hp Hsrc Hok Hkr E. unfold reserve_locked in E.
  destruct (alloc_srcptr p (payload_size m)) as [[p1 sp]|] eqn:Ea; [|done].
  destruct (alloc_srcptr_spill _ _ _ _ Ea) as [Esp _]. simpl in E.
  assert (spilled (set_pool n p1) = spilled n) as Es1.
  { unfold spilled. rewrite Hp. simpl. by rewrite Esp. }
  case_decide as Hsp.
  - destruct (if decide _ then _ else _) as [n1|] eqn:E1; [|done]. simplify_eq/=.
    split_all; [done| |by rewrite decide_True].
    unfold spill_owed at 1. simpl. rewrite Z.sub_0_r.
    case_decide as Hm.
    + apply pool_release_spill_spilled in E1 as [-> _]. rewrite Es1, u64_u64. f_equal. unfold spill_owed. destruct Hm as [-> | ->]; lia.
    + simplify_eq. rewrite Es1. f_equal. unfold spill_owed.
      destruct (payload_mode m); simpl in *; try done; try lia; tauto.
  - destruct (if decide (payload_mode m = PAYLOAD_COPY) then _ else _) as [[src' n1]|] eqn:E1;
      [|done]. simpl in E.
    assert (srcdatapool n1 = Some p1 ∧ spill_owed (set_payload_state m (payload m) PAYLOAD_PENDING (Some src'))
              = spill_owed m) as [Hn1 Hso].
    { case_decide as Hm.
      - clear E. asserts. simplify_eq/=.
        match goal with H : copy_data _ _ _ = Some _ |- _ =>
          destruct (copy_data_frame _ _ _ _ H) as [-> _] end.
        unfold c_malloc in *. asserts. simplify_eq/=. split; [done|].
        unfold spill_owed. simpl. by rewrite Hm.
      - simplify_eq/=. split; [done|]. unfold spill_owed. simpl.
        destruct (payload_mode m); simpl in *; try done; by case_decide. }
    rewrite Hn1 in E. simpl in E. unfold add_pending in E. asserts. simplify_eq/=.
    split_all; [done| |done|done].
    rewrite Hso. rewrite <- Es1. done.
Qed.

Lemma msg_event_spill x y :
  msg_event x y → well_moded x.1 →
  u64 (spilled y.2 - spill_owed y.1) = u64 (spilled x.2 - spill_owed x.1) ∧ well_moded y.1.
Proof.
  intros [self cp m n m' n' Hpool Hin E|ptr m n m' n' E] Hw; simpl in *.
  - unfold reserve_srcdata in E. case_decide as Hne; [simplify_eq; done|].
    destruct (payload_src m) as [src|] eqn:Esrc; [|done]. simpl in E.
    assert (payload_mode m ≠ PAYLOAD_KEEPREG) as Hkr.
    { intros Hk. rewrite Hk in Hin. set_solver. }
    rewrite decide_False in E by done. simpl in E.
    assert (mode_ok (payload_mode m) src) as Hok.
    { destruct Hw as [Hw _]. rewrite !elem_of_cons in Hin.
      destruct Hin as [Hm|[Hm|[Hm|[Hm|[Hm|Hm]]]]]; try tauto; [..|by apply elem_of_nil in Hm];
        rewrite Hm in *; destruct Hw as (s & Hs & Hw); by simplify_eq. }
    destruct (srcdatapool n) as [p|] eqn:Ep; [|by destruct Hpool].
    destruct (reserve_locked self cp m src n p) as [[[m1 n1] sp]|] eqn:El; [|done]. simpl in E.
    destruct (reserve_locked_spill _ _ _ _ _ _ _ _ _ Ep Esrc Hok Hkr El) as (Hsz & Hsp & Hc).
    case_decide as Hd.
    + destruct (copy_data src sp n1) as [n2|] eqn:Ec; [|done]. simplify_eq/=.
      destruct (copy_data_frame _ _ _ _ Ec) as [Hf _].
      rewrite (spilled_eq _ _ Hf). split.
      * rewrite <- Hsp. f_equal. unfold spill_owed. simpl. by rewrite Hc.
      * split; simpl; [by rewrite Hc|]. destruct Hw. lia.
    + simplify_eq. split; [done|]. destruct Hc as [Hc Hc']. split; [by rewrite Hc|].
      destruct Hw. lia.
  - unfold assign_srcdata_pointer in E. asserts. simplify_eq/=.
    destruct (copy_data_frame _ _ _ _ H0) as [Hf _].
    split; [|split; [done|apply Hw]].
    unfold spill_owed at 1. simpl. rewrite Z.sub_0_r. unfold spill_owed. rewrite Hassert, H.
    case_decide as Hm.
    + rewrite bool_decide_true in H1 by done.
      apply pool_release_spill_spilled in H1 as [-> _].
      rewrite (spilled_eq _ _ Hf), u64_u64. f_equal.
    + rewrite bool_decide_false in H1 by done. simplify_eq. rewrite (spilled_eq _ _ Hf). rewrite decide_False by done. f_equal. lia.
Qed.

(** Over its whole life a message gives back the spill bytes reserved for
    it exactly once: whatever sequence of [reserve_srcdata] and
    [assign_srcdata_pointer] it goes through, its destructor leaves
    [current_spill_bytes] lower by what it still owed, or the message owed
    nothing any more. *)
Lemma message_spill_returned_once m n m' n' n'' :
  well_moded m → rtc msg_event (m, n) (m', n') → is_Some (srcdatapool n) →
  payload_mode m' ≠ PAYLOAD_PENDING → OutgoingMessage_fini m' n' = Some n'' →
  u64 (spilled n'') = u64 (spilled n - spill_owed m).
Proof.
  intros Hw Hr Hpool Hnp Hf.
  assert (u64 (spilled n' - spill_owed m') = u64 (spilled n - spill_owed m) ∧ well_moded m')
    as [<- Hw'].
  { clear Hf Hnp. change (u64 (spilled (m', n').2 - spill_owed (m', n').1) =
      u64 (spilled (m, n).2 - spill_owed (m, n).1) ∧ well_moded (m', n').1).
    change m with (m, n).1 in Hw. clear Hpool. induction Hr as [|x y z Hs _ IH]; [done|].
    destruct (msg_event_spill _ _ Hs Hw) as [E Hwy]. rewrite <- E. by apply IH. }
  unfold OutgoingMessage_fini in Hf.
  destruct (if decide _ then _ else _) as [n1|] eqn:E1; [|done]. simpl in Hf.
  assert (spilled n'' = spilled n1) as ->.
  { destruct (payload_src m'); asserts; by simplify_eq. }
  unfold spill_owed. case_decide as Hm.
  - case_decide as Hs.
    + destruct (pool_release_spill n' _ _) as [x|] eqn:Er; [|done].
      apply pool_release_spill_spilled in Er as [Hsp _]. simpl in E1.
      destruct (deferred_free (deferred x) (payload m')) as [[d fr]|]; [|done]. simpl in E1.
      apply c_free_frame in E1 as [E1 _].
      rewrite (spilled_eq _ _ E1). change (spilled (set_deferred x d)) with (spilled x).
      rewrite Hsp, u64_u64. f_equal.
      destruct Hm as [-> | ->]; lia.
    + simplify_eq. f_equal. assert (payload_size m' = 0) as ->; [destruct Hw'; lia|].
      destruct Hm as [-> | ->]; lia.
  - simplify_eq. f_equal. destruct (payload_mode m'); try tauto; lia.
Qed.

(** A node with a pool of 1 KB at 4096 and 100 spilled bytes, and a message in
    [PAYLOAD_COPY] mode that holds them. *)
Definition example_node : Node :=
  mkNode (λ x, x `mod` 256) ∅
    (Some (set_spill (SrcDataPool_init (mkLimits 0 0 0) 4096 1024)
             (mkSpill 100 100 0 (100 :: replicate 255 0) (replicate 256 0)
                (replicate 256 0) 0 0 0)))
    init_deferred_frees.
Definition example_msg : OutgoingMessage :=
  mkMsg 0 0 [] 0 100 PAYLOAD_COPY 0 (Some (ContiguousPayload 20000 100 PAYLOAD_COPY)).

Lemma message_spill_returned_once_witness :
  match reserve_srcdata 1 9000 example_msg example_node with
  | Some (m', n') =>
      match OutgoingMessage_fini m' n' with
      | Some n'' => u64 (spilled n'') = u64 (spilled example_node - spill_owed example_msg)
      | None => False
      end
  | None => False
  end.
Proof.
  assert ((λ r, (payload_mode r.1, payload_src r.1)) <$> reserve_srcdata 1 9000 example_msg example_node
    = Some (PAYLOAD_SRCPTR, None)) as H by (vm_compute; reflexivity).
  destruct (reserve_srcdata 1 9000 example_msg example_node) as [[m' n']|] eqn:E; [|discriminate H].
  simpl in H. injection H as Hm Hs.
  destruct (OutgoingMessage_fini m' n') as [n''|] eqn:Ef.
  - refine (message_spill_returned_once example_msg example_node m' n' n'' _ _ _ _ Ef).
    + split; [|done]. by eexists.
    + eapply rtc_once, ev_reserve; [by eexists| |exact E]. set_solver.
    + by eexists.
    + by rewrite Hm.
  - unfold OutgoingMessage_fini in Ef. by rewrite Hm, Hs in Ef.
Defined.

(** *** The bytes a message delivers *)

(** A message before [reserve_srcdata] on a node whose pool, at [base], is
    apart from the payload, as is the block [malloc] may return. *)
Record reservable (base : Z) (n : Node) (p : SrcDataPool) (m : OutgoingMessage)
    (src : PayloadSource) (cp : Z) : Prop := {
  rs_pool : srcdatapool n = Some p;
  rs_inv : sdp_inv base p;
  rs_src : payload_src m = Some src;
  rs_mode : mode_ok (payload_mode m) src;
  rs_ok : payload_ok n src (payload_size m);
  rs_size : 0 < payload_size m ≤ total_size p;
  rs_clear : clear_of base (total_size p) (src_ranges src);
  rs_cp : cp ≠ 0 ∧ clear_of cp (payload_size m) (src_ranges src);
  rs_permsg : 0 ≤ msgid m < zlen (current_permsg_spill_bytes (spill p)) }.

Lemma pool_release_spill_ok n p size mid :
  srcdatapool n = Some p → 0 ≤ mid < zlen (current_permsg_spill_bytes (spill p)) →
  ∃ sp, pool_release_spill n size mid = Some (set_pool n (set_spill p sp)).
Proof.
  intros Hp Hm. unfold pool_release_spill. rewrite Hp. simpl.
  unfold release_spill_memory. destruct (aget_is_Some _ _ Hm) as [c ->]. simpl.
  by eexists.
Qed.

Lemma clear_of_sub d n d' n' l :
  clear_of d n l → d ≤ d' → d' + n' ≤ d + n → clear_of d' n' l.
Proof. intros H Hd Hn. eapply Forall_impl; [exact H|]. unfold no_overlap. intros r Hr. simpl in *. lia. Qed.

Lemma reserve_locked_ok base n p m src cp self :
  reservable base n p m src cp → payload_mode m ≠ PAYLOAD_KEEPREG →
  ∃ m' n' ptr p', reserve_locked self cp m src n p = Some (m', n', ptr) ∧
    srcdatapool n' = Some p' ∧ sdp_inv base p' ∧
    (payload_size m' = payload_size m ∧ msgid m' = msgid m) ∧
    if decide (ptr ≠ 0) then
      payload_mode m' = PAYLOAD_SRCPTR ∧ payload m' = ptr ∧ payload_src m' = Some src ∧
      base ≤ ptr ∧ ptr + payload_size m ≤ base + total_size p ∧
      bytes n' = bytes n ∧ heap n' = heap n ∧
      om_find ptr (in_use p') = Some (round_up_size (payload_size m))
    else
      payload_mode m' = PAYLOAD_PENDING ∧
      pending_allocations p' = pending_allocations p ++ [(self, payload_size m)] ∧
      ∃ src', payload_src m' = Some src' ∧
        payload_bytes (bytes n') src' = payload_bytes (bytes n) src ∧
        (payload_mode m = PAYLOAD_COPY →
         src' = ContiguousPayload cp (payload_size m) PAYLOAD_FREE ∧
         (mode_ok PAYLOAD_COPY src → cp ∈ heap n')).
Proof.
  intros H Hkr. destruct H as [Hp Hinv Hsrc Hok Hpo Hsz Hcl [Hcp Hcc] Hper].
  unfold reserve_locked.
  destruct (alloc_srcptr_cases _ _ _ Hinv Hsz)
    as [[E Hwhy]|(Hpend & f & k & p1 & Hin & Hk & HF & E & Hpos & Ep1 & Hi)]; rewrite E; simpl.
  - assert (∃ p2, add_pending p self (payload_size m) = Some p2 ∧ sdp_inv base p2 ∧
              pending_allocations p2 = pending_allocations p ++ [(self, payload_size m)]) as Hadd.
    { unfold add_pending. rewrite assert_true by lia. eexists.
      split_all; [done| |done].
      refine (sdp_step_inv _ _ _ Hinv (step_queue p (payload_size m) self p _ Hsz E _)).
      unfold add_pending. by rewrite assert_true by lia. }
    destruct Hadd as (p2 & Ea & Hi2 & Hpd).
    case_decide as Hm.
    + unfold c_malloc. rewrite assert_true by done. simpl.
      assert (payload_ok (set_heap (set_pool n p) ({[cp]} ∪ heap n)) src (payload_size m)) as Hpo'.
      { destruct Hpo as [? ? ? ? Hl]. split; try done. destruct src as [? ? []| |]; try done.
        rewrite Hm in Hok. simpl in Hok. done. }
      rewrite (copy_data_chunks _ _ _ cp Hpo'). simpl. rewrite Ea. simpl.
      eexists _, _, _, p2. split_all; [done|done|done|done|done|].
      rewrite decide_False by tauto. split_all; [done|done|].
      eexists. split_all; [done| |].
      * unfold payload_bytes at 1, gather. simpl. rewrite app_nil_r.
        rewrite <- (po_size _ _ _ Hpo) in *.
        by destruct (copy_chunks_spec (src_ranges src) (bytes n) cp (po_pos _ _ _ Hpo) Hcc).
      * intros _. split; [done|]. intros Hmode. destruct src as [? ? []| |]; simpl in *; set_solver.
    + simpl. rewrite Ea. simpl. eexists _, _, _, p2. split_all; [done|done|done|done|done|].
      rewrite decide_False by tauto. split_all; [done|done|].
      eexists. split_all; [done|done|]. intros. done.
  - destruct (si_size _ _ Hinv) as (? & ? & ?).
    pose proof (sdp_inv_elem _ _ (f, k) Hinv ltac:(set_solver)) as Hb. simpl in Hb.
    destruct (round_up_size_spec _ _ Hsz ltac:(lia) (si_total _ _ Hinv)) as [Hround _].
    set (ptr := f + (k - round_up_size (payload_size m))) in *.
    rewrite (decide_True (P := ptr ≠ 0)) by lia.
    destruct (alloc_srcptr_spill _ _ _ _ E) as [Esp _].
    assert (∃ sp, (if decide (payload_mode m = PAYLOAD_COPY ∨ payload_mode m = PAYLOAD_FREE)
       then pool_release_spill (set_pool n p1) (payload_size m) (msgid m)
       else Some (set_pool n p1)) = Some (set_pool n (set_spill p1 sp))) as [sp Er].
    { destruct (decide (payload_mode m = PAYLOAD_COPY ∨ payload_mode m = PAYLOAD_FREE)).
      - apply (pool_release_spill_ok (set_pool n p1) p1); [done|by rewrite Esp].
      - exists (spill p1). by destruct p1. }
    rewrite Er. simpl. eexists _, _, ptr, _.
    split_all; [done|done|by apply sdp_inv_set_spill|done|done|].
    rewrite (decide_True (P := ptr ≠ 0)) by lia.
    split_all; try done; try lia. simpl. rewrite Ep1. simpl. apply om_find_insert_eq.
Qed.

(** [reserve_srcdata] never fails on a well-formed message and leaves it
    either ready, with its payload's bytes in the source-data pool or in the
    registered memory it came from, or queued at the end of the pool's waiting
    list with a source that still stands for the same bytes, which in
    [PAYLOAD_COPY] mode is a private copy. *)
Lemma reserve_srcdata_ready base n p m src cp self :
  reservable base n p m src cp →
  ∃ m' n', reserve_srcdata self cp m n = Some (m', n') ∧ payload_size m' = payload_size m ∧
    match payload_mode m' with
    | PAYLOAD_SRCPTR =>
        payload_src m' = None ∧ base ≤ payload m' ∧
        payload m' + payload_size m ≤ base + total_size p ∧
        read_bytes (bytes n') (payload m') (payload_size m) = payload_bytes (bytes n) src
    | PAYLOAD_KEEPREG =>
        read_bytes (bytes n') (payload m') (payload_size m) = payload_bytes (bytes n) src
    | PAYLOAD_PENDING =>
        (∃ p', srcdatapool n' = Some p' ∧ sdp_inv base p' ∧
           pending_allocations p' = pending_allocations p ++ [(self, payload_size m)]) ∧
        ∃ src', payload_src m' = Some src' ∧
          payload_bytes (bytes n') src' = payload_bytes (bytes n) src ∧
          (payload_mode m = PAYLOAD_COPY →
           src' = ContiguousPayload cp (payload_size m) PAYLOAD_FREE)
    | _ => False
    end.
Proof.
  intros H. pose proof (rs_mode _ _ _ _ _ _ H) as Hok. unfold reserve_srcdata.
  rewrite decide_False by (intros [E|E]; by rewrite E in Hok).
  rewrite (rs_src _ _ _ _ _ _ H). simpl.
  destruct (decide (payload_mode m = PAYLOAD_KEEPREG)) as [Hk|Hk].
  - rewrite Hk in Hok. destruct Hok as (q & k & -> & Hq). simpl.
    rewrite decide_True by done. eexists _, _. split_all; [done|done|]. simpl. rewrite Hk.
    pose proof (po_size _ _ _ (rs_ok _ _ _ _ _ _ H)) as Hs.
    unfold payload_bytes, gather, sizes in *. simpl in *. rewrite app_nil_r. f_equal. lia.
  - simpl. rewrite (rs_pool _ _ _ _ _ _ H).
    destruct (reserve_locked_ok _ _ _ _ _ _ self H Hk)
      as (m1 & n1 & ptr & p1 & E & Hp1 & Hi1 & [Hsz _] & Hc). rewrite E. simpl.
    destruct (decide (ptr ≠ 0)) as [Hptr|Hptr].
    + destruct Hc as (Hm1 & Hpl & Hs1 & Hlo & Hhi & Hb & Hh & Hf).
      assert (payload_ok n1 src (payload_size m)) as Hpo.
      { destruct (rs_ok _ _ _ _ _ _ H) as [? ? ? ? Hl]. split; try done. by rewrite Hh. }
      rewrite (copy_data_chunks _ _ _ ptr Hpo). simpl.
      eexists _, _. split_all; [done|done|]. simpl. rewrite Hm1, Hpl. split_all; try done.
      pose proof (po_size _ _ _ Hpo) as Hs. rewrite <- Hs.
      assert (clear_of ptr (sizes (src_ranges src)) (src_ranges src)) as Hcl.
      { eapply clear_of_sub; [apply H| |]; lia. }
      rewrite Hb. by destruct (copy_chunks_spec _ (bytes n) ptr (po_pos _ _ _ Hpo) Hcl).
    + destruct Hc as (Hm1 & Hpd & src' & Hs' & Hby & Hcopy).
      eexists _, _. split_all; [done|done|]. rewrite Hm1. split; [by exists p1|].
      exists src'. split_all; [done|done|]. intros Hm. by apply Hcopy.
Qed.

Lemma example_reservable :
  reservable 4096 example_node
    (set_spill (SrcDataPool_init (mkLimits 0 0 0) 4096 1024)
       (mkSpill 100 100 0 (100 :: replicate 255 0) (replicate 256 0) (replicate 256 0) 0 0 0))
    example_msg (ContiguousPayload 20000 100 PAYLOAD_COPY) 9000.
Proof.
  split; try done.
  - apply sdp_inv_set_spill, sdp_init_inv; [lia..|by exists 16].
  - by repeat constructor.
  - repeat constructor. unfold no_overlap. simpl. lia.
  - split; [done|]. repeat constructor. unfold no_overlap. simpl. lia.
Qed.

Lemma reserve_srcdata_ready_witness :
  ∃ m' n', reserve_srcdata 1 9000 example_msg example_node = Some (m', n') ∧
    payload_size m' = 100 ∧
    match payload_mode m' with
    | PAYLOAD_SRCPTR =>
        payload_src m' = None ∧ 4096 ≤ payload m' ∧ payload m' + 100 ≤ 4096 + 1024 ∧
        read_bytes (bytes n') (payload m') 100 =
          payload_bytes (bytes example_node) (ContiguousPayload 20000 100 PAYLOAD_COPY)
    | PAYLOAD_KEEPREG =>
        read_bytes (bytes n') (payload m') 100 =
          payload_bytes (bytes example_node) (ContiguousPayload 20000 100 PAYLOAD_COPY)
    | PAYLOAD_PENDING =>
        (∃ p', srcdatapool n' = Some p' ∧ sdp_inv 4096 p' ∧
           pending_allocations p' = [] ++ [(1, 100)]) ∧
        ∃ src', payload_src m' = Some src' ∧
          payload_bytes (bytes n') src' =
            payload_bytes (bytes example_node) (ContiguousPayload 20000 100 PAYLOAD_COPY) ∧
          (PAYLOAD_COPY = PAYLOAD_COPY → src' = ContiguousPayload 9000 100 PAYLOAD_FREE)
    | _ => False
    end.
Proof. exact (reserve_srcdata_ready _ _ _ _ _ _ 1 example_reservable). Defined.

(** A queued [PAYLOAD_COPY] message delivers the bytes its payload had
    when it was sent, whatever the sender does with its buffer meanwhile:
    when the pool finally assigns it the span at [ptr], only the private copy
    has to be intact. *)
Lemma copy_mode_stable base n p m src cp self m1 n1 n2 p2 ptr :
  reservable base n p m src cp → payload_mode m = PAYLOAD_COPY →
  reserve_srcdata self cp m n = Some (m1, n1) → payload_mode m1 = PAYLOAD_PENDING →
  agree (bytes n1) (bytes n2) cp (payload_size m) → cp ∈ heap n2 →
  srcdatapool n2 = Some p2 → 0 ≤ msgid m < zlen (current_permsg_spill_bytes (spill p2)) →
  no_overlap ptr (payload_size m) cp (payload_size m) →
  ∃ m3 n3, assign_srcdata_pointer m1 ptr n2 = Some (m3, n3) ∧
    payload m3 = ptr ∧ payload_mode m3 = PAYLOAD_SRCPTR ∧
    read_bytes (bytes n3) ptr (payload_size m) = payload_bytes (bytes n) src ∧
    spilled n3 = u64 (spilled n2 - payload_size m) ∧ cp ∉ heap n3.
Proof.
  intros H Hm Er Hm1 Hag Hheap Hp2 Hmid Hno. unfold reserve_srcdata in Er.
  rewrite decide_False in Er by (rewrite Hm; intros [?|?]; done).
  rewrite (rs_src _ _ _ _ _ _ H) in Er. simpl in Er.
  rewrite decide_False in Er by (by rewrite Hm). simpl in Er.
  rewrite (rs_pool _ _ _ _ _ _ H) in Er.
  destruct (reserve_locked_ok _ _ _ _ _ _ self H ltac:(by rewrite Hm))
    as (m' & n' & q & p1 & E & _ & _ & [Hsz Hid] & Hc). rewrite E in Er. simpl in Er.
  destruct (decide (q ≠ 0)).
  { destruct (copy_data src q n'); simplify_eq/=. destruct Hc as [Hc _]. congruence. }
  simplify_eq. destruct Hc as (_ & _ & src' & Hs' & Hby & Hcopy).
  destruct (Hcopy Hm) as [-> _]. unfold assign_srcdata_pointer.
  rewrite assert_true by done. rewrite Hs'. simpl. unfold contig_copy_data.
  rewrite decide_True by done. unfold c_free.
  destruct (rs_cp _ _ _ _ _ _ H) as [Hcp _]. rewrite decide_False by done.
  rewrite assert_true by done. simpl.
  destruct (pool_release_spill_ok
    (set_heap (set_bytes n2 (memcpy (bytes n2) ptr cp (payload_size m))) (heap n2 ∖ {[cp]}))
    p2 (payload_size m1) (msgid m1)) as [sp Esp]; [done|by rewrite Hid|].
  rewrite Esp.
  eexists _, _. split_all; [done|done|done| | |].
  - simpl. rewrite memcpy_read by (pose proof (rs_size _ _ _ _ _ _ H); lia).
    rewrite <- Hby. unfold payload_bytes, gather. simpl. rewrite app_nil_r.
    symmetry. by apply read_bytes_agree.
  - apply pool_release_spill_spilled in Esp as [-> _]. by rewrite Hsz.
  - simpl. set_solver.
Qed.

(** A node whose pool is full, and the sender overwriting its buffer. *)
Definition stall_pool : SrcDataPool :=
  mkSdp 64 [] [] [(4096, 64)] []
    (mkSpill 50 50 0 (50 :: replicate 255 0) (replicate 256 0) (replicate 256 0) 0 0 0).
Definition stall_node : Node := mkNode (λ x, x `mod` 256) ∅ (Some stall_pool) init_deferred_frees.
Definition stall_msg : OutgoingMessage :=
  mkMsg 0 0 [] 0 50 PAYLOAD_COPY 0 (Some (ContiguousPayload 20000 50 PAYLOAD_COPY)).

Lemma stall_reservable :
  reservable 4096 stall_node stall_pool stall_msg (ContiguousPayload 20000 50 PAYLOAD_COPY) 9000.
Proof.
  split; try done.
  - split; simpl; [|apply om_ok_cons; constructor|lia|by exists 1| |done|done].
    + split; [constructor| |auto with realm]. exact (Tiled_one 4096 4160 ltac:(lia)).
    + repeat constructor; simpl; [exists 0; lia|by exists 1].
  - by repeat constructor.
  - repeat constructor. unfold no_overlap. simpl. lia.
  - split; [done|]. repeat constructor. unfold no_overlap. simpl. lia.
Qed.

Lemma copy_mode_stable_witness :
  match reserve_srcdata 1 9000 stall_msg stall_node with
  | Some (m1, n1) =>
      let n2 := set_bytes n1 (write_bytes (bytes n1) 20000 [7; 7; 7]) in
      ∃ m3 n3, assign_srcdata_pointer m1 4096 n2 = Some (m3, n3) ∧
        payload m3 = 4096 ∧ payload_mode m3 = PAYLOAD_SRCPTR ∧
        read_bytes (bytes n3) 4096 50 =
          payload_bytes (bytes stall_node) (ContiguousPayload 20000 50 PAYLOAD_COPY) ∧
        spilled n3 = u64 (spilled n2 - 50) ∧ 9000 ∉ heap n3
  | None => False
  end.
Proof.
  assert ((λ r, (payload_mode r.1, heap r.2,
      (λ p, current_permsg_spill_bytes (spill p)) <$> srcdatapool r.2)) <$>
    reserve_srcdata 1 9000 stall_msg stall_node
    = Some (PAYLOAD_PENDING, {[9000]} ∪ ∅, Some (50 :: replicate 255 0))) as H by (vm_compute; reflexivity).
  destruct (reserve_srcdata 1 9000 stall_msg stall_node) as [[m1 n1]|] eqn:E; [|discriminate H].
  injection H as Hm Hh Hp.
  apply fmap_Some in Hp as (p2 & Hp2 & Hper).
  refine (copy_mode_stable 4096 stall_node stall_pool stall_msg
    (ContiguousPayload 20000 50 PAYLOAD_COPY) 9000 1 m1 n1
    (set_bytes n1 (write_bytes (bytes n1) 20000 [7; 7; 7])) p2 4096
    stall_reservable eq_refl E Hm _ _ Hp2 _ _).
  - intros x Hx. simpl in *. symmetry. apply write_bytes_out. unfold zlen. simpl. lia.
  - simpl. rewrite Hh. set_solver.
  - rewrite <- Hper. done.
  - unfold no_overlap. simpl. lia.
Defined.

(** ** Deferred frees *)

(** A history of frees: the state of the ring and the blocks freed so far. *)
Fixpoint run_deferred (d : DeferredFrees) (ptrs : list Z) : option (DeferredFrees * list Z) :=
  match ptrs with
  | [] => Some (d, [])
  | p :: ptrs =>
      '(d, fr) ← deferred_free d p;
      '(d, frs) ← run_deferred d ptrs;
      Some (d, option_list fr ++ frs)
  end.

(** The ring holds the queue [q] of pointers not yet freed, oldest first,
    behind null entries. *)
Definition ring_holds (d : DeferredFrees) (q : list Z) : Prop :=
  length (deferred_frees d) = Z.to_nat DEFERRED_FREE_COUNT ∧
  0 ≤ deferred_free_pos d < DEFERRED_FREE_COUNT ∧
  drop (Z.to_nat (deferred_free_pos d)) (deferred_frees d) ++
  take (Z.to_nat (deferred_free_pos d)) (deferred_frees d) =
    replicate (Z.to_nat DEFERRED_FREE_COUNT - length q) 0 ++ q.

Lemma aset_here {A} (l r : list A) (x y : A) :
  aset (l ++ x :: r) (zlen l) y = l ++ y :: r.
Proof.
  unfold aset, zlen. rewrite decide_True by lia. rewrite Nat2Z.id.
  by rewrite insert_app_r_alt, Nat.sub_diag by lia.
Qed.

(** Writing [p] over the oldest entry and advancing. *)
Lemma ring_advance (a : list Z) x p r q :
  length (a ++ x :: r) = 128%nat → r ++ a ++ [p] = replicate (128 - length q) 0 ++ q →
  ring_holds (mkDeferred (a ++ p :: r) ((zlen a + 1) `mod` DEFERRED_FREE_COUNT)) q.
Proof.
  unfold DEFERRED_FREE_COUNT, ring_holds. intros El E. rewrite length_app in El. simpl in El.
  cbn [deferred_frees deferred_free_pos]. split_all.
  - rewrite length_app. simpl. unfold DEFERRED_FREE_COUNT. lia.
  - apply Z.mod_pos_bound. unfold DEFERRED_FREE_COUNT. lia.
  - apply Z.mod_pos_bound. unfold DEFERRED_FREE_COUNT. lia.
  - transitivity (r ++ a ++ [p]); [|exact E]. destruct (decide (r = [])) as [->|Hr].
    + simpl in El. replace ((zlen a + 1) `mod` 128) with 0
        by (replace (zlen a + 1) with 128 by (unfold zlen; lia); done).
      by rewrite drop_0, take_0, app_nil_r.
    + assert (0 < length r)%nat by (destruct r; simpl; [done|lia]).
      rewrite Z.mod_small by (unfold zlen; lia).
      replace (Z.to_nat (zlen a + 1)) with (length (a ++ [p]))
        by (rewrite length_app; unfold zlen; simpl; lia).
      change (p :: r) with ([p] ++ r). rewrite (app_assoc a).
      rewrite drop_app_length, take_app_length. by rewrite app_assoc.
Qed.

Lemma deferred_free_step d q p :
  ring_holds d q → (length q ≤ Z.to_nat DEFERRED_FREE_COUNT)%nat → Forall (λ x, x ≠ 0) q →
  ∃ d' fr, deferred_free d p = Some (d', fr) ∧
    if decide (length q = Z.to_nat DEFERRED_FREE_COUNT)
    then fr = head q ∧ ring_holds d' (tail q ++ [p])
    else fr = None ∧ ring_holds d' (q ++ [p]).
Proof.
  intros (Hlen & Hpos & Hrot) Hq Hnz. destruct d as [l pos]. simpl in *.
  unfold DEFERRED_FREE_COUNT in *. change (Z.to_nat 128) with 128%nat in *.
  destruct (drop (Z.to_nat pos) l) as [|x r] eqn:Ed.
  { apply (f_equal length) in Ed. rewrite length_drop in Ed. simpl in Ed. lia. }
  pose proof (take_drop (Z.to_nat pos) l) as El. rewrite Ed in El.
  set (a := take (Z.to_nat pos) l) in *.
  assert (zlen a = pos) as Ha by (unfold zlen, a; rewrite length_take; lia).
  unfold deferred_free. simpl. rewrite <- El, <- Ha.
  assert (aget (a ++ x :: r) (zlen a) = Some x) as ->.
  { unfold aget, zlen. rewrite decide_True by lia. rewrite Nat2Z.id. by apply list_lookup_middle. }
  simpl. rewrite aset_here. eexists _, _. split; [done|].
  assert (length (a ++ x :: r) = 128%nat) as Elen by (rewrite El; lia). clear El.
  case_decide as Hf.
  - rewrite Hf, Nat.sub_diag in Hrot. simpl in Hrot. subst q.
    apply Forall_cons in Hnz as [Hx _]. rewrite decide_False by done. split; [done|].
    apply (ring_advance _ x); [done|]. simpl in Hf |- *. rewrite !length_app in *. simpl.
    replace (128 - _)%nat with 0%nat by lia. by rewrite app_assoc.
  - destruct (128 - length q)%nat as [|k] eqn:Ek; [lia|]. simpl in Hrot.
    injection Hrot as -> Hrot.
    rewrite decide_True by done. split; [done|]. apply (ring_advance _ 0); [done|].
    rewrite length_app. simpl. replace (128 - (length q + 1))%nat with k by lia.
    by rewrite !app_assoc, Hrot.
Qed.

(** Deferred frees are a delay line: each block is freed exactly once, in
    the order the blocks were handed in, and exactly when
    [DEFERRED_FREE_COUNT] further blocks have been. *)
Theorem deferred_free_delay ptrs :
  Forall (λ p, p ≠ 0) ptrs →
  ∃ d, run_deferred init_deferred_frees ptrs =
    Some (d, take (length ptrs - Z.to_nat DEFERRED_FREE_COUNT) ptrs).
Proof.
  intros Hnz.
  assert (∀ q d, ring_holds d q → (length q ≤ Z.to_nat DEFERRED_FREE_COUNT)%nat →
    Forall (λ x, x ≠ 0) q → ∃ d', run_deferred d ptrs =
      Some (d', take (length (q ++ ptrs) - Z.to_nat DEFERRED_FREE_COUNT) (q ++ ptrs))) as Hgen.
  { change (Z.to_nat DEFERRED_FREE_COUNT) with 128%nat.
    induction ptrs as [|p ptrs IH]; intros q d Hd Hq Hqz.
    - exists d. simpl. rewrite app_nil_r. by replace (length q - _)%nat with 0%nat by lia.
    - apply Forall_cons in Hnz as [Hp Hnz]. simpl.
      destruct (deferred_free_step d q p Hd Hq Hqz) as (d1 & fr & -> & Hc). simpl.
      change (Z.to_nat DEFERRED_FREE_COUNT) with 128%nat in Hc.
      case_decide as Hf.
      + destruct Hc as [-> Hd1]. destruct q as [|x q]; [done|].
        apply Forall_cons in Hqz as [Hx Hqz]. simpl in Hf, Hq.
        destruct (IH Hnz (q ++ [p]) d1 Hd1) as [d' ->].
        { rewrite length_app. simpl. lia. }
        { apply Forall_app. by rewrite Forall_singleton. }
        exists d'. cbn [mbind option_bind head option_list app]. do 2 f_equal.
        rewrite <- app_assoc. cbn [app length].
        assert (128 ≤ length (q ++ p :: ptrs))%nat as Hge.
        { rewrite length_app. cbn [length]. lia. }
        by rewrite Nat.sub_succ_l.
      + destruct Hc as [-> Hd1]. destruct (IH Hnz (q ++ [p]) d1 Hd1) as [d' ->].
        { rewrite length_app. simpl. lia. }
        { apply Forall_app. by rewrite Forall_singleton. }
        exists d'. simpl. by rewrite <- app_assoc. }
  apply (Hgen [] init_deferred_frees); [|simpl; lia|constructor].
  split_all; simpl; try done.
Qed.

Lemma deferred_free_delay_witness :
  ∃ d, run_deferred init_deferred_frees (seqZ 1 130) =
    Some (d, take (length (seqZ 1 130) - Z.to_nat DEFERRED_FREE_COUNT) (seqZ 1 130)).
Proof.
  apply (deferred_free_delay (seqZ 1 130)).
  apply Forall_forall. intros x Hx%elem_of_seqZ. lia.
Defined.

(** Without a source-data pool only contiguous payloads can be sent: the
    base class's [get_contig_pointer] asserts, so a strided or span payload
    never reaches the branch that would copy it. *)
Theorem reserve_srcdata_no_pool_noncontiguous self cp m n src :
  srcdatapool n = None → payload_src m = Some src → get_contig_pointer src = None →
  payload_mode m ≠ PAYLOAD_NONE → payload_mode m ≠ PAYLOAD_EMPTY →
  reserve_srcdata self cp m n = None.
Proof.
  intros Hp Hs Hc Hn He. unfold reserve_srcdata. rewrite decide_False by tauto.
  rewrite Hs. simpl. case_decide; rewrite ?Hc; simpl; [done|].
  rewrite Hp. unfold reserve_heap. by rewrite Hc.
Qed.

Lemma reserve_srcdata_no_pool_noncontiguous_witness :
  reserve_srcdata 1 9000
    (mkMsg 0 0 [] 0 100 PAYLOAD_KEEP 0 (Some (TwoDPayload 20000 10 10 64 PAYLOAD_KEEP)))
    (mkNode (λ x, x) ∅ None init_deferred_frees) = None.
Proof. by apply (reserve_srcdata_no_pool_noncontiguous _ _ _ _ (TwoDPayload 20000 10 10 64 PAYLOAD_KEEP)). Defined.
