(* ===== verification/Ring.v ===== *)
(** * The to-do rings

    [IncomingMessageManager] and [EndpointManager] keep a ring of node numbers
    with one spare slot "to distinguish full from empty".  The operations as
    the source writes them, and their refinement to a bounded FIFO queue. *)

From S2P Require Import Prelude.

Record Ring := mkRing {
  todo_list : list Z;
  todo_oldest : Z;
  todo_newest : Z }.

Definition ring_init (nodes : Z) : Ring :=
  mkRing (replicate (Z.to_nat (nodes + 1)) 0) 0 0.

Definition ring_empty (r : Ring) : bool := bool_decide (todo_oldest r = todo_newest r).

(** [p++; if(p > nodes) p = 0] *)
Definition ring_next (nodes p : Z) : Z :=
  let p := p + 1 in if decide (p > nodes) then 0 else p.

(** Append at [todo_newest]; the ring should never wrap around. *)
Definition ring_push (nodes : Z) (r : Ring) (x : Z) : option Ring :=
  assert! 0 ≤ todo_newest r < zlen (todo_list r);
  let newest := ring_next nodes (todo_newest r) in
  assert! newest ≠ todo_oldest r;
  Some (mkRing (aset (todo_list r) (todo_newest r) x) (todo_oldest r) newest).

(** Take the entry at [todo_oldest]. *)
Definition ring_pop (nodes : Z) (r : Ring) : option (Ring * Z) :=
  x ← aget (todo_list r) (todo_oldest r);
  Some (mkRing (todo_list r) (ring_next nodes (todo_oldest r)) (todo_newest r), x).

(** ** Refinement to a queue *)

Definition ring_at (nodes : Z) (r : Ring) (i : nat) : Z :=
  (todo_oldest r + Z.of_nat i) `mod` (nodes + 1).

Record ring_repr (nodes : Z) (r : Ring) (l : list Z) : Prop := {
  rr_len : zlen (todo_list r) = nodes + 1;
  rr_nodes : 0 < nodes;
  rr_old : 0 ≤ todo_oldest r ≤ nodes;
  rr_new : todo_newest r = (todo_oldest r + zlen l) `mod` (nodes + 1);
  rr_cap : zlen l ≤ nodes;
  rr_elems : ∀ i x, l !! i = Some x → aget (todo_list r) (ring_at nodes r i) = Some x }.

Lemma ring_next_mod nodes p :
  0 ≤ p ≤ nodes → ring_next nodes p = (p + 1) `mod` (nodes + 1).
Proof.
  intros. unfold ring_next. case_decide.
  - replace (p + 1) with (nodes + 1) by lia. by rewrite Z.mod_same by lia.
  - by rewrite Z.mod_small by lia.
Qed.

Lemma mod_offset_inj m a i j :
  0 < m → 0 ≤ i < m → 0 ≤ j < m → (a + i) `mod` m = (a + j) `mod` m → i = j.
Proof.
  intros Hm Hi Hj E.
  pose proof (Z.div_mod (a + i) m ltac:(lia)) as H1.
  pose proof (Z.div_mod (a + j) m ltac:(lia)) as H2. rewrite E in H1.
  revert H1 H2. generalize ((a + i) `div` m) as q. generalize ((a + j) `div` m) as q'.
  generalize ((a + j) `mod` m) as x. intros x q' q H1 H2.
  assert (i - j = m * (q - q')) by (rewrite Z.mul_sub_distr_l; lia).
  destruct (Z.lt_trichotomy q q') as [?|[->|?]]; [nia|lia|nia].
Qed.

Lemma ring_init_repr nodes : 0 < nodes → ring_repr nodes (ring_init nodes) [].
Proof.
  intros. split; simpl; try done; try lia.
  - unfold zlen. rewrite length_replicate. lia.
  - unfold zlen. simpl. lia.
Qed.

Lemma ring_empty_repr nodes r l : ring_repr nodes r l → ring_empty r = bool_decide (l = []).
Proof.
  intros [Hl Hn Ho Hw Hc He]. unfold ring_empty. apply bool_decide_ext. rewrite Hw.
  assert (todo_oldest r = (todo_oldest r + 0) `mod` (nodes + 1)) as E.
  { rewrite Z.add_0_r. by rewrite Z.mod_small by lia. }
  split.
  - intros Heq. rewrite E in Heq at 1. apply mod_offset_inj in Heq; [|unfold zlen in *; lia..].
    destruct l; [done|]. unfold zlen in *. simpl in *. lia.
  - intros ->. exact E.
Qed.

Lemma ring_push_repr nodes r l x :
  ring_repr nodes r l → zlen l < nodes →
  ∃ r', ring_push nodes r x = Some r' ∧ ring_repr nodes r' (l ++ [x]).
Proof.
  intros [Hl Hn Ho Hw Hc He] Hlt. unfold ring_push.
  pose proof (Z.mod_pos_bound (todo_oldest r + zlen l) (nodes + 1) ltac:(lia)) as Hm.
  rewrite assert_true by lia.
  assert (ring_next nodes (todo_newest r) = (todo_oldest r + zlen (l ++ [x])) `mod` (nodes + 1)) as En.
  { rewrite ring_next_mod by lia. rewrite Hw, Z.add_mod_idemp_l by lia. f_equal.
    unfold zlen. rewrite length_app. simpl. lia. }
  assert (zlen (l ++ [x]) = zlen l + 1) as Elen.
  { unfold zlen. rewrite length_app. simpl. lia. }
  rewrite assert_true.
  - eexists. split; [done|]. split; simpl; try done; try lia.
    + unfold zlen. rewrite aset_length. done.
    + intros i y Hi. unfold ring_at. simpl.
      destruct (decide (i < length l)%nat) as [Hil|Hil].
      * rewrite aget_aset_ne.
        -- apply He. by rewrite lookup_app_l in Hi.
        -- rewrite Hw. intros E. apply mod_offset_inj in E; unfold zlen in *; lia.
      * assert (i = length l) as ->.
        { apply lookup_lt_Some in Hi. rewrite length_app in Hi. simpl in Hi. lia. }
        rewrite lookup_app_r, Nat.sub_diag in Hi by done. simplify_eq/=.
        change (Z.of_nat (length l)) with (zlen l). rewrite Hw. apply aget_aset_eq. lia.
  - rewrite En. intros E.
    rewrite <- (Z.mod_small (todo_oldest r) (nodes + 1)) in E at 2 by lia.
    rewrite <- (Z.add_0_r (todo_oldest r)) in E at 2.
    apply mod_offset_inj in E; unfold zlen in *; lia.
Qed.

(** One entry too many trips the assertion. *)
Lemma ring_push_full nodes r l x :
  ring_repr nodes r l → zlen l = nodes → ring_push nodes r x = None.
Proof.
  intros [Hl Hn Ho Hw Hc He] Heq. unfold ring_push, assert_.
  pose proof (Z.mod_pos_bound (todo_oldest r + zlen l) (nodes + 1) ltac:(lia)) as Hm.
  case_decide; [|done]. rewrite decide_False; [done|]. intros Hne. apply Hne.
  rewrite ring_next_mod by lia. rewrite Hw, Z.add_mod_idemp_l by lia. rewrite Heq.
  replace (todo_oldest r + nodes + 1) with (todo_oldest r + 1 * (nodes + 1)) by lia.
  rewrite Z_mod_plus_full. apply Z.mod_small. lia.
Qed.

Lemma ring_pop_repr nodes r x l :
  ring_repr nodes r (x :: l) →
  ∃ r', ring_pop nodes r = Some (r', x) ∧ ring_repr nodes r' l.
Proof.
  intros [Hl Hn Ho Hw Hc He]. unfold ring_pop.
  pose proof (He 0%nat x eq_refl) as H0. unfold ring_at in H0.
  rewrite Z.add_0_r, Z.mod_small in H0 by lia. rewrite H0. simpl.
  assert (zlen (x :: l) = zlen l + 1) as Elen by (unfold zlen; simpl; lia).
  eexists. split; [done|].
  pose proof (Z.mod_pos_bound (todo_oldest r + 1) (nodes + 1) ltac:(lia)) as Hm.
  split; simpl; rewrite ?ring_next_mod by lia; try done; try lia.
  - rewrite Hw, Z.add_mod_idemp_l by lia. f_equal. lia.
  - intros i y Hi. specialize (He (S i) y Hi). unfold ring_at in *. simpl.
    rewrite Z.add_mod_idemp_l by lia. rewrite <- He. do 2 f_equal. lia.
Qed.
