(* ===== verification/Incoming.v ===== *)
(** * Incoming messages

    [IncomingMessageManager] of src/templates/activemsg.cc: a linked list of
    messages per sender, a ring of the senders whose list is not empty, and
    the handler threads that take whole lists and run them.  The [next_msg]
    fields live in a store shared by the manager and the threads, so that the
    pointer kept in [tails] is the alias it is in the code. *)

From S2P Require Import Prelude Ring.

(** [next_msg] of every message that exists; a message that was deleted is
    not in the store, and touching its field has no result. *)
Abbreviation MsgStore := (gmap Z Z).

Record IncomingMessageManager := mkInc {
  nodes : Z;
  shutdown_flag : bool;
  heads : list Z;
  tails : list Z;
  todo : Ring }.

Definition IncomingMessageManager_init (n : Z) : IncomingMessageManager :=
  mkInc n false (replicate (Z.to_nat n) 0) (replicate (Z.to_nat n) 0) (ring_init n).

(** [tails] holds the address of a [next_msg] field; the message it belongs to
    stands for it.  The last result says whether sleepers are woken. *)
Definition add_incoming_message (m : IncomingMessageManager) (st : MsgStore) (sender msg : Z)
    : option (IncomingMessageManager * MsgStore * bool) :=
  head ← aget (heads m) sender;
  tail ← aget (tails m) sender;
  if decide (head ≠ 0) then
    assert! tail ≠ 0;
    assert! is_Some (st !! tail);
    Some (mkInc (nodes m) (shutdown_flag m) (heads m) (aset (tails m) sender msg) (todo m),
          <[tail := msg]> st, false)
  else
    r ← ring_push (nodes m) (todo m) sender;
    Some (mkInc (nodes m) (shutdown_flag m) (aset (heads m) sender msg)
            (aset (tails m) sender msg) r, st, true).

(** The manager's part of [shutdown], which then joins the threads. *)
Definition inc_shutdown (m : IncomingMessageManager) : IncomingMessageManager * bool :=
  if shutdown_flag m then (m, false)
  else (mkInc (nodes m) true (heads m) (tails m) (todo m), true).

Inductive get_result :=
| GotNothing
| GotSleep
| GotMessages (sender retval : Z) (m : IncomingMessageManager).

(** One pass of the wait loop: [GotSleep] is the call of [cond_wait]. *)
Definition get_messages (m : IncomingMessageManager) (wait : bool) : option get_result :=
  if ring_empty (todo m) then
    if shutdown_flag m || negb wait then Some GotNothing else Some GotSleep
  else
    '(r, sender) ← ring_pop (nodes m) (todo m);
    retval ← aget (heads m) sender;
    Some (GotMessages sender retval
            (mkInc (nodes m) (shutdown_flag m) (aset (heads m) sender 0)
               (aset (tails m) sender 0) r)).

(** ** Handler threads *)

(** Where a thread is in [handler_thread_loop]: about to call [get_messages],
    asleep inside it, at the head of the inner loop, or inside [run_handler]
    with [next_msg] already read. *)
Inductive thread :=
| Polling
| Asleep
| Walking (sender current_msg : Z)
| Handling (sender current_msg next_msg : Z)
| Exited.

Definition handler_thread_step (m : IncomingMessageManager) (st : MsgStore) (t : thread)
    : option (IncomingMessageManager * MsgStore * thread) :=
  match t with
  | Polling =>
      g ← get_messages m true;
      Some (match g with
            | GotNothing => (m, st, Exited)
            | GotSleep => (m, st, Asleep)
            | GotMessages sender retval m' =>
                (m', st, if decide (retval = 0) then Exited else Walking sender retval)
            end)
  | Walking sender current_msg =>
      next_msg ← st !! current_msg;
      Some (m, st, Handling sender current_msg next_msg)
  | Handling sender current_msg next_msg =>
      assert! is_Some (st !! current_msg);
      Some (m, delete current_msg st,
            if decide (next_msg = 0) then Polling else Walking sender next_msg)
  | Asleep | Exited => Some (m, st, t)
  end.

Definition wake (t : thread) : thread := match t with Asleep => Polling | _ => t end.

(** The message whose handler a step completes. *)
Definition completed (t : thread) : list (Z * Z) :=
  match t with Handling sender current_msg _ => [(sender, current_msg)] | _ => [] end.

(** The manager with its store and threads, and the history: what arrived and
    what has been handled, each as (sender, message). *)
Record inc_sys := mkIncSys {
  mgr : IncomingMessageManager;
  store : MsgStore;
  threads : list thread;
  arrived : list (Z * Z);
  handled : list (Z * Z) }.

Definition inc_start (n : Z) (count : nat) : inc_sys :=
  mkIncSys (IncomingMessageManager_init n) ∅ (replicate count Polling) [] [].

Inductive inc_step : inc_sys → inc_sys → Prop :=
| inc_arrive s sender msg m' st' bc :
    0 ≤ sender < nodes (mgr s) → msg ≠ 0 → store s !! msg = None →
    add_incoming_message (mgr s) (<[msg := 0]> (store s)) sender msg = Some (m', st', bc) →
    inc_step s (mkIncSys m' st' (if bc then wake <$> threads s else threads s)
                  (arrived s ++ [(sender, msg)]) (handled s))
| inc_thread s i t m' st' t' :
    threads s !! i = Some t →
    handler_thread_step (mgr s) (store s) t = Some (m', st', t') →
    inc_step s (mkIncSys m' st' (<[i := t']> (threads s)) (arrived s)
                  (handled s ++ completed t))
| inc_spurious s i :
    threads s !! i = Some Asleep →
    inc_step s (mkIncSys (mgr s) (store s) (<[i := Polling]> (threads s))
                  (arrived s) (handled s))
| inc_stop s m' bc :
    inc_shutdown (mgr s) = (m', bc) →
    inc_step s (mkIncSys m' (store s) (if bc then wake <$> threads s else threads s)
                  (arrived s) (handled s)).

(** ** Linked lists in the store *)

Fixpoint chain (st : MsgStore) (p : Z) (l : list Z) : Prop :=
  match l with
  | [] => p = 0
  | x :: l' => p = x ∧ x ≠ 0 ∧ ∃ nx, st !! x = Some nx ∧ chain st nx l'
  end.

Lemma chain_ext st st' l : ∀ p,
  (∀ x, x ∈ l → st' !! x = st !! x) → chain st p l → chain st' p l.
Proof.
  induction l as [|x l IH]; intros p H; simpl; [done|].
  intros (-> & Hx & nx & E & Hc). split_all; [done|done|]. exists nx.
  rewrite H by set_solver. split; [done|]. apply IH; [|done]. set_solver.
Qed.

Lemma chain_head st p l : chain st p l → p = default 0 (head l).
Proof. destruct l; simpl; naive_solver. Qed.

Lemma chain_nonnull st p l : chain st p l → (p = 0 ↔ l = []).
Proof. destruct l; simpl; naive_solver. Qed.

Lemma chain_snoc st l : ∀ p t m,
  chain st p l → last l = Some t → NoDup l → m ∉ l → m ≠ 0 → st !! m = Some 0 →
  chain (<[t := m]> st) p (l ++ [m]).
Proof.
  induction l as [|x l IH]; intros p t m; simpl; [done|].
  intros (-> & Hx & nx & E & Hc) Hl [Hnx Hnd]%NoDup_cons Hm Hm0 Em.
  split_all; [done|done|]. destruct l as [|y l].
  - simpl in *. simplify_eq. exists m. split; [by rewrite lookup_insert_eq|].
    split_all; [done|done|]. exists 0. split; [|done].
    rewrite lookup_insert_ne; [done|]. set_solver.
  - exists nx. split.
    + rewrite lookup_insert_ne; [done|]. intros ->. apply Hnx.
      by apply last_Some_elem_of.
    + apply IH; try done. set_solver.
Qed.

Lemma chain_live st l : ∀ p x, chain st p l → x ∈ l → is_Some (st !! x).
Proof.
  induction l as [|y l IH]; intros p x; simpl; [set_solver|].
  intros (-> & Hy & nx & E & Hc) [->|Hin]%elem_of_cons; [by eexists|]. by eapply IH.
Qed.

Lemma chain_elem_nonzero st l : ∀ p x, chain st p l → x ∈ l → x ≠ 0.
Proof.
  induction l as [|y l IH]; intros p x; simpl; [set_solver|].
  intros (-> & Hy & nx & E & Hc) [->|Hin]%elem_of_cons; [done|]. by eapply IH.
Qed.

(** ** Specification state

    [q] is the queue of senders with their waiting messages; [fl] gives for
    each thread the batch it still has to handle. *)

Definition tag (f : Z * list Z) : list (Z * Z) := (λ m, (f.1, m)) <$> f.2.
Definition tagged (q : list (Z * list Z)) : list (Z * Z) := q ≫= tag.
Definition msgs_of (q : list (Z * list Z)) : list Z := q ≫= snd.
Definition proj (s : Z) (h : list (Z * Z)) : list (Z * Z) := filter (λ e, e.1 = s) h.

Definition batch_ok (m : IncomingMessageManager) (st : MsgStore) (e : Z * list Z) : Prop :=
  0 ≤ e.1 < nodes m ∧ e.2 ≠ [] ∧
  aget (heads m) e.1 = head e.2 ∧ aget (tails m) e.1 = last e.2 ∧
  chain st (default 0 (head e.2)) e.2.

Definition flight_of (st : MsgStore) (t : thread) (f : Z * list Z) : Prop :=
  match t with
  | Walking s p => f.1 = s ∧ f.2 ≠ [] ∧ chain st p f.2
  | Handling s p nx => f.1 = s ∧ head f.2 = Some p ∧ chain st p f.2 ∧ st !! p = Some nx
  | _ => f.2 = []
  end.

Record mgr_inv (m : IncomingMessageManager) (st : MsgStore) (q : list (Z * list Z)) : Prop := {
  mi_ring : ring_repr (nodes m) (todo m) q.*1;
  mi_heads : zlen (heads m) = nodes m;
  mi_tails : zlen (tails m) = nodes m;
  mi_nodup : NoDup q.*1;
  mi_batch : Forall (batch_ok m st) q;
  mi_out : ∀ s, 0 ≤ s < nodes m → s ∉ q.*1 →
    aget (heads m) s = Some 0 ∧ aget (tails m) s = Some 0 }.

Record inc_inv (s : inc_sys) (q fl : list (Z * list Z)) : Prop := {
  ii_mgr : mgr_inv (mgr s) (store s) q;
  ii_flight : Forall2 (flight_of (store s)) (threads s) fl;
  ii_msgs : NoDup (msgs_of q ++ msgs_of fl);
  ii_dom : ∀ x, is_Some (store s !! x) → x ∈ msgs_of q ++ msgs_of fl;
  ii_hist : arrived s ≡ₚ handled s ++ tagged fl ++ tagged q;
  ii_fifo : (length (threads s) ≤ 1)%nat → ∀ snd,
    proj snd (arrived s) = proj snd (handled s) ++ proj snd (tagged fl) ++ proj snd (tagged q);
  ii_sleep : Asleep ∈ threads s → q = [] ∧ shutdown_flag (mgr s) = false }.

Lemma tagged_app q q' : tagged (q ++ q') = tagged q ++ tagged q'.
Proof. apply bind_app. Qed.
Lemma msgs_of_app q q' : msgs_of (q ++ q') = msgs_of q ++ msgs_of q'.
Proof. apply bind_app. Qed.
Lemma tagged_cons e q : tagged (e :: q) = tag e ++ tagged q.
Proof. done. Qed.
Lemma msgs_of_cons e q : msgs_of (e :: q) = e.2 ++ msgs_of q.
Proof. done. Qed.
Lemma tag_app s l l' : tag (s, l ++ l') = tag (s, l) ++ tag (s, l').
Proof. apply fmap_app. Qed.
Lemma proj_app s h h' : proj s (h ++ h') = proj s h ++ proj s h'.
Proof. apply filter_app. Qed.

Lemma proj_tag s f : proj s (tag f) = if decide (f.1 = s) then tag f else [].
Proof.
  unfold proj, tag. destruct f as [s' l]. simpl. induction l as [|x l IH]; csimpl.
  - by case_decide.
  - rewrite filter_cons. simpl. rewrite IH. by case_decide.
Qed.

Lemma proj_tagged_out s q : s ∉ q.*1 → proj s (tagged q) = [].
Proof.
  induction q as [|f q IH]; [done|]. rewrite fmap_cons. intros [Hn Hq]%not_elem_of_cons.
  rewrite tagged_cons, proj_app, proj_tag, decide_False by done. by apply IH.
Qed.

Lemma elem_of_msgs_of q e x : e ∈ q → x ∈ e.2 → x ∈ msgs_of q.
Proof. intros. apply list_elem_of_bind. by exists e. Qed.

(** A sender that is waiting has one entry in the queue. *)
Lemma queue_split (q : list (Z * list Z)) s :
  NoDup q.*1 → s ∈ q.*1 →
  ∃ q1 l q2, q = q1 ++ (s, l) :: q2 ∧ (s ∉ q1.*1) ∧ (s ∉ q2.*1).
Proof.
  intros Hnd ([s' l] & -> & Hin)%list_elem_of_fmap.
  apply list_elem_of_split in Hin as (q1 & q2 & ->). exists q1, l, q2.
  rewrite fmap_app, fmap_cons in Hnd. simpl in *.
  apply NoDup_app in Hnd as (_ & Hd & Hc). apply NoDup_cons in Hc as [Hc _].
  split_all; [done| |done]. intros Hin. apply (Hd _ Hin). set_solver.
Qed.

(** Changing the fields of messages outside a batch does not disturb it. *)
Lemma batch_ok_ext m m' st st' e :
  batch_ok m st e → nodes m' = nodes m →
  aget (heads m') e.1 = aget (heads m) e.1 → aget (tails m') e.1 = aget (tails m) e.1 →
  (∀ x, x ∈ e.2 → st' !! x = st !! x) → batch_ok m' st' e.
Proof.
  intros (? & ? & ? & ? & ?) En Eh Et Hst. unfold batch_ok. rewrite En, Eh, Et.
  split_all; try done; try lia. by eapply chain_ext.
Qed.

Lemma flight_of_ext st st' t f :
  flight_of st t f → (∀ x, x ∈ f.2 → st' !! x = st !! x) → flight_of st' t f.
Proof.
  intros H Hst. destruct t; simpl in *; try done.
  - destruct H as (? & ? & ?). split_all; try done. by eapply chain_ext.
  - destruct H as (? & Hh & ? & ?). split_all; try done; [by eapply chain_ext|].
    rewrite Hst; [done|]. destruct f as [? [|]]; simplify_eq/=. set_solver.
Qed.

Lemma flights_ext st st' ts fl :
  Forall2 (flight_of st) ts fl → (∀ x, x ∈ msgs_of fl → st' !! x = st !! x) →
  Forall2 (flight_of st') ts fl.
Proof.
  intros H Hst. induction H as [|t f ts fl Hf H IH]; [constructor|].
  rewrite msgs_of_cons in Hst. constructor.
  - eapply flight_of_ext; [done|]. set_solver.
  - apply IH. set_solver.
Qed.

Lemma wake_flights st ts fl :
  Forall2 (flight_of st) ts fl → Forall2 (flight_of st) (wake <$> ts) fl.
Proof.
  intros H. induction H as [|t f ts fl Hf H IH]; csimpl; constructor; [|done].
  by destruct t.
Qed.

Lemma wake_no_sleep (ts : list thread) : Asleep ∉ wake <$> ts.
Proof. intros (t & E & _)%list_elem_of_fmap. by destruct t. Qed.

(** Fewer senders than nodes are waiting when one of them is not. *)
Lemma senders_bound n (l : list Z) :
  NoDup l → Forall (λ s, 0 ≤ s < n) l → zlen l ≤ Z.max n 0.
Proof.
  intros Hnd Hall.
  assert (length l ≤ length (seqZ 0 n))%nat.
  { apply submseteq_length, NoDup_submseteq; [done|]. intros s Hs.
    rewrite Forall_forall in Hall. apply elem_of_seqZ. specialize (Hall s Hs). lia. }
  rewrite length_seqZ in *. unfold zlen. lia.
Qed.

(** ** The operations of the manager *)

Lemma mgr_init_inv n : 0 < n → mgr_inv (IncomingMessageManager_init n) ∅ [].
Proof.
  intros Hn. split; simpl; try done.
  - by apply ring_init_repr.
  - unfold zlen. rewrite length_replicate. lia.
  - unfold zlen. rewrite length_replicate. lia.
  - constructor.
  - intros s Hs _. unfold aget. rewrite decide_True by lia.
    rewrite lookup_replicate_2 by lia. done.
Qed.

(** The head and tail pointers of a sender with a waiting batch. *)
Lemma batch_pointers m st s l :
  batch_ok m st (s, l) →
  ∃ h t, aget (heads m) s = Some h ∧ aget (tails m) s = Some t ∧ last l = Some t ∧
    h ≠ 0 ∧ t ≠ 0 ∧ is_Some (st !! t) ∧ t ∈ l ∧ chain st h l.
Proof.
  intros (Hs & Hne & Hh & Ht & Hc). simpl in *.
  destruct l as [|h l]; [done|]. destruct (last (h :: l)) as [t|] eqn:El; [|by apply last_None in El].
  assert (t ∈ h :: l) by by apply last_Some_elem_of.
  exists h, t. split_all; try done.
  - by destruct Hc as (_ & ? & _).
  - by eapply chain_elem_nonzero.
  - by eapply chain_live.
Qed.

(** A message for a sender that is already waiting goes to the end of its
    list. *)
Lemma add_existing m st q1 s l q2 msg :
  mgr_inv m st (q1 ++ (s, l) :: q2) → NoDup (msgs_of (q1 ++ (s, l) :: q2)) →
  msg ∉ msgs_of (q1 ++ (s, l) :: q2) → msg ≠ 0 → st !! msg = Some 0 →
  ∃ m' t, add_incoming_message m st s msg = Some (m', <[t := msg]> st, false) ∧ t ∈ l ∧
    mgr_inv m' (<[t := msg]> st) (q1 ++ (s, l ++ [msg]) :: q2) ∧
    shutdown_flag m' = shutdown_flag m ∧ nodes m' = nodes m.
Proof.
  intros [Hr Hlh Hlt Hnd Hb Ho] Hndm Hfresh Hm0 Hst.
  apply Forall_app in Hb as [Hb1 Hb]. apply Forall_cons in Hb as [Hb Hb2].
  destruct (batch_pointers _ _ _ _ Hb) as (h & t & Hh & Ht & Hl & Hh0 & Ht0 & Hlive & Htl & Hc).
  unfold add_incoming_message. rewrite Hh, Ht. simpl. rewrite decide_True by done.
  rewrite !assert_true by done. eexists _, t. split_all; [done|done| |done|done].
  rewrite msgs_of_app, msgs_of_cons in *. simpl in *.
  apply NoDup_app in Hndm as (Hn1 & Hd1 & Hn2). apply NoDup_app in Hn2 as (Hnl & Hd2 & Hn2).
  rewrite fmap_app, fmap_cons in *. simpl in *.
  apply NoDup_app in Hnd as (Hnd1 & Hdd & Hnd2). apply NoDup_cons in Hnd2 as [Hsq2 Hnd2].
  assert (∀ e, e ∈ q1 ++ q2 → e.1 ≠ s) as Hother.
  { intros e He <-. apply elem_of_app in He as [He|He].
    - apply (Hdd e.1); [by apply list_elem_of_fmap_2|]. set_solver.
    - apply Hsq2. by apply list_elem_of_fmap_2. }
  split; simpl; rewrite ?fmap_app, ?fmap_cons; simpl; try done.
  - unfold zlen. by rewrite aset_length.
  - apply NoDup_app. split_all; [done|done|]. by apply NoDup_cons.
  - assert (∀ q, (∀ e, e ∈ q → e.1 ≠ s ∧ t ∉ e.2) → Forall (batch_ok m st) q →
      Forall (batch_ok (mkInc (nodes m) (shutdown_flag m) (heads m) (aset (tails m) s msg) (todo m))
                (<[t:=msg]> st)) q) as Hmono.
    { intros q Hq HF. apply Forall_forall. intros e He. rewrite Forall_forall in HF.
      destruct (Hq e He) as [He1 He2]. eapply batch_ok_ext; [by apply HF|done|done| |].
      - simpl. rewrite aget_aset_ne; [done|]. intros ->. by apply He1.
      - intros x Hx. rewrite lookup_insert_ne; [done|]. by intros <-. }
    apply Forall_app. split; [|apply Forall_cons; split].
    + apply Hmono; [|done]. intros e He. split; [apply Hother; set_solver|].
      intros Hte. apply (Hd1 t); [by eapply elem_of_msgs_of|set_solver].
    + destruct Hb as (Hs & _). unfold batch_ok. simpl in *.
      split_all; try lia; try (by destruct l).
      * rewrite Hh. destruct l as [|y l]; [done|]. destruct Hc as [-> _]. done.
      * rewrite aget_aset_eq by lia. by rewrite last_snoc.
      * replace (default 0 (head (l ++ [msg]))) with h
          by (destruct l as [|y l]; [done|]; by destruct Hc as [-> _]).
        apply chain_snoc; try done. set_solver.
    + apply Hmono; [|done]. intros e He. split; [apply Hother; set_solver|].
      intros Hte. apply (Hd2 t Htl). by eapply elem_of_msgs_of.
  - intros s' Hs' Hn. destruct (Ho s' Hs' Hn) as [-> <-].
    split; [done|]. rewrite aget_aset_ne; [done|]. set_solver.
Qed.

(** A message for a sender that is not waiting starts a list, and the sender
    goes to the end of the ring, which never wraps around. *)
Lemma add_fresh m st q s msg :
  mgr_inv m st q → 0 ≤ s < nodes m → s ∉ q.*1 → msg ≠ 0 → st !! msg = Some 0 →
  ∃ m', add_incoming_message m st s msg = Some (m', st, true) ∧
    mgr_inv m' st (q ++ [(s, [msg])]) ∧
    shutdown_flag m' = shutdown_flag m ∧ nodes m' = nodes m.
Proof.
  intros [Hr Hlh Hlt Hnd Hb Ho] Hs Hsq Hm0 Hst. destruct (Ho s Hs Hsq) as [Hh Ht].
  unfold add_incoming_message. rewrite Hh, Ht. simpl.
  assert (Forall (λ s, 0 ≤ s < nodes m) (s :: q.*1)) as Hall.
  { constructor; [done|]. apply Forall_fmap. eapply Forall_impl; [exact Hb|]. by intros e (? & _). }
  pose proof (senders_bound _ (s :: q.*1) ltac:(by apply NoDup_cons) Hall) as Hbound.
  destruct (ring_push_repr _ _ _ s Hr) as (r & -> & Hr').
  { unfold zlen in *. simpl in *. lia. }
  simpl. eexists. split_all; [done| |done|done].
  split; simpl; rewrite ?fmap_app; simpl; try done.
  - unfold zlen. by rewrite aset_length.
  - unfold zlen. by rewrite aset_length.
  - apply NoDup_app. split_all; [done|set_solver|apply NoDup_singleton].
  - apply Forall_app. split; [|apply Forall_singleton].
    + apply Forall_forall. intros e He. rewrite Forall_forall in Hb.
      assert (e.1 ≠ s) by (intros <-; apply Hsq; by apply list_elem_of_fmap_2).
      eapply batch_ok_ext; [by apply Hb|done| | |done]; simpl; by rewrite aget_aset_ne.
    + unfold batch_ok. simpl. split_all; try lia; try done; [by rewrite aget_aset_eq by lia..|].
      by exists 0.
  - intros s' Hs' Hn. rewrite !aget_aset_ne by set_solver. apply Ho; [done|set_solver].
Qed.

(** A thread takes the whole list of the sender at the front of the ring. *)
Lemma get_messages_batch m st s l q :
  mgr_inv m st ((s, l) :: q) →
  ∃ m' p, get_messages m true = Some (GotMessages s p m') ∧ p ≠ 0 ∧ chain st p l ∧ l ≠ [] ∧
    mgr_inv m' st q ∧ shutdown_flag m' = shutdown_flag m ∧ nodes m' = nodes m.
Proof.
  intros [Hr Hlh Hlt Hnd Hb Ho]. rewrite fmap_cons in *. simpl in *.
  apply Forall_cons in Hb as [Hbe Hb].
  destruct (batch_pointers _ _ _ _ Hbe) as (h & t & Hh & _ & _ & Hh0 & _ & _ & _ & Hc).
  apply NoDup_cons in Hnd as [Hsq Hnd]. destruct Hbe as (Hs & Hne & _). simpl in *.
  unfold get_messages. rewrite (ring_empty_repr _ _ _ Hr). rewrite bool_decide_false by done.
  destruct (ring_pop_repr _ _ _ _ Hr) as (r & -> & Hr'). simpl. rewrite Hh. simpl.
  eexists _, h. split_all; [done|done|done|done| |done|done].
  split; simpl; try done.
  - unfold zlen. by rewrite aset_length.
  - unfold zlen. by rewrite aset_length.
  - apply Forall_forall. intros e He. rewrite Forall_forall in Hb.
    assert (e.1 ≠ s) by (intros <-; apply Hsq; by apply list_elem_of_fmap_2).
    eapply batch_ok_ext; [by apply Hb|done| | |done]; simpl; by rewrite aget_aset_ne.
  - intros s' Hs' Hn. destruct (decide (s = s')) as [<-|].
    + by rewrite !aget_aset_eq by lia.
    + rewrite !aget_aset_ne by done. apply Ho; [done|set_solver].
Qed.

Lemma get_messages_empty m st :
  mgr_inv m st [] →
  get_messages m true = Some (if shutdown_flag m then GotNothing else GotSleep).
Proof.
  intros H. unfold get_messages. rewrite (ring_empty_repr _ _ _ (mi_ring _ _ _ H)).
  rewrite bool_decide_true by done. by destruct (shutdown_flag m).
Qed.

(** ** Steps of the whole system *)

Lemma insert_mid {A} (l1 l2 : list A) x y : <[length l1 := y]> (l1 ++ x :: l2) = l1 ++ y :: l2.
Proof. by rewrite insert_app_r_alt, Nat.sub_diag by lia. Qed.

Lemma batches_live m st q x : mgr_inv m st q → x ∈ msgs_of q → is_Some (st !! x) ∧ x ≠ 0.
Proof.
  intros H (e & Hx & He)%list_elem_of_bind. pose proof (mi_batch _ _ _ H) as Hb.
  rewrite Forall_forall in Hb. destruct (Hb e He) as (_ & _ & _ & _ & Hc).
  split; [by eapply chain_live|by eapply chain_elem_nonzero].
Qed.

Lemma flights_live st ts fl x :
  Forall2 (flight_of st) ts fl → x ∈ msgs_of fl → is_Some (st !! x).
Proof.
  intros H. induction H as [|t f ts fl Hf H IH]; [by intros ?%elem_of_nil|].
  rewrite msgs_of_cons. intros [Hx|Hx]%elem_of_app; [|by apply IH].
  destruct t; simpl in Hf; try (rewrite Hf in Hx; by apply elem_of_nil in Hx).
  - destruct Hf as (_ & _ & Hc). by eapply chain_live.
  - destruct Hf as (_ & _ & Hc & _). by eapply chain_live.
Qed.

Lemma inc_live s q fl x :
  inc_inv s q fl → x ∈ msgs_of q ++ msgs_of fl → is_Some (store s !! x).
Proof.
  intros H [Hx|Hx]%elem_of_app.
  - by apply (batches_live _ _ _ _ (ii_mgr _ _ _ H)).
  - by eapply flights_live; [apply H|].
Qed.

Lemma mgr_inv_store m st st' q :
  mgr_inv m st q → (∀ x, x ∈ msgs_of q → st' !! x = st !! x) → mgr_inv m st' q.
Proof.
  intros [Hr Hlh Hlt Hnd Hb Ho] Hst. split; try done.
  apply Forall_forall. intros e He. rewrite Forall_forall in Hb.
  eapply batch_ok_ext; [by apply Hb|done..|]. intros x Hx. apply Hst.
  by eapply elem_of_msgs_of.
Qed.

Lemma mid_batch_elem q1 s l q2 x : x ∈ l → x ∈ msgs_of (q1 ++ (s, l) :: q2).
Proof.
  intros Hx. eapply (elem_of_msgs_of _ (s, l)); [|done].
  apply elem_of_app. right. left.
Qed.

Lemma tagged_snoc_batch q1 s l q2 msg :
  tagged (q1 ++ (s, l ++ [msg]) :: q2) ≡ₚ tagged (q1 ++ (s, l) :: q2) ++ [(s, msg)].
Proof.
  rewrite !tagged_app, !tagged_cons, tag_app. simpl.
  rewrite <- !(assoc_L (++)). do 2 apply Permutation_app_head. apply Permutation_app_comm.
Qed.

Lemma msgs_snoc_batch q1 s l q2 msg :
  msgs_of (q1 ++ (s, l ++ [msg]) :: q2) ≡ₚ msg :: msgs_of (q1 ++ (s, l) :: q2).
Proof.
  rewrite !msgs_of_app, !msgs_of_cons. simpl. rewrite Permutation_middle.
  apply Permutation_app_head. rewrite <- (assoc_L (++)). simpl. by rewrite <- Permutation_middle.
Qed.

Lemma proj_snoc_batch s0 q1 s l q2 msg :
  s ∉ q2.*1 →
  proj s0 (tagged (q1 ++ (s, l ++ [msg]) :: q2)) =
  proj s0 (tagged (q1 ++ (s, l) :: q2)) ++ proj s0 [(s, msg)].
Proof.
  intros Hq2. rewrite !tagged_app, !tagged_cons, !proj_app, !proj_tag.
  change [(s, msg)] with (tag (s, [msg])). rewrite proj_tag. simpl. case_decide as Hs.
  - subst s0. rewrite !(proj_tagged_out _ _ Hq2), tag_app, !app_nil_r. simpl.
    by rewrite (assoc_L (++)).
  - by rewrite !app_nil_r.
Qed.

(** The common part of an arrival: [q'] is [q] with the message added. *)
Lemma inc_arrive_inv s q fl q' sender msg m' st' bc :
  inc_inv s q fl → msg ≠ 0 → store s !! msg = None →
  mgr_inv m' st' q' → shutdown_flag m' = shutdown_flag (mgr s) →
  (∀ x, x ∈ msgs_of fl → st' !! x = store s !! x) →
  (∀ x, is_Some (st' !! x) → x = msg ∨ is_Some (store s !! x)) →
  msgs_of q' ≡ₚ msg :: msgs_of q → tagged q' ≡ₚ tagged q ++ [(sender, msg)] →
  (∀ s0, proj s0 (tagged q') = proj s0 (tagged q) ++ proj s0 [(sender, msg)]) →
  (bc = false → q ≠ []) →
  inc_inv (mkIncSys m' st' (if bc then wake <$> threads s else threads s)
             (arrived s ++ [(sender, msg)]) (handled s)) q' fl.
Proof.
  intros H Hm0 Hst Hmgr Hsd Hfl Hdom Hmsgs Htag Hproj Hbc.
  assert (Hfresh : msg ∉ msgs_of q ++ msgs_of fl).
  { intros Hin. destruct (inc_live _ _ _ _ H Hin). congruence. }
  split; simpl.
  - done.
  - assert (Forall2 (flight_of st') (threads s) fl) as Hf2
      by (eapply flights_ext; [apply H|done]).
    destruct bc; [by apply wake_flights|done].
  - rewrite Hmsgs. simpl. apply NoDup_cons. split; [done|apply H].
  - intros x [->|Hx]%Hdom; rewrite Hmsgs; simpl; [set_solver|].
    apply (ii_dom _ _ _ H) in Hx. set_solver.
  - rewrite (ii_hist _ _ _ H), Htag. by rewrite <- !(assoc_L (++)).
  - intros Hlen s0. assert (length (threads s) ≤ 1)%nat as Hlen'.
    { destruct bc; [by rewrite length_fmap in Hlen|done]. }
    rewrite proj_app, (ii_fifo _ _ _ H Hlen'), Hproj. by rewrite <- !(assoc_L (++)).
  - intros Hsl. exfalso. destruct bc; [by apply wake_no_sleep in Hsl|].
    destruct (ii_sleep _ _ _ H Hsl) as [-> _]. by apply Hbc.
Qed.

(** Every arrival succeeds: none of the assertions can fire. *)
Lemma inc_arrive_ok s q fl sender msg :
  inc_inv s q fl → 0 ≤ sender < nodes (mgr s) → msg ≠ 0 → store s !! msg = None →
  ∃ m' st' bc q',
    add_incoming_message (mgr s) (<[msg := 0]> (store s)) sender msg = Some (m', st', bc) ∧
    inc_inv (mkIncSys m' st' (if bc then wake <$> threads s else threads s)
               (arrived s ++ [(sender, msg)]) (handled s)) q' fl.
Proof.
  intros H Hs Hm0 Hst.
  assert (Hfresh : msg ∉ msgs_of q ++ msgs_of fl).
  { intros Hin. destruct (inc_live _ _ _ _ H Hin). congruence. }
  assert (∀ x, x ∈ msgs_of q ++ msgs_of fl → <[msg:=0]> (store s) !! x = store s !! x) as Hext.
  { intros x Hx. apply lookup_insert_ne. by intros ->. }
  assert (mgr_inv (mgr s) (<[msg:=0]> (store s)) q) as Hmgr.
  { eapply mgr_inv_store; [apply H|]. intros x Hx. apply Hext, elem_of_app. by left. }
  destruct (decide (sender ∈ q.*1)) as [Hin|Hout].
  - destruct (queue_split _ _ (mi_nodup _ _ _ Hmgr) Hin) as (q1 & l & q2 & -> & Hq1 & Hq2).
    pose proof (ii_msgs _ _ _ H) as Hnd. apply NoDup_app in Hnd as (Hnd & Hdisj & _).
    destruct (add_existing _ _ _ _ _ _ msg Hmgr Hnd) as (m' & t & E & Ht & Hm' & Hsd & Hn).
    { intros Hx. apply Hfresh, elem_of_app. by left. }
    { done. }
    { apply lookup_insert_eq. }
    eexists _, _, _, _. split; [exact E|]. eapply inc_arrive_inv; try done.
    + intros x Hx. rewrite lookup_insert_ne; [apply Hext, elem_of_app; by right|].
      intros <-. apply (Hdisj t); [|done]. by apply mid_batch_elem.
    + intros x [y Hy]. rewrite !lookup_insert in Hy. case_decide; [|case_decide; [by left|right; by eexists]].
      subst. right. apply (inc_live _ _ _ _ H), elem_of_app. left. by apply mid_batch_elem.
    + apply msgs_snoc_batch.
    + apply tagged_snoc_batch.
    + intros s0. by apply proj_snoc_batch.
    + intros _. by destruct q1.
  - destruct (add_fresh _ _ _ _ msg Hmgr Hs Hout Hm0 (lookup_insert_eq _ _ _))
      as (m' & E & Hm' & Hsd & Hn).
    eexists _, _, _, _. split; [exact E|]. eapply inc_arrive_inv; try done.
    + intros x Hx. apply Hext, elem_of_app. by right.
    + intros x [y Hy]. rewrite lookup_insert in Hy. case_decide; [by left|right; by eexists].
    + rewrite msgs_of_app. unfold msgs_of at 2. simpl. by rewrite Permutation_app_comm.
    + by rewrite tagged_app.
    + intros s0. by rewrite tagged_app, proj_app.
Qed.

(** The common part of a thread's step: what the thread completes, what it
    still has and what is queued make up what it had and what was queued. *)
Lemma inc_thread_inv s q q' ts1 t t' ts2 fl1 f f' fl2 m' st' :
  inc_inv s q (fl1 ++ f :: fl2) → threads s = ts1 ++ t :: ts2 → length ts1 = length fl1 →
  mgr_inv m' st' q' → shutdown_flag m' = shutdown_flag (mgr s) → flight_of st' t' f' →
  (∀ x, x ∈ msgs_of (fl1 ++ fl2) → st' !! x = store s !! x) →
  (∀ x, is_Some (st' !! x) → is_Some (store s !! x) ∧ x ∉ (completed t).*2) →
  completed t ++ tag f' ++ tagged q' = tag f ++ tagged q →
  (q = [] → q' = []) → (t' = Asleep → q' = [] ∧ shutdown_flag m' = false) →
  inc_inv (mkIncSys m' st' (ts1 ++ t' :: ts2) (arrived s) (handled s ++ completed t))
    q' (fl1 ++ f' :: fl2).
Proof.
  intros H Hts Hlen Hmgr Hsd Hf' Hext Hdom Htag Hqq Hsl.
  assert (∀ g l, msgs_of l = (tagged l).*2 ∧ g.2 = (tag g).*2) as Hmt.
  { assert (∀ g : Z * list Z, g.2 = (tag g).*2) as Hg.
    { intros g. unfold tag. rewrite <- list_fmap_compose. by rewrite list_fmap_id. }
    intros g l. split; [|apply Hg]. induction l as [|e l IH]; [done|].
    by rewrite msgs_of_cons, tagged_cons, fmap_app, IH, <- Hg. }
  assert ((completed t).*2 ++ f'.2 ++ msgs_of q' = f.2 ++ msgs_of q) as Hms.
  { rewrite (proj1 (Hmt f q)), (proj1 (Hmt f q')), (proj2 (Hmt f q)), (proj2 (Hmt f' q)).
    by rewrite <- !fmap_app, Htag. }
  assert (msgs_of q ++ msgs_of (fl1 ++ f :: fl2) ≡ₚ
    (completed t).*2 ++ msgs_of q' ++ msgs_of (fl1 ++ f' :: fl2)) as Hperm.
  { rewrite !msgs_of_app, !msgs_of_cons.
    transitivity ((f.2 ++ msgs_of q) ++ msgs_of fl1 ++ msgs_of fl2); [solve_Permutation|].
    rewrite <- Hms. solve_Permutation. }
  pose proof (ii_flight _ _ _ H) as HF. rewrite Hts in HF.
  apply Forall2_app_inv in HF as [HF1 HF]; [|done]. apply Forall2_cons in HF as [HFf HF2].
  split; simpl.
  - done.
  - apply Forall2_app; [|constructor; [done|]].
    + eapply flights_ext; [exact HF1|]. intros x Hx. apply Hext. rewrite msgs_of_app. set_solver.
    + eapply flights_ext; [exact HF2|]. intros x Hx. apply Hext. rewrite msgs_of_app. set_solver.
  - pose proof (ii_msgs _ _ _ H) as Hnd. rewrite Hperm in Hnd. by apply NoDup_app in Hnd as (_ & _ & ?).
  - intros x [Hx Hc]%Hdom. apply (ii_dom _ _ _ H) in Hx. rewrite Hperm in Hx. set_solver.
  - rewrite (ii_hist _ _ _ H), !tagged_app, !tagged_cons.
    rewrite <- (assoc_L (++) (handled s)). apply Permutation_app_head.
    transitivity ((tag f ++ tagged q) ++ tagged fl1 ++ tagged fl2); [solve_Permutation|].
    rewrite <- Htag. solve_Permutation.
  - intros Hl s0. rewrite length_app in Hl. simpl in Hl.
    assert (ts1 = [] ∧ ts2 = []) as [-> ->].
    { destruct ts1, ts2; simpl in Hl; try done; lia. }
    destruct fl1; [|done]. destruct fl2; [|by inversion HF2].
    rewrite (ii_fifo _ _ _ H) by (rewrite Hts; simpl; lia).
    cbn [app]. rewrite !tagged_cons. change (tagged []) with (@nil (Z * Z)).
    rewrite !app_nil_r, <- !proj_app, <- Htag. by rewrite <- !(assoc_L (++)).
  - intros [Hin|[Hin|Hin]%elem_of_cons]%elem_of_app.
    + destruct (ii_sleep _ _ _ H) as [-> Hfl]; [rewrite Hts; set_solver|].
      rewrite Hsd. auto.
    + by apply Hsl.
    + destruct (ii_sleep _ _ _ H) as [-> Hfl]; [rewrite Hts; set_solver|].
      rewrite Hsd. auto.
Qed.

Ltac same_dom := intros ? ?; split; [done|set_solver].

(** The handler of a message returns: the message is gone from the store and
    from the thread's batch. *)
Lemma inc_thread_handled s q ts1 ts2 fl1 fl2 snd p nx l :
  inc_inv s q (fl1 ++ (snd, p :: l) :: fl2) → threads s = ts1 ++ Handling snd p nx :: ts2 →
  length ts1 = length fl1 → chain (store s) nx l → p ≠ 0 →
  let t' := if decide (nx = 0) then Polling else Walking snd nx in
  inc_inv (mkIncSys (mgr s) (delete p (store s)) (ts1 ++ t' :: ts2) (arrived s)
    (handled s ++ [(snd, p)])) q (fl1 ++ (snd, l) :: fl2).
Proof.
  intros H Hts Hlen Hc Hp t'.
  pose proof (ii_msgs _ _ _ H) as Hnd. rewrite msgs_of_app, msgs_of_cons in Hnd. simpl in Hnd.
  assert (msgs_of q ++ msgs_of fl1 ++ (p :: l) ++ msgs_of fl2 ≡ₚ
          p :: msgs_of q ++ l ++ msgs_of fl1 ++ msgs_of fl2) as Hperm by solve_Permutation.
  rewrite Hperm in Hnd. apply NoDup_cons in Hnd as [Hout _].
  assert (∀ x, x ≠ p → delete p (store s) !! x = store s !! x) as Hdel
    by (intros; by rewrite lookup_delete_ne).
  apply (inc_thread_inv _ _ q _ (Handling snd p nx) _ _ _ _ (snd, l)) with (1 := H); try done.
  - eapply mgr_inv_store; [apply H|]. intros x Hx. apply Hdel. set_solver.
  - assert (chain (delete p (store s)) nx l) as Hc'.
    { eapply chain_ext; [|exact Hc]. intros x Hx. apply Hdel. set_solver. }
    pose proof (chain_nonnull _ _ _ Hc'). subst t'. case_decide; simpl; naive_solver.
  - intros x Hx. rewrite msgs_of_app in Hx. apply Hdel. set_solver.
  - intros x [v Hv]. apply lookup_delete_Some in Hv as [Hne Hv]. split; [by eexists|].
    simpl. set_solver.
  - subst t'. case_decide; done.
Qed.

Lemma inc_thread_ok s q fl i t :
  inc_inv s q fl → threads s !! i = Some t →
  ∃ m' st' t' q' fl', handler_thread_step (mgr s) (store s) t = Some (m', st', t') ∧
    inc_inv (mkIncSys m' st' (<[i := t']> (threads s)) (arrived s) (handled s ++ completed t))
      q' fl' ∧
    (t ≠ Asleep → t ≠ Exited → t' = t → False) ∧ (t = Polling → q = [] ∨ t' ≠ Asleep ∧ t' ≠ Exited).
Proof.
  intros H Hi. apply list_elem_of_split_length in Hi as (ts1 & ts2 & Hts & ->).
  pose proof (ii_flight _ _ _ H) as HF. rewrite Hts in HF.
  apply Forall2_app_inv_l in HF as (fl1 & fl' & HF1 & HF & ->).
  apply Forall2_cons_inv_l in HF as (f & fl2 & Hf & HF2 & ->).
  pose proof (Forall2_length _ _ _ HF1) as Hlen. rewrite Hts.
  match goal with |- ?G => assert (∀ m' st' t' q' f', handler_thread_step (mgr s) (store s) t = Some (m', st', t') →
    inc_inv (mkIncSys m' st' (ts1 ++ t' :: ts2) (arrived s) (handled s ++ completed t))
      q' (fl1 ++ f' :: fl2) → (t ≠ Asleep → t ≠ Exited → t' = t → False) →
    (t = Polling → q = [] ∨ t' ≠ Asleep ∧ t' ≠ Exited) → G)
    as Hgo by (intros; do 5 eexists; rewrite insert_mid; split_all; eauto) end.
  pose proof (ii_mgr _ _ _ H) as Hmgr.
  destruct t as [| |snd p|snd p nx|]; simpl in Hf.
  - destruct q as [|[snd l] q].
    + destruct (shutdown_flag (mgr s)) eqn:Hfl;
        (eapply Hgo; [simpl; rewrite (get_messages_empty _ _ Hmgr), Hfl; reflexivity| |done|by left]);
        eapply (inc_thread_inv _ _ _ _ _ _ _ _ f f); try done; by same_dom.
    + destruct (get_messages_batch _ _ _ _ _ Hmgr) as (m' & p & E & Hp & Hc & Hl & Hm' & Hsd & Hn).
      eapply Hgo; [simpl; rewrite E; done| |simpl; by rewrite decide_False|
        intros _; right; rewrite decide_False by done; done].
      rewrite decide_False by done.
      eapply (inc_thread_inv _ _ _ _ _ _ _ _ f (snd, l)); try done; try same_dom.
      destruct f as [fs fm]; simpl in Hf. subst fm. done.
  - eapply Hgo; [done| |done|done].
    eapply (inc_thread_inv _ _ _ _ _ _ _ _ f f); try done; try same_dom.
    intros _. apply (ii_sleep _ _ _ H). rewrite Hts. set_solver.
  - destruct Hf as (Hs & Hne & Hc). destruct f as [fs [|y l]]; [done|]. simpl in Hs, Hc.
    destruct Hc as (<- & Hp & nx & E & Hc).
    eapply Hgo; [simpl; rewrite E; done| |done|done].
    eapply (inc_thread_inv _ _ _ _ _ _ _ _ _ (fs, p :: l)); try done; try same_dom.
    simpl. split_all; try done. by exists nx.
  - destruct Hf as (Hs & Hh & Hc & E). destruct f as [fs [|y l]]; [done|]. simpl in Hs, Hh, Hc.
    simplify_eq. destruct Hc as (_ & Hp & nx' & E' & Hc). rewrite E in E'. injection E' as <-.
    eapply Hgo; [simpl; rewrite E; rewrite assert_true by done; done| | |done].
    + by apply inc_thread_handled.
    + intros _ _. case_decide; congruence.
  - eapply Hgo; [done| |done|done].
    eapply (inc_thread_inv _ _ _ _ _ _ _ _ f f); try done; same_dom.
Qed.

Lemma inc_start_inv n count : 0 < n → inc_inv (inc_start n count) [] (replicate count (0, [])).
Proof.
  intros Hn. assert (msgs_of (replicate count (0, [])) = [] ∧
    tagged (replicate count (0, [])) = []) as [E1 E2].
  { clear. by induction count as [|c [IH1 IH2]]. }
  split; simpl; rewrite ?E1, ?E2; simpl.
  - by apply mgr_init_inv.
  - apply Forall2_replicate. done.
  - constructor.
  - intros x Hx. rewrite lookup_empty in Hx. by destruct Hx.
  - done.
  - done.
  - intros [? _]%elem_of_replicate. done.
Qed.

Lemma inc_step_inv s s' q fl :
  inc_inv s q fl → inc_step s s' → ∃ q' fl', inc_inv s' q' fl' ∧ nodes (mgr s') = nodes (mgr s).
Proof.
  intros H Hstep.
  assert (∀ m st sn ms m' st' bc, add_incoming_message m st sn ms = Some (m', st', bc) →
    nodes m' = nodes m) as Hadd.
  { unfold add_incoming_message. intros m st sn ms m' st' bc E. asserts.
    case_decide; asserts; by simplify_eq. }
  destruct Hstep as [s sn ms m' st' bc Hs Hm Hst E|s i t m' st' t' Hi E|s i Hi|s m' bc E]; simpl.
  - destruct (inc_arrive_ok _ _ _ _ _ H Hs Hm Hst) as (m2 & st2 & bc2 & q' & E2 & Hinv).
    rewrite E in E2. simplify_eq. exists q', fl. split; [done|]. by eapply Hadd.
  - destruct (inc_thread_ok _ _ _ _ _ H Hi) as (m2 & st2 & t2 & q' & fl' & E2 & Hinv & _).
    rewrite E in E2. simplify_eq. exists q', fl'. split; [done|].
    destruct t; simpl in E; asserts; simplify_eq; try done.
    destruct x; simplify_eq; try done. unfold get_messages in H0.
    destruct (ring_empty _); [by destruct (_ || _)|]. asserts.
    destruct x as [r x]. asserts. by simplify_eq.
  - exists q, fl. split; [|done]. destruct H as [Hmg Hf Hms Hd Hh Hff Hsl].
    split; simpl; try done.
    + apply list_elem_of_split_length in Hi as (t1 & t2 & E & ->). rewrite E in *.
      rewrite insert_mid. apply Forall2_app_inv_l in Hf as (f1 & f' & H1 & H2 & ->).
      apply Forall2_cons_inv_l in H2 as (f & f2 & Hff' & H2 & ->).
      apply Forall2_app; [done|]. by constructor.
    + by rewrite length_insert.
    + intros _. apply Hsl. by eapply list_elem_of_lookup_2.
  - exists q, fl. destruct H as [Hmg Hf Hms Hd Hh Hff Hsl]. unfold inc_shutdown in E.
    destruct (shutdown_flag (mgr s)) eqn:Hfl; simplify_eq; split; try done.
    + split; simpl; try done. by rewrite Hfl.
    + split; simpl; try done.
      * destruct Hmg as [Hr Hlh Hlt Hnd Hb Ho]. by split.
      * by apply wake_flights.
      * by rewrite length_fmap.
      * by intros ?%wake_no_sleep.
Qed.

Lemma inc_reachable_inv n count s :
  0 < n → rtc inc_step (inc_start n count) s → ∃ q fl, inc_inv s q fl ∧ nodes (mgr s) = n.
Proof.
  intros Hn. assert (∃ q fl, inc_inv (inc_start n count) q fl ∧
    nodes (mgr (inc_start n count)) = n) as H0 by (do 2 eexists; split; [by apply inc_start_inv|done]).
  intros Hr. revert H0. induction Hr as [|x y z Hs _ IH]; [done|].
  intros (q & fl & H & Hnn). apply IH.
  destruct (inc_step_inv _ _ _ _ H Hs) as (q' & fl' & H' & Hn'). exists q', fl'. split; [done|congruence].
Qed.

(** C40. However arrivals, handler threads, wake-ups and shutdown interleave,
    no operation of the manager fails an assertion or follows a pointer to a
    deleted message; every message that arrived is handled at most once and
    is never lost; and no thread sleeps while a message is waiting or after
    shutdown. *)
Theorem incoming_reachable_safe n count s :
  0 < n → rtc inc_step (inc_start n count) s →
  (∀ sender msg, 0 ≤ sender < n → msg ≠ 0 → store s !! msg = None →
     is_Some (add_incoming_message (mgr s) (<[msg := 0]> (store s)) sender msg)) ∧
  (∀ i t, threads s !! i = Some t →
     is_Some (handler_thread_step (mgr s) (store s) t)) ∧
  (∃ pending, arrived s ≡ₚ handled s ++ pending ∧ NoDup pending.*2 ∧
     ∀ x, is_Some (store s !! x) ↔ x ∈ pending.*2) ∧
  (Asleep ∈ threads s → ring_empty (todo (mgr s)) = true ∧ shutdown_flag (mgr s) = false).
Proof.
  intros Hn Hr. destruct (inc_reachable_inv _ _ _ Hn Hr) as (q & fl & H & Hnn). split_all.
  - intros sn ms Hs Hm Hst. rewrite <- Hnn in Hs.
    destruct (inc_arrive_ok _ _ _ _ _ H Hs Hm Hst) as (? & ? & ? & ? & -> & _). by eexists.
  - intros i t Hi. destruct (inc_thread_ok _ _ _ _ _ H Hi) as (? & ? & ? & ? & ? & -> & _).
    by eexists.
  - exists (tagged fl ++ tagged q). split; [apply H|].
    assert (∀ l, (tagged l).*2 = msgs_of l) as Hmt.
    { induction l as [|e l IH]; [done|]. rewrite tagged_cons, msgs_of_cons, fmap_app, IH.
      f_equal. unfold tag. rewrite <- list_fmap_compose. apply list_fmap_id. }
    rewrite fmap_app, !Hmt. split; [rewrite Permutation_app_comm; apply H|].
    intros x. split.
    + intros Hx. apply (ii_dom _ _ _ H) in Hx. set_solver.
    + intros Hx. apply (inc_live _ _ _ _ H). set_solver.
  - intros Hsl. destruct (ii_sleep _ _ _ H Hsl) as [-> Hfl]. split; [|done].
    by rewrite (ring_empty_repr _ _ _ (mi_ring _ _ _ (ii_mgr _ _ _ H))).
Qed.

(** With a single handler thread the messages of each sender are handled
    in the order they arrived. *)
Lemma incoming_fifo n s sender :
  0 < n → rtc inc_step (inc_start n 1) s →
  proj sender (handled s) `prefix_of` proj sender (arrived s).
Proof.
  intros Hn Hr. destruct (inc_reachable_inv _ _ _ Hn Hr) as (q & fl & H & _).
  assert (∀ s1 s2, rtc inc_step s1 s2 → length (threads s2) = length (threads s1)) as Hlen.
  { induction 1 as [|x y z Hs _ IH]; [done|]. rewrite IH.
    destruct Hs; simpl; rewrite ?length_insert; try destruct bc; by rewrite ?length_fmap. }
  pose proof (Hlen _ _ Hr) as Hl. simpl in Hl.
  rewrite (ii_fifo _ _ _ H) by lia. by eexists.
Qed.

(** Nothing is left behind: when every thread is asleep or gone and at
    least one is asleep, every message that arrived has been handled. *)
Lemma incoming_quiescent n count s :
  0 < n → rtc inc_step (inc_start n count) s → Asleep ∈ threads s →
  Forall (λ t, t = Asleep ∨ t = Exited) (threads s) → handled s ≡ₚ arrived s.
Proof.
  intros Hn Hr Hsl Hall. destruct (inc_reachable_inv _ _ _ Hn Hr) as (q & fl & H & _).
  destruct (ii_sleep _ _ _ H Hsl) as [-> _].
  assert (tagged fl = []) as E.
  { pose proof (ii_flight _ _ _ H) as Hf. clear Hsl H. revert Hall.
    induction Hf as [|t f ts fl Hf _ IH]; [done|]. intros [Ht Hall]%Forall_cons.
    rewrite tagged_cons, (IH Hall), app_nil_r. destruct f as [fs fm].
    destruct Ht as [-> | ->]; simpl in Hf; by subst fm. }
  rewrite (ii_hist _ _ _ H), E. simpl. by rewrite app_nil_r.
Qed.

(** A run with one thread: two messages from node 0 and one from node 1, all
    handled, and the thread asleep. *)
Definition example_inc : inc_sys :=
  mkIncSys (mkInc 2 false [0; 0] [0; 0] (mkRing [0; 1; 0] 2 2)) ∅ [Asleep]
    [(0, 10); (0, 11); (1, 12)] [(0, 10); (0, 11); (1, 12)].

(** A schedule: an arrival, or a step of a thread. *)
Definition inc_exec (s : inc_sys) (c : Z * Z + nat) : option inc_sys :=
  match c with
  | inl (sender, msg) =>
      assert! 0 ≤ sender < nodes (mgr s) ∧ msg ≠ 0 ∧ store s !! msg = None;
      '(m', st', bc) ← add_incoming_message (mgr s) (<[msg := 0]> (store s)) sender msg;
      Some (mkIncSys m' st' (if bc : bool then wake <$> threads s else threads s)
              (arrived s ++ [(sender, msg)]) (handled s))
  | inr i =>
      t ← threads s !! i;
      '(m', st', t') ← handler_thread_step (mgr s) (store s) t;
      Some (mkIncSys m' st' (<[i := t']> (threads s)) (arrived s) (handled s ++ completed t))
  end.

Lemma inc_exec_step s c s' : inc_exec s c = Some s' → inc_step s s'.
Proof.
  destruct c as [[sn ms]|i]; simpl; intros E.
  - apply assert_Some in E as [(? & ? & ?) E].
    destruct (add_incoming_message _ _ _ _) as [[[m' st'] bc]|] eqn:Ea; [|done].
    simplify_eq/=. by eapply inc_arrive.
  - destruct (threads s !! i) as [t|] eqn:Et; [|done]. simpl in E.
    destruct (handler_thread_step _ _ _) as [[[m' st'] t']|] eqn:Ea; [|done].
    simplify_eq/=. by eapply inc_thread.
Qed.

Lemma inc_exec_reachable cs : ∀ s s', foldl (λ o c, s ← o; inc_exec s c) (Some s) cs = Some s' →
  rtc inc_step s s'.
Proof.
  induction cs as [|c cs IH]; intros s s' E; simpl in E; [by simplify_eq|].
  destruct (inc_exec s c) as [s1|] eqn:E1.
  - eapply rtc_l; [by eapply inc_exec_step|]. by apply IH.
  - exfalso. clear -E. by induction cs.
Qed.

Lemma example_inc_reachable : rtc inc_step (inc_start 2 1) example_inc.
Proof.
  apply (inc_exec_reachable
    ((inl <$> [(0, 10); (0, 11); (1, 12)]) ++ replicate 9 (inr 0%nat) : list (Z * Z + nat))).
  vm_compute. reflexivity.
Qed.

Lemma incoming_reachable_safe_witness :
  (∀ sender msg, 0 ≤ sender < 2 → msg ≠ 0 → store example_inc !! msg = None →
     is_Some (add_incoming_message (mgr example_inc) (<[msg := 0]> (store example_inc)) sender msg)) ∧
  (∀ i t, threads example_inc !! i = Some t →
     is_Some (handler_thread_step (mgr example_inc) (store example_inc) t)) ∧
  (∃ pending, arrived example_inc ≡ₚ handled example_inc ++ pending ∧ NoDup pending.*2 ∧
     ∀ x, is_Some (store example_inc !! x) ↔ x ∈ pending.*2) ∧
  (Asleep ∈ threads example_inc →
   ring_empty (todo (mgr example_inc)) = true ∧ shutdown_flag (mgr example_inc) = false).
Proof. exact (incoming_reachable_safe 2 1 example_inc ltac:(lia) example_inc_reachable). Defined.

Lemma incoming_fifo_witness :
  proj 0 (handled example_inc) `prefix_of` proj 0 (arrived example_inc).
Proof. exact (incoming_fifo 2 example_inc 0 ltac:(lia) example_inc_reachable). Defined.

Lemma incoming_quiescent_witness : handled example_inc ≡ₚ arrived example_inc.
Proof.
  apply (incoming_quiescent 2 1 example_inc ltac:(lia) example_inc_reachable).
  - by left.
  - constructor; [by left|constructor].
Defined.
