(* ===== verification/Endpoint.v ===== *)
(** * Active-message endpoints

    [ActiveMessageEndpoint] of src/templates/activemsg.cc: the two outgoing
    queues of a peer, the long-message buffers (LMBs) shared with it, flow
    control by flips and acknowledgements, and the splitting and reassembly of
    long messages.  Messages are objects in a store, as the source-data pool
    and the queues refer to the same ones; calls into GASNet are recorded in
    order as packets. *)

From S2P Require Import Prelude StdMap Spans SrcDataPool Bytes Payload.

(** ** Configuration and packets *)

(** The tunables [num_lmbs] and [lmb_size], and the limits GASNet reports. *)
Record Config := mkConfig {
  num_lmbs : Z;
  lmb_size : Z;
  gasnet_AMMaxLongRequest : Z;
  gasnet_AMMaxMedium : Z }.

Inductive packet :=
| AMRequestShort (dest msgid : Z) (args : list Z)
| AMRequestMedium (dest msgid : Z) (src nbytes : Z) (args : list Z)
| AMRequestLongAsync (dest msgid : Z) (src nbytes dest_addr : Z) (args : list Z).

Definition MSGID_FLIP_REQ : Z := 254.
Definition MSGID_FLIP_ACK : Z := 255.
Definition MESSAGE_ID_MAGIC : Z := 0x0bad0bad.
Definition MESSAGE_CHUNKS_MAGIC : Z := 0x0a550a55.

Record ChunkInfo := mkChunk { base_ptr : Z; chunks : Z; chunk_total : Z }.

Record Endpoint := mkEp {
  peer : Z;
  out_short_hdrs : list Z;
  out_long_hdrs : list Z;
  cur_write_lmb : Z;
  cur_write_count : Z;
  cur_write_offset : Z;
  lmb_w_bases : list Z;
  lmb_r_bases : list Z;
  lmb_r_counts : list Z;
  lmb_w_avail : list bool;
  observed_messages : gmap Z ChunkInfo;
  next_outgoing_message_id : Z }.

(** The node around the endpoint: its memory and pool, the messages that
    exist, and the packets handed to GASNet so far. *)
Record Wire := mkWire {
  node : Node;
  msgs : gmap Z OutgoingMessage;
  sent : list packet }.

Definition set_queues (e : Endpoint) (sh lo : list Z) : Endpoint :=
  mkEp (peer e) sh lo (cur_write_lmb e) (cur_write_count e) (cur_write_offset e)
    (lmb_w_bases e) (lmb_r_bases e) (lmb_r_counts e) (lmb_w_avail e)
    (observed_messages e) (next_outgoing_message_id e).
Definition set_write (e : Endpoint) (lmb count offset : Z) (avail : list bool) : Endpoint :=
  mkEp (peer e) (out_short_hdrs e) (out_long_hdrs e) lmb count offset
    (lmb_w_bases e) (lmb_r_bases e) (lmb_r_counts e) avail
    (observed_messages e) (next_outgoing_message_id e).
Definition set_r_counts (e : Endpoint) (c : list Z) : Endpoint :=
  mkEp (peer e) (out_short_hdrs e) (out_long_hdrs e) (cur_write_lmb e) (cur_write_count e)
    (cur_write_offset e) (lmb_w_bases e) (lmb_r_bases e) c (lmb_w_avail e)
    (observed_messages e) (next_outgoing_message_id e).
Definition set_observed (e : Endpoint) (o : gmap Z ChunkInfo) : Endpoint :=
  mkEp (peer e) (out_short_hdrs e) (out_long_hdrs e) (cur_write_lmb e) (cur_write_count e)
    (cur_write_offset e) (lmb_w_bases e) (lmb_r_bases e) (lmb_r_counts e) (lmb_w_avail e)
    o (next_outgoing_message_id e).
Definition set_next_id (e : Endpoint) (i : Z) : Endpoint :=
  mkEp (peer e) (out_short_hdrs e) (out_long_hdrs e) (cur_write_lmb e) (cur_write_count e)
    (cur_write_offset e) (lmb_w_bases e) (lmb_r_bases e) (lmb_r_counts e) (lmb_w_avail e)
    (observed_messages e) i.

(** ** Construction

    [segs] is [segment_info]: address and size of every node's segment.  A
    buffer's number is computed in 32 bits: a [gasnet_node_t] is [unsigned] and
    [num_lmbs] an [int]. *)
Definition lmb_number (cfg : Config) (node i : Z) : Z := u32 (node * num_lmbs cfg + i + 1).

Definition lmb_w_base (cfg : Config) (segs : list (Z * Z)) (mynode peer i : Z) : option Z :=
  '(addr, size) ← aget segs peer;
  Some (addr + u64 (size - u64 (lmb_size cfg * lmb_number cfg mynode i))).

Definition lmb_r_base (cfg : Config) (segs : list (Z * Z)) (mynode peer i : Z) : option Z :=
  '(addr, _) ← aget segs mynode;
  '(_, size) ← aget segs peer;
  Some (addr + u64 (size - u64 (lmb_size cfg * lmb_number cfg peer i))).

Definition Endpoint_init (cfg : Config) (segs : list (Z * Z)) (mynode peer : Z)
    : option Endpoint :=
  wb ← mapM (lmb_w_base cfg segs mynode peer) (seqZ 0 (num_lmbs cfg));
  rb ← mapM (lmb_r_base cfg segs mynode peer) (seqZ 0 (num_lmbs cfg));
  Some (mkEp peer [] [] 0 0 0 wb rb
          (replicate (Z.to_nat (num_lmbs cfg)) 0)
          (replicate (Z.to_nat (num_lmbs cfg)) true) ∅ 0).

(** ** Sending *)

(** The switch over [num_args] in [send_short]. *)
Definition short_args_supported (n : Z) : bool :=
  bool_decide (n ∈ [1; 2; 3; 4; 5; 6; 8; 10; 12; 14; 16]).

Definition first_args (hdr : OutgoingMessage) : option (list Z) :=
  mapM (aget (args hdr)) (seqZ 0 (num_args hdr)).

Definition send_packet (w : Wire) (p : packet) : Wire :=
  mkWire (node w) (msgs w) (sent w ++ [p]).

Definition send_short (e : Endpoint) (w : Wire) (hdr : OutgoingMessage) : option Wire :=
  assert! short_args_supported (num_args hdr) = true;
  a ← first_args hdr;
  Some (send_packet w
    (if decide (payload_mode hdr ≠ PAYLOAD_NONE)
     then AMRequestMedium (peer e) (msgid hdr) (payload hdr) (payload_size hdr) a
     else AMRequestShort (peer e) (msgid hdr) a)).

(** Where the two magic words are; the header is preceded by at most one
    pointer. *)
Definition message_id_start (hdr : OutgoingMessage) : option Z :=
  a0 ← aget (args hdr) 0;
  if decide (a0 = MESSAGE_ID_MAGIC) then
    a1 ← aget (args hdr) 1;
    assert! a1 = MESSAGE_CHUNKS_MAGIC; Some 0
  else
    a2 ← aget (args hdr) 2;
    assert! a2 = MESSAGE_ID_MAGIC;
    a3 ← aget (args hdr) 3;
    assert! a3 = MESSAGE_CHUNKS_MAGIC; Some 2.

(** A pointer travels as two 32-bit handler arguments. *)
Definition srcptr_lo (p : Z) : Z := i32 (Z.land (u64 p) 0xFFFFFFFF).
Definition srcptr_hi (p : Z) : Z := i32 (Z.shiftr (u64 p) 32).

(** [release_srcptr_handler] puts the pointer together again. *)
Definition srcptr_of_args (arg0 arg1 : Z) : Z :=
  Z.lor (u64 (Z.shiftl (u32 arg1) 32)) (u32 arg0).

Definition num_chunks (cfg : Config) (size : Z) : Z :=
  i32 (u64 (size + gasnet_AMMaxLongRequest cfg - 1) `div` gasnet_AMMaxLongRequest cfg).

(** [args] is an array of 16 ints, of which [num_args] are sent. *)
Definition stamp_args (hdr : OutgoingMessage) (start id nchunks : Z) : list Z :=
  let a := aset (aset (args hdr) start id) (start + 1) nchunks in
  let '(lo, hi) := if decide (payload_mode hdr = PAYLOAD_SRCPTR)
                   then (srcptr_lo (payload hdr), srcptr_hi (payload hdr)) else (0, 0) in
  aset (aset a (start + 2) lo) (start + 3) hi.

Definition set_args (hdr : OutgoingMessage) (a : list Z) : OutgoingMessage :=
  mkMsg (msgid hdr) (num_args hdr) a (payload hdr) (payload_size hdr)
    (payload_mode hdr) (dstptr hdr) (payload_src hdr).

(** The loop over the chunks, from the last to the first: [k] chunks are left
    to send and [i] is [k - 1]. *)
Fixpoint send_chunks (cfg : Config) (e : Endpoint) (hdr : OutgoingMessage) (a : list Z)
    (dest_ptr nchunks : Z) (k : nat) : list packet :=
  match k with
  | O => []
  | S k' =>
      let i := Z.of_nat k' in
      let max := gasnet_AMMaxLongRequest cfg in
      let size := if decide (i < nchunks - 1) then max
                  else u64 (payload_size hdr - (nchunks - 1) * max) in
      AMRequestLongAsync (peer e) (msgid hdr) (payload hdr + i * max) size
        (dest_ptr + i * max) a :: send_chunks cfg e hdr a dest_ptr nchunks k'
  end.

Definition send_long (cfg : Config) (e : Endpoint) (w : Wire) (hdr : OutgoingMessage)
    (dest_ptr : Z) : option (Endpoint * Wire * OutgoingMessage) :=
  start ← message_id_start hdr;
  let nchunks := num_chunks cfg (payload_size hdr) in
  let hdr' := set_args hdr (stamp_args hdr start (next_outgoing_message_id e) nchunks) in
  let e' := set_next_id e (i32 (next_outgoing_message_id e + 1)) in
  if decide (nchunks ≤ 0) then Some (e', w, hdr') else
  assert! 2 ≤ num_args hdr ≤ 16;
  a ← first_args hdr';
  Some (e', mkWire (node w) (msgs w)
              (sent w ++ send_chunks cfg e hdr' a dest_ptr nchunks (Z.to_nat nchunks)), hdr').

(** "delete hdr" *)
Definition delete_msg (w : Wire) (p : Z) (hdr : OutgoingMessage) : option Wire :=
  n ← OutgoingMessage_fini hdr (node w);
  Some (mkWire n (delete p (msgs w)) (sent w)).

(** Keep the write offset aligned to 128 bytes. *)
Definition align128 (off : Z) : Z :=
  if decide (Z.land off 0x7f ≠ 0) then Z.shiftl (Z.shiftr off 7 + 1) 7 else off.

(** What to do with a message that goes through an LMB: wait for the buffer,
    write at a pointer, or flip the full buffer with its message count. *)
Inductive lmb_action :=
| LmbWait
| LmbWrite (dest_ptr : Z) (e : Endpoint)
| LmbFlip (flip_buffer flip_count : Z) (e : Endpoint).

Definition lmb_reserve (cfg : Config) (e : Endpoint) (size : Z) : option lmb_action :=
  avail ← aget (lmb_w_avail e) (cur_write_lmb e);
  if negb avail then Some LmbWait
  else
    assert! size ≤ lmb_size cfg;
    if decide (u64 (cur_write_offset e + size) ≤ lmb_size cfg) then
      base ← aget (lmb_w_bases e) (cur_write_lmb e);
      Some (LmbWrite (base + cur_write_offset e)
              (set_write e (cur_write_lmb e) (cur_write_count e + 1)
                 (align128 (u64 (cur_write_offset e + size))) (lmb_w_avail e)))
    else
      Some (LmbFlip (cur_write_lmb e) (cur_write_count e)
              (set_write e ((cur_write_lmb e + 1) `mod` num_lmbs cfg) 0 0
                 (aset (lmb_w_avail e) (cur_write_lmb e) false))).

(** One round of the loop of [push_messages] with the mutex acquired:
    a message was sent (with the new [still_more]), a buffer was flipped, or
    nothing can be done. *)
Inductive push_result :=
| Pushed (still_more : bool)
| Flipped
| Stuck.

Definition more_queued (e : Endpoint) : bool :=
  negb (bool_decide (out_short_hdrs e = [] ∧ out_long_hdrs e = [])).

Definition push_long (cfg : Config) (e : Endpoint) (w : Wire) (p : Z) (rest : list Z)
    (hdr : OutgoingMessage) : option (Endpoint * Wire * push_result) :=
  if decide (payload_size hdr = 0) then
    let e := set_queues e (out_short_hdrs e) rest in
    w ← send_short e w hdr;
    w ← delete_msg w p hdr;
    Some (e, w, Pushed (more_queued e))
  else if decide (payload_mode hdr = PAYLOAD_PENDING) then Some (e, w, Stuck)
  else if decide (dstptr hdr ≠ 0) then
    let e := set_queues e (out_short_hdrs e) rest in
    '(e', w, hdr) ← send_long cfg e w hdr (dstptr hdr);
    w ← delete_msg w p hdr;
    Some (e', w, Pushed (more_queued e))
  else
    act ← lmb_reserve cfg e (payload_size hdr);
    match act with
    | LmbWait => Some (e, w, Stuck)
    | LmbWrite dest_ptr e =>
        let e := set_queues e (out_short_hdrs e) rest in
        '(e', w, hdr) ← send_long cfg e w hdr dest_ptr;
        w ← delete_msg w p hdr;
        Some (e', w, Pushed (more_queued e))
    | LmbFlip flip_buffer flip_count e =>
        Some (e, send_packet w (AMRequestShort (peer e) MSGID_FLIP_REQ [flip_buffer; flip_count]),
              Flipped)
    end.

Definition push_iter (cfg : Config) (e : Endpoint) (w : Wire)
    : option (Endpoint * Wire * push_result) :=
  match out_short_hdrs e, out_long_hdrs e with
  | p :: rest, _ =>
      let e := set_queues e rest (out_long_hdrs e) in
      hdr ← msgs w !! p;
      w ← send_short e w hdr;
      w ← delete_msg w p hdr;
      Some (e, w, Pushed (more_queued e))
  | [], p :: rest =>
      hdr ← msgs w !! p;
      push_long cfg e w p rest hdr
  | [], [] => Some (e, w, Stuck)
  end.

(** The loop: [locks i] says whether round [i] gets the mutex.  With [wait]
    the thread sleeps before the [Stuck] of empty queues and then leaves the
    loop in the same way.  The result is [still_more]. *)
Fixpoint push_loop (fuel : nat) (cfg : Config) (locks : nat → bool) (i : nat)
    (max_to_send count : Z) (still_more : bool) (e : Endpoint) (w : Wire)
    : option (Endpoint * Wire * bool) :=
  match fuel with
  | O => None
  | S fuel =>
      if still_more && bool_decide (max_to_send = 0 ∨ count < max_to_send) then
        if negb (locks i) then Some (e, w, still_more)
        else
          '(e, w, r) ← push_iter cfg e w;
          match r with
          | Pushed more => push_loop fuel cfg locks (S i) max_to_send (count + 1) more e w
          | Flipped => push_loop fuel cfg locks (S i) max_to_send count still_more e w
          | Stuck => Some (e, w, still_more)
          end
      else Some (e, w, still_more)
  end.

Definition ep_push_messages (fuel : nat) (cfg : Config) (locks : nat → bool) (max_to_send : Z)
    (e : Endpoint) (w : Wire) : option (Endpoint * Wire * bool) :=
  push_loop fuel cfg locks 0 max_to_send 0 true e w.

(** ** Queueing *)

(** The spill reservation, once it is granted ([alloc_spill_memory] is retried
    until it is). *)
Definition reserve_spill (lim : spill_limits) (always : bool) (hdr : OutgoingMessage) (n : Node)
    : option Node :=
  if decide (payload_size hdr > 0 ∧
             (payload_mode hdr = PAYLOAD_COPY ∨ payload_mode hdr = PAYLOAD_FREE)) then
    p ← srcdatapool n;
    r ← alloc_spill_memory lim always (spill p) (payload_size hdr) (msgid hdr) true;
    match r with
    | SpillGranted sp => Some (set_pool n (set_spill p sp))
    | SpillSuspended _ => None
    end
  else Some n.

(** The rest of [enqueue_message], under the endpoint's mutex; the result says
    whether both queues were empty before. *)
Definition ep_enqueue_message (cfg : Config) (copy_ptr : Z) (e : Endpoint) (w : Wire) (p : Z)
    (in_order : bool) : option (Endpoint * Wire * bool) :=
  hdr ← msgs w !! p;
  '(hdr, n) ← reserve_srcdata p copy_ptr hdr (node w);
  let was_empty := negb (more_queued e) in
  let w := mkWire n (<[p := hdr]> (msgs w)) (sent w) in
  Some (if decide (in_order = false ∧ payload_size hdr ≤ gasnet_AMMaxMedium cfg)
        then set_queues e (out_short_hdrs e ++ [p]) (out_long_hdrs e)
        else set_queues e (out_short_hdrs e) (out_long_hdrs e ++ [p]),
        w, was_empty).

(** ** Receiving *)

(** The index of the LMB that holds [ptr]: the first whose range does. *)
Fixpoint find_r_buffer (cfg : Config) (bases : list Z) (i ptr : Z) : Z :=
  match bases with
  | [] => -1
  | b :: bases =>
      if decide (b ≤ ptr ∧ ptr < b + lmb_size cfg) then i
      else find_r_buffer cfg bases (i + 1) ptr
  end.

(** Queue an acknowledgement for [buffer] as a short message at the fresh
    address [ack]; the result says whether both queues were empty. *)
Definition push_flip_ack (e : Endpoint) (w : Wire) (ack buffer : Z)
    : option (Endpoint * Wire * bool) :=
  hdr ← OutgoingMessage_init MSGID_FLIP_ACK 1 [buffer];
  Some (set_queues e (out_short_hdrs e ++ [ack]) (out_long_hdrs e),
        mkWire (node w) (<[ack := hdr]> (msgs w)) (sent w), negb (more_queued e)).

(** The counter updates: [Some buffer] when the flip is to be acknowledged. *)
Definition count_received (e : Endpoint) (r_buffer : Z) : option (Endpoint * option Z) :=
  c ← aget (lmb_r_counts e) r_buffer;
  let c := i32 (c + 1) in
  Some (set_r_counts e (aset (lmb_r_counts e) r_buffer c),
        if decide (c = 0) then Some r_buffer else None).

Definition count_flipped (e : Endpoint) (buffer count : Z) : option (Endpoint * option Z) :=
  c ← aget (lmb_r_counts e) buffer;
  let c := i32 (c - count) in
  Some (set_r_counts e (aset (lmb_r_counts e) buffer c),
        if decide (c = 0) then Some buffer else None).

Definition after_count (r : Endpoint * option Z) (w : Wire) (ack : Z)
    : option (Endpoint * Wire * bool) :=
  match r with
  | (e, Some buffer) => push_flip_ack e w ack buffer
  | (e, None) => Some (e, w, false)
  end.

Definition handle_long_msgptr (cfg : Config) (e : Endpoint) (w : Wire) (ack ptr : Z)
    : option (Endpoint * Wire * bool) :=
  let r_buffer := find_r_buffer cfg (take (Z.to_nat (num_lmbs cfg)) (lmb_r_bases e)) 0 ptr in
  if decide (r_buffer < 0) then Some (e, w, false)
  else r ← count_received e r_buffer; after_count r w ack.

Definition handle_flip_request (e : Endpoint) (w : Wire) (ack buffer count : Z)
    : option (Endpoint * Wire * bool) :=
  r ← count_flipped e buffer count; after_count r w ack.

Definition handle_flip_ack (e : Endpoint) (buffer : Z) : option Endpoint :=
  assert! 0 ≤ buffer < zlen (lmb_w_avail e);
  Some (set_write e (cur_write_lmb e) (cur_write_count e) (cur_write_offset e)
          (aset (lmb_w_avail e) buffer true)).

(** The results are the pointer and size to hand to the message, and whether
    it is complete. *)
Definition adjust_long_msgsize (e : Endpoint) (ptr buffer_size message_id nchunks : Z)
    : Endpoint * Z * Z * bool :=
  if decide (nchunks = 1) then (e, ptr, buffer_size, true)
  else
    match observed_messages e !! message_id with
    | None =>
        (set_observed e (<[message_id := mkChunk ptr 1 buffer_size]> (observed_messages e)),
         ptr, buffer_size, false)
    | Some c =>
        let c := mkChunk (if decide (ptr < base_ptr c) then ptr else base_ptr c)
                   (chunks c + 1) (u64 (chunk_total c + buffer_size)) in
        if decide (chunks c = nchunks) then
          (set_observed e (delete message_id (observed_messages e)),
           base_ptr c, chunk_total c, true)
        else
          (set_observed e (<[message_id := c]> (observed_messages e)), ptr, buffer_size, false)
    end.

(** ** Pointers as handler arguments *)

Lemma land_mask32 a : Z.land a 0xFFFFFFFF = a `mod` 2 ^ 32.
Proof. change 0xFFFFFFFF with (Z.ones 32). by apply Z.land_ones. Qed.

Lemma u32_i32 a : u32 (i32 a) = a `mod` 2 ^ 32.
Proof.
  unfold u32, i32. rewrite Zminus_mod, Z.mod_mod by lia.
  rewrite <- Zminus_mod. f_equal. lia.
Qed.

(** The source pointer of a message survives the trip as two 32-bit
    handler arguments and back. *)
Theorem srcptr_roundtrip p :
  is_u64 p → srcptr_of_args (srcptr_lo p) (srcptr_hi p) = p.
Proof.
  intros Hp. unfold srcptr_of_args, srcptr_lo, srcptr_hi. rewrite (u64_id p Hp).
  rewrite !u32_i32, land_mask32, Z.mod_mod by lia.
  assert (0 ≤ Z.shiftr p 32 < 2 ^ 32) as Hh.
  { rewrite Z.shiftr_div_pow2 by lia. unfold is_u64 in Hp.
    split; [apply Z.div_pos; lia|]. apply Z.div_lt_upper_bound; lia. }
  rewrite (Z.mod_small (Z.shiftr p 32)) by done.
  rewrite u64_id.
  - rewrite Z.shiftl_mul_pow2, Z.shiftr_div_pow2 by lia.
    rewrite <- land_mask32. apply Z.bits_inj'. intros n Hn. rewrite Z.lor_spec, Z.land_spec.
    change 0xFFFFFFFF with (Z.ones 32). rewrite Z.testbit_ones_nonneg by lia.
    rewrite <- Z.shiftl_mul_pow2, <- Z.shiftr_div_pow2 by lia. rewrite Z.shiftl_spec by lia.
    destruct (Z.ltb_spec n 32).
    + rewrite (Z.testbit_neg_r _ (n - 32)) by lia. by rewrite andb_true_r.
    + rewrite andb_false_r, orb_false_r, Z.shiftr_spec by lia. f_equal. lia.
  - rewrite Z.shiftl_mul_pow2 by lia. unfold is_u64. lia.
Qed.

Lemma srcptr_roundtrip_witness :
  srcptr_of_args (srcptr_lo 0x7f12deadbeef40) (srcptr_hi 0x7f12deadbeef40) = 0x7f12deadbeef40.
Proof. apply (srcptr_roundtrip 0x7f12deadbeef40). unfold is_u64. lia. Defined.

(** ** Chunks of a long message *)

Definition chunk_size (cfg : Config) (size nchunks i : Z) : Z :=
  if decide (i < nchunks - 1) then gasnet_AMMaxLongRequest cfg
  else u64 (size - (nchunks - 1) * gasnet_AMMaxLongRequest cfg).

Lemma num_chunks_spec cfg size :
  0 < gasnet_AMMaxLongRequest cfg < 2 ^ 32 → 0 < size < 2 ^ 31 →
  let n := num_chunks cfg size in
  0 < n < 2 ^ 31 ∧ (n - 1) * gasnet_AMMaxLongRequest cfg < size ≤ n * gasnet_AMMaxLongRequest cfg.
Proof.
  intros Hm Hs. unfold num_chunks. set (m := gasnet_AMMaxLongRequest cfg) in *.
  rewrite u64_id by (unfold is_u64; lia).
  set (q := (size + m - 1) `div` m).
  pose proof (Z.div_mod (size + m - 1) m ltac:(lia)) as E.
  pose proof (Z.mod_pos_bound (size + m - 1) m ltac:(lia)) as Hr. fold q in E.
  assert (0 < q ≤ size) as Hq by (split; nia).
  rewrite i32_id by (unfold is_i32; lia). simpl. split; [lia|]. nia.
Qed.

Lemma send_chunks_eq cfg e hdr a d n k :
  send_chunks cfg e hdr a d n k =
  (λ i, AMRequestLongAsync (peer e) (msgid hdr)
          (payload hdr + i * gasnet_AMMaxLongRequest cfg) (chunk_size cfg (payload_size hdr) n i)
          (d + i * gasnet_AMMaxLongRequest cfg) a) <$> reverse (seqZ 0 (Z.of_nat k)).
Proof.
  induction k as [|k IH]; [done|]. rewrite seqZ_S, reverse_snoc, Z.add_0_l.
  rewrite fmap_cons. simpl. by rewrite IH.
Qed.

Lemma Zsum_fmap_one {A} (f : A → Z) a : Zsum (f <$> [a]) = f a.
Proof. unfold Zsum. simpl. lia. Qed.

Lemma chunk_sizes_sum cfg size n :
  let m := gasnet_AMMaxLongRequest cfg in
  0 < n → 0 < m → (n - 1) * m < size ≤ n * m → size < 2 ^ 64 →
  Zsum (chunk_size cfg size n <$> seqZ 0 n) = size ∧
  ∀ i, 0 ≤ i < n → 0 < chunk_size cfg size n i ≤ m ∧
    i * m + chunk_size cfg size n i ≤ size ∧
    (i < n - 1 → chunk_size cfg size n i = m) ∧
    (i = n - 1 → i * m + chunk_size cfg size n i = size).
Proof.
  intros m Hn Hm Hs Hlt.
  assert (∀ i, 0 ≤ i < n → 0 < chunk_size cfg size n i ≤ m ∧
    i * m + chunk_size cfg size n i ≤ size ∧
    (i < n - 1 → chunk_size cfg size n i = m) ∧
    (i = n - 1 → i * m + chunk_size cfg size n i = size)) as Hall.
  { intros i Hi. unfold chunk_size. fold m. case_decide.
    - split_all; try lia. nia.
    - assert (i = n - 1) as -> by lia. rewrite u64_id by (unfold is_u64; nia).
      split_all; lia. }
  split; [|done].
  assert (∀ k : nat, Z.of_nat k ≤ n - 1 →
    Zsum (chunk_size cfg size n <$> seqZ 0 (Z.of_nat k)) = Z.of_nat k * m) as Hk.
  { induction k as [|k IH]; intros Hle; [done|].
    rewrite seqZ_S, Z.add_0_l, fmap_app, Zsum_app, IH, Zsum_fmap_one by lia.
    destruct (Hall (Z.of_nat k) ltac:(lia)) as (_ & _ & -> & _); [|lia]. lia. }
  replace n with (Z.of_nat (S (Z.to_nat (n - 1)))) at 2 by lia.
  rewrite seqZ_S, Z.add_0_l, fmap_app, Zsum_app, Hk, Zsum_fmap_one by lia.
  rewrite Z2Nat.id by lia.
  destruct (Hall (n - 1) ltac:(lia)) as (_ & _ & _ & Hlast). specialize (Hlast eq_refl). lia.
Qed.

(** ** Reassembly *)

(** A chunk as the medium handler sees it: pointer, size, message id, number
    of chunks.  [deliver] feeds chunks to [adjust_long_msgsize] as they arrive
    and lists the messages completed. *)
Record arrival := mkArr { ar_ptr : Z; ar_size : Z; ar_id : Z; ar_chunks : Z }.

Definition deliver_one (e : Endpoint) (a : arrival) : Endpoint * list (Z * Z * Z) :=
  let '(e, ptr, size, ready) :=
    adjust_long_msgsize e (ar_ptr a) (ar_size a) (ar_id a) (ar_chunks a) in
  (e, if ready : bool then [(ar_id a, ptr, size)] else []).

Fixpoint deliver (e : Endpoint) (l : list arrival) : Endpoint * list (Z * Z * Z) :=
  match l with
  | [] => (e, [])
  | a :: l =>
      let '(e, done) := deliver_one e a in
      let '(e, more) := deliver e l in (e, done ++ more)
  end.

(** The packets of a long message as arrivals: the handler reads the id and
    the number of chunks from the first two arguments. *)
Definition arrival_of (p : packet) : option arrival :=
  match p with
  | AMRequestLongAsync _ _ _ nbytes dest_addr a =>
      id ← aget a 0; n ← aget a 1; Some (mkArr dest_addr nbytes id n)
  | _ => None
  end.

(** Delivery of one message id does not depend on the others. *)
Lemma deliver_one_other e a id :
  ar_id a ≠ id →
  observed_messages (deliver_one e a).1 !! id = observed_messages e !! id ∧
  filter (λ d, d.1.1 = id) (deliver_one e a).2 = [].
Proof.
  intros Hne. unfold deliver_one, adjust_long_msgsize.
  assert (∀ x : Z * Z, filter (λ d : Z * Z * Z, d.1.1 = id) [(ar_id a, x.1, x.2)] = []) as Hf.
  { intros x. rewrite filter_cons_False; [done|]. simpl. done. }
  repeat (case_decide || case_match); simplify_eq/=; split; try done;
    rewrite ?lookup_insert_ne, ?lookup_delete_ne by done; try done.
  all: try apply (Hf (_, _)).
Qed.

(** The slot of the message being assembled. *)
Definition slot_covers (c : ChunkInfo) (l : list arrival) : Prop :=
  chunks c = zlen l ∧ chunk_total c = Zsum (ar_size <$> l) ∧
  base_ptr c ∈ ar_ptr <$> l ∧ Forall (λ a, base_ptr c ≤ ar_ptr a) l.

Lemma slot_covers_snoc c l a :
  slot_covers c l → is_u64 (chunk_total c + ar_size a) →
  slot_covers (mkChunk (if decide (ar_ptr a < base_ptr c) then ar_ptr a else base_ptr c)
    (chunks c + 1) (u64 (chunk_total c + ar_size a))) (l ++ [a]).
Proof.
  intros (Hc & Ht & Hin & Hall) Hu. unfold slot_covers. simpl. split_all.
  - rewrite Hc. unfold zlen. rewrite length_app. simpl. lia.
  - rewrite u64_id by done. rewrite Ht, fmap_app, Zsum_app, Zsum_fmap_one. done.
  - rewrite fmap_app. case_decide; set_solver.
  - apply Forall_app. split; [|apply Forall_singleton; case_decide; lia].
    eapply Forall_impl; [exact Hall|]. intros x Hx. simpl in *. case_decide; lia.
Qed.

(** No chunk of a message, no effect on it. *)
Lemma deliver_silent id arr : ∀ e,
  filter (λ a, ar_id a = id) arr = [] → observed_messages e !! id = None →
  filter (λ d, d.1.1 = id) (deliver e arr).2 = [] ∧
  observed_messages (deliver e arr).1 !! id = None.
Proof.
  induction arr as [|a arr IH]; intros e Hf Ho; [done|].
  rewrite filter_cons in Hf. case_decide as Ha; [done|].
  destruct (deliver_one_other e a id Ha) as [Ho' Hd]. simpl.
  destruct (deliver_one e a) as [e1 d1]. simpl in *.
  destruct (IH e1 Hf) as [Hd2 Ho2]; [congruence|].
  destruct (deliver e1 arr) as [e2 d2]. simpl in *. by rewrite filter_app, Hd, Hd2.
Qed.

(** A message of one chunk needs no assembling. *)
Lemma deliver_single id b arr : ∀ e,
  filter (λ a, ar_id a = id) arr = [b] → ar_chunks b = 1 → observed_messages e !! id = None →
  filter (λ d, d.1.1 = id) (deliver e arr).2 = [(id, ar_ptr b, ar_size b)] ∧
  observed_messages (deliver e arr).1 !! id = None.
Proof.
  induction arr as [|a arr IH]; intros e Hf Hb Ho; [done|].
  rewrite filter_cons in Hf. case_decide as Ha.
  - injection Hf as -> Hf. destruct (deliver_silent id arr e Hf Ho) as [Hd Ho'].
    simpl. unfold deliver_one, adjust_long_msgsize. rewrite decide_True by done.
    destruct (deliver e arr) as [e2 d2]. simpl in *.
    rewrite filter_cons_True by done. by rewrite Hd, Ha.
  - destruct (deliver_one_other e a id Ha) as [Ho' Hd]. simpl.
    destruct (deliver_one e a) as [e1 d1]. simpl in *.
    destruct (IH e1 Hf Hb) as [Hd2 Ho2]; [congruence|].
    destruct (deliver e1 arr) as [e2 d2]. simpl in *. by rewrite filter_app, Hd, Hd2.
Qed.

(** One more chunk of a message of [n] chunks: the message is complete with the
    last one, and in the slot until then. *)
Lemma deliver_one_chunk e a l1 n :
  match observed_messages e !! ar_id a with
  | None => l1 = []
  | Some c => l1 ≠ [] ∧ slot_covers c l1
  end →
  n ≠ 1 → ar_chunks a = n → 0 ≤ Zsum (ar_size <$> l1 ++ [a]) < 2 ^ 64 →
  ∃ c, slot_covers c (l1 ++ [a]) ∧
    deliver_one e a =
      if decide (zlen (l1 ++ [a]) = n)
      then (set_observed e (delete (ar_id a) (observed_messages e)),
            [(ar_id a, base_ptr c, chunk_total c)])
      else (set_observed e (<[ar_id a := c]> (observed_messages e)), []).
Proof.
  intros Hslot Hn Hac Hsum. unfold deliver_one, adjust_long_msgsize. rewrite Hac.
  rewrite decide_False by done. rewrite fmap_app, Zsum_app, Zsum_fmap_one in Hsum.
  destruct (observed_messages e !! ar_id a) as [c|].
  - destruct Hslot as [_ Hc]. pose proof Hc as (_ & Hct & _).
    pose proof (slot_covers_snoc c l1 a Hc ltac:(unfold is_u64; lia)) as Hc'.
    cbv zeta. set (c' := mkChunk _ _ _) in *. clearbody c'. exists c'. split; [done|].
    destruct Hc' as (<- & _). by case_decide.
  - subst l1. exists (mkChunk (ar_ptr a) 1 (ar_size a)). split.
    + unfold slot_covers. simpl. split_all; [done|unfold Zsum; simpl; lia|set_solver|by repeat constructor].
    + rewrite decide_False; [done|]. unfold zlen. simpl. lia.
Qed.

(** Feeding the chunks still missing completes the message at the last one. *)
Lemma deliver_rest id n l2 : ∀ e l1 arr,
  n ≠ 1 → filter (λ a, ar_id a = id) arr = l2 → l2 ≠ [] → zlen l1 + zlen l2 = n →
  Forall (λ a, ar_chunks a = n ∧ 0 ≤ ar_size a) (l1 ++ l2) →
  Zsum (ar_size <$> l1 ++ l2) < 2 ^ 64 →
  match observed_messages e !! id with
  | None => l1 = []
  | Some c => l1 ≠ [] ∧ slot_covers c l1
  end →
  ∃ base, filter (λ d, d.1.1 = id) (deliver e arr).2 =
      [(id, base, Zsum (ar_size <$> l1 ++ l2))] ∧
    base ∈ ar_ptr <$> l1 ++ l2 ∧ Forall (λ a, base ≤ ar_ptr a) (l1 ++ l2) ∧
    observed_messages (deliver e arr).1 !! id = None.
Proof.
  intros e l1 arr. revert e l1 l2.
  induction arr as [|a arr IH]; intros e l1 l2 Hn Hf Hne Hlen Hall Hsum Hslot.
  { by simpl in Hf; subst. }
  rewrite filter_cons in Hf. simpl. case_decide as Ha.
  - subst l2 id. set (l2 := filter (λ a0, ar_id a0 = ar_id a) arr) in *.
    assert (l1 ++ a :: l2 = (l1 ++ [a]) ++ l2) as Eapp by by rewrite <- (assoc_L (++)).
    assert (zlen (l1 ++ [a]) + zlen l2 = n) as Hlen'.
    { revert Hlen. unfold zlen. rewrite length_app. simpl. lia. }
    rewrite Eapp in *. clear Hlen Eapp.
    assert (∀ k, Forall (λ a, ar_chunks a = n ∧ 0 ≤ ar_size a) k → 0 ≤ Zsum (ar_size <$> k)) as Hpos.
    { intros k Hk. apply Zsum_nonneg, Forall_fmap. eapply Forall_impl; [exact Hk|]. by intros x [_ ?]. }
    pose proof Hall as [Hall1 Hall2]%Forall_app. pose proof (Hpos _ Hall1). pose proof (Hpos _ Hall2).
    pose proof Hsum as Hsum'. rewrite fmap_app, Zsum_app in Hsum'.
    destruct (deliver_one_chunk e a l1 n Hslot Hn) as (c & Hc & ->);
      [rewrite Forall_forall in Hall1; apply Hall1; set_solver|lia|].
    case_decide as Hlast.
    + assert (l2 = []) as El2 by (apply length_zero_iff_nil; unfold zlen in *; lia).
      destruct (deliver_silent (ar_id a) arr (set_observed e (delete (ar_id a) (observed_messages e))))
        as [Hd Ho]; [done|by apply lookup_delete_eq|].
      destruct (deliver _ arr) as [e2 d2]. simpl in *. exists (base_ptr c).
      rewrite filter_cons_True by done. rewrite Hd, El2, app_nil_r.
      destruct Hc as (_ & Ht & Hin & Hb). by rewrite Ht.
    + destruct (IH (set_observed e (<[ar_id a:=c]> (observed_messages e))) (l1 ++ [a]) l2)
        as (base & Hd & Hr); try done.
      { intros ->. unfold zlen in *. simpl in *. lia. }
      { simpl. rewrite lookup_insert_eq. split; [by destruct l1|done]. }
      destruct (deliver _ arr) as [e2 d2]. simpl in *. by exists base.
  - destruct (deliver_one_other e a id Ha) as [Ho Hd].
    destruct (deliver_one e a) as [e1 d1]. simpl in *.
    destruct (IH e1 l1 l2) as (base & Hd2 & Hr); try done; [by rewrite Ho|].
    destruct (deliver e1 arr) as [e2 d2]. simpl in *. exists base. by rewrite filter_app, Hd.
Qed.

(** ** A long message on the wire *)

(** GASNet's effect of a long request: the bytes arrive at the destination
    address before the handler runs. *)
Definition apply_long (src dst : mem) (p : packet) : mem :=
  match p with
  | AMRequestLongAsync _ _ s n d _ => write_bytes dst d (read_bytes src s n)
  | _ => dst
  end.

Definition packet_covers (p : packet) (x : Z) : Prop :=
  match p with AMRequestLongAsync _ _ _ n d _ => d ≤ x < d + n | _ => False end.

(** Every packet carries the payload at a common offset. *)
Definition packet_shift (payload dest : Z) (p : packet) : Prop :=
  match p with
  | AMRequestLongAsync _ _ s n d _ => s - payload = d - dest ∧ 0 ≤ n
  | _ => False
  end.

Lemma apply_longs_covered smem payload dest ps : ∀ m x p,
  Forall (packet_shift payload dest) ps → p ∈ ps → packet_covers p x →
  foldl (apply_long smem) m ps x = smem (payload + (x - dest)).
Proof.
  induction ps as [|q ps IH] using rev_ind; intros m x p Hall Hin Hx.
  { by apply elem_of_nil in Hin. }
  apply Forall_app in Hall as [Hall [Hq _]%Forall_cons].
  rewrite foldl_snoc. destruct q as [| |? ? sp n d ?]; try done. destruct Hq as [Hsh Hn]. simpl.
  destruct (decide (d ≤ x < d + n)) as [Hc|Hc].
  - apply write_bytes_in. rewrite read_bytes_lookup by lia. do 2 f_equal; lia.
  - rewrite write_bytes_out by (rewrite read_bytes_zlen by done; lia).
    apply elem_of_app in Hin as [Hin|Hin]; [by eapply IH|].
    apply list_elem_of_singleton in Hin. subst. done.
Qed.

Lemma mapM_aget (l : list Z) n a j :
  mapM (aget l) (seqZ 0 n) = Some a → 0 ≤ j < n → aget a j = aget l j.
Proof.
  intros Hm%mapM_Some Hj.
  destruct (Forall2_lookup_l _ _ _ (Z.to_nat j) j Hm) as (y & Hy & E).
  { rewrite lookup_seqZ_lt by lia. f_equal. lia. }
  unfold aget at 1. rewrite decide_True by lia. congruence.
Qed.

(** The chunk packets, last chunk first, with arguments [a]. *)
Definition long_packets (cfg : Config) (e : Endpoint) (hdr : OutgoingMessage) (dest : Z)
    (a : list Z) (n : Z) : list packet :=
  (λ i, AMRequestLongAsync (peer e) (msgid hdr)
      (payload hdr + i * gasnet_AMMaxLongRequest cfg) (chunk_size cfg (payload_size hdr) n i)
      (dest + i * gasnet_AMMaxLongRequest cfg) a) <$> reverse (seqZ 0 n).

(** What [send_long] puts on the wire for a message with its header first. *)
Lemma send_long_packets cfg e w hdr dest e' w' hdr' :
  0 < gasnet_AMMaxLongRequest cfg < 2 ^ 32 → 0 < payload_size hdr < 2 ^ 31 →
  aget (args hdr) 0 = Some MESSAGE_ID_MAGIC →
  send_long cfg e w hdr dest = Some (e', w', hdr') →
  let n := num_chunks cfg (payload_size hdr) in
  ∃ a, aget a 0 = Some (next_outgoing_message_id e) ∧ aget a 1 = Some n ∧
    sent w' = sent w ++ long_packets cfg e hdr dest a n ∧
    first_args (set_args hdr (stamp_args hdr 0 (next_outgoing_message_id e) n)) = Some a.
Proof.
  intros Hm Hs Ha0 E n. destruct (num_chunks_spec cfg _ Hm Hs) as [Hn _]. fold n in Hn.
  unfold send_long, message_id_start in E. rewrite Ha0 in E. simpl in E.
  destruct (aget (args hdr) 1) as [a1|] eqn:Ha1; [|done]. simpl in E. fold n in E.
  destruct (decide (a1 = MESSAGE_CHUNKS_MAGIC)) as [->|Hne];
    [|unfold assert_ in E; by rewrite decide_False in E].
  rewrite assert_true in E by done. simpl in E. rewrite decide_False in E by lia.
  apply assert_Some in E as [Hargs E].
  destruct (first_args _) as [a|] eqn:Efa; [|done]. simplify_eq/=.
  exists a. pose proof Efa as Efa'. unfold first_args in Efa'. simpl in Efa'.
  rewrite !(mapM_aget _ _ _ _ Efa') by lia. clear Efa'. unfold stamp_args in *.
  destruct (if decide _ then _ else _) as [lo hi].
  pose proof (aget_Some_range _ _ _ Ha0). pose proof (aget_Some_range _ _ _ Ha1).
  rewrite !Z.add_0_l. split_all.
  - rewrite !aget_aset_ne by lia. by apply aget_aset_eq.
  - rewrite !aget_aset_ne by lia. apply aget_aset_eq. unfold zlen. by rewrite aset_length.
  - rewrite send_chunks_eq. rewrite Z2Nat.id by lia. done.
  - done.
Qed.

(** The receiver completes the message exactly once, at its last chunk. *)
Lemma long_packets_delivered cfg e hdr dest a id r traffic :
  let n := num_chunks cfg (payload_size hdr) in
  0 < gasnet_AMMaxLongRequest cfg < 2 ^ 32 → 0 < payload_size hdr < 2 ^ 31 →
  aget a 0 = Some id → aget a 1 = Some n →
  filter (λ a, ar_id a = id) traffic ≡ₚ omap arrival_of (long_packets cfg e hdr dest a n) →
  observed_messages r !! id = None →
  filter (λ d, d.1.1 = id) (deliver r traffic).2 = [(id, dest, payload_size hdr)] ∧
  observed_messages (deliver r traffic).1 !! id = None.
Proof.
  intros n Hm Hs Hid Hnc Hperm Ho. unfold long_packets in Hperm.
  destruct (num_chunks_spec cfg _ Hm Hs) as [Hn Hnm]. fold n in Hn, Hnm.
  destruct (chunk_sizes_sum cfg (payload_size hdr) n ltac:(lia) ltac:(lia) Hnm ltac:(lia))
    as [Hsum Hchunk]. set (mx := gasnet_AMMaxLongRequest cfg) in *.
  set (arr := λ i, mkArr (dest + i * mx) (chunk_size cfg (payload_size hdr) n i) id n).
  assert (omap arrival_of ((λ i, AMRequestLongAsync (peer e) (msgid hdr) (payload hdr + i * mx)
    (chunk_size cfg (payload_size hdr) n i) (dest + i * mx) a) <$> reverse (seqZ 0 n))
    = arr <$> reverse (seqZ 0 n)) as Eomap.
  { generalize (reverse (seqZ 0 n)). intros l. induction l as [|i l IH]; csimpl; [done|].
    rewrite Hid, Hnc. simpl. by rewrite IH. }
  rewrite Eomap in Hperm. rewrite (reverse_Permutation (seqZ 0 n)) in Hperm.
  set (l := filter (λ a0, ar_id a0 = id) traffic) in *.
  assert (Zsum (ar_size <$> l) = payload_size hdr) as Hsl.
  { rewrite Hperm, <- list_fmap_compose. exact Hsum. }
  assert (∀ b, b ∈ l → ∃ i, b = arr i ∧ 0 ≤ i < n) as Hin.
  { intros b Hb. rewrite Hperm in Hb. apply list_elem_of_fmap in Hb as (i & -> & Hi).
    apply elem_of_seqZ in Hi. exists i. split; [done|lia]. }
  assert (arr 0 ∈ l) as H0.
  { rewrite Hperm. apply list_elem_of_fmap_2, elem_of_seqZ. lia. }
  destruct (decide (n = 1)) as [E1|Hn1].
  + assert (l = [arr 0]) as El.
    { apply Permutation_singleton_r. rewrite Hperm, E1. done. }
    destruct (deliver_single id (arr 0) traffic r El E1 Ho) as [-> ->]. split; [|done].
    simpl. do 3 f_equal; [lia|].
    destruct (Hchunk 0 ltac:(lia)) as (_ & _ & _ & Hl). specialize (Hl ltac:(lia)). lia.
  + destruct (deliver_rest id n l r [] traffic) as (base & Hd & Hbi & Hb & Hfin); try done.
    * intros El. rewrite El in H0. by apply elem_of_nil in H0.
    * unfold zlen. simpl. rewrite Hperm, length_fmap, length_seqZ. lia.
    * simpl. apply Forall_forall. intros b Hb. destruct (Hin b Hb) as (i & -> & Hi).
      simpl. split; [done|]. destruct (Hchunk i Hi). lia.
    * simpl. rewrite Hsl. lia.
    * by rewrite Ho.
    * simpl in *. split; [|done]. rewrite Hd, Hsl. do 3 f_equal.
      apply list_elem_of_fmap in Hbi as (b & -> & Hbl). destruct (Hin b Hbl) as (i & -> & Hi).
      rewrite Forall_forall in Hb. specialize (Hb _ H0). simpl in *. nia.
Qed.

(** Whatever the order of arrival, the destination holds the payload. *)
Lemma long_packets_memory cfg e hdr dest a smem m ps' :
  let n := num_chunks cfg (payload_size hdr) in
  0 < gasnet_AMMaxLongRequest cfg < 2 ^ 32 → 0 < payload_size hdr < 2 ^ 31 →
  ps' ≡ₚ long_packets cfg e hdr dest a n →
  read_bytes (foldl (apply_long smem) m ps') dest (payload_size hdr) =
  read_bytes smem (payload hdr) (payload_size hdr).
Proof.
  intros n Hm Hs Hperm. unfold long_packets in Hperm.
  destruct (num_chunks_spec cfg _ Hm Hs) as [Hn Hnm]. fold n in Hn, Hnm.
  destruct (chunk_sizes_sum cfg (payload_size hdr) n ltac:(lia) ltac:(lia) Hnm ltac:(lia))
    as [Hsum Hchunk]. set (mx := gasnet_AMMaxLongRequest cfg) in *.
  apply list_eq. intros j. unfold read_bytes. rewrite !list_lookup_fmap.
  destruct (decide (Z.of_nat j < payload_size hdr)) as [Hj|Hj];
    [|by rewrite !lookup_seqZ_ge by lia].
  rewrite !lookup_seqZ_lt by lia. simpl. f_equal.
  set (i := Z.of_nat j `div` mx).
  pose proof (Z.div_mod (Z.of_nat j) mx ltac:(lia)) as Ej. fold i in Ej.
  pose proof (Z.mod_pos_bound (Z.of_nat j) mx ltac:(lia)) as Hr.
  assert (0 ≤ i < n) as Hi by (split; nia).
  destruct (Hchunk i Hi) as (Hc & Hle & Hfull & Hlast).
  rewrite (apply_longs_covered _ (payload hdr) dest _ _ _
    (AMRequestLongAsync (peer e) (msgid hdr) (payload hdr + i * mx)
       (chunk_size cfg (payload_size hdr) n i) (dest + i * mx) a)).
  + f_equal. lia.
  + rewrite Hperm. apply Forall_fmap, Forall_forall. intros k Hk.
    apply elem_of_reverse, elem_of_seqZ in Hk. simpl.
    destruct (Hchunk k ltac:(lia)) as (Hck & _). lia.
  + rewrite Hperm. apply list_elem_of_fmap. exists i. split; [done|].
    apply elem_of_reverse, elem_of_seqZ. lia.
  + simpl. destruct (decide (i < n - 1)) as [Hi1|Hi1]; [rewrite Hfull by done; lia|].
    specialize (Hlast ltac:(lia)). lia.
Qed.

(** A long message comes out as it went in.  However the network orders
    its chunks among themselves and among other traffic, the receiver's
    [adjust_long_msgsize] declares the message complete exactly once, at its
    last chunk, with the destination address and the full size, and keeps
    nothing behind; and by then the destination holds the payload. *)
Theorem send_long_reassembles cfg e w hdr dest e' w' hdr' :
  0 < gasnet_AMMaxLongRequest cfg < 2 ^ 32 → 0 < payload_size hdr < 2 ^ 31 →
  aget (args hdr) 0 = Some MESSAGE_ID_MAGIC →
  send_long cfg e w hdr dest = Some (e', w', hdr') →
  let id := next_outgoing_message_id e in
  ∃ ps, sent w' = sent w ++ ps ∧
    (∀ r traffic, filter (λ a, ar_id a = id) traffic ≡ₚ omap arrival_of ps →
       observed_messages r !! id = None →
       filter (λ d, d.1.1 = id) (deliver r traffic).2 = [(id, dest, payload_size hdr)] ∧
       observed_messages (deliver r traffic).1 !! id = None) ∧
    (∀ m ps', ps' ≡ₚ ps →
       read_bytes (foldl (apply_long (bytes (node w))) m ps') dest (payload_size hdr) =
       read_bytes (bytes (node w)) (payload hdr) (payload_size hdr)).
Proof.
  intros Hm Hs Ha0 E id.
  destruct (send_long_packets _ _ _ _ _ _ _ _ Hm Hs Ha0 E) as (a & Hid & Hnc & Esent & _).
  eexists. split; [exact Esent|]. split.
  - intros r traffic Hperm Ho. by eapply long_packets_delivered.
  - intros m ps' Hperm. by eapply long_packets_memory.
Qed.

Definition example_cfg : Config := mkConfig 2 4096 4 512.
Definition example_ep : Endpoint :=
  mkEp 1 [] [] 0 0 0 [100000; 95904] [200000; 195904] [0; 0] [true; true] ∅ 7.
Definition example_wire : Wire := mkWire example_node ∅ [].
Definition example_long : OutgoingMessage :=
  mkMsg 40 4 [MESSAGE_ID_MAGIC; MESSAGE_CHUNKS_MAGIC; 0; 0] 5000 10 PAYLOAD_SRCPTR 0 None.

Lemma send_long_reassembles_witness :
  match send_long example_cfg example_ep example_wire example_long 100000 with
  | Some (_, w', _) =>
      ∃ ps, sent w' = [] ++ ps ∧
        (∀ r traffic, filter (λ a, ar_id a = 7) traffic ≡ₚ omap arrival_of ps →
           observed_messages r !! 7 = None →
           filter (λ d, d.1.1 = 7) (deliver r traffic).2 = [(7, 100000, 10)] ∧
           observed_messages (deliver r traffic).1 !! 7 = None) ∧
        (∀ m ps', ps' ≡ₚ ps →
           read_bytes (foldl (apply_long (bytes example_node)) m ps') 100000 10 =
           read_bytes (bytes example_node) 5000 10)
  | None => False
  end.
Proof.
  destruct (send_long example_cfg example_ep example_wire example_long 100000)
    as [[[e' w'] hdr']|] eqn:E; [|vm_compute in E; discriminate].
  exact (send_long_reassembles example_cfg example_ep example_wire example_long 100000
           e' w' hdr' ltac:(simpl; lia) ltac:(simpl; lia) eq_refl E).
Defined.

(** ** Pushing the queues *)

Lemma align128_eq off : 0 ≤ off → align128 off = round_up 128 off.
Proof.
  intros Ho. unfold align128, round_up.
  change 0x7f with (Z.ones 7). rewrite Z.land_ones by lia. change (2 ^ 7) with 128.
  rewrite Z.shiftl_mul_pow2, Z.shiftr_div_pow2 by lia. change (2 ^ 7) with 128.
  pose proof (Z.mod_pos_bound off 128 ltac:(lia)). pose proof (Z.div_mod off 128 ltac:(lia)).
  repeat case_decide; lia.
Qed.

(** What is left of a message once it may be destroyed. *)
Definition deletable (hdr : OutgoingMessage) : Prop :=
  (payload_mode hdr ∈ [PAYLOAD_NONE; PAYLOAD_EMPTY; PAYLOAD_SRCPTR] ∧ payload_src hdr = None) ∨
  payload_mode hdr = PAYLOAD_KEEPREG.

Definition short_ok (hdr : OutgoingMessage) : Prop :=
  short_args_supported (num_args hdr) = true ∧ is_Some (first_args hdr) ∧ deletable hdr.

Definition long_ok (cfg : Config) (hdr : OutgoingMessage) : Prop :=
  0 < payload_size hdr < 2 ^ 31 ∧
  (payload_mode hdr = PAYLOAD_PENDING ∨
   is_Some (message_id_start hdr) ∧ 2 ≤ num_args hdr ≤ 16 ∧ is_Some (first_args hdr) ∧
   deletable hdr ∧ (dstptr hdr = 0 → payload_size hdr ≤ lmb_size cfg)).

Record ep_inv (cfg : Config) (e : Endpoint) (w : Wire) : Prop := {
  ei_lmbs : 0 < num_lmbs cfg;
  ei_size : 0 < lmb_size cfg < 2 ^ 62;
  ei_max : 0 < gasnet_AMMaxLongRequest cfg < 2 ^ 32;
  ei_bases : zlen (lmb_w_bases e) = num_lmbs cfg;
  ei_avail : zlen (lmb_w_avail e) = num_lmbs cfg;
  ei_cur : 0 ≤ cur_write_lmb e < num_lmbs cfg;
  ei_off : 0 ≤ cur_write_offset e < 2 ^ 62 + 128;
  ei_nodup : NoDup (out_short_hdrs e ++ out_long_hdrs e);
  ei_short : Forall (λ p, ∃ hdr, msgs w !! p = Some hdr ∧ short_ok hdr) (out_short_hdrs e);
  ei_long : Forall (λ p, ∃ hdr, msgs w !! p = Some hdr ∧
              (payload_size hdr = 0 ∧ short_ok hdr ∨ long_ok cfg hdr)) (out_long_hdrs e) }.

(** The front of the long queue cannot be sent: its payload waits for the
    source-data pool, or the current LMB for an acknowledgement. *)
Definition blocked (e : Endpoint) (w : Wire) : Prop :=
  out_short_hdrs e = [] ∧
  ∃ p rest hdr, out_long_hdrs e = p :: rest ∧ msgs w !! p = Some hdr ∧ 0 < payload_size hdr ∧
    (payload_mode hdr = PAYLOAD_PENDING ∨
     dstptr hdr = 0 ∧ aget (lmb_w_avail e) (cur_write_lmb e) = Some false).

(** Each message may cost a flip besides its own round. *)
Definition push_measure (e : Endpoint) : nat :=
  (2 * length (out_long_hdrs e) + length (out_short_hdrs e) +
   if decide (cur_write_offset e = 0)%Z then 0 else 1)%nat.

Definition queued (e : Endpoint) : list Z := out_short_hdrs e ++ out_long_hdrs e.

(** [done] was taken off the front of the queues and destroyed. *)
Definition took (e : Endpoint) (w : Wire) (e' : Endpoint) (w' : Wire) (done : list Z) : Prop :=
  queued e = done ++ queued e' ∧
  ∀ p, msgs w' !! p = if decide (p ∈ done) then None else msgs w !! p.

(** The packet of a message without chunks. *)
Definition short_out (dst : Z) (hdr : OutgoingMessage) (ps : list packet) : Prop :=
  ∃ a, first_args hdr = Some a ∧
    ps = if decide (payload_mode hdr = PAYLOAD_NONE)
         then [AMRequestShort dst (msgid hdr) a]
         else [AMRequestMedium dst (msgid hdr) (payload hdr) (payload_size hdr) a].

(** The packets of a message in chunks: each carries the arguments with the
    message id and the number of chunks filled in, and in whatever order the
    network applies them, the payload is then at [dest]. *)
Definition long_out (dst id : Z) (hdr : OutgoingMessage) (dest : Z) (ps : list packet) : Prop :=
  (∃ start a, message_id_start hdr = Some start ∧
     first_args (set_args hdr (stamp_args hdr start id (zlen ps))) = Some a ∧
     ∀ pkt, pkt ∈ ps → ∃ s n d, pkt = AMRequestLongAsync dst (msgid hdr) s n d a) ∧
  ∀ smem m ps', ps' ≡ₚ ps →
    read_bytes (foldl (apply_long smem) m ps') dest (payload_size hdr) =
    read_bytes smem (payload hdr) (payload_size hdr).

(** Where a payload goes: to the address its sender gave, or inside one of the
    peer's LMBs. *)
Definition placed (cfg : Config) (bases : list Z) (hdr : OutgoingMessage) (dest : Z) : Prop :=
  if decide (dstptr hdr = 0) then
    ∃ base, base ∈ bases ∧ base ≤ dest ∧ dest + payload_size hdr ≤ base + lmb_size cfg
  else dest = dstptr hdr.

(** The packets on the wire after the messages [done], in order, among flip
    requests: one packet for each message of the short queue [sh] and for each
    without payload, the chunks of each other one, numbered from [id] on. *)
Inductive transmitted (cfg : Config) (dst : Z) (bases sh : list Z) (ms : gmap Z OutgoingMessage)
    : Z → list Z → list packet → Prop :=
| tr_nil id : transmitted cfg dst bases sh ms id [] []
| tr_flip id done out buffer count :
    transmitted cfg dst bases sh ms id done out →
    transmitted cfg dst bases sh ms id done
      (AMRequestShort dst MSGID_FLIP_REQ [buffer; count] :: out)
| tr_short id p hdr ps done out :
    ms !! p = Some hdr → p ∈ sh ∨ payload_size hdr = 0 → short_out dst hdr ps →
    transmitted cfg dst bases sh ms id done out →
    transmitted cfg dst bases sh ms id (p :: done) (ps ++ out)
| tr_long id p hdr dest ps done out :
    ms !! p = Some hdr → p ∉ sh → 0 < payload_size hdr → placed cfg bases hdr dest →
    long_out dst id hdr dest ps →
    transmitted cfg dst bases sh ms (i32 (id + 1)) done out →
    transmitted cfg dst bases sh ms id (p :: done) (ps ++ out).

Lemma delete_msg_ok w p hdr :
  deletable hdr → delete_msg w p hdr = Some (mkWire (node w) (delete p (msgs w)) (sent w)).
Proof.
  intros H. unfold delete_msg, OutgoingMessage_fini.
  rewrite decide_False.
  - simpl. destruct H as [[_ ->]|H]; [done|]. destruct (payload_src hdr); [|done].
    by rewrite assert_true.
  - destruct H as [[H _]|H].
    + intros [E|E]; rewrite E in H; set_solver.
    + intros [E|E]; congruence.
Qed.

Lemma deletable_set_args hdr a : deletable hdr → deletable (set_args hdr a).
Proof. done. Qed.

Lemma send_short_ok e w hdr p :
  short_ok hdr → ∃ w1 ps, send_short e w hdr = Some w1 ∧ sent w1 = sent w ++ ps ∧
    short_out (peer e) hdr ps ∧
    delete_msg w1 p hdr = Some (mkWire (node w) (delete p (msgs w)) (sent w1)).
Proof.
  intros (Hs & [a Ha] & Hd). unfold send_short. rewrite assert_true by done.
  rewrite Ha. simpl. eexists _, _. split; [done|]. split; [done|]. split; [|by rewrite delete_msg_ok].
  exists a. split; [done|]. destruct (payload_mode hdr); done.
Qed.

Lemma first_args_length hdr a :
  zlen a = zlen (args hdr) → is_Some (first_args hdr) → is_Some (first_args (set_args hdr a)).
Proof.
  intros Hl. unfold first_args. simpl. rewrite !mapM_is_Some. intros H.
  eapply Forall_impl; [exact H|]. intros i [x Hx]. simpl in *.
  apply aget_is_Some. rewrite Hl. by eapply aget_Some_range.
Qed.

Lemma stamp_args_zlen hdr s i n : zlen (stamp_args hdr s i n) = zlen (args hdr).
Proof.
  unfold stamp_args. destruct (if decide _ then _ else _). unfold zlen.
  by rewrite !aset_length.
Qed.

Lemma send_chunks_packets cfg e hdr a dest n :
  0 ≤ n → send_chunks cfg e hdr a dest n (Z.to_nat n) = long_packets cfg e hdr dest a n.
Proof. intros Hn. rewrite send_chunks_eq. by rewrite Z2Nat.id. Qed.

Lemma long_packets_zlen cfg e hdr dest a n : 0 ≤ n → zlen (long_packets cfg e hdr dest a n) = n.
Proof. intros Hn. unfold long_packets, zlen. rewrite length_fmap, length_reverse, length_seqZ. lia. Qed.

Lemma send_long_ok cfg e w hdr dest p :
  0 < gasnet_AMMaxLongRequest cfg < 2 ^ 32 → 0 < payload_size hdr < 2 ^ 31 →
  is_Some (message_id_start hdr) → 2 ≤ num_args hdr ≤ 16 → is_Some (first_args hdr) →
  deletable hdr →
  ∃ w1 hdr' ps,
    send_long cfg e w hdr dest = Some (set_next_id e (i32 (next_outgoing_message_id e + 1)), w1, hdr') ∧
    sent w1 = sent w ++ ps ∧ long_out (peer e) (next_outgoing_message_id e) hdr dest ps ∧
    delete_msg w1 p hdr' = Some (mkWire (node w) (delete p (msgs w)) (sent w1)).
Proof.
  intros Hm Hsz [s Hs] Hn Ha Hd. unfold send_long. rewrite Hs. simpl.
  destruct (num_chunks_spec cfg (payload_size hdr) Hm Hsz) as [Hnc _].
  set (n := num_chunks cfg (payload_size hdr)) in *.
  rewrite decide_False by lia. rewrite assert_true by done.
  destruct (first_args_length hdr (stamp_args hdr s (next_outgoing_message_id e) n)
    (stamp_args_zlen _ _ _ _) Ha) as [a Ea]. rewrite Ea. simpl.
  rewrite send_chunks_packets by lia.
  do 3 eexists. split; [done|]. split; [done|]. split; [|by rewrite delete_msg_ok].
  split.
  - exists s, a. rewrite long_packets_zlen by lia. split_all; [done|done|].
    unfold long_packets. intros pkt (i & -> & _)%list_elem_of_fmap. by eexists _, _, _.
  - intros smem m ps' Hperm. by apply (long_packets_memory cfg e hdr dest a smem m ps').
Qed.

(** Taking the first message off the queues keeps the invariant. *)
Lemma took_one cfg e w e' ps (p : Z) :
  ep_inv cfg e w → queued e = p :: queued e' → peer e' = peer e →
  lmb_w_bases e' = lmb_w_bases e → lmb_w_avail e' = lmb_w_avail e →
  0 ≤ cur_write_lmb e' < num_lmbs cfg → 0 ≤ cur_write_offset e' < 2 ^ 62 + 128 →
  (∀ q, q ∈ out_short_hdrs e' → q ∈ out_short_hdrs e) →
  (∀ q, q ∈ out_long_hdrs e' → q ∈ out_long_hdrs e) →
  let w' := mkWire (node w) (delete p (msgs w)) ps in
  ep_inv cfg e' w' ∧ took e w e' w' [p].
Proof.
  intros [] Hq Hp Hb Ha Hl Ho Hsh Hlo w'.
  unfold queued in Hq. rewrite Hq in ei_nodup0. apply NoDup_cons in ei_nodup0 as [Hnp Hnd].
  split.
  - split; simpl; rewrite ?Hb, ?Ha; try done.
    + apply Forall_forall. intros q Hin. rewrite Forall_forall in ei_short0.
      destruct (ei_short0 q (Hsh q Hin)) as (hdr & E & Hok). exists hdr.
      rewrite lookup_delete_ne; [done|]. intros ->. apply Hnp. set_solver.
    + apply Forall_forall. intros q Hin. rewrite Forall_forall in ei_long0.
      destruct (ei_long0 q (Hlo q Hin)) as (hdr & E & Hok). exists hdr.
      rewrite lookup_delete_ne; [done|]. intros ->. apply Hnp. set_solver.
  - split; [done|]. intros q. simpl. case_decide as Hin.
    + apply list_elem_of_singleton in Hin as ->. apply lookup_delete_eq.
    + rewrite lookup_delete_ne; [done|]. set_solver.
Qed.

(** The part of the invariant [lmb_reserve] depends on. *)
Record lmb_ok (cfg : Config) (e : Endpoint) : Prop := {
  lo_size : 0 < lmb_size cfg < 2 ^ 62;
  lo_bases : zlen (lmb_w_bases e) = num_lmbs cfg;
  lo_avail : zlen (lmb_w_avail e) = num_lmbs cfg;
  lo_cur : 0 ≤ cur_write_lmb e < num_lmbs cfg;
  lo_off : 0 ≤ cur_write_offset e < 2 ^ 62 + 128 }.

Lemma ep_inv_lmb_ok cfg e w : ep_inv cfg e w → lmb_ok cfg e.
Proof. intros []. by split. Qed.

Lemma lmb_reserve_ok cfg e size :
  lmb_ok cfg e → 0 < size ≤ lmb_size cfg →
  ∃ act, lmb_reserve cfg e size = Some act ∧
    match act with
    | LmbWait => aget (lmb_w_avail e) (cur_write_lmb e) = Some false
    | LmbWrite dest_ptr e' =>
        aget (lmb_w_avail e) (cur_write_lmb e) = Some true ∧
        cur_write_offset e + size ≤ lmb_size cfg ∧
        (∃ base, aget (lmb_w_bases e) (cur_write_lmb e) = Some base ∧
           dest_ptr = base + cur_write_offset e) ∧
        e' = set_write e (cur_write_lmb e) (cur_write_count e + 1)
               (round_up 128 (cur_write_offset e + size)) (lmb_w_avail e)
    | LmbFlip flip_buffer flip_count e' =>
        aget (lmb_w_avail e) (cur_write_lmb e) = Some true ∧
        flip_buffer = cur_write_lmb e ∧ flip_count = cur_write_count e ∧
        0 < cur_write_offset e ∧
        e' = set_write e ((cur_write_lmb e + 1) `mod` num_lmbs cfg) 0 0
               (aset (lmb_w_avail e) (cur_write_lmb e) false)
    end.
Proof.
  intros [Hsz Hba Hav' Hcur Hoff] Hs. unfold lmb_reserve.
  destruct (aget_is_Some (lmb_w_avail e) (cur_write_lmb e)) as [av Hav]; [lia|].
  rewrite Hav. destruct av; simpl; [|by exists LmbWait].
  rewrite assert_true by lia. rewrite u64_id by (unfold is_u64; lia).
  case_decide.
  - destruct (aget_is_Some (lmb_w_bases e) (cur_write_lmb e)) as [b Hb]; [lia|].
    rewrite Hb. simpl. rewrite align128_eq by lia. eexists. split; [done|].
    cbv beta iota. split_all; [done|lia|by exists b|done].
  - eexists. split; [done|]. cbv beta iota. split_all; try done. lia.
Qed.

Lemma more_queued_eq e : more_queued e = negb (bool_decide (queued e = [])).
Proof.
  unfold more_queued, queued. f_equal. apply bool_decide_ext.
  split; [by intros [-> ->]|]. intros E. by apply app_eq_nil in E.
Qed.

(** What leaves with the message [p]. *)
Definition sent_one (cfg : Config) (e : Endpoint) (w : Wire) (e' : Endpoint) (p : Z)
    (ps : list packet) : Prop :=
  ∃ hdr, msgs w !! p = Some hdr ∧
    ((p ∈ out_short_hdrs e ∨ payload_size hdr = 0) ∧ short_out (peer e) hdr ps ∧
       next_outgoing_message_id e' = next_outgoing_message_id e ∨
     p ∈ out_long_hdrs e ∧ 0 < payload_size hdr ∧
       (∃ dest, placed cfg (lmb_w_bases e) hdr dest ∧
          long_out (peer e) (next_outgoing_message_id e) hdr dest ps) ∧
       next_outgoing_message_id e' = i32 (next_outgoing_message_id e + 1)).

(** The peer and its LMBs stay, and nothing is queued. *)
Definition ep_frame (e e' : Endpoint) : Prop :=
  peer e' = peer e ∧ lmb_w_bases e' = lmb_w_bases e ∧
  (∀ q, q ∈ out_short_hdrs e' → q ∈ out_short_hdrs e) ∧
  (∀ q, q ∈ out_long_hdrs e' → q ∈ out_long_hdrs e).

Definition iter_post (cfg : Config) (e : Endpoint) (w : Wire) (e' : Endpoint) (w' : Wire)
    (r : push_result) : Prop :=
  match r with
  | Pushed more =>
      more = more_queued e' ∧ (push_measure e' < push_measure e)%nat ∧ ep_frame e e' ∧
      ∃ p ps, took e w e' w' [p] ∧ sent w' = sent w ++ ps ∧ sent_one cfg e w e' p ps
  | Flipped =>
      (push_measure e' < push_measure e)%nat ∧ ep_frame e e' ∧ queued e' = queued e ∧
      msgs w' = msgs w ∧ next_outgoing_message_id e' = next_outgoing_message_id e ∧
      more_queued e' = true ∧
      ∃ buffer count, sent w' = sent w ++ [AMRequestShort (peer e) MSGID_FLIP_REQ [buffer; count]]
  | Stuck => e' = e ∧ w' = w ∧ (queued e = [] ∨ blocked e w)
  end.

Lemma push_measure_long e rest :
  out_short_hdrs e = [] → (length rest < length (out_long_hdrs e))%nat →
  ∀ e', out_short_hdrs e' = [] → out_long_hdrs e' = rest →
  (push_measure e' < push_measure e)%nat.
Proof.
  intros Hs Hl e' Hs' Hl'. unfold push_measure. rewrite Hs, Hs', Hl'. simpl.
  repeat case_decide; lia.
Qed.

(** A header is taken off the long queue. *)
Lemma pushed_long cfg e w p rest e' ps :
  ep_inv cfg e w → out_short_hdrs e = [] → out_long_hdrs e = p :: rest →
  queued e' = rest → out_short_hdrs e' = [] → out_long_hdrs e' = rest →
  peer e' = peer e → lmb_w_bases e' = lmb_w_bases e → lmb_w_avail e' = lmb_w_avail e →
  0 ≤ cur_write_lmb e' < num_lmbs cfg → 0 ≤ cur_write_offset e' < 2 ^ 62 + 128 →
  sent_one cfg e w e' p ps →
  let w' := mkWire (node w) (delete p (msgs w)) (sent w ++ ps) in
  ep_inv cfg e' w' ∧ iter_post cfg e w e' w' (Pushed (more_queued e')).
Proof.
  intros H Hsh Hlo Hq Hs' Hl' Hpe Hb Ha Hc Ho Hsent w'.
  assert (ep_frame e e') as Hfr.
  { unfold ep_frame. rewrite Hs', Hl', Hlo. split_all; set_solver. }
  destruct (took_one cfg e w e' (sent w ++ ps) p H) as [Hi Ht]; try done; try apply Hfr.
  { unfold queued in *. by rewrite Hsh, Hlo, Hq. }
  split; [done|]. unfold iter_post. split_all; [done| |done|by exists p, ps].
  by apply (push_measure_long e rest); rewrite ?Hlo; simpl; lia || done.
Qed.

(** The full buffer flipped. *)
Lemma flipped_ok cfg e w size buffer count e1 :
  ep_inv cfg e w → 0 < size ≤ lmb_size cfg → out_short_hdrs e = [] → out_long_hdrs e ≠ [] →
  lmb_reserve cfg e size = Some (LmbFlip buffer count e1) →
  let w1 := send_packet w (AMRequestShort (peer e1) MSGID_FLIP_REQ [buffer; count]) in
  ep_inv cfg e1 w1 ∧ iter_post cfg e w e1 w1 Flipped.
Proof.
  intros H Hsz Hsh Hlo E.
  destruct (lmb_reserve_ok cfg e size (ep_inv_lmb_ok _ _ _ H) Hsz) as (act & E' & Hact).
  rewrite E in E'. simplify_eq. destruct Hact as (_ & -> & -> & Hpo & ->). split.
  - destruct H. split; simpl; try done.
    + unfold zlen. by rewrite aset_length.
    + apply Z.mod_pos_bound. lia.
  - unfold iter_post. split_all; try done.
    + unfold push_measure. simpl. rewrite decide_False by lia. lia.
    + rewrite more_queued_eq. unfold queued. simpl. rewrite Hsh. by destruct (out_long_hdrs e).
    + by eexists _, _.
Qed.

(** A long message at the front of the queue. *)
Lemma push_long_ok cfg e w p rest hdr :
  ep_inv cfg e w → out_short_hdrs e = [] → out_long_hdrs e = p :: rest →
  msgs w !! p = Some hdr → payload_size hdr = 0 ∧ short_ok hdr ∨ long_ok cfg hdr →
  ∃ e' w' r, push_long cfg e w p rest hdr = Some (e', w', r) ∧ ep_inv cfg e' w' ∧
    iter_post cfg e w e' w' r.
Proof.
  intros H Hsh Hlo Hp Hok. unfold push_long.
  pose proof (ei_cur _ _ _ H) as Hcur. pose proof (ei_off _ _ _ H) as Hoff.
  pose proof (ei_max _ _ _ H) as Hmax.
  assert (p ∈ out_long_hdrs e) as Hpin by (rewrite Hlo; by left).
  assert (∀ e0, queued (set_queues e0 (out_short_hdrs e) rest) = rest) as Hq
    by (intros; unfold queued; simpl; by rewrite Hsh).
  case_decide as Hz.
  - destruct Hok as [[_ Hok]|[? _]]; [|lia].
    destruct (send_short_ok (set_queues e (out_short_hdrs e) rest) w hdr p Hok)
      as (w1 & ps & -> & Es & Hout & E).
    simpl. rewrite E, Es. simpl. do 3 eexists. split; [done|].
    apply (pushed_long _ _ _ p rest); simpl; try (done || apply Hq).
    exists hdr. split; [done|]. left. split_all; [by right|exact Hout|done].
  - destruct Hok as [[? _]|[Hpos Hok]]; [done|]. case_decide as Hpend.
    { do 3 eexists. split; [done|]. split; [done|]. unfold iter_post. split_all; [done|done|]. right.
      split; [done|]. exists p, rest, hdr. split_all; try done; [lia|by left]. }
    destruct Hok as [?|(Hst & Hn & Ha & Hd & Hfit)]; [done|]. case_decide as Hdst.
    + destruct (send_long_ok cfg (set_queues e (out_short_hdrs e) rest) w hdr (dstptr hdr) p
        Hmax Hpos Hst Hn Ha Hd) as (w1 & hdr' & ps & -> & Es & Hout & E). simpl. rewrite E, Es. simpl.
      do 3 eexists. split; [done|].
      match goal with |- ep_inv _ ?e1 _ ∧ _ => apply (pushed_long cfg e w p rest e1) end;
        simpl; try (done || apply Hq).
      exists hdr. split; [done|]. right. split_all; [done|lia| |done].
      exists (dstptr hdr). split; [|exact Hout]. unfold placed. by rewrite decide_False by done.
    + assert (dstptr hdr = 0) as Hdz by (destruct (decide (dstptr hdr = 0)); tauto).
      assert (0 < payload_size hdr ≤ lmb_size cfg) as Hsz by (split; [lia|auto]).
      destruct (lmb_reserve_ok cfg e (payload_size hdr) (ep_inv_lmb_ok _ _ _ H) Hsz)
        as (act & Er & Hact). rewrite Er.
      simpl. destruct act as [|dest e1|fb fc e1].
      * do 3 eexists. split; [done|]. split; [done|]. unfold iter_post. split_all; [done|done|]. right.
        split; [done|]. exists p, rest, hdr. split_all; try done; [lia|by right].
      * destruct Hact as (_ & Hle & (base & Hbase & Hdest) & ->).
        match goal with |- context [send_long cfg ?e1 w hdr dest] =>
          destruct (send_long_ok cfg e1 w hdr dest p Hmax Hpos Hst Hn Ha Hd)
            as (w1 & hdr' & ps & -> & Es & Hout & E) end.
        simpl. rewrite E, Es. simpl. do 3 eexists. split; [done|].
        match goal with |- ep_inv _ ?e1 _ ∧ _ => apply (pushed_long cfg e w p rest e1) end;
          simpl; try (done || apply Hq).
        -- destruct (round_up_spec 128 (cur_write_offset e + payload_size hdr)) as [_ ?]; [lia..|].
           pose proof (ei_size _ _ _ H). lia.
        -- exists hdr. split; [done|]. right. split_all; [done|lia| |done].
           exists dest. split; [|exact Hout]. unfold placed. rewrite decide_True by done.
           exists base. split; [|lia]. eapply aget_elem_of, Hbase.
      * do 3 eexists. split; [done|]. eapply flipped_ok; [done|exact Hsz|done|by rewrite Hlo|done].
Qed.

Lemma push_iter_ok cfg e w :
  ep_inv cfg e w →
  ∃ e' w' r, push_iter cfg e w = Some (e', w', r) ∧ ep_inv cfg e' w' ∧ iter_post cfg e w e' w' r.
Proof.
  intros H. unfold push_iter.
  destruct (out_short_hdrs e) as [|p rest] eqn:Hsh.
  - destruct (out_long_hdrs e) as [|p rest] eqn:Hlo.
    + do 3 eexists. split; [done|]. split; [done|]. unfold iter_post. split_all; [done|done|]. left.
      unfold queued. by rewrite Hsh, Hlo.
    + pose proof (ei_long _ _ _ H) as Hl. rewrite Hlo in Hl. apply Forall_cons in Hl as [Hl _].
      destruct Hl as (hdr & Hp & Hok). rewrite Hp. simpl. by apply push_long_ok.
  - pose proof (ei_short _ _ _ H) as Hl. rewrite Hsh in Hl. apply Forall_cons in Hl as [Hl _].
    destruct Hl as (hdr & Hp & Hok). rewrite Hp. simpl.
    destruct (send_short_ok (set_queues e rest (out_long_hdrs e)) w hdr p Hok)
      as (w1 & ps & -> & Es & Hout & E).
    simpl. rewrite E. simpl. do 3 eexists. split; [done|].
    assert (ep_frame e (set_queues e rest (out_long_hdrs e))) as Hfr.
    { unfold ep_frame. simpl. rewrite Hsh. split_all; set_solver. }
    destruct (took_one cfg e w (set_queues e rest (out_long_hdrs e)) (sent w1) p H) as [Hi Ht];
      try done; try apply H; try apply Hfr.
    + unfold queued. simpl. by rewrite Hsh.
    + split; [done|]. unfold iter_post. split_all; [done| |done|].
      * unfold push_measure. rewrite Hsh. simpl. repeat case_decide; lia.
      * exists p, ps. split_all; [done|done|]. exists hdr. split; [done|]. left.
        split_all; [left; rewrite Hsh; by left|exact Hout|done].
Qed.

(** The packets of the first messages of the queues are on the wire. *)
Definition sent_since (cfg : Config) (dst : Z) (bases sh : list Z) (e : Endpoint) (w : Wire)
    (done : list Z) (w' : Wire) : Prop :=
  ∃ out, sent w' = sent w ++ out ∧
    transmitted cfg dst bases sh (msgs w) (next_outgoing_message_id e) done out.

Lemma transmitted_weaken cfg dst bases sh ms ms' id done out :
  (∀ p, p ∈ done → is_Some (ms !! p) → ms' !! p = ms !! p) →
  transmitted cfg dst bases sh ms id done out → transmitted cfg dst bases sh ms' id done out.
Proof.
  intros Hms Ht. induction Ht; [constructor| | |].
  - constructor. auto.
  - econstructor; [rewrite Hms; [done|by left|by eexists]|done|done|]. apply IHHt. set_solver.
  - eapply tr_long; [rewrite Hms; [done|by left|by eexists]|done..|]. apply IHHt. set_solver.
Qed.

(** One message more in front. *)
Lemma sent_since_one cfg e w e1 w1 p ps sh done w2 :
  sent_one cfg e w e1 p ps → sent w1 = sent w ++ ps → took e w e1 w1 [p] →
  (∀ q, q ∈ out_short_hdrs e → q ∈ sh) → (∀ q, q ∈ out_long_hdrs e → q ∉ sh) →
  sent_since cfg (peer e) (lmb_w_bases e) sh e1 w1 done w2 →
  sent_since cfg (peer e) (lmb_w_bases e) sh e w (p :: done) w2.
Proof.
  intros (hdr & Hp & Hcase) Es [_ Hms] Hsh Hlo (out & Es2 & Ht).
  exists (ps ++ out). rewrite Es2, Es. split; [by rewrite app_assoc|].
  assert (transmitted cfg (peer e) (lmb_w_bases e) sh (msgs w) (next_outgoing_message_id e1) done out)
    as Ht'.
  { eapply transmitted_weaken; [|exact Ht]. intros q _ [x Hq]. rewrite Hms in *. by case_decide. }
  destruct Hcase as [([Hin|Hz] & Hout & Hid)|(Hin & Hpos & (dest & Hpl & Hout) & Hid)];
    rewrite Hid in Ht'.
  - eapply tr_short; [done|left; by apply Hsh|done|done].
  - eapply tr_short; [done|by right|done|done].
  - eapply tr_long; [done|by apply Hlo|done..].
Qed.

(** The loop from any round on, for the peer [dst] with the LMBs [bases] and
    the short messages [sh]. *)
Lemma push_loop_ok cfg locks max_to_send dst bases sh fuel : ∀ e w i count more,
  ep_inv cfg e w → (push_measure e < fuel)%nat → (more = false → queued e = []) →
  peer e = dst → lmb_w_bases e = bases →
  (∀ q, q ∈ out_short_hdrs e → q ∈ sh) → (∀ q, q ∈ out_long_hdrs e → q ∉ sh) → 0 ≤ count →
  ∃ e' w' more' done, push_loop fuel cfg locks i max_to_send count more e w = Some (e', w', more') ∧
    ep_inv cfg e' w' ∧ took e w e' w' done ∧ sent_since cfg dst bases sh e w done w' ∧
    (max_to_send ≠ 0 → count ≤ max_to_send → count + zlen done ≤ max_to_send) ∧
    (more' = false → queued e' = []) ∧
    ((∀ i, locks i = true) → max_to_send = 0 → queued e' = [] ∨ blocked e' w').
Proof.
  induction fuel as [|fuel IH]; intros e w i count more H Hf Hmore Hpe Hba Hsh Hlo Hcnt; [lia|]. simpl.
  assert (took e w e w [] ∧ sent_since cfg dst bases sh e w [] w ∧
    (max_to_send ≠ 0 → count ≤ max_to_send → count + zlen ([] : list Z) ≤ max_to_send)) as H0.
  { split_all; [|exists []; split; [by rewrite app_nil_r|constructor]|unfold zlen; simpl; lia].
    split; [done|]. intros p. by rewrite decide_False by set_solver. }
  destruct (more && _) eqn:Econd.
  - apply andb_true_iff in Econd as [-> Hcond]. apply bool_decide_eq_true in Hcond.
    destruct (locks i) eqn:Elock; simpl.
    + destruct (push_iter_ok cfg e w H) as (e1 & w1 & r & -> & H1 & Hr). simpl.
      destruct r as [m| |]; simpl in Hr.
      * destruct Hr as (-> & Hm & (Hpe1 & Hba1 & Hsh1 & Hlo1) & p & ps & Ht1 & Es1 & Hone).
        destruct (IH e1 w1 (S i) (count + 1) (more_queued e1) H1 ltac:(lia))
          as (e2 & w2 & m2 & done & E & H2 & [Hd1 Hd2] & Hs2 & Hc2 & Hrest);
          [|congruence|congruence|by eauto|by eauto|lia|].
        { rewrite more_queued_eq. intros Hneg. apply negb_false_iff in Hneg.
          by apply bool_decide_eq_true in Hneg. }
        exists e2, w2, m2, (p :: done). split; [exact E|]. split; [exact H2|].
        split; [|split; [|split; [|exact Hrest]]].
        -- destruct Ht1 as [Hp1 Hp2]. split; [by rewrite Hp1, Hd1|].
           intros q. rewrite Hd2, Hp2. repeat case_decide; set_solver.
        -- rewrite <- Hpe, <- Hba in *. by eapply sent_since_one.
        -- intros Hne Hle. specialize (Hc2 Hne ltac:(lia)). unfold zlen in *. simpl. lia.
      * destruct Hr as (Hm & (Hpe1 & Hba1 & Hsh1 & Hlo1) & Hq & Hms & Hid & Hmq & b & c & Es1).
        destruct (IH e1 w1 (S i) count true H1 ltac:(lia) ltac:(done))
          as (e2 & w2 & m2 & done & E & H2 & [Hd1 Hd2] & (out & Es2 & Ht2) & Hrest);
          [congruence|congruence|by eauto|by eauto|lia|].
        exists e2, w2, m2, done. split; [exact E|]. split; [exact H2|].
        split; [|split; [|exact Hrest]].
        -- split; [by rewrite <- Hd1, Hq|]. intros q. by rewrite Hd2, Hms.
        -- exists (AMRequestShort (peer e) MSGID_FLIP_REQ [b; c] :: out). split.
           { rewrite Es2, Es1, <- app_assoc. done. }
           rewrite Hpe. constructor. by rewrite <- Hms, <- Hid.
      * destruct Hr as (-> & -> & Hb). exists e, w, true, []. split; [done|]. split; [done|].
        destruct H0 as (? & ? & ?). by split_all.
    + exists e, w, true, []. split; [done|]. split; [done|]. destruct H0 as (? & ? & ?).
      split_all; try done. intros Hall. by rewrite Hall in Elock.
  - exists e, w, more, []. split; [done|]. split; [done|]. destruct H0 as (? & ? & ?).
    split_all; try done. intros _ ->.
    rewrite bool_decide_true, andb_true_r in Econd by (by left). left. by apply Hmore.
Qed.

(** C9. [push_messages] always returns: with room for two rounds per long
    message the loop comes to its end whatever the mutex does, having put on
    the wire and destroyed the messages at the front of the queues, in order,
    each once and no others, at most [max_to_send] of them if there is a
    limit.  A message of the short queue and one without payload goes out as
    one packet with its arguments; any other as its chunks, stamped with
    consecutive message ids, whose payload the network puts at the address the
    sender gave or inside one of the peer's LMBs; there is nothing else on the
    wire but flip requests.  When the mutex is free throughout and there is no
    limit, the loop stops only with both queues empty, or at a long message
    whose payload or buffer is not available yet. *)
Theorem push_messages_drains cfg e w locks max_to_send fuel :
  ep_inv cfg e w → 0 ≤ max_to_send →
  (push_measure e < fuel)%nat →
  ∃ e' w' more done, ep_push_messages fuel cfg locks max_to_send e w = Some (e', w', more) ∧
    ep_inv cfg e' w' ∧ took e w e' w' done ∧
    (∃ out, sent w' = sent w ++ out ∧
       transmitted cfg (peer e) (lmb_w_bases e) (out_short_hdrs e) (msgs w)
         (next_outgoing_message_id e) done out) ∧
    (max_to_send ≠ 0 → zlen done ≤ max_to_send) ∧
    (more = false → queued e' = []) ∧
    ((∀ i, locks i = true) → max_to_send = 0 → queued e' = [] ∨ blocked e' w').
Proof.
  intros H Hmax Hf.
  assert (∀ q, q ∈ out_long_hdrs e → q ∉ out_short_hdrs e) as Hlo.
  { intros q Hq Hq'. pose proof (ei_nodup _ _ _ H) as Hnd. apply NoDup_app in Hnd as (_ & Hd & _).
    by apply (Hd q). }
  destruct (push_loop_ok cfg locks max_to_send (peer e) (lmb_w_bases e) (out_short_hdrs e) fuel e w 0%nat 0
    true H Hf ltac:(done) eq_refl eq_refl (λ _ Hq, Hq) Hlo ltac:(lia))
    as (e' & w' & more & done & E & Hi & Ht & Hs & Hc & Hr).
  exists e', w', more, done. refine (conj E (conj Hi (conj Ht (conj Hs (conj _ Hr))))).
  intros Hm. specialize (Hc Hm). lia.
Qed.

(** A queued acknowledgement of one argument, and a long message of 10 bytes
    behind it. *)
Definition example_ack : OutgoingMessage := mkMsg MSGID_FLIP_ACK 1 [1] 0 0 PAYLOAD_NONE 0 None.
Definition example_queued : Endpoint := set_queues example_ep [2] [1].
Definition example_wire1 : Wire :=
  mkWire example_node {[1 := example_long; 2 := example_ack]} [].

Lemma example_ep_inv : ep_inv example_cfg example_queued example_wire1.
Proof.
  split; simpl; try done; try lia.
  - repeat constructor; set_solver.
  - apply Forall_singleton. exists example_ack. split; [done|]. split; [done|].
    split; [by eexists|]. left. split; [set_solver|done].
  - apply Forall_singleton. exists example_long. split; [done|]. right. split; [simpl; lia|].
    right. split; [by eexists|]. split; [simpl; lia|]. split; [by eexists|].
    split; [left; split; [set_solver|done]|]. intros _. simpl. lia.
Qed.

Lemma push_messages_drains_witness :
  ∃ e' w' more done,
    ep_push_messages 10 example_cfg (λ _, true) 2 example_queued example_wire1 =
      Some (e', w', more) ∧
    ep_inv example_cfg e' w' ∧ took example_queued example_wire1 e' w' done ∧
    (∃ out, sent w' = [] ++ out ∧
       transmitted example_cfg 1 [100000; 95904] [2] (msgs example_wire1) 7 done out) ∧
    zlen done ≤ 2 ∧ (more = false → queued e' = []).
Proof.
  destruct (push_messages_drains example_cfg example_queued example_wire1 (λ _, true) 2 10
           example_ep_inv ltac:(lia) ltac:(vm_compute; lia))
    as (e' & w' & more & done & E & Hi & Ht & Hs & Hm & Hq & _).
  exists e', w', more, done. split_all; [done|done|exact Ht|exact Hs|by apply Hm|done].
Defined.

(** [reserve_srcdata] leaves the header alone, and with a pool a payload stays
    a payload. *)
Lemma reserve_srcdata_fields self cp m n m' n' :
  reserve_srcdata self cp m n = Some (m', n') → is_Some (srcdatapool n) →
  args m' = args m ∧ num_args m' = num_args m ∧ payload_size m' = payload_size m ∧
  (payload_mode m ≠ PAYLOAD_NONE → payload_mode m' ≠ PAYLOAD_NONE).
Proof.
  intros E [p Hp]. unfold reserve_srcdata in E. rewrite Hp in E.
  case_decide as Hne; [by simplify_eq|].
  destruct (payload_src m) as [src|]; [|done]. simpl in E.
  destruct (if decide _ then _ else _) as [keep|]; [|done]. simpl in E.
  case_decide; [by simplify_eq|].
  destruct (reserve_locked self cp m src n p) as [[[m1 n1] sp]|] eqn:El; [|done]. simpl in E.
  assert (args m1 = args m ∧ num_args m1 = num_args m ∧ payload_size m1 = payload_size m ∧
          payload_mode m1 ≠ PAYLOAD_NONE) as Hm1.
  { unfold reserve_locked in El. destruct (alloc_srcptr _ _) as [[p1 q]|]; [|done]. simpl in El.
    destruct (decide (q ≠ 0)).
    - destruct (if decide _ then _ else _); [|done]. by simplify_eq/=.
    - destruct (if decide _ then _ else _) as [[s2 n2]|]; [|done]. simpl in El.
      asserts. by simplify_eq/=. }
  destruct Hm1 as (? & ? & ? & ?).
  case_decide; [destruct (copy_data src sp n1); [|done]|]; by simplify_eq/=.
Qed.

(** A payload small enough for the short queue never arrives when the
    message is sent out of order: [send_short] leaves the header's magic words
    in place, and the receiver, which takes them for the number of chunks,
    waits for more. *)
Lemma unordered_payload_never_ready cfg cp e w p hdr e1 w1 b e2 w2 more r :
  is_Some (srcdatapool (node w)) → out_short_hdrs e = [] → msgs w !! p = Some hdr →
  payload_mode hdr ≠ PAYLOAD_NONE →
  2 ≤ num_args hdr → aget (args hdr) 1 = Some MESSAGE_CHUNKS_MAGIC →
  aget (args hdr) 0 = Some MESSAGE_ID_MAGIC →
  payload_size hdr ≤ gasnet_AMMaxMedium cfg →
  ep_enqueue_message cfg cp e w p false = Some (e1, w1, b) →
  push_iter cfg e1 w1 = Some (e2, w2, Pushed more) →
  observed_messages r !! MESSAGE_ID_MAGIC = None →
  ∃ dest mid src n a, sent w2 = sent w1 ++ [AMRequestMedium dest mid src n a] ∧
    ∃ id nchunks, aget a 0 = Some id ∧ aget a 1 = Some nchunks ∧
      ∀ buf, (adjust_long_msgsize r buf n id nchunks).2 = false.
Proof.
  intros Hpool Hs Hp Hm Hn H1 H0 Hsz Ee Ep Ho. unfold ep_enqueue_message in Ee. rewrite Hp in Ee.
  simpl in Ee. destruct (reserve_srcdata p cp hdr (node w)) as [[hdr' n1]|] eqn:Er; [|done].
  destruct (reserve_srcdata_fields _ _ _ _ _ _ Er Hpool) as (Ea & En & Esz & Emo).
  specialize (Emo Hm).
  simpl in Ee. rewrite decide_True in Ee by (split; [done|lia]). simplify_eq.
  unfold push_iter in Ep. simpl in Ep. rewrite Hs in Ep. simpl in Ep.
  rewrite lookup_insert_eq in Ep. simpl in Ep. unfold send_short in Ep.
  destruct (decide (short_args_supported (num_args hdr') = true)) as [Hsup|Hsup];
    [|unfold assert_ in Ep; by rewrite decide_False in Ep].
  rewrite assert_true in Ep by done. destruct (first_args hdr') as [a|] eqn:Efa; [|done].
  simpl in Ep. rewrite decide_True in Ep by done.
  destruct (delete_msg _ _ _) as [w3|] eqn:Ed; [|done]. simplify_eq/=.
  unfold delete_msg in Ed. asserts. simplify_eq/=.
  do 5 eexists. split; [done|]. exists MESSAGE_ID_MAGIC, MESSAGE_CHUNKS_MAGIC.
  unfold first_args in Efa. rewrite En in Efa.
  rewrite !(mapM_aget _ _ _ _ Efa), Ea by lia. split_all; [done|done|].
  intros buf. unfold adjust_long_msgsize. by rewrite Ho.
Qed.

Definition example_unordered : OutgoingMessage :=
  mkMsg 40 4 [MESSAGE_ID_MAGIC; MESSAGE_CHUNKS_MAGIC; 0; 0] 0 100 PAYLOAD_KEEP 0
    (Some (ContiguousPayload 20000 100 PAYLOAD_KEEP)).

Lemma unordered_payload_never_ready_witness :
  let w := mkWire example_node {[1 := example_unordered]} [] in
  match ep_enqueue_message example_cfg 9000 example_ep w 1 false with
  | Some (e1, w1, _) =>
      match push_iter example_cfg e1 w1 with
      | Some (e2, w2, Pushed _) =>
          ∃ dest mid src n a, sent w2 = sent w1 ++ [AMRequestMedium dest mid src n a] ∧
            ∃ id nchunks, aget a 0 = Some id ∧ aget a 1 = Some nchunks ∧
              ∀ buf, (adjust_long_msgsize example_ep buf n id nchunks).2 = false
      | _ => False
      end
  | None => False
  end.
Proof.
  intros w.
  assert (match ep_enqueue_message example_cfg 9000 example_ep w 1 false with
          | Some (e1, w1, _) => match push_iter example_cfg e1 w1 with
                                | Some (_, _, Pushed _) => true | _ => false end
          | None => false end = true) as Hok by (vm_compute; reflexivity).
  destruct (ep_enqueue_message _ _ _ w 1 false) as [[[e1 w1] b]|] eqn:Ee; [|discriminate].
  destruct (push_iter example_cfg e1 w1) as [[[e2 w2] [more| |]]|] eqn:Ep; try discriminate.
  refine (unordered_payload_never_ready example_cfg 9000 example_ep w 1 example_unordered
    e1 w1 b e2 w2 more example_ep _ eq_refl _ _ _ eq_refl eq_refl _ Ee Ep eq_refl); done || by eexists.
Defined.
