(* ===== verification/Lmb.v ===== *)
(** * The LMB flow-control protocol

    Two endpoints, a sender and a receiver, over the LMBs of one direction:
    [lmb_reserve] on one side, [handle_long_msgptr] and [handle_flip_request]
    on the other, and the network between them, which may reorder long
    messages, flip requests and acknowledgements.  The specification is the
    contract the buffers are used under: no byte of an LMB is overwritten
    before the receiver is done with the message that holds it. *)

From S2P Require Import Prelude Spans Bytes Payload Endpoint.

(** [inflight] holds the long messages written to an LMB and not yet released
    by the receiver's handler, as (pointer, size); [flips] the flip requests
    and [acks] the acknowledgements on their way, those still in the
    receiver's short queue included. *)
Record lmb_sys := mkLmbSys {
  tx : Endpoint;
  rx : Endpoint;
  inflight : list (Z * Z);
  flips : list (Z * Z);
  acks : list Z }.

Definition r_buffer_of (cfg : Config) (e : Endpoint) (ptr : Z) : Z :=
  find_r_buffer cfg (take (Z.to_nat (num_lmbs cfg)) (lmb_r_bases e)) 0 ptr.

Inductive lmb_step (cfg : Config) : lmb_sys → lmb_sys → Prop :=
| lmb_write y size dest tx' :
    0 < size ≤ lmb_size cfg → lmb_reserve cfg (tx y) size = Some (LmbWrite dest tx') →
    lmb_step cfg y (mkLmbSys tx' (rx y) ((dest, size) :: inflight y) (flips y) (acks y))
| lmb_flip y size b c tx' :
    0 < size ≤ lmb_size cfg → lmb_reserve cfg (tx y) size = Some (LmbFlip b c tx') →
    lmb_step cfg y (mkLmbSys tx' (rx y) (inflight y) ((b, c) :: flips y) (acks y))
| lmb_handled y ptr size rest rx' ack :
    inflight y ≡ₚ (ptr, size) :: rest →
    count_received (rx y) (r_buffer_of cfg (rx y) ptr) = Some (rx', ack) →
    lmb_step cfg y (mkLmbSys (tx y) rx' rest (flips y) (option_list ack ++ acks y))
| lmb_flip_arrives y b c rest rx' ack :
    flips y ≡ₚ (b, c) :: rest → count_flipped (rx y) b c = Some (rx', ack) →
    lmb_step cfg y (mkLmbSys (tx y) rx' (inflight y) rest (option_list ack ++ acks y))
| lmb_ack_arrives y b rest tx' :
    acks y ≡ₚ b :: rest → handle_flip_ack (tx y) b = Some tx' →
    lmb_step cfg y (mkLmbSys tx' (rx y) (inflight y) (flips y) rest).

(** ** Invariant *)

(** The messages in flight by buffer, offset and size. *)
Record slot := mkSlot { sl_buf : Z; sl_off : Z; sl_size : Z }.

Definition slot_ptr (bases : list Z) (s : slot) : Z * Z :=
  (default 0 (aget bases (sl_buf s)) + sl_off s, sl_size s).

Definition cnt (b : Z) (g : list slot) : Z := zlen (filter (λ s, sl_buf s = b) g).

(** The state of one buffer: available to the sender (with all that was
    written counted, if it is the current one), or flipped and waiting for the
    flip to arrive, for the last messages, or for the acknowledgement. *)
Definition phase (is_cur : bool) (count : Z) (avail : bool) (r n : Z)
    (fl : list (Z * Z)) (ak : list Z) : Prop :=
  if avail then
    fl = [] ∧ ak = [] ∧ if is_cur then 0 ≤ r ∧ r + n = count else r = 0 ∧ n = 0
  else
    (∃ b c, fl = [(b, c)] ∧ 0 < c < 2 ^ 31 ∧ 0 ≤ r ∧ r + n = c ∧ ak = []) ∨
    (fl = [] ∧ 0 < n ∧ r + n = 0 ∧ ak = [] ∧ n < 2 ^ 31) ∨
    (fl = [] ∧ n = 0 ∧ r = 0 ∧ length ak = 1%nat).

Definition flips_of (b : Z) (l : list (Z * Z)) : list (Z * Z) := filter (λ f, f.1 = b) l.
Definition acks_of (b : Z) (l : list Z) : list Z := filter (λ a, a = b) l.

Definition slots_disjoint (s t : slot) : Prop :=
  sl_buf s = sl_buf t → no_overlap (sl_off s) (sl_size s) (sl_off t) (sl_size t).

Record lmb_inv (cfg : Config) (bases : list Z) (y : lmb_sys) (g : list slot) : Prop := {
  li_n : 0 < num_lmbs cfg;
  li_lmb : 0 < lmb_size cfg < 2 ^ 31;
  li_len : zlen bases = num_lmbs cfg;
  li_apart : ∀ i j bi bj, i ≠ j → aget bases i = Some bi → aget bases j = Some bj →
    bi + lmb_size cfg ≤ bj ∨ bj + lmb_size cfg ≤ bi;
  li_wb : lmb_w_bases (tx y) = bases;
  li_rb : lmb_r_bases (rx y) = bases;
  li_av : zlen (lmb_w_avail (tx y)) = num_lmbs cfg;
  li_rc : zlen (lmb_r_counts (rx y)) = num_lmbs cfg;
  li_cur : 0 ≤ cur_write_lmb (tx y) < num_lmbs cfg;
  li_cnt : 0 ≤ cur_write_count (tx y) ∧ 128 * cur_write_count (tx y) ≤ cur_write_offset (tx y);
  li_off : 0 ≤ cur_write_offset (tx y) < lmb_size cfg + 128;
  li_zero : cur_write_offset (tx y) = 0 ∨ 0 < cur_write_count (tx y);
  li_wait : aget (lmb_w_avail (tx y)) (cur_write_lmb (tx y)) = Some false →
    cur_write_offset (tx y) = 0 ∧ cur_write_count (tx y) = 0;
  li_fly : inflight y = slot_ptr bases <$> g;
  li_slots : Forall (λ s, 0 ≤ sl_buf s < num_lmbs cfg ∧ 0 ≤ sl_off s ∧ 0 < sl_size s ∧
    sl_off s + sl_size s ≤ lmb_size cfg) g;
  li_disj : ForallOrdPairs slots_disjoint g;
  li_curs : aget (lmb_w_avail (tx y)) (cur_write_lmb (tx y)) = Some true →
    Forall (λ s, sl_buf s = cur_write_lmb (tx y) →
      sl_off s + sl_size s ≤ cur_write_offset (tx y)) g;
  li_flips : Forall (λ f, 0 ≤ f.1 < num_lmbs cfg) (flips y);
  li_acks : Forall (λ a, 0 ≤ a < num_lmbs cfg) (acks y);
  li_phase : ∀ b av r, aget (lmb_w_avail (tx y)) b = Some av →
    aget (lmb_r_counts (rx y)) b = Some r →
    phase (bool_decide (b = cur_write_lmb (tx y))) (cur_write_count (tx y)) av r (cnt b g)
      (flips_of b (flips y)) (acks_of b (acks y)) }.

Lemma cnt_cons b s g : cnt b (s :: g) = (if decide (sl_buf s = b) then 1 else 0) + cnt b g.
Proof. unfold cnt. rewrite filter_cons. unfold zlen. case_decide; simpl; lia. Qed.

Lemma cnt_perm b g g' : g ≡ₚ g' → cnt b g = cnt b g'.
Proof. intros Hp. unfold cnt. by rewrite Hp. Qed.

Lemma cnt_nonneg b g : 0 ≤ cnt b g.
Proof. unfold cnt, zlen. lia. Qed.

Lemma cnt_elem b s g : s ∈ g → sl_buf s = b → 0 < cnt b g.
Proof.
  intros Hin Hb. apply elem_of_Permutation in Hin as [g' Hp].
  rewrite (cnt_perm _ _ _ Hp), cnt_cons, decide_True by done.
  pose proof (cnt_nonneg b g'). lia.
Qed.

#[export] Instance slots_disjoint_sym : Symmetric slots_disjoint.
Proof. intros s t H E. specialize (H (eq_sym E)). unfold no_overlap in *. lia. Qed.

Lemma ForallOrdPairs_perm {A} (R : relation A) `{!Symmetric R} (l k : list A) :
  l ≡ₚ k → ForallOrdPairs R l → ForallOrdPairs R k.
Proof.
  induction 1 as [|x l k Hp IH|x y l|l k m _ IH1 _ IH2]; intros H.
  - constructor.
  - inversion H as [|? ? Hx Hl]; subst. constructor; [by rewrite <- Hp|by apply IH].
  - inversion H as [|? ? Hx Hl]; subst. inversion Hl as [|? ? Hy Hl']; subst.
    apply Forall_cons in Hx as [Hxy Hx]. constructor; [|by constructor].
    constructor; [by symmetry|done].
  - auto.
Qed.

(** A pointer into an LMB is found in that LMB. *)
Lemma find_r_buffer_ok cfg bases b base off :
  (∀ i j bi bj, i ≠ j → aget bases i = Some bi → aget bases j = Some bj →
    bi + lmb_size cfg ≤ bj ∨ bj + lmb_size cfg ≤ bi) →
  aget bases b = Some base → 0 ≤ off < lmb_size cfg →
  find_r_buffer cfg bases 0 (base + off) = b.
Proof.
  intros Hap Hb Hoff.
  assert (∀ l k, (∀ j bj, aget l j = Some bj → aget bases (k + j) = Some bj) →
    (∃ j, aget l j = Some base ∧ k + j = b) → 0 ≤ k → find_r_buffer cfg l k (base + off) = b) as Hg.
  { induction l as [|x l IH]; intros k Hl (j & Hj & Ej) Hk.
    - by rewrite aget_nil in Hj.
    - simpl. case_decide as Hc.
      + destruct (decide (k = b)) as [|Hne]; [done|].
        assert (aget bases (k + 0) = Some x) as Hx by (apply Hl; done).
        rewrite Z.add_0_r in Hx. destruct (Hap k b x base Hne Hx Hb); lia.
      + apply IH; [| |lia].
        * intros j' bj Hj'. replace (k + 1 + j') with (k + (j' + 1)) by lia. apply Hl.
          pose proof (aget_Some_range _ _ _ Hj'). by rewrite aget_cons_succ by lia.
        * exists (j - 1). split; [|lia]. pose proof (aget_Some_range _ _ _ Hj).
          destruct (decide (j = 0)) as [->|]; [change (Some x = Some base) in Hj; simplify_eq; lia|].
          by rewrite aget_cons_pos in Hj by lia. }
  apply Hg; [done| |lia]. by exists b.
Qed.

(** *** Transitions of one buffer *)

Lemma phase_write count r n fl ak :
  phase true count true r n fl ak → phase true (count + 1) true r (1 + n) fl ak.
Proof. unfold phase. intros (-> & -> & ? & ?). split_all; done || lia. Qed.

Lemma phase_flip count r n fl ak b ic ct :
  phase true count true r n fl ak → 0 < count < 2 ^ 31 →
  phase ic ct false r n ((b, count) :: fl) ak.
Proof. unfold phase. intros (-> & -> & ? & ?) ?. left. exists b, count. split_all; done || lia. Qed.

Lemma phase_becomes_current count av r n fl ak :
  phase false count av r n fl ak → phase true 0 av r n fl ak.
Proof. unfold phase. destruct av; [|done]. intros (-> & -> & -> & ->). split_all; done || lia. Qed.

Lemma phase_count_irrel count count' av r n fl ak :
  phase false count av r n fl ak → phase false count' av r n fl ak.
Proof. done. Qed.

Lemma phase_unavail_irrel ic ic' count count' r n fl ak :
  phase ic count false r n fl ak → phase ic' count' false r n fl ak.
Proof. done. Qed.

Lemma phase_handled ic count av r n fl ak b :
  phase ic count av r (1 + n) fl ak → 0 ≤ n → 0 ≤ count < 2 ^ 31 →
  i32 (r + 1) = r + 1 ∧
  phase ic count av (r + 1) n fl (if decide (r + 1 = 0) then b :: ak else ak).
Proof.
  unfold phase. intros H Hn Hc. destruct av.
  - destruct H as (-> & -> & H). destruct ic; [|lia]. destruct H.
    rewrite i32_id by (unfold is_i32; lia). rewrite decide_False by lia. split_all; done || lia.
  - destruct H as [(b' & c & -> & ? & ? & ? & ->)|[(-> & ? & ? & -> & ?)|(? & ? & ?)]]; [| |lia].
    + rewrite i32_id by (unfold is_i32; lia). rewrite decide_False by lia. split; [done|].
      left. exists b', c. split_all; done || lia.
    + rewrite i32_id by (unfold is_i32; lia). split; [done|]. case_decide.
      * right; right. split_all; done || lia.
      * right; left. split_all; done || lia.
Qed.

Lemma phase_flip_arrives ic count av r n fl ak b c :
  phase ic count av r n ((b, c) :: fl) ak → 0 ≤ n →
  i32 (r - c) = r - c ∧ fl = [] ∧
  phase ic count av (r - c) n [] (if decide (r - c = 0) then b :: ak else ak).
Proof.
  unfold phase. intros H Hn. destruct av; [by destruct H|].
  destruct H as [(b' & c' & E & ? & ? & ? & ->)|[(? & _)|(? & _)]]; [|done|done].
  simplify_eq. rewrite i32_id by (unfold is_i32; lia). split_all; [done|done|]. case_decide.
  - right; right. split_all; done || lia.
  - right; left. split_all; done || lia.
Qed.

Lemma phase_ack_arrives ic count av r n fl ak b :
  phase ic count av r n fl (b :: ak) → (ic = true → av = false → count = 0) →
  ak = [] ∧ av = false ∧ phase ic count true r n fl [].
Proof.
  unfold phase. intros H Hc. destruct av; [by destruct H as (_ & ? & _)|].
  destruct H as [(b' & c' & _ & _ & _ & _ & ?)|[(_ & _ & _ & ? & _)|(-> & -> & -> & Hl)]]; [done|done|].
  destruct ak; [|done]. split_all; try done. destruct ic; [|done].
  rewrite Hc by done. done.
Qed.

(** *** Steps *)

Lemma li_lmb_ok cfg bases y g : lmb_inv cfg bases y g → lmb_ok cfg (tx y).
Proof.
  intros H. pose proof (li_lmb _ _ _ _ H). pose proof (li_off _ _ _ _ H).
  split; try apply H; try lia. by rewrite (li_wb _ _ _ _ H), (li_len _ _ _ _ H).
Qed.

(** A write: the message starts at the write offset, past every other message
    of the current buffer. *)
Lemma lmb_write_inv cfg bases y g size dest tx' :
  lmb_inv cfg bases y g → 0 < size ≤ lmb_size cfg →
  lmb_reserve cfg (tx y) size = Some (LmbWrite dest tx') →
  lmb_inv cfg bases (mkLmbSys tx' (rx y) ((dest, size) :: inflight y) (flips y) (acks y))
    (mkSlot (cur_write_lmb (tx y)) (cur_write_offset (tx y)) size :: g).
Proof.
  intros H Hs E. destruct (lmb_reserve_ok cfg (tx y) size (li_lmb_ok _ _ _ _ H) Hs)
    as (act & E' & Hact). rewrite E in E'. simplify_eq.
  destruct Hact as (Hav & Hfit & (base & Hb & ->) & ->). rewrite (li_wb _ _ _ _ H) in Hb.
  pose proof (li_off _ _ _ _ H) as Hoff. pose proof (li_lmb _ _ _ _ H) as Hlmb.
  pose proof (li_cnt _ _ _ _ H) as Hcnt. pose proof (li_curs _ _ _ _ H Hav) as Hcurs.
  destruct (round_up_spec 128 (cur_write_offset (tx y) + size)) as [[q Hq] Hround]; [lia..|].
  assert (128 * (cur_write_count (tx y) + 1) ≤ round_up 128 (cur_write_offset (tx y) + size)) as Hn
    by lia.
  destruct H. split; simpl; try done; try lia.
  - rewrite Hav. done.
  - unfold slot_ptr. simpl. by rewrite Hb, li_fly0.
  - constructor; [simpl; lia|done].
  - constructor; [|done]. rewrite Forall_forall in Hcurs. apply Forall_forall.
    intros s Hin Eb. simpl in *. specialize (Hcurs s Hin (eq_sym Eb)). unfold no_overlap. lia.
  - intros _. constructor; [simpl; lia|]. eapply Forall_impl; [exact Hcurs|].
    intros s Hx Eb. specialize (Hx Eb). lia.
  - intros b av r Ha Hr. specialize (li_phase0 b av r Ha Hr). rewrite cnt_cons. simpl.
    case_bool_decide as Hbc.
    + subst b. rewrite decide_True by done. rewrite Hav in Ha. simplify_eq.
      by apply phase_write.
    + rewrite decide_False by done. by apply phase_count_irrel with (count := cur_write_count (tx y)).
Qed.

Lemma flips_of_cons b f l :
  flips_of b (f :: l) = if decide (f.1 = b) then f :: flips_of b l else flips_of b l.
Proof. unfold flips_of. by rewrite filter_cons. Qed.

Lemma acks_of_cons b a l :
  acks_of b (a :: l) = if decide (a = b) then a :: acks_of b l else acks_of b l.
Proof. unfold acks_of. by rewrite filter_cons. Qed.

(** Phases only depend on the multisets of flips and acknowledgements. *)
Lemma phase_perm ic count av r n fl fl' ak ak' :
  fl ≡ₚ fl' → ak ≡ₚ ak' → phase ic count av r n fl ak → phase ic count av r n fl' ak'.
Proof.
  intros Hf Ha. unfold phase. destruct av.
  - intros (-> & -> & H). apply Permutation_nil_l in Hf; subst fl'. apply Permutation_nil_l in Ha; by subst ak'.
  - intros [(b & c & -> & ? & ? & ? & ->)|[(-> & ? & ? & -> & ?)|(-> & ? & ? & Hl)]].
    + apply Permutation_singleton_l in Hf; subst fl'. apply Permutation_nil_l in Ha; subst ak'.
      left. by exists b, c.
    + apply Permutation_nil_l in Hf; subst fl'. apply Permutation_nil_l in Ha; subst ak'. by right; left.
    + apply Permutation_nil_l in Hf; subst fl'. rewrite Ha in Hl. by right; right.
Qed.

Lemma flips_of_perm b l l' : l ≡ₚ l' → flips_of b l ≡ₚ flips_of b l'.
Proof. intros Hp. unfold flips_of. by rewrite Hp. Qed.

Lemma acks_of_perm b l l' : l ≡ₚ l' → acks_of b l ≡ₚ acks_of b l'.
Proof. intros Hp. unfold acks_of. by rewrite Hp. Qed.

(** A flip: the buffer waits, and the next one becomes current. *)
Lemma lmb_flip_inv cfg bases y g size b c tx' :
  lmb_inv cfg bases y g → 0 < size ≤ lmb_size cfg →
  lmb_reserve cfg (tx y) size = Some (LmbFlip b c tx') →
  lmb_inv cfg bases (mkLmbSys tx' (rx y) (inflight y) ((b, c) :: flips y) (acks y)) g.
Proof.
  intros H Hs E. destruct (lmb_reserve_ok cfg (tx y) size (li_lmb_ok _ _ _ _ H) Hs)
    as (act & E' & Hact). rewrite E in E'. simplify_eq.
  destruct Hact as (Hav & -> & -> & Hpos & ->).
  pose proof (li_cur _ _ _ _ H) as Hcur. pose proof (li_off _ _ _ _ H) as Hoff.
  pose proof (li_cnt _ _ _ _ H) as Hcnt. pose proof (li_zero _ _ _ _ H) as Hz.
  pose proof (li_lmb _ _ _ _ H) as Hlmb. pose proof (li_n _ _ _ _ H) as Hn.
  pose proof (Z.mod_pos_bound (cur_write_lmb (tx y) + 1) (num_lmbs cfg) Hn) as Hmod.
  set (cur := cur_write_lmb (tx y)) in *. set (next := (cur + 1) `mod` num_lmbs cfg) in *.
  assert (∀ b av, aget (aset (lmb_w_avail (tx y)) cur false) b = Some av →
    b = cur ∧ av = false ∨ b ≠ cur ∧ aget (lmb_w_avail (tx y)) b = Some av) as Hget.
  { intros b av Hb. destruct (decide (b = cur)) as [->|Hne].
    - rewrite aget_aset_eq in Hb; [|rewrite (li_av _ _ _ _ H); done]. simplify_eq. by left.
    - rewrite aget_aset_ne in Hb by done. by right. }
  destruct H. split; simpl; try done; try lia.
  - unfold zlen. by rewrite aset_length.
  - intros Hnx. apply Forall_forall. intros s Hin Eb. exfalso.
    destruct (Hget _ _ Hnx) as [[_ ?]|[Hne Hnav]]; [done|].
    destruct (aget_is_Some (lmb_r_counts (rx y)) next) as [r Hr]; [lia|].
    specialize (li_phase0 next true r Hnav Hr).
    rewrite bool_decide_false in li_phase0 by done. destruct li_phase0 as (_ & _ & _ & Hz0).
    pose proof (cnt_elem next s g Hin Eb). lia.
  - constructor; [simpl; lia|done].
  - intros b av r Hb Hr. rewrite flips_of_cons. simpl.
    destruct (Hget _ _ Hb) as [[-> ->]|[Hne Hav']].
    + rewrite decide_True by done. specialize (li_phase0 cur true r Hav Hr).
      rewrite bool_decide_true in li_phase0 by done.
      eapply phase_flip; [exact li_phase0|]. lia.
    + rewrite decide_False by done. specialize (li_phase0 b av r Hav' Hr).
      rewrite bool_decide_false in li_phase0 by done. case_bool_decide.
      * by eapply phase_becomes_current.
      * by eapply phase_count_irrel.
Qed.

(** What a change of one counter leaves to show. *)
Lemma lmb_counter_inv cfg bases y g g' rest fl' b r' ack :
  lmb_inv cfg bases y g → 0 ≤ b < num_lmbs cfg →
  rest = slot_ptr bases <$> g' → g' ⊆ g → ForallOrdPairs slots_disjoint g' →
  fl' ⊆ flips y → (ack = None ∨ ack = Some b) →
  (∀ b', b' ≠ b → cnt b' g' = cnt b' g) →
  (∀ b', b' ≠ b → flips_of b' fl' ≡ₚ flips_of b' (flips y)) →
  (∀ av, aget (lmb_w_avail (tx y)) b = Some av →
     phase (bool_decide (b = cur_write_lmb (tx y))) (cur_write_count (tx y)) av r' (cnt b g')
       (flips_of b fl') (option_list ack ++ acks_of b (acks y))) →
  lmb_inv cfg bases
    (mkLmbSys (tx y) (set_r_counts (rx y) (aset (lmb_r_counts (rx y)) b r')) rest fl'
       (option_list ack ++ acks y)) g'.
Proof.
  intros H Hb Hrest Hsub Hdisj Hfl Hack Hcnt Hflo Hph. destruct H. split; simpl; try done.
  - unfold zlen. by rewrite aset_length.
  - apply Forall_forall. intros s Hin. rewrite Forall_forall in li_slots0. by apply li_slots0, Hsub.
  - intros Hav. specialize (li_curs0 Hav). rewrite Forall_forall in li_curs0.
    apply Forall_forall. intros s Hin. by apply li_curs0, Hsub.
  - apply Forall_forall. intros f Hin. rewrite Forall_forall in li_flips0. by apply li_flips0, Hfl.
  - apply Forall_app. split; [|done]. destruct Hack as [-> | ->]; [apply Forall_nil_2|by apply Forall_singleton].
  - intros b' av r Hav Hr. destruct (decide (b' = b)) as [->|Hne].
    + rewrite aget_aset_eq in Hr by lia. simplify_eq. specialize (Hph av Hav).
      replace (acks_of b (option_list ack ++ acks y)) with (option_list ack ++ acks_of b (acks y));
        [done|]. destruct Hack as [-> | ->]; simpl; [done|]. by rewrite acks_of_cons, decide_True.
    + rewrite aget_aset_ne in Hr by done. specialize (li_phase0 b' av r Hav Hr).
      rewrite Hcnt by done. eapply phase_perm; [| |exact li_phase0].
      * symmetry. by apply Hflo.
      * destruct Hack as [-> | ->]; simpl; [done|]. by rewrite acks_of_cons, decide_False by done.
Qed.

Lemma slot_ptr_found cfg bases y g s :
  lmb_inv cfg bases y g → s ∈ g → r_buffer_of cfg (rx y) (slot_ptr bases s).1 = sl_buf s.
Proof.
  intros H Hin. pose proof (li_slots _ _ _ _ H) as Hsl. rewrite Forall_forall in Hsl.
  destruct (Hsl s Hin) as (Hb & Ho & Hp & Hf). unfold r_buffer_of. rewrite (li_rb _ _ _ _ H).
  rewrite take_ge by (pose proof (li_len _ _ _ _ H); unfold zlen in *; lia).
  destruct (aget_is_Some bases (sl_buf s)) as [base Hbase]; [rewrite (li_len _ _ _ _ H); lia|].
  unfold slot_ptr. simpl. rewrite Hbase. simpl.
  apply find_r_buffer_ok; [apply H|done|lia].
Qed.

(** The receiver's handler is done with a message. *)
Lemma lmb_handled_inv cfg bases y g ptr size rest :
  lmb_inv cfg bases y g → inflight y ≡ₚ (ptr, size) :: rest →
  ∃ rx' ack, count_received (rx y) (r_buffer_of cfg (rx y) ptr) = Some (rx', ack) ∧
    ∃ g', lmb_inv cfg bases (mkLmbSys (tx y) rx' rest (flips y) (option_list ack ++ acks y)) g'.
Proof.
  intros H Hp. rewrite (li_fly _ _ _ _ H) in Hp. symmetry in Hp.
  apply Permutation_map_inv in Hp as ([|s g'] & E & Hg); [done|]. simpl in E.
  injection E as Eptr Esz Erest. symmetry in Hg.
  assert (s ∈ g) as Hin by (rewrite <- Hg; by left).
  pose proof (slot_ptr_found _ _ _ _ _ H Hin) as Hf. simpl in Hf. rewrite <- Eptr in Hf. rewrite Hf.
  pose proof (li_slots _ _ _ _ H) as Hsl. rewrite Forall_forall in Hsl.
  destruct (Hsl s Hin) as (Hb & _).
  destruct (aget_is_Some (lmb_r_counts (rx y)) (sl_buf s)) as [r Hr]; [rewrite (li_rc _ _ _ _ H); lia|].
  destruct (aget_is_Some (lmb_w_avail (tx y)) (sl_buf s)) as [av Hav]; [rewrite (li_av _ _ _ _ H); lia|].
  pose proof (li_phase _ _ _ _ H _ _ _ Hav Hr) as Hph.
  rewrite (cnt_perm (sl_buf s) g (s :: g') (symmetry Hg)), cnt_cons, decide_True in Hph by done.
  pose proof (li_cnt _ _ _ _ H). pose proof (li_off _ _ _ _ H). pose proof (li_lmb _ _ _ _ H).
  destruct (phase_handled _ _ _ _ _ _ _ (sl_buf s) Hph (cnt_nonneg _ _)) as [Ei Hph']; [lia|].
  unfold count_received. rewrite Hr. simpl. rewrite Ei. eexists _, _. split; [done|].
  exists g'. eapply lmb_counter_inv; try done.
  - intros x Hx. rewrite <- Hg. by right.
  - pose proof (li_disj _ _ _ _ H) as Hd. apply (ForallOrdPairs_perm _ _ _ (symmetry Hg)) in Hd.
    by inversion Hd.
  - case_decide; auto.
  - intros b' Hne. rewrite (cnt_perm b' g (s :: g') (symmetry Hg)), cnt_cons, decide_False by done. lia.
  - intros av' Hav'. rewrite Hav in Hav'. simplify_eq. by case_decide.
Qed.

(** A flip request arrives. *)
Lemma lmb_flip_arrives_inv cfg bases y g b c rest :
  lmb_inv cfg bases y g → flips y ≡ₚ (b, c) :: rest →
  ∃ rx' ack, count_flipped (rx y) b c = Some (rx', ack) ∧
    lmb_inv cfg bases (mkLmbSys (tx y) rx' (inflight y) rest (option_list ack ++ acks y)) g.
Proof.
  intros H Hp. pose proof (li_flips _ _ _ _ H) as Hfl. rewrite Hp in Hfl.
  apply Forall_cons in Hfl as [Hb _]. simpl in Hb.
  destruct (aget_is_Some (lmb_r_counts (rx y)) b) as [r Hr]; [rewrite (li_rc _ _ _ _ H); lia|].
  destruct (aget_is_Some (lmb_w_avail (tx y)) b) as [av Hav]; [rewrite (li_av _ _ _ _ H); lia|].
  pose proof (li_phase _ _ _ _ H _ _ _ Hav Hr) as Hph.
  eapply phase_perm in Hph; [|by apply flips_of_perm|done].
  rewrite flips_of_cons, decide_True in Hph by done.
  destruct (phase_flip_arrives _ _ _ _ _ _ _ _ _ Hph (cnt_nonneg _ _)) as (Ei & Enil & Hph').
  unfold count_flipped. rewrite Hr. simpl. rewrite Ei. eexists _, _. split; [done|].
  eapply lmb_counter_inv; try done; try apply H.
  - intros f Hf. rewrite Hp. by right.
  - case_decide; auto.
  - intros b' Hne. rewrite (flips_of_perm b' _ _ Hp), flips_of_cons, decide_False by done. done.
  - intros av' Hav'. rewrite Hav in Hav'. simplify_eq. rewrite Enil. by case_decide.
Qed.

(** An acknowledgement arrives. *)
Lemma lmb_ack_arrives_inv cfg bases y g b rest :
  lmb_inv cfg bases y g → acks y ≡ₚ b :: rest →
  ∃ tx', handle_flip_ack (tx y) b = Some tx' ∧
    lmb_inv cfg bases (mkLmbSys tx' (rx y) (inflight y) (flips y) rest) g.
Proof.
  intros H Hp. pose proof (li_acks _ _ _ _ H) as Hak. rewrite Hp in Hak.
  apply Forall_cons in Hak as [Hb Hak].
  destruct (aget_is_Some (lmb_r_counts (rx y)) b) as [r Hr]; [rewrite (li_rc _ _ _ _ H); lia|].
  destruct (aget_is_Some (lmb_w_avail (tx y)) b) as [av Hav]; [rewrite (li_av _ _ _ _ H); lia|].
  pose proof (li_phase _ _ _ _ H _ _ _ Hav Hr) as Hph.
  eapply phase_perm in Hph; [|done|by apply acks_of_perm].
  rewrite acks_of_cons, decide_True in Hph by done.
  destruct (phase_ack_arrives _ _ _ _ _ _ _ _ Hph) as (Enil & -> & Hph').
  { intros Hc ->. apply bool_decide_eq_true in Hc. subst b. by apply (li_wait _ _ _ _ H). }
  unfold handle_flip_ack. rewrite assert_true by (rewrite (li_av _ _ _ _ H); lia).
  eexists. split; [done|].
  assert (∀ b' av', aget (aset (lmb_w_avail (tx y)) b true) b' = Some av' →
    b' = b ∧ av' = true ∨ b' ≠ b ∧ aget (lmb_w_avail (tx y)) b' = Some av') as Hget.
  { intros b' av' Hb'. destruct (decide (b' = b)) as [->|Hne].
    - rewrite aget_aset_eq in Hb'; [|rewrite (li_av _ _ _ _ H); lia]. simplify_eq. by left.
    - rewrite aget_aset_ne in Hb' by done. by right. }
  assert (cnt b g = 0) as Hc0.
  { destruct Hph as [(? & ? & _ & _ & _ & _ & ?)|[(_ & _ & _ & ? & _)|(_ & ? & _)]]; done. }
  destruct H. split; simpl; try done.
  - unfold zlen. by rewrite aset_length.
  - intros Hcur. destruct (Hget _ _ Hcur) as [[_ ?]|[_ ?]]; [done|auto].
  - intros Hcur. destruct (Hget _ _ Hcur) as [[Ecur _]|[_ ?]]; [|auto].
    apply Forall_forall. intros s Hin Eb. pose proof (cnt_elem b s g Hin ltac:(congruence)). lia.
  - intros b' av' r' Hb' Hr'. destruct (Hget _ _ Hb') as [[-> ->]|[Hne Hav']].
    + rewrite Hr in Hr'. simplify_eq. eapply phase_perm; [done| |exact Hph'].
      destruct (Hph') as (_ & _ & _). assert (acks_of b rest = []) as ->; [|done]. done.
    + specialize (li_phase0 b' av' r' Hav' Hr').
      eapply phase_perm; [done| |exact li_phase0].
      rewrite (acks_of_perm b' _ _ Hp), acks_of_cons, decide_False by done. done.
Qed.

(** ** Reachable states *)

Lemma lmb_step_inv cfg bases y y' g :
  lmb_inv cfg bases y g → lmb_step cfg y y' → ∃ g', lmb_inv cfg bases y' g'.
Proof.
  intros H Hstep. revert H.
  destruct Hstep as [y size dest tx' Hs E|y size b c tx' Hs E|y ptr size rest rx' ack Hp E
                    |y b c rest rx' ack Hp E|y b rest tx' Hp E]; intros H.
  - eexists. by eapply lmb_write_inv.
  - eexists. by eapply lmb_flip_inv.
  - destruct (lmb_handled_inv _ _ _ _ _ _ _ H Hp) as (rx2 & ack2 & E2 & g' & H').
    rewrite E in E2. simplify_eq. by exists g'.
  - destruct (lmb_flip_arrives_inv _ _ _ _ _ _ _ H Hp) as (rx2 & ack2 & E2 & H').
    rewrite E in E2. simplify_eq. by exists g.
  - destruct (lmb_ack_arrives_inv _ _ _ _ _ _ H Hp) as (tx2 & E2 & H').
    rewrite E in E2. simplify_eq. by exists g.
Qed.

(** The bases computed by the two constructors. *)
Lemma mapM_seqZ (f : Z → option Z) (h : Z → Z) n :
  (∀ i, 0 ≤ i < n → f i = Some (h i)) → mapM f (seqZ 0 n) = Some (h <$> seqZ 0 n).
Proof.
  intros Hf. apply mapM_Some. apply Forall2_fmap_r, Forall_Forall2_diag, Forall_forall.
  intros i Hi%elem_of_seqZ. apply Hf. lia.
Qed.

Lemma aget_fmap_seqZ (h : Z → Z) n i x :
  aget (h <$> seqZ 0 n) i = Some x → 0 ≤ i < n ∧ x = h i.
Proof.
  intros E. pose proof (aget_Some_range _ _ _ E) as Hr. unfold zlen in Hr.
  rewrite length_fmap, length_seqZ in Hr.
  unfold aget in E. rewrite decide_True in E by lia.
  rewrite list_lookup_fmap, lookup_seqZ_lt in E by lia. simpl in E. simplify_eq.
  split; [lia|]. f_equal. lia.
Qed.

(** Two nodes whose segments have the same size, as [gasnet_attach] is called
    with the same size everywhere, and hold the LMBs of all nodes; the number
    of LMBs is an [int]. *)
Record lmb_setup (cfg : Config) (segs : list (Z * Z)) (a b : Z) (addr size : Z) : Prop := {
  ls_num : 0 < num_lmbs cfg < 2 ^ 31;
  ls_lmb : 0 < lmb_size cfg < 2 ^ 31;
  ls_a : 0 ≤ a < zlen segs ∧ ∃ addra, aget segs a = Some (addra, size);
  ls_b : aget segs b = Some (addr, size);
  ls_fit : lmb_size cfg * (zlen segs * num_lmbs cfg) ≤ size < 2 ^ 63 }.

(** The numbers of a peer's buffers wrap together, and apart from each other. *)
Lemma lmb_number_inj cfg k i j :
  num_lmbs cfg < 2 ^ 32 → 0 ≤ i < num_lmbs cfg → 0 ≤ j < num_lmbs cfg → i ≠ j →
  lmb_number cfg k i ≠ lmb_number cfg k j.
Proof.
  intros Hn Hi Hj Hne E. unfold lmb_number, u32 in E.
  apply (f_equal (λ z, (z - (k * num_lmbs cfg + 1)) `mod` 2 ^ 32)) in E.
  rewrite !Zminus_mod_idemp_l in E.
  replace (_ + i + 1 - _) with i in E by lia. replace (_ + j + 1 - _) with j in E by lia.
  rewrite !Z.mod_small in E by lia. done.
Qed.

(** Node [a]'s pointers for writing to [b] are [b]'s pointers for reading from
    [a]. *)
Lemma lmb_bases_agree cfg segs a b addr size :
  lmb_setup cfg segs a b addr size →
  ∃ bases wb rb,
    Endpoint_init cfg segs a b = Some (mkEp b [] [] 0 0 0 bases rb
      (replicate (Z.to_nat (num_lmbs cfg)) 0) (replicate (Z.to_nat (num_lmbs cfg)) true) ∅ 0) ∧
    Endpoint_init cfg segs b a = Some (mkEp a [] [] 0 0 0 wb bases
      (replicate (Z.to_nat (num_lmbs cfg)) 0) (replicate (Z.to_nat (num_lmbs cfg)) true) ∅ 0) ∧
    zlen bases = num_lmbs cfg ∧
    (∀ i j bi bj, i ≠ j → aget bases i = Some bi → aget bases j = Some bj →
       bi + lmb_size cfg ≤ bj ∨ bj + lmb_size cfg ≤ bi).
Proof.
  intros [Hn Hl (Ha & addra & Hsa) Hsb Hfit].
  pose proof (aget_Some_range _ _ _ Hsb) as Hb.
  set (n := num_lmbs cfg) in *. set (L := lmb_size cfg) in *.
  set (h := λ (addr k i : Z), addr + (size - L * lmb_number cfg k i)).
  assert (∀ k i, 0 ≤ k < zlen segs → 0 ≤ i < n →
    u64 (size - u64 (L * lmb_number cfg k i)) = size - L * lmb_number cfg k i) as Hu.
  { intros k i Hk Hi. assert (0 ≤ k * n + i + 1 ≤ zlen segs * n) as Hki by nia.
    assert (0 ≤ lmb_number cfg k i ≤ zlen segs * n) as Hnum.
    { unfold lmb_number, u32. fold n. pose proof (Z.mod_pos_bound (k * n + i + 1) (2 ^ 32)).
      pose proof (Z.mod_le (k * n + i + 1) (2 ^ 32)). lia. }
    assert (0 ≤ L * lmb_number cfg k i ≤ size) by nia.
    rewrite (u64_id (L * _)) by (unfold is_u64; lia). apply u64_id. unfold is_u64. lia. }
  assert (mapM (lmb_w_base cfg segs a b) (seqZ 0 n) = Some (h addr a <$> seqZ 0 n)) as E1.
  { apply mapM_seqZ. intros i Hi. unfold lmb_w_base. rewrite Hsb. simpl. fold L. by rewrite Hu. }
  assert (mapM (lmb_r_base cfg segs b a) (seqZ 0 n) = Some (h addr a <$> seqZ 0 n)) as E2.
  { apply mapM_seqZ. intros i Hi. unfold lmb_r_base. rewrite Hsb, Hsa. simpl. fold L. by rewrite Hu. }
  assert (mapM (lmb_r_base cfg segs a b) (seqZ 0 n) = Some (h addra b <$> seqZ 0 n)) as E3.
  { apply mapM_seqZ. intros i Hi. unfold lmb_r_base. rewrite Hsb, Hsa. simpl. fold L. by rewrite Hu. }
  assert (mapM (lmb_w_base cfg segs b a) (seqZ 0 n) = Some (h addra b <$> seqZ 0 n)) as E4.
  { apply mapM_seqZ. intros i Hi. unfold lmb_w_base. rewrite Hsa. simpl. fold L. by rewrite Hu. }
  exists (h addr a <$> seqZ 0 n), (h addra b <$> seqZ 0 n), (h addra b <$> seqZ 0 n).
  unfold Endpoint_init. fold n. rewrite E1, E2, E3, E4. split_all; try done.
  - unfold zlen. rewrite length_fmap, length_seqZ. lia.
  - intros i j bi bj Hij Hi Hj. apply aget_fmap_seqZ in Hi as [Hi ->].
    apply aget_fmap_seqZ in Hj as [Hj ->]. unfold h.
    pose proof (lmb_number_inj cfg a i j ltac:(lia) Hi Hj Hij). nia.
Qed.

Definition lmb_start (ea eb : Endpoint) : lmb_sys := mkLmbSys ea eb [] [] [].

Lemma aget_replicate {A} n (x y : A) i : aget (replicate n x) i = Some y → y = x.
Proof. unfold aget. case_decide; [|done]. by intros [-> _]%lookup_replicate. Qed.

Lemma lmb_start_inv cfg segs a b addr size ea eb :
  lmb_setup cfg segs a b addr size →
  Endpoint_init cfg segs a b = Some ea → Endpoint_init cfg segs b a = Some eb →
  ∃ bases, lmb_inv cfg bases (lmb_start ea eb) [].
Proof.
  intros H Ea Eb. destruct (lmb_bases_agree _ _ _ _ _ _ H)
    as (bases & wb & rb & Ea' & Eb' & Hlen & Hap).
  rewrite Ea in Ea'. rewrite Eb in Eb'. simplify_eq. destruct H as [Hn Hl _ _ _].
  exists bases. split; simpl; try done; try lia; try (by constructor).
  - unfold zlen. rewrite length_replicate. lia.
  - unfold zlen. rewrite length_replicate. lia.
  - intros b' av r Hav Hr. apply aget_replicate in Hav as ->. apply aget_replicate in Hr as ->.
    by case_bool_decide.
Qed.

Lemma slot_base cfg bases y g s : lmb_inv cfg bases y g → s ∈ g →
  ∃ base, aget bases (sl_buf s) = Some base ∧ slot_ptr bases s = (base + sl_off s, sl_size s).
Proof.
  intros H Hs. pose proof (li_slots _ _ _ _ H) as Hsl. rewrite Forall_forall in Hsl.
  destruct (Hsl s Hs) as (Hb & _).
  destruct (aget_is_Some bases (sl_buf s)) as [base Hbase]; [rewrite (li_len _ _ _ _ H); lia|].
  exists base. unfold slot_ptr. by rewrite Hbase.
Qed.

(** Unconsumed messages occupy disjoint memory. *)
Lemma inflight_disjoint cfg bases y g : lmb_inv cfg bases y g →
  ForallOrdPairs (λ m m', no_overlap m.1 m.2 m'.1 m'.2) (inflight y).
Proof.
  intros H. rewrite (li_fly _ _ _ _ H). pose proof (slot_base cfg bases y g) as Hptr.
  pose proof (li_slots _ _ _ _ H) as Hsl. rewrite Forall_forall in Hsl.
  pose proof (li_disj _ _ _ _ H) as Hd. pose proof (li_apart _ _ _ _ H) as Hap.
  specialize (λ s, Hptr s H). clear H.
  induction Hd as [|s g Hs Hd IH]; [constructor|]. rewrite fmap_cons. constructor.
  - apply Forall_fmap, Forall_forall. intros t Ht. rewrite Forall_forall in Hs.
    specialize (Hs t Ht). destruct (Hptr s ltac:(by left)) as (bs & Ebs & Es).
    destruct (Hptr t ltac:(by right)) as (bt & Ebt & Et). unfold compose. rewrite Es, Et. simpl.
    destruct (Hsl s ltac:(by left)) as (_ & ? & ? & ?).
    destruct (Hsl t ltac:(by right)) as (_ & ? & ? & ?).
    destruct (decide (sl_buf s = sl_buf t)) as [E|Hne].
    + specialize (Hs E). rewrite E, Ebt in Ebs. simplify_eq. unfold no_overlap in *. lia.
    + destruct (Hap _ _ _ _ Hne Ebs Ebt); unfold no_overlap; lia.
  - apply IH; [|set_solver]; intros; by apply Hsl || apply Hptr; right.
Qed.

(** With nothing in flight the sender can write. *)
Lemma sender_has_buffer cfg bases y : lmb_inv cfg bases y [] → flips y = [] → acks y = [] →
  aget (lmb_w_avail (tx y)) (cur_write_lmb (tx y)) = Some true.
Proof.
  intros H Hf Hk.
  destruct (aget_is_Some (lmb_w_avail (tx y)) (cur_write_lmb (tx y))) as [[] Hav];
    [rewrite (li_av _ _ _ _ H); apply H|done|].
  destruct (aget_is_Some (lmb_r_counts (rx y)) (cur_write_lmb (tx y))) as [r Hr'];
    [rewrite (li_rc _ _ _ _ H); apply H|].
  pose proof (li_phase _ _ _ _ H _ _ _ Hav Hr') as Hph. rewrite Hf, Hk in Hph.
  destruct Hph as [(? & ? & ? & _)|[(_ & Hbad & _)|(_ & _ & _ & ?)]]; [done| |done].
  by vm_compute in Hbad.
Qed.

Lemma lmb_reachable_inv cfg segs a b addr size ea eb y :
  lmb_setup cfg segs a b addr size →
  Endpoint_init cfg segs a b = Some ea → Endpoint_init cfg segs b a = Some eb →
  rtc (lmb_step cfg) (lmb_start ea eb) y → ∃ bases g, lmb_inv cfg bases y g.
Proof.
  intros Hset Ea Eb Hr. destruct (lmb_start_inv _ _ _ _ _ _ _ _ Hset Ea Eb) as [bases H0].
  exists bases. revert H0. generalize (@nil slot). induction Hr as [|x z y Hs _ IH]; intros g H; [by exists g|].
  destruct (lmb_step_inv _ _ _ _ _ H Hs) as [g' H']. by apply (IH g').
Qed.

(** C5. The LMB protocol is safe and does not deadlock.  In every state two
    endpoints can reach, whatever order the network delivers long messages,
    flips and acknowledgements in: the messages the receiver is not done with
    occupy disjoint memory, so none was overwritten; each is inside one LMB,
    where the receiver finds it; every event that can arrive is handled
    without failing; and whenever nothing is in flight the sender's current
    LMB is available. *)
Theorem lmb_reachable_safe cfg segs a b addr size ea eb y :
  lmb_setup cfg segs a b addr size →
  Endpoint_init cfg segs a b = Some ea → Endpoint_init cfg segs b a = Some eb →
  rtc (lmb_step cfg) (lmb_start ea eb) y →
  ForallOrdPairs (λ m m', no_overlap m.1 m.2 m'.1 m'.2) (inflight y) ∧
  Forall (λ m, ∃ i base, r_buffer_of cfg (rx y) m.1 = i ∧ aget (lmb_r_bases (rx y)) i = Some base ∧
    base ≤ m.1 ∧ m.1 + m.2 ≤ base + lmb_size cfg ∧ is_Some (count_received (rx y) i)) (inflight y) ∧
  Forall (λ f, is_Some (count_flipped (rx y) f.1 f.2)) (flips y) ∧
  Forall (λ i, is_Some (handle_flip_ack (tx y) i)) (acks y) ∧
  (inflight y = [] → flips y = [] → acks y = [] →
   aget (lmb_w_avail (tx y)) (cur_write_lmb (tx y)) = Some true).
Proof.
  intros Hset Ea Eb Hr. destruct (lmb_reachable_inv _ _ _ _ _ _ _ _ _ Hset Ea Eb Hr) as (bases & g & H).
  split; [by eapply inflight_disjoint|]. pose proof (li_slots _ _ _ _ H) as Hsl. rewrite Forall_forall in Hsl.
  rewrite (li_fly _ _ _ _ H). split_all.
  - apply Forall_fmap, Forall_forall. intros s Hs. destruct (slot_base _ _ _ _ _ H Hs) as (base & Eb' & Es).
    destruct (Hsl s Hs) as (Hbr & ? & ? & ?). exists (sl_buf s), base.
    rewrite (li_rb _ _ _ _ H). unfold compose. rewrite Es. simpl. split_all; [|done|lia|lia|].
    + pose proof (slot_ptr_found _ _ _ _ _ H Hs) as Hfd. by rewrite Es in Hfd.
    + unfold count_received. destruct (aget_is_Some (lmb_r_counts (rx y)) (sl_buf s)) as [r ->];
        [rewrite (li_rc _ _ _ _ H); lia|]. by eexists.
  - eapply Forall_impl; [apply (li_flips _ _ _ _ H)|]. intros f Hf. unfold count_flipped.
    destruct (aget_is_Some (lmb_r_counts (rx y)) f.1) as [r ->];
      [rewrite (li_rc _ _ _ _ H); simpl in *; lia|]. by eexists.
  - eapply Forall_impl; [apply (li_acks _ _ _ _ H)|]. intros i Hi. unfold handle_flip_ack.
    rewrite assert_true by (rewrite (li_av _ _ _ _ H); simpl in *; lia). by eexists.
  - intros Hg. apply fmap_nil_inv in Hg. subst g. by eapply sender_has_buffer.
Qed.

Definition example_segs : list (Z * Z) := [(100000, 20000); (200000, 20000)].

Lemma example_setup : lmb_setup example_cfg example_segs 0 1 200000 20000.
Proof. split; simpl; try done; try lia. split; [done|]. by exists 100000. Qed.

(** Two messages are on their way, and a third did not fit beside them: the
    buffer is flipped. *)
Lemma lmb_reachable_safe_witness :
  ∃ ea eb y, Endpoint_init example_cfg example_segs 0 1 = Some ea ∧
    Endpoint_init example_cfg example_segs 1 0 = Some eb ∧
    rtc (lmb_step example_cfg) (lmb_start ea eb) y ∧
    inflight y = [(216032, 50); (215904, 100)] ∧ flips y = [(0, 2)] ∧
    ForallOrdPairs (λ m m', no_overlap m.1 m.2 m'.1 m'.2) (inflight y) ∧
    Forall (λ f, is_Some (count_flipped (rx y) f.1 f.2)) (flips y).
Proof.
  destruct (Endpoint_init example_cfg example_segs 0 1) as [ea|] eqn:Ea;
    [|vm_compute in Ea; discriminate].
  destruct (Endpoint_init example_cfg example_segs 1 0) as [eb|] eqn:Eb;
    [|vm_compute in Eb; discriminate].
  pose proof Ea as Ea'. vm_compute in Ea'. injection Ea' as Eea.
  eassert (rtc (lmb_step example_cfg) (lmb_start ea eb) (mkLmbSys _ eb _ _ [])) as Hr.
  { eapply rtc_l; [eapply (lmb_write _ _ 100); [simpl; lia|subst ea; vm_compute; reflexivity]|].
    eapply rtc_l; [eapply (lmb_write _ _ 50); [simpl; lia|vm_compute; reflexivity]|].
    eapply rtc_l; [eapply (lmb_flip _ _ 4000); [simpl; lia|vm_compute; reflexivity]|].
    apply rtc_refl. }
  exists ea, eb. eexists. split; [done|]. split; [done|]. split; [exact Hr|].
  split; [reflexivity|]. split; [reflexivity|].
  destruct (lmb_reachable_safe example_cfg example_segs 0 1 200000 20000 ea eb _
           example_setup Ea Eb Hr) as (Hd & _ & Hf & _).
  split; [exact Hd|exact Hf].
Defined.
