(* ===== verification/EndpointManager.v ===== *)
(** * The endpoint manager

    [EndpointManager] of src/templates/activemsg.cc: an endpoint per peer, the
    ring of endpoints with something to send, and the loop that pops an
    endpoint, pushes its messages and puts it back when some are left.  The
    ring is shown never to wrap around against the interface
    [SendQueue], which the endpoints implement. *)

From S2P Require Import Prelude Ring Spans SrcDataPool Bytes Payload Endpoint.

Record EndpointManager := mkEpm {
  total_endpoints : Z;
  endpoints : list (option Endpoint);
  em_todo : Ring;
  em_shutdown : bool }.

Definition set_endpoint (m : EndpointManager) (target : Z) (e : Endpoint) : EndpointManager :=
  mkEpm (total_endpoints m) (aset (endpoints m) target (Some e)) (em_todo m) (em_shutdown m).
Definition set_todo (m : EndpointManager) (r : Ring) : EndpointManager :=
  mkEpm (total_endpoints m) (endpoints m) r (em_shutdown m).

(** The node's own entry stays null. *)
Definition EndpointManager_init (cfg : Config) (segs : list (Z * Z)) (mynode n : Z)
    : option EndpointManager :=
  eps ← mapM (λ i, if decide (i = mynode) then Some None
                   else e ← Endpoint_init cfg segs mynode i; Some (Some e)) (seqZ 0 n);
  Some (mkEpm n eps (ring_init n) false).

(** [endpoints[target]], which the callers dereference. *)
Definition get_endpoint (m : EndpointManager) (target : Z) : option Endpoint :=
  o ← aget (endpoints m) target; o.

Definition add_todo_entry (m : EndpointManager) (target : Z) : option EndpointManager :=
  r ← ring_push (total_endpoints m) (em_todo m) target; Some (set_todo m r).

Definition add_if (b : bool) (m : EndpointManager) (target : Z) : option EndpointManager :=
  if b then add_todo_entry m target else Some m.

Definition em_enqueue_message (cfg : Config) (copy_ptr : Z) (m : EndpointManager) (w : Wire)
    (target p : Z) (in_order : bool) : option (EndpointManager * Wire) :=
  e ← get_endpoint m target;
  '(e, w, was_empty) ← ep_enqueue_message cfg copy_ptr e w p in_order;
  m ← add_if was_empty (set_endpoint m target e) target;
  Some (m, w).

Definition em_handle_long_msgptr (cfg : Config) (m : EndpointManager) (w : Wire)
    (source ack ptr : Z) : option (EndpointManager * Wire) :=
  e ← get_endpoint m source;
  '(e, w, was_empty) ← handle_long_msgptr cfg e w ack ptr;
  m ← add_if was_empty (set_endpoint m source e) source;
  Some (m, w).

Definition em_handle_flip_request (m : EndpointManager) (w : Wire) (src ack buffer count : Z)
    : option (EndpointManager * Wire) :=
  e ← get_endpoint m src;
  '(e, w, was_empty) ← handle_flip_request e w ack buffer count;
  m ← add_if was_empty (set_endpoint m src e) src;
  Some (m, w).

Definition em_handle_flip_ack (m : EndpointManager) (src buffer : Z) : option EndpointManager :=
  e ← get_endpoint m src;
  e ← handle_flip_ack e buffer;
  Some (set_endpoint m src e).

Definition em_adjust_long_msgsize (m : EndpointManager) (source ptr size id nchunks : Z)
    : option (EndpointManager * Z * Z * bool) :=
  e ← get_endpoint m source;
  let '(e, ptr, size, ready) := adjust_long_msgsize e ptr size id nchunks in
  Some (set_endpoint m source e, ptr, size, ready).

(** One round of [push_messages] without [wait], the lock taken: [None] when
    the list is empty; otherwise the popped target has been pushed, and is on
    the list again when there is still more. *)
Definition em_push_round (fuel : nat) (cfg : Config) (locks : nat → bool) (max_to_send : Z)
    (m : EndpointManager) (w : Wire) : option (option (EndpointManager * Wire)) :=
  if ring_empty (em_todo m) then Some None
  else
    '(r, target) ← ring_pop (total_endpoints m) (em_todo m);
    let m := set_todo m r in
    e ← get_endpoint m target;
    '(e, w, still_more) ← ep_push_messages fuel cfg locks max_to_send e w;
    m ← add_if still_more (set_endpoint m target e) target;
    Some (Some (m, w)).

(** The loop: [try i] says whether round [i] gets the manager's mutex, and
    [poll] is what [gasnet_AMPoll] does to the state by running handlers.
    [None] in the result means that the loop is still running after [fuel]
    rounds. *)
Fixpoint em_push_messages (fuel : nat) (cfg : Config) (try : nat → bool)
    (locks : nat → nat → bool) (ep_fuel : nat) (max_to_send : Z)
    (poll : nat → EndpointManager * Wire → EndpointManager * Wire) (i : nat)
    (m : EndpointManager) (w : Wire) : option (option (EndpointManager * Wire * bool)) :=
  match fuel with
  | O => Some None
  | S fuel =>
      if negb (try i) then Some (Some (m, w, true))
      else
        r ← em_push_round ep_fuel cfg (locks i) max_to_send m w;
        match r with
        | None => Some (Some (m, w, false))
        | Some mw =>
            let '(m, w) := poll i mw in
            em_push_messages fuel cfg try locks ep_fuel max_to_send poll (S i) m w
        end
  end.

(** [do_some_polling], once the loop returned: one more poll. *)
Definition do_some_polling (fuel : nat) (cfg : Config) (try : nat → bool)
    (locks : nat → nat → bool) (ep_fuel : nat) (max_to_send : Z)
    (poll : nat → EndpointManager * Wire → EndpointManager * Wire)
    (m : EndpointManager) (w : Wire) : option (option (EndpointManager * Wire)) :=
  r ← em_push_messages fuel cfg try locks ep_fuel max_to_send poll 0 m w;
  Some ('(m, w, _) ← r; Some (poll fuel (m, w))).

(** One round of [polling_worker_loop]: the thread leaves it when everything
    was pushed and shutdown was requested. *)
Definition polling_worker_exits (m : EndpointManager) (still_more : bool) : bool :=
  em_shutdown m && negb still_more.

Definition stop_threads (m : EndpointManager) : EndpointManager :=
  mkEpm (total_endpoints m) (endpoints m) (em_todo m) true.

(** ** The interface between the manager and its endpoints *)

(** [sq_add]: an operation that may queue a message and says whether both
    queues were empty before.  [sq_round]: one critical section of the push
    loop and the value of [still_more] after it. *)
Class SendQueue (E : Type) := {
  busy : E → bool;
  sq_add : E → E → bool → Prop;
  sq_round : E → E → bool → Prop;
  sq_add_law e e' b : sq_add e e' b →
    (b = true ∧ busy e = false ∧ busy e' = true) ∨ (b = false ∧ busy e' = busy e);
  sq_round_law e e' more : busy e = true → sq_round e e' more → more = busy e' }.

(** The manager's threads over any such endpoints: [holding] are the targets
    popped by a thread inside [push_messages], [adding] those whose
    [add_todo_entry] is still to come. *)
Section Tokens.
Context {E : Type} `{!SendQueue E}.

Record em_sys := mkEmSys {
  eps : list E;
  ring : Ring;
  holding : list Z;
  adding : list Z }.

Inductive em_step : em_sys → em_sys → Prop :=
| em_add_msg y t e e' b :
    aget (eps y) t = Some e → sq_add e e' b →
    em_step y (mkEmSys (aset (eps y) t e') (ring y) (holding y)
                 (if b then t :: adding y else adding y))
| em_add_entry y t rest r' :
    adding y ≡ₚ t :: rest → ring_push (zlen (eps y)) (ring y) t = Some r' →
    em_step y (mkEmSys (eps y) r' (holding y) rest)
| em_pop y r' t :
    ring_empty (ring y) = false → ring_pop (zlen (eps y)) (ring y) = Some (r', t) →
    em_step y (mkEmSys (eps y) r' (t :: holding y) (adding y))
| em_round y t rest e e' more :
    holding y ≡ₚ t :: rest → aget (eps y) t = Some e → sq_round e e' more →
    em_step y (mkEmSys (aset (eps y) t e') (ring y) (if more then holding y else rest) (adding y))
| em_stop y t rest :
    holding y ≡ₚ t :: rest →
    em_step y (mkEmSys (eps y) (ring y) rest (t :: adding y)).

(** Every endpoint with messages has exactly one token: an entry in the
    ring, a thread pushing it, or an entry about to be added. *)
Record em_inv (y : em_sys) (q : list Z) : Prop := {
  em_ring : ring_repr (zlen (eps y)) (ring y) q;
  em_tokens : NoDup (q ++ holding y ++ adding y);
  em_busy : ∀ t e, aget (eps y) t = Some e →
    busy e = true ↔ t ∈ q ++ holding y ++ adding y;
  em_range : Forall (λ t, 0 ≤ t < zlen (eps y)) (q ++ holding y ++ adding y) }.

Lemma em_inv_perm y eps' r' h' a' q q' :
  em_inv y q → zlen eps' = zlen (eps y) → ring_repr (zlen (eps y)) r' q' →
  q' ++ h' ++ a' ≡ₚ q ++ holding y ++ adding y →
  (∀ t e', aget eps' t = Some e' → ∃ e, aget (eps y) t = Some e ∧ busy e' = busy e) →
  em_inv (mkEmSys eps' r' h' a') q'.
Proof.
  intros [Hr Ht Hb Hg] Hl Hr' Hp Hbusy. split; simpl.
  - by rewrite Hl.
  - by rewrite Hp.
  - intros t e' He'. destruct (Hbusy t e' He') as (e & He & ->). rewrite (Hb t e He).
    by rewrite Hp.
  - rewrite Hp, Hl. done.
Qed.

Lemma aset_cases (l : list E) t x t' y :
  aget (aset l t x) t' = Some y → t' = t ∧ y = x ∨ t' ≠ t ∧ aget l t' = Some y.
Proof.
  intros H. destruct (decide (t' = t)) as [->|Hne].
  - left. split; [done|]. pose proof (aget_Some_range _ _ _ H) as Hr.
    unfold zlen in Hr. rewrite aset_length in Hr. rewrite aget_aset_eq in H; [congruence|done].
  - right. by rewrite aget_aset_ne in H.
Qed.

(** There are never more entries to add than room in the ring. *)
Lemma em_room y q t rest :
  em_inv y q → adding y ≡ₚ t :: rest → zlen q < zlen (eps y).
Proof.
  intros [Hr Ht _ Hg] Hp. rewrite Hp in Ht, Hg.
  assert (length (t :: q) ≤ length (seqZ 0 (zlen (eps y))))%nat as Hle.
  { apply submseteq_length, NoDup_submseteq.
    - apply NoDup_app in Ht as (Hq & Hd & _). apply NoDup_cons. split; [|done].
      intros Hin. apply (Hd t Hin). set_solver.
    - intros x Hx. rewrite Forall_forall in Hg.
      assert (0 ≤ x < zlen (eps y)) by (apply Hg; set_solver). apply elem_of_seqZ. lia. }
  rewrite length_seqZ in Hle. simpl in Hle. unfold zlen in *. lia.
Qed.

Lemma em_step_inv y y' q : em_inv y q → em_step y y' → ∃ q', em_inv y' q' ∧ zlen (eps y') = zlen (eps y).
Proof.
  assert (∀ l t (x : E), zlen (aset l t x) = zlen l) as Hz.
  { intros. unfold zlen. by rewrite aset_length. }
  intros H Hstep. revert H.
  destruct Hstep as [y t e e' b He Ha|y t rest r' Hp Hr|y r' t Hne Hpop|y t rest e e' more Hp He Hround|y t rest Hp];
    intros H; pose proof H as [Hrr Ht Hb Hg].
  - exists q. split; [|simpl; by rewrite Hz].
    pose proof (aget_Some_range _ _ _ He) as Hrange.
    destruct (sq_add_law _ _ _ Ha) as [(-> & Hbe & Hbe')|(-> & Hbe)].
    + assert (t ∉ q ++ holding y ++ adding y) as Hnt.
      { intros Hin. apply (Hb t e He) in Hin. congruence. }
      assert (q ++ holding y ++ t :: adding y ≡ₚ t :: q ++ holding y ++ adding y) as Hpm
        by solve_Permutation.
      split; simpl; rewrite ?Hz, ?Hpm; [done|by apply NoDup_cons| |by constructor].
      intros t' e'' [[-> ->]|[Hne He'']]%aset_cases; [rewrite Hbe', Hpm; set_solver|].
      rewrite (Hb t' e'' He''), Hpm. set_solver.
    + eapply em_inv_perm; [exact H|by rewrite Hz|done|done|].
      intros t' e'' [[-> ->]|[Hne He'']]%aset_cases; [by exists e|by exists e''].
  - pose proof (em_room _ _ _ _ H Hp) as Hroom.
    destruct (ring_push_repr _ _ _ t Hrr Hroom) as (r2 & E2 & Hr2). rewrite Hr in E2. simplify_eq.
    exists (q ++ [t]). split; [|done]. eapply em_inv_perm; [exact H|done|done| |by eauto].
    rewrite Hp. solve_Permutation.
  - rewrite (ring_empty_repr _ _ _ Hrr) in Hne. destruct q as [|x q]; [done|].
    destruct (ring_pop_repr _ _ _ _ Hrr) as (r2 & E2 & Hr2). rewrite Hpop in E2. simplify_eq.
    exists q. split; [|done]. eapply em_inv_perm; [exact H|done|done| |by eauto]. solve_Permutation.
  - exists q. split; [|simpl; by rewrite Hz].
    assert (t ∈ q ++ holding y ++ adding y) as Hin by (rewrite Hp; set_solver).
    pose proof (proj2 (Hb t e He) Hin) as Hbe. rewrite (sq_round_law _ _ _ Hbe Hround).
    destruct (busy e') eqn:Hbe'.
    + eapply em_inv_perm; [exact H|by rewrite Hz|done|done|].
      intros t' e'' [[-> ->]|[Hne He'']]%aset_cases; [exists e; split; [done|congruence]|by exists e''].
    + assert (q ++ holding y ++ adding y ≡ₚ t :: q ++ rest ++ adding y) as Hpm
        by (rewrite Hp; solve_Permutation).
      rewrite Hpm in Ht. rewrite Hpm in Hg.
      apply NoDup_cons in Ht as [Hnt Ht]. apply Forall_cons in Hg as [_ Hg].
      split; simpl; rewrite ?Hz; try done.
      intros t' e'' [[-> ->]|[Hne He'']]%aset_cases; [by split; [congruence|]|].
      rewrite (Hb t' e'' He''), Hpm. set_solver.
  - exists q. split; [|done]. eapply em_inv_perm; [exact H|done|done| |by eauto].
    rewrite Hp. solve_Permutation.
Qed.

Definition em_start (l : list E) : em_sys := mkEmSys l (ring_init (zlen l)) [] [].

Lemma em_start_inv l : 0 < zlen l → Forall (λ e, busy e = false) l → em_inv (em_start l) [].
Proof.
  intros Hl Hb. split; simpl; [by apply ring_init_repr|constructor| |constructor].
  intros t e He. unfold aget in He. case_decide; [|done]. apply list_elem_of_lookup_2 in He.
  rewrite Forall_forall in Hb. rewrite (Hb e He). set_solver.
Qed.

Lemma em_rtc_inv y0 y q0 :
  rtc em_step y0 y → em_inv y0 q0 → ∃ q, em_inv y q ∧ zlen (eps y) = zlen (eps y0).
Proof.
  intros Hr. revert q0. induction Hr as [y0|y0 y1 y2 Hs _ IH]; intros q0 H; [by exists q0|].
  destruct (em_step_inv _ _ _ H Hs) as (q1 & H1 & E1). destruct (IH q1 H1) as (q2 & H2 & E2).
  exists q2. split; [done|congruence].
Qed.

Lemma em_reachable_inv l y :
  0 < zlen l → Forall (λ e, busy e = false) l → rtc em_step (em_start l) y →
  ∃ q, em_inv y q ∧ zlen (eps y) = zlen l.
Proof. intros Hl Hb Hr. by apply (em_rtc_inv _ _ [] Hr), em_start_inv. Qed.

End Tokens.

(** ** The endpoints implement the interface *)

Definition ep_add (e e' : Endpoint) (b : bool) : Prop :=
  ∃ cfg w w' p, (∃ cp in_order, ep_enqueue_message cfg cp e w p in_order = Some (e', w', b)) ∨
                (∃ ptr, handle_long_msgptr cfg e w p ptr = Some (e', w', b)) ∨
                (∃ buffer count, handle_flip_request e w p buffer count = Some (e', w', b)) ∨
                (b = false ∧ ∃ buffer, handle_flip_ack e buffer = Some e') ∨
                (b = false ∧ ∃ ptr size id nchunks,
                   e' = (adjust_long_msgsize e ptr size id nchunks).1.1.1).

Definition ep_round (e e' : Endpoint) (more : bool) : Prop :=
  ∃ cfg w w' r, push_iter cfg e w = Some (e', w', r) ∧
    more = match r with Pushed m => m | _ => true end.

Lemma more_queued_cons e : out_short_hdrs e ≠ [] ∨ out_long_hdrs e ≠ [] → more_queued e = true.
Proof. unfold more_queued. intros H. rewrite bool_decide_false; [done|]. intros [E1 E2]. tauto. Qed.

Lemma after_count_queues e e1 o w ack e' w' b :
  out_short_hdrs e1 = out_short_hdrs e → out_long_hdrs e1 = out_long_hdrs e →
  after_count (e1, o) w ack = Some (e', w', b) →
  (b = true ∧ more_queued e = false ∧ more_queued e' = true) ∨
  (b = false ∧ more_queued e' = more_queued e).
Proof.
  intros Hs Hl H. assert (more_queued e1 = more_queued e) as E by (unfold more_queued; by rewrite Hs, Hl).
  destruct o as [buf|]; simpl in H; [|simplify_eq; by right].
  unfold push_flip_ack in H. destruct (OutgoingMessage_init _ _ _); [|done]. simplify_eq/=.
  rewrite E. rewrite (more_queued_cons (set_queues _ _ _)) by (left; simpl; by destruct (out_short_hdrs e1)).
  destruct (more_queued e); [by right|by left].
Qed.

Lemma ep_add_law e e' b : ep_add e e' b →
  (b = true ∧ more_queued e = false ∧ more_queued e' = true) ∨
  (b = false ∧ more_queued e' = more_queued e).
Proof.
  intros (cfg & w & w' & p & [(cp & io & H)|[(ptr & H)|[(buf & cnt & H)|[(-> & buf & H)|(-> & ptr & sz & id & n & ->)]]]]).
  - unfold ep_enqueue_message in H. destruct (msgs w !! p) as [hdr|]; [|done]. simpl in H.
    destruct (reserve_srcdata p cp hdr (node w)) as [[hdr' n]|]; [|done]. simplify_eq/=.
    rewrite (more_queued_cons (if decide _ then _ else _)).
    + destruct (more_queued e); [by right|by left].
    + case_decide; simpl; [left; by destruct (out_short_hdrs e)|right; by destruct (out_long_hdrs e)].
  - unfold handle_long_msgptr in H. case_decide; [simplify_eq; by right|].
    unfold count_received in H. destruct (aget (lmb_r_counts e) _); [|done].
    by eapply after_count_queues in H.
  - unfold handle_flip_request, count_flipped in H. destruct (aget (lmb_r_counts e) _); [|done].
    by eapply after_count_queues in H.
  - unfold handle_flip_ack in H. apply assert_Some in H as [_ [= <-]]. by right.
  - right. split; [done|]. unfold adjust_long_msgsize. case_decide; [done|].
    destruct (observed_messages e !! id); [|done]. by case_decide.
Qed.

Lemma send_long_queues cfg e w hdr d e' w' hdr' :
  send_long cfg e w hdr d = Some (e', w', hdr') → more_queued e' = more_queued e.
Proof.
  unfold send_long. destruct (message_id_start hdr); [|done]. simpl.
  case_decide; [by intros; simplify_eq|]. unfold assert_. case_decide; [|done].
  destruct (first_args _); [|done]. intros. by simplify_eq/=.
Qed.

Lemma lmb_reserve_queues cfg e size act : lmb_reserve cfg e size = Some act →
  match act with
  | LmbWait => True
  | LmbWrite _ e' | LmbFlip _ _ e' => more_queued e' = more_queued e
  end.
Proof.
  unfold lmb_reserve. intros H. destruct (aget (lmb_w_avail e) _) as [[]|]; [|by simplify_eq/=|done].
  simpl in H. asserts. case_decide; [|by simplify_eq/=].
  destruct (aget (lmb_w_bases e) _); [|done]. by simplify_eq/=.
Qed.

Lemma push_long_more cfg e w p rest hdr e' w' r :
  more_queued e = true → push_long cfg e w p rest hdr = Some (e', w', r) →
  match r with Pushed m => m | _ => true end = more_queued e'.
Proof.
  intros Hb. unfold push_long. case_decide.
  { destruct (send_short _ _ _); [|done]. simpl. destruct (delete_msg _ _ _); [|done].
    intros. by simplify_eq/=. }
  case_decide; [intros; by simplify_eq/=|]. case_decide.
  { destruct (send_long _ _ _ _ _) as [[[e1 w1] h1]|] eqn:E; [|done]. simpl.
    destruct (delete_msg _ _ _); [|done]. intros. simplify_eq/=. by rewrite (send_long_queues _ _ _ _ _ _ _ _ E). }
  destruct (lmb_reserve _ _ _) as [act|] eqn:Ea; [|done]. apply lmb_reserve_queues in Ea. simpl.
  destruct act; [by intros; simplify_eq/=| |intros; simplify_eq/=; by rewrite Ea].
  destruct (send_long _ _ _ _ _) as [[[e1 w1] h1]|] eqn:E; [|done]. simpl.
  destruct (delete_msg _ _ _); [|done]. intros. simplify_eq/=. by rewrite (send_long_queues _ _ _ _ _ _ _ _ E).
Qed.

Lemma ep_round_law e e' more : more_queued e = true → ep_round e e' more → more = more_queued e'.
Proof.
  intros Hb (cfg & w & w' & r & H & ->). unfold push_iter in H.
  destruct (out_short_hdrs e) as [|p rest].
  - destruct (out_long_hdrs e) as [|p rest]; [by simplify_eq/=|].
    destruct (msgs w !! p) as [hdr|]; [|done]. simpl in H. by eapply push_long_more.
  - destruct (msgs w !! p) as [hdr|]; [|done]. simpl in H.
    destruct (send_short _ _ _); [|done]. simpl in H. destruct (delete_msg _ _ _); [|done].
    by simplify_eq/=.
Qed.

#[export] Instance endpoint_send_queue : SendQueue Endpoint := {|
  busy := more_queued; sq_add := ep_add; sq_round := ep_round;
  sq_add_law := ep_add_law; sq_round_law := ep_round_law |}.

(** The manager's own entry has no endpoint. *)
Section maybe.
Context {E : Type} `{!SendQueue E}.

Definition opt_busy (o : option E) : bool := match o with Some e => busy e | None => false end.
Definition opt_add (o o' : option E) (b : bool) : Prop :=
  ∃ e e', o = Some e ∧ o' = Some e' ∧ sq_add e e' b.
Definition opt_round (o o' : option E) (more : bool) : Prop :=
  ∃ e e', o = Some e ∧ o' = Some e' ∧ sq_round e e' more.

Lemma opt_add_law o o' b : opt_add o o' b →
  (b = true ∧ opt_busy o = false ∧ opt_busy o' = true) ∨ (b = false ∧ opt_busy o' = opt_busy o).
Proof. intros (e & e' & -> & -> & H). apply (sq_add_law _ _ _ H). Qed.

Lemma opt_round_law o o' more : opt_busy o = true → opt_round o o' more → more = opt_busy o'.
Proof. intros Hb (e & e' & -> & -> & H). by apply (sq_round_law _ _ _ Hb). Qed.

#[export] Instance option_send_queue : SendQueue (option E) := {|
  busy := opt_busy; sq_add := opt_add; sq_round := opt_round;
  sq_add_law := opt_add_law; sq_round_law := opt_round_law |}.
End maybe.

(** ** The manager's operations are sequences of these steps *)

(** [y] is the state of the threads when the manager is in state [m]. *)
Record of_manager (y : em_sys (E := option Endpoint)) (m : EndpointManager) : Prop := {
  om_eps : eps y = endpoints m;
  om_ring : ring y = em_todo m;
  om_total : total_endpoints m = zlen (endpoints m) }.

Inductive em_op (m m' : EndpointManager) : Prop :=
| op_enqueue cfg copy_ptr w t p in_order w' :
    em_enqueue_message cfg copy_ptr m w t p in_order = Some (m', w') → em_op m m'
| op_long_msgptr cfg w t ack ptr w' :
    em_handle_long_msgptr cfg m w t ack ptr = Some (m', w') → em_op m m'
| op_flip_request w t ack buffer count w' :
    em_handle_flip_request m w t ack buffer count = Some (m', w') → em_op m m'
| op_flip_ack t buffer :
    em_handle_flip_ack m t buffer = Some m' → em_op m m'
| op_adjust t ptr size id nchunks ptr' size' ready :
    em_adjust_long_msgsize m t ptr size id nchunks = Some (m', ptr', size', ready) → em_op m m'
| op_push_round fuel cfg locks max_to_send w w' :
    em_push_round fuel cfg locks max_to_send m w = Some (Some (m', w')) → em_op m m'.

Definition runs (y : em_sys (E := option Endpoint)) (m' : EndpointManager) : Prop :=
  ∃ y', rtc em_step y y' ∧ of_manager y' m' ∧ holding y' = holding y ∧ adding y' = adding y.

Lemma aset_aset {A} (l : list A) i x y : aset (aset l i x) i y = aset l i y.
Proof. unfold aset. case_decide; [apply list_insert_insert_eq|done]. Qed.

Lemma aset_same {A} (l : list A) i x : aget l i = Some x → aset l i x = l.
Proof. unfold aget, aset. case_decide; [|done]. apply list_insert_id. Qed.

Lemma get_endpoint_aget m t e : get_endpoint m t = Some e → aget (endpoints m) t = Some (Some e).
Proof. unfold get_endpoint. intros (o & Ho & ->)%bind_Some. done. Qed.

(** An operation on one endpoint, and the entry it may have to add. *)
Lemma add_runs y m t e e' b m' :
  of_manager y m → get_endpoint m t = Some e → ep_add e e' b →
  add_if b (set_endpoint m t e') t = Some m' → runs y m'.
Proof.
  intros [He Hr Hz] Hg Ha Hm. apply get_endpoint_aget in Hg.
  assert (em_step y (mkEmSys (aset (eps y) t (Some e')) (ring y) (holding y)
    (if b then t :: adding y else adding y))) as Hstep.
  { apply (em_add_msg y t (Some e) (Some e') b); [by rewrite He|by exists e, e']. }
  assert (zlen (aset (endpoints m) t (Some e')) = zlen (endpoints m)) as Ez
    by (unfold zlen; by rewrite aset_length).
  destruct b; simpl in Hm.
  - unfold add_todo_entry in Hm. apply bind_Some in Hm as (r & Hpush & [= <-]). simpl in Hpush.
    eexists. split; [eapply rtc_l; [exact Hstep|]|].
    { apply rtc_once. apply (em_add_entry _ t (adding y) r); simpl; [done|].
      rewrite He, Ez, Hr. by rewrite Hz in Hpush. }
    split_all; [|done..]. split; simpl; [by rewrite He|done|by rewrite Hz, Ez].
  - simplify_eq. eexists. split; [by apply rtc_once|]. split_all; [|done..].
    split; simpl; [by rewrite He|done|by rewrite Hz, Ez].
Qed.

(** The loop over one endpoint, entered with its token held. *)
Lemma push_loop_steps cfg locks mx t r h a fuel : ∀ i count e w e' w' more l,
  aget l t = Some (Some e) →
  push_loop fuel cfg locks i mx count true e w = Some (e', w', more) →
  rtc em_step (mkEmSys l r (t :: h) a) (mkEmSys (aset l t (Some e')) r (if more then t :: h else h) a).
Proof.
  induction fuel as [|fuel IH]; intros i count e w e' w' more l Hl; [done|]. cbn [push_loop].
  assert (rtc em_step (mkEmSys l r (t :: h) a) (mkEmSys (aset l t (Some e)) r (t :: h) a)) as Hid.
  { rewrite (aset_same _ _ _ Hl). done. }
  destruct (_ && _); [|intros [= <- <- <-]; done].
  destruct (negb _); [intros [= <- <- <-]; done|].
  intros (p & Hp & H)%bind_Some. destruct p as [[e1 w1] res].
  assert (aget (aset l t (Some e1)) t = Some (Some e1)) as Hl1.
  { apply aget_aset_eq. by eapply aget_Some_range. }
  assert (em_step (mkEmSys l r (t :: h) a) (mkEmSys (aset l t (Some e1)) r
    (if match res with Pushed b => b | _ => true end then t :: h else h) a)) as Hstep.
  { apply (em_round (mkEmSys l r (t :: h) a) t h (Some e) (Some e1)); [done|done|].
    exists e, e1. split_all; [done..|]. by exists cfg, w, w1, res. }
  destruct res as [b| |].
  - destruct b.
    + eapply rtc_l; [exact Hstep|]. specialize (IH _ _ _ _ _ _ _ _ Hl1 H). by rewrite aset_aset in IH.
    + eapply rtc_l; [exact Hstep|]. destruct fuel; [done|]. simpl in H. by simplify_eq.
  - eapply rtc_l; [exact Hstep|]. specialize (IH _ _ _ _ _ _ _ _ Hl1 H). by rewrite aset_aset in IH.
  - simplify_eq. by eapply rtc_l.
Qed.

Lemma push_round_runs y m fuel cfg locks mx w m' w' :
  of_manager y m → em_push_round fuel cfg locks mx m w = Some (Some (m', w')) → runs y m'.
Proof.
  intros [He Hr Hz]. unfold em_push_round. destruct (ring_empty (em_todo m)) eqn:Ee; [done|].
  intros ([r t] & Hpop & H)%bind_Some. apply bind_Some in H as (e & Hg & H).
  apply bind_Some in H as ([[e1 w1] more] & Hpush & H). apply bind_Some in H as (m1 & Hadd & [= <- <-]).
  apply get_endpoint_aget in Hg. simpl in Hg.
  eapply (push_loop_steps cfg locks mx t r (holding y) (adding y)) in Hpush; [|exact Hg].
  assert (zlen (aset (endpoints m) t (Some e1)) = zlen (endpoints m)) as Ez
    by (unfold zlen; by rewrite aset_length).
  assert (rtc em_step y (mkEmSys (aset (endpoints m) t (Some e1)) r
    (if more then t :: holding y else holding y) (adding y))) as Hsteps.
  { eapply rtc_l; [apply (em_pop y r t); [by rewrite Hr|by rewrite Hr, He, <-Hz]|]. rewrite He. exact Hpush. }
  destruct more; simpl in Hadd.
  - unfold add_todo_entry in Hadd. apply bind_Some in Hadd as (r2 & Hr2 & [= <-]). simpl in Hr2.
    exists (mkEmSys (aset (endpoints m) t (Some e1)) r2 (holding y) (adding y)). split.
    + etrans; [exact Hsteps|].
      eapply rtc_l; [by apply (em_stop _ t (holding y))|]. apply rtc_once.
      apply (em_add_entry (mkEmSys _ r (holding y) (t :: adding y)) t (adding y) r2); simpl; [done|].
      by rewrite Ez, <-Hz.
    + split_all; [|done..]. split; simpl; [done|done|by rewrite Hz, Ez].
  - simplify_eq. exists (mkEmSys (aset (endpoints m) t (Some e1)) r (holding y) (adding y)).
    split; [done|]. split_all; [|done..]. split; simpl; [done|done|by rewrite Hz, Ez].
Qed.

Lemma em_op_runs y m m' : of_manager y m → em_op m m' → runs y m'.
Proof.
  intros Hy [cfg cp w t p io w' H|cfg w t ack ptr w' H|w t ack buf cnt w' H|t buf H|t ptr sz id n ptr' sz' rd H|fuel cfg locks mx w w' H].
  - unfold em_enqueue_message in H. apply bind_Some in H as (e & He & H).
    apply bind_Some in H as ([[e1 w1] b] & Ha & H). apply bind_Some in H as (m1 & Hm & [= <- <-]).
    eapply add_runs; [done|done| |done]. exists cfg, w, w1, p. left. by exists cp, io.
  - unfold em_handle_long_msgptr in H. apply bind_Some in H as (e & He & H).
    apply bind_Some in H as ([[e1 w1] b] & Ha & H). apply bind_Some in H as (m1 & Hm & [= <- <-]).
    eapply add_runs; [done|done| |done]. exists cfg, w, w1, ack. right. left. by exists ptr.
  - unfold em_handle_flip_request in H. apply bind_Some in H as (e & He & H).
    apply bind_Some in H as ([[e1 w1] b] & Ha & H). apply bind_Some in H as (m1 & Hm & [= <- <-]).
    eapply add_runs; [done|done| |done]. exists (mkConfig 0 0 0 0), w, w1, ack. do 2 right. left. by exists buf, cnt.
  - unfold em_handle_flip_ack in H. apply bind_Some in H as (e & He & H).
    apply bind_Some in H as (e1 & Ha & [= <-]).
    eapply (add_runs _ _ _ _ e1 false); [done|done| |done].
    exists (mkConfig 0 0 0 0), (mkWire example_node ∅ []), (mkWire example_node ∅ []), 0.
    do 3 right. left. split; [done|]. by exists buf.
  - unfold em_adjust_long_msgsize in H. apply bind_Some in H as (e & He & H).
    destruct (adjust_long_msgsize e ptr sz id n) as [[[e1 ptr1] sz1] rd1] eqn:Ea. simplify_eq.
    eapply (add_runs _ _ _ _ e1 false); [done|done| |done].
    exists (mkConfig 0 0 0 0), (mkWire example_node ∅ []), (mkWire example_node ∅ []), 0.
    do 4 right. split; [done|]. exists ptr, sz, id, n. by rewrite Ea.
  - by eapply push_round_runs.
Qed.

(** C10. The to-do ring never wraps around and no endpoint is forgotten.
    However enqueueing threads, message handlers and pushing threads
    interleave, adding an entry to the ring never fails its assertion, no
    endpoint is in it twice, and every endpoint with messages to send is in
    the ring, being pushed by a thread, or about to be added.  The operations
    of the manager ([enqueue_message], the handlers, a round of
    [push_messages]) are sequences of these steps that take and give back
    every token. *)
Theorem todo_never_wraps (l : list (option Endpoint)) y :
  0 < zlen l → Forall (λ e, busy e = false) l → rtc em_step (em_start l) y →
  (∀ t rest, adding y ≡ₚ t :: rest → is_Some (ring_push (zlen (eps y)) (ring y) t)) ∧
  (∃ q, ring_repr (zlen (eps y)) (ring y) q ∧ NoDup (q ++ holding y ++ adding y) ∧
    ∀ t e, aget (eps y) t = Some e → busy e = true ↔ t ∈ q ++ holding y ++ adding y) ∧
  (∀ m m', of_manager y m → em_op m m' →
    ∃ y', rtc em_step y y' ∧ of_manager y' m' ∧ holding y' = holding y ∧ adding y' = adding y).
Proof.
  intros Hl Hb Hr. destruct (em_reachable_inv _ _ Hl Hb Hr) as (q & H & _). split_all.
  - intros t rest Hp. destruct (ring_push_repr _ _ _ t (em_ring _ _ H) (em_room _ _ _ _ H Hp))
      as (r' & -> & _). by eexists.
  - exists q. split_all; apply H.
  - intros m m'. apply em_op_runs.
Qed.

Definition example_idle : list (option Endpoint) := [Some example_ep; None].
Definition example_busy_ep : Endpoint := set_queues example_ep [] [1].

Definition example_note : OutgoingMessage := mkMsg 40 2 [1; 2] 0 0 PAYLOAD_NONE 0 None.

Lemma example_ep_add : ep_add example_ep example_busy_ep true.
Proof.
  exists example_cfg, (mkWire example_node {[1 := example_note]} []).
  exists (mkWire example_node {[1 := example_note]} []), 1. left. exists 0, true.
  reflexivity.
Qed.

Lemma todo_never_wraps_witness :
  let y := mkEmSys [Some example_busy_ep; None] (ring_init 2) [] [0] in
  (∀ t rest, adding y ≡ₚ t :: rest → is_Some (ring_push (zlen (eps y)) (ring y) t)) ∧
  ∃ q, ring_repr (zlen (eps y)) (ring y) q ∧ NoDup (q ++ holding y ++ adding y) ∧
    ∀ t e, aget (eps y) t = Some e → busy e = true ↔ t ∈ q ++ holding y ++ adding y.
Proof.
  intros y. destruct (todo_never_wraps example_idle y) as (H1 & H2 & _);
    [done|by repeat constructor| |split; [exact H1|exact H2]].
  apply rtc_once.
  refine (em_add_msg (em_start example_idle) 0 (Some example_ep) (Some example_busy_ep) true eq_refl _).
  exists example_ep, example_busy_ep. split; [done|]. split; [done|exact example_ep_add].
Defined.

(** ** The loop and a blocked endpoint *)

Lemma blocked_stuck cfg e w : blocked e w → push_iter cfg e w = Some (e, w, Stuck).
Proof.
  intros (Hs & p & rest & hdr & Hl & Hp & Hsz & Hb). unfold push_iter. rewrite Hs, Hl, Hp. simpl.
  unfold push_long. rewrite decide_False by lia. case_decide; [done|].
  destruct Hb as [?|[Hd Ha]]; [done|]. rewrite decide_False by tauto.
  unfold lmb_reserve. by rewrite Ha.
Qed.

Lemma blocked_push fuel cfg locks max_to_send e w :
  blocked e w → 0 ≤ max_to_send →
  ep_push_messages (S fuel) cfg locks max_to_send e w = Some (e, w, true).
Proof.
  intros Hb Hm. unfold ep_push_messages. simpl. rewrite bool_decide_true by lia. simpl.
  destruct (locks 0%nat); simpl; [|done]. by rewrite (blocked_stuck cfg e w Hb).
Qed.

Lemma set_endpoint_same m t e : get_endpoint m t = Some e → set_endpoint m t e = m.
Proof.
  unfold get_endpoint, set_endpoint, aget, aset. case_decide; [|done].
  destruct (endpoints m !! Z.to_nat t) as [o|] eqn:E; [|done]. simpl. intros ->.
  rewrite list_insert_id by done. by destruct m.
Qed.

(** A blocked endpoint is popped and put back. *)
Lemma blocked_round fuel cfg locks max_to_send m w t e :
  ring_repr (total_endpoints m) (em_todo m) [t] → get_endpoint m t = Some e →
  blocked e w → 0 ≤ max_to_send →
  ∃ r, ring_repr (total_endpoints m) r [t] ∧
    em_push_round (S fuel) cfg locks max_to_send m w = Some (Some (set_todo m r, w)).
Proof.
  intros Hr He Hb Hm. destruct (ring_pop_repr _ _ _ _ Hr) as (r1 & Epop & Hr1).
  assert (0 < total_endpoints m) as Hpos by apply Hr.
  destruct (ring_push_repr _ _ _ t Hr1) as (r2 & Epush & Hr2); [done|].
  exists r2. split; [done|]. unfold em_push_round. rewrite (ring_empty_repr _ _ _ Hr).
  rewrite bool_decide_false by done. rewrite Epop. simpl.
  assert (get_endpoint (set_todo m r1) t = Some e) as He1 by done. rewrite He1. simpl.
  rewrite (blocked_push fuel cfg locks max_to_send e w Hb Hm). simpl.
  rewrite set_endpoint_same by done. unfold add_todo_entry. simpl. by rewrite Epush.
Qed.

Lemma blocked_spins fuel cfg try locks ep_fuel max_to_send poll w t e :
  blocked e w → 0 ≤ max_to_send → (∀ i, try i = true) → (∀ i mw, poll i mw = mw) →
  ∀ i m, ring_repr (total_endpoints m) (em_todo m) [t] → get_endpoint m t = Some e →
  em_push_messages fuel cfg try locks (S ep_fuel) max_to_send poll i m w = Some None.
Proof.
  intros Hb Hm Ht Hp. induction fuel as [|fuel IH]; intros i m Hr He; [done|]. simpl.
  rewrite Ht. simpl.
  destruct (blocked_round ep_fuel cfg (locks i) max_to_send m w t e Hr He Hb Hm) as (r & Hr' & ->).
  simpl. rewrite Hp. by apply IH.
Qed.

(** [push_messages] spins on an endpoint that waits for a buffer or for
    payload space: called with [wait = false], as [do_some_polling] does, it
    pops the endpoint, puts it back, and goes on doing so without end for as
    long as polling changes nothing, although it was asked not to wait. *)
Lemma push_messages_spins fuel cfg try locks ep_fuel max_to_send poll m w t e :
  ring_repr (total_endpoints m) (em_todo m) [t] → get_endpoint m t = Some e →
  blocked e w → 0 ≤ max_to_send →
  (∀ i, try i = true) → (∀ i mw, poll i mw = mw) →
  do_some_polling fuel cfg try locks (S ep_fuel) max_to_send poll m w = Some None.
Proof.
  intros Hr He Hb Hm Ht Hp. unfold do_some_polling.
  by rewrite (blocked_spins fuel cfg try locks ep_fuel max_to_send poll w t e Hb Hm Ht Hp 0 m Hr He).
Qed.

Definition example_waiting : Endpoint :=
  mkEp 1 [] [1] 0 0 0 [100000; 95904] [200000; 195904] [0; 0] [false; true] ∅ 7.
Definition example_manager : EndpointManager :=
  mkEpm 2 [None; Some example_waiting] (mkRing [1; 0; 0] 0 1) false.

Lemma push_messages_spins_witness :
  do_some_polling 1000 example_cfg (λ _, true) (λ _ _, true) 1 8 (λ _ mw, mw) example_manager
    (mkWire example_node {[1 := example_long]} []) = Some None.
Proof.
  apply (push_messages_spins 1000 example_cfg (λ _, true) (λ _ _, true) 0 8 (λ _ mw, mw)
    example_manager _ 1 example_waiting); try done.
  - split; simpl; try done; try lia. intros i x Hi.
    destruct i as [|i]; simplify_eq/=; done.
  - split; [done|]. exists 1, [], example_long. split_all; try done. by right.
Defined.
