(* ===== verification/Polling.v ===== *)
(** * The polling threads

    [polling_worker_loop], [start_polling_threads] and [stop_threads] of
    [EndpointManager] in src/templates/activemsg.cc, with the loop of
    [push_messages] they run, one critical section at a time.  The theorem says
    when a shutdown leaves nothing unsent, and a lemma shows the window in
    which it does not. *)

From S2P Require Import Prelude Ring Spans SrcDataPool Bytes Payload Endpoint EndpointManager.

(** ** One thread *)

(** Where a polling thread is. *)
Inductive pthread :=
| Trying                        (* at [gasnet_hsl_trylock] in [push_messages] *)
| Pushing (target : Z)          (* in [endpoints[target]->push_messages] *)
| Readding (target : Z)         (* about to call [add_todo_entry(target)] *)
| Polling (entries : list Z)    (* in [gasnet_AMPoll]; what its handlers have yet to add *)
| Deciding (still_more : bool)  (* [push_messages] has returned *)
| Gone.

Definition start_polling_threads (count : Z) : list pthread := replicate (Z.to_nat count) Trying.

(** The endpoint a thread has popped, and the entries it is about to add. *)
Definition held (t : pthread) : list Z := match t with Pushing x => [x] | _ => [] end.
Definition to_add (t : pthread) : list Z :=
  match t with Readding x => [x] | Polling l => l | _ => [] end.

(** A thread that will look at the ring again before it leaves. *)
Definition will_look (t : pthread) : bool :=
  match t with Deciding false | Gone => false | _ => true end.

Section polling.
Context {E : Type} `{!SendQueue E}.

(** A step of a thread, from the endpoints and the ring to those after it. *)
Inductive polling_step (shutdown_flag : bool) (l : list E) (r : Ring) :
    pthread → list E → Ring → pthread → Prop :=
| pt_no_lock : polling_step shutdown_flag l r Trying l r (Deciding true)
| pt_empty : ring_empty r = true → polling_step shutdown_flag l r Trying l r (Deciding false)
| pt_pop r' t :
    ring_empty r = false → ring_pop (zlen l) r = Some (r', t) →
    polling_step shutdown_flag l r Trying l r' (Pushing t)
| pt_round t e e' more :
    aget l t = Some e → sq_round e e' more →
    polling_step shutdown_flag l r (Pushing t) (aset l t e') r (if more then Pushing t else Polling [])
| pt_more t : polling_step shutdown_flag l r (Pushing t) l r (Readding t)
| pt_put_back t r' :
    ring_push (zlen l) r t = Some r' → polling_step shutdown_flag l r (Readding t) l r' (Polling [])
| pt_handler entries t e e' was_empty :
    aget l t = Some e → sq_add e e' was_empty →
    polling_step shutdown_flag l r (Polling entries) (aset l t e') r
      (Polling (if was_empty then t :: entries else entries))
| pt_handler_entry entries t rest r' :
    entries ≡ₚ t :: rest → ring_push (zlen l) r t = Some r' →
    polling_step shutdown_flag l r (Polling entries) l r' (Polling rest)
| pt_polled : polling_step shutdown_flag l r (Polling []) l r Trying
| pt_break : shutdown_flag = true → polling_step shutdown_flag l r (Deciding false) l r Gone
| pt_again still_more :
    shutdown_flag && negb still_more = false →
    polling_step shutdown_flag l r (Deciding still_more) l r (Polling []).

(** ** The node *)

(** [others] are the tokens of threads that enqueue or push on their own
    account, as in [em_sys]. *)
Record pl_sys := mkPl {
  pl_eps : list E;
  pl_ring : Ring;
  shutdown_flag : bool;
  polling_threads : list pthread;
  other_holding : list Z;
  other_adding : list Z }.

Definition others (y : pl_sys) : em_sys := mkEmSys (pl_eps y) (pl_ring y) (other_holding y) (other_adding y).

Definition set_flag (y : pl_sys) : pl_sys :=
  mkPl (pl_eps y) (pl_ring y) true (polling_threads y) (other_holding y) (other_adding y).

(** Other threads work until [stop_threads] is called: "threads that cause
    inter-node communication have to stop first".  The steps are those of
    shutdowns in which the threads that handle messages, which are stopped
    later, have no more to send either; handlers that run in [gasnet_AMPoll]
    may. *)
Inductive pl_step : pl_sys → pl_sys → Prop :=
| pl_thread y ts1 t ts2 l' r' t' :
    polling_threads y = ts1 ++ t :: ts2 →
    polling_step (shutdown_flag y) (pl_eps y) (pl_ring y) t l' r' t' →
    pl_step y (mkPl l' r' (shutdown_flag y) (ts1 ++ t' :: ts2) (other_holding y) (other_adding y))
| pl_other y z :
    shutdown_flag y = false → em_step (others y) z →
    pl_step y (mkPl (eps z) (ring z) false (polling_threads y) (holding z) (adding z))
| pl_stop y :
    shutdown_flag y = false → other_holding y = [] → other_adding y = [] → pl_step y (set_flag y).

Definition pl_start (l : list E) (count : Z) : pl_sys :=
  mkPl l (ring_init (zlen l)) false (start_polling_threads count) [] [].

(** [stop_threads] returns when all threads have been joined. *)
Definition joined (y : pl_sys) : bool := forallb (λ t, match t with Gone => true | _ => false end) (polling_threads y).

(** ** The tokens *)
Definition to_em (y : pl_sys) : em_sys :=
  mkEmSys (pl_eps y) (pl_ring y) ((polling_threads y ≫= held) ++ other_holding y)
    ((polling_threads y ≫= to_add) ++ other_adding y).

Definition tokens (y : pl_sys) : list Z := holding (to_em y) ++ adding (to_em y).

Lemma em_inv_tokens (y : em_sys (E := E)) q r' h' a' q' :
  em_inv y q → ring_repr (zlen (eps y)) r' q' → q' ++ h' ++ a' ≡ₚ q ++ holding y ++ adding y →
  em_inv (mkEmSys (eps y) r' h' a') q'.
Proof. intros H Hr Hp. eapply em_inv_perm; [exact H|done|done|done|]. intros t e He. by exists e. Qed.

(** A step of the manager, with its tokens listed in any order. *)
Lemma em_inv_step (y : em_sys (E := E)) l r h0 a0 q h a :
  em_inv y q → em_step y (mkEmSys l r h0 a0) → h ≡ₚ h0 → a ≡ₚ a0 →
  ∃ q', em_inv (mkEmSys l r h a) q' ∧ zlen l = zlen (eps y).
Proof.
  intros H Hs Hh Ha. destruct (em_step_inv _ _ _ H Hs) as (q' & H' & Hz).
  exists q'. split; [|done]. apply (em_inv_tokens _ _ _ _ _ _ H'); [apply H'|]. by rewrite Hh, Ha.
Qed.

(** Tokens that belong to others do not matter to a step. *)
Lemma em_step_frame (y z : em_sys (E := E)) h a :
  em_step y z → ∃ h0 a0, h0 ≡ₚ holding z ++ h ∧ a0 ≡ₚ adding z ++ a ∧
    em_step (mkEmSys (eps y) (ring y) (holding y ++ h) (adding y ++ a)) (mkEmSys (eps z) (ring z) h0 a0).
Proof.
  intros Hs. destruct Hs as [y t e e' b He Ha|y t rest r' Hp Hr|y r' t Hne Hpop|y t rest e e' more Hp He Hr|y t rest Hp];
    cbn [eps ring holding adding].
  - do 2 eexists. split; [|split; [|by apply (em_add_msg (mkEmSys _ _ _ _) t e e' b)]]; [done|by destruct b].
  - do 2 eexists. split; [|split; [|apply (em_add_entry (mkEmSys _ _ _ _) t (rest ++ a)); [|done]]]; [done|done|].
    simpl. by rewrite Hp.
  - do 2 eexists. split; [|split; [|by apply (em_pop (mkEmSys _ _ _ _))]]; done.
  - do 2 eexists. split; [|split; [|apply (em_round (mkEmSys _ _ _ _) t (rest ++ h) e e' more); [|done|done]]];
      [by destruct more|done|simpl; by rewrite Hp].
  - do 2 eexists. split; [|split; [|apply (em_stop (mkEmSys _ _ _ _) t (rest ++ h))]]; [done|done|].
    simpl. by rewrite Hp.
Qed.

Lemma bind_mid {A} (f : pthread → list A) ts1 t ts2 :
  (ts1 ++ t :: ts2) ≫= f ≡ₚ f t ++ (ts1 ++ ts2) ≫= f.
Proof. rewrite !bind_app, bind_cons. solve_Permutation. Qed.

(** A thread's step with its tokens in front. *)
Lemma polling_step_inv f l r h a t l' r' t' q :
  em_inv (mkEmSys l r (held t ++ h) (to_add t ++ a)) q → polling_step f l r t l' r' t' →
  ∃ q', em_inv (mkEmSys l' r' (held t' ++ h) (to_add t' ++ a)) q' ∧ zlen l' = zlen l.
Proof.
  intros H Hs. destruct Hs as [| |r' t Hne Hpop|t e e' more He Hr|t|t r' Hp|en t e e' b He Ha|en t rest r' Hp Hr| | |];
    simpl in *; try (by exists q).
  - eapply (em_inv_step _ _ _ _ _ _ _ _ H); [by apply (em_pop (mkEmSys l r h a))|done|done].
  - eapply (em_inv_step _ _ _ _ _ _ _ _ H); [by apply (em_round (mkEmSys l r (t :: h) a) t h e _ more)| |]; by destruct more.
  - eapply (em_inv_step _ _ _ _ _ _ _ _ H); [by apply (em_stop (mkEmSys l r (t :: h) a) t h)|done|done].
  - eapply (em_inv_step _ _ _ _ _ _ _ _ H); [by apply (em_add_entry (mkEmSys l r h (t :: a)) t a)|done|done].
  - eapply (em_inv_step _ _ _ _ _ _ _ _ H); [by apply (em_add_msg (mkEmSys l r h (en ++ a)) t e _ b)|done|by destruct b].
  - eapply (em_inv_step _ _ _ _ _ _ _ _ H); [apply (em_add_entry (mkEmSys l r h (en ++ a)) t (rest ++ a)); [|done]|done|done].
    simpl. by rewrite Hp.
Qed.

Definition rest_holding (ts : list pthread) (y : pl_sys) : list Z := (ts ≫= held) ++ other_holding y.
Definition rest_adding (ts : list pthread) (y : pl_sys) : list Z := (ts ≫= to_add) ++ other_adding y.

Lemma to_em_mid y ts1 t ts2 q :
  polling_threads y = ts1 ++ t :: ts2 →
  em_inv (to_em y) q ↔
  em_inv (mkEmSys (pl_eps y) (pl_ring y) (held t ++ rest_holding (ts1 ++ ts2) y)
    (to_add t ++ rest_adding (ts1 ++ ts2) y)) q.
Proof.
  intros Ets. unfold rest_holding, rest_adding, to_em. rewrite Ets.
  split; intros H; refine (em_inv_tokens _ _ _ _ _ _ H (em_ring _ _ H) _); cbn [holding adding];
    rewrite !bind_mid; solve_Permutation.
Qed.

Lemma pl_step_inv y y' q :
  em_inv (to_em y) q → pl_step y y' → ∃ q', em_inv (to_em y') q' ∧ zlen (pl_eps y') = zlen (pl_eps y).
Proof.
  intros H Hs. destruct Hs as [y ts1 t ts2 l' r' t' Ets Hs|y z Hf Hs|y Hf Eh Ea].
  - apply (to_em_mid y _ _ _ _ Ets) in H. destruct (polling_step_inv _ _ _ _ _ _ _ _ _ _ H Hs) as (q' & H' & Hz).
    exists q'. split; [|done]. by apply (to_em_mid (mkPl _ _ _ (ts1 ++ t' :: ts2) _ _) ts1 t' ts2).
  - apply (em_inv_tokens _ _ (pl_ring y) (other_holding y ++ (polling_threads y ≫= held))
      (other_adding y ++ (polling_threads y ≫= to_add)) q) in H; [|apply H|simpl; solve_Permutation].
    destruct (em_step_frame _ _ (polling_threads y ≫= held) (polling_threads y ≫= to_add) Hs)
      as (h0 & a0 & Hh & Ha & Hs').
    apply (em_inv_step _ _ _ _ _ _ _ _ H Hs'); [rewrite Hh|rewrite Ha]; solve_Permutation.
  - by exists q.
Qed.

(** ** After the flag is set *)

Definition nothing_queued (y : pl_sys) : Prop := Forall (λ e, busy e = false) (pl_eps y).

(** As long as anything is queued, some thread will look at the ring again. *)
Record drain_inv (y : pl_sys) (q : list Z) : Prop := {
  di_em : em_inv (to_em y) q;
  di_flag : shutdown_flag y = true;
  di_others : other_holding y = [] ∧ other_adding y = [];
  di_look : q ++ tokens y = [] ∨ Exists (λ t, will_look t = true) (polling_threads y) }.

Lemma token_looks ts x :
  x ∈ (ts ≫= held) ++ (ts ≫= to_add) → Exists (λ t, will_look t = true) ts.
Proof.
  intros H. apply Exists_exists.
  assert (∃ t, t ∈ ts ∧ (x ∈ held t ++ to_add t)) as (t & Ht & Hx).
  { apply elem_of_app in H as [(t & Hx & Ht)%list_elem_of_bind|(t & Hx & Ht)%list_elem_of_bind];
      exists t; split; try done; set_solver. }
  exists t. split; [done|]. by destruct t as [| | | |[]|]; simpl in Hx |- *; try set_solver.
Qed.

Lemma nothing_queued_tokens y q : em_inv (to_em y) q → nothing_queued y → q ++ tokens y = [].
Proof.
  intros H Hn. unfold tokens. apply elem_of_nil_inv. intros x Hx.
  pose proof (em_range _ _ H) as Hg. rewrite Forall_forall in Hg.
  destruct (aget_is_Some (pl_eps y) x (Hg x Hx)) as [e He].
  pose proof (proj2 (em_busy _ _ H x e He) Hx) as Hbe.
  unfold nothing_queued in Hn. rewrite Forall_forall in Hn. rewrite (Hn e) in Hbe; [done|].
  unfold aget in He. case_decide; [|done]. by eapply list_elem_of_lookup_2.
Qed.

Lemma drain_step y y' q : drain_inv y q → pl_step y y' → ∃ q', drain_inv y' q'.
Proof.
  intros [H Hf [Eh Ea] Hl] Hs. destruct (pl_step_inv _ _ _ H Hs) as (q1 & H1 & _).
  destruct Hs as [y ts1 t ts2 l' r' t' Ets Hs|y z Hf' _|y Hf' _ _]; [|congruence..].
  destruct (will_look t') eqn:Et'.
  { exists q1. split; [done..|]. right. simpl. apply Exists_app. right. by constructor. }
  assert (pl_eps y = l' ∧ pl_ring y = r' ∧ held t = [] ∧ to_add t = [] ∧ held t' = [] ∧ to_add t' = [] ∧
    (will_look t = false ∨ ring_empty r' = true)) as (<- & <- & Eht & Eat & Eht' & Eat' & Hwhy)
    by (destruct Hs as [| | |? ? ? []| | | | | | |]; simpl in Et'; try done; split_all; auto).
  set (y' := mkPl _ _ _ _ _ _) in *.
  assert (tokens y' ≡ₚ tokens y) as Htk.
  { unfold tokens, to_em, y'. simpl. rewrite Ets, !bind_mid, Eht, Eat, Eht', Eat'. done. }
  exists q. split; [|done|done|].
  - apply (to_em_mid y' ts1 t' ts2); [done|]. rewrite Eht', Eat', <-Eht, <-Eat at 1.
    apply (to_em_mid y _ _ _ _ Ets) in H. rewrite Eht, Eat in H |- *. exact H.
  - destruct Hwhy as [Hwhy|Hemp].
    + destruct Hl as [Hl|Hl].
      { left. apply app_eq_nil in Hl as [-> Hl]. rewrite Hl in Htk. by apply Permutation_nil_r in Htk. }
      right. rewrite Ets in Hl. simpl. rewrite Exists_app, !Exists_cons in *. rewrite Hwhy in Hl. naive_solver.
    + pose proof (ring_empty_repr _ _ _ (em_ring _ _ H)) as Hre. simpl in Hre. rewrite Hre in Hemp. apply bool_decide_eq_true in Hemp as ->.
      destruct (tokens y') as [|x k] eqn:Ek; [by left|]. right.
      apply (token_looks _ x). assert (x ∈ tokens y') as Hx by (rewrite Ek; left).
      revert Hx. unfold tokens, to_em, y'. simpl. by rewrite Eh, Ea, !app_nil_r.
Qed.

Lemma drain_rtc y y' q : rtc pl_step y y' → drain_inv y q → ∃ q', drain_inv y' q'.
Proof.
  intros Hr. revert q. induction Hr as [y|y z y' Hs _ IH]; intros q H; [by exists q|].
  destruct (drain_step _ _ _ H Hs) as [q1 H1]. by apply (IH q1).
Qed.

Lemma pl_rtc_inv y y' q : rtc pl_step y y' → em_inv (to_em y) q → ∃ q', em_inv (to_em y') q'.
Proof.
  intros Hr. revert q. induction Hr as [y|y z y' Hs _ IH]; intros q H; [by exists q|].
  destruct (pl_step_inv _ _ _ H Hs) as (q1 & H1 & _). by apply (IH q1).
Qed.

Lemma pl_start_inv l count :
  0 < zlen l → Forall (λ e, busy e = false) l → em_inv (to_em (pl_start l count)) [].
Proof.
  intros Hl Hb. unfold to_em, pl_start. simpl.
  assert (∀ f : pthread → list Z, f Trying = [] → start_polling_threads count ≫= f = []) as Hf.
  { intros f Ef. unfold start_polling_threads. induction (Z.to_nat count) as [|n IH]; [done|].
    change (replicate (S n) Trying) with (Trying :: replicate n Trying). by rewrite bind_cons, Ef. }
  rewrite !Hf by done. by apply em_start_inv.
Qed.

(** A thread with nothing to do leaves. *)
Lemma thread_leaves (l : list E) r t :
  ring_empty r = true → held t = [] → to_add t = [] →
  rtc (λ t t', polling_step true l r t l r t') t Gone.
Proof.
  intros Hr Hh Ha.
  assert (rtc (λ t t', polling_step true l r t l r t') Trying Gone) as Htry.
  { eapply rtc_l; [by apply pt_empty|]. apply rtc_once. by apply pt_break. }
  assert (rtc (λ t t', polling_step true l r t l r t') (Polling []) Gone) as Hpoll
    by (eapply rtc_l; [apply pt_polled|done]).
  destruct t as [|x|x|en|[]|]; simpl in *; simplify_eq; try done.
  - eapply rtc_l; [by apply pt_again|done].
  - apply rtc_once. by apply pt_break.
Qed.

Lemma threads_leave ts : ∀ ts0 y,
  polling_threads y = ts0 ++ ts → shutdown_flag y = true → ring_empty (pl_ring y) = true →
  Forall (λ t, held t = [] ∧ to_add t = []) ts →
  rtc pl_step y (mkPl (pl_eps y) (pl_ring y) true (ts0 ++ (const Gone <$> ts)) (other_holding y) (other_adding y)).
Proof.
  induction ts as [|t ts IH]; intros ts0 [l r f pts oh oa] Ets Hf Hr Hall; simpl in *; subst; [done|].
  apply Forall_cons in Hall as [[Hh Ha] Hall].
  etrans; [|specialize (IH (ts0 ++ [Gone]) (mkPl l r true (ts0 ++ Gone :: ts) oh oa));
    simpl in IH; rewrite <-!(assoc_L (++)) in IH; by apply IH].
  pose proof (thread_leaves l r t Hr Hh Ha) as Ht. clear IH Hh Ha Hall.
  induction Ht as [t|t t1 t2 Hs _ IH]; [done|]. eapply rtc_l; [|exact IH].
  by eapply (pl_thread (mkPl l r true (ts0 ++ t :: ts) oh oa) ts0 t ts).
Qed.

(** C11. Shutting the polling threads down leaves nothing unsent.  Take any
    state reached by the polling threads, their handlers and the other threads
    of the node, in which the others are done and either nothing is queued or
    some polling thread will look at the ring again before it leaves.  If
    [stop_threads] is called there, then however the threads go on, once all of
    them have been joined every endpoint's queues are empty and so is the ring;
    and whenever nothing is queued all of them can leave. *)
Theorem polling_threads_drain (l : list E) count y y' :
  0 < zlen l → Forall (λ e, busy e = false) l → rtc pl_step (pl_start l count) y →
  shutdown_flag y = false → other_holding y = [] → other_adding y = [] →
  nothing_queued y ∨ Exists (λ t, will_look t = true) (polling_threads y) →
  rtc pl_step (set_flag y) y' →
  (joined y' = true → nothing_queued y' ∧ ring_empty (pl_ring y') = true) ∧
  (nothing_queued y' → ∃ y'', rtc pl_step y' y'' ∧ joined y'' = true).
Proof.
  intros Hl Hb Hr0 Hf Hh Ha Hlook Hr.
  destruct (pl_rtc_inv _ _ _ Hr0 (pl_start_inv l count Hl Hb)) as [q0 H0].
  assert (drain_inv (set_flag y) q0) as Hd0.
  { split; [exact H0|done|done|]. destruct Hlook as [Hn|Hx]; [left|by right].
    by apply (nothing_queued_tokens y). }
  destruct (drain_rtc _ _ _ Hr Hd0) as [q [H Hf' [Eh Ea] Hl']].
  assert (q ++ tokens y' = [] → ring_empty (pl_ring y') = true) as Hring.
  { intros [-> _]%app_eq_nil. pose proof (ring_empty_repr _ _ _ (em_ring _ _ H)) as Hre. exact Hre. }
  split.
  - intros Hj. destruct Hl' as [Hn|Hx].
    + split; [|by apply Hring]. apply Forall_forall. intros e He. destruct (busy e) eqn:Hbe; [|done].
      apply list_elem_of_lookup in He as [i Hi].
      assert (aget (pl_eps y') (Z.of_nat i) = Some e) as Hg by (unfold aget; by rewrite decide_True, Nat2Z.id by lia).
      apply (em_busy _ _ H _ e Hg) in Hbe. unfold tokens in Hn. rewrite Hn in Hbe. by apply elem_of_nil in Hbe.
    + apply Exists_exists in Hx as (t & Ht & Hw). unfold joined in Hj.
      apply Is_true_eq_left in Hj. rewrite forallb_True, Forall_forall in Hj. specialize (Hj t Ht). by destruct t.
  - intros Hn. pose proof (nothing_queued_tokens _ _ H Hn) as Ht. specialize (Hring Ht).
    eexists. split; [apply (threads_leave (polling_threads y') []); [done|done|done|]|].
    + apply Forall_forall. intros t Hin. apply app_eq_nil in Ht as [_ Ht]. unfold tokens in Ht.
      apply app_eq_nil in Ht as [H1 H2]. simpl in H1, H2.
      apply app_eq_nil in H1 as [H1 _]. apply app_eq_nil in H2 as [H2 _].
      split; apply elem_of_nil_inv; intros x Hx.
      * apply (not_elem_of_nil x). rewrite <-H1. apply list_elem_of_bind. by exists t.
      * apply (not_elem_of_nil x). rewrite <-H2. apply list_elem_of_bind. by exists t.
    + apply Is_true_eq_true. unfold joined. simpl. rewrite forallb_True, Forall_fmap. by apply Forall_forall.
Qed.

(** Without a thread that will look again a message can stay behind: the only
    thread has found the ring empty, a message is queued, and then the flag is
    set, which the thread sees before it looks at the ring again. *)
Lemma stop_loses_message (l : list E) e e' :
  l = [e] → busy e = false → sq_add e e' true →
  ∃ y, rtc pl_step (pl_start l 1) y ∧ joined y = true ∧ Exists (λ e, busy e = true) (pl_eps y).
Proof.
  intros -> Hb Ha. destruct (sq_add_law _ _ _ Ha) as [(_ & _ & Hb')|[? _]]; [|done].
  destruct (ring_push_repr 1 (ring_init 1) [] 0) as (r' & Hr' & _);
    [by apply ring_init_repr|done|].
  exists (mkPl [e'] r' true [Gone] [] []). split; [|split; [done|by constructor]].
  eapply rtc_l; [apply (pl_thread (pl_start [e] 1) [] Trying []); [done|by apply pt_empty]|].
  eapply rtc_l; [apply (pl_other _ (mkEmSys [e'] (ring_init 1) [] [0])); [done|]|].
  { by apply (em_add_msg (mkEmSys [e] (ring_init 1) [] []) 0 e e' true). }
  eapply rtc_l; [apply (pl_other _ (mkEmSys [e'] r' [] [])); [done|]|].
  { by apply (em_add_entry (mkEmSys [e'] (ring_init 1) [] [0]) 0 []). }
  eapply rtc_l; [by apply pl_stop|].
  apply rtc_once. by apply (pl_thread (mkPl [e'] r' true [Deciding false] [] []) [] (Deciding false) []), pt_break.
Qed.

End polling.

(** One polling thread, and an endpoint that gets a message from another
    thread before the shutdown: the thread sends it and leaves. *)
Lemma example_ep_round : ep_round example_busy_ep example_ep false.
Proof.
  exists example_cfg, (mkWire example_node {[1 := example_note]} []).
  eexists _, (Pushed false). split; [reflexivity|done].
Qed.

Lemma polling_threads_drain_witness :
  ∃ y y' : pl_sys (E := option Endpoint), pl_eps y = [Some example_busy_ep; None] ∧
    rtc pl_step (set_flag y) y' ∧ joined y' = true ∧ nothing_queued y' ∧ ring_empty (pl_ring y') = true.
Proof.
  set (r1 := mkRing [0; 0; 0] 0 1). set (r2 := mkRing [0; 0; 0] 1 1).
  set (busy_eps := [Some example_busy_ep; None]). set (idle_eps := [Some example_ep; None]).
  set (y := mkPl busy_eps r1 false [Trying] [] []).
  set (y' := mkPl idle_eps r2 true [Gone] [] []).
  assert (rtc pl_step (set_flag y) y') as Hr.
  { eapply rtc_l; [by apply (pl_thread (set_flag y) [] Trying [] busy_eps r2 (Pushing 0)), pt_pop|].
    eapply rtc_l; [apply (pl_thread (mkPl busy_eps r2 true [Pushing 0] [] []) [] (Pushing 0) [] idle_eps r2 (Polling [])); [done|]|].
    { refine (pt_round _ busy_eps r2 0 (Some example_busy_ep) (Some example_ep) false eq_refl _).
      exists example_busy_ep, example_ep. split; [done|]. split; [done|exact example_ep_round]. }
    eapply rtc_l; [apply (pl_thread (mkPl idle_eps r2 true [Polling []] [] []) [] (Polling []) []); [done|apply pt_polled]|].
    eapply rtc_l; [apply (pl_thread (mkPl idle_eps r2 true [Trying] [] []) [] Trying []); [done|by apply pt_empty]|].
    apply rtc_once.
    apply (pl_thread (mkPl idle_eps r2 true [Deciding false] [] []) [] (Deciding false) []); [done|by apply pt_break]. }
  exists y, y'. split; [done|]. split; [exact Hr|]. split; [done|].
  apply (polling_threads_drain example_idle 1 y y'); try done.
  - by repeat constructor.
  - eapply rtc_l; [apply (pl_other (pl_start example_idle 1) (mkEmSys busy_eps (ring_init 2) [] [0])); [done|]|].
    { refine (em_add_msg (mkEmSys example_idle (ring_init 2) [] []) 0 (Some example_ep) (Some example_busy_ep) true eq_refl _).
      exists example_ep, example_busy_ep. split; [done|]. split; [done|exact example_ep_add]. }
    apply rtc_once.
    apply (pl_other (mkPl busy_eps (ring_init 2) false [Trying] [] [0]) (mkEmSys busy_eps r1 [] [])); [done|].
    by apply (em_add_entry (mkEmSys busy_eps (ring_init 2) [] [0]) 0 []).
  - right. by constructor.
Defined.
