(* ===== verification/GasnetMem.v ===== *)
(** * The global memory striped over the nodes

    [GASNetMemory] of src/templates/mem_impl.cc: an offset of the global
    memory lives on a node and at an address of that node's segment, stripe by
    stripe.  [put_bytes] and [get_bytes] are shown to refine a flat array of
    bytes, and the batched transfers, which complete in any order, to be
    equivalent to one [put_bytes] after the other. *)

From S2P Require Import Prelude Bytes.

(** The address spaces of all nodes. *)
Definition World : Type := Z → mem.

Record GASNetMemory := mkGasMem {
  gas_nodes : Z;
  memory_stride : Z;
  segbases : list Z;
  gas_size : Z }.

Definition MEMORY_STRIDE : Z := 1024.

(** [segs] are the segments GASNet reports: address and size. *)
Definition GASNetMemory_init (segs : list (Z * Z)) (max_node_id size_per_node : Z)
    : option GASNetMemory :=
  let nodes := i32 (max_node_id + 1) in
  assert! nodes ≤ zlen segs;
  assert! Forall (λ s, size_per_node ≤ s.2) (take (Z.to_nat nodes) segs);
  Some (mkGasMem nodes MEMORY_STRIDE (fst <$> take (Z.to_nat nodes) segs)
          (u64 (size_per_node * nodes))).

(** ** Copies between nodes *)

Record copy_op := mkCopy { c_dn : Z; c_da : Z; c_sn : Z; c_sa : Z; c_len : Z }.

Definition covers_at (c : copy_op) (n x : Z) : Prop := n = c_dn c ∧ c_da c ≤ x < c_da c + c_len c.

#[global] Instance covers_at_dec c n x : Decision (covers_at c n x).
Proof. unfold covers_at. apply _. Defined.

Definition copied (w w' : World) (c : copy_op) : Prop := ∀ n x,
  w' n x = if decide (covers_at c n x) then w (c_sn c) (c_sa c + (x - c_da c)) else w n x.

(** What the code relies on from GASNet: its one-sided transfers copy bytes
    and touch nothing else. *)
Class GasnetRDMA := {
  gasnet_put : World → Z → Z → Z → Z → Z → World;
  gasnet_get : World → Z → Z → Z → Z → Z → World;
  gasnet_put_law w my node dst src n :
    copied w (gasnet_put w my node dst src n) (mkCopy node dst my src n);
  gasnet_get_law w my dst node src n :
    copied w (gasnet_get w my dst node src n) (mkCopy my dst node src n) }.

Definition world_memcpy (w : World) (my dst src n : Z) : World :=
  λ k, if decide (k = my) then memcpy (w my) dst src n else w k.

Section Gas.
Context `{GasnetRDMA} (g : GASNetMemory) (my : Z).

(** ** The operations *)

(** The three divisions that locate an offset; C's division truncates. *)
Definition gas_blkid (offset : Z) : Z := Z.quot (Z.quot offset (memory_stride g)) (gas_nodes g).
Definition gas_node (offset : Z) : Z := Z.rem (Z.quot offset (memory_stride g)) (gas_nodes g).
Definition gas_blkoffset (offset : Z) : Z := Z.rem offset (memory_stride g).

Definition gas_chunk (blkoffset size : Z) : Z :=
  let chunk := u64 (memory_stride g - blkoffset) in
  if decide (chunk > size) then size else chunk.

Definition seg_addr (node blkid blkoffset : Z) : option Z :=
  base ← aget (segbases g) node; Some (base + blkid * memory_stride g + blkoffset).

Definition get_chunk (w : World) (dst node addr n : Z) : World :=
  if decide (node ≠ my) then gasnet_get w my dst node addr n else world_memcpy w my dst addr n.

Definition put_chunk (w : World) (node addr src n : Z) : World :=
  if decide (node ≠ my) then gasnet_put w my node addr src n else world_memcpy w my addr src n.

Fixpoint gas_get_bytes (fuel : nat) (w : World) (offset dst size : Z) : option World :=
  match fuel with
  | O => None
  | S fuel =>
      if decide (0 < size) then
        let node := gas_node offset in
        let chunk := gas_chunk (gas_blkoffset offset) size in
        addr ← seg_addr node (gas_blkid offset) (gas_blkoffset offset);
        gas_get_bytes fuel (get_chunk w dst node addr chunk)
          (i64 (offset + chunk)) (dst + chunk) (size - chunk)
      else Some w
  end.

Fixpoint gas_put_bytes (fuel : nat) (w : World) (offset src size : Z) : option World :=
  match fuel with
  | O => None
  | S fuel =>
      if decide (0 < size) then
        let node := gas_node offset in
        let chunk := gas_chunk (gas_blkoffset offset) size in
        addr ← seg_addr node (gas_blkid offset) (gas_blkoffset offset);
        gas_put_bytes fuel (put_chunk w node addr src chunk)
          (i64 (offset + chunk)) (src + chunk) (size - chunk)
      else Some w
  end.

Definition gas_get_home_node (offset size : Z) : Z :=
  let start_blk := Z.quot offset (memory_stride g) in
  let end_blk := i64 (u64 (offset + size - 1) `div` memory_stride g) in
  if decide (start_blk ≠ end_blk) then -1 else i32 (Z.rem start_blk (gas_nodes g)).

(** A transfer issued by the batched operations: local ones are done at once,
    the others at some time before the final wait. *)
Record xfer := mkXfer { x_node : Z; x_addr : Z; x_buf : Z; x_len : Z }.

Fixpoint batch_loop (fuel : nat) (node blkid blkoffset buf size : Z) : option (list xfer) :=
  match fuel with
  | O => None
  | S fuel =>
      if decide (0 < size) then
        let chunk := gas_chunk blkoffset size in
        addr ← seg_addr node blkid blkoffset;
        let node' := Z.rem (node + 1) (gas_nodes g) in
        let blkid' := if decide (node' = 0) then blkid + 1 else blkid in
        xs ← batch_loop fuel node' blkid' 0 (buf + chunk) (size - chunk);
        Some (mkXfer node addr buf chunk :: xs)
      else Some []
  end.

(** A request of a batch: offset, buffer and size. *)
Record batch_req := mkReq { rq_offset : Z; rq_buf : Z; rq_size : Z }.

Definition batch_one (fuel : nat) (r : batch_req) : option (list xfer) :=
  batch_loop fuel (gas_node (rq_offset r)) (gas_blkid (rq_offset r))
    (gas_blkoffset (rq_offset r)) (rq_buf r) (rq_size r).

Definition gas_batch (fuel : nat) (l : list batch_req) : option (list xfer) :=
  @concat xfer <$> mapM (batch_one fuel) l.

Definition run_put (w : World) (x : xfer) : World :=
  put_chunk w (x_node x) (x_addr x) (x_buf x) (x_len x).
Definition run_get (w : World) (x : xfer) : World :=
  get_chunk w (x_buf x) (x_node x) (x_addr x) (x_len x).

(** The result of [put_batch] and [get_batch] when the transfers complete in
    the order [l]. *)
Definition gas_put_batch (fuel : nat) (w : World) (reqs : list batch_req) (l : list xfer)
    (w' : World) : Prop :=
  ∃ xs, gas_batch fuel reqs = Some xs ∧ l ≡ₚ xs ∧ w' = foldl run_put w l.
Definition gas_get_batch (fuel : nat) (w : World) (reqs : list batch_req) (l : list xfer)
    (w' : World) : Prop :=
  ∃ xs, gas_batch fuel reqs = Some xs ∧ l ≡ₚ xs ∧ w' = foldl run_get w l.

(** ** The flat array *)

(** Where the byte at an offset is, and the byte itself. *)
Definition gas_addr (offset : Z) : option (Z * Z) :=
  a ← seg_addr (gas_node offset) (gas_blkid offset) (gas_blkoffset offset);
  Some (gas_node offset, a).

Definition gas_view (w : World) : mem := λ offset,
  match gas_addr offset with Some (n, a) => w n a | None => 0 end.

Definition put_op (x : xfer) : copy_op := mkCopy (x_node x) (x_addr x) my (x_buf x) (x_len x).
Definition get_op (x : xfer) : copy_op := mkCopy my (x_buf x) (x_node x) (x_addr x) (x_len x).

Record gas_ok : Prop := {
  go_nodes : 0 < gas_nodes g < 2 ^ 31;
  go_stride : 0 < memory_stride g < 2 ^ 62;
  go_bases : zlen (segbases g) = gas_nodes g }.

Lemma world_memcpy_copied w dst src n : copied w (world_memcpy w my dst src n) (mkCopy my dst my src n).
Proof.
  intros k x. unfold world_memcpy, covers_at. simpl. case_decide as Hk; subst.
  - case_decide as Hx.
    + unfold memcpy. apply write_bytes_in. rewrite read_bytes_lookup by lia. done.
    + apply write_bytes_out. destruct (Z.le_gt_cases 0 n).
      * rewrite read_bytes_zlen by lia. tauto.
      * rewrite read_bytes_nil by lia. unfold zlen. simpl. lia.
  - by rewrite decide_False by tauto.
Qed.

Lemma run_put_copied w x : copied w (run_put w x) (put_op x).
Proof.
  unfold run_put, put_chunk, put_op. case_decide as Hn; [apply gasnet_put_law|].
  assert (x_node x = my) as -> by lia. apply world_memcpy_copied.
Qed.

Lemma run_get_copied w x : copied w (run_get w x) (get_op x).
Proof.
  unfold run_get, get_chunk, get_op. case_decide as Hn; [apply gasnet_get_law|].
  assert (x_node x = my) as -> by lia. apply world_memcpy_copied.
Qed.

(** ** Addressing *)

(** A stripe and the place in it determine the offset. *)
Lemma gas_split offset : gas_ok → 0 ≤ offset →
  offset = (gas_blkid offset * gas_nodes g + gas_node offset) * memory_stride g + gas_blkoffset offset ∧
  0 ≤ gas_blkid offset ∧ 0 ≤ gas_node offset < gas_nodes g ∧
  0 ≤ gas_blkoffset offset < memory_stride g.
Proof.
  intros [Hn Hs _] Ho. unfold gas_blkid, gas_node, gas_blkoffset.
  rewrite (Z.quot_div_nonneg offset), (Z.rem_mod_nonneg offset) by lia.
  assert (0 ≤ offset `div` memory_stride g) by (apply Z.div_pos; lia).
  rewrite Z.quot_div_nonneg, Z.rem_mod_nonneg by lia.
  pose proof (Z.div_mod offset (memory_stride g) ltac:(lia)).
  pose proof (Z.div_mod (offset `div` memory_stride g) (gas_nodes g) ltac:(lia)).
  pose proof (Z.mod_pos_bound (offset `div` memory_stride g) (gas_nodes g) ltac:(lia)).
  pose proof (Z.mod_pos_bound offset (memory_stride g) ltac:(lia)).
  split_all; try lia; try (apply Z.div_pos; lia); nia.
Qed.

Lemma gas_join b n o : gas_ok → 0 ≤ b → 0 ≤ n < gas_nodes g → 0 ≤ o < memory_stride g →
  let offset := (b * gas_nodes g + n) * memory_stride g + o in
  0 ≤ offset ∧ gas_blkid offset = b ∧ gas_node offset = n ∧ gas_blkoffset offset = o.
Proof.
  intros [Hn Hs _] Hb Hnn Ho offset.
  assert (0 ≤ b * gas_nodes g + n) by nia. assert (0 ≤ offset) by nia. split; [done|].
  assert (offset `div` memory_stride g = b * gas_nodes g + n) as E1.
  { unfold offset. rewrite Z.div_add_l by lia. rewrite Z.div_small by lia. lia. }
  assert (offset `mod` memory_stride g = o) as E2.
  { unfold offset. rewrite Z.add_comm, Z.mod_add by lia. apply Z.mod_small. lia. }
  unfold gas_blkid, gas_node, gas_blkoffset.
  rewrite (Z.quot_div_nonneg offset), (Z.rem_mod_nonneg offset), E1, E2 by lia.
  rewrite Z.quot_div_nonneg, Z.rem_mod_nonneg by lia.
  rewrite Z.div_add_l, Z.div_small by lia.
  rewrite (Z.add_comm (b * gas_nodes g)), Z.mod_add, Z.mod_small by lia. split_all; lia.
Qed.

Lemma gas_addr_eq offset : gas_ok → 0 ≤ offset →
  ∃ base, aget (segbases g) (gas_node offset) = Some base ∧
    gas_addr offset =
      Some (gas_node offset, base + gas_blkid offset * memory_stride g + gas_blkoffset offset).
Proof.
  intros Hok Ho. destruct (gas_split offset Hok Ho) as (_ & _ & Hn & _).
  destruct (aget_is_Some (segbases g) (gas_node offset)) as [b Hb].
  { rewrite (go_bases Hok). done. }
  exists b. split; [done|]. unfold gas_addr, seg_addr. by rewrite Hb.
Qed.

Lemma gas_addr_inj o o' p : gas_ok → 0 ≤ o → 0 ≤ o' →
  gas_addr o = Some p → gas_addr o' = Some p → o = o'.
Proof.
  intros Hok Ho Ho' E E'.
  destruct (gas_addr_eq o Hok Ho) as (b & Hb & Eb).
  destruct (gas_addr_eq o' Hok Ho') as (b' & Hb' & Eb').
  rewrite Eb in E. rewrite Eb', <- E in E'. injection E' as En Ea. rewrite En, Hb in Hb'.
  injection Hb' as ->.
  destruct (gas_split o Hok Ho) as (Eo & _ & _ & Hr).
  destruct (gas_split o' Hok Ho') as (Eo' & _ & _ & Hr'). rewrite En in Eo'.
  assert (gas_blkid o = gas_blkid o' ∧ gas_blkoffset o = gas_blkoffset o') as [E1 E2].
  { apply (Z.div_mod_unique (memory_stride g)); [lia..|]. lia. }
  rewrite Eo, Eo', E1, E2. done.
Qed.

(** Inside a stripe addresses are consecutive. *)
Lemma gas_addr_chunk o i : gas_ok → 0 ≤ o → 0 ≤ i → gas_blkoffset o + i < memory_stride g →
  gas_node (o + i) = gas_node o ∧ gas_blkid (o + i) = gas_blkid o ∧
  gas_blkoffset (o + i) = gas_blkoffset o + i.
Proof.
  intros Hok Ho Hi Hlt. destruct (gas_split o Hok Ho) as (E & ? & ? & ?).
  destruct (gas_join (gas_blkid o) (gas_node o) (gas_blkoffset o + i) Hok) as (_ & E1 & E2 & E3);
    [lia..|].
  replace (o + i) with
    ((gas_blkid o * gas_nodes g + gas_node o) * memory_stride g + (gas_blkoffset o + i)) by lia.
  done.
Qed.

Lemma gas_chunk_bounds o size : gas_ok → 0 ≤ o → 0 < size →
  0 < gas_chunk (gas_blkoffset o) size ≤ size ∧
  gas_blkoffset o + gas_chunk (gas_blkoffset o) size ≤ memory_stride g ∧
  (gas_chunk (gas_blkoffset o) size < size →
   gas_blkoffset o + gas_chunk (gas_blkoffset o) size = memory_stride g).
Proof.
  intros Hok Ho Hs. destruct (gas_split o Hok Ho) as (_ & _ & _ & Hb).
  pose proof (go_stride Hok). unfold gas_chunk. rewrite u64_id by (unfold is_u64; lia).
  case_decide; lia.
Qed.

(** ** The transfers of a range *)

(** The loop of [put_bytes] and [get_bytes], as the list of its transfers. *)
Fixpoint gas_chunks (fuel : nat) (offset buf size : Z) : option (list xfer) :=
  match fuel with
  | O => None
  | S fuel =>
      if decide (0 < size) then
        let chunk := gas_chunk (gas_blkoffset offset) size in
        addr ← seg_addr (gas_node offset) (gas_blkid offset) (gas_blkoffset offset);
        xs ← gas_chunks fuel (i64 (offset + chunk)) (buf + chunk) (size - chunk);
        Some (mkXfer (gas_node offset) addr buf chunk :: xs)
      else Some []
  end.

Lemma gas_put_bytes_chunks fuel : ∀ w offset src size xs,
  gas_chunks fuel offset src size = Some xs →
  gas_put_bytes fuel w offset src size = Some (foldl run_put w xs).
Proof.
  induction fuel as [|fuel IH]; intros w offset src size xs E; simpl in *; [done|].
  case_decide; [|by simplify_eq/=]. destruct (seg_addr _ _ _); [|done]. simpl in *.
  destruct (gas_chunks fuel _ _ _) eqn:Ec; [|done]. simplify_eq/=. by apply IH.
Qed.

Lemma gas_get_bytes_chunks fuel : ∀ w offset dst size xs,
  gas_chunks fuel offset dst size = Some xs →
  gas_get_bytes fuel w offset dst size = Some (foldl run_get w xs).
Proof.
  induction fuel as [|fuel IH]; intros w offset src size xs E; simpl in *; [done|].
  case_decide; [|by simplify_eq/=]. destruct (seg_addr _ _ _); [|done]. simpl in *.
  destruct (gas_chunks fuel _ _ _) eqn:Ec; [|done]. simplify_eq/=. by apply IH.
Qed.

(** [xs] moves exactly the bytes of the range, each to its place. *)
Record moves (xs : list xfer) (offset buf size : Z) : Prop := {
  mv_all o : offset ≤ o < offset + size →
    ∃ x i, x ∈ xs ∧ 0 ≤ i < x_len x ∧ gas_addr o = Some (x_node x, x_addr x + i) ∧
      x_buf x + i = buf + (o - offset);
  mv_only x i : x ∈ xs → 0 ≤ i < x_len x →
    ∃ o, offset ≤ o < offset + size ∧ gas_addr o = Some (x_node x, x_addr x + i) ∧
      x_buf x + i = buf + (o - offset) }.

Lemma gas_chunks_moves fuel : ∀ offset buf size,
  gas_ok → 0 ≤ offset → 0 ≤ size → offset + size < 2 ^ 63 → (Z.to_nat size < fuel)%nat →
  ∃ xs, gas_chunks fuel offset buf size = Some xs ∧ moves xs offset buf size.
Proof.
  induction fuel as [|fuel IH]; intros offset buf size Hok Ho Hs Hlt Hf; [lia|]. simpl.
  case_decide as Hpos; [|exists []; split; [done|]; split; [lia|set_solver]].
  destruct (gas_chunk_bounds offset size Hok Ho Hpos) as (Hc & Hc' & _).
  set (c := gas_chunk (gas_blkoffset offset) size) in *.
  destruct (gas_addr_eq offset Hok Ho) as (base & Hb & _). unfold seg_addr. rewrite Hb. simpl.
  rewrite i64_id by lia.
  destruct (IH (offset + c) (buf + c) (size - c) Hok) as (xs & -> & [Hall Honly]); [lia..|].
  simpl. eexists. split; [done|].
  assert (∀ i, 0 ≤ i < c → gas_addr (offset + i) = Some (gas_node offset,
    base + gas_blkid offset * memory_stride g + gas_blkoffset offset + i)) as Haddr.
  { intros i Hi. destruct (gas_addr_chunk offset i Hok Ho) as (E1 & E2 & E3); [lia..|].
    unfold gas_addr, seg_addr. rewrite E1, E2, E3, Hb. simpl. by rewrite Z.add_assoc. }
  split.
  - intros o Hr. destruct (decide (o < offset + c)).
    + eexists _, (o - offset). split; [by left|]. simpl. split; [lia|]. split; [|lia].
      rewrite <- Haddr by lia. f_equal. lia.
    + destruct (Hall o) as (x & i & Hx & Hi & Ha & Hbuf); [lia|].
      exists x, i. split; [by right|]. split_all; [lia..|done|lia].
  - intros x i [->|Hx]%elem_of_cons Hi.
    + exists (offset + i). simpl in *. rewrite Haddr by lia. split_all; [lia..|done|lia].
    + destruct (Honly x i Hx Hi) as (o & Hr & Ha & Hbuf). exists o. split_all; [lia..|done|lia].
Qed.

(** ** The effect of transfers, in any order *)

Section Fold.
Context (run : World → xfer → World) (op : xfer → copy_op).
Context (run_law : ∀ w x, copied w (run w x) (op x)).

(** No transfer reads what another writes. *)
Definition sources_stable (xs : list xfer) : Prop := ∀ x y i, x ∈ xs → y ∈ xs →
  0 ≤ i < c_len (op x) → ¬ covers_at (op y) (c_sn (op x)) (c_sa (op x) + i).

Lemma copies_fold xs w : sources_stable xs → ∀ n a,
  (∃ x, x ∈ xs ∧ covers_at (op x) n a ∧
     foldl run w xs n a = w (c_sn (op x)) (c_sa (op x) + (a - c_da (op x)))) ∨
  ((∀ x, x ∈ xs → ¬ covers_at (op x) n a) ∧ foldl run w xs n a = w n a).
Proof.
  induction xs as [|y xs IH] using rev_ind; intros Hst n a.
  { right. split; [set_solver|done]. }
  assert (sources_stable xs) as Hst' by (intros x z i Hx Hz; apply Hst; set_solver).
  rewrite foldl_snoc, (run_law _ _ n a). case_decide as Hc.
  - left. exists y. split; [set_solver|]. split; [done|].
    destruct (IH Hst' (c_sn (op y)) (c_sa (op y) + (a - c_da (op y)))) as [(x & Hx & Hcx & _)|[_ ->]];
      [|done].
    destruct (Hst y x (a - c_da (op y))); [set_solver|set_solver| |done].
    unfold covers_at in Hc. lia.
  - destruct (IH Hst' n a) as [(x & Hx & Hcx & ->)|[Hno ->]].
    + left. exists x. split; [set_solver|done].
    + right. split; [|done]. intros x [Hx|Hx]%elem_of_app; [by apply Hno|].
      by apply list_elem_of_singleton in Hx as ->.
Qed.

(** Transfers that agree on what they write have one outcome. *)
Lemma copies_fold_eq xs ys w : sources_stable xs → (∀ x, x ∈ ys ↔ x ∈ xs) →
  (∀ x y n a, x ∈ xs → y ∈ xs → covers_at (op x) n a → covers_at (op y) n a →
     c_sn (op x) = c_sn (op y) ∧ c_sa (op x) - c_da (op x) = c_sa (op y) - c_da (op y)) →
  ∀ n a, foldl run w ys n a = foldl run w xs n a.
Proof.
  intros Hst Heq Hdet n a.
  assert (sources_stable ys) as Hst' by (intros x z i Hx%Heq Hz%Heq; by apply Hst).
  destruct (copies_fold xs w Hst n a) as [(x & Hx & Hcx & ->)|[Hno ->]].
  - destruct (copies_fold ys w Hst' n a) as [(y & Hy%Heq & Hcy & ->)|[Hno _]].
    + destruct (Hdet x y n a) as [-> E]; try done. f_equal. lia.
    + destruct (Hno x); [by apply Heq|done].
  - destruct (copies_fold ys w Hst' n a) as [(y & Hy%Heq & Hcy & _)|[_ ->]]; [|done].
    by destruct (Hno y Hy).
Qed.
End Fold.

(** The buffer of a request is not in the segment part it names. *)
Definition buffer_clear (offset buf size : Z) : Prop := ∀ o i,
  offset ≤ o < offset + size → 0 ≤ i < size → gas_addr o ≠ Some (my, buf + i).

Lemma buffer_in xs offset buf size x i : moves xs offset buf size → x ∈ xs → 0 ≤ i < x_len x →
  buf ≤ x_buf x + i < buf + size.
Proof. intros [_ Honly] Hx Hi. destruct (Honly x i Hx Hi) as (o & ? & _ & ->). lia. Qed.

Lemma put_stable xs offset buf size :
  moves xs offset buf size → buffer_clear offset buf size → sources_stable put_op xs.
Proof.
  intros Hm Hb x y i Hx Hy Hi [Hn Hc]. simpl in *.
  destruct (mv_only _ _ _ _ Hm y (x_buf x + i - x_addr y) Hy) as (o & Ho & Ha & _); [lia|].
  pose proof (buffer_in _ _ _ _ x i Hm Hx Hi).
  apply (Hb o (x_buf x + i - buf) Ho); [lia|]. rewrite Ha, <- Hn. do 2 f_equal. lia.
Qed.

Lemma get_stable xs offset buf size :
  moves xs offset buf size → buffer_clear offset buf size → sources_stable get_op xs.
Proof.
  intros Hm Hb x y i Hx Hy Hi [Hn Hc]. simpl in *.
  destruct (mv_only _ _ _ _ Hm x i Hx Hi) as (o & Ho & Ha & _).
  pose proof (buffer_in _ _ _ _ y (x_addr x + i - x_buf y) Hm Hy ltac:(lia)).
  apply (Hb o (x_addr x + i - buf) Ho); [lia|]. rewrite Ha, Hn. do 2 f_equal. lia.
Qed.

Lemma put_fold_view w xs offset src size :
  gas_ok → 0 ≤ offset → moves xs offset src size → buffer_clear offset src size → 0 ≤ size →
  (∀ o, 0 ≤ o → gas_view (foldl run_put w xs) o =
     write_bytes (gas_view w) offset (read_bytes (w my) src size) o) ∧
  (∀ n a, (∀ o, offset ≤ o < offset + size → gas_addr o ≠ Some (n, a)) →
     foldl run_put w xs n a = w n a).
Proof.
  intros Hok Ho Hm Hb Hs.
  pose proof (copies_fold _ _ run_put_copied xs w (put_stable _ _ _ _ Hm Hb)) as Hf.
  split.
  - intros o Hpos. unfold gas_view at 1. destruct (gas_addr_eq o Hok Hpos) as (base & _ & Ea).
    set (a := base + _ + _) in Ea. clearbody a. rewrite Ea.
    destruct (Hf (gas_node o) a) as [(x & Hx & [Hn Hc] & ->)|[Hno ->]]; simpl in *.
    + destruct (mv_only _ _ _ _ Hm x (a - x_addr x) Hx ltac:(lia)) as (o' & Ho' & Ha' & Hbuf).
      assert (o' = o) as ->.
      { eapply gas_addr_inj; [done|lia|done|exact Ha'|]. rewrite Ea, Hn. do 2 f_equal. lia. }
      symmetry. apply write_bytes_in. rewrite read_bytes_lookup by lia. do 2 f_equal. lia.
    + rewrite write_bytes_out; [unfold gas_view; by rewrite Ea|].
      rewrite read_bytes_zlen by lia. intros Hr.
      destruct (mv_all _ _ _ _ Hm o Hr) as (x & i & Hx & Hi & Ha & _).
      rewrite Ea in Ha. simplify_eq. apply (Hno x Hx). split; simpl; lia.
  - intros n a Hout. destruct (Hf n a) as [(x & Hx & [Hn Hc] & _)|[_ ->]]; [|done]. simpl in *.
    destruct (mv_only _ _ _ _ Hm x (a - x_addr x) Hx ltac:(lia)) as (o & Hr & Ha & _).
    destruct (Hout o Hr). rewrite Ha, <- Hn. do 2 f_equal. lia.
Qed.

Lemma get_fold_view w xs offset dst size :
  gas_ok → 0 ≤ offset → moves xs offset dst size → buffer_clear offset dst size → 0 ≤ size →
  ∀ n a, foldl run_get w xs n a =
    if decide (n = my) then write_bytes (w my) dst (read_bytes (gas_view w) offset size) a
    else w n a.
Proof.
  intros Hok Ho Hm Hb Hs n a.
  destruct (copies_fold _ _ run_get_copied xs w (get_stable _ _ _ _ Hm Hb) n a)
    as [(x & Hx & [Hn Hc] & ->)|[Hno ->]]; simpl in *.
  - rewrite decide_True by done.
    destruct (mv_only _ _ _ _ Hm x (a - x_buf x) Hx ltac:(lia)) as (o & Hr & Ha & Hbuf).
    symmetry. apply write_bytes_in. rewrite read_bytes_lookup by lia. f_equal.
    replace (offset + (a - dst)) with o by lia. unfold gas_view. by rewrite Ha.
  - case_decide as Hn; [|done]. subst. rewrite write_bytes_out; [done|].
    rewrite read_bytes_zlen by lia. intros Hr.
    destruct (mv_all _ _ _ _ Hm (offset + (a - dst)) ltac:(lia)) as (x & i & Hx & Hi & _ & Hbuf).
    apply (Hno x Hx). split; simpl; lia.
Qed.

(** ** Batches *)

(** The batched loop steps from node to node instead of dividing again. *)
Lemma batch_loop_chunks fuel : ∀ offset buf size,
  gas_ok → 0 ≤ offset → 0 ≤ size → offset + size < 2 ^ 63 →
  batch_loop fuel (gas_node offset) (gas_blkid offset) (gas_blkoffset offset) buf size =
  gas_chunks fuel offset buf size.
Proof.
  induction fuel as [|fuel IH]; intros offset buf size Hok Ho Hs Hlt; [done|]. simpl.
  case_decide as Hpos; [|done].
  destruct (gas_chunk_bounds offset size Hok Ho Hpos) as (Hc & Hc' & Hfull).
  set (c := gas_chunk (gas_blkoffset offset) size) in *. rewrite i64_id by lia.
  destruct (seg_addr _ _ _); [simpl|done].
  destruct (decide (c < size)) as [Hlc|Hlc].
  - destruct (gas_split offset Hok Ho) as (E & Hb & Hn & _).
    pose proof (go_stride Hok). rewrite <- IH by (done || lia).
    assert (let nn := Z.rem (gas_node offset + 1) (gas_nodes g) in
      nn = gas_node (offset + c) ∧
      (if decide (nn = 0) then gas_blkid offset + 1 else gas_blkid offset) = gas_blkid (offset + c) ∧
      0 = gas_blkoffset (offset + c)) as (-> & -> & <-); [|done].
    specialize (Hfull Hlc). rewrite Z.rem_mod_nonneg by lia.
    destruct (decide (gas_node offset + 1 = gas_nodes g)) as [Hw|Hw].
    + rewrite Hw, Z.mod_same by lia. simpl.
      destruct (gas_join (gas_blkid offset + 1) 0 0 Hok) as (_ & E1 & E2 & E3); [lia..|].
      replace (offset + c) with
        (((gas_blkid offset + 1) * gas_nodes g + 0) * memory_stride g + 0) by nia.
      by rewrite E1, E2, E3.
    + rewrite Z.mod_small by lia. cbv zeta. rewrite decide_False by lia.
      destruct (gas_join (gas_blkid offset) (gas_node offset + 1) 0 Hok) as (_ & E1 & E2 & E3); [lia..|].
      replace (offset + c) with
        ((gas_blkid offset * gas_nodes g + (gas_node offset + 1)) * memory_stride g + 0) by nia.
      by rewrite E1, E2, E3.
  - replace (size - c) with 0 by lia. destruct fuel; [done|]. simpl. done.
Qed.

Definition req_ok (fuel : nat) (r : batch_req) : Prop :=
  0 ≤ rq_offset r ∧ 0 ≤ rq_size r ∧ rq_offset r + rq_size r < 2 ^ 63 ∧
  (Z.to_nat (rq_size r) < fuel)%nat.

Definition moved_by (r : batch_req) (x : xfer) : Prop := ∀ i, 0 ≤ i < x_len x →
  ∃ o, rq_offset r ≤ o < rq_offset r + rq_size r ∧ gas_addr o = Some (x_node x, x_addr x + i) ∧
    x_buf x + i = rq_buf r + (o - rq_offset r).

(** The unbatched operations, one request after the other. *)
Fixpoint put_each (fuel : nat) (w : World) (reqs : list batch_req) : option World :=
  match reqs with
  | [] => Some w
  | r :: reqs => w ← gas_put_bytes fuel w (rq_offset r) (rq_buf r) (rq_size r); put_each fuel w reqs
  end.
Fixpoint get_each (fuel : nat) (w : World) (reqs : list batch_req) : option World :=
  match reqs with
  | [] => Some w
  | r :: reqs => w ← gas_get_bytes fuel w (rq_offset r) (rq_buf r) (rq_size r); get_each fuel w reqs
  end.

Lemma batch_each fuel reqs : gas_ok → Forall (req_ok fuel) reqs →
  ∃ xs, gas_batch fuel reqs = Some xs ∧ (∀ x, x ∈ xs → ∃ r, r ∈ reqs ∧ moved_by r x) ∧
    ∀ w, put_each fuel w reqs = Some (foldl run_put w xs) ∧
         get_each fuel w reqs = Some (foldl run_get w xs).
Proof.
  intros Hok Hr. unfold gas_batch. induction Hr as [|r reqs (Ho & Hs & Hlt & Hf) _ (xs & E & Hm & Hw)].
  { exists []. split_all; [done|set_solver|done]. }
  destruct (gas_chunks_moves fuel (rq_offset r) (rq_buf r) (rq_size r) Hok Ho Hs Hlt Hf)
    as (ys & Ey & Hy).
  assert (batch_one fuel r = Some ys) as E1 by (unfold batch_one; by rewrite batch_loop_chunks).
  exists (ys ++ xs). simpl. rewrite E1. simpl.
  destruct (mapM (batch_one fuel) reqs) as [xss|]; simplify_eq/=. split_all; [done| |].
  - intros x [Hx|Hx]%elem_of_app.
    + exists r. split; [by left|]. intros i. by apply Hy.
    + destruct (Hm x Hx) as (r' & ? & ?). exists r'. split; [by right|done].
  - intros w. rewrite (gas_put_bytes_chunks _ _ _ _ _ _ Ey), (gas_get_bytes_chunks _ _ _ _ _ _ Ey).
    simpl. rewrite !foldl_app. split; apply Hw.
Qed.

(** Requests with buffers outside the part of the memory they name. *)
Definition batch_clear (reqs : list batch_req) : Prop := ∀ r r' o i, r ∈ reqs → r' ∈ reqs →
  rq_offset r ≤ o < rq_offset r + rq_size r → 0 ≤ i < rq_size r' →
  gas_addr o ≠ Some (my, rq_buf r' + i).

Lemma moved_buffer r x i : moved_by r x → 0 ≤ i < x_len x →
  0 ≤ x_buf x + i - rq_buf r < rq_size r.
Proof. intros Hm Hi. destruct (Hm i Hi) as (o & ? & _ & ?). lia. Qed.

Lemma batch_put_stable reqs xs : batch_clear reqs →
  (∀ x, x ∈ xs → ∃ r, r ∈ reqs ∧ moved_by r x) → sources_stable put_op xs.
Proof.
  intros Hc Hm x y i Hx Hy Hi [Hn Ha]. simpl in *.
  destruct (Hm x Hx) as (r & Hr & Hmx), (Hm y Hy) as (r' & Hr' & Hmy).
  destruct (Hmy (x_buf x + i - x_addr y)) as (o & Ho & Hao & _); [lia|].
  pose proof (moved_buffer r x i Hmx Hi).
  apply (Hc r' r o (x_buf x + i - rq_buf r)); try done. rewrite Hao, <- Hn. do 2 f_equal. lia.
Qed.

Lemma batch_get_stable reqs xs : batch_clear reqs →
  (∀ x, x ∈ xs → ∃ r, r ∈ reqs ∧ moved_by r x) → sources_stable get_op xs.
Proof.
  intros Hc Hm x y i Hx Hy Hi [Hn Ha]. simpl in *.
  destruct (Hm x Hx) as (r & Hr & Hmx), (Hm y Hy) as (r' & Hr' & Hmy).
  destruct (Hmx i Hi) as (o & Ho & Hao & _).
  pose proof (moved_buffer r' y (x_addr x + i - x_buf y) Hmy ltac:(lia)).
  apply (Hc r r' o (x_addr x + i - rq_buf r')); try done; [lia|]. rewrite Hao, Hn.
  do 2 f_equal. lia.
Qed.

Definition share_offset (r r' : batch_req) : Prop :=
  ∃ o, rq_offset r ≤ o < rq_offset r + rq_size r ∧ rq_offset r' ≤ o < rq_offset r' + rq_size r'.
Definition share_buffer (r r' : batch_req) : Prop :=
  ∃ b, rq_buf r ≤ b < rq_buf r + rq_size r ∧ rq_buf r' ≤ b < rq_buf r' + rq_size r'.

(** C18. The batched operations are equivalent to one [put_bytes] or
    [get_bytes] per request, in any order in which the transfers complete:
    when no two requests write the same bytes and no buffer is in a part of
    the memory that is transferred, the batch issues its transfers and the
    world after them is the world after the unbatched calls. *)
Theorem gas_batch_equiv fuel w reqs :
  gas_ok → Forall (req_ok fuel) reqs → batch_clear reqs →
  ∃ xs, gas_batch fuel reqs = Some xs ∧
    ((∀ r r', r ∈ reqs → r' ∈ reqs → share_offset r r' → r = r') →
     ∃ w1, put_each fuel w reqs = Some w1 ∧
       ∀ l w', gas_put_batch fuel w reqs l w' → ∀ n a, w' n a = w1 n a) ∧
    ((∀ r r', r ∈ reqs → r' ∈ reqs → share_buffer r r' → r = r') →
     ∃ w1, get_each fuel w reqs = Some w1 ∧
       ∀ l w', gas_get_batch fuel w reqs l w' → ∀ n a, w' n a = w1 n a).
Proof.
  intros Hok Hr Hc. destruct (batch_each fuel reqs Hok Hr) as (xs & E & Hm & Hw).
  exists xs. split; [done|]. split; intros Hd; destruct (Hw w) as [Hp Hg];
    eexists; (split; [eassumption|]); intros l w' (ys & Ey & Hl & ->); rewrite E in Ey; injection Ey as <-;
    eapply copies_fold_eq; eauto using run_put_copied, run_get_copied, batch_put_stable, batch_get_stable;
    try (intros x; by rewrite Hl); intros x y n a Hx Hy [Hn Ha] [Hn' Ha']; simpl in *;
    destruct (Hm x Hx) as (r & Hrx & Hmx), (Hm y Hy) as (r' & Hry & Hmy).
  - destruct (Hmx (a - x_addr x) ltac:(lia)) as (o & Ho & Hao & Hbo).
    destruct (Hmy (a - x_addr y) ltac:(lia)) as (o' & Ho' & Hao' & Hbo').
    rewrite Forall_forall in Hr. destruct (Hr r Hrx) as (? & _), (Hr r' Hry) as (? & _).
    assert (o = o') as <-.
    { eapply gas_addr_inj; [done|lia|lia|exact Hao|]. rewrite Hao', <- Hn, <- Hn'. do 2 f_equal. lia. }
    assert (r = r') as <- by (apply Hd; [done..|by exists o]). split; [done|lia].
  - destruct (Hmx (a - x_buf x) ltac:(lia)) as (o & Ho & Hao & Hbo).
    destruct (Hmy (a - x_buf y) ltac:(lia)) as (o' & Ho' & Hao' & Hbo').
    assert (r = r') as <- by (apply Hd; [done..|exists a; split; lia]).
    assert (o = o') as <- by lia. rewrite Hao in Hao'. injection Hao' as -> ?. split; [done|lia].
Qed.

(** C17. [put_bytes] and [get_bytes] refine a flat array: seen through the
    striping, putting a buffer writes its bytes at the offset and nothing else
    on any node, and getting reads the bytes at the offset into the buffer and
    changes nothing else. *)
Theorem gas_bytes_refine fuel w offset buf size :
  gas_ok → 0 ≤ offset → 0 ≤ size → offset + size < 2 ^ 63 → (Z.to_nat size < fuel)%nat →
  buffer_clear offset buf size →
  (∃ w', gas_put_bytes fuel w offset buf size = Some w' ∧
     (∀ o, 0 ≤ o → gas_view w' o =
        write_bytes (gas_view w) offset (read_bytes (w my) buf size) o) ∧
     (∀ n a, (∀ o, offset ≤ o < offset + size → gas_addr o ≠ Some (n, a)) → w' n a = w n a)) ∧
  (∃ w', gas_get_bytes fuel w offset buf size = Some w' ∧
     ∀ n a, w' n a =
       if decide (n = my) then write_bytes (w my) buf (read_bytes (gas_view w) offset size) a
       else w n a).
Proof.
  intros Hok Ho Hs Hlt Hf Hb.
  destruct (gas_chunks_moves fuel offset buf size Hok Ho Hs Hlt Hf) as (xs & E & Hm). split.
  - eexists. split; [by apply gas_put_bytes_chunks|]. by apply put_fold_view.
  - eexists. split; [by apply gas_get_bytes_chunks|]. by apply get_fold_view.
Qed.

(** [get_home_node] names the node that holds every byte of a range, or
    answers -1, which it does exactly when the range does not lie in one
    stripe. *)
Theorem gas_get_home_node_ok offset size :
  gas_ok → 0 ≤ offset → 0 < size → offset + size < 2 ^ 63 →
  (gas_get_home_node offset size = -1 ↔ memory_stride g < gas_blkoffset offset + size) ∧
  (gas_get_home_node offset size ≠ -1 →
   ∀ o, offset ≤ o < offset + size → gas_node o = gas_get_home_node offset size).
Proof.
  intros Hok Ho Hs Hlt. pose proof (go_stride Hok). pose proof (go_nodes Hok).
  destruct (gas_split offset Hok Ho) as (E & Hb & Hn & Hk).
  set (S := memory_stride g) in *. set (q := gas_blkid offset * gas_nodes g + gas_node offset) in *.
  assert (0 ≤ q) by (subst q; nia).
  assert (Z.quot offset S = q) as Eq.
  { rewrite Z.quot_div_nonneg by lia. rewrite E, Z.div_add_l, Z.div_small by lia. lia. }
  pose proof (Z.div_mod (offset + size - 1) S ltac:(lia)) as Ed.
  pose proof (Z.mod_pos_bound (offset + size - 1) S ltac:(lia)) as Er.
  set (e := (offset + size - 1) `div` S) in *.
  assert (0 ≤ e ≤ offset + size - 1) by nia.
  unfold gas_get_home_node. fold S. rewrite Eq, u64_id by (unfold is_u64; lia). fold e.
  rewrite i64_id by lia.
  assert (q = e ↔ gas_blkoffset offset + size ≤ S) as Hqe by (split; nia).
  case_decide as Hne; [split; [|done]; split; [lia|done]|].
  assert (Z.rem q (gas_nodes g) = gas_node offset) as -> by (unfold gas_node; by fold S; rewrite Eq).
  rewrite i32_id by (unfold is_i32; lia). split; [lia|]. intros _ o Hr.
  destruct (gas_addr_chunk offset (o - offset) Hok Ho) as (E1 & _); [lia..|].
  by replace o with (offset + (o - offset)) by lia.
Qed.
End Gas.

(** ** Segments *)

Lemma gas_init_ok segs max_node_id n g :
  GASNetMemory_init segs max_node_id n = Some g → 0 ≤ max_node_id < 2 ^ 31 - 1 →
  gas_ok g ∧ gas_nodes g = max_node_id + 1 ∧ gas_size g = u64 (n * gas_nodes g) ∧
  ∀ i base, aget (segbases g) i = Some base → ∃ size, aget segs i = Some (base, size) ∧ n ≤ size.
Proof.
  unfold GASNetMemory_init. intros E Hm. rewrite i32_id in E by (unfold is_i32; lia). asserts. simplify_eq/=.
  split; [split; simpl; [lia|unfold MEMORY_STRIDE; lia|]|split_all; [done|done|]].
  - unfold zlen in *. rewrite length_fmap, length_take. lia.
  - intros i base. unfold aget. case_decide; [|done]. rewrite list_lookup_fmap.
    intros ([b s] & E & ->)%fmap_Some_1. exists s. split.
    + rewrite lookup_take in E. by case_decide.
    + rewrite Forall_forall in Hassert0. apply (Hassert0 (b, s)). by eapply list_elem_of_lookup_2.
Qed.

(** Every offset of the global memory is inside its node's segment, and
    every byte the nodes contribute is used: when the share of a node is a
    whole number of stripes the offsets of the memory and the bytes of the
    shares are in bijection. *)
Lemma gas_in_segment segs max_node_id n g :
  GASNetMemory_init segs max_node_id n = Some g → 0 ≤ max_node_id < 2 ^ 31 - 1 →
  0 < n → (MEMORY_STRIDE | n) → n * (max_node_id + 1) < 2 ^ 63 →
  (∀ o, 0 ≤ o < gas_size g → ∃ i a base size, gas_addr g o = Some (i, a) ∧
     aget segs i = Some (base, size) ∧ base ≤ a < base + n ∧ n ≤ size) ∧
  (∀ i base a, aget (segbases g) i = Some base → base ≤ a < base + n →
     ∃ o, 0 ≤ o < gas_size g ∧ gas_addr g o = Some (i, a)).
Proof.
  intros E Hm Hn [q Hq] Hlt.
  assert (memory_stride g = 1024) as ES by (unfold GASNetMemory_init in E; asserts; by simplify_eq/=).
  destruct (gas_init_ok _ _ _ _ E Hm) as (Hok & En & Esz & Hsegs). unfold MEMORY_STRIDE in Hq.
  rewrite u64_id in Esz by (unfold is_u64; rewrite En; nia). rewrite Esz, En. split.
  - intros o Ho. destruct (gas_addr_eq g o Hok ltac:(lia)) as (base & Hb & Ea).
    destruct (Hsegs _ _ Hb) as (size & Hseg & Hsz).
    do 4 eexists. split; [exact Ea|]. split; [exact Hseg|]. split; [|done].
    destruct (gas_split g o Hok ltac:(lia)) as (Eo & ? & ? & ?). rewrite ES, En in *.
    set (b := gas_blkid g o) in *. set (k := gas_blkoffset g o) in *. set (d := gas_node g o) in *.
    clearbody b k d. assert (b < q) by nia. lia.
  - intros i base a Hb Ha. pose proof (aget_Some_range _ _ _ Hb) as Hi. rewrite (go_bases _ Hok) in Hi.
    pose proof (Z.div_mod (a - base) 1024 ltac:(lia)) as Ed.
    pose proof (Z.mod_pos_bound (a - base) 1024 ltac:(lia)) as Er.
    set (b := (a - base) `div` 1024) in *. set (k := (a - base) `mod` 1024) in *.
    destruct (gas_join g b i k Hok) as (Ho & E1 & E2 & E3); [lia|lia|lia|].
    eexists. split; [|unfold gas_addr, seg_addr; rewrite E1, E2, E3, Hb; simpl; do 2 f_equal; lia].
    rewrite ES, En in *. assert (b ≤ q - 1) by lia. split; [lia|].
    assert (b * (max_node_id + 1) ≤ (q - 1) * (max_node_id + 1)) by (apply Z.mul_le_mono_nonneg_r; lia).
    subst n. lia.
Qed.

(** ** An instance, and examples *)

Definition copy_world (w : World) (c : copy_op) : World := λ n x,
  if decide (covers_at c n x) then w (c_sn c) (c_sa c + (x - c_da c)) else w n x.

#[export] Instance copying_rdma : GasnetRDMA.
Proof.
  refine {| gasnet_put w my node dst src n := copy_world w (mkCopy node dst my src n);
            gasnet_get w my dst node src n := copy_world w (mkCopy my dst node src n) |}; done.
Defined.

Definition example_gas : GASNetMemory := mkGasMem 3 1024 [10000; 20000; 30000] 12288.

Lemma example_gas_ok : gas_ok example_gas.
Proof. split; simpl; lia || done. Qed.

Lemma example_gas_addr o n a : 0 ≤ o < 12288 → gas_addr example_gas o = Some (n, a) → 10000 ≤ a.
Proof.
  intros Ho E. destruct (gas_addr_eq _ o example_gas_ok ltac:(lia)) as (base & Hb & Ea).
  destruct (gas_split _ o example_gas_ok ltac:(lia)) as (_ & ? & Hn & ?).
  rewrite Ea in E. simplify_eq. simpl in *.
  assert (gas_node example_gas o = 0 ∨ gas_node example_gas o = 1 ∨ gas_node example_gas o = 2)
    as [E|[E|E]] by lia; rewrite E in Hb; vm_compute in Hb; simplify_eq; lia.
Qed.

Lemma gas_bytes_refine_witness :
  ∃ w', gas_put_bytes example_gas 1 3000 (λ n x, n + x) 500 0 2500 = Some w' ∧
    gas_view example_gas w' 600 = 101.
Proof.
  destruct (gas_bytes_refine example_gas 1 3000 (λ n x, n + x) 500 0 2500 example_gas_ok)
    as [(w' & E & Hv & _) _]; [lia..| |].
  - intros o i Ho Hi Ha. apply example_gas_addr in Ha; lia.
  - exists w'. split; [exact E|]. rewrite Hv by lia. vm_compute. reflexivity.
Defined.

Definition example_batch : list batch_req := [mkReq 500 0 2500; mkReq 5000 4000 100].

Lemma gas_batch_equiv_witness :
  ∃ xs w1, gas_batch example_gas 3000 example_batch = Some xs ∧
    put_each example_gas 1 3000 (λ n x, n + x) example_batch = Some w1 ∧
    ∀ n a, foldl (run_put 1) (λ n x, n + x) (reverse xs) n a = w1 n a.
Proof.
  destruct (gas_batch_equiv example_gas 1 3000 (λ n x, n + x) example_batch example_gas_ok)
    as (xs & E & Hp & _).
  - repeat constructor; simpl; lia.
  - intros r r' o i Hr Hr' Ho Hi Ha. unfold example_batch in *.
    assert (0 ≤ o < 12288 ∧ rq_buf r' + i < 10000) as [? ?].
    { apply list_elem_of_In in Hr, Hr'. simpl in Hr, Hr'.
      destruct Hr as [<-|[<-|[]]], Hr' as [<-|[<-|[]]]; simpl in *; lia. }
    apply example_gas_addr in Ha; lia.
  - destruct Hp as (w1 & E1 & Hw).
    { intros r r' Hr Hr' (o & Ho & Ho'). apply list_elem_of_In in Hr, Hr'. simpl in Hr, Hr'.
      destruct Hr as [<-|[<-|[]]], Hr' as [<-|[<-|[]]]; simpl in *; lia || done. }
    exists xs, w1. split; [done|]. split; [done|]. apply (Hw (reverse xs)).
    exists xs. split; [done|]. split; [apply reverse_Permutation|done].
Defined.

Lemma gas_get_home_node_ok_witness :
  gas_get_home_node example_gas 2100 100 ≠ -1 ∧
  gas_node example_gas 2150 = gas_get_home_node example_gas 2100 100.
Proof.
  assert (gas_get_home_node example_gas 2100 100 ≠ -1) as Hne by (vm_compute; discriminate).
  split; [exact Hne|].
  apply (gas_get_home_node_ok example_gas 2100 100 example_gas_ok); lia.
Defined.

Lemma gas_in_segment_witness :
  ∃ i a base size, gas_addr (mkGasMem 2 1024 [10000; 20000] 4096) 3000 = Some (i, a) ∧
    aget [(10000, 4096); (20000, 2048)] i = Some (base, size) ∧ base ≤ a < base + 2048 ∧
    2048 ≤ size.
Proof.
  apply (gas_in_segment [(10000, 4096); (20000, 2048)] 1 2048); [reflexivity|lia|lia| | |].
  - by exists 2.
  - lia.
  - simpl. lia.
Defined.
