(* ===== verification/RemoteWrite.v ===== *)
(** * Remote writes

    The three [do_remote_write] functions of src/templates/mem_impl.cc: a
    contiguous, strided or span payload for a memory of another node becomes
    one message when the memory can be written directly or the payload fits an
    LMB, and several otherwise.  The messages are shown to carry the payload
    exactly once, whatever order they are applied in. *)

From S2P Require Import Prelude Spans SrcDataPool Bytes Payload.

(** ** Requests *)

Record RequestArgs := mkRwArgs {
  rw_mem : Z;
  rw_offset : Z;
  rw_sender : Z;
  rw_sequence_id : Z }.

(** [RemoteWriteMessage::Message::request]: arguments, payload, its size and
    the destination pointer (null for an LMB). *)
Record rw_request := mkRw {
  rw_args : RequestArgs;
  rw_src : PayloadSource;
  rw_size : Z;
  rw_dst : Z }.

Definition advance (a : RequestArgs) (n : Z) : RequestArgs :=
  mkRwArgs (rw_mem a) (i64 (rw_offset a + n)) (rw_sender a) (rw_sequence_id a).

Definition copy_mode (make_copy : bool) : PayloadMode :=
  if make_copy then PAYLOAD_COPY else PAYLOAD_KEEP.

Definition contig_request (a : RequestArgs) (pos n : Z) (mode : PayloadMode) (dst : Z) : rw_request :=
  mkRw a (ContiguousPayload pos n mode) n dst.
Definition twod_request (a : RequestArgs) (pos line_size stride lines : Z) (mode : PayloadMode)
    (dst : Z) : rw_request :=
  mkRw a (TwoDPayload pos line_size lines stride mode) (u64 (line_size * lines)) dst.
Definition span_request (a : RequestArgs) (spans : list (Z * Z)) (n : Z) (mode : PayloadMode)
    (dst : Z) : rw_request :=
  mkRw a (SpanPayload spans n mode) n dst.

(** [rdma] is the base of an RDMA-able memory. *)
Definition write_dstptr (rdma : option Z) (offset : Z) : Z :=
  match rdma with Some regbase => regbase + offset | None => 0 end.

(** ** Chopping *)

(** "while(datalen > max_xfer_size)", and the send of what is left: the
    requests, and the arguments after the loop. *)
Fixpoint chop (fuel : nat) (a : RequestArgs) (pos datalen max : Z) (mode : PayloadMode)
    : option (list rw_request * RequestArgs * Z) :=
  match fuel with
  | O => None
  | S fuel =>
      if decide (datalen > max) then
        '(l, a', n) ← chop fuel (advance a max) (pos + max) (datalen - max) max mode;
        Some (contig_request a pos max mode 0 :: l, a', n)
      else Some ([contig_request a pos datalen mode 0], a, datalen)
  end.

Definition do_remote_write_contig (fuel : nat) (lmb : Z) (rdma : option Z) (a : RequestArgs)
    (data datalen : Z) (make_copy : bool) : option (list rw_request * Z) :=
  let mode := copy_mode make_copy in
  let dstptr := write_dstptr rdma (rw_offset a) in
  assert! datalen > 0;
  if decide (dstptr = 0 ∧ datalen > lmb) then
    '(l, _, _) ← chop fuel a data datalen lmb mode;
    Some (l, u32 (i32 (zlen l)))
  else Some ([contig_request a data datalen mode dstptr], 1).

Fixpoint chop_lines (fuel : nat) (a : RequestArgs) (pos datalen stride lines max_lines : Z)
    (mode : PayloadMode) : option (list rw_request) :=
  match fuel with
  | O => None
  | S fuel =>
      if decide (lines > max_lines) then
        l ← chop_lines fuel (advance a (u64 (datalen * max_lines))) (pos + stride * max_lines)
              datalen stride (lines - max_lines) max_lines mode;
        Some (twod_request a pos datalen stride max_lines mode 0 :: l)
      else Some [twod_request a pos datalen stride lines mode 0]
  end.

Definition do_remote_write_2d (fuel : nat) (lmb : Z) (rdma : option Z) (a : RequestArgs)
    (data datalen stride lines : Z) (make_copy : bool) : option (list rw_request * Z) :=
  let mode := copy_mode make_copy in
  let dstptr := write_dstptr rdma (rw_offset a) in
  let one := Some ([twod_request a data datalen stride lines mode dstptr], 1) in
  if decide (dstptr = 0) then
    assert! datalen ≠ 0;
    let max_lines := lmb `div` datalen in
    assert! max_lines > 0;
    if decide (lines > max_lines) then
      l ← chop_lines fuel a data datalen stride lines max_lines mode;
      Some (l, u32 (i32 (zlen l)))
    else one
  else one.

(** "take spans in order until we run out of space or spans" *)
Fixpoint take_spans (max : Z) (spans : list (Z * Z)) (xfer_size : Z)
    : list (Z * Z) * Z * list (Z * Z) :=
  match spans with
  | [] => ([], xfer_size, [])
  | s :: rest =>
      if decide (u64 (xfer_size + s.2) > max) then ([], xfer_size, spans)
      else let '(sub, n, rest') := take_spans max rest (u64 (xfer_size + s.2)) in
           (s :: sub, n, rest')
  end.

Fixpoint chop_spans (fuel : nat) (a : RequestArgs) (spans : list (Z * Z)) (datalen max : Z)
    (mode : PayloadMode) : option (list rw_request) :=
  match fuel with
  | O => None
  | S fuel' =>
      if decide (0 < datalen) then
        match spans with
        | [] => None
        | s :: rest =>
            if decide (s.2 > max) then
              '(l, a', n) ← chop fuel a s.1 s.2 max mode;
              l' ← chop_spans fuel' (advance a' n) rest (u64 (datalen - s.2)) max mode;
              Some (l ++ l')
            else
              let '(sub, n, rest') := take_spans max spans 0 in
              assert! sub ≠ [];
              l' ← chop_spans fuel' (advance a n) rest' (u64 (datalen - n)) max mode;
              Some (span_request a sub n mode 0 :: l')
        end
      else Some []
  end.

Definition do_remote_write_spans (fuel : nat) (lmb : Z) (rdma : option Z) (a : RequestArgs)
    (spans : list (Z * Z)) (datalen : Z) (make_copy : bool) : option (list rw_request * Z) :=
  let mode := copy_mode make_copy in
  let dstptr := write_dstptr rdma (rw_offset a) in
  if decide (dstptr = 0 ∧ datalen > lmb) then
    l ← chop_spans fuel a spans datalen lmb mode;
    Some (l, u32 (i32 (zlen l)))
  else Some ([span_request a spans datalen mode dstptr], 1).

(** The overloaded function: which one a payload goes to. *)
Definition do_remote_write (fuel : nat) (lmb : Z) (rdma : option Z) (a : RequestArgs)
    (src : PayloadSource) (make_copy : bool) : option (list rw_request * Z) :=
  match src with
  | ContiguousPayload p n _ => do_remote_write_contig fuel lmb rdma a p n make_copy
  | TwoDPayload p n lines stride _ => do_remote_write_2d fuel lmb rdma a p n stride lines make_copy
  | SpanPayload spans n _ => do_remote_write_spans fuel lmb rdma a spans n make_copy
  end.

(** ** The pieces of a payload *)

Definition at_offset (base : RequestArgs) (o : Z) : RequestArgs :=
  mkRwArgs (rw_mem base) o (rw_sender base) (rw_sequence_id base).

Lemma at_offset_id a : at_offset a (rw_offset a) = a.
Proof. by destruct a. Qed.

(** Requests that carry consecutive parts of [bs], starting at [offset]. *)
Inductive pieces (m : mem) (base : RequestArgs) : Z → list rw_request → list Z → Prop :=
| pieces_nil offset : pieces m base offset [] []
| pieces_cons offset r l bs :
    rw_args r = at_offset base offset →
    rw_size r = zlen (payload_bytes m (rw_src r)) →
    pieces m base (offset + rw_size r) l bs →
    pieces m base offset (r :: l) (payload_bytes m (rw_src r) ++ bs).

Lemma pieces_app m base l k bs cs : ∀ offset,
  pieces m base offset l bs → pieces m base (offset + zlen bs) k cs →
  pieces m base offset (l ++ k) (bs ++ cs).
Proof.
  intros offset H. induction H as [o|o r l bs Ha Hs _ IH]; intros Hk.
  - unfold zlen in Hk. simpl in Hk. by rewrite Z.add_0_r in Hk.
  - rewrite <- (assoc_L (++)). simpl. constructor; [done..|]. apply IH.
    rewrite Hs. rewrite zlen_app in Hk. by rewrite Z.add_assoc in Hk.
Qed.

Lemma pieces_one m base o r :
  rw_args r = at_offset base o → rw_size r = zlen (payload_bytes m (rw_src r)) →
  pieces m base o [r] (payload_bytes m (rw_src r)).
Proof.
  intros Ha Hs. rewrite <- (app_nil_r (payload_bytes m (rw_src r))).
  apply pieces_cons; [done..|constructor].
Qed.

Lemma pieces_range m base offset l bs r : pieces m base offset l bs → r ∈ l →
  offset ≤ rw_offset (rw_args r) ∧ rw_offset (rw_args r) + rw_size r ≤ offset + zlen bs.
Proof.
  induction 1 as [o|o q l bs Ha Hs _ IH]; intros Hin; [by apply elem_of_nil in Hin|].
  rewrite zlen_app. assert (0 ≤ rw_size q) by (rewrite Hs; unfold zlen; lia).
  apply elem_of_cons in Hin as [->|Hin].
  - rewrite Ha. simpl. unfold zlen in *. lia.
  - destruct (IH Hin). lia.
Qed.

(** What the receiver does with one request. *)
Definition land (m : mem) (dest : Z) (t : mem) (r : rw_request) : mem :=
  write_bytes t (dest + rw_offset (rw_args r)) (payload_bytes m (rw_src r)).

(** A byte of the payload arrives with the piece that carries it. *)
Lemma pieces_at m base offset l bs i b : pieces m base offset l bs → aget bs i = Some b →
  ∃ r, r ∈ l ∧ aget (payload_bytes m (rw_src r)) (offset + i - rw_offset (rw_args r)) = Some b.
Proof.
  intros H. revert i. induction H as [o|o q l bs Ha Hs _ IH]; intros i Hi; [by rewrite aget_nil in Hi|].
  pose proof (aget_Some_range _ _ _ Hi) as Hr.
  destruct (decide (i < rw_size q)) as [Hlt|Hge].
  - exists q. split; [by left|]. rewrite aget_app_l in Hi by lia. rewrite Ha. simpl.
    by replace (o + i - o) with i by lia.
  - rewrite aget_app_r in Hi by lia. destruct (IH _ Hi) as (r & Hin & Hb).
    exists r. split; [by right|]. rewrite <- Hb. f_equal. lia.
Qed.

(** Two pieces never disagree on a byte. *)
Lemma pieces_agree m base offset l bs r i b : pieces m base offset l bs → r ∈ l →
  aget (payload_bytes m (rw_src r)) i = Some b → aget bs (rw_offset (rw_args r) + i - offset) = Some b.
Proof.
  induction 1 as [o|o q l bs Ha Hs Hp IH]; intros Hin Hi; [by apply elem_of_nil in Hin|].
  pose proof (aget_Some_range _ _ _ Hi) as Hr.
  apply elem_of_cons in Hin as [->|Hin].
  - rewrite Ha. simpl. replace (o + i - o) with i by lia. rewrite aget_app_l by lia. done.
  - destruct (pieces_range _ _ _ _ _ _ Hp Hin). assert (0 ≤ rw_size q) by (rewrite Hs; unfold zlen; lia).
    rewrite aget_app_r by lia. rewrite <- (IH Hin Hi). f_equal. lia.
Qed.

(** Applied in any order the pieces write the payload, and nothing else. *)
Lemma land_all m base offset l bs dest t k :
  pieces m base offset l bs → k ≡ₚ l →
  mem_eq (foldl (land m dest) t k) (write_bytes t (dest + offset) bs).
Proof.
  intros Hp Hk x.
  assert (∀ k, (∀ r, r ∈ k → r ∈ l) →
    (∃ b, aget bs (x - (dest + offset)) = Some b ∧ foldl (land m dest) t k x = b) ∨
    (foldl (land m dest) t k x = t x ∧
     ∀ r, r ∈ k → aget (payload_bytes m (rw_src r)) (x - (dest + rw_offset (rw_args r))) = None)) as Hf.
  { clear k Hk. induction k as [|r k IH] using rev_ind; intros Hin; [right; split; [done|set_solver]|].
    rewrite foldl_snoc. unfold land at 1 3.
    destruct (aget (payload_bytes m (rw_src r)) (x - (dest + rw_offset (rw_args r)))) as [b|] eqn:Eb.
    - left. exists b. split; [|by apply write_bytes_in].
      rewrite <- (pieces_agree _ _ _ _ _ r _ _ Hp (Hin r ltac:(set_solver)) Eb). f_equal. lia.
    - rewrite write_bytes_out.
      + destruct IH as [?|[? Hno]]; [set_solver|by left|]. right. split; [done|].
        intros q [?|?%list_elem_of_singleton]%elem_of_app; [by apply Hno|by subst].
      + intros Hr. destruct (aget_is_Some (payload_bytes m (rw_src r))
          (x - (dest + rw_offset (rw_args r)))) as [b Hb]; [lia|congruence]. }
  destruct (Hf k) as [(b & Hb & ->)|[-> Hno]]; [intros r; by rewrite Hk| |].
  - symmetry. by apply write_bytes_in.
  - symmetry. apply write_bytes_out. intros Hr.
    destruct (aget_is_Some bs (x - (dest + offset))) as [b Hb]; [lia|].
    destruct (pieces_at _ _ _ _ _ _ _ Hp Hb) as (r & Hin & Hb').
    rewrite <- Hk in Hin. specialize (Hno r Hin).
    replace (x - (dest + rw_offset (rw_args r))) with
      (offset + (x - (dest + offset)) - rw_offset (rw_args r)) in Hno by lia. congruence.
Qed.

(** ** The three loops *)

Lemma advance_at base o n : - 2 ^ 63 ≤ o + n < 2 ^ 63 →
  advance (at_offset base o) n = at_offset base (o + n).
Proof. intros. unfold advance, at_offset. simpl. by rewrite i64_id by done. Qed.

(** A request that goes through an LMB and fits it. *)
Definition lmb_request (max : Z) (r : rw_request) : Prop := rw_dst r = 0 ∧ rw_size r ≤ max.

Lemma contig_bytes m pos n mode : payload_bytes m (ContiguousPayload pos n mode) = read_bytes m pos n.
Proof. unfold payload_bytes, gather. simpl. apply app_nil_r. Qed.

Lemma chop_pieces m base max mode fuel : ∀ o pos datalen,
  0 < max → 0 < datalen → 0 ≤ o → o + datalen < 2 ^ 63 → (Z.to_nat datalen < fuel)%nat →
  ∃ l o' n, chop fuel (at_offset base o) pos datalen max mode = Some (l, at_offset base o', n) ∧
    0 ≤ n ∧ o' + n = o + datalen ∧ pieces m base o l (read_bytes m pos datalen) ∧
    Forall (lmb_request max) l ∧ l ≠ [].
Proof.
  induction fuel as [|fuel IH]; intros o pos datalen Hmax Hd Ho Hlt Hf; [lia|]. simpl.
  case_decide as Hgt.
  - rewrite advance_at by lia.
    destruct (IH (o + max) (pos + max) (datalen - max)) as (l & o' & n & -> & Hn & En & Hp & Hl & _); [lia..|].
    simpl. exists (contig_request (at_offset base o) pos max mode 0 :: l), o', n.
    split; [done|]. split_all; [done|lia| | |done].
    + replace datalen with (max + (datalen - max)) by lia. rewrite read_bytes_app by lia.
      rewrite <- (contig_bytes m pos max mode). apply pieces_cons; [done| |done].
      simpl. rewrite contig_bytes, read_bytes_zlen by lia. done.
    + constructor; [split; simpl; lia|done].
  - eexists _, o, datalen. split; [done|]. split_all; [lia|done| | |done].
    + rewrite <- (contig_bytes m pos datalen mode). apply (pieces_one m base o (contig_request _ _ _ _ _)); [done|].
      simpl. rewrite contig_bytes, read_bytes_zlen by lia. done.
    + repeat constructor. simpl. lia.
Qed.

Lemma twod_bytes_zlen m pos n lines stride mode : 0 ≤ n → 0 ≤ lines →
  zlen (payload_bytes m (TwoDPayload pos n lines stride mode)) = n * lines.
Proof.
  intros Hn Hl. unfold payload_bytes. rewrite gather_zlen.
  - unfold sizes. simpl. rewrite <- (Z2Nat.id lines) by done. generalize (Z.to_nat lines). clear Hl lines.
    intros k. induction k as [|k IH]; [by rewrite Z.mul_0_r|].
    rewrite seqZ_S, fmap_app, fmap_app, Zsum_app, IH. unfold Zsum. simpl. lia.
  - apply Forall_fmap, Forall_true. done.
Qed.

Lemma twod_bytes_split m pos n stride mode a b : 0 ≤ a → 0 ≤ b →
  payload_bytes m (TwoDPayload pos n (a + b) stride mode) =
  payload_bytes m (TwoDPayload pos n a stride mode) ++
  payload_bytes m (TwoDPayload (pos + stride * a) n b stride mode).
Proof.
  intros Ha Hb. unfold payload_bytes, src_ranges, gather.
  rewrite seqZ_app, fmap_app, bind_app by done. f_equal.
  replace (seqZ (0 + a) b) with (Z.add a <$> seqZ 0 b).
  - rewrite <- list_fmap_compose. f_equal. apply list_fmap_ext. intros i x _. simpl. f_equal. lia.
  - rewrite fmap_add_seqZ. f_equal. lia.
Qed.

Lemma chop_lines_pieces m base max datalen stride mode fuel : ∀ o pos lines,
  0 < max → 0 < datalen → 0 ≤ lines → 0 ≤ o → o + datalen * lines < 2 ^ 63 →
  (Z.to_nat lines < fuel)%nat →
  ∃ l, chop_lines fuel (at_offset base o) pos datalen stride lines max mode = Some l ∧
    pieces m base o l (payload_bytes m (TwoDPayload pos datalen lines stride mode)) ∧
    Forall (lmb_request (datalen * max)) l ∧ l ≠ [].
Proof.
  induction fuel as [|fuel IH]; intros o pos lines Hmax Hd Hl Ho Hlt Hf; [lia|]. simpl.
  case_decide as Hgt.
  - assert (0 < datalen * max ∧ datalen * max ≤ datalen * lines) as [? ?] by nia.
    rewrite (u64_id (datalen * max)) by (unfold is_u64; lia). rewrite advance_at by lia.
    destruct (IH (o + datalen * max) (pos + stride * max) (lines - max)) as (l & -> & Hp & Hll & _);
      [lia..|]. simpl. eexists. split; [done|]. split_all; [| |done].
    + replace lines with (max + (lines - max)) at 1 by lia. rewrite twod_bytes_split by lia.
      apply pieces_cons; [done| |]; simpl; rewrite u64_id by (unfold is_u64; lia); [|done].
      by rewrite twod_bytes_zlen by lia.
    + constructor; [|done]. split; simpl; [done|]. rewrite u64_id by (unfold is_u64; lia). lia.
  - eexists. split; [done|]. assert (0 ≤ datalen * lines ≤ datalen * max) by nia.
    split_all; [| |done].
    + apply (pieces_one m base o (twod_request _ _ _ _ _ _ _)); [done|].
      simpl. rewrite u64_id by (unfold is_u64; lia). by rewrite twod_bytes_zlen by lia.
    + repeat constructor. simpl. rewrite u64_id by (unfold is_u64; lia). lia.
Qed.

Lemma sizes_first (s : Z * Z) l : sizes (s :: l) = s.2 + sizes l.
Proof. done. Qed.

Lemma take_spans_spec max spans : ∀ n,
  0 ≤ n ≤ max → Forall (λ s : Z * Z, 0 ≤ s.2) spans → n + sizes spans < 2 ^ 64 →
  ∃ sub rest, take_spans max spans n = (sub, n + sizes sub, rest) ∧ spans = sub ++ rest ∧
    n + sizes sub ≤ max ∧
    match spans with s :: _ => n + s.2 ≤ max → sub ≠ [] | [] => True end.
Proof.
  induction spans as [|s spans IH]; intros n Hn Hall Hlt; simpl.
  { exists [], []. rewrite Z.add_0_r. split_all; [done|done|lia|done]. }
  apply Forall_cons in Hall as [Hs Hall]. rewrite sizes_first in Hlt.
  pose proof (chunk_sizes_nonneg spans Hall). rewrite u64_id by (unfold is_u64; lia).
  case_decide as Hgt.
  - exists [], (s :: spans). rewrite Z.add_0_r. split_all; [done|done|lia|lia].
  - destruct (IH (n + s.2)) as (sub & rest & -> & -> & Hle & _); [lia|done|lia|].
    exists (s :: sub), rest. rewrite sizes_first, Z.add_assoc. by split_all.
Qed.

Lemma chop_spans_pieces m base max mode fuel : ∀ o spans,
  0 < max → Forall (λ s : Z * Z, 0 ≤ s.2) spans → 0 ≤ o → o + sizes spans < 2 ^ 63 →
  (Z.to_nat (sizes spans) + length spans < fuel)%nat →
  ∃ l, chop_spans fuel (at_offset base o) spans (sizes spans) max mode = Some l ∧
    pieces m base o l (gather m spans) ∧ Forall (lmb_request max) l ∧ (0 < sizes spans → l ≠ []).
Proof.
  induction fuel as [|fuel IH]; intros o spans Hmax Hall Ho Hlt Hf; [lia|]. cbn [chop_spans].
  pose proof (chunk_sizes_nonneg spans Hall) as Hnn. case_decide as Hpos.
  - destruct spans as [|s spans]; [done|]. pose proof Hall as [Hs Hall']%Forall_cons.
    rewrite sizes_first in *. pose proof (chunk_sizes_nonneg spans Hall') as Hnn'. case_decide as Hbig.
    + destruct (chop_pieces m base max mode (S fuel) o s.1 s.2) as (l & o' & n & -> & Hn & En & Hp & Hl & Hne);
        [lia..|]. simpl. rewrite advance_at, u64_id by (unfold is_u64; lia). rewrite En.
      replace (s.2 + sizes spans - s.2) with (sizes spans) by lia.
      destruct (IH (o + s.2) spans) as (l' & -> & Hp' & Hl' & _); [done|done|lia|lia|simpl in Hf; lia|].
      simpl. exists (l ++ l'). split; [done|]. split_all.
      * unfold gather. simpl. eapply pieces_app; [done|]. by rewrite read_bytes_zlen by lia.
      * by apply Forall_app.
      * by destruct l.
    + destruct (take_spans_spec max (s :: spans) 0) as (sub & rest & E & Esp & Hle & Hne);
        [lia|done|rewrite sizes_first; lia|].
      rewrite E. rewrite Z.add_0_l in *. specialize (Hne ltac:(lia)). rewrite assert_true by done.
      rewrite <- sizes_first, Esp in *. rewrite sizes_app in *.
      apply Forall_app in Hall as [Hall1 Hall2]. pose proof (chunk_sizes_nonneg _ Hall1).
      pose proof (chunk_sizes_nonneg _ Hall2).
      rewrite advance_at, u64_id by (unfold is_u64; lia).
      replace (sizes sub + sizes rest - sizes sub) with (sizes rest) by lia.
      destruct (IH (o + sizes sub) rest) as (l' & -> & Hp' & Hl' & _); [done|done|lia|lia| |].
      { rewrite length_app in Hf. destruct sub; [done|]. simpl in Hf. lia. }
      simpl. eexists. split; [done|]. split_all; [| |done].
      * unfold gather. rewrite bind_app.
        apply (pieces_cons m base o (span_request (at_offset base o) sub (sizes sub) mode 0)); [done| |done].
        simpl. unfold payload_bytes. simpl. by rewrite gather_zlen.
      * constructor; [by split|done].
  - assert (sizes spans = 0) as E0 by lia. exists []. split; [done|]. split_all; [|done|lia].
    assert (gather m spans = []) as ->; [|constructor].
    apply nil_length_inv. pose proof (gather_zlen m spans Hall). unfold zlen in *. lia.
Qed.

(** ** Delivery *)

(** The payloads the callers pass: something to write, lines that fit an LMB,
    spans that add up. *)
Definition source_ok (lmb : Z) (src : PayloadSource) : Prop :=
  match src with
  | ContiguousPayload _ n _ => 0 < n
  | TwoDPayload _ n lines _ _ => 0 < n ≤ lmb ∧ 0 ≤ lines
  | SpanPayload spans n _ => Forall (λ s : Z * Z, 0 ≤ s.2) spans ∧ n = sizes spans
  end.

Definition source_total (src : PayloadSource) : Z :=
  match src with
  | ContiguousPayload _ n _ => n
  | TwoDPayload _ n lines _ _ => n * lines
  | SpanPayload _ n _ => n
  end.

Definition source_spans (src : PayloadSource) : nat :=
  match src with SpanPayload spans _ _ => length spans | _ => 0%nat end.

Lemma source_total_eq lmb m src : source_ok lmb src → zlen (payload_bytes m src) = source_total src.
Proof.
  destruct src as [p n mode|p n lines stride mode|spans n mode]; simpl; intros Hok.
  - rewrite contig_bytes. apply read_bytes_zlen. lia.
  - apply twod_bytes_zlen; lia.
  - destruct Hok as [Hall ->]. by apply gather_zlen.
Qed.

(** A request with the whole payload. *)
Definition whole_request (a : RequestArgs) (src : PayloadSource) (mode : PayloadMode) (dst : Z)
    : rw_request :=
  match src with
  | ContiguousPayload p n _ => contig_request a p n mode dst
  | TwoDPayload p n lines stride _ => twod_request a p n stride lines mode dst
  | SpanPayload spans n _ => span_request a spans n mode dst
  end.

Lemma whole_pieces lmb m a src mode dst : source_ok lmb src → source_total src < 2 ^ 63 →
  pieces m a (rw_offset a) [whole_request a src mode dst] (payload_bytes m src) ∧
  rw_size (whole_request a src mode dst) = source_total src.
Proof.
  intros Hok Hlt. pose proof (source_total_eq lmb m src Hok) as Ht.
  assert (payload_bytes m (rw_src (whole_request a src mode dst)) = payload_bytes m src) as E
    by (by destruct src).
  assert (rw_size (whole_request a src mode dst) = source_total src) as Es.
  { destruct src; simpl in *; try done. apply u64_id. unfold is_u64. nia. }
  split; [|done]. rewrite <- E. apply pieces_one; [rewrite at_offset_id; by destruct src|].
  by rewrite E, Ht.
Qed.

Definition remote_pieces (m : mem) (lmb : Z) (rdma : option Z) (a : RequestArgs)
    (src : PayloadSource) (l : list rw_request) : Prop :=
  l ≠ [] ∧ pieces m a (rw_offset a) l (payload_bytes m src) ∧
  (Forall (lmb_request lmb) l ∨
   ∃ r, l = [r] ∧ rw_dst r = write_dstptr rdma (rw_offset a) ∧ rw_dst r ≠ 0).

Lemma whole_write m lmb rdma a src mode :
  source_ok lmb src → source_total src < 2 ^ 63 →
  ¬ (write_dstptr rdma (rw_offset a) = 0 ∧ lmb < source_total src) →
  remote_pieces m lmb rdma a src [whole_request a src mode (write_dstptr rdma (rw_offset a))].
Proof.
  intros Hok Hlt Hn. set (d := write_dstptr rdma (rw_offset a)) in *.
  destruct (whole_pieces lmb m a src mode d Hok Hlt) as [Hp Es].
  split; [done|]. split; [done|].
  assert (rw_dst (whole_request a src mode d) = d) as Ed by (by destruct src).
  destruct (decide (d = 0)).
  - left. constructor; [|done]. split; [congruence|]. rewrite Es. lia.
  - right. eexists. split; [done|]. by rewrite Ed.
Qed.

Lemma do_remote_write_pieces m fuel lmb rdma a src make_copy :
  source_ok lmb src → 0 < lmb < 2 ^ 62 → 0 ≤ rw_offset a →
  rw_offset a + source_total src < 2 ^ 63 →
  (Z.to_nat (source_total src) + source_spans src < fuel)%nat →
  ∃ l, do_remote_write fuel lmb rdma a src make_copy = Some (l, u32 (i32 (zlen l))) ∧
    remote_pieces m lmb rdma a src l.
Proof.
  intros Hok Hlmb Ho Hlt Hf. set (mode := copy_mode make_copy).
  assert (0 ≤ source_total src) as H0.
  { rewrite <- (source_total_eq lmb m) by done. apply zlen_nonneg. }
  assert (write_dstptr rdma (rw_offset a) = 0 ∧ lmb < source_total src ∨
    ∃ l, Some ([whole_request a src mode (write_dstptr rdma (rw_offset a))], 1) =
           Some (l, u32 (i32 (zlen l))) ∧ remote_pieces m lmb rdma a src l) as Hone.
  { destruct (decide (write_dstptr rdma (rw_offset a) = 0 ∧ lmb < source_total src)) as [?|Hn];
      [by left|right].
    exists [whole_request a src mode (write_dstptr rdma (rw_offset a))].
    split; [reflexivity|]. apply whole_write; [done|lia|done]. }
  destruct src as [p n md|p n lines stride md|spans n md]; cbn [do_remote_write source_ok source_total source_spans] in *.
  - unfold do_remote_write_contig. rewrite assert_true by lia. case_decide as Hc; [|destruct Hone; [lia|done]].
    destruct (chop_pieces m a lmb mode fuel (rw_offset a) p n) as (l & o' & k & E & _ & _ & Hp & Hl & Hne);
      [lia..|]. rewrite at_offset_id in E. fold mode. rewrite E. simpl. exists l. split; [done|].
    split; [done|]. rewrite contig_bytes. split; [done|by left].
  - unfold do_remote_write_2d. destruct Hok as [Hn Hl]. fold mode.
    case_decide as Hc; [|destruct Hone; [lia|done]]. rewrite !assert_true.
    + case_decide as Hbig.
      * assert (0 < lmb `div` n) by (apply Z.div_str_pos; lia).
        destruct (chop_lines_pieces m a (lmb `div` n) n stride mode fuel (rw_offset a) p lines)
          as (l & E & Hp & Hll & Hne); [lia|lia|lia|lia|lia|nia|].
        rewrite at_offset_id in E. rewrite E. simpl. exists l. split; [done|]. split; [done|]. split; [done|].
        left. eapply Forall_impl; [exact Hll|]. intros r [? ?]. split; [done|].
        pose proof (Z.mul_div_le lmb n ltac:(lia)). lia.
      * destruct Hone as [[_ Hbad]|?]; [|done]. exfalso. pose proof (Z.mul_div_le lmb n ltac:(lia)). nia.
    + apply Z.lt_gt, Z.div_str_pos. lia.
    + lia.
  - unfold do_remote_write_spans. destruct Hok as [Hall ->]. fold mode.
    case_decide as Hc; [|destruct Hone; [lia|done]].
    destruct (chop_spans_pieces m a lmb mode fuel (rw_offset a) spans) as (l & E & Hp & Hl & Hne);
      [lia|done|lia..|]. rewrite at_offset_id in E. rewrite E. simpl. exists l. split; [done|].
    split; [apply Hne; lia|]. split; [done|by left].
Qed.

(** C8. A remote write delivers its payload.  For contiguous, strided and span
    payloads the write succeeds and returns the number of messages it sent;
    each goes to a known destination or fits an LMB, carries its size, and
    applied at its offset in whatever order they arrive, together they write
    the bytes of the payload at the offset of the write and nothing else. *)
Theorem remote_write_delivers m fuel lmb rdma a src make_copy :
  source_ok lmb src → 0 < lmb < 2 ^ 62 → 0 ≤ rw_offset a →
  rw_offset a + source_total src < 2 ^ 63 →
  (Z.to_nat (source_total src) + source_spans src < fuel)%nat →
  ∃ l, do_remote_write fuel lmb rdma a src make_copy = Some (l, u32 (i32 (zlen l))) ∧ l ≠ [] ∧
    Forall (λ r, rw_args r = at_offset a (rw_offset (rw_args r)) ∧
      rw_size r = zlen (payload_bytes m (rw_src r)) ∧
      (rw_size r ≤ lmb ∨ rw_dst r = write_dstptr rdma (rw_offset (rw_args r)) ∧ rw_dst r ≠ 0)) l ∧
    ∀ dest t k, k ≡ₚ l →
      mem_eq (foldl (land m dest) t k) (write_bytes t (dest + rw_offset a) (payload_bytes m src)).
Proof.
  intros Hok Hlmb Ho Hlt Hf.
  destruct (do_remote_write_pieces m fuel lmb rdma a src make_copy Hok Hlmb Ho Hlt Hf)
    as (l & E & Hne & Hp & Hd). exists l. split_all; [done|done| |].
  - assert (Forall (λ r, rw_args r = at_offset a (rw_offset (rw_args r)) ∧
      rw_size r = zlen (payload_bytes m (rw_src r))) l) as Hargs.
    { clear -Hp. induction Hp as [|o r l bs Ha Hs _ IH]; constructor; [|done].
      rewrite Ha. by split. }
    apply Forall_forall. intros r Hr. rewrite Forall_forall in Hargs. destruct (Hargs r Hr) as [Ha Hs].
    split; [done|]. split; [done|]. destruct Hd as [Hl|(r' & -> & Hd & Hnz)].
    + left. rewrite Forall_forall in Hl. by apply Hl.
    + right. apply list_elem_of_singleton in Hr as ->. split; [|done].
      inversion Hp as [|? ? ? ? Ha']; subst. by rewrite Ha', Hd.
  - intros dest t k Hk. by eapply land_all.
Qed.

Definition example_strided : PayloadSource := TwoDPayload 1000 300 10 512 PAYLOAD_KEEP.

Lemma remote_write_delivers_witness :
  ∃ l, do_remote_write 4000 1024 None (mkRwArgs 7 64 0 3) example_strided true =
      Some (l, u32 (i32 (zlen l))) ∧
    ∀ t, foldl (land (λ x, x) 50000) t (reverse l) (50000 + 64 + 300) = 1512.
Proof.
  destruct (remote_write_delivers (λ x, x) 4000 1024 None (mkRwArgs 7 64 0 3) example_strided true)
    as (l & E & _ & _ & Hl); simpl; try lia.
  exists l. split; [exact E|]. intros t. rewrite (Hl 50000 t (reverse l)) by apply reverse_Permutation.
  simpl. apply write_bytes_in. reflexivity.
Defined.
