(* ===== verification/Fence.v ===== *)
(** * Fences of remote writes

    The receiving side of src/templates/mem_impl.cc: [RemoteWriteMessage] puts
    the bytes into the local memory and counts the write,
    [RemoteWriteFenceMessage] says how many writes to expect, and the last of
    them to arrive, whichever it is, answers the sender.  The counting is
    shown to answer exactly once, and end to end the answer to mean that the
    payload is in the memory. *)

From S2P Require Import Prelude Spans SrcDataPool Bytes Payload RemoteWrite.

(** ** The table of partial writes *)

(** A key is the sender and its sequence number. *)
Abbreviation PartialWriteKey := (Z * Z)%type.

Definition key_lt (a b : PartialWriteKey) : bool :=
  if decide (a.1 < b.1) then true
  else if decide (a.1 > b.1) then false
  else bool_decide (a.2 < b.2).

Record PartialWriteEntry := mkPwe { pw_fence : Z; remaining_count : Z }.

Abbreviation PartialWriteMap := (gmap (Z * Z) PartialWriteEntry).

(** What follows every handler that writes: the new table, and the
    acknowledgement to send. *)
Definition track_write (t : PartialWriteMap) (sender sequence_id : Z)
    : PartialWriteMap * option (Z * Z) :=
  if decide (sequence_id > 0) then
    let key := (sender, sequence_id) in
    match t !! key with
    | None => (<[key := mkPwe 0 (-1)]> t, None)
    | Some e =>
        let c := i32 (remaining_count e - 1) in
        if decide (c = 0) then (delete key t, Some (sender, pw_fence e))
        else (<[key := mkPwe (pw_fence e) c]> t, None)
    end
  else (t, None).

Definition handle_fence (t : PartialWriteMap) (sender sequence_id num_writes fence : Z)
    : option (PartialWriteMap * option (Z * Z)) :=
  assert! sequence_id ≠ 0;
  if decide (sequence_id > 0) then
    let key := (sender, sequence_id) in
    match t !! key with
    | None => Some (<[key := mkPwe fence (i32 num_writes)]> t, None)
    | Some e =>
        assert! pw_fence e = 0;
        let c := i32 (remaining_count e + num_writes) in
        assert! 0 ≤ c;
        if decide (c = 0) then Some (delete key t, Some (sender, fence))
        else Some (<[key := mkPwe fence c]> t, None)
    end
  else Some (t, None).

(** [do_remote_fence]: sequence number, number of writes and fence pointer of
    the message. *)
Definition do_remote_fence (sequence_id num_writes fence : Z) : option (Z * Z * Z) :=
  assert! num_writes > 0; Some (sequence_id, num_writes, fence).

(** ** Local memory *)

Record LocalCPUMemory := mkLocal {
  lm_base : Z;
  lm_prealloced : bool;
  lm_registered : bool }.

Definition ALIGNMENT : Z := 256.

(** [base_orig] is what [new char[]] returns when memory is needed. *)
Definition LocalCPUMemory_init (prealloc_base : Z) (registered : bool) (base_orig : Z)
    : option LocalCPUMemory :=
  if decide (prealloc_base ≠ 0) then Some (mkLocal prealloc_base true registered)
  else
    let ofs := base_orig `mod` ALIGNMENT in
    assert! registered = false;
    Some (mkLocal (if decide (ofs > 0) then base_orig + (ALIGNMENT - ofs) else base_orig) false false).

Definition local_get_bytes (lm : LocalCPUMemory) (m : mem) (offset dst size : Z) : mem :=
  memcpy m dst (lm_base lm + offset) size.
Definition local_put_bytes (lm : LocalCPUMemory) (m : mem) (offset src size : Z) : mem :=
  memcpy m (lm_base lm + offset) src size.
Definition local_get_direct_ptr (lm : LocalCPUMemory) (offset : Z) : Z := lm_base lm + offset.
Definition local_reg_base (lm : LocalCPUMemory) : Z := if lm_registered lm then lm_base lm else 0.

(** [RemoteWriteMessage::handle_request] for such a memory; [data] is where
    the payload is. *)
Definition handle_remote_write (lm : LocalCPUMemory) (m : mem) (t : PartialWriteMap)
    (args : RequestArgs) (data datalen : Z) : mem * PartialWriteMap * option (Z * Z) :=
  let was_written_directly :=
    lm_registered lm && bool_decide (data = lm_base lm + rw_offset args) in
  let m := if was_written_directly then m else local_put_bytes lm m (rw_offset args) data datalen in
  let '(t, ack) := track_write t (rw_sender args) (rw_sequence_id args) in
  (m, t, ack).

(** ** The order of keys *)

(** [operator<] is a strict total order, so the table is a finite map. *)
Lemma key_lt_order :
  (∀ a, key_lt a a = false) ∧
  (∀ a b c, key_lt a b = true → key_lt b c = true → key_lt a c = true) ∧
  (∀ a b, key_lt a b = false → key_lt b a = false → a = b).
Proof.
  unfold key_lt. split_all.
  - intros [a s]. simpl. repeat case_decide; try lia. apply bool_decide_false. lia.
  - intros [a s] [b t] [c u]. simpl.
    repeat case_decide; rewrite ?bool_decide_eq_true; intros; try done; lia.
  - intros [a s] [b t]. simpl.
    repeat case_decide; rewrite ?bool_decide_eq_false; intros; try done; f_equal; lia.
Qed.

(** ** Traffic *)

(** The messages that arrive at the table, with the key of their sender. *)
Inductive fence_event :=
| EvWrite (key : PartialWriteKey)
| EvFence (key : PartialWriteKey) (num_writes fence : Z).

Definition ev_key (e : fence_event) : PartialWriteKey :=
  match e with EvWrite k => k | EvFence k _ _ => k end.

Definition fence_step (t : PartialWriteMap) (e : fence_event)
    : option (PartialWriteMap * option (Z * Z)) :=
  match e with
  | EvWrite (s, q) => Some (track_write t s q)
  | EvFence (s, q) n f => handle_fence t s q n f
  end.

(** The acknowledgements sent, with the key they are for. *)
Fixpoint fence_run (t : PartialWriteMap) (l : list fence_event)
    : option (PartialWriteMap * list (PartialWriteKey * Z * Z)) :=
  match l with
  | [] => Some (t, [])
  | e :: l =>
      '(t, ack) ← fence_step t e;
      '(t, acks) ← fence_run t l;
      Some (t, match ack with Some (s, f) => (ev_key e, s, f) :: acks | None => acks end)
  end.

#[global] Instance fence_event_dec : EqDecision fence_event.
Proof. solve_decision. Defined.

Definition writes_of (k : PartialWriteKey) (l : list fence_event) : Z :=
  zlen (filter (λ e, e = EvWrite k) l).

Definition fences_of (k : PartialWriteKey) (l : list fence_event) : list (Z * Z) :=
  l ≫= λ e, match e with
            | EvFence k' n f => if decide (k' = k) then [(n, f)] else []
            | EvWrite _ => []
            end.

(** Every sender announces, once, the number of writes it sent under a key. *)
Definition announced (l : list fence_event) : Prop := ∀ k,
  match fences_of k l with
  | [] => writes_of k l = 0
  | [(n, _)] => 0 < k.2 ∧ n = writes_of k l ∧ 0 < n < 2 ^ 31
  | _ => False
  end.

(** The entry of a key after [c] writes, with or without its fence. *)
Definition entry_after (c : Z) (fences : list (Z * Z)) : option PartialWriteEntry :=
  match fences with
  | [] => if decide (c = 0) then None else Some (mkPwe 0 (- c))
  | (n, f) :: _ => if decide (c = n) then None else Some (mkPwe f (n - c))
  end.

Definition acks_after (k : PartialWriteKey) (c : Z) (fences : list (Z * Z))
    : list (PartialWriteKey * Z * Z) :=
  match fences with
  | [(n, f)] => if decide (c = n) then [(k, k.1, f)] else []
  | _ => []
  end.

Lemma writes_of_app k l r : writes_of k (l ++ r) = writes_of k l + writes_of k r.
Proof. unfold writes_of. by rewrite filter_app, zlen_app. Qed.

Lemma fences_of_app k l r : fences_of k (l ++ r) = fences_of k l ++ fences_of k r.
Proof. apply bind_app. Qed.

Lemma fence_run_app l r : ∀ t, fence_run t (l ++ r) =
  '(t1, a1) ← fence_run t l; '(t2, a2) ← fence_run t1 r; Some (t2, a1 ++ a2).
Proof.
  induction l as [|e l IH]; intros t; simpl.
  { by destruct (fence_run t r) as [[]|]. }
  destruct (fence_step t e) as [[t0 ack]|]; [|done]. simpl. rewrite IH.
  destruct (fence_run t0 l) as [[t1 a1]|]; [|done]. simpl.
  destruct (fence_run t1 r) as [[t2 a2]|]; [|done]. simpl. by destruct ack as [[]|].
Qed.

(** What is known of a prefix of announced traffic. *)
Definition prefix_ok (k : PartialWriteKey) (c : Z) (fences : list (Z * Z)) : Prop :=
  0 ≤ c < 2 ^ 31 ∧
  match fences with
  | [] => True
  | [(n, _)] => c ≤ n ∧ 0 < n < 2 ^ 31
  | _ => False
  end.

Lemma writes_of_one k e : writes_of k [e] = if decide (e = EvWrite k) then 1 else 0.
Proof.
  unfold writes_of. destruct (decide (e = EvWrite k)).
  - by rewrite filter_cons_True.
  - by rewrite filter_cons_False.
Qed.

Lemma writes_of_nonneg k l : 0 ≤ writes_of k l.
Proof. apply zlen_nonneg. Qed.

(** One message changes the entry of its key only, and is answered when it
    completes the count. *)
Definition step_post (t : PartialWriteMap) (k : PartialWriteKey) (c c' : Z) (fs fs' : list (Z * Z))
    (t' : PartialWriteMap) (ack : option (Z * Z)) : Prop :=
  t' !! k = entry_after c' fs' ∧ (∀ k', k' ≠ k → t' !! k' = t !! k') ∧
  acks_after k c' fs' = acks_after k c fs ++
    match ack with Some (s, f) => [(k, s, f)] | None => [] end.

Lemma track_write_ok t k c fs :
  0 < k.2 → t !! k = entry_after c fs → prefix_ok k c fs → prefix_ok k (c + 1) fs →
  step_post t k c (c + 1) fs fs (track_write t k.1 k.2).1 (track_write t k.1 k.2).2.
Proof.
  destruct k as [s q]. simpl. intros Hq Ht [Hc Hf] [Hc' Hf']. unfold track_write.
  rewrite decide_True by lia. cbv zeta. rewrite Ht.
  assert (∀ e, step_post t (s, q) c (c + 1) fs fs (<[(s, q):=e]> t) None ↔
    Some e = entry_after (c + 1) fs ∧
    acks_after (s, q) (c + 1) fs = acks_after (s, q) c fs ++ []) as Hins.
  { intros e. unfold step_post. rewrite lookup_insert_eq. split; [tauto|]. intros [? ?].
    split_all; [done| |done]. intros k' Hk. by rewrite lookup_insert_ne. }
  destruct fs as [|[n f] [|? ?]]; try done; cbn [entry_after].
  - destruct (decide (c = 0)) as [->|Hd].
    + by apply Hins.
    + simpl. rewrite i32_id by (unfold is_i32; lia). rewrite decide_False by lia. apply Hins.
      simpl. rewrite decide_False by lia. split; [do 2 f_equal; lia|done].
  - simpl in Hf'. rewrite (decide_False (P := c = n)) by lia. simpl.
    rewrite i32_id by (unfold is_i32; lia). destruct (decide (n - c - 1 = 0)) as [Hl|Hl].
    + unfold step_post. simpl. rewrite lookup_delete_eq, !decide_True, decide_False by lia.
      split_all; [done| |done]. intros k' Hk. by rewrite lookup_delete_ne.
    + apply Hins. simpl. rewrite !decide_False by lia. split; [do 2 f_equal; lia|done].
Qed.

Lemma handle_fence_ok t k c n f :
  0 < k.2 → t !! k = entry_after c [] → prefix_ok k c [(n, f)] →
  ∃ t' ack, handle_fence t k.1 k.2 n f = Some (t', ack) ∧ step_post t k c c [] [(n, f)] t' ack.
Proof.
  destruct k as [s q]. simpl. intros Hq Ht [Hc Hn]. unfold handle_fence.
  rewrite assert_true by lia. rewrite decide_True by lia. cbv zeta. rewrite Ht.
  assert (∀ e, step_post t (s, q) c c [] [(n, f)] (<[(s, q):=e]> t) None ↔
    Some e = entry_after c [(n, f)] ∧ acks_after (s, q) c [(n, f)] = []) as Hins.
  { intros e. unfold step_post. rewrite lookup_insert_eq. split; [tauto|]. intros [? ?].
    split_all; [done| |done]. intros k' Hk. by rewrite lookup_insert_ne. }
  simpl in Hn. cbn [entry_after]. destruct (decide (c = 0)) as [->|Hd].
  - do 2 eexists. split; [done|]. apply Hins. rewrite i32_id by (unfold is_i32; lia). simpl.
    rewrite !decide_False by lia. by rewrite Z.sub_0_r.
  - cbn [pw_fence remaining_count]. rewrite assert_true by done.
    rewrite i32_id by (unfold is_i32; lia). rewrite assert_true by lia.
    destruct (decide (- c + n = 0)) as [Hl|Hl].
    + do 2 eexists. split; [done|]. unfold step_post. simpl.
      rewrite lookup_delete_eq, !decide_True by lia.
      split_all; [done| |done]. intros k' Hk. by rewrite lookup_delete_ne.
    + do 2 eexists. split; [done|]. apply Hins. simpl. rewrite !decide_False by lia.
      split; [do 2 f_equal; lia|done].
Qed.

Lemma fence_step_ok t e c fs : let k := ev_key e in
  0 < k.2 → t !! k = entry_after c fs → prefix_ok k c fs →
  prefix_ok k (c + writes_of k [e]) (fs ++ fences_of k [e]) →
  ∃ t' ack, fence_step t e = Some (t', ack) ∧
    step_post t k c (c + writes_of k [e]) fs (fs ++ fences_of k [e]) t' ack.
Proof.
  intros k Hq Ht Hp Hp'. subst k. destruct e as [k|k n f]; simpl in *.
  - rewrite writes_of_one, decide_True, app_nil_r in * by done.
    exists (track_write t k.1 k.2).1, (track_write t k.1 k.2).2.
    split; [destruct k; simpl; by destruct (track_write _ _ _)|]. by apply track_write_ok.
  - rewrite writes_of_one, decide_False, decide_True, Z.add_0_r in * by done. simpl in *.
    assert (fs = []) as ->.
    { destruct Hp' as [_ Hp']. destruct fs as [|[] [|]]; simpl in Hp'; done. }
    destruct (handle_fence_ok t k c n f Hq Ht Hp') as (t' & ack & E & Hpost).
    exists t', ack. split; [by destruct k|done].
Qed.

Lemma announced_prefix k l1 l2 : announced (l1 ++ l2) →
  prefix_ok k (writes_of k l1) (fences_of k l1) ∧
  (k.2 ≤ 0 → writes_of k l1 = 0 ∧ fences_of k l1 = []).
Proof.
  intros H. specialize (H k). rewrite writes_of_app, fences_of_app in H.
  pose proof (writes_of_nonneg k l1). pose proof (writes_of_nonneg k l2). unfold prefix_ok.
  destruct (fences_of k l1) as [|[n f] [|? ?]]; simpl in *; try done.
  - destruct (fences_of k l2) as [|[n f] [|? ?]]; try done; repeat split; intros; try done; lia.
  - destruct (fences_of k l2); [|done]. repeat split; intros; try done; lia.
Qed.

Lemma other_key k e : k ≠ ev_key e → writes_of k [e] = 0 ∧ fences_of k [e] = [].
Proof.
  intros Hne. rewrite writes_of_one. destruct e; simpl in *.
  - by rewrite decide_False by congruence.
  - by rewrite !decide_False by congruence.
Qed.

Lemma fence_run_one t e t' ack : fence_step t e = Some (t', ack) →
  fence_run t [e] = Some (t', match ack with Some (s, f) => [(ev_key e, s, f)] | None => [] end).
Proof. simpl. intros ->. simpl. by destruct ack as [[]|]. Qed.

(** After any prefix the table holds, for every key, the writes counted so far
    against the announced number. *)
Lemma fence_run_prefix l1 : ∀ l2, announced (l1 ++ l2) →
  ∃ t acks, fence_run ∅ l1 = Some (t, acks) ∧ ∀ k,
    t !! k = entry_after (writes_of k l1) (fences_of k l1) ∧
    filter (λ a, a.1.1 = k) acks = acks_after k (writes_of k l1) (fences_of k l1).
Proof.
  induction l1 as [|e l1 IH] using rev_ind; intros l2 H; [by exists ∅, []|].
  destruct (announced_prefix (ev_key e) (l1 ++ [e]) l2 H) as [Hpre Hpos].
  rewrite <- (assoc_L (++)) in H. destruct (IH _ H) as (t & acks & E & Hk).
  destruct (announced_prefix (ev_key e) l1 ([e] ++ l2) H) as [Hpre0 _].
  rewrite writes_of_app, fences_of_app in Hpre, Hpos.
  assert (0 < (ev_key e).2) as Hq.
  { destruct (Z.le_gt_cases (ev_key e).2 0) as [Hle|]; [|done]. exfalso.
    destruct (Hpos Hle) as [Hw Hf]. apply app_eq_nil in Hf as [_ Hf].
    pose proof (writes_of_nonneg (ev_key e) l1). rewrite writes_of_one in Hw.
    destruct e; simpl in *; [rewrite decide_True in Hw by done; lia|].
    by rewrite decide_True in Hf by done. }
  destruct (Hk (ev_key e)) as [Ht Ha].
  destruct (fence_step_ok t e _ _ Hq Ht Hpre0 Hpre) as (t' & ack & Es & Ht' & Hoth & Hack).
  rewrite fence_run_app, E. simpl. rewrite Es. simpl. do 2 eexists. split; [reflexivity|].
  intros k. rewrite writes_of_app, fences_of_app, filter_app.
  destruct (decide (k = ev_key e)) as [->|Hne].
  - split; [done|]. rewrite Hack, Ha. f_equal. destruct ack as [[s f]|]; [|done].
    by rewrite filter_cons_True.
  - destruct (other_key k e Hne) as [-> ->]. rewrite Z.add_0_r, app_nil_r, Hoth by done.
    destruct (Hk k) as [-> <-]. split; [done|]. destruct ack as [[s f]|]; [|by rewrite app_nil_r].
    rewrite filter_cons_False by (simpl; congruence). by rewrite app_nil_r.
Qed.

Lemma none_of_key k l : filter (λ e, ev_key e = k) l = [] ↔ writes_of k l = 0 ∧ fences_of k l = [].
Proof.
  induction l as [|e l IH]; [done|].
  change (e :: l) with ([e] ++ l). rewrite filter_app, writes_of_app, fences_of_app.
  pose proof (writes_of_nonneg k l). pose proof (writes_of_nonneg k [e]).
  destruct (decide (ev_key e = k)) as [He|He].
  - rewrite filter_cons_True by done. split; [done|]. intros [Hw [Hf _]%app_eq_nil]. exfalso.
    rewrite writes_of_one in *. destruct e; simpl in *; subst.
    + rewrite decide_True in Hw by done. lia.
    + by rewrite decide_True in Hf by done.
  - rewrite filter_cons_False by done. destruct (other_key k e) as [-> ->]; [congruence|]. done.
Qed.

(** So a key is acknowledged when nothing of it is left in the traffic. *)
Lemma acks_complete k l1 l2 n f : announced (l1 ++ l2) → fences_of k (l1 ++ l2) = [(n, f)] →
  acks_after k (writes_of k l1) (fences_of k l1) =
    if decide (filter (λ e, ev_key e = k) l2 = []) then [(k, k.1, f)] else [].
Proof.
  intros H Hf. specialize (H k). pose proof (none_of_key k l2) as Hnone.
  rewrite writes_of_app, Hf in H. rewrite fences_of_app in Hf.
  pose proof (writes_of_nonneg k l2). destruct H as (_ & Hn & _).
  destruct (fences_of k l1) as [|[n' f'] fs]; simpl in Hf.
  - rewrite decide_False; [done|]. rewrite Hnone, Hf. by intros [_ ?].
  - injection Hf as -> -> [-> Hf]%app_eq_nil. simpl.
    case_decide as Hd; case_decide as Hd'; try done; rewrite Hnone in Hd'; [|lia].
    destruct Hd'. split; [lia|done].
Qed.

(** C7. A fence is acknowledged exactly once, and only when everything it
    covers has arrived.  When each sender announces the writes it sent, in any
    order of arrival and any interleaving of senders, no assertion fails, and
    after each prefix of the traffic the acknowledgement of a key has been
    sent, to its sender and with its fence, exactly when none of the key's
    messages is outstanding; at the end the table is empty. *)
Theorem fence_acked_once l1 l2 :
  announced (l1 ++ l2) →
  ∃ t acks, fence_run ∅ l1 = Some (t, acks) ∧
    (∀ k n f, fences_of k (l1 ++ l2) = [(n, f)] →
       filter (λ a, a.1.1 = k) acks =
         if decide (filter (λ e, ev_key e = k) l2 = []) then [(k, k.1, f)] else []) ∧
    (∀ k, fences_of k (l1 ++ l2) = [] → filter (λ a, a.1.1 = k) acks = []) ∧
    (l2 = [] → t = ∅).
Proof.
  intros H. destruct (fence_run_prefix l1 l2 H) as (t & acks & E & Hk).
  exists t, acks. split; [done|]. split_all.
  - intros k n f Hf. destruct (Hk k) as [_ ->]. by eapply acks_complete.
  - intros k Hf. destruct (Hk k) as [_ ->]. rewrite fences_of_app in Hf.
    by apply app_eq_nil in Hf as [-> _].
  - intros ->. rewrite app_nil_r in H. apply map_eq. intros k. destruct (Hk k) as [-> _].
    rewrite lookup_empty. specialize (H k). destruct (fences_of k l1) as [|[n f] [|]]; simpl; try done.
    + by rewrite decide_True.
    + by rewrite decide_True by lia.
Qed.

Definition example_traffic : list fence_event :=
  [EvWrite (1, 5); EvFence (2, 1) 1 900; EvWrite (1, 5); EvFence (1, 5) 3 800; EvWrite (2, 1)].

Lemma example_announced : announced (example_traffic ++ [EvWrite (1, 5)]).
Proof.
  intros k. destruct (decide (k = (1, 5))) as [->|H1]; [by vm_compute|].
  destruct (decide (k = (2, 1))) as [->|H2]; [by vm_compute|].
  unfold example_traffic, fences_of, writes_of. simpl.
  rewrite !decide_False by congruence. simpl.
  rewrite !filter_cons_False by congruence. done.
Qed.

Lemma fence_acked_once_witness :
  ∃ t acks, fence_run ∅ example_traffic = Some (t, acks) ∧
    filter (λ a, a.1.1 = (1, 5)) acks = [] ∧ filter (λ a, a.1.1 = (2, 1)) acks = [((2, 1), 2, 900)].
Proof.
  destruct (fence_acked_once example_traffic [EvWrite (1, 5)] example_announced)
    as (t & acks & E & Hack & _). exists t, acks. split; [exact E|]. split.
  - exact (Hack (1, 5) 3 800 eq_refl).
  - exact (Hack (2, 1) 1 900 eq_refl).
Defined.

(** ** End to end *)

(** Messages that arrive at a node: GASNet has put the bytes of a write at
    [data] before the handler runs. *)
Inductive mem_event :=
| MWrite (args : RequestArgs) (data : Z) (bs : list Z)
| MFence (key : PartialWriteKey) (num_writes fence : Z).

Definition args_key (a : RequestArgs) : PartialWriteKey := (rw_sender a, rw_sequence_id a).

Definition erase (e : mem_event) : fence_event :=
  match e with MWrite a _ _ => EvWrite (args_key a) | MFence k n f => EvFence k n f end.

Definition mem_step (lm : LocalCPUMemory) (m : mem) (t : PartialWriteMap) (e : mem_event)
    : option (mem * PartialWriteMap * option (Z * Z)) :=
  match e with
  | MWrite a data bs => Some (handle_remote_write lm (write_bytes m data bs) t a data (zlen bs))
  | MFence (s, q) n f => '(t, ack) ← handle_fence t s q n f; Some (m, t, ack)
  end.

Fixpoint mem_run (lm : LocalCPUMemory) (m : mem) (t : PartialWriteMap) (l : list mem_event)
    : option (mem * PartialWriteMap * list (PartialWriteKey * Z * Z)) :=
  match l with
  | [] => Some (m, t, [])
  | e :: l =>
      '(m, t, ack) ← mem_step lm m t e;
      '(m, t, acks) ← mem_run lm m t l;
      Some (m, t, match ack with Some (s, f) => (ev_key (erase e), s, f) :: acks | None => acks end)
  end.

(** Its effect on memory alone. *)
Definition mem_effect (lm : LocalCPUMemory) (m : mem) (e : mem_event) : mem :=
  match e with
  | MWrite a data bs =>
      let m := write_bytes m data bs in
      if lm_registered lm && bool_decide (data = lm_base lm + rw_offset a) then m
      else local_put_bytes lm m (rw_offset a) data (zlen bs)
  | MFence _ _ _ => m
  end.

Lemma mem_run_split lm l : ∀ m t t' acks, fence_run t (erase <$> l) = Some (t', acks) →
  mem_run lm m t l = Some (foldl (mem_effect lm) m l, t', acks).
Proof.
  induction l as [|e l IH]; intros m t t' acks; [by intros; simplify_eq/=|].
  rewrite fmap_cons. cbn [fence_run mem_run foldl]. intros H.
  apply bind_Some in H as ([t1 ack] & Es & H). apply bind_Some in H as ([t2 a2] & Er & H). simplify_eq.
  assert (mem_step lm m t e = Some (mem_effect lm m e, t1, ack)) as ->.
  { destruct e as [a data bs|[s q] n f]; simpl in *; [|by rewrite Es].
    unfold handle_remote_write. by injection Es as ->. }
  simpl. by rewrite (IH _ _ _ _ Er).
Qed.

(** The part [a0, a0 + n) of the memory belongs to the write with key [k]:
    other writes and their LMBs stay clear of it. *)
Definition region_ok (lm : LocalCPUMemory) (k : PartialWriteKey) (a0 n : Z) (e : mem_event) : Prop :=
  match e with
  | MWrite a data bs =>
      (no_overlap data (zlen bs) a0 n ∨ args_key a = k ∧ data = lm_base lm + rw_offset a) ∧
      (args_key a = k ∨ no_overlap (lm_base lm + rw_offset a) (zlen bs) a0 n)
  | MFence _ _ _ => True
  end.

Definition k_writes (k : PartialWriteKey) (l : list mem_event) : list (RequestArgs * list Z) :=
  l ≫= λ e, match e with
            | MWrite a _ bs => if decide (args_key a = k) then [(a, bs)] else []
            | MFence _ _ _ => []
            end.

Lemma k_writes_app k l r : k_writes k (l ++ r) = k_writes k l ++ k_writes k r.
Proof. apply bind_app. Qed.

Definition land_pair (dest : Z) (t : mem) (w : RequestArgs * list Z) : mem :=
  write_bytes t (dest + rw_offset w.1) w.2.

(** Handling a write puts its bytes in place, whichever way. *)
Lemma mem_effect_write lm m a data bs x :
  mem_effect lm m (MWrite a data bs) x =
    if decide (lm_base lm + rw_offset a ≤ x < lm_base lm + rw_offset a + zlen bs)
    then write_bytes m (lm_base lm + rw_offset a) bs x else write_bytes m data bs x.
Proof.
  cbn [mem_effect]. set (d := lm_base lm + rw_offset a). unfold local_put_bytes. fold d.
  assert (memcpy (write_bytes m data bs) d data (zlen bs) x =
    if decide (d ≤ x < d + zlen bs) then write_bytes m d bs x else write_bytes m data bs x) as E.
  { unfold memcpy. rewrite read_write_same'; [|done].
    case_decide as Hx; [|by rewrite write_bytes_out].
    destruct (aget_is_Some bs (x - d)) as [b Hb]; [lia|]. by rewrite !(write_bytes_in _ _ _ _ b). }
  destruct (lm_registered lm && bool_decide (data = d)) eqn:Hd; [|exact E].
  apply andb_true_iff in Hd as [_ ->%bool_decide_eq_true]. by case_decide.
Qed.

Lemma mem_effect_region lm k a0 n l : ∀ m t,
  Forall (region_ok lm k a0 n) l → agree m t a0 n →
  agree (foldl (mem_effect lm) m l) (foldl (land_pair (lm_base lm)) t (k_writes k l)) a0 n.
Proof.
  induction l as [|e l IH]; intros m t Hall Hag; [done|].
  apply Forall_cons in Hall as [He Hall].
  change (e :: l) with ([e] ++ l). rewrite k_writes_app, !foldl_app.
  apply IH; [done|]. clear IH Hall. intros x Hx. specialize (Hag x Hx).
  destruct e as [a data bs|]; [|done]. cbn [foldl]. rewrite mem_effect_write.
  unfold k_writes. simpl. destruct He as [Hd Hp]. unfold no_overlap in *.
  destruct (decide (args_key a = k)) as [Hk|Hk]; simpl.
  - unfold land_pair. simpl. case_decide as Hin.
    + destruct (aget_is_Some bs (x - (lm_base lm + rw_offset a))) as [b Hb]; [lia|].
      by rewrite !(write_bytes_in _ _ _ _ b).
    + rewrite (write_bytes_out t) by done. rewrite write_bytes_out; [done|]. lia.
  - rewrite decide_False by (destruct Hp; [done|lia]). rewrite write_bytes_out; [done|].
    destruct Hd as [?|[? _]]; [lia|done].
Qed.

Lemma k_writes_count k l : zlen (k_writes k l) = writes_of k (erase <$> l).
Proof.
  induction l as [|e l IH]; [done|].
  change (erase <$> e :: l) with ([erase e] ++ (erase <$> l)). change (e :: l) with ([e] ++ l).
  rewrite k_writes_app, zlen_app, writes_of_app, IH, writes_of_one. f_equal. unfold k_writes.
  destruct e; simpl; [|done]. repeat case_decide; try done; congruence.
Qed.

(** C6. A fence means what it says.  The requests of a remote write and the
    fence with the count it returned, delivered in any order and interleaved
    with the traffic of other senders that leaves its destination alone, are
    acknowledged once, when all have arrived; and when the acknowledgement is
    sent the destination holds the bytes of the payload. *)
Theorem remote_write_fenced lm m m0 fuel lmb rdma a src make_copy f reqs n fence l1 l2 :
  let k := args_key a in
  source_ok lmb src → 0 < lmb < 2 ^ 62 → 0 ≤ rw_offset a →
  rw_offset a + source_total src < 2 ^ 63 →
  (Z.to_nat (source_total src) + source_spans src < fuel)%nat →
  do_remote_write fuel lmb rdma a src make_copy = Some (reqs, n) → zlen reqs < 2 ^ 31 →
  0 < rw_sequence_id a → do_remote_fence (rw_sequence_id a) n f = Some fence →
  k_writes k (l1 ++ l2) ≡ₚ (λ r, (rw_args r, payload_bytes m0 (rw_src r))) <$> reqs →
  fences_of k (erase <$> l1 ++ l2) = [(fence.1.2, fence.2)] →
  (∀ k', k' ≠ k → match fences_of k' (erase <$> l1 ++ l2) with
    | [] => writes_of k' (erase <$> l1 ++ l2) = 0
    | [(c, _)] => 0 < k'.2 ∧ c = writes_of k' (erase <$> l1 ++ l2) ∧ 0 < c < 2 ^ 31
    | _ => False end) →
  Forall (region_ok lm k (lm_base lm + rw_offset a) (source_total src)) (l1 ++ l2) →
  ∃ m' t acks, mem_run lm m ∅ l1 = Some (m', t, acks) ∧
    filter (λ x, x.1.1 = k) acks =
      (if decide (filter (λ e, ev_key e = k) (erase <$> l2) = []) then [(k, rw_sender a, f)] else []) ∧
    (filter (λ x, x.1.1 = k) acks ≠ [] →
     read_bytes m' (lm_base lm + rw_offset a) (source_total src) = payload_bytes m0 src).
Proof.
  intros k Hok Hlmb Ho Hlt Hf E Hlen Hq Efence Hw Hfe Hother Hreg.
  destruct (do_remote_write_pieces m0 fuel lmb rdma a src make_copy Hok Hlmb Ho Hlt Hf)
    as (l & E' & Hne & Hp & _). rewrite E in E'. injection E' as <- ->.
  assert (0 < zlen reqs) as Hpos by (destruct reqs; [done|rewrite zlen_cons; pose proof (zlen_nonneg reqs); lia]).
  rewrite i32_id in * by (unfold is_i32; lia).
  assert (u32 (zlen reqs) = zlen reqs) as Eu by (apply Z.mod_small; lia). rewrite Eu in *.
  unfold do_remote_fence in Efence. rewrite assert_true in Efence by lia. injection Efence as <-. simpl in Hfe.
  assert (announced ((erase <$> l1) ++ (erase <$> l2))) as Hann.
  { rewrite <- fmap_app. intros k'. destruct (decide (k' = k)) as [->|Hk]; [|by apply Hother].
    rewrite Hfe. split; [done|]. rewrite <- k_writes_count, Hw. unfold zlen in *.
    rewrite length_fmap. lia. }
  destruct (fence_run_prefix _ _ Hann) as (t & acks & Er & Hk).
  do 3 eexists. split; [by apply mem_run_split|]. destruct (Hk k) as [_ ->].
  rewrite (acks_complete k _ _ (zlen reqs) f Hann) by by rewrite <- fmap_app.
  split; [done|]. case_decide as Hnone; [intros _|done].
  apply none_of_key in Hnone as [Hnone _]. rewrite <- k_writes_count in Hnone.
  assert (k_writes k l2 = []) as E2 by (apply nil_length_inv; unfold zlen in Hnone; lia).
  rewrite k_writes_app, E2, app_nil_r in Hw. apply Permutation_map_inv in Hw as (reqs' & Ew & Hperm).
  apply Forall_app in Hreg as [Hreg _].
  rewrite (read_bytes_agree _ _ _ _ (mem_effect_region lm k _ _ l1 m m Hreg ltac:(done))).
  assert (foldl (land_pair (lm_base lm)) m (k_writes k l1) = foldl (land m0 (lm_base lm)) m reqs') as ->.
  { rewrite Ew. clear. generalize m. induction reqs' as [|r l IH]; intros t; [done|]. simpl. apply IH. }
  rewrite (land_all m0 a _ _ _ (lm_base lm) m reqs' Hp) by by symmetry.
  apply read_write_same'. by rewrite (source_total_eq lmb).
Qed.

Definition example_local : LocalCPUMemory := mkLocal 50000 false false.
Definition example_source : PayloadSource := ContiguousPayload 1000 10 PAYLOAD_COPY.
Definition example_sender (x : Z) : Z := x + 1.
Definition example_args (o : Z) : RequestArgs := mkRwArgs 7 o 1 3.
Definition example_events : list mem_event :=
  [MWrite (example_args 68) 90000 (read_bytes example_sender 1004 4);
   MWrite (mkRwArgs 7 600 2 9) 91000 [1; 2; 3];
   MFence (1, 3) 3 800;
   MWrite (example_args 72) 90128 (read_bytes example_sender 1008 2);
   MFence (2, 9) 1 900;
   MWrite (example_args 64) 90000 (read_bytes example_sender 1000 4)].

Lemma remote_write_fenced_witness :
  ∃ m' t acks, mem_run example_local (λ _, 0) ∅ example_events = Some (m', t, acks) ∧
    filter (λ x, x.1.1 = (1, 3)) acks = [((1, 3), 1, 800)] ∧
    read_bytes m' (50000 + 64) 10 = payload_bytes example_sender example_source.
Proof.
  destruct (remote_write_fenced example_local (λ _, 0) example_sender 100 4 None (example_args 64)
    example_source true 800
    [contig_request (example_args 64) 1000 4 PAYLOAD_COPY 0;
     contig_request (example_args 68) 1004 4 PAYLOAD_COPY 0;
     contig_request (example_args 72) 1008 2 PAYLOAD_COPY 0] 3 (3, 3, 800) example_events [])
    as (m' & t & acks & E & Ha & Hm); try (simpl; lia); try reflexivity.
  - vm_compute. apply (Permutation_app_comm [_; _] [_]).
  - intros k' Hk. change (k' ≠ (1, 3)) in Hk. destruct (decide (k' = (2, 9))) as [->|H9]; [by vm_compute|].
    destruct (proj1 (none_of_key k' (erase <$> example_events ++ []))) as [-> ->]; [|done].
    change (erase <$> example_events ++ []) with
      [EvWrite (1, 3); EvWrite (2, 9); EvFence (1, 3) 3 800; EvWrite (1, 3); EvFence (2, 9) 1 900;
       EvWrite (1, 3)].
    by rewrite !filter_cons_False by (simpl; congruence).
  - repeat (apply Forall_cons; split); try apply Forall_nil; try exact I;
      unfold region_ok, no_overlap, zlen; simpl;
      (split; [left; lia|first [left; reflexivity|right; lia]]).
  - change (filter (λ x : (Z * Z) * Z * Z, x.1.1 = (1, 3)) acks = [((1, 3), 1, 800)]) in Ha.
    exists m', t, acks. split; [exact E|]. split; [exact Ha|]. apply Hm.
    change (filter (λ x : (Z * Z) * Z * Z, x.1.1 = (1, 3)) acks ≠ []). by rewrite Ha.
Defined.
