(* ===== verification/RemoteOps.v ===== *)
(** * Remote serialization and reduction

    [do_remote_serdez] and [do_remote_reduce] of src/templates/mem_impl.cc with
    the handlers at the other end: a field of elements is serialized into as
    many LMB-sized messages as it takes and deserialized element by element; a
    strided reduction is cut into messages whose handlers apply it piecewise.
    The user's serializers and reduction operators are interfaces; a node looks
    its operators up in a table by identifier. *)

From S2P Require Import Prelude Spans SrcDataPool Bytes Payload RemoteWrite Fence.

(** ** Serialization *)

(** [CustomSerdezUntyped]: deserializing what was serialized gives the value
    back and says how many bytes it took. *)
Class CustomSerdez (T : Type) := {
  serialized_size : T → Z;
  serialize : T → list Z;
  deserialize : list Z → option (T * Z);
  serialized_size_law x : serialized_size x = zlen (serialize x);
  deserialize_law x rest : deserialize (serialize x ++ rest) = Some (x, zlen (serialize x)) }.

Section Serdez.
Context {T : Type} `{!CustomSerdez T}.

(** Offset, element count and payload of a message. *)
Record serdez_msg := mkSerdez { sm_offset : Z; sm_count : Z; sm_data : list Z }.

(** The inner loop: elements while they fit.  The results are the elements
    taken, the buffer with its size, and the elements left. *)
Fixpoint serdez_fill (max : Z) (l : list T) (cur_size : Z) : Z * list Z * Z * list T :=
  match l with
  | [] => (0, [], cur_size, [])
  | x :: rest =>
      if decide (u64 (serialized_size x + cur_size) > max) then (0, [], cur_size, l)
      else
        let '(n, bs, size, todo) := serdez_fill max rest (u64 (cur_size + serialized_size x)) in
        (n + 1, serialize x ++ bs, size, todo)
  end.

Fixpoint serdez_loop (fuel : nat) (max field_size offset : Z) (l : list T)
    : option (list serdez_msg) :=
  match fuel with
  | O => None
  | S fuel =>
      if decide (l = []) then Some []
      else
        let '(n, bs, size, todo) := serdez_fill max l 0 in
        assert! size > 0;
        msgs ← serdez_loop fuel max field_size (i64 (offset + field_size * n)) todo;
        Some (mkSerdez offset n bs :: msgs)
  end.

Definition do_remote_serdez (fuel : nat) (max field_size offset : Z) (l : list T)
    : option (list serdez_msg * Z) :=
  msgs ← serdez_loop fuel max field_size offset l; Some (msgs, u32 (zlen msgs)).

(** The handler's loop over the elements: where each is written, and what is
    left of the payload. *)
Fixpoint deser_loop (count : nat) (pos field_size : Z) (buffer : list Z) (datalen : Z)
    : option (list (Z * T) * Z) :=
  match count with
  | O => Some ([], datalen)
  | S count =>
      '(x, n) ← deserialize buffer;
      '(l, datalen) ← deser_loop count (pos + field_size) field_size (drop (Z.to_nat n) buffer)
                        (u64 (datalen - n));
      Some ((pos, x) :: l, datalen)
  end.

Definition handle_remote_serdez (field_size : Z) (m : serdez_msg) : option (list (Z * T)) :=
  '(l, datalen) ← deser_loop (Z.to_nat (sm_count m)) (sm_offset m) field_size (sm_data m)
                    (zlen (sm_data m));
  assert! datalen = 0; Some l.

(** The whole handler counts the write like the others. *)
Definition handle_serdez_request (t : PartialWriteMap) (field_size sender sequence_id : Z)
    (m : serdez_msg) : option (list (Z * T) * PartialWriteMap * option (Z * Z)) :=
  l ← handle_remote_serdez field_size m;
  let '(t, ack) := track_write t sender sequence_id in Some (l, t, ack).

(** The elements with their places in the field. *)
Fixpoint placed (pos field_size : Z) (l : list T) : list (Z * T) :=
  match l with [] => [] | x :: l => (pos, x) :: placed (pos + field_size) field_size l end.

Lemma placed_app pos fs l k :
  placed pos fs (l ++ k) = placed pos fs l ++ placed (pos + fs * zlen l) fs k.
Proof.
  revert pos. induction l as [|x l IH]; intros pos; simpl.
  { by replace (pos + fs * zlen (@nil T)) with pos by (unfold zlen; simpl; lia). }
  rewrite IH, zlen_cons. f_equal. f_equal. f_equal. lia.
Qed.

Definition fits (max : Z) (x : T) : Prop := 0 < serialized_size x ≤ max.

Lemma serdez_fill_spec max l : ∀ cur,
  0 ≤ cur ≤ max → max < 2 ^ 62 → Forall (fits max) l →
  ∃ pre todo, l = pre ++ todo ∧
    serdez_fill max l cur =
      (zlen pre, pre ≫= serialize, cur + zlen (pre ≫= serialize), todo) ∧
    cur + zlen (pre ≫= serialize) ≤ max ∧ (cur = 0 → l ≠ [] → pre ≠ []).
Proof.
  induction l as [|x l IH]; intros cur Hc Hm Hall; simpl.
  { exists [], []. rewrite Z.add_0_r. split_all; done || lia. }
  apply Forall_cons in Hall as [Hx Hall]. pose proof Hx as Hx'. unfold fits in Hx'.
  rewrite !u64_id by (unfold is_u64; lia). case_decide as Hbig.
  - exists [], (x :: l). rewrite Z.add_0_r. split_all; done || lia.
  - destruct (IH (cur + serialized_size x)) as (pre & todo & -> & -> & Hle & _); [lia|done|done|].
    exists (x :: pre), todo. rewrite bind_cons, zlen_app, zlen_cons, <- serialized_size_law.
    split_all; [done| |lia|done]. by rewrite Z.add_assoc, (Z.add_comm 1).
Qed.

Lemma deser_loop_spec fs l : ∀ pos rest datalen,
  datalen = zlen (l ≫= serialize) + zlen rest → datalen < 2 ^ 64 →
  deser_loop (length l) pos fs ((l ≫= serialize) ++ rest) datalen =
    Some (placed pos fs l, zlen rest).
Proof.
  induction l as [|x l IH]; intros pos rest datalen Hd Hlt.
  { simpl in *. by subst. }
  rewrite bind_cons, zlen_app in *. cbn [length deser_loop placed].
  rewrite <- (assoc_L (++)), deserialize_law. simpl.
  pose proof (zlen_nonneg (serialize x)). pose proof (zlen_nonneg (l ≫= serialize)).
  pose proof (zlen_nonneg rest). rewrite u64_id by (unfold is_u64; lia).
  replace (Z.to_nat (zlen (serialize x))) with (length (serialize x)) by (unfold zlen; lia).
  rewrite drop_app_length, IH by lia. done.
Qed.

Lemma bind_serialize_pos max l : Forall (fits max) l → l ≠ [] → 0 < zlen (l ≫= serialize).
Proof.
  intros Hall Hne. destruct l as [|x l]; [done|]. apply Forall_cons in Hall as [Hx _].
  rewrite bind_cons, zlen_app. pose proof (zlen_nonneg (l ≫= serialize)). unfold fits in Hx.
  rewrite serialized_size_law in Hx. lia.
Qed.

Lemma serdez_loop_spec max fs fuel : ∀ offset l,
  max < 2 ^ 62 → 0 ≤ fs → 0 ≤ offset → offset + fs * zlen l < 2 ^ 63 → Forall (fits max) l →
  (length l < fuel)%nat →
  ∃ msgs, serdez_loop fuel max fs offset l = Some msgs ∧
    Forall (λ m, 0 < zlen (sm_data m) ≤ max) msgs ∧
    ∃ ls, mapM (handle_remote_serdez fs) msgs = Some ls ∧ concat ls = placed offset fs l.
Proof.
  induction fuel as [|fuel IH]; intros offset l Hm Hfs Ho Hlt Hall Hf; [lia|]. simpl.
  case_decide as Hne; [subst; exists []; split; [done|]; split; [done|]; by exists []|].
  destruct l as [|x0 l0] eqn:El; [done|]. rewrite <- El in *.
  assert (0 ≤ max) as Hmax.
  { rewrite El in Hall. apply Forall_cons in Hall as [Hx _]. unfold fits in Hx. lia. }
  destruct (serdez_fill_spec max l 0) as (pre & todo & Epre & -> & Hle & Hpre); [lia|done..|].
  specialize (Hpre eq_refl Hne). clear El x0 l0. subst l. apply Forall_app in Hall as [Hall1 Hall2].
  pose proof (bind_serialize_pos max pre Hall1 Hpre) as Hpos. rewrite Z.add_0_l in *.
  rewrite assert_true by lia. rewrite zlen_app in Hlt. pose proof (zlen_nonneg pre).
  pose proof (zlen_nonneg todo). rewrite i64_id by nia.
  destruct (IH (offset + fs * zlen pre) todo) as (msgs & -> & Hsz & ls & Els & Ec);
    [done|done|nia|nia|done| |].
  { rewrite length_app in Hf. destruct pre; [done|]. simpl in Hf. lia. }
  simpl. eexists. split; [done|]. split; [constructor; [simpl; lia|done]|].
  exists (placed offset fs pre :: ls). split; [|simpl; by rewrite Ec, placed_app].
  assert (handle_remote_serdez fs (mkSerdez offset (zlen pre) (pre ≫= serialize)) =
    Some (placed offset fs pre)) as E1.
  { unfold handle_remote_serdez. cbn [sm_count sm_offset sm_data].
    replace (Z.to_nat (zlen pre)) with (length pre) by (unfold zlen; lia).
    pose proof (deser_loop_spec fs pre offset [] (zlen (pre ≫= serialize))) as Hd.
    rewrite app_nil_r in Hd. by rewrite Hd by (change (zlen (@nil Z)) with 0; lia). }
  simpl. by rewrite E1, Els.
Qed.

Lemma serdez_fill_small max l : ∀ cur n bs size todo,
  0 ≤ cur ≤ max → max < 2 ^ 62 → Forall (λ x, 0 ≤ serialized_size x < 2 ^ 62) l →
  serdez_fill max l cur = (n, bs, size, todo) →
  ∃ pre, l = pre ++ todo ∧ Forall (λ x, serialized_size x ≤ max) pre.
Proof.
  induction l as [|x l IH]; intros cur n bs size todo Hc Hm Hall E; simpl in E.
  { simplify_eq. by exists []. }
  apply Forall_cons in Hall as [Hx Hall]. rewrite !u64_id in E by (unfold is_u64; lia).
  simpl in Hx. case_decide as Hbig; [simplify_eq; by exists []|].
  destruct (serdez_fill max l (cur + serialized_size x)) as [[[n' bs'] size'] todo'] eqn:E'.
  assert (0 ≤ cur + serialized_size x ≤ max) as Hc2 by lia.
  simplify_eq. destruct (IH _ _ _ _ _ Hc2 Hm Hall E') as (pre & -> & Hpre).
  exists (x :: pre). split; [done|]. constructor; [lia|done].
Qed.

Lemma serdez_loop_too_large max fs fuel : ∀ offset l,
  0 ≤ max < 2 ^ 62 → Forall (λ x, 0 ≤ serialized_size x < 2 ^ 62) l →
  Exists (λ x, max < serialized_size x) l → serdez_loop fuel max fs offset l = None.
Proof.
  induction fuel as [|fuel IH]; intros offset l Hm Hall Hex; [done|]. simpl.
  case_decide as Hne; [by subst; inversion Hex|].
  destruct (serdez_fill max l 0) as [[[n bs] size] todo] eqn:E.
  destruct (serdez_fill_small max l 0 n bs size todo) as (pre & -> & Hpre); [lia|lia|done|done|].
  apply Forall_app in Hall as [_ Hall]. apply Exists_app in Hex as [Hex|Hex].
  { exfalso. apply Exists_exists in Hex as (x & Hin & Hx). rewrite Forall_forall in Hpre.
    specialize (Hpre x Hin). simpl in *. lia. }
  unfold assert_. case_decide; [|done]. by rewrite IH.
Qed.

(** C21. Remote serialization round-trips.  When every element takes some bytes
    and fits an LMB, the messages fit too, each is deserialized down to its
    last byte, and together they hand every element to its own place in the
    field, once; an element that does not fit makes the call fail instead. *)
Theorem serdez_roundtrip max fs fuel offset l :
  0 ≤ max < 2 ^ 62 → 0 ≤ fs → 0 ≤ offset → offset + fs * zlen l < 2 ^ 63 →
  (length l < fuel)%nat →
  (Forall (fits max) l →
   ∃ msgs, do_remote_serdez fuel max fs offset l = Some (msgs, u32 (zlen msgs)) ∧
     Forall (λ m, 0 < zlen (sm_data m) ≤ max) msgs ∧
     ∃ ls, mapM (handle_remote_serdez fs) msgs = Some ls ∧ concat ls = placed offset fs l) ∧
  (Forall (λ x, 0 ≤ serialized_size x < 2 ^ 62) l → Exists (λ x, max < serialized_size x) l →
   do_remote_serdez fuel max fs offset l = None).
Proof.
  intros Hm Hfs Ho Hlt Hf. unfold do_remote_serdez. split.
  - intros Hall. destruct (serdez_loop_spec max fs fuel offset l) as (msgs & -> & H); [lia|done..|].
    by exists msgs.
  - intros Hall Hex. by rewrite serdez_loop_too_large.
Qed.
End Serdez.

(** Strings of bytes with a length in front. *)
#[export] Instance counted_bytes : CustomSerdez (list Z).
Proof.
  refine {| serialized_size x := zlen x + 1;
            serialize x := zlen x :: x;
            deserialize l := match l with
                             | n :: l => Some (take (Z.to_nat n) l, n + 1)
                             | [] => None
                             end |}.
  - intros x. rewrite zlen_cons. lia.
  - intros x rest. simpl. rewrite zlen_cons. f_equal. f_equal; [|lia].
    unfold zlen. rewrite Nat2Z.id. apply take_app_length.
Defined.

Lemma serdez_roundtrip_witness :
  ∃ msgs, do_remote_serdez 10 4 16 256 [[1; 2]; [3]; [4; 5; 6]] = Some (msgs, u32 (zlen msgs)) ∧
    do_remote_serdez 10 4 16 256 [[1; 2]; [3; 4; 5; 6]] = None ∧
    ∃ ls, mapM (handle_remote_serdez 16) msgs = Some ls ∧
      concat ls = [(256, [1; 2]); (272, [3]); (288, [4; 5; 6])].
Proof.
  destruct (serdez_roundtrip 4 16 10 256 [[1; 2]; [3]; [4; 5; 6]]) as [Hok _];
    [lia|lia|lia|unfold zlen; simpl; lia|simpl; lia|].
  destruct (serdez_roundtrip 4 16 10 256 [[1; 2]; [3; 4; 5; 6]]) as [_ Hbad];
    [lia|lia|lia|unfold zlen; simpl; lia|simpl; lia|].
  destruct Hok as (msgs & E & _ & ls & El & Ec).
  { unfold fits, zlen. repeat constructor; simpl; unfold zlen; simpl; lia. }
  exists msgs. split; [exact E|]. split; [|exists ls; split; [exact El|exact Ec]].
  apply Hbad; [repeat constructor; simpl; unfold zlen; simpl; lia|].
  right. left. simpl. unfold zlen. simpl. lia.
Defined.

(** ** Reductions *)

(** [ReductionOpUntyped]: the size of an element and the two strided
    reductions into a memory, which work element by element, so that they may
    be cut in two. *)
Record ReductionOp := mkRedop {
  sizeof_rhs : Z;
  apply_strided : mem → Z → list Z → Z → Z → Z → mem;
  fold_strided : mem → Z → list Z → Z → Z → Z → mem;
  apply_strided_split m lhs rhs ls rs a b : 0 ≤ a → 0 ≤ b → 0 < rs →
    apply_strided m lhs rhs ls rs (a + b) =
    apply_strided (apply_strided m lhs (take (Z.to_nat (a * rs)) rhs) ls rs a)
      (lhs + a * ls) (drop (Z.to_nat (a * rs)) rhs) ls rs b;
  fold_strided_split m lhs rhs ls rs a b : 0 ≤ a → 0 ≤ b → 0 < rs →
    fold_strided m lhs rhs ls rs (a + b) =
    fold_strided (fold_strided m lhs (take (Z.to_nat (a * rs)) rhs) ls rs a)
      (lhs + a * ls) (drop (Z.to_nat (a * rs)) rhs) ls rs b }.

Record reduce_request := mkReduce {
  rr_offset : Z;
  rr_stride : Z;
  rr_redop : Z;
  rr_sender : Z;
  rr_sequence_id : Z;
  rr_src : PayloadSource }.

(** [RuntimeImpl::reduce_op_table] of a node; an identifier that is not in it
    has no operator to use. *)
Definition reduce_op_table : Type := gmap Z ReductionOp.

(** "fold encoded as a negation of the redop_id" *)
Definition encode_redop (redop_id : Z) (red_fold : bool) : Z :=
  i32 (if red_fold then - redop_id else redop_id).

Definition decode_redop (redop_id : Z) : option (Z * bool) :=
  if decide (redop_id > 0) then Some (redop_id, false)
  else if decide (redop_id < 0) then Some (i32 (- redop_id), true)
  else None.

Fixpoint chop_elements (rhs_size : Z) (fuel : nat) (r : reduce_request) (pos count src_stride max : Z)
    (mode : PayloadMode) : option (list reduce_request) :=
  let piece (n : Z) := mkReduce (rr_offset r) (rr_stride r) (rr_redop r) (rr_sender r)
                         (rr_sequence_id r) (TwoDPayload pos rhs_size n src_stride mode) in
  match fuel with
  | O => None
  | S fuel =>
      if decide (count > max) then
        l ← chop_elements rhs_size fuel
              (mkReduce (i64 (rr_offset r + rr_stride r * max)) (rr_stride r) (rr_redop r)
                 (rr_sender r) (rr_sequence_id r) (rr_src r))
              (pos + src_stride * max) (count - max) src_stride max mode;
        Some (piece max :: l)
      else Some [piece count]
  end.

Definition do_remote_reduce (table : reduce_op_table) (fuel : nat) (lmb offset redop_id : Z) (red_fold : bool)
    (data count src_stride dst_stride sender sequence_id : Z) (make_copy : bool)
    : option (list reduce_request * Z) :=
  redop ← table !! redop_id;
  let rhs_size := sizeof_rhs redop in
  let mode := copy_mode make_copy in
  assert! rhs_size ≠ 0;
  let max := lmb `div` rhs_size in
  assert! max > 0;
  assert! i32 dst_stride = dst_stride;
  let whole := TwoDPayload data rhs_size count src_stride mode in
  let r := mkReduce offset dst_stride (encode_redop redop_id red_fold) sender sequence_id whole in
  if decide (count > max) then
    l ← chop_elements rhs_size fuel r data count src_stride max mode;
    Some (l, u32 (i32 (zlen l)))
  else Some ([r], 1).

(** [base] is the address of the target memory: [get_direct_ptr] adds the
    offset.  The payload has arrived as [bs]. *)
Definition handle_remote_reduce (table : reduce_op_table) (base : Z) (m : mem) (t : PartialWriteMap) (r : reduce_request)
    (bs : list Z) : option (mem * PartialWriteMap * option (Z * Z)) :=
  '(redop_id, red_fold) ← decode_redop (rr_redop r);
  redop ← table !! redop_id;
  let count := zlen bs `div` sizeof_rhs redop in
  let lhs := base + rr_offset r in
  assert! lhs ≠ 0;
  let op := if red_fold : bool then fold_strided redop else apply_strided redop in
  let '(t, ack) := track_write t (rr_sender r) (rr_sequence_id r) in
  Some (op m lhs bs (rr_stride r) (sizeof_rhs redop) count, t, ack).

(** The memory after handling the requests of [l] in order, their payloads
    read from the sender's memory [m0]. *)
Definition reduce_all (table : reduce_op_table) (base : Z) (m0 m : mem) (l : list reduce_request) : option mem :=
  foldl (λ om r, m ← om;
    '(m, _, _) ← handle_remote_reduce table base m ∅ r (payload_bytes m0 (rr_src r)); Some m) (Some m) l.

Definition strided (redop : ReductionOp) (red_fold : bool) : mem → Z → list Z → Z → Z → Z → mem :=
  if red_fold then fold_strided redop else apply_strided redop.

Section Reduce.
Context (redop_id : Z) (redop : ReductionOp).
Abbreviation rhs_size := (sizeof_rhs redop).

Lemma strided_split red_fold m lhs rhs ls rs a b : 0 ≤ a → 0 ≤ b → 0 < rs →
  strided redop red_fold m lhs rhs ls rs (a + b) =
  strided redop red_fold (strided redop red_fold m lhs (take (Z.to_nat (a * rs)) rhs) ls rs a)
    (lhs + a * ls) (drop (Z.to_nat (a * rs)) rhs) ls rs b.
Proof. destruct red_fold; [apply (fold_strided_split redop)|apply (apply_strided_split redop)]. Qed.

Lemma strided_twod_split red_fold m0 m lhs pos ss mode ls a b : 0 < rhs_size → 0 ≤ a → 0 ≤ b →
  let bytes p n := payload_bytes m0 (TwoDPayload p rhs_size n ss mode) in
  strided redop red_fold m lhs (bytes pos (a + b)) ls rhs_size (a + b) =
  strided redop red_fold (strided redop red_fold m lhs (bytes pos a) ls rhs_size a)
    (lhs + a * ls) (bytes (pos + ss * a) b) ls rhs_size b.
Proof.
  intros Hz Ha Hb bytes. rewrite strided_split by lia. unfold bytes. rewrite twod_bytes_split by lia.
  pose proof (twod_bytes_zlen m0 pos rhs_size a ss mode (Z.lt_le_incl _ _ Hz) Ha) as Hl.
  replace (Z.to_nat (a * rhs_size)) with
    (length (payload_bytes m0 (TwoDPayload pos rhs_size a ss mode))) by (unfold zlen in Hl; lia).
  by rewrite take_app_length, drop_app_length.
Qed.

Lemma decode_encode red_fold : 0 < redop_id < 2 ^ 31 →
  decode_redop (encode_redop redop_id red_fold) = Some (redop_id, red_fold).
Proof.
  intros Hid. unfold encode_redop, decode_redop. destruct red_fold; rewrite i32_id by (unfold is_i32; lia).
  - rewrite decide_False, decide_True, i32_id by (unfold is_i32; lia). do 2 f_equal. lia.
  - by rewrite decide_True by lia.
Qed.

Lemma reduce_all_cons table base m0 m r l m1 t ack :
  handle_remote_reduce table base m ∅ r (payload_bytes m0 (rr_src r)) = Some (m1, t, ack) →
  reduce_all table base m0 m (r :: l) = reduce_all table base m0 m1 l.
Proof. intros E. unfold reduce_all. cbn [foldl mbind option_bind]. by rewrite E. Qed.

(** Nothing comes after a handler without a result. *)
Lemma reduce_all_none table base m0 m r l :
  handle_remote_reduce table base m ∅ r (payload_bytes m0 (rr_src r)) = None →
  reduce_all table base m0 m (r :: l) = None.
Proof.
  intros E. unfold reduce_all. cbn [foldl mbind option_bind]. rewrite E. cbn [mbind option_bind].
  induction l as [|q l IH]; done.
Qed.

Lemma handle_reduce_unknown table base m0 m r red_fold :
  0 < redop_id < 2 ^ 31 → rr_redop r = encode_redop redop_id red_fold → table !! redop_id = None →
  handle_remote_reduce table base m ∅ r (payload_bytes m0 (rr_src r)) = None.
Proof.
  intros Hid Hr Ht. unfold handle_remote_reduce. rewrite Hr, decode_encode by done.
  cbn [mbind option_bind]. by rewrite Ht.
Qed.

Lemma handle_reduce_piece table base m0 m r red_fold pos n ss mode :
  table !! redop_id = Some redop → 0 < redop_id < 2 ^ 31 → rr_redop r = encode_redop redop_id red_fold →
  rr_src r = TwoDPayload pos rhs_size n ss mode → 0 < rhs_size → 0 ≤ n →
  base + rr_offset r ≠ 0 →
  ∃ t ack, handle_remote_reduce table base m ∅ r (payload_bytes m0 (rr_src r)) =
    Some (strided redop red_fold m (base + rr_offset r) (payload_bytes m0 (rr_src r)) (rr_stride r)
            rhs_size n, t, ack).
Proof.
  intros Hop Hid Hr Hs Hz Hn Hp. unfold handle_remote_reduce. rewrite Hr, decode_encode by done.
  cbn [mbind option_bind]. rewrite Hop. cbn [mbind option_bind].
  rewrite assert_true by done. rewrite Hs, twod_bytes_zlen by lia.
  rewrite Z.mul_comm, Z.div_mul by lia. destruct (track_write _ _ _) as [t ack]. exists t, ack.
  by destruct red_fold.
Qed.

Lemma chop_elements_spec base m0 red_fold ss max mode fuel : ∀ r m pos count,
  0 < redop_id < 2 ^ 31 → rr_redop r = encode_redop redop_id red_fold → 0 < rhs_size →
  0 < max → 0 ≤ count → 0 ≤ rr_offset r → rr_offset r + count * rr_stride r < 2 ^ 63 →
  0 ≤ rr_stride r → 0 < base → (Z.to_nat count < fuel)%nat →
  ∃ l, chop_elements rhs_size fuel r pos count ss max mode = Some l ∧
    Forall (λ q, rr_redop q = rr_redop r ∧
      ∃ p n, rr_src q = TwoDPayload p rhs_size n ss mode ∧ 0 ≤ n ≤ max) l ∧ l ≠ [] ∧
    ∀ table, table !! redop_id = Some redop → reduce_all table base m0 m l =
      Some (strided redop red_fold m (base + rr_offset r)
              (payload_bytes m0 (TwoDPayload pos rhs_size count ss mode)) (rr_stride r) rhs_size count).
Proof.
  induction fuel as [|fuel IH]; intros r m pos count Hid Hr Hz Hmax Hc Ho Hlt Hst Hb Hf; [lia|].
  cbn [chop_elements]. case_decide as Hbig.
  - assert (rr_stride r * max ≤ count * rr_stride r) by nia. rewrite i64_id by nia.
    set (q := mkReduce (rr_offset r) (rr_stride r) (rr_redop r) (rr_sender r) (rr_sequence_id r)
                (TwoDPayload pos rhs_size max ss mode)).
    match goal with |- context [chop_elements rhs_size fuel ?r' ?p ?c ss max mode] =>
      destruct (IH r' (strided redop red_fold m (base + rr_offset r)
        (payload_bytes m0 (TwoDPayload pos rhs_size max ss mode)) (rr_stride r) rhs_size max) p c)
        as (l & -> & Hl & _ & Er) end; simpl; [done|done|done|lia|lia|nia|nia|done|done|lia|].
    eexists. split; [reflexivity|]. split; [constructor; [|done]|split; [done|]].
    { split; [done|]. exists pos, max. split; [done|lia]. }
    intros table Hop.
    destruct (handle_reduce_piece table base m0 m q red_fold pos max ss mode) as (t & ack & E);
      [done|done|done|done|done|lia|simpl; lia|].
    fold q. rewrite (reduce_all_cons _ _ _ _ q l _ _ _ E). simpl in Er.
    cbn [rr_offset rr_stride rr_src q]. rewrite Er by done. f_equal.
    pose proof (strided_twod_split red_fold m0 m (base + rr_offset r) pos ss mode (rr_stride r)
      max (count - max)) as Esp.
    replace (max + (count - max)) with count in Esp by lia. rewrite Esp by lia. f_equal. lia.
  - eexists. split; [reflexivity|]. split; [apply Forall_singleton; split; [done|]; exists pos, count; split; [done|lia]|].
    split; [done|]. intros table Hop.
    set (q := mkReduce (rr_offset r) (rr_stride r) (rr_redop r) (rr_sender r) (rr_sequence_id r)
                (TwoDPayload pos rhs_size count ss mode)).
    destruct (handle_reduce_piece table base m0 m q red_fold pos count ss mode) as (t & ack & E);
      [done|done|done|done|done|lia|simpl; lia|]. fold q.
    by rewrite (reduce_all_cons _ _ _ _ q [] _ _ _ E).
Qed.
End Reduce.

(** C22. A remote reduction is equivalent to the local one.  With an operator
    that is in the sender's table the requests go through, fit an LMB, and carry
    the operator's identifier and whether to fold: on any node that has the
    operator under that identifier, whatever else its table holds, the handlers
    in the order the requests are sent leave the memory as one strided
    reduction of all the elements with that operator would; on a node without
    it they fail. *)
Theorem remote_reduce_equiv (table : reduce_op_table) redop_id redop base m0 m fuel lmb offset
    red_fold data count ss ds sender sequence_id make_copy :
  0 < redop_id < 2 ^ 31 → table !! redop_id = Some redop →
  0 < sizeof_rhs redop ≤ lmb → 0 ≤ count → 0 ≤ offset → 0 < base →
  0 ≤ ds < 2 ^ 31 → offset + count * ds < 2 ^ 63 → (Z.to_nat count < fuel)%nat →
  ∃ l, do_remote_reduce table fuel lmb offset redop_id red_fold data count ss ds sender sequence_id
         make_copy = Some (l, u32 (i32 (zlen l))) ∧
    Forall (λ q, zlen (payload_bytes m0 (rr_src q)) ≤ lmb) l ∧
    (∀ owner : reduce_op_table, owner !! redop_id = Some redop →
      reduce_all owner base m0 m l =
        Some ((if red_fold then fold_strided redop else apply_strided redop) m (base + offset)
               (payload_bytes m0 (TwoDPayload data (sizeof_rhs redop) count ss PAYLOAD_KEEP)) ds
               (sizeof_rhs redop) count)) ∧
    (∀ owner : reduce_op_table, owner !! redop_id = None → reduce_all owner base m0 m l = None).
Proof.
  intros Hid Hop Hz Hc Ho Hb Hds Hlt Hf. unfold do_remote_reduce. rewrite Hop. cbn [mbind option_bind].
  rewrite !assert_true; [|apply i32_id; unfold is_i32; lia|apply Z.lt_gt, Z.div_str_pos; lia|lia].
  set (rhs_size := sizeof_rhs redop) in *.
  set (max := lmb `div` rhs_size). set (mode := copy_mode make_copy).
  assert (0 < max) as Hmax by (apply Z.div_str_pos; lia).
  assert (rhs_size * max ≤ lmb) as Hfit by (apply Z.mul_div_le; lia).
  set (r := mkReduce offset ds (encode_redop redop_id red_fold) sender sequence_id
              (TwoDPayload data rhs_size count ss mode)).
  destruct (chop_elements_spec redop_id redop base m0 red_fold ss max mode fuel r m data count)
    as (l & E & Hl & Hne & Er); try done; try (simpl; lia). fold rhs_size in E, Hl.
  assert (∃ l', (if decide (count > max) then l ← chop_elements rhs_size fuel r data count ss max mode;
      Some (l, u32 (i32 (zlen l))) else Some ([r], 1)) = Some (l', u32 (i32 (zlen l'))) ∧ l' = l)
    as (l' & El & ->).
  { case_decide as Hbig; [rewrite E; by exists l|].
    exists [r]. split; [done|]. destruct fuel as [|fuel]; [lia|]. cbn [chop_elements] in E.
    rewrite decide_False in E by lia. by simplify_eq. }
  exists l. split_all; [exact El| |by destruct red_fold|].
  - eapply Forall_impl; [exact Hl|]. intros q (_ & p & n & -> & Hn). rewrite twod_bytes_zlen by lia. nia.
  - intros owner Hown. destruct l as [|q l]; [done|]. apply Forall_cons in Hl as [[Hq _] _].
    apply reduce_all_none. by apply (handle_reduce_unknown redop_id) with red_fold.
Qed.

(** A reduction of single bytes by addition and multiplication. *)
Definition strided_by (f : Z → Z → Z) (m : mem) (lhs : Z) (rhs : list Z) (ls rs n : Z) : mem :=
  foldl (λ m i, write_bytes m (lhs + i * ls)
                  [f (m (lhs + i * ls)) (default 0 (aget rhs (i * rs)))]) m (seqZ 0 n).

Lemma foldl_ext_in {A B} (f g : A → B → A) l : (∀ a x, x ∈ l → f a x = g a x) →
  ∀ a, foldl f a l = foldl g a l.
Proof.
  induction l as [|x l IH]; intros H a; [done|]. simpl. rewrite H by set_solver.
  apply IH. intros. apply H. set_solver.
Qed.

Lemma foldl_fmap_in {A B C} (f : A → B → A) (h : C → B) l : ∀ a,
  foldl f a (h <$> l) = foldl (λ a x, f a (h x)) a l.
Proof. induction l as [|x l IH]; intros a; [done|]. apply IH. Qed.

Lemma aget_take {A} (l : list A) n i : i < n → aget (take (Z.to_nat n) l) i = aget l i.
Proof. intros. unfold aget. case_decide; [|done]. apply lookup_take_lt. lia. Qed.

Lemma aget_drop {A} (l : list A) n i : 0 ≤ n → 0 ≤ i → aget (drop (Z.to_nat n) l) i = aget l (n + i).
Proof. intros. unfold aget. rewrite !decide_True by lia. rewrite lookup_drop. f_equal. lia. Qed.

Lemma strided_by_split f m lhs rhs ls rs a b : 0 ≤ a → 0 ≤ b → 0 < rs →
  strided_by f m lhs rhs ls rs (a + b) =
  strided_by f (strided_by f m lhs (take (Z.to_nat (a * rs)) rhs) ls rs a)
    (lhs + a * ls) (drop (Z.to_nat (a * rs)) rhs) ls rs b.
Proof.
  intros Ha Hb Hrs. unfold strided_by. rewrite seqZ_app, foldl_app by done.
  replace (seqZ (0 + a) b) with (Z.add a <$> seqZ 0 b) by (by rewrite fmap_add_seqZ, Z.add_0_r).
  rewrite foldl_fmap_in.
  erewrite (foldl_ext_in _ _ (seqZ 0 a)); [apply foldl_ext_in|].
  - intros m' i Hi%elem_of_seqZ. cbv beta. rewrite aget_drop by nia.
    replace (lhs + a * ls + i * ls) with (lhs + (a + i) * ls) by lia.
    by replace (a * rs + i * rs) with ((a + i) * rs) by lia.
  - intros m' i Hi%elem_of_seqZ. cbv beta. by rewrite aget_take by nia.
Qed.

Definition byte_reduction (f g : Z → Z → Z) : ReductionOp :=
  mkRedop 1 (strided_by f) (strided_by g) (strided_by_split f) (strided_by_split g).

(** Operator 3 adds and multiplies; operators 1 and 4 do something else. *)
Definition example_redops : reduce_op_table :=
  {[1 := byte_reduction Z.max Z.min; 3 := byte_reduction Z.add Z.mul; 4 := byte_reduction Z.sub Z.min]}.

Lemma remote_reduce_equiv_witness :
  ∃ l m', do_remote_reduce example_redops 10 2 16 3 true 1000 5 1 4 0 9 true =
      Some (l, u32 (i32 (zlen l))) ∧
    reduce_all example_redops 50000 (λ x, x - 998) (λ _, 10) l = Some m' ∧
    m' (50000 + 16 + 3 * 4) = 50 ∧
    reduce_all {[1 := byte_reduction Z.add Z.mul]} 50000 (λ x, x - 998) (λ _, 10) l = None.
Proof.
  destruct (remote_reduce_equiv example_redops 3 (byte_reduction Z.add Z.mul) 50000 (λ x, x - 998)
    (λ _, 10) 10 2 16 true 1000 5 1 4 0 9 true) as (l & E & _ & Er & Hno); try (simpl; lia); [done|].
  eexists l, _. split; [exact E|]. split; [exact (Er example_redops eq_refl)|].
  split; [reflexivity|]. by apply Hno.
Defined.

(** ** Reduction lists *)

Inductive MemoryKind :=
| MKIND_SYSMEM | MKIND_GLOBAL | MKIND_RDMA | MKIND_REMOTE | MKIND_GPUFB | MKIND_ZEROCOPY
| MKIND_DISK | MKIND_FILE.

(** [GASNetMemory::apply_reduction_list] starts with "assert(0)". *)
Definition apply_reduction_list (offset count : Z) : option unit := None.

Definition handle_remote_reduce_list (kind : MemoryKind) (sizeof_list_entry offset datalen : Z)
    : option unit :=
  match kind with
  | MKIND_GLOBAL =>
      assert! sizeof_list_entry ≠ 0;
      assert! datalen `mod` sizeof_list_entry = 0;
      apply_reduction_list offset (datalen `div` sizeof_list_entry)
  | _ => None
  end.

(** Whatever memory it is sent to, a reduction list ends the process. *)
Lemma reduce_list_aborts kind sz offset datalen :
  handle_remote_reduce_list kind sz offset datalen = None.
Proof. destruct kind; try done. unfold handle_remote_reduce_list, assert_. by repeat case_decide. Qed.
