(* ===== verification/Memories.v ===== *)
(** * Memories of other nodes

    The virtual functions of the memory classes in src/templates/mem_impl.cc:
    which of [LocalCPUMemory], [GASNetMemory] and [RemoteMemory] allocates
    itself and which asks the owner, and how a remote memory is written, by
    messages, and read, by a one-sided transfer.  Seen from any node an
    allocation is the owner's, and what is put remotely is what is got. *)

From S2P Require Import Prelude Spans MemAlloc SrcDataPool Bytes Payload GasnetMem RemoteWrite Fence RemoteOps.

(** ** The classes *)

(** [rm_owner] is the owner in the identifier [rm_me]. *)
Record RemoteMemory := mkRemote { rm_me : Z; rm_owner : Z; rm_size : Z; rm_regbase : Z }.

Definition RemoteMemory_kind (rm : RemoteMemory) : MemoryKind :=
  if decide (rm_regbase rm ≠ 0) then MKIND_RDMA else MKIND_REMOTE.

(** The object for a memory on some node. *)
Inductive memory_class := CLocalCPU | CGASNet | CRemote.

Inductive alloc_result := Allocated (m : MemoryImpl) (offset : Z) | AskOwner.

Definition LocalCPUMemory_alloc_bytes (m : MemoryImpl) (size : Z) : alloc_result :=
  let '(m, offset) := alloc_bytes_local m size in Allocated m offset.
Definition GASNetMemory_alloc_bytes (my_node_id : Z) (m : MemoryImpl) (size : Z) : alloc_result :=
  if decide (my_node_id = 0) then let '(m, offset) := alloc_bytes_local m size in Allocated m offset
  else AskOwner.
Definition RemoteMemory_alloc_bytes (size : Z) : alloc_result := AskOwner.

(** The virtual call on node [my]. *)
Definition alloc_bytes (c : memory_class) (my : Z) (m : MemoryImpl) (size : Z) : alloc_result :=
  match c with
  | CLocalCPU => LocalCPUMemory_alloc_bytes m size
  | CGASNet => GASNetMemory_alloc_bytes my m size
  | CRemote => RemoteMemory_alloc_bytes size
  end.

(** [free_bytes_remote] is "assert(0)". *)
Definition free_bytes_remote (offset size : Z) : option MemoryImpl := None.
Definition LocalCPUMemory_free_bytes (m : MemoryImpl) (offset size : Z) : option MemoryImpl :=
  free_bytes_local m offset size.
Definition GASNetMemory_free_bytes (my_node_id : Z) (m : MemoryImpl) (offset size : Z) : option MemoryImpl :=
  if decide (my_node_id = 0) then free_bytes_local m offset size else free_bytes_remote offset size.
Definition RemoteMemory_free_bytes (offset size : Z) : option MemoryImpl := free_bytes_remote offset size.

Definition free_bytes (c : memory_class) (my : Z) (m : MemoryImpl) (offset size : Z)
    : option MemoryImpl :=
  match c with
  | CLocalCPU => LocalCPUMemory_free_bytes m offset size
  | CGASNet => GASNetMemory_free_bytes my m offset size
  | CRemote => RemoteMemory_free_bytes offset size
  end.

(** The objects of all nodes for one memory. *)
Definition node_objs : Type := Z → MemoryImpl.
Definition set_obj (objs : node_objs) (n : Z) (m : MemoryImpl) : node_objs :=
  λ k, if decide (k = n) then m else objs k.

(** A call on [node]; [RemoteMemAllocRequest::handle_request] on the owner
    calls [alloc_bytes] again, and would wait in a handler if it had to ask. *)
Definition mem_alloc (owner : Z) (cls : Z → memory_class) (objs : node_objs) (node size : Z)
    : option (node_objs * Z) :=
  match alloc_bytes (cls node) node (objs node) size with
  | Allocated m offset => Some (set_obj objs node m, offset)
  | AskOwner =>
      match alloc_bytes (cls owner) owner (objs owner) size with
      | Allocated m offset => Some (set_obj objs owner m, offset)
      | AskOwner => None
      end
  end.

Fixpoint alloc_run (owner : Z) (cls : Z → memory_class) (objs : node_objs) (l : list (Z * Z))
    : option (node_objs * list Z) :=
  match l with
  | [] => Some (objs, [])
  | (node, size) :: l =>
      '(objs, r) ← mem_alloc owner cls objs node size;
      '(objs, rs) ← alloc_run owner cls objs l; Some (objs, r :: rs)
  end.

(** The reference: the calls made on the owner. *)
Fixpoint local_run (m : MemoryImpl) (sizes : list Z) : MemoryImpl * list Z :=
  match sizes with
  | [] => (m, [])
  | size :: sizes =>
      let '(m, r) := alloc_bytes_local m size in
      let '(m, rs) := local_run m sizes in (m, r :: rs)
  end.

(** A CPU memory is remote everywhere but on its owner; the global memory,
    owned by node 0, is the same class everywhere. *)
Definition placed (owner : Z) (cls : Z → memory_class) : Prop :=
  (∀ n, cls n = if decide (n = owner) then CLocalCPU else CRemote) ∨
  (owner = 0 ∧ ∀ n, cls n = CGASNet).

(** ** Remote reading and writing *)

(** "do_remote_write(me, offset, src, size, 0, true)" *)
Definition remote_put_bytes (fuel : nat) (lmb my : Z) (rm : RemoteMemory) (offset src size : Z)
    : option (list rw_request) :=
  let rdma := if decide (rm_regbase rm ≠ 0) then Some (rm_regbase rm) else None in
  '(l, _) ← do_remote_write_contig fuel lmb rdma (mkRwArgs (rm_me rm) offset my 0) src size true;
  Some l.

Definition remote_get_bytes `{GasnetRDMA} (my : Z) (rm : RemoteMemory) (w : World) (offset dst size : Z)
    : option World :=
  match RemoteMemory_kind rm with
  | MKIND_RDMA => Some (gasnet_get w my dst (rm_owner rm) (rm_regbase rm + offset) size)
  | _ => None
  end.

Definition remote_get_direct_ptr (rm : RemoteMemory) (offset size : Z) : Z := 0.
Definition remote_get_home_node (rm : RemoteMemory) (offset size : Z) : Z := rm_owner rm.

(** ** Allocation from any node *)

(** The block the [i]-th call was given. *)
Definition given (al : Z) (sizes rs : list Z) (i : nat) (s r : Z) (b : Z * Z) : Prop :=
  sizes !! i = Some s ∧ rs !! i = Some r ∧ r ≠ -1 ∧ b = (r, pad_size al s).

Lemma alloc_step m a s :
  mem_inv m a → 0 < s < 2 ^ 62 →
  let '(m', r) := alloc_bytes_local m s in
  mem_size m' = mem_size m ∧ alignment m' = alignment m ∧
  (r = -1 ∧ mem_inv m' a ∨ r ≠ -1 ∧ mem_inv m' ((r, pad_size (alignment m) s) :: a)).
Proof.
  intros H Hs. destruct (alloc_bytes_local_cases m a s H Hs)
    as [[-> _]|(f & n & m' & E & Hle & Hin & Hi & _ & Ea)]; [by auto|].
  pose proof (mem_inv_elem _ _ (f, n) H ltac:(set_solver)) as Hb. simpl in Hb.
  rewrite E. split; [|split; [done|right; split; [lia|done]]].
  rewrite (alloc_bytes_local_eq _ a) in E by done.
  destruct (alloc_scan_spec m (reverse (free_blocks m)) (pad_size (alignment m) s)
    ltac:(pose proof (pad_size_spec (alignment m) s (mi_align _ _ H) Hs); lia) (mem_inv_scan _ _ H))
    as [[_ E']|(ab & g & k & be & _ & _ & _ & E')]; rewrite E in E'; by simplify_eq.
Qed.

(** An allocated block lies in the memory, apart from the others. *)
Lemma mem_inv_block m b l a : mem_inv m (b :: l ++ a) →
  0 ≤ b.1 ∧ b.1 + b.2 ≤ mem_size m ∧ Forall (disjoint_spans b) (l ++ a).
Proof.
  intros H. pose proof (mem_inv_elem _ _ b H ltac:(set_solver)) as Hb. split; [lia|]. split; [lia|].
  apply Forall_forall. intros t Ht. pose proof (fl_tiled _ _ _ _ (mi_free _ _ H)) as Htl.
  rewrite <- Permutation_middle in Htl.
  apply (Tiled_elem_disjoint 0 (mem_size m) _ _ [_] (_ ++ l ++ a) Htl); set_solver.
Qed.

Lemma local_run_blocks sizes : ∀ m a, mem_inv m a → Forall (λ s, 0 < s < 2 ^ 62) sizes →
  let '(m', rs) := local_run m sizes in
  length rs = length sizes ∧ ∃ a', mem_inv m' (a' ++ a) ∧
    (∀ i s r b, given (alignment m) sizes rs i s r b → b ∈ a' ∧
       0 ≤ b.1 ∧ b.1 + b.2 ≤ mem_size m ∧ Forall (disjoint_spans b) a) ∧
    (∀ i j s r b s' r' b', given (alignment m) sizes rs i s r b →
       given (alignment m) sizes rs j s' r' b' → i ≠ j → disjoint_spans b b').
Proof.
  induction sizes as [|s0 sizes IH]; intros m a H Hall; simpl.
  { split; [done|]. exists []. unfold given. split_all; [done|..]; intros; naive_solver. }
  apply Forall_cons in Hall as [Hs Hall].
  pose proof (alloc_step m a s0 H Hs) as Hstep. destruct (alloc_bytes_local m s0) as [m1 r0].
  destruct Hstep as (Esz & Eal & Hcase). set (b0 := (r0, pad_size (alignment m) s0)) in *.
  set (a1 := if decide (r0 = -1) then [] else [b0]).
  assert (mem_inv m1 (a1 ++ a)) as H1.
  { unfold a1. destruct Hcase as [[-> ?]|[? ?]]; [done|by rewrite decide_False]. }
  specialize (IH m1 (a1 ++ a) H1 Hall). rewrite Eal, Esz in IH.
  destruct (local_run m1 sizes) as [m2 rs]. destruct IH as (Hlen & a2 & H2 & Hin & Hdis).
  split; [simpl; by rewrite Hlen|]. exists (a2 ++ a1). split; [by rewrite <- (assoc_L (++))|].
  assert (∀ s r b, given (alignment m) (s0 :: sizes) (r0 :: rs) 0 s r b → b = b0 ∧ a1 = [b0] ∧
    0 ≤ b0.1 ∧ b0.1 + b0.2 ≤ mem_size m ∧ Forall (disjoint_spans b0) a) as Hfirst.
  { intros s r b ([= ->] & [= ->] & Hr & ->). split; [done|]. unfold a1 in *.
    rewrite decide_False in H1 |- * by done. split; [done|].
    rewrite <- Esz. apply (mem_inv_block m1 b0 []). exact H1. }
  split.
  - intros [|i] s r b Hg.
    + destruct (Hfirst _ _ _ Hg) as (-> & -> & ?). split; [set_solver|done].
    + destruct (Hin i s r b Hg) as (? & ? & ? & [_ ?]%Forall_app). split; [set_solver|done].
  - assert (∀ j s r b s' r' b', given (alignment m) (s0 :: sizes) (r0 :: rs) 0 s r b →
      given (alignment m) (s0 :: sizes) (r0 :: rs) (S j) s' r' b' → disjoint_spans b' b) as Hzero.
    { intros j s r b s' r' b' Hg Hg'. destruct (Hfirst _ _ _ Hg) as (-> & Ea1 & _).
      destruct (Hin j s' r' b' Hg') as (_ & _ & _ & [Hd _]%Forall_app).
      rewrite Ea1 in Hd. by apply Forall_cons in Hd as [? _]. }
    intros [|i] [|j] s r b s' r' b' Hg Hg' Hne; [done|..].
    + specialize (Hzero _ _ _ _ _ _ _ Hg Hg'). unfold disjoint_spans in *. lia.
    + by eapply Hzero.
    + apply (Hdis i j s r b s' r' b' Hg Hg'). congruence.
Qed.

Lemma mem_alloc_owner owner cls objs node size : placed owner cls →
  mem_alloc owner cls objs node size =
    (let '(m, r) := alloc_bytes_local (objs owner) size in Some (set_obj objs owner m, r)).
Proof.
  intros Hp. unfold mem_alloc, alloc_bytes, LocalCPUMemory_alloc_bytes, GASNetMemory_alloc_bytes. destruct Hp as [Hc|[-> Hc]]; rewrite !Hc.
  - rewrite (decide_True (P := owner = owner)) by done. case_decide as Hn; [subst node|];
      by destruct (alloc_bytes_local (objs owner) size).
  - rewrite (decide_True (P := 0 = 0)) by done. case_decide as Hn; [subst node|];
      by destruct (alloc_bytes_local (objs 0) size).
Qed.

(** Whoever asks, it is the owner's allocator that runs. *)
Lemma alloc_run_local owner cls l : placed owner cls → ∀ objs,
  ∃ objs' rs, alloc_run owner cls objs l = Some (objs', rs) ∧
    local_run (objs owner) l.*2 = (objs' owner, rs) ∧ (∀ n, n ≠ owner → objs' n = objs n).
Proof.
  intros Hp. induction l as [|[node size] l IH]; intros objs; [by exists objs, []|].
  cbn [alloc_run]. rewrite mem_alloc_owner by done. rewrite fmap_cons. cbn [snd local_run].
  destruct (alloc_bytes_local (objs owner) size) as [m r]. cbn [mbind option_bind].
  destruct (IH (set_obj objs owner m)) as (objs' & rs & -> & El & Ho).
  unfold set_obj in El at 1. rewrite decide_True in El by done. rewrite El.
  exists objs', (r :: rs). split_all; [done..|]. intros n Hn. rewrite Ho by done.
  unfold set_obj. by rewrite decide_False.
Qed.

(** C29. Allocating is the same from everywhere.  For a CPU memory and for the
    global memory, any sequence of calls of [alloc_bytes] from any nodes is
    answered, each with at most one request to the owner, which never asks in
    turn; the results and the owner's state are those of the calls made on the
    owner in that order, and the other nodes' objects stay as they were.  Each
    call that succeeds is given a block of at least the size it asked for,
    inside the memory, apart from every block that was allocated before, and
    the blocks of different calls are apart from each other; the allocator then
    has all of them as allocated. *)
Theorem alloc_from_anywhere owner cls objs a l :
  placed owner cls → mem_inv (objs owner) a → Forall (λ s, 0 < s < 2 ^ 62) l.*2 →
  ∃ objs' rs, alloc_run owner cls objs l = Some (objs', rs) ∧
    local_run (objs owner) l.*2 = (objs' owner, rs) ∧ length rs = length l ∧
    (∀ n, n ≠ owner → objs' n = objs n) ∧
    (∀ i node s r, l !! i = Some (node, s) → rs !! i = Some r → r ≠ -1 →
       0 ≤ r ∧ r + s ≤ mem_size (objs owner) ∧ Forall (disjoint_spans (r, s)) a) ∧
    (∀ i j node s r node' s' r', l !! i = Some (node, s) → rs !! i = Some r → r ≠ -1 →
       l !! j = Some (node', s') → rs !! j = Some r' → r' ≠ -1 → i ≠ j →
       disjoint_spans (r, s) (r', s')) ∧
    ∃ a', mem_inv (objs' owner) (a' ++ a) ∧
      ∀ i node s r, l !! i = Some (node, s) → rs !! i = Some r → r ≠ -1 →
        (r, pad_size (alignment (objs owner)) s) ∈ a'.
Proof.
  intros Hp Hi Hs.
  assert (∃ objs' rs, alloc_run owner cls objs l = Some (objs', rs) ∧
    local_run (objs owner) l.*2 = (objs' owner, rs) ∧ (∀ n, n ≠ owner → objs' n = objs n))
    as (objs' & rs & E & El & Ho) by by apply alloc_run_local.
  exists objs', rs. pose proof (local_run_blocks l.*2 (objs owner) a Hi Hs) as Hb. rewrite El in Hb.
  destruct Hb as (Hlen & a' & Ha' & Hin & Hdis). set (al := alignment (objs owner)) in *.
  assert (∀ i node s r, l !! i = Some (node, s) → rs !! i = Some r → r ≠ -1 →
    given al l.*2 rs i s r (r, pad_size al s) ∧ s ≤ pad_size al s) as Hgiven.
  { intros i node s r Hl Hr Hne. split; [unfold given; split_all; [by rewrite list_lookup_fmap, Hl|done..]|].
    rewrite Forall_fmap, Forall_forall in Hs. specialize (Hs (node, s) (list_elem_of_lookup_2 _ _ _ Hl)).
    apply (pad_size_spec al s (mi_align _ _ Hi) Hs). }
  rewrite length_fmap in Hlen. split_all; try done.
  - intros i node s r Hl Hr Hne. destruct (Hgiven i node s r Hl Hr Hne) as [Hg Hle].
    destruct (Hin _ _ _ _ Hg) as (_ & ? & ? & Hd). simpl in *. split_all; [lia..|].
    eapply Forall_impl; [exact Hd|]. intros t. unfold disjoint_spans. simpl. lia.
  - intros i j node s r node' s' r' Hl Hr Hne Hl' Hr' Hne' Hij.
    destruct (Hgiven i node s r Hl Hr Hne) as [Hg Hle], (Hgiven j node' s' r' Hl' Hr' Hne') as [Hg' Hle'].
    pose proof (Hdis _ _ _ _ _ _ _ _ Hg Hg' Hij) as Hd. unfold disjoint_spans in *. simpl in *. lia.
  - exists a'. split; [done|]. intros i node s r Hl Hr Hne.
    destruct (Hgiven i node s r Hl Hr Hne) as [Hg _]. by apply (Hin _ _ _ _ Hg).
Qed.

(** Freeing is not: away from the owner it ends the process. *)
Lemma remote_free_aborts owner cls n m offset size :
  placed owner cls → n ≠ owner → free_bytes (cls n) n m offset size = None.
Proof.
  intros [Hc|[-> Hc]] Hn; rewrite Hc; unfold free_bytes, GASNetMemory_free_bytes; by rewrite decide_False.
Qed.

(** ** Writing and reading *)

Lemma mem_run_mem lm l : ∀ m t m' t' acks,
  mem_run lm m t l = Some (m', t', acks) → m' = foldl (mem_effect lm) m l.
Proof.
  induction l as [|e l IH]; intros m t m' t' acks; [by intros; simplify_eq/=|].
  cbn [mem_run foldl]. intros H.
  apply bind_Some in H as ([[m1 t1] ack] & Es & H). apply bind_Some in H as ([[m2 t2] a2] & Er & H).
  simplify_eq. apply IH in Er. rewrite Er. f_equal. destruct e as [a data bs|[s q] n f]; cbn [mem_step mem_effect] in *.
  - unfold handle_remote_write in Es. destruct (track_write _ _ _) in Es. by simplify_eq.
  - apply bind_Some in Es as ([t3 a3] & _ & E). by simplify_eq.
Qed.

(** Writes without a sequence number are never acknowledged. *)
Lemma mem_run_unfenced lm s l : ∀ m t m' t' acks,
  mem_run lm m t l = Some (m', t', acks) → filter (λ x, x.1.1 = (s, 0)) acks = [].
Proof.
  induction l as [|e l IH]; intros m t m' t' acks; [by intros; simplify_eq/=|].
  cbn [mem_run]. intros H.
  apply bind_Some in H as ([[m1 t1] ack] & Es & H). apply bind_Some in H as ([[m2 t2] a2] & Er & H).
  simplify_eq. apply IH in Er. destruct ack as [[snd f]|]; [|done].
  destruct (decide (ev_key (erase e) = (s, 0))) as [Hk|Hk]; [|by rewrite filter_cons_False].
  exfalso. destruct e as [a data bs|[s' q] n f']; simpl in *.
  - unfold args_key in Hk. injection Hk as _ Hq. unfold handle_remote_write, track_write in Es.
    rewrite Hq in Es. simpl in Es. by simplify_eq.
  - injection Hk as _ Hq. subst q. by unfold handle_fence in Es.
Qed.

Section remote.
Context `{GasnetRDMA} (lmb my : Z) (rm : RemoteMemory) (lm : LocalCPUMemory).
Context (Hlmb : 0 < lmb < 2 ^ 62).

(** C30. What is put remotely is what is got.  The messages of a [put_bytes] on
    a remote memory, delivered to the owner in any order among traffic that
    leaves the range alone, make the owner's memory hold the bytes a local
    [put_bytes] of the same source would have stored, and no acknowledgement
    is sent for them; and when the memory is registered, [get_bytes] on any
    other node then fetches these bytes and changes nothing else there. *)
Theorem remote_put_get fuel w offset src size reqs l t m' t' acks :
  0 < size → 0 ≤ offset → offset + size < 2 ^ 63 → (Z.to_nat size < fuel)%nat →
  remote_put_bytes fuel lmb my rm offset src size = Some reqs →
  k_writes (my, 0) l ≡ₚ (λ r, (rw_args r, payload_bytes (w my) (rw_src r))) <$> reqs →
  Forall (region_ok lm (my, 0) (lm_base lm + offset) size) l →
  mem_run lm (w (rm_owner rm)) t l = Some (m', t', acks) →
  read_bytes m' (lm_base lm + offset) size = read_bytes (w my) src size ∧
  filter (λ x, x.1.1 = (my, 0)) acks = [] ∧
  (∀ w' reader dst, w' (rm_owner rm) = m' → rm_regbase rm = lm_base lm → lm_base lm ≠ 0 →
    ∃ w'', remote_get_bytes reader rm w' offset dst size = Some w'' ∧
      read_bytes (w'' reader) dst size = read_bytes (w my) src size ∧
      ∀ n x, ¬ (n = reader ∧ dst ≤ x < dst + size) → w'' n x = w' n x).
Proof.
  intros Hs Ho Hlt Hf Eput Hw Hreg Hrun.
  set (a := mkRwArgs (rm_me rm) offset my 0) in *.
  unfold remote_put_bytes in Eput. set (rdma := if decide (rm_regbase rm ≠ 0) then _ else _) in *.
  assert (read_bytes m' (lm_base lm + offset) size = read_bytes (w my) src size) as Hput.
  { destruct (do_remote_write_pieces (w my) fuel lmb rdma a (ContiguousPayload src size PAYLOAD_COPY) true)
      as (l0 & E & _ & Hp & _); [simpl; lia..|].
    cbn [do_remote_write] in E. fold a in Eput. rewrite E in Eput. simpl in Eput. injection Eput as <-.
    rewrite contig_bytes in Hp. apply mem_run_mem in Hrun as ->.
    apply Permutation_map_inv in Hw as (reqs' & Ew & Hperm).
    rewrite (read_bytes_agree _ _ _ _ (mem_effect_region lm (my, 0) _ _ l _ _ Hreg ltac:(done))).
    assert (foldl (land_pair (lm_base lm)) (w (rm_owner rm)) (k_writes (my, 0) l) =
      foldl (land (w my) (lm_base lm)) (w (rm_owner rm)) reqs') as ->.
    { rewrite Ew. clear. generalize (w (rm_owner rm)). induction reqs' as [|r l IH]; intros t; [done|].
      simpl. apply IH. }
    rewrite (land_all (w my) a _ _ _ (lm_base lm) _ reqs' Hp) by by symmetry.
    apply read_write_same'. rewrite read_bytes_zlen; [done|lia]. }
  split; [done|]. split; [by eapply mem_run_unfenced|].
  intros w' reader dst Ew Hb Hnz. unfold remote_get_bytes, RemoteMemory_kind.
  rewrite decide_True by congruence. eexists. split; [done|].
  pose proof (gasnet_get_law w' reader dst (rm_owner rm) (rm_regbase rm + offset) size) as Hc.
  split.
  - rewrite <- Hput, <- Ew. apply list_eq. intros i. unfold read_bytes. rewrite !list_lookup_fmap.
    destruct (decide (Z.of_nat i < size)); [|by rewrite !lookup_seqZ_ge by lia].
    rewrite !lookup_seqZ_lt by lia. simpl. f_equal. rewrite Hc, Hb. unfold covers_at. simpl.
    rewrite decide_True by lia. f_equal. lia.
  - intros n x Hn. rewrite Hc. by rewrite decide_False.
Qed.
End remote.

(** ** Examples *)

Definition example_cls (n : Z) : memory_class := if decide (n = 2) then CLocalCPU else CRemote.

Lemma alloc_from_anywhere_witness :
  ∃ objs' rs, alloc_run 2 example_cls (λ _, mem_init 4096 256) [(1, 1000); (2, 500); (0, 5000)] = Some (objs', rs) ∧
    rs = [3072; 2560; -1] ∧ objs' 1 = mem_init 4096 256 ∧ disjoint_spans (3072, 1000) (2560, 500).
Proof.
  destruct (alloc_from_anywhere 2 example_cls (λ _, mem_init 4096 256) [] [(1, 1000); (2, 500); (0, 5000)])
    as (objs' & rs & E & El & _ & Ho & _ & Hdis & _).
  - left. intros n. reflexivity.
  - apply mem_init_inv; lia.
  - repeat (apply Forall_cons; split; [simpl; lia|]). by apply Forall_nil.
  - assert (rs = [3072; 2560; -1]) as Ers by (vm_compute in El; congruence).
    exists objs', rs. split; [exact E|]. split; [exact Ers|]. split; [by apply Ho|].
    rewrite Ers in Hdis. by apply (Hdis 0%nat 1%nat 1 1000 3072 2 500 2560).
Defined.

(** Node 1 writes ten bytes to a registered memory of node 2, which also gets
    a write of node 3; then node 3 reads. *)
Definition example_remote : RemoteMemory := mkRemote 7 2 4096 50000.
Definition example_world (n x : Z) : Z := n * 100 + x.
Definition example_arrivals : list mem_event :=
  [MWrite (mkRwArgs 7 600 3 0) 91000 [1; 2; 3];
   MWrite (mkRwArgs 7 64 1 0) 50064 (read_bytes (example_world 1) 1000 10)].

Definition example_final : mem :=
  foldl (mem_effect (mkLocal 50000 true true)) (example_world 2) example_arrivals.

Lemma remote_put_get_witness :
  ∃ m', mem_run (mkLocal 50000 true true) (example_world 2) ∅ example_arrivals = Some (m', ∅, []) ∧
    ∃ w'', remote_get_bytes 3 example_remote (λ n, if decide (n = 2) then m' else example_world n) 64 8000 10 = Some w'' ∧
      read_bytes (w'' 3) 8000 10 = read_bytes (example_world 1) 1000 10.
Proof.
  exists example_final.
  assert (mem_run (mkLocal 50000 true true) (example_world 2) ∅ example_arrivals = Some (example_final, ∅, [])) as E
    by (apply mem_run_split; reflexivity).
  split; [exact E|].
  destruct (remote_put_get 4 1 example_remote (mkLocal 50000 true true) ltac:(lia) 100 example_world 64 1000 10
    [contig_request (mkRwArgs 7 64 1 0) 1000 10 PAYLOAD_COPY 50064] example_arrivals ∅ example_final ∅ [])
    as (_ & _ & Hget); [lia|lia|lia|lia|reflexivity| | |exact E|].
  - rewrite fmap_cons. unfold rw_src, contig_request. rewrite contig_bytes. reflexivity.
  - apply Forall_cons. split; [|apply Forall_cons; split; [|by apply Forall_nil]];
      unfold region_ok, no_overlap, zlen; simpl.
    + split; [left; right; lia|right; right; lia].
    + split; [by right|by left].
  - destruct (Hget (λ n, if decide (n = 2) then example_final else example_world n) 3 8000) as (w'' & Eg & Hr & _); [reflexivity|reflexivity|done|].
    exists w''. split; [exact Eg|exact Hr].
Defined.
