(* ===== verification/Instances.v ===== *)
(** * Instance slots and storage

    The instance lists of [MemoryImpl] in src/templates/mem_impl.cc: slots of
    locally created instances with their free list, proxies of remotely
    created ones, and the requests that allocate and release storage on the
    node that owns the memory.  The width of an instance index, the range
    allocator and the instance metadata belong to other files and are
    parameters. *)

From S2P Require Import Prelude Spans.

(** ** Local instances *)

(** Objects are pointers, null where there is none; the free list is a vector
    whose last entry is taken first. *)
Record InstanceList := mkIl { il_instances : list Z; il_free : list Z }.

Definition resize (l : list Z) (n : Z) : list Z :=
  take (Z.to_nat n) l ++ replicate (Z.to_nat (n - zlen l)) 0.

Inductive slot_result :=
| NoSlot
| Slot (il : InstanceList) (inst_idx inst_impl : Z).

Section Slots.
Context (INSTANCE_INDEX_WIDTH : Z).

Definition index_limit : Z := Z.shiftl 1 INSTANCE_INDEX_WIDTH.

(** The first half of [new_instance], under the lock: a slot and the object to
    reuse, if any. *)
Definition new_instance_slot (il : InstanceList) : option slot_result :=
  if decide (il_free il = []) then
    let chunk_size := 8 in
    let old_size := zlen (il_instances il) in
    let new_size := old_size + chunk_size in
    let clipped := if decide (new_size > index_limit) then index_limit else new_size in
    if decide (new_size > index_limit ∧ old_size = clipped) then Some NoSlot
    else Some (Slot (mkIl (resize (il_instances il) clipped)
                       ((λ i, clipped - 1 - i) <$> seqZ 0 (chunk_size - 1)))
                 old_size 0)
  else
    inst_idx ← last (il_free il);
    inst_impl ← aget (il_instances il) inst_idx;
    Some (Slot (mkIl (il_instances il) (removelast (il_free il))) inst_idx inst_impl).

(** The second half, when there was none: the new object is stored. *)
Definition install_instance (il : InstanceList) (inst_idx obj : Z) : InstanceList :=
  mkIl (aset (il_instances il) inst_idx obj) (il_free il).

Definition release_instance (il : InstanceList) (inst_idx : Z) : InstanceList :=
  mkIl (il_instances il) (il_free il ++ [inst_idx]).

(** [get_instance] of a locally created one. *)
Definition get_local_instance (il : InstanceList) (idx : Z) : option Z :=
  assert! idx < zlen (il_instances il);
  impl ← aget (il_instances il) idx;
  assert! impl ≠ 0;
  Some impl.

(** ** Threads creating and releasing instances *)

(** [making]: slots taken by a thread that is creating the object; [live]:
    instances handed out and not released. *)
Record slot_sys := mkSlots { slots : InstanceList; making : list Z; live : list Z }.

Inductive slot_step : slot_sys → slot_sys → Prop :=
| step_reuse s il idx impl :
    new_instance_slot (slots s) = Some (Slot il idx impl) → impl ≠ 0 →
    slot_step s (mkSlots il (making s) (idx :: live s))
| step_begin s il idx :
    new_instance_slot (slots s) = Some (Slot il idx 0) →
    slot_step s (mkSlots il (idx :: making s) (live s))
| step_install s idx rest obj :
    making s ≡ₚ idx :: rest → obj ≠ 0 → obj ∉ il_instances (slots s) →
    slot_step s (mkSlots (install_instance (slots s) idx obj) rest (idx :: live s))
| step_release s idx rest :
    live s ≡ₚ idx :: rest →
    slot_step s (mkSlots (release_instance (slots s) idx) (making s) rest).

(** The slots are partitioned; live ones have objects, no two the same. *)
Record slot_inv (s : slot_sys) : Prop := {
  si_part : il_free (slots s) ++ making s ++ live s ≡ₚ seqZ 0 (zlen (il_instances (slots s)));
  si_div : (8 | zlen (il_instances (slots s)));
  si_le : zlen (il_instances (slots s)) ≤ index_limit;
  si_making i : i ∈ making s → aget (il_instances (slots s)) i = Some 0;
  si_live i : i ∈ live s → ∃ p, aget (il_instances (slots s)) i = Some p ∧ p ≠ 0;
  si_objects i j p : aget (il_instances (slots s)) i = Some p →
    aget (il_instances (slots s)) j = Some p → p ≠ 0 → i = j }.

Context (width_ok : 3 ≤ INSTANCE_INDEX_WIDTH < 31).

Lemma index_limit_div : (8 | index_limit) ∧ 8 ≤ index_limit.
Proof.
  unfold index_limit. rewrite Z.shiftl_1_l.
  replace INSTANCE_INDEX_WIDTH with (3 + (INSTANCE_INDEX_WIDTH - 3)) by lia.
  rewrite Z.pow_add_r by lia. change (2 ^ 3) with 8.
  pose proof (Z.pow_pos_nonneg 2 (INSTANCE_INDEX_WIDTH - 3) ltac:(lia) ltac:(lia)).
  split; [by eexists (2 ^ _); rewrite Z.mul_comm|lia].
Qed.

(** Growing by a chunk never has to be clipped. *)
Lemma new_slot_cases s : slot_inv s →
  (new_instance_slot (slots s) = Some NoSlot ∧ il_free (slots s) = [] ∧
   zlen (il_instances (slots s)) = index_limit) ∨
  (let n := zlen (il_instances (slots s)) in
   il_free (slots s) = [] ∧ n + 8 ≤ index_limit ∧
   new_instance_slot (slots s) =
     Some (Slot (mkIl (il_instances (slots s) ++ replicate 8 0) ((λ i, n + 7 - i) <$> seqZ 0 7)) n 0)) ∨
  ∃ fs idx impl, il_free (slots s) = fs ++ [idx] ∧ aget (il_instances (slots s)) idx = Some impl ∧
    new_instance_slot (slots s) = Some (Slot (mkIl (il_instances (slots s)) fs) idx impl).
Proof.
  intros H. destruct index_limit_div as [Hdiv H8]. unfold new_instance_slot.
  destruct (decide (il_free (slots s) = [])) as [Hnil|Hne].
  - set (n := zlen (il_instances (slots s))) in *. destruct (si_div _ H) as [q Hq].
    destruct Hdiv as [q' Hq']. pose proof (si_le _ H) as Hle. fold n in Hq, Hle.
    pose proof (zlen_nonneg (il_instances (slots s))) as Hn. fold n in Hn.
    destruct (decide (n + 8 > index_limit)) as [Hbig|Hsmall].
    + left. assert (n = index_limit) as E by lia. by rewrite decide_True by done.
    + right. left. split; [done|]. split; [lia|]. rewrite decide_False by tauto.
      do 3 f_equal; [|apply list_fmap_ext; intros; lia]. unfold resize. fold n.
      rewrite take_ge by (unfold n, zlen; lia). replace (n + 8 - n) with 8 by lia. done.
  - right. right. destruct (exists_last Hne) as (fs & idx & E).
    assert (idx ∈ seqZ 0 (zlen (il_instances (slots s)))) as Hin.
    { rewrite <- (si_part _ H), E. set_solver. }
    apply elem_of_seqZ in Hin. destruct (aget_is_Some (il_instances (slots s)) idx) as [impl Ei]; [lia|].
    exists fs, idx, impl. split; [done|]. split; [done|].
    by rewrite E, last_snoc, removelast_last; simpl; rewrite Ei.
Qed.

Lemma aget_replicate_zero (l : list Z) k i : zlen l ≤ i < zlen l + Z.of_nat k →
  aget (l ++ replicate k 0) i = Some 0.
Proof.
  intros Hi. rewrite aget_app_r by lia. unfold aget. rewrite decide_True by lia.
  apply lookup_replicate_2. lia.
Qed.

Lemma grow_inv s : slot_inv s → il_free (slots s) = [] →
  let n := zlen (il_instances (slots s)) in n + 8 ≤ index_limit →
  slot_inv (mkSlots (mkIl (il_instances (slots s) ++ replicate 8 0) ((λ i, n + 7 - i) <$> seqZ 0 7))
              (n :: making s) (live s)).
Proof.
  intros [Hp Hd Hle Hm Hl Ho] Hnil n Hn. rewrite Hnil in Hp. simpl in Hp. fold n in Hp, Hd.
  pose proof (zlen_nonneg (il_instances (slots s))) as H0. fold n in H0.
  assert (∀ i, i < n → aget (il_instances (slots s) ++ replicate 8 0) i = aget (il_instances (slots s)) i)
    as Hold by (intros; by apply aget_app_l).
  assert (∀ i, n ≤ i < n + 8 → aget (il_instances (slots s) ++ replicate 8 0) i = Some 0) as Hnew
    by (intros; by apply aget_replicate_zero).
  assert (∀ i, i ∈ making s ++ live s → 0 ≤ i < n) as Hr.
  { intros i Hi. rewrite Hp in Hi. apply elem_of_seqZ in Hi. lia. }
  assert (zlen (il_instances (slots s) ++ replicate 8 0) = n + 8) as Elen by (by rewrite zlen_app).
  split; cbn [slots making live il_instances il_free]; rewrite ?Elen.
  - change ((n :: making s) ++ live s) with ([n] ++ (making s ++ live s)). rewrite Hp.
    rewrite seqZ_app by lia. rewrite (Permutation_app_comm (seqZ 0 n)), (assoc_L (++)).
    apply Permutation_app_tail. etrans; [|apply reverse_Permutation]. match goal with |- ?x ≡ₚ ?y => assert (x = y) as ->; [|done] end.
    unfold seqZ, reverse. simpl Z.to_nat. simpl seq. rewrite !fmap_cons, !fmap_nil. cbn [rev_append app].
    repeat (f_equal; [lia|]). f_equal. lia.
  - destruct Hd as [q ->]. exists (q + 1). lia.
  - done.
  - intros i [->|Hi]%elem_of_cons; [apply Hnew; lia|].
    rewrite Hold; [by apply Hm|]. apply Hr. set_solver.
  - intros i Hi. rewrite Hold; [by apply Hl|]. apply Hr. set_solver.
  - intros i j p Hi Hj Hpn.
    pose proof (aget_Some_range _ _ _ Hi) as Ri. pose proof (aget_Some_range _ _ _ Hj) as Rj.
    rewrite Elen in Ri, Rj.
    assert (∀ i, 0 ≤ i < n + 8 → aget (il_instances (slots s) ++ replicate 8 0) i = Some p → i < n) as Hlt.
    { intros k Rk Hk. destruct (Z.lt_ge_cases k n); [done|]. rewrite Hnew in Hk by lia. congruence. }
    rewrite Hold in Hi by auto. rewrite Hold in Hj by auto. by eapply Ho.
Qed.

Lemma slot_step_inv s s' : slot_inv s → slot_step s s' → slot_inv s'.
Proof.
  intros H Hstep. revert H.
  destruct Hstep as [s il idx impl E Hi|s il idx E|s idx rest obj Hm Ho Hfresh|s idx rest Hl]; intros H.
  - destruct (new_slot_cases s H) as [(E' & _)|[(_ & _ & E')|(fs & idx' & impl' & Ef & Ei & E')]];
      rewrite E in E'; simplify_eq.
    pose proof H as [Hp Hd Hle Hm Hl Hobj]. rewrite Ef in Hp. split; simpl; try done.
    + rewrite <- Hp. solve_Permutation.
    + intros i [->|Hin]%elem_of_cons; [by exists impl'|by apply Hl].
  - destruct (new_slot_cases s H) as [(E' & _)|[(Hnil & Hn & E')|(fs & idx' & impl' & Ef & Ei & E')]];
      rewrite E in E'; simplify_eq; [by apply grow_inv|].
    pose proof H as [Hp Hd Hle Hm Hl Hobj]. rewrite Ef in Hp. split; simpl; try done.
    + rewrite <- Hp. solve_Permutation.
    + intros i [->|Hin]%elem_of_cons; [done|by apply Hm].
  - pose proof H as [Hp Hd Hle Hmk Hl Hobj].
    assert (aget (il_instances (slots s)) idx = Some 0) as Hz by (apply Hmk; rewrite Hm; set_solver).
    pose proof (aget_Some_range _ _ _ Hz) as Hr.
    assert (∀ i p, aget (aset (il_instances (slots s)) idx obj) i = Some p →
      i = idx ∧ p = obj ∨ i ≠ idx ∧ aget (il_instances (slots s)) i = Some p) as Hcase.
    { intros i p Hi. destruct (decide (i = idx)) as [->|Hne].
      - left. rewrite aget_aset_eq in Hi by done. split; congruence.
      - right. by rewrite aget_aset_ne in Hi. }
    assert (zlen (aset (il_instances (slots s)) idx obj) = zlen (il_instances (slots s))) as Elen
      by (unfold zlen; by rewrite aset_length).
    rewrite Hm in Hp.
    assert (NoDup (idx :: rest)) as [Hni _]%NoDup_cons.
    { assert (NoDup (il_free (slots s) ++ (idx :: rest) ++ live s)) as Hnd
        by (rewrite Hp; apply NoDup_seqZ).
      apply NoDup_app in Hnd as (_ & _ & Hnd). by apply NoDup_app in Hnd as (? & _). }
    split; simpl; rewrite ?Elen; try done.
    + rewrite <- Hp. solve_Permutation.
    + intros i Hi. rewrite aget_aset_ne by (intros ->; done). apply Hmk. rewrite Hm. set_solver.
    + intros i [->|Hin]%elem_of_cons; [exists obj; by rewrite aget_aset_eq|].
      destruct (Hl i Hin) as (p & Hip & Hpn). exists p. rewrite aget_aset_ne; [done|].
      intros ->. congruence.
    + intros i j p Hi Hj Hpn. destruct (Hcase i p Hi) as [[-> ->]|[Hni1 Hi']], (Hcase j _ Hj) as [[-> E]|[Hnj Hj']];
        try done.
      * destruct Hfresh. unfold aget in Hj'. case_decide; [|done]. by eapply list_elem_of_lookup_2.
      * subst. destruct Hfresh. unfold aget in Hi'. case_decide; [|done]. by eapply list_elem_of_lookup_2.
      * by eapply Hobj.
  - pose proof H as [Hp Hd Hle Hm Hlv Hobj]. rewrite Hl in Hp. split; simpl; try done.
    + rewrite <- Hp. solve_Permutation.
    + intros i Hi. apply Hlv. rewrite Hl. set_solver.
Qed.

Definition slots_start : slot_sys := mkSlots (mkIl [] []) [] [].

Lemma slots_start_inv : slot_inv slots_start.
Proof.
  destruct index_limit_div. split; simpl; try done; try set_solver.
  - by exists 0.
  - unfold zlen. simpl. lia.
  - intros i j p Hi. by rewrite aget_nil in Hi.
Qed.

Lemma slots_rtc_inv s s' : rtc slot_step s s' → slot_inv s → slot_inv s'.
Proof. induction 1; [done|]. eauto using slot_step_inv. Qed.

(** What [new_instance_slot] finds in a state the threads can reach. *)
Lemma new_slot_free s : slot_inv s →
  match new_instance_slot (slots s) with
  | Some (Slot _ idx impl) => 0 ≤ idx < index_limit ∧ idx ∉ making s ++ live s ∧
      ∀ i, i ∈ live s → aget (il_instances (slots s)) i = Some impl → impl = 0
  | Some NoSlot => making s ++ live s ≡ₚ seqZ 0 index_limit
  | None => False
  end.
Proof.
  intros H. pose proof H as [Hp Hd Hle Hm Hl Ho].
  assert (NoDup (il_free (slots s) ++ making s ++ live s)) as Hnd by (rewrite Hp; apply NoDup_seqZ).
  apply NoDup_app in Hnd as (_ & Hdis & _). pose proof (zlen_nonneg (il_instances (slots s))).
  destruct (new_slot_cases s H) as [(-> & Hnil & El)|[(Hnil & Hn & ->)|(fs & idx & impl & Ef & Ei & ->)]].
  - by rewrite Hnil, El in Hp.
  - split; [lia|]. split; [|done].
    intros Hin. rewrite Hnil in Hp. simpl in Hp. rewrite Hp in Hin. apply elem_of_seqZ in Hin. lia.
  - pose proof (aget_Some_range _ _ _ Ei). split; [lia|].
    assert (idx ∉ making s ++ live s) as Hni by (apply Hdis; rewrite Ef; set_solver).
    split; [done|]. intros i Hi Hii. destruct (decide (impl = 0)) as [|Hpn]; [done|].
    rewrite (Ho _ _ _ Ei Hii Hpn) in Hni. set_solver.
Qed.

(** C37. Instance slots are handed out safely.  However threads interleave
    creating, installing and releasing instances, a local lookup of a live
    instance succeeds and no two live instances share a slot or an object.
    Creating one never indexes outside the lists; it gives up exactly when all
    2^width slots are taken, and otherwise gives a slot below that limit that
    no one holds, with an object to reuse that no live instance has, if any. *)
Theorem instance_slots_safe s :
  rtc slot_step slots_start s →
  NoDup (making s ++ live s) ∧ Forall (λ i, 0 ≤ i < index_limit) (making s ++ live s) ∧
  (∀ i, i ∈ live s → is_Some (get_local_instance (slots s) i)) ∧
  (∀ i j, i ∈ live s → j ∈ live s →
     get_local_instance (slots s) i = get_local_instance (slots s) j → i = j) ∧
  (new_instance_slot (slots s) = Some NoSlot ↔ making s ++ live s ≡ₚ seqZ 0 index_limit) ∧
  match new_instance_slot (slots s) with
  | Some (Slot _ idx impl) => 0 ≤ idx < index_limit ∧ idx ∉ making s ++ live s ∧
      (impl ≠ 0 → ∀ i, i ∈ live s → get_local_instance (slots s) i ≠ Some impl)
  | Some NoSlot => True
  | None => False
  end.
Proof.
  intros Hr. pose proof (slots_rtc_inv _ _ Hr slots_start_inv) as H.
  pose proof H as [Hp Hd Hle Hm Hl Ho].
  assert (NoDup (il_free (slots s) ++ making s ++ live s)) as Hnd by (rewrite Hp; apply NoDup_seqZ).
  assert (∀ i, i ∈ live s → ∃ p, get_local_instance (slots s) i = Some p ∧ p ≠ 0 ∧
    aget (il_instances (slots s)) i = Some p) as Hget.
  { intros i Hi. destruct (Hl i Hi) as (p & Hip & Hpn). exists p. split; [|done].
    pose proof (aget_Some_range _ _ _ Hip). unfold get_local_instance.
    rewrite assert_true by lia. rewrite Hip. simpl. by rewrite assert_true. }
  pose proof Hnd as (_ & _ & Hnd')%NoDup_app. pose proof (new_slot_free s H) as Hslot.
  split_all; [done| | | | |].
  - apply Forall_forall. intros i Hi.
    assert (i ∈ seqZ 0 (zlen (il_instances (slots s)))) as Hin by (rewrite <- Hp; set_solver).
    apply elem_of_seqZ in Hin. lia.
  - intros i Hi. destruct (Hget i Hi) as (p & -> & _). by eexists.
  - intros i j Hi Hj E. destruct (Hget i Hi) as (p & Ei & Hpn & Hip), (Hget j Hj) as (q & Ej & _ & Hjq).
    eapply Ho; [exact Hip| |done]. congruence.
  - destruct (new_instance_slot (slots s)) as [[|il idx impl]|]; [done| |done].
    split; [done|]. intros Hall. destruct Hslot as (Hi & Hni & _). destruct Hni.
    rewrite Hall. apply elem_of_seqZ. lia.
  - destruct (new_instance_slot (slots s)) as [[|il idx impl]|]; [done| |done].
    destruct Hslot as (Hi & Hni & Hobj). split; [done|]. split; [done|]. intros Hpn i Hin E.
    destruct (Hget i Hin) as (p & Ep & _ & Hip). apply Hpn, (Hobj i Hin). congruence.
Qed.
End Slots.

(** Two threads create an instance and one is released. *)
Lemma instance_slots_safe_witness :
  let s := mkSlots (mkIl [900; 0; 0; 0; 0; 0; 0; 0] [7; 6; 5; 4; 3; 2; 0]) [1] [] in
  NoDup (making s ++ live s) ∧
  (new_instance_slot 13 (slots s) = Some NoSlot ↔ making s ++ live s ≡ₚ seqZ 0 (index_limit 13)) ∧
  match new_instance_slot 13 (slots s) with
  | Some (Slot _ idx _) => 0 ≤ idx < 8192 ∧ idx ∉ making s ++ live s
  | Some NoSlot => True
  | None => False
  end.
Proof.
  intros s. destruct (instance_slots_safe 13 ltac:(lia) s) as (H1 & _ & _ & _ & H2 & H3).
  - eapply rtc_l; [apply step_begin; reflexivity|].
    eapply rtc_l; [apply step_begin; reflexivity|].
    eapply rtc_l; [apply (step_install _ _ 0 [1] 900); [apply perm_swap|done|vm_compute; set_solver]|].
    eapply rtc_l; [apply (step_release _ _ 0 []); reflexivity|].
    apply rtc_refl.
  - split; [exact H1|]. split; [exact H2|]. simpl in H3. simpl. destruct H3 as (Hi & Hni & _).
    split; [exact Hi|exact Hni].
Defined.

(** ** Looking an instance up *)

(** [get_instance] on node [my]: local instances must exist; for the others a
    list per creator is kept, with a proxy (at the fresh address [fresh]) made
    when an instance is seen for the first time. *)
Definition get_instance (my : Z) (local : InstanceList) (by_creator : gmap Z (list Z))
    (fresh cnode idx : Z) : option (gmap Z (list Z) * Z) :=
  if decide (cnode = my) then impl ← get_local_instance local idx; Some (by_creator, impl)
  else
    let ilist : list Z := default [] (by_creator !! cnode) in
    let ilist := if decide (zlen ilist ≤ idx) then resize ilist (idx + 1) else ilist in
    impl ← aget ilist idx;
    if decide (impl = 0) then Some (<[cnode := aset ilist idx fresh]> by_creator, fresh)
    else Some (<[cnode := ilist]> by_creator, impl).

Lemma resize_spec l n i : zlen l ≤ n → 0 ≤ i < n →
  zlen (resize l n) = n ∧ aget (resize l n) i = Some (default 0 (aget l i)).
Proof.
  intros Hn Hi. unfold resize. rewrite take_ge by (unfold zlen in Hn; lia).
  pose proof (zlen_nonneg l). split.
  - rewrite zlen_app. unfold zlen at 2. rewrite length_replicate. lia.
  - destruct (Z.lt_ge_cases i (zlen l)) as [Hlt|Hge].
    + rewrite aget_app_l by done. by destruct (aget_is_Some l i) as [x ->]; [lia|].
    + rewrite aget_replicate_zero by lia. unfold aget.
      rewrite decide_True by lia. unfold zlen in Hge. by rewrite lookup_ge_None_2 by lia.
Qed.

(** A proxy, once made, is found again, whatever else is looked up between. *)
Lemma get_instance_again my local bc fresh cnode idx bc' p fresh' :
  get_instance my local bc fresh cnode idx = Some (bc', p) → cnode ≠ my → fresh ≠ 0 → 0 ≤ idx →
  p ≠ 0 ∧ ∃ bc'', get_instance my local bc' fresh' cnode idx = Some (bc'', p).
Proof.
  intros E Hc Hf Hi. unfold get_instance in E. rewrite decide_False in E by done. cbv zeta in E.
  set (l0 := default [] (bc !! cnode)) in *.
  set (l := if decide (zlen l0 ≤ idx) then resize l0 (idx + 1) else l0) in *.
  destruct (aget l idx) as [q|] eqn:Eq; [|done]. simpl in E.
  pose proof (aget_Some_range _ _ _ Eq) as Hr.
  assert (∃ l', bc' !! cnode = Some l' ∧ aget l' idx = Some p ∧ p ≠ 0) as (l' & El & Ep & Hp).
  { case_decide; simplify_eq; eexists; rewrite lookup_insert_eq; split; try done.
    split; [by rewrite aget_aset_eq|done]. }
  split; [done|]. unfold get_instance. rewrite decide_False by done. rewrite El. simpl.
  pose proof (aget_Some_range _ _ _ Ep). rewrite (decide_False (P := _ ≤ idx)) by lia. rewrite Ep. simpl.
  rewrite decide_False by done. by eexists.
Qed.

(** ** Storage requests *)

Inductive storage_msg :=
| AllocRequest (inst bytes alignment offset : Z)
| AllocResponse (inst offset : Z) (success : bool)
| ReleaseRequest (inst : Z)
| ReleaseResponse (inst : Z).

Inductive storage_action :=
| SendStorage (target : Z) (msg : storage_msg)
| NotifyAllocation (inst : Z) (success : bool) (offset : Z)
| NotifyDeallocation (inst : Z).

Section Storage.
(** The owner of the memory, the creator of an instance, and the range
    allocator; [ra_allocate] is given the offset and may change it. *)
Context {A : Type} (owner : Z) (creator : Z → Z).
Context (ra_allocate : A → Z → Z → Z → Z → A * bool * Z) (ra_deallocate : A → Z → A).

Definition allocate_instance_storage (my : Z) (a : A) (inst bytes alignment offset : Z)
    : A * list storage_action * bool :=
  if decide (owner ≠ my) then
    (a, [SendStorage owner (AllocRequest inst bytes alignment offset)], false)
  else
    let '(a, ok, offset) := ra_allocate a inst bytes alignment offset in
    (a, [if decide (creator inst = my) then NotifyAllocation inst ok offset
         else SendStorage (creator inst) (AllocResponse inst offset ok)], true).

(** [inst_offset] is the offset in the node's metadata of the instance, with
    -1 for unallocated and -2 for a failed allocation, as size_t values;
    [triggered] the state of the precondition. *)
Definition release_instance_storage (my : Z) (a : A) (inst inst_offset : Z) (triggered : bool)
    : option (A * list storage_action) :=
  if decide (owner ≠ my) then Some (a, [SendStorage owner (ReleaseRequest inst)])
  else
    assert! triggered = true;
    assert! inst_offset ≠ 2 ^ 64 - 1;
    let a := if decide (inst_offset ≠ 2 ^ 64 - 2) then ra_deallocate a inst else a in
    Some (a, [if decide (creator inst = my) then NotifyDeallocation inst
              else SendStorage (creator inst) (ReleaseResponse inst)]).

(** The four handlers. *)
Definition handle_storage (my : Z) (a : A) (inst_offset : Z) (triggered : bool) (msg : storage_msg)
    : option (A * list storage_action) :=
  match msg with
  | AllocRequest inst bytes alignment offset =>
      Some (allocate_instance_storage my a inst bytes alignment offset).1
  | AllocResponse inst offset success => Some (a, [NotifyAllocation inst success offset])
  | ReleaseRequest inst => release_instance_storage my a inst inst_offset triggered
  | ReleaseResponse inst => Some (a, [NotifyDeallocation inst])
  end.

(** Deliver what an action sends until a notification comes out: where it is,
    and the allocator of the owner after it. *)
Fixpoint settle (fuel : nat) (a : A) (my : Z) (act : storage_action) : option (A * Z * storage_action) :=
  match fuel with
  | O => None
  | S fuel =>
      match act with
      | SendStorage target msg =>
          '(a, acts) ← handle_storage target a 0 true msg;
          match acts with [act] => settle fuel a target act | _ => None end
      | _ => Some (a, my, act)
      end
  end.

(** Wherever an allocation is asked for, the owner's allocator answers once
    and the answer arrives at the creator. *)
Lemma allocation_notified my a inst bytes alignment offset :
  let '(a', ok, off) := ra_allocate a inst bytes alignment offset in
  let '(a0, acts, now) := allocate_instance_storage my a inst bytes alignment offset in
  ∃ act, acts = [act] ∧ now = bool_decide (owner = my) ∧
    (my = creator inst ∨ owner = my →
     settle 3 a0 my act = Some (a', creator inst, NotifyAllocation inst ok off)).
Proof.
  unfold allocate_instance_storage. destruct (ra_allocate a inst bytes alignment offset) as [[a' ok] off] eqn:E.
  destruct (decide (owner = my)) as [<-|Hne].
  - rewrite decide_False by tauto. eexists. split; [done|]. rewrite bool_decide_true by done. split; [done|].
    intros _. case_decide as Hc; [|done]. by rewrite <- Hc.
  - rewrite decide_True by done. eexists. split; [done|]. rewrite bool_decide_false by done. split; [done|].
    intros [->|?]; [|done]. simpl. unfold allocate_instance_storage. rewrite decide_False by tauto.
    rewrite E. simpl. by rewrite decide_False.
Qed.
End Storage.
