(* ===== verification/Future.v ===== *)
(** * Reply futures and remote allocation

    [HandlerReplyFuture] of src/templates/activemsg.h, statement by statement:
    a handler sets the value under a lock while a thread waits for it, and
    [RemoteMemAllocRequest] of src/templates/mem_impl.cc, which uses one to
    bring an offset back from the node that owns the memory. *)

From S2P Require Import Prelude StdMap Spans MemAlloc.

(** ** The future *)

(** Where the thread in [set], and the one in [wait] and [get], are. *)
Inductive setter_pc := SetLock | SetValid | SetValue | SetBroadcast | SetUnlock | SetDone.
Inductive waiter_pc :=
| WaitCheck                    (* "if(valid) return" *)
| WaitLock                     (* about to take the mutex *)
| WaitTest                     (* "while(!valid)", holding it *)
| WaitSleep                    (* in condvar.wait() *)
| WaitUnlock
| GetValue (early : bool)      (* about to read [value] *)
| GotValue (early : bool) (result : Z).

Inductive holder := Nobody | Setter | Waiter.

Record Future := mkFuture {
  valid : bool;
  value : Z;
  mutex : holder;
  setter : setter_pc;
  waiter : waiter_pc }.

(** [HandlerReplyFuture()] leaves the value as it finds it. *)
Definition Future_init (garbage : Z) : Future :=
  mkFuture false garbage Nobody SetLock WaitCheck.

(** One statement of [set]. *)
Definition set_step (newval : Z) (f : Future) : option Future :=
  match setter f with
  | SetLock =>
      match mutex f with
      | Nobody => Some (mkFuture (valid f) (value f) Setter SetValid (waiter f))
      | _ => None
      end
  | SetValid => Some (mkFuture true (value f) (mutex f) SetValue (waiter f))
  | SetValue => Some (mkFuture (valid f) newval (mutex f) SetBroadcast (waiter f))
  | SetBroadcast =>
      Some (mkFuture (valid f) (value f) (mutex f) SetUnlock
              (match waiter f with WaitSleep => WaitLock | w => w end))
  | SetUnlock => Some (mkFuture (valid f) (value f) Nobody SetDone (waiter f))
  | SetDone => None
  end.

(** One statement of [wait] and then [get]; waking up takes the mutex
    again. *)
Definition wait_step (f : Future) : option Future :=
  match waiter f with
  | WaitCheck =>
      Some (mkFuture (valid f) (value f) (mutex f) (setter f)
              (if valid f then GetValue true else WaitLock))
  | WaitLock =>
      match mutex f with
      | Nobody => Some (mkFuture (valid f) (value f) Waiter (setter f) WaitTest)
      | _ => None
      end
  | WaitTest =>
      Some (if valid f then mkFuture (valid f) (value f) (mutex f) (setter f) WaitUnlock
            else mkFuture (valid f) (value f) Nobody (setter f) WaitSleep)
  | WaitSleep => None
  | WaitUnlock => Some (mkFuture (valid f) (value f) Nobody (setter f) (GetValue false))
  | GetValue early =>
      Some (mkFuture (valid f) (value f) (mutex f) (setter f) (GotValue early (value f)))
  | GotValue _ _ => None
  end.

Inductive future_step (newval : Z) (f f' : Future) : Prop :=
| step_set : set_step newval f = Some f' → future_step newval f f'
| step_wait : wait_step f = Some f' → future_step newval f f'.

Definition past_value (f : Future) : bool :=
  match setter f with SetBroadcast | SetUnlock | SetDone => true | _ => false end.

Definition setter_inside (f : Future) : bool :=
  match setter f with SetLock | SetDone => false | _ => true end.

Definition waiter_inside (f : Future) : bool :=
  match waiter f with WaitTest | WaitUnlock => true | _ => false end.

Record future_inv (newval : Z) (f : Future) : Prop := {
  fi_mutex : mutex f = if setter_inside f then Setter else if waiter_inside f then Waiter else Nobody;
  fi_excl : setter_inside f && waiter_inside f = false;
  fi_valid : valid f = match setter f with SetLock | SetValid => false | _ => true end;
  fi_value : past_value f = true → value f = newval;
  fi_waiter : match waiter f with
    | WaitUnlock => setter f = SetDone
    | GetValue false => setter f = SetDone
    | GotValue false r => setter f = SetDone ∧ r = newval
    | WaitSleep => setter f ≠ SetUnlock ∧ setter f ≠ SetDone
    | _ => True
    end }.

Lemma future_step_inv newval f f' : future_inv newval f → future_step newval f f' → future_inv newval f'.
Proof.
  destruct f as [vd vl mx st wt]. intros [Hm He Hv Hvl Hw] [E|E];
    unfold set_step, wait_step, past_value, setter_inside, waiter_inside in *; simpl in *;
    destruct st, wt; simpl in *; subst mx vd; simplify_eq/=; try done;
    try match goal with b : bool |- _ => destruct b end; simplify_eq/=; try done;
    split; simpl; try done; try tauto; try (split; congruence); auto; destruct Hw; discriminate.
Qed.

Lemma future_reachable_inv newval garbage f :
  rtc (future_step newval) (Future_init garbage) f → future_inv newval f.
Proof.
  assert (future_inv newval (Future_init garbage)) as H0 by (by split).
  intros Hr. revert H0. induction Hr; [done|]. eauto using future_step_inv.
Qed.

(** C36. A waiter that had to wait gets the value that was set, and none is
    left waiting.  In every interleaving of [set] with [wait] and [get] the
    mutex is held by one thread at most, a result read after waiting is the
    new value, a waiter asleep when [set] has returned is impossible, and as
    long as the waiter has no result one of the two threads can go on. *)
Theorem future_waiter_correct newval garbage f :
  rtc (future_step newval) (Future_init garbage) f →
  setter_inside f && waiter_inside f = false ∧
  (∀ r, waiter f = GotValue false r → r = newval) ∧
  (setter f = SetDone → waiter f ≠ WaitSleep ∧ value f = newval) ∧
  ((∀ early r, waiter f ≠ GotValue early r) → ∃ f', future_step newval f f').
Proof.
  intros Hr. destruct (future_reachable_inv _ _ _ Hr) as [Hm He Hv Hvl Hw].
  split_all; [done| | |].
  - intros r E. rewrite E in Hw. apply Hw.
  - intros E. split; [intros Ew; rewrite Ew in Hw; tauto|]. apply Hvl. unfold past_value. by rewrite E.
  - intros Hno. destruct f as [vd vl mx st wt]. unfold setter_inside, waiter_inside in *. simpl in *.
    destruct (set_step newval (mkFuture vd vl mx st wt)) as [f'|] eqn:Es; [exists f'; by left|].
    destruct (wait_step (mkFuture vd vl mx st wt)) as [f'|] eqn:Ew; [exists f'; by right|].
    exfalso. unfold set_step, wait_step in *. simpl in *.
    destruct st, wt; simpl in *; subst mx; try done; try (by eapply Hno); tauto.
Qed.

Lemma future_waiter_correct_witness :
  ∃ f, rtc (future_step 42) (Future_init 7) f ∧ waiter f = GotValue false 42 ∧
    (∀ r, waiter f = GotValue false r → r = 42).
Proof.
  assert (rtc (future_step 42) (Future_init 7) (mkFuture true 42 Nobody SetDone (GotValue false 42))) as Hr.
  { do 3 (eapply rtc_l; [apply step_wait; cbv; reflexivity|]).
    do 5 (eapply rtc_l; [apply step_set; cbv; reflexivity|]).
    do 4 (eapply rtc_l; [apply step_wait; cbv; reflexivity|]). apply rtc_refl. }
  eexists. split; [exact Hr|]. split; [reflexivity|].
  apply (future_waiter_correct 42 7 _ Hr).
Defined.

(** The early return of [wait] is not covered: [set] raises [valid] before it
    writes the value, so a thread that looks in between returns whatever was
    there before. *)
Lemma future_early_out_stale newval garbage :
  ∃ f, rtc (future_step newval) (Future_init garbage) f ∧ waiter f = GotValue true garbage.
Proof.
  eexists. split.
  - do 2 (eapply rtc_l; [apply step_set; cbv; reflexivity|]).
    do 2 (eapply rtc_l; [apply step_wait; cbv; reflexivity|]). apply rtc_refl.
  - reflexivity.
Qed.

(** ** Remote allocation *)

(** The request names the waiting future, and the response sends it back. *)
Record malloc_request := mkMallocReq { mr_sender : Z; mr_resp_ptr : Z; mr_size : Z }.
Record malloc_response := mkMallocResp { ms_target : Z; ms_resp_ptr : Z; ms_offset : Z }.

Definition handle_malloc_request (m : MemoryImpl) (r : malloc_request) : MemoryImpl * malloc_response :=
  let '(m, offset) := alloc_bytes_local m (mr_size r) in
  (m, mkMallocResp (mr_sender r) (mr_resp_ptr r) offset).

Fixpoint serve (m : MemoryImpl) (l : list malloc_request) : MemoryImpl * list malloc_response :=
  match l with
  | [] => (m, [])
  | r :: l =>
      let '(m, a) := handle_malloc_request m r in
      let '(m, rest) := serve m l in (m, a :: rest)
  end.

(** Requests are answered one by one, each to its own future, and the blocks
    of the offsets handed out stay disjoint from one another and from what was
    allocated before. *)
Lemma serve_ok l : ∀ m a, mem_inv m a → Forall (λ r, 0 < mr_size r < 2 ^ 62) l →
  let '(m', answers) := serve m l in
  Forall2 (λ r s, ms_target s = mr_sender r ∧ ms_resp_ptr s = mr_resp_ptr r) l answers ∧
  ∃ a', mem_inv m' (a' ++ a) ∧ (∀ s, s ∈ answers → ms_offset s ≠ -1 → ∃ n, (ms_offset s, n) ∈ a').
Proof.
  induction l as [|r l IH]; intros m a H Hall; simpl.
  { split; [done|]. exists []. split; [done|]. set_solver. }
  apply Forall_cons in Hall as [Hr Hall]. unfold handle_malloc_request.
  destruct (alloc_bytes_local m (mr_size r)) as [m1 off] eqn:E.
  assert (∃ a1, mem_inv m1 (a1 ++ a) ∧ (off = -1 ∨ ∃ n, (off, n) ∈ a1)) as (a1 & H1 & Hoff).
  { destruct (alloc_bytes_local_cases m a (mr_size r) H Hr) as [[E' _]|(f & n & m' & E' & _ & _ & H1 & _)];
      rewrite E in E'; simplify_eq.
    - exists []. split; [done|by left].
    - eexists [_]. split; [done|]. right. eexists. by left. }
  specialize (IH m1 (a1 ++ a) H1 Hall). destruct (serve m1 l) as [m2 answers].
  destruct IH as (Hf & a2 & H2 & Ha2). split; [by constructor|].
  exists (a2 ++ a1). split; [by rewrite <- (assoc_L (++))|].
  intros s [->|Hs]%elem_of_cons Hne; simpl in *.
  - destruct Hoff as [?|[n Hn]]; [done|]. exists n. set_solver.
  - destruct (Ha2 s Hs Hne) as [n Hn]. exists n. set_solver.
Qed.
