(* ===== verification/RemoteId.v ===== *)
(** * Remote identifiers

    [RemoteIDAllocator] of src/templates/runtime_impl.cc: a node keeps ranges
    of identifiers that belong to the other nodes, hands them out one by one
    and asks the owner for more when a range runs low, with at most one
    request in flight for each owner and type; and the two messages it
    exchanges with the owners.  The handler of the request in the code ends
    the process ([handle_id_request_aborts]), so the owner in [sys_step] is not
    that handler but an owner as the allocator expects it, one that answers
    each request with a range it has not given out before. *)

From S2P Require Import Prelude StdMap.

(** ** State

    The two maps that are iterated are kept in key order; [id_ranges] is the
    map of maps, by type and target. A pair is a range with both ends in it. *)
Record RemoteIDAllocator := mkRia {
  batch_sizes : list (Z * Z);
  low_water_marks : list (Z * Z);
  reqs_in_flight : gmap Z (gset Z);
  id_ranges : gmap (Z * Z) (list (Z * Z)) }.

Definition RemoteIDAllocator_init : RemoteIDAllocator := mkRia [] [] ∅ ∅.

(** [args.id_type], [args.count] and the node it goes to. *)
Record id_request := mkIdReq { req_target : Z; req_type : Z; req_count : Z }.

Definition set_request_size (a : RemoteIDAllocator) (id_type batch_size low_water_mark : Z)
    : RemoteIDAllocator :=
  mkRia (om_insert id_type batch_size (batch_sizes a))
    (om_insert id_type low_water_mark (low_water_marks a)) (reqs_in_flight a) (id_ranges a).

(** The vector and the set that [operator[]] finds, or makes. *)
Definition tgt_ranges (a : RemoteIDAllocator) (id_type target : Z) : list (Z * Z) :=
  default [] (id_ranges a !! (id_type, target)).
Definition in_flight (a : RemoteIDAllocator) (id_type : Z) : gset Z :=
  default ∅ (reqs_in_flight a !! id_type).
Definition set_in_flight (a : RemoteIDAllocator) (id_type : Z) (r : gset Z) : RemoteIDAllocator :=
  mkRia (batch_sizes a) (low_water_marks a) (<[id_type := r]> (reqs_in_flight a)) (id_ranges a).
Definition set_ranges (a : RemoteIDAllocator) (id_type target : Z) (r : list (Z * Z))
    : RemoteIDAllocator :=
  mkRia (batch_sizes a) (low_water_marks a) (reqs_in_flight a)
    (<[(id_type, target) := r]> (id_ranges a)).

(** ** Requests at startup *)
Definition initial_request (id_type batch_size : Z)
    (r : RemoteIDAllocator * list id_request) (i : Z) : RemoteIDAllocator * list id_request :=
  let '(a, reqs) := r in
  (set_in_flight a id_type ({[i]} ∪ in_flight a id_type),
   reqs ++ [mkIdReq i id_type batch_size]).

Definition make_initial_requests (my_node_id max_node_id : Z) (a : RemoteIDAllocator)
    : RemoteIDAllocator * list id_request :=
  foldl (λ r '(id_type, batch_size),
           foldl (initial_request id_type batch_size) r
             (filter (λ i, i ≠ my_node_id) (seqZ 0 (max_node_id + 1))))
    (a, []) (batch_sizes a).

(** ** Handing out an identifier *)

(** The range is dropped with its last identifier. *)
Definition next_ranges (first last : Z) (rest : list (Z * Z)) : list (Z * Z) :=
  if decide (first = last) then rest else (u64 (first + 1), last) :: rest.

(** No range left, or one with fewer than the low-water mark behind its first;
    the mark is an [int] compared as an [IDType]. *)
Definition running_low (a : RemoteIDAllocator) (id_type : Z) (ranges : list (Z * Z)) : bool :=
  match ranges with
  | [] => true
  | [(first, last)] =>
      bool_decide (u64 (last - first) < u64 (default 0 (om_find id_type (low_water_marks a))))
  | _ => false
  end.

Definition get_remote_id (a : RemoteIDAllocator) (target id_type : Z)
    : option (RemoteIDAllocator * option id_request * Z) :=
  batch_size ← om_find id_type (batch_sizes a);
  match tgt_ranges a id_type target with
  | [] => None
  | (first, last) :: rest =>
      let ranges := next_ranges first last rest in
      let a' := set_ranges a id_type target ranges in
      if running_low a' id_type ranges then
        if decide (target ∈ in_flight a' id_type) then Some (a', None, first)
        else Some (set_in_flight a' id_type ({[target]} ∪ in_flight a' id_type),
                   Some (mkIdReq target id_type batch_size), first)
      else Some (a', None, first)
  end.

Definition add_id_range (a : RemoteIDAllocator) (target id_type first last : Z)
    : option RemoteIDAllocator :=
  assert! target ∈ in_flight a id_type;
  let a' := set_in_flight a id_type (in_flight a id_type ∖ {[target]}) in
  Some (set_ranges a' id_type target (tgt_ranges a' id_type target ++ [(first, last)])).

(** ** The messages *)
Record id_response := mkIdResp {
  responder : Z; resp_type : Z; first_id : Z; last_id : Z }.

(** [RemoteIDRequestMessage::handle_request]: both arms of the switch start
    with an assertion that fails. *)
Definition handle_id_request (ID_SPARSITY : Z) (make_sparsity : Z → Z → Z → Z)
    (my_node_id sender id_type count : Z) : option (Z * id_response) :=
  if decide (id_type = ID_SPARSITY) then
    assert! (0 ≠ 0);
    Some (sender, mkIdResp my_node_id id_type (make_sparsity my_node_id 0 0)
                    (make_sparsity my_node_id 0 0))
  else
    assert! (0 ≠ 0); None.

Definition handle_id_response (a : RemoteIDAllocator) (r : id_response)
    : option RemoteIDAllocator :=
  add_id_range a (responder r) (resp_type r) (first_id r) (last_id r).

(** ** The allocator among the other nodes

    An owner answers a request by [req_count] identifiers it has not given to
    this node before.  [issued] and [granted] record, by type and owner, what
    was handed out and what was received. *)
Record system := mkSys {
  alloc : RemoteIDAllocator;
  outstanding : list id_request;
  issued : Z * Z → list Z;
  granted : Z * Z → list Z }.

Definition batch (first count : Z) : list Z := seqZ first count.

Definition fn_update (k : Z * Z) (l : list Z) (f : Z * Z → list Z) (k' : Z * Z) : list Z :=
  if decide (k = k') then l else f k'.

Inductive sys_step (s : system) : system → Prop :=
| sys_get target id_type a req id :
    get_remote_id (alloc s) target id_type = Some (a, req, id) →
    sys_step s (mkSys a (option_list req ++ outstanding s)
                  (fn_update (id_type, target) (id :: issued s (id_type, target)) (issued s))
                  (granted s))
| sys_response r first out a :
    outstanding s ≡ₚ r :: out →
    0 ≤ first → first + req_count r ≤ 2 ^ 64 → 0 < req_count r →
    (∀ id, id ∈ batch first (req_count r) → id ∉ granted s (req_type r, req_target r)) →
    handle_id_response (alloc s)
      (mkIdResp (req_target r) (req_type r) first (first + req_count r - 1)) = Some a →
    sys_step s (mkSys a out (issued s)
                  (fn_update (req_type r, req_target r)
                     (batch first (req_count r) ++ granted s (req_type r, req_target r))
                     (granted s))).

(** The identifiers of a list of ranges. *)
Definition range_ids (rs : list (Z * Z)) : list Z :=
  rs ≫= λ '(first, last), seqZ first (last - first + 1).

(** ** The invariant *)
Definition req_key (r : id_request) : Z * Z := (req_type r, req_target r).

Definition range_ok (r : Z * Z) : Prop := 0 ≤ r.1 ≤ r.2 ∧ r.2 < 2 ^ 64.

Definition needs_more (a : RemoteIDAllocator) (ty tgt : Z) : Prop :=
  tgt_ranges a ty tgt = [] ∨
  (∃ b lw, om_find ty (batch_sizes a) = Some b ∧ om_find ty (low_water_marks a) = Some lw ∧
     0 ≤ lw < b ∧ b ≤ 2 ^ 64 ∧ running_low a ty (tgt_ranges a ty tgt) = true).

Record sys_inv (my max : Z) (a0 : RemoteIDAllocator) (s : system) : Prop := {
  si_batch : batch_sizes (alloc s) = batch_sizes a0;
  si_low : low_water_marks (alloc s) = low_water_marks a0;
  si_ranges ty tgt : Forall range_ok (tgt_ranges (alloc s) ty tgt);
  si_ids ty tgt : range_ids (tgt_ranges (alloc s) ty tgt) ++ issued s (ty, tgt) ≡ₚ granted s (ty, tgt);
  si_nodup k : NoDup (granted s k);
  si_keys : NoDup (req_key <$> outstanding s);
  si_flight ty tgt : tgt ∈ in_flight (alloc s) ty ↔ (ty, tgt) ∈ req_key <$> outstanding s;
  si_count r : r ∈ outstanding s → om_find (req_type r) (batch_sizes a0) = Some (req_count r);
  si_more ty tgt : is_Some (om_find ty (batch_sizes a0)) → 0 ≤ tgt ≤ max → tgt ≠ my →
    needs_more (alloc s) ty tgt → tgt ∈ in_flight (alloc s) ty }.

Lemma in_flight_set a ty ty' r :
  in_flight (set_in_flight a ty r) ty' = if decide (ty = ty') then r else in_flight a ty'.
Proof. unfold in_flight. simpl. case_decide; [subst; by rewrite lookup_insert_eq|by rewrite lookup_insert_ne]. Qed.

Lemma tgt_ranges_set a ty tgt r ty' tgt' :
  tgt_ranges (set_ranges a ty tgt r) ty' tgt' =
  if decide ((ty, tgt) = (ty', tgt')) then r else tgt_ranges a ty' tgt'.
Proof. unfold tgt_ranges. simpl. case_decide; [simplify_eq; by rewrite lookup_insert_eq|by rewrite lookup_insert_ne]. Qed.

(** What [make_initial_requests] leaves. *)
Lemma initial_requests_type ty b nodes r :
  let '(a', reqs') := foldl (initial_request ty b) r nodes in
  batch_sizes a' = batch_sizes r.1 ∧ low_water_marks a' = low_water_marks r.1 ∧
  id_ranges a' = id_ranges r.1 ∧ reqs' = r.2 ++ ((λ i, mkIdReq i ty b) <$> nodes) ∧
  ∀ ty' tgt, tgt ∈ in_flight a' ty' ↔ tgt ∈ in_flight r.1 ty' ∨ ty' = ty ∧ tgt ∈ nodes.
Proof.
  revert r. induction nodes as [|i nodes IH]; intros [a reqs]; cbn [foldl].
  - cbn. rewrite app_nil_r. split_all; [done..|]. intros. set_solver.
  - specialize (IH (initial_request ty b (a, reqs) i)).
    destruct (foldl _ _ _) as [a' reqs']. destruct IH as (-> & -> & -> & -> & IH).
    split_all; [done..| |].
    + simpl. by rewrite <-app_assoc.
    + intros ty' tgt. rewrite IH. cbn [initial_request fst].
      rewrite in_flight_set. case_decide; subst; set_solver.
Qed.

Lemma initial_requests_all my max bs r nodes :
  nodes = filter (λ i, i ≠ my) (seqZ 0 (max + 1)) →
  let '(a', reqs') := foldl (λ r '(ty, b), foldl (initial_request ty b) r nodes) r bs in
  batch_sizes a' = batch_sizes r.1 ∧ low_water_marks a' = low_water_marks r.1 ∧
  id_ranges a' = id_ranges r.1 ∧
  reqs' = r.2 ++ (bs ≫= λ '(ty, b), (λ i, mkIdReq i ty b) <$> nodes) ∧
  ∀ ty' tgt, tgt ∈ in_flight a' ty' ↔ tgt ∈ in_flight r.1 ty' ∨ ty' ∈ bs.*1 ∧ tgt ∈ nodes.
Proof.
  intros Hn. revert r. induction bs as [|[ty b] bs IH]; intros r; cbn [foldl].
  - destruct r. cbn. rewrite app_nil_r. split_all; [done..|]. set_solver.
  - pose proof (initial_requests_type ty b nodes r) as H1.
    destruct (foldl (initial_request ty b) r nodes) as [a1 reqs1] eqn:E1.
    destruct H1 as (Hb & Hl & Hr & Hq & Hf). specialize (IH (a1, reqs1)).
    destruct (foldl _ _ bs) as [a' reqs']. destruct IH as (-> & -> & -> & -> & IH). cbn [fst snd].
    split_all; [done..| |].
    + rewrite Hq, bind_cons. cbn. by rewrite <-app_assoc.
    + intros ty' tgt. rewrite IH, Hf, fmap_cons. set_solver.
Qed.

Definition configure (cfg : list (Z * Z * Z)) : RemoteIDAllocator :=
  foldl (λ a '(ty, batch_size, low), set_request_size a ty batch_size low) RemoteIDAllocator_init cfg.

Lemma configure_ok cfg :
  om_ok (batch_sizes (configure cfg)) ∧ reqs_in_flight (configure cfg) = ∅ ∧
  id_ranges (configure cfg) = ∅.
Proof.
  unfold configure.
  assert (∀ a, om_ok (batch_sizes a) → reqs_in_flight a = ∅ → id_ranges a = ∅ →
    let a' := foldl (λ a '(ty, batch_size, low), set_request_size a ty batch_size low) a cfg in
    om_ok (batch_sizes a') ∧ reqs_in_flight a' = ∅ ∧ id_ranges a' = ∅) as H.
  { induction cfg as [|[[ty b] lw] cfg IH]; intros a Ha Hr Hi; [done|]. cbn [foldl].
    apply IH; [by apply om_insert_ok|done..]. }
  apply H; [apply om_ok_nil|done..].
Qed.

Lemma om_ok_keys_NoDup {V} (m : list (Z * V)) : om_ok m → NoDup m.*1.
Proof.
  induction m as [|[k v] m IH]; intros Hm; [constructor|]. inv Hm. cbn.
  constructor; [|by apply IH]. intros ([k' v'] & E & Hin)%list_elem_of_fmap. simpl in E. subst k'.
  match goal with H : Forall _ m |- _ => eapply Forall_forall in H; [|done] end. unfold klt in *. simpl in *. lia.
Qed.

Lemma requests_keys_NoDup (bs : list (Z * Z)) nodes :
  NoDup bs.*1 → NoDup nodes →
  NoDup (req_key <$> (bs ≫= λ '(ty, b), (λ i, mkIdReq i ty b) <$> nodes)).
Proof.
  intros Hb Hn. induction bs as [|[ty b] bs IH]; [constructor|].
  rewrite fmap_cons in Hb. apply NoDup_cons in Hb as [Hty Hb].
  rewrite bind_cons, fmap_app. apply NoDup_app. split_all; [|intros k|by apply IH].
  - rewrite <-list_fmap_compose. apply NoDup_fmap_2; [|done]. intros ???. unfold compose, req_key in *. simpl in *. congruence.
  - rewrite <-list_fmap_compose. intros (i & -> & Hi)%list_elem_of_fmap (r & E & Hr)%list_elem_of_fmap.
    apply list_elem_of_bind in Hr as ([ty' b'] & Hr & Hin). apply list_elem_of_fmap in Hr as (j & -> & Hj).
    unfold req_key in E. simpl in E. simplify_eq. apply Hty. apply list_elem_of_fmap. by exists (ty', b').
Qed.

Lemma initial_inv my max cfg a reqs :
  make_initial_requests my max (configure cfg) = (a, reqs) →
  sys_inv my max (configure cfg) (mkSys a reqs (λ _, []) (λ _, [])).
Proof.
  unfold make_initial_requests. intros E. destruct (configure_ok cfg) as (Hok & Hf & Hi).
  remember (filter (λ i, i ≠ my) (seqZ 0 (max + 1))) as nodes eqn:En.
  pose proof (initial_requests_all my max (batch_sizes (configure cfg)) (configure cfg, []) nodes En) as H.
  rewrite E in H. cbn [fst snd] in H. destruct H as (Hb & Hl & Hr & -> & Hfl). rewrite app_nil_l in *.
  assert (∀ ty tgt, tgt_ranges a ty tgt = []) as Hnil by (intros; unfold tgt_ranges; by rewrite Hr, Hi).
  assert (∀ ty tgt, tgt ∈ in_flight a ty ↔
     ty ∈ (batch_sizes (configure cfg)).*1 ∧ tgt ∈ nodes) as Hfl'.
  { intros. rewrite Hfl. unfold in_flight. rewrite Hf. simpl. set_solver. }
  split; cbn [alloc outstanding issued granted].
  - done.
  - done.
  - intros. by rewrite Hnil.
  - intros. by rewrite Hnil.
  - intros _. constructor.
  - apply requests_keys_NoDup; [by apply om_ok_keys_NoDup|]. subst. apply NoDup_filter, NoDup_seqZ.
  - intros ty tgt. rewrite Hfl', !list_elem_of_fmap. split.
    + intros [([ty' b] & -> & Hin) Hn]. exists (mkIdReq tgt ty' b). split; [done|].
      apply list_elem_of_bind. exists (ty', b). split; [|done]. apply list_elem_of_fmap. by exists tgt.
    + intros (r & E' & Hr'). apply list_elem_of_bind in Hr' as ([ty' b] & Hm & Hin).
      apply list_elem_of_fmap in Hm as (i & -> & Hi'). unfold req_key in E'. simpl in E'. simplify_eq.
      split; [by exists (ty', b)|done].
  - intros r Hr'. apply list_elem_of_bind in Hr' as ([ty' b] & Hm & Hin).
    apply list_elem_of_fmap in Hm as (i & -> & Hi'). simpl. by apply om_elem_find.
  - intros ty tgt [b Hb'] Ht Hmy _. apply Hfl'. split.
    + apply list_elem_of_fmap. exists (ty, b). split; [done|]. by apply om_find_elem.
    + subst nodes. apply list_elem_of_filter. split; [done|]. apply elem_of_seqZ. lia.
Qed.

Lemma next_ranges_ok first last rest :
  Forall range_ok ((first, last) :: rest) →
  Forall range_ok (next_ranges first last rest) ∧
  range_ids ((first, last) :: rest) = first :: range_ids (next_ranges first last rest).
Proof.
  intros [[Hr Hl] Hrest]%Forall_cons_1. cbn [fst snd] in Hr, Hl. unfold next_ranges, range_ids. case_decide as E.
  - split; [done|]. subst. rewrite bind_cons. replace (last - last + 1) with 1 by lia. done.
  - rewrite u64_id by (unfold is_u64; lia). split.
    + constructor; [|done]. unfold range_ok. simpl. lia.
    + rewrite !bind_cons. rewrite seqZ_cons by lia. cbn [app]. replace (Z.pred (last - first + 1)) with (last - (first + 1) + 1) by lia. done.
Qed.

Lemma fn_update_eq k l f : fn_update k l f k = l.
Proof. unfold fn_update. by rewrite decide_True. Qed.

Lemma fn_update_ne k l f k' : k ≠ k' → fn_update k l f k' = f k'.
Proof. intros. unfold fn_update. by rewrite decide_False. Qed.

(** What a successful [get_remote_id] does, whether or not it asks for more. *)
Lemma get_remote_id_inv a target ty a' req id :
  get_remote_id a target ty = Some (a', req, id) →
  ∃ b first last rest,
    om_find ty (batch_sizes a) = Some b ∧
    tgt_ranges a ty target = (first, last) :: rest ∧ id = first ∧
    batch_sizes a' = batch_sizes a ∧ low_water_marks a' = low_water_marks a ∧
    (∀ ty' tgt', tgt_ranges a' ty' tgt' =
       if decide ((ty, target) = (ty', tgt')) then next_ranges first last rest
       else tgt_ranges a ty' tgt') ∧
    (req = None ∧ (∀ ty', in_flight a' ty' = in_flight a ty') ∧
       (running_low a ty (next_ranges first last rest) = true → target ∈ in_flight a ty) ∨
     req = Some (mkIdReq target ty b) ∧ (target ∉ in_flight a ty) ∧
       (∀ ty', in_flight a' ty' =
         (if decide (ty = ty') then {[target]} ∪ in_flight a ty else in_flight a ty'))).
Proof.
  unfold get_remote_id. intros H. apply bind_Some in H as (b & Hb & H).
  destruct (tgt_ranges a ty target) as [|[first last] rest] eqn:Et; [discriminate|].
  exists b, first, last, rest.
  assert (running_low (set_ranges a ty target (next_ranges first last rest)) ty (next_ranges first last rest)
    = running_low a ty (next_ranges first last rest)) as Hl by done.
  rewrite Hl in H. clear Hl.
  destruct (running_low a ty _) eqn:El; [case_decide as Ei|]; injection H as <- <- <-; split_all; try done.
  1,3,5: intros; by rewrite <-tgt_ranges_set.
  - left. by split_all.
  - right. split_all; [done|done|]. intros. by rewrite in_flight_set.
  - left. by split_all.
Qed.

Lemma range_ok_low a ty r rest lw :
  range_ok r → om_find ty (low_water_marks a) = Some lw → 0 ≤ lw → lw ≤ r.2 - r.1 →
  running_low a ty (r :: rest) = false.
Proof.
  intros [[H1 H2] H3] Hf Hlw Hge. destruct r as [f l]. simpl in *. unfold running_low.
  destruct rest; [|done]. rewrite Hf. simpl. apply bool_decide_false.
  rewrite !u64_id by (unfold is_u64; lia). lia.
Qed.

Lemma needs_more_eq a a' ty tgt :
  batch_sizes a' = batch_sizes a → low_water_marks a' = low_water_marks a →
  tgt_ranges a' ty tgt = tgt_ranges a ty tgt → needs_more a' ty tgt → needs_more a ty tgt.
Proof. unfold needs_more, running_low. intros -> -> ->. done. Qed.

Lemma get_preserves my max a0 s target ty a req id :
  sys_inv my max a0 s → get_remote_id (alloc s) target ty = Some (a, req, id) →
  sys_inv my max a0 (mkSys a (option_list req ++ outstanding s)
    (fn_update (ty, target) (id :: issued s (ty, target)) (issued s)) (granted s)).
Proof.
  intros [Hb Hl Hr Hi Hn Hk Hf Hc Hm] H.
  destruct (get_remote_id_inv _ _ _ _ _ _ H) as (b & f & l & rest & Hbf & Et & -> & Eb & El & Er & Hreq).
  pose proof (Hr ty target) as Hro. rewrite Et in Hro. destruct (next_ranges_ok _ _ _ Hro) as [Hro' Hids].
  assert (running_low a ty (next_ranges f l rest) = running_low (alloc s) ty (next_ranges f l rest)) as Elow.
  { unfold running_low. by rewrite El. }
  split; cbn [alloc outstanding issued granted]; try congruence; try done.
  - intros ty' tgt'. rewrite Er. by case_decide.
  - intros ty' tgt'. rewrite Er. case_decide as E.
    + simplify_eq. rewrite fn_update_eq, <-Hi, Et, Hids. symmetry. apply Permutation_middle.
    + rewrite fn_update_ne by done. apply Hi.
  - destruct Hreq as [(-> & _)|(-> & Hni & _)]; [done|]. cbn. constructor; [|done].
    intros Hin. by apply Hni, Hf.
  - intros ty' tgt'. destruct Hreq as [(-> & Hfl & _)|(-> & Hni & Hfl)]; rewrite Hfl.
    + apply Hf.
    + cbn. case_decide as E.
      * subst ty'. rewrite elem_of_union, elem_of_singleton, elem_of_cons, Hf. unfold req_key. simpl.
        intuition congruence.
      * rewrite elem_of_cons, Hf. unfold req_key. simpl. intuition congruence.
  - intros r. rewrite elem_of_app. intros [Hin|Hin]; [|by apply Hc].
    destruct Hreq as [(-> & _)|(-> & _)]; [by apply elem_of_nil in Hin|].
    apply list_elem_of_singleton in Hin as ->. simpl. by rewrite <-Hb.
  - intros ty' tgt' Hs Ht Hmy Hneed. destruct (decide ((ty, target) = (ty', tgt'))) as [E|E].
    + simplify_eq. destruct Hreq as [(_ & Hfl & Hlow)|(_ & _ & Hfl)]; rewrite Hfl.
      * apply Hlow. rewrite <-Elow. unfold needs_more in Hneed. rewrite Er, decide_True in Hneed by done.
        destruct Hneed as [->|(? & ? & _ & _ & _ & _ & ?)]; done.
      * rewrite decide_True by done. set_solver.
    + assert (tgt' ∈ in_flight (alloc s) ty').
      { apply Hm; [done..|]. eapply needs_more_eq; [..|done]; try done. rewrite Er. by rewrite decide_False. }
      destruct Hreq as [(_ & Hfl & _)|(_ & _ & Hfl)]; rewrite Hfl; [done|]. case_decide; set_solver.
Qed.

Lemma add_id_range_inv a target ty first last a' :
  add_id_range a target ty first last = Some a' →
  target ∈ in_flight a ty ∧
  batch_sizes a' = batch_sizes a ∧ low_water_marks a' = low_water_marks a ∧
  (∀ ty' tgt', tgt_ranges a' ty' tgt' =
     if decide ((ty, target) = (ty', tgt')) then tgt_ranges a ty target ++ [(first, last)]
     else tgt_ranges a ty' tgt') ∧
  (∀ ty', in_flight a' ty' =
     if decide (ty = ty') then in_flight a ty ∖ {[target]} else in_flight a ty').
Proof.
  unfold add_id_range. intros [Hin [= <-]]%assert_Some. split_all; [done..| |].
  - intros. by rewrite tgt_ranges_set.
  - intros. change (in_flight (set_ranges ?a _ _ _) ?t) with (in_flight a t). by rewrite in_flight_set.
Qed.

Lemma range_ids_snoc rs first count :
  range_ids (rs ++ [(first, first + count - 1)]) ≡ₚ batch first count ++ range_ids rs.
Proof.
  unfold range_ids. rewrite bind_app. cbn [mbind list_bind]. rewrite app_nil_r.
  replace (first + count - 1 - first + 1) with count by lia. apply Permutation_app_comm.
Qed.

Lemma response_low a ty first count lw :
  range_ok (first, first + count - 1) →
  om_find ty (low_water_marks a) = Some lw → 0 ≤ lw < count →
  running_low a ty [(first, first + count - 1)] = false.
Proof. intros Hro Hlw ?. eapply range_ok_low; [done..|lia|simpl; lia]. Qed.

Lemma two_not_low a ty rs r : rs ≠ [] → running_low a ty (rs ++ [r]) = false.
Proof. destruct rs as [|[] [|? ?]]; done. Qed.

Lemma response_preserves my max a0 s r first out a :
  sys_inv my max a0 s → outstanding s ≡ₚ r :: out →
  0 ≤ first → first + req_count r ≤ 2 ^ 64 → 0 < req_count r →
  (∀ id, id ∈ batch first (req_count r) → id ∉ granted s (req_type r, req_target r)) →
  add_id_range (alloc s) (req_target r) (req_type r) first (first + req_count r - 1) = Some a →
  sys_inv my max a0 (mkSys a out (issued s)
    (fn_update (req_type r, req_target r)
       (batch first (req_count r) ++ granted s (req_type r, req_target r)) (granted s))).
Proof.
  intros [Hb Hl Hr Hi Hn Hk Hf Hc Hm] Hout H0 H1 H2 Hfresh H.
  destruct (add_id_range_inv _ _ _ _ _ _ H) as (Hin & Eb & El & Er & Efl).
  assert (range_ok (first, first + req_count r - 1)) as Hnew by (unfold range_ok; simpl; lia).
  rewrite Hout, fmap_cons in Hk. apply NoDup_cons in Hk as [Hkr Hk].
  split; cbn [alloc outstanding issued granted]; try congruence; try done.
  - intros ty tgt. rewrite Er. case_decide; [|done]. apply Forall_app. split; [done|by constructor].
  - intros ty tgt. rewrite Er. case_decide as E.
    + simplify_eq. rewrite fn_update_eq, range_ids_snoc, <-app_assoc, Hi. done.
    + rewrite fn_update_ne by done. apply Hi.
  - intros k. destruct (decide ((req_type r, req_target r) = k)) as [<-|Hne].
    + rewrite fn_update_eq. apply NoDup_app. split_all; [apply NoDup_seqZ|done|done].
    + by rewrite fn_update_ne.
  - intros ty tgt. rewrite Efl. pose proof (Hf ty tgt) as Hft.
    rewrite Hout, fmap_cons, elem_of_cons in Hft. change (req_key r) with (req_type r, req_target r) in *.
    case_decide as E.
    + subst. rewrite elem_of_difference, elem_of_singleton, Hft. split; [intuition congruence|].
      intros Ho. split; [by right|]. intros ->. done.
    + rewrite Hft. naive_solver.
  - intros r' Hr'. apply Hc. rewrite Hout. by right.
  - intros ty tgt Hs Ht Hmy Hneed. destruct (decide ((req_type r, req_target r) = (ty, tgt))) as [E|E].
    + simplify_eq. exfalso. unfold needs_more in Hneed. rewrite Er, decide_True in Hneed by done.
      destruct Hneed as [Hnil|(b & lw & Hbb & Hlw & Hlt & _ & Hlow)].
      { by destruct (app_cons_not_nil (tgt_ranges (alloc s) (req_type r) (req_target r)) [] (first, first + req_count r - 1)). }
      destruct (decide (tgt_ranges (alloc s) (req_type r) (req_target r) = [])) as [Enil|Enil].
      * assert (r ∈ outstanding s) as Hro by (rewrite Hout; by left). apply Hc in Hro.
        rewrite Eb, Hb, Hro in Hbb. injection Hbb as <-.
        rewrite Enil, app_nil_l, (response_low _ _ _ _ lw) in Hlow by done. done.
      * by rewrite two_not_low in Hlow.
    + assert (tgt ∈ in_flight (alloc s) ty).
      { apply Hm; [done..|]. eapply needs_more_eq; [..|done]; try done. rewrite Er. by rewrite decide_False. }
      rewrite Efl. case_decide; [|done]. set_solver.
Qed.

Lemma sys_reachable_inv my max cfg a reqs s :
  make_initial_requests my max (configure cfg) = (a, reqs) →
  rtc sys_step (mkSys a reqs (λ _, []) (λ _, [])) s → sys_inv my max (configure cfg) s.
Proof.
  intros E Hr. apply initial_inv in E. revert E. induction Hr as [|s1 s2 s3 Hstep _ IH]; [done|].
  intros Hinv. apply IH. destruct Hstep; [by eapply get_preserves|by eapply response_preserves].
Qed.

(** ** Properties *)

(** C38. Identifiers of other nodes are never handed out twice and requests
    for them never collide, if the owners answer with fresh ranges.  Starting
    from any configuration, whatever the order of the calls of [get_remote_id]
    and of the answers: the identifiers
    handed out are distinct and with those still held are exactly the ones
    received; there is at most one request in flight for each owner and type,
    and its answer is always accepted; and [get_remote_id] fails, for a
    configured type and another node, only while a request is in flight, as
    one always is when a type whose mark is below its batch size runs low. *)
Theorem remote_ids_safe my max cfg a reqs s :
  make_initial_requests my max (configure cfg) = (a, reqs) →
  rtc sys_step (mkSys a reqs (λ _, []) (λ _, [])) s →
  (∀ ty tgt, NoDup (issued s (ty, tgt)) ∧
     range_ids (tgt_ranges (alloc s) ty tgt) ++ issued s (ty, tgt) ≡ₚ granted s (ty, tgt)) ∧
  NoDup (req_key <$> outstanding s) ∧
  (∀ r first last, r ∈ outstanding s →
     is_Some (handle_id_response (alloc s) (mkIdResp (req_target r) (req_type r) first last))) ∧
  (∀ ty tgt, is_Some (om_find ty (batch_sizes (configure cfg))) → 0 ≤ tgt ≤ max → tgt ≠ my →
     get_remote_id (alloc s) tgt ty = None ∨ needs_more (alloc s) ty tgt →
     (ty, tgt) ∈ req_key <$> outstanding s).
Proof.
  intros E Hr. destruct (sys_reachable_inv _ _ _ _ _ _ E Hr) as [Hb Hl Hro Hi Hn Hk Hf Hc Hm].
  split_all; [|done| |].
  - intros ty tgt. split; [|done]. specialize (Hi ty tgt). specialize (Hn (ty, tgt)).
    rewrite <-Hi in Hn. by apply NoDup_app in Hn as (_ & _ & Hn).
  - intros r first last Hin. unfold handle_id_response, add_id_range. cbn.
    rewrite assert_true; [done|]. apply Hf, list_elem_of_fmap. by exists r.
  - intros ty tgt Hs Ht Hmy Hneed. apply Hf. apply Hm; [done..|]. destruct Hneed as [Hnone|]; [|done].
    left. destruct Hs as [b Hs]. unfold get_remote_id in Hnone. rewrite Hb, Hs in Hnone. cbn in Hnone.
    destruct (tgt_ranges (alloc s) ty tgt) as [|[f l] rest]; [done|].
    repeat case_match; discriminate.
Qed.

(** Every request ends the process that receives it. *)
Lemma handle_id_request_aborts ID_SPARSITY make_sparsity my sender ty count :
  handle_id_request ID_SPARSITY make_sparsity my sender ty count = None.
Proof. unfold handle_id_request. by repeat case_decide. Qed.

Lemma remote_ids_safe_witness :
  ∃ s, (∀ ty tgt, NoDup (issued s (ty, tgt)) ∧
          range_ids (tgt_ranges (alloc s) ty tgt) ++ issued s (ty, tgt) ≡ₚ granted s (ty, tgt)) ∧
    issued s (5, 1) = [101; 100] ∧ outstanding s = [mkIdReq 1 5 4].
Proof.
  destruct (make_initial_requests 0 1 (configure [(5, 4, 2)])) as [a0 reqs] eqn:E0.
  pose proof E0 as E. vm_compute in E. injection E as Ea Er.
  assert (∃ s, rtc sys_step (mkSys a0 reqs (λ _, []) (λ _, [])) s ∧
            issued s (5, 1) = [101; 100] ∧ outstanding s = [mkIdReq 1 5 4]) as (s & Hr & Hi & Ho).
  { rewrite <-Er. eexists. split.
    - eapply rtc_l.
      { eapply (sys_response _ (mkIdReq 1 5 4) 100 []); simpl; [done|lia|lia|lia|set_solver|].
        rewrite <-Ea. vm_compute. reflexivity. }
      eapply rtc_l; [eapply (sys_get _ 1 5); vm_compute; reflexivity|].
      eapply rtc_l; [eapply (sys_get _ 1 5); vm_compute; reflexivity|].
      apply rtc_refl.
    - split; reflexivity. }
  exists s. split; [|by split]. apply (remote_ids_safe 0 1 [(5, 4, 2)] a0 reqs s E0 Hr).
Defined.
