(* ===== verification/CommandLine.v ===== *)
(** * Default arguments from the environment

    The part of [RuntimeImpl::network_init] of src/templates/runtime_impl.cc
    that splits the variable [REALM_DEFAULT_ARGS] into words and inserts them
    into the command line.  A C string is the list of its characters before
    the terminating NUL, and a pointer into it the suffix it points to. *)

From S2P Require Import Prelude.

(** ** Splitting into words *)

Definition isspace (c : Z) : bool := bool_decide (c = 32 ∨ 9 ≤ c ≤ 13).
Definition single_quote : Z := 39.
Definition double_quote : Z := 34.
Definition is_quote (c : Z) : bool := bool_decide (c = single_quote ∨ c = double_quote).

(** [while( *e && !stop( *e )) e++]: what is passed over, and the rest. *)
Fixpoint read_until (stop : Z → bool) (e : list Z) : list Z * list Z :=
  match e with
  | [] => ([], [])
  | c :: e' =>
      if stop c then ([], e) else let '(w, r) := read_until stop e' in (c :: w, r)
  end.

(** [!*e || isspace( *e )] *)
Definition at_boundary (e : list Z) : bool :=
  match e with [] => true | c :: _ => isspace c end.

(** The loop over [e]; the two quotes are treated alike.  Without a closing
    quote [ends.push_back(e++)] steps over the NUL and the assertion after it
    reads what lies behind the string: there is no result. *)
Fixpoint split_args (fuel : nat) (e : list Z) : option (list (list Z)) :=
  match fuel with
  | O => None
  | S fuel =>
      match e with
      | [] => Some []
      | c :: e' =>
          if isspace c then split_args fuel e'
          else if is_quote c then
            assert! e' ≠ [];
            match read_until (λ d, bool_decide (d = c)) e' with
            | (_, []) => None
            | (w, _ :: r) =>
                assert! at_boundary r = true;
                ws ← split_args fuel r; Some (w :: ws)
            end
          else
            let '(w, r) := read_until isspace e in
            ws ← split_args fuel r; Some (w :: ws)
      end
  end.

Definition default_args (e : list Z) : option (list (list Z)) := split_args (S (length e)) e.

(** ** Inserting into the command line *)

(** An empty argument has its NUL for first character. *)
Definition starts_with_dash (arg : list Z) : bool :=
  match arg with c :: _ => bool_decide (c = 45) | [] => false end.

(** [before_new], counted from the argument with index [i] on. *)
Fixpoint count_before (i : Z) (argv : list (list Z)) : nat :=
  match argv with
  | [] => O
  | arg :: argv' =>
      if decide (i > 0) then
        if starts_with_dash arg then O else S (count_before (i + 1) argv')
      else S (count_before (i + 1) argv')
  end.

Definition insert_args (argv words : list (list Z)) : list (list Z) :=
  match words with
  | [] => argv
  | _ :: _ =>
      let before_new := count_before 0 argv in
      take before_new argv ++ words ++ drop before_new argv
  end.

(** The variable may not be set. *)
Definition add_default_args (env : option (list Z)) (argv : list (list Z))
    : option (list (list Z)) :=
  match env with
  | None => Some argv
  | Some e => words ← default_args e; Some (insert_args argv words)
  end.

(** ** What the splitting means: a grammar *)
Inductive args_of : list Z → list (list Z) → Prop :=
| args_end : args_of [] []
| args_space c e ws : isspace c = true → args_of e ws → args_of (c :: e) ws
| args_quoted q w e ws :
    is_quote q = true → q ∉ w → at_boundary e = true → args_of e ws →
    args_of (q :: w ++ q :: e) (w :: ws)
| args_bare c w e ws :
    is_quote c = false → Forall (λ d, isspace d = false) (c :: w) → at_boundary e = true →
    args_of e ws → args_of ((c :: w) ++ e) ((c :: w) :: ws).

Lemma read_until_spec stop e w r :
  read_until stop e = (w, r) →
  e = w ++ r ∧ Forall (λ d, stop d = false) w ∧ (∀ c r', r = c :: r' → stop c = true).
Proof.
  revert w r. induction e as [|c e IH]; intros w r; simpl; [by intros [= <- <-]|].
  destruct (stop c) eqn:Es.
  - intros [= <- <-]. split_all; [done|constructor|]. by intros ?? [= <- _].
  - destruct (read_until stop e) as [w' r'] eqn:E. intros [= <- <-].
    destruct (IH _ _ eq_refl) as (-> & Hw & Hr). split_all; [done|by constructor|done].
Qed.

Lemma read_until_app stop w r :
  Forall (λ d, stop d = false) w → (∀ c r', r = c :: r' → stop c = true) →
  read_until stop (w ++ r) = (w, r).
Proof.
  induction 1 as [|c w Hc _ IH]; intros Hr; simpl.
  - destruct r as [|c r]; simpl; [done|]. by rewrite (Hr _ _ eq_refl).
  - rewrite Hc. by rewrite IH.
Qed.

Lemma quote_not_space c : is_quote c = true → isspace c = false.
Proof.
  unfold is_quote, isspace, single_quote, double_quote.
  intros ?%bool_decide_eq_true. apply bool_decide_eq_false. lia.
Qed.

Lemma boundary_stops r : at_boundary r = true → ∀ c r', r = c :: r' → isspace c = true.
Proof. intros Hb c r' ->. done. Qed.

Lemma stops_boundary r : (∀ c r', r = c :: r' → isspace c = true) → at_boundary r = true.
Proof. destruct r as [|c r]; [done|]. intros H. by apply (H c r). Qed.

Lemma split_args_sound fuel e ws : split_args fuel e = Some ws → args_of e ws.
Proof.
  revert e ws. induction fuel as [|fuel IH]; intros e ws; [done|]. cbn [split_args].
  destruct e as [|c e']; [intros [= <-]; constructor|].
  destruct (isspace c) eqn:Es; [intros ?; constructor; auto|].
  destruct (is_quote c) eqn:Eq.
  - intros [Hne H]%assert_Some.
    destruct (read_until _ e') as [w [|d r]] eqn:Er; [done|].
    apply assert_Some in H as [Hb H]. apply bind_Some in H as (ws' & H & [= <-]).
    destruct (read_until_spec _ _ _ _ Er) as (-> & Hw & Hd).
    specialize (Hd d r eq_refl). apply bool_decide_eq_true in Hd as ->.
    apply args_quoted; auto. intros Hin. rewrite Forall_forall in Hw.
    specialize (Hw _ Hin). cbv beta in Hw. by apply bool_decide_eq_false in Hw.
  - destruct (read_until isspace (c :: e')) as [w r] eqn:Er. intros H.
    apply bind_Some in H as (ws' & H & [= <-]).
    destruct (read_until_spec _ _ _ _ Er) as (E & Hw & Hd). cbn in Er. rewrite Es in Er.
    destruct (read_until isspace e') as [w' r'] eqn:Er'. injection Er as <- <-. rewrite E.
    apply args_bare; auto using stops_boundary.
Qed.

Lemma split_args_complete e ws :
  args_of e ws → ∀ fuel, (length e < fuel)%nat → split_args fuel e = Some ws.
Proof.
  induction 1 as [|c e ws Hc H IH|q w e ws Hq Hw Hb H IH|c w e ws Hc Hw Hb H IH];
    intros [|fuel] Hf; cbn [length] in Hf; try lia.
  - done.
  - cbn [split_args]. rewrite Hc. apply IH. lia.
  - cbn [split_args]. rewrite quote_not_space, Hq by done.
    rewrite assert_true by (by destruct w). rewrite read_until_app.
    + rewrite assert_true by done. rewrite IH; [done|]. rewrite length_app in Hf. simpl in Hf. lia.
    + apply Forall_forall. intros d Hd. apply bool_decide_eq_false. congruence.
    + intros ?? [= <- _]. by apply bool_decide_eq_true.
  - inv Hw as [|? ? Hs Hw']. cbn [app split_args]. rewrite Hs, Hc.
    change (c :: w ++ e) with ((c :: w) ++ e).
    rewrite (read_until_app isspace (c :: w) e); [|by constructor|by apply boundary_stops].
    rewrite IH; [done|]. cbn [app length] in Hf. rewrite length_app in Hf. lia.
Qed.

Lemma default_args_grammar e ws : default_args e = Some ws ↔ args_of e ws.
Proof.
  split; [apply split_args_sound|]. intros H. by apply split_args_complete; [|lia].
Qed.

(** Where the new arguments go: after the first argument and the positional
    ones that follow it. *)
Lemma count_before_pos i argv : 0 < i →
  Forall (λ a, starts_with_dash a = false) (take (count_before i argv) argv) ∧
  (∀ a r, drop (count_before i argv) argv = a :: r → starts_with_dash a = true).
Proof.
  revert i. induction argv as [|arg argv IH]; intros i Hi; simpl; [by split; [constructor|]|].
  rewrite decide_True by lia. destruct (starts_with_dash arg) eqn:E; simpl.
  - split; [constructor|]. by intros ?? [= <- _].
  - destruct (IH (i + 1)) as [H1 H2]; [lia|]. split; [by constructor|done].
Qed.

Lemma count_before_unique i argv pos rest : 0 < i →
  argv = pos ++ rest → Forall (λ a, starts_with_dash a = false) pos →
  (∀ a r, rest = a :: r → starts_with_dash a = true) → count_before i argv = length pos.
Proof.
  intros Hi -> Hpos Hrest. revert i Hi. induction Hpos as [|a pos Ha _ IH]; intros i Hi; simpl.
  - destruct rest as [|a r]; simpl; [done|]. rewrite decide_True by lia.
    by rewrite (Hrest _ _ eq_refl).
  - rewrite decide_True by lia. rewrite Ha. rewrite IH; [done|lia].
Qed.

(** C35. [REALM_DEFAULT_ARGS] is split exactly as its quoting says and its
    words go in front of the options of the command line.  The splitting
    yields the words [ws] if and only if the string is a sequence of bare
    words and words in single or double quotes with white space between them
    (so it fails on an unterminated quote and on a quote that is followed by
    another character), and then a command line of a program, positional
    arguments and options gets [ws] between the last two. *)
Theorem default_args_inserted e ws prog positional options :
  Forall (λ a, starts_with_dash a = false) positional →
  (∀ a r, options = a :: r → starts_with_dash a = true) →
  (default_args e = Some ws ↔ args_of e ws) ∧
  (args_of e ws →
   add_default_args (Some e) (prog :: positional ++ options) =
     Some (prog :: positional ++ ws ++ options)).
Proof.
  intros Hpos Hopt. split; [apply default_args_grammar|]. intros H%default_args_grammar.
  unfold add_default_args. rewrite H. cbn [mbind option_bind]. f_equal. unfold insert_args.
  destruct ws as [|w ws]; [done|]. cbn [count_before]. rewrite decide_False by lia.
  rewrite (count_before_unique _ _ positional options) by (done || lia).
  cbn [take drop app]. by rewrite take_app_length, drop_app_length.
Qed.

(** [-a 'b c' "" d], inserted into [prog x -y]. *)
Lemma default_args_inserted_witness :
  let e := [45; 97; 32; 39; 98; 32; 99; 39; 32; 34; 34; 9; 100; 32] in
  let ws := [[45; 97]; [98; 32; 99]; []; [100]] in
  default_args e = Some ws ∧
  add_default_args (Some e) ([112] :: [[120]] ++ [[45; 121]]) =
    Some ([112] :: [[120]] ++ ws ++ [[45; 121]]).
Proof.
  intros e ws.
  destruct (default_args_inserted e ws [112] [[120]] [[45; 121]]) as [H1 H2].
  - by repeat constructor.
  - by intros ?? [= <- _].
  - assert (default_args e = Some ws) as E by reflexivity. split; [exact E|].
    apply H2. apply H1. exact E.
Defined.

(** A quote that is not closed is read past the end of the string. *)
Lemma default_args_unterminated q w :
  is_quote q = true → q ∉ w → default_args (q :: w) = None.
Proof.
  intros Hq Hw. destruct (default_args (q :: w)) as [ws|] eqn:E; [|done].
  apply default_args_grammar in E. inv E as [|? ? ? Hs|? w' ? ? ? ? ? ?|].
  - by rewrite quote_not_space in Hs.
  - set_solver.
  - congruence.
Qed.
