(* ===== verification/Environment.v ===== *)
(** * The process environment

    The variables that [RuntimeImpl::network_init] of
    src/templates/runtime_impl.cc sets for GASNet, and what
    [configure_from_command_line] reads from others: the handler of error
    signals, the alarm that prints waiting events, and the options that are
    left over.  C strings are lists of characters, as in CommandLine. *)

From S2P Require Import Prelude CommandLine.
From stdpp Require Import strings.
Open Scope Z_scope.

(** ** Numbers in strings *)

Definition str (s : string) : list Z := (λ a, Z.of_N (Ascii.N_of_ascii a)) <$> String.list_ascii_of_string s.

Definition is_digit (c : Z) : bool := bool_decide (48 ≤ c ≤ 57).
Definition dec_val (ds : list Z) : Z := foldl (λ v c, 10 * v + (c - 48)) 0 ds.
Definition clamp64 (z : Z) : Z := Z.max (- 2 ^ 63) (Z.min (2 ^ 63 - 1) z).

Definition minus : Z := 45.
Definition plus : Z := 43.

(** [strtol(e, &pos, 10)]: the value, and the string from [pos] on; a string
    without a number is 0 and read no further. *)
Definition strtol (e : list Z) : Z * list Z :=
  let s := (read_until (λ c, negb (isspace c)) e).2 in
  let '(neg, s) :=
    match s with
    | c :: s' => if decide (c = minus) then (true, s') else if decide (c = plus) then (false, s') else (false, s)
    | [] => (false, s)
    end in
  match read_until (λ c, negb (is_digit c)) s with
  | ([], _) => (0, e)
  | (ds, rest) => (clamp64 (if neg : bool then - dec_val ds else dec_val ds), rest)
  end.

Definition atoi (e : list Z) : Z := i32 (strtol e).1.

(** "%d" *)
Fixpoint digits_of (fuel : nat) (n : Z) (acc : list Z) : list Z :=
  match fuel with
  | O => acc
  | S fuel =>
      let acc := 48 + n `mod` 10 :: acc in
      if decide (n < 10) then acc else digits_of fuel (n `div` 10) acc
  end.

Definition print_int (z : Z) : list Z :=
  if decide (z < 0) then minus :: digits_of 10 (- z) [] else digits_of 10 z [].

Lemma dec_val_snoc ds c : dec_val (ds ++ [c]) = 10 * dec_val ds + (c - 48).
Proof. unfold dec_val. by rewrite foldl_app. Qed.

Lemma digits_of_spec fuel : ∀ n acc,
  (0 < fuel)%nat → 0 ≤ n < 10 ^ Z.of_nat fuel →
  ∃ ds, digits_of fuel n acc = ds ++ acc ∧ ds ≠ [] ∧ Forall is_digit ds ∧ dec_val ds = n.
Proof.
  induction fuel as [|fuel IH]; intros n acc Hf Hn; [lia|]. cbn [digits_of].
  assert (is_digit (48 + n `mod` 10)) as Hd.
  { unfold is_digit. pose proof (Z.mod_pos_bound n 10 ltac:(lia)). apply bool_decide_pack. lia. }
  pose proof (Z.div_mod n 10 ltac:(lia)) as Hdm. case_decide as Hsm.
  - exists [48 + n `mod` 10]. split_all; [done|done|by constructor|].
    unfold dec_val. simpl. rewrite Z.mod_small by lia. lia.
  - destruct fuel as [|fuel]; [simpl in Hn; lia|].
    destruct (IH (n `div` 10) (48 + n `mod` 10 :: acc)) as (ds & -> & Hne & Hds & Hv); [lia| |].
    { split; [apply Z.div_pos; lia|]. apply Z.div_lt_upper_bound; [lia|].
      replace (Z.of_nat (S (S fuel))) with (1 + Z.of_nat (S fuel)) in Hn by lia.
      rewrite Z.pow_add_r in Hn by lia. lia. }
    exists (ds ++ [48 + n `mod` 10]). split_all.
    + by rewrite <-(assoc_L (++)).
    + by destruct ds.
    + apply Forall_app. split; [done|by constructor].
    + rewrite dec_val_snoc, Hv. lia.
Qed.

Lemma strtol_print z rest :
  - 10 ^ 10 < z < 10 ^ 10 → (∀ c r, rest = c :: r → is_digit c = false) →
  strtol (print_int z ++ rest) = (z, rest).
Proof.
  intros Hz Hr. unfold strtol, print_int.
  assert (∀ n, 0 ≤ n < 10 ^ 10 → ∃ d ds, digits_of 10 n [] = d :: ds ∧ Forall is_digit (d :: ds) ∧
    dec_val (d :: ds) = n) as Hdig.
  { intros n Hn. destruct (digits_of_spec 10 n []) as (ds & E & Hne & Hds & Hv); [lia|done|].
    rewrite app_nil_r in E. destruct ds as [|d ds]; [done|]. by exists d, ds. }
  assert (∀ d ds, Forall is_digit (d :: ds) →
    read_until (λ c, negb (is_digit c)) (d :: ds ++ rest) = (d :: ds, rest)) as Hread.
  { intros d ds Hds. apply (read_until_app _ (d :: ds)).
    - eapply Forall_impl; [exact Hds|]. intros c Hc. simpl. by apply Is_true_eq_true in Hc as ->.
    - intros c r' E. simpl. by rewrite (Hr c r'). }
  assert (∀ d l, is_digit d → read_until (λ c, negb (isspace c)) (d :: l) = ([], d :: l)) as Hsp.
  { intros d l Hd%bool_decide_unpack. simpl. unfold isspace. by rewrite bool_decide_false by lia. }
  case_decide as Hneg.
  - destruct (Hdig (- z)) as (d & ds & -> & Hds & Hv); [lia|]. cbn [app].
    replace (read_until (λ c, negb (isspace c)) (minus :: d :: ds ++ rest)) with (@nil Z, minus :: d :: ds ++ rest) by done.
    cbn [snd]. rewrite decide_True by done. rewrite (Hread d ds Hds). f_equal. rewrite Hv. unfold clamp64. lia.
  - destruct (Hdig z) as (d & ds & -> & Hds & Hv); [lia|].
    pose proof Hds as [Hd _]%Forall_cons. cbn [app]. rewrite (Hsp d _ Hd). cbn [snd].
    apply bool_decide_unpack in Hd.
    rewrite decide_False, decide_False by (unfold minus, plus; lia).
    rewrite (Hread d ds Hds). f_equal. rewrite Hv. unfold clamp64. lia.
Qed.

Lemma atoi_print z : is_i32 z → atoi (print_int z) = z.
Proof.
  intros Hz. unfold atoi. rewrite <-(app_nil_r (print_int z)).
  rewrite strtol_print; [by apply i32_id| |done]. unfold is_i32 in Hz. lia.
Qed.

(** ** [network_init] *)

Abbreviation env := (gmap string (list Z)).

(** [if(!getenv(x)) setenv(x, v, 0)] *)
Definition set_default (x : string) (v : list Z) (e : env) : env :=
  match e !! x with Some _ => e | None => <[x := v]> e end.

Definition PMI_GNI_COOKIE : string := "PMI_GNI_COOKIE".
Definition GASNET_IB_SPAWNER : string := "GASNET_IB_SPAWNER".
Definition GASNET_SPAWNER : string := "GASNET_SPAWNER".
Definition GASNET_PHYSMEM_NOPROBE : string := "GASNET_PHYSMEM_NOPROBE".
Definition GASNET_PHYSMEM_MAX : string := "GASNET_PHYSMEM_MAX".
Definition GASNET_AMRDMA_MAX_PEERS : string := "GASNET_AMRDMA_MAX_PEERS".

(** [orig_pmi_gni_cookie] *)
Definition new_cookie (e : env) : env :=
  match e !! PMI_GNI_COOKIE with
  | Some c => <[PMI_GNI_COOKIE := print_int (i32 (1 + atoi c))]> e
  | None => e
  end.

Definition default_spawner (e : env) : env :=
  match e !! GASNET_IB_SPAWNER, e !! GASNET_SPAWNER with
  | None, None => set_default GASNET_SPAWNER (str "mpi") (set_default GASNET_IB_SPAWNER (str "mpi") e)
  | _, _ => e
  end.

Definition disable_probe (e : env) : env :=
  match e !! GASNET_PHYSMEM_NOPROBE with
  | None => set_default GASNET_PHYSMEM_MAX (str "1T") (<[GASNET_PHYSMEM_NOPROBE := str "1"]> e)
  | Some v => if decide (atoi v > 0) then set_default GASNET_PHYSMEM_MAX (str "1T") e else e
  end.

(** [ibv]: compiled with [GASNET_CONDUIT_IBV]. *)
Definition network_env (ibv : bool) (e : env) : env :=
  let e := disable_probe (default_spawner (new_cookie e)) in
  if ibv then set_default GASNET_AMRDMA_MAX_PEERS (str "0") e else e.

Lemma set_default_lookup x v e y :
  set_default x v e !! y = if decide (y = x) then Some (default v (e !! x)) else e !! y.
Proof.
  unfold set_default. destruct (e !! x) as [w|] eqn:E; case_decide; subst; try done.
  - by rewrite lookup_insert_eq.
  - by rewrite lookup_insert_ne.
Qed.

Lemma new_cookie_lookup e y :
  new_cookie e !! y = if decide (y = PMI_GNI_COOKIE) then (λ c, print_int (i32 (1 + atoi c))) <$> e !! y else e !! y.
Proof.
  unfold new_cookie. destruct (e !! PMI_GNI_COOKIE) as [c|] eqn:E; case_decide as H; subst; rewrite ?E; try done.
  - by rewrite lookup_insert_eq.
  - by rewrite lookup_insert_ne.
Qed.

(** The others add variables and change none: what is added for [x]. *)
Definition added (e : env) (x : string) : option (list Z) :=
  if decide ((x = GASNET_IB_SPAWNER ∨ x = GASNET_SPAWNER) ∧ e !! GASNET_IB_SPAWNER = None ∧ e !! GASNET_SPAWNER = None)
  then Some (str "mpi")
  else if decide (x = GASNET_PHYSMEM_NOPROBE) then Some (str "1")
  else if decide (x = GASNET_PHYSMEM_MAX ∧ atoi (default (str "1") (e !! GASNET_PHYSMEM_NOPROBE)) > 0)
  then Some (str "1T") else None.

Lemma default_spawner_lookup e y :
  default_spawner e !! y =
    if decide (y = GASNET_IB_SPAWNER ∨ y = GASNET_SPAWNER)
    then match e !! y with Some v => Some v | None => added e y end else e !! y.
Proof.
  unfold default_spawner, added.
  destruct (e !! GASNET_IB_SPAWNER) eqn:E1, (e !! GASNET_SPAWNER) eqn:E2;
    rewrite ?set_default_lookup; destruct (decide (y = GASNET_IB_SPAWNER)) as [->|H1];
    try destruct (decide (y = GASNET_SPAWNER)) as [->|H2]; rewrite ?E1, ?E2; try done.
  all: repeat (case_decide; simplify_eq; try tauto); try done.
Qed.

(** Splits on the names that a look-up compares. *)
Ltac env_cases :=
  repeat (case_decide; simplify_eq; try done; try tauto);
  try (destruct_and?; destruct_or?; subst; done).

Lemma disable_probe_lookup e y :
  disable_probe e !! y =
    if decide (y = GASNET_PHYSMEM_NOPROBE ∨ y = GASNET_PHYSMEM_MAX)
    then match e !! y with Some v => Some v | None => added e y end else e !! y.
Proof.
  unfold disable_probe, added. destruct (e !! GASNET_PHYSMEM_NOPROBE) as [v|] eqn:E; simpl.
  - assert (∀ e' : env, (if decide (atoi v > 0) then e' else e) !! y =
      if decide (atoi v > 0) then e' !! y else e !! y) as Hif by (intros; by case_decide).
    rewrite Hif, set_default_lookup. clear Hif.
    destruct (decide (y = GASNET_PHYSMEM_NOPROBE)) as [->|H1]; [rewrite E; env_cases|].
    destruct (decide (y = GASNET_PHYSMEM_MAX)) as [->|H2]; [|env_cases].
    destruct (e !! GASNET_PHYSMEM_MAX) eqn:E2; env_cases.
  - rewrite set_default_lookup. assert (atoi (str "1") > 0) as H0 by (by vm_compute).
    destruct (decide (y = GASNET_PHYSMEM_NOPROBE)) as [->|H1].
    { rewrite E. rewrite lookup_insert_eq. env_cases. }
    rewrite !lookup_insert_ne by done.
    destruct (decide (y = GASNET_PHYSMEM_MAX)) as [->|H2]; [|env_cases].
    destruct (e !! GASNET_PHYSMEM_MAX) eqn:E2; env_cases.
Qed.

Lemma network_env_lookup ibv e y :
  network_env ibv e !! y =
    match new_cookie e !! y with
    | Some v => Some v
    | None => if decide (y = GASNET_AMRDMA_MAX_PEERS ∧ ibv = true) then Some (str "0") else added e y
    end.
Proof.
  assert (∀ x, x ≠ PMI_GNI_COOKIE → new_cookie e !! x = e !! x) as Hc.
  { intros x Hx. rewrite new_cookie_lookup. by rewrite decide_False. }
  assert (added (new_cookie e) y = added e y) as Ha by (unfold added; by rewrite !Hc).
  unfold network_env. set (e0 := new_cookie e) in *.
  assert (∀ x, disable_probe (default_spawner e0) !! x = match e0 !! x with Some v => Some v | None => added e0 x end) as Hy.
  { intros x. rewrite disable_probe_lookup, default_spawner_lookup. unfold added.
    rewrite (default_spawner_lookup e0 GASNET_PHYSMEM_NOPROBE).
    destruct (e0 !! x) eqn:E; env_cases. }
  destruct ibv; [rewrite set_default_lookup|]; rewrite !Hy, ?Ha.
  - case_decide as Hx.
    + subst. destruct (e0 !! _); [done|]. rewrite decide_True by done. unfold added. simpl. env_cases.
    + destruct (e0 !! y); [done|]. by rewrite decide_False by tauto.
  - destruct (e0 !! y); [done|]. rewrite decide_False by (intros []; done). done.
Qed.

(** What the user has set stays set.  [network_init] changes no variable
    the user gave a value except GNI's cookie, whose number grows by one, and
    adds none but the six it names: both spawners are MPI's if neither was
    chosen, and GASNet does not probe memory, up to a terabyte, unless the user
    wants it to.  A process that inherits the result gets nothing more than a
    new cookie. *)
Lemma network_env_ok ibv e :
  let e' := network_env ibv e in
  (∀ x v, e !! x = Some v → x ≠ PMI_GNI_COOKIE → e' !! x = Some v) ∧
  atoi <$> e' !! PMI_GNI_COOKIE = (λ c, i32 (1 + atoi c)) <$> e !! PMI_GNI_COOKIE ∧
  (∀ x, is_Some (e' !! x) → e !! x = None →
    x ∈ [GASNET_IB_SPAWNER; GASNET_SPAWNER; GASNET_PHYSMEM_NOPROBE; GASNET_PHYSMEM_MAX; GASNET_AMRDMA_MAX_PEERS]) ∧
  (e !! GASNET_IB_SPAWNER = None → e !! GASNET_SPAWNER = None →
    e' !! GASNET_IB_SPAWNER = Some (str "mpi") ∧ e' !! GASNET_SPAWNER = Some (str "mpi")) ∧
  (∃ v, e' !! GASNET_PHYSMEM_NOPROBE = Some v ∧
    (atoi v > 0 → e' !! GASNET_PHYSMEM_MAX = Some (default (str "1T") (e !! GASNET_PHYSMEM_MAX)))) ∧
  (∀ x, x ≠ PMI_GNI_COOKIE → network_env ibv e' !! x = e' !! x).
Proof.
  assert (∀ d x, x ≠ PMI_GNI_COOKIE → network_env ibv d !! x =
    match d !! x with
    | Some v => Some v
    | None => if decide (x = GASNET_AMRDMA_MAX_PEERS ∧ ibv = true) then Some (str "0") else added d x
    end) as Hl.
  { intros d x Hx. rewrite network_env_lookup, new_cookie_lookup. by rewrite (decide_False (P := x = _)). }
  intros e'. split_all.
  - intros x v Hv Hx. unfold e'. by rewrite Hl, Hv by done.
  - unfold e'. rewrite network_env_lookup, new_cookie_lookup, decide_True by done.
    destruct (e !! PMI_GNI_COOKIE) as [c|]; simpl.
    + f_equal. apply atoi_print. apply i32_range.
    + unfold added. env_cases.
  - intros x [v Hv] Hn. destruct (decide (x = PMI_GNI_COOKIE)) as [->|Hx].
    + unfold e' in Hv. rewrite network_env_lookup, new_cookie_lookup, Hn in Hv.
      revert Hv. simpl. unfold added. env_cases.
    + unfold e' in Hv. rewrite Hl, Hn in Hv by done. revert Hv. unfold added. env_cases; set_solver.
  - intros H1 H2. unfold e'. rewrite !Hl, H1, H2 by done. unfold added. rewrite H1, H2. split; env_cases.
  - unfold e'. rewrite !Hl by done. unfold added at 1.
    destruct (e !! GASNET_PHYSMEM_NOPROBE) as [v|] eqn:E.
    + exists v. split; [done|]. intros Hv. destruct (e !! GASNET_PHYSMEM_MAX); [done|].
      unfold added. rewrite E. env_cases.
    + exists (str "1"). split; [env_cases|]. intros Hv. destruct (e !! GASNET_PHYSMEM_MAX); [done|].
      unfold added. rewrite E. env_cases.
  - intros x Hx. rewrite Hl by done. destruct (e' !! x) as [v|] eqn:E; [done|].
    revert E. unfold e' at 1. rewrite Hl by done. destruct (e !! x) eqn:Ex; [done|].
    destruct (decide (x = _ ∧ ibv = true)); [tauto|]. intros E. unfold added in *.
    assert (e' !! GASNET_PHYSMEM_NOPROBE = Some (default (str "1") (e !! GASNET_PHYSMEM_NOPROBE))) as ->.
    { unfold e'. rewrite Hl by done. destruct (e !! GASNET_PHYSMEM_NOPROBE); [done|]. unfold added. env_cases. }
    assert (e' !! GASNET_IB_SPAWNER = None → e' !! GASNET_SPAWNER = None →
      e !! GASNET_IB_SPAWNER = None ∧ e !! GASNET_SPAWNER = None) as Hsp.
    { unfold e'. rewrite !Hl by done. by destruct (e !! GASNET_IB_SPAWNER), (e !! GASNET_SPAWNER). }
    simpl in *. env_cases.
Qed.

(** ** [configure_from_command_line] *)

(** What is installed for SIGINT, SIGABRT, SIGSEGV, SIGFPE and SIGBUS. *)
Inductive error_handler := realm_freeze | realm_backtrace.
Inductive signal := SIGINT | SIGABRT | SIGSEGV | SIGFPE | SIGBUS | SIGILL.

Definition error_signals : list signal := [SIGINT; SIGABRT; SIGSEGV; SIGFPE; SIGBUS].

Definition error_signal_handler (e : env) : option error_handler :=
  if decide (is_Some (e !! "LEGION_FREEZE_ON_ERROR") ∨ is_Some (e !! "REALM_FREEZE_ON_ERROR")) then Some realm_freeze
  else if decide (is_Some (e !! "REALM_BACKTRACE") ∨ is_Some (e !! "LEGION_BACKTRACE")) then Some realm_backtrace
  else None.

(** The assertion each handler starts with. *)
Definition handler_expects (h : error_handler) (s : signal) : bool :=
  match h, s with
  | realm_freeze, (SIGINT | SIGABRT | SIGSEGV | SIGFPE | SIGBUS) => true
  | realm_backtrace, (SIGILL | SIGFPE | SIGABRT | SIGSEGV | SIGBUS) => true
  | _, _ => false
  end.

(** [realm_backtrace] is installed for SIGINT but asserts that it gets another
    signal. *)
Lemma signals_expected e h s :
  error_signal_handler e = Some h → s ∈ error_signals →
  handler_expects h s = false ↔ h = realm_backtrace ∧ s = SIGINT.
Proof.
  intros _ Hs. unfold error_signals in Hs. set_unfold.
  destruct h; destruct_or!; subst; simpl; split; naive_solver.
Qed.

(** [REALM_SHOW_EVENT_WAITERS], in seconds: no result for an assertion, and
    [Some None] when the variable is not set. *)
Definition event_waiters_delay (my_node_id : Z) (e : env) : option (option Z) :=
  match e !! "REALM_SHOW_EVENT_WAITERS" with
  | None => Some None
  | Some v =>
      let '(n, pos) := strtol v in
      let delay := i32 n in
      assert! delay > 0;
      Some (Some (match pos with
                  | c :: pos => if decide (c = plus) then i32 (delay + i32 (my_node_id * atoi pos)) else delay
                  | [] => delay
                  end))
  end.

(** "delay+step" staggers the nodes. *)
Lemma event_waiters_staggered my_node_id e delay step :
  e !! "REALM_SHOW_EVENT_WAITERS" = Some (print_int delay ++ plus :: print_int step) →
  0 < delay → is_i32 delay → is_i32 step → is_i32 (my_node_id * step) → is_i32 (delay + my_node_id * step) →
  event_waiters_delay my_node_id e = Some (Some (delay + my_node_id * step)).
Proof.
  intros He Hd Hid His Hm Hi. unfold event_waiters_delay. rewrite He.
  rewrite strtol_print; [|unfold is_i32 in *; lia|by intros ? ? [= <- _]].
  rewrite (i32_id delay) by done. rewrite assert_true by lia. rewrite decide_True by done.
  rewrite atoi_print by done. by rewrite (i32_id (_ * _)), i32_id by done.
Qed.

(** [it->compare(0, 4, "-ll:") == 0]; any such option that no parser has
    taken stops the program. *)
Definition is_ll_option (arg : list Z) : bool := bool_decide (take 4 arg = str "-ll:").
Definition check_leftover (cmdline : list (list Z)) : option () :=
  if existsb is_ll_option cmdline then None else Some ().

Lemma leftover_stops cmdline : check_leftover cmdline = None ↔ ∃ rest, (str "-ll:" ++ rest) ∈ cmdline.
Proof.
  unfold check_leftover. destruct (existsb is_ll_option cmdline) eqn:E.
  - split; [|done]. intros _. apply existsb_exists in E as (a & Ha & Hb).
    apply bool_decide_eq_true in Hb. exists (drop 4 a). rewrite <-Hb, take_drop. by apply list_elem_of_In.
  - split; [done|]. intros [rest Hin]. assert (existsb is_ll_option cmdline = true) as E2; [|congruence].
    apply existsb_exists. exists (str "-ll:" ++ rest). split; [by apply list_elem_of_In|].
    unfold is_ll_option. apply bool_decide_eq_true. reflexivity.
Qed.

(** The user has chosen a spawner and a limit, and runs under a spawner that
    hands out cookies. *)
Lemma network_env_example :
  let e : env := <["PMI_GNI_COOKIE" := str "41"]> (<["GASNET_SPAWNER" := str "ssh"]> (<["GASNET_PHYSMEM_MAX" := str "8G"]> ∅)) in
  let e' := network_env false e in
  e' !! "PMI_GNI_COOKIE" = Some (str "42") ∧ e' !! "GASNET_SPAWNER" = Some (str "ssh") ∧
  e' !! "GASNET_IB_SPAWNER" = None ∧ e' !! "GASNET_PHYSMEM_MAX" = Some (str "8G") ∧
  e' !! "GASNET_PHYSMEM_NOPROBE" = Some (str "1").
Proof. vm_compute. done. Qed.
