(* ===== verification/NodeTables.v ===== *)
(** * Tables of local objects

    The identifiers a node gives to its memories and processors, the tables it
    enters them in, and the look-up of an object by its identifier:
    [next_local_memory_id], [add_memory], [get_memory_impl] and the like in
    [RuntimeImpl] of src/templates/runtime_impl.cc. *)

From S2P Require Import Prelude.

(** ** Identifiers

    They are made and taken apart by [ID], which is given. *)
Class IdOps := {
  make_memory : Z → Z → Z;
  make_ib_memory : Z → Z → Z;
  make_processor : Z → Z → Z;
  is_memory : Z → bool;
  is_ib_memory : Z → bool;
  is_instance : Z → bool;
  is_processor : Z → bool;
  is_procgroup : Z → bool;
  owner_node : Z → Z;            (* id.memory *)
  mem_idx : Z → Z;
  ib_owner_node : Z → Z;         (* id.ib_memory *)
  ib_mem_idx : Z → Z;
  inst_owner_node : Z → Z;       (* id.instance *)
  inst_mem_idx : Z → Z;
  proc_owner_node : Z → Z;       (* id.proc *)
  proc_idx : Z → Z;
  MAX_NODE_ID : Z }.

(** An identifier of the node keeps its kind and its parts, up to the width of
    an index, whose last value is reserved; a memory and an intermediate
    buffer have them in the same places. *)
Class IdLaws (O : IdOps) (my_node_id index_limit : Z) := {
  id_limit : index_limit ≤ Z.shiftl 1 12 - 1;
  id_node : my_node_id ≤ MAX_NODE_ID;
  id_memory i : 0 ≤ i < index_limit →
    let id := make_memory my_node_id i in
    is_memory id = true ∧ owner_node id = my_node_id ∧ mem_idx id = i;
  id_ib_memory i : 0 ≤ i < index_limit →
    let id := make_ib_memory my_node_id i in
    is_memory id = false ∧ is_ib_memory id = true ∧ owner_node id = my_node_id ∧ mem_idx id = i ∧
    ib_owner_node id = my_node_id ∧ ib_mem_idx id = i;
  id_processor i : 0 ≤ i < index_limit →
    let id := make_processor my_node_id i in
    is_procgroup id = false ∧ is_processor id = true ∧ proc_owner_node id = my_node_id ∧ proc_idx id = i }.

(** ** The tables of a node

    A table is a vector of objects, each known by its identifier [me], with
    [None] for a null pointer. *)
Record node_tables := mkTables {
  num_local_memories : Z;
  num_local_ib_memories : Z;
  num_local_processors : Z;
  memories : list (option Z);
  ib_memories : list (option Z);
  processors : list (option Z) }.

Definition node_tables_init : node_tables := mkTables 0 0 0 [] [] [].

Section tables.
Context `{O : IdOps} (my_node_id : Z).

Definition next_local_memory_id (t : node_tables) : node_tables * Z :=
  (mkTables (u64 (num_local_memories t + 1)) (num_local_ib_memories t) (num_local_processors t)
     (memories t) (ib_memories t) (processors t),
   make_memory my_node_id (num_local_memories t)).
Definition next_local_ib_memory_id (t : node_tables) : node_tables * Z :=
  (mkTables (num_local_memories t) (u64 (num_local_ib_memories t + 1)) (num_local_processors t)
     (memories t) (ib_memories t) (processors t),
   make_ib_memory my_node_id (num_local_ib_memories t)).
Definition next_local_processor_id (t : node_tables) : node_tables * Z :=
  (mkTables (num_local_memories t) (num_local_ib_memories t) (u64 (num_local_processors t + 1))
     (memories t) (ib_memories t) (processors t),
   make_processor my_node_id (num_local_processors t)).

Definition add_memory (t : node_tables) (me : Z) : option node_tables :=
  assert! owner_node me = my_node_id;
  assert! mem_idx me = zlen (memories t);
  Some (mkTables (num_local_memories t) (num_local_ib_memories t) (num_local_processors t)
          (memories t ++ [Some me]) (ib_memories t) (processors t)).
Definition add_ib_memory (t : node_tables) (me : Z) : option node_tables :=
  assert! owner_node me = my_node_id;
  assert! mem_idx me = zlen (ib_memories t);
  Some (mkTables (num_local_memories t) (num_local_ib_memories t) (num_local_processors t)
          (memories t) (ib_memories t ++ [Some me]) (processors t)).
Definition add_processor (t : node_tables) (me : Z) : option node_tables :=
  assert! proc_owner_node me = my_node_id;
  assert! proc_idx me = zlen (processors t);
  Some (mkTables (num_local_memories t) (num_local_ib_memories t) (num_local_processors t)
          (memories t) (ib_memories t) (processors t ++ [Some me])).

(** ** Looking an object up *)

(** The global memory is not in a table, and is returned as it is. *)
Inductive memory_impl := GlobalMemory | TableMemory (me : Z).

Definition null_check {A} (p : option A) : option A := p.

Definition node_entry {A} (nodes : list A) (tbl : A → list (option Z)) (n idx : Z) : option Z :=
  t ← aget nodes n; p ← aget (tbl t) idx; null_check p.

Definition get_memory_impl (nodes : list node_tables) (id : Z) : option memory_impl :=
  if is_memory id then
    if decide (owner_node id > MAX_NODE_ID ∨ mem_idx id = Z.shiftl 1 12 - 1) then Some GlobalMemory
    else TableMemory <$> node_entry nodes memories (owner_node id) (mem_idx id)
  else if is_ib_memory id then
    TableMemory <$> node_entry nodes ib_memories (ib_owner_node id) (ib_mem_idx id)
  else if is_instance id then
    if decide (inst_owner_node id > MAX_NODE_ID ∨ inst_mem_idx id = Z.shiftl 1 12 - 1) then Some GlobalMemory
    else TableMemory <$> node_entry nodes memories (inst_owner_node id) (inst_mem_idx id)
  else assert! False; None.

(** [get_procgroup_impl] looks in a [DynamicTable], which is given. *)
Definition get_processor_impl (get_procgroup_impl : Z → option Z) (nodes : list node_tables) (id : Z)
    : option Z :=
  if is_procgroup id then get_procgroup_impl id
  else
    assert! is_processor id = true;
    node_entry nodes processors (proc_owner_node id) (proc_idx id).

(** ** Creating objects *)
Inductive kind := KMemory | KIbMemory | KProcessor.

(** An identifier is taken and the object made with it is added. *)
Definition create (k : kind) (t : node_tables) : option (node_tables * Z) :=
  match k with
  | KMemory => let '(t, m) := next_local_memory_id t in t ← add_memory t m; Some (t, m)
  | KIbMemory => let '(t, m) := next_local_ib_memory_id t in t ← add_ib_memory t m; Some (t, m)
  | KProcessor => let '(t, p) := next_local_processor_id t in t ← add_processor t p; Some (t, p)
  end.

Fixpoint create_all (ks : list kind) (t : node_tables) : option (node_tables * list Z) :=
  match ks with
  | [] => Some (t, [])
  | k :: ks =>
      '(t, id) ← create k t; '(t, ids) ← create_all ks t; Some (t, id :: ids)
  end.

Definition make_id (k : kind) (i : Z) : Z :=
  match k with
  | KMemory => make_memory my_node_id i
  | KIbMemory => make_ib_memory my_node_id i
  | KProcessor => make_processor my_node_id i
  end.

Definition table (k : kind) : node_tables → list (option Z) :=
  match k with KMemory => memories | KIbMemory => ib_memories | KProcessor => processors end.

Definition counter (k : kind) : node_tables → Z :=
  match k with
  | KMemory => num_local_memories | KIbMemory => num_local_ib_memories | KProcessor => num_local_processors
  end.

(** The counters agree with the tables, and the tables hold the objects with
    the identifiers in order. *)
Record tables_ok (t : node_tables) : Prop := {
  to_counter k : counter k t = zlen (table k t);
  to_filled k i : 0 ≤ i < zlen (table k t) → aget (table k t) i = Some (Some (make_id k i)) }.

#[local] Instance kind_eq_dec : EqDecision kind.
Proof. solve_decision. Defined.

Lemma tables_init_ok : tables_ok node_tables_init.
Proof. split; [by intros []|]. intros [] i; cbn; unfold zlen; simpl; lia. Qed.

Context {index_limit : Z} `{L : !IdLaws O my_node_id index_limit}.

Lemma create_ok k t : tables_ok t → zlen (table k t) < index_limit →
  ∃ t', create k t = Some (t', make_id k (zlen (table k t))) ∧ tables_ok t' ∧
    ∀ k', table k' t' = if decide (k' = k) then table k t ++ [Some (make_id k (zlen (table k t)))] else table k' t.
Proof.
  intros [Hc Hf] Hl. pose proof (zlen_nonneg (table k t)) as H0. pose proof (id_limit (index_limit := index_limit)) as Hlim.
  change (Z.shiftl 1 12 - 1) with 4095 in Hlim.
  assert (∃ t', create k t = Some (t', make_id k (zlen (table k t))) ∧
    (∀ k', counter k' t' = if decide (k' = k) then zlen (table k t) + 1 else counter k' t) ∧
    (∀ k', table k' t' = if decide (k' = k) then table k t ++ [Some (make_id k (zlen (table k t)))] else table k' t))
    as (t' & E & Hc' & Ht').
  { destruct k; unfold create, next_local_memory_id, next_local_ib_memory_id, next_local_processor_id,
      add_memory, add_ib_memory, add_processor; cbn [memories ib_memories processors];
      [rewrite (Hc KMemory : num_local_memories t = zlen (memories t))|rewrite (Hc KIbMemory : num_local_ib_memories t = zlen (ib_memories t))|rewrite (Hc KProcessor : num_local_processors t = zlen (processors t))]; cbn [table] in *.
    - destruct (id_memory (index_limit := index_limit) (zlen (memories t))) as (_ & E1 & E2); [lia|]. rewrite E1, E2, !assert_true by done.
      eexists. split; [done|]. split; intros []; try done. rewrite decide_True by done; apply u64_id; unfold is_u64; lia.
    - destruct (id_ib_memory (index_limit := index_limit) (zlen (ib_memories t))) as (_ & _ & E1 & E2 & _); [lia|]. rewrite E1, E2, !assert_true by done.
      eexists. split; [done|]. split; intros []; try done. rewrite decide_True by done; apply u64_id; unfold is_u64; lia.
    - destruct (id_processor (index_limit := index_limit) (zlen (processors t))) as (_ & _ & E1 & E2); [lia|]. rewrite E1, E2, !assert_true by done.
      eexists. split; [done|]. split; intros []; try done. rewrite decide_True by done; apply u64_id; unfold is_u64; lia. }
  exists t'. split; [done|]. split; [|done]. split.
  - intros k'. rewrite Hc', Ht'. case_decide; [|apply Hc]. rewrite zlen_app. done.
  - intros k' i. rewrite Ht'. case_decide as Ek; [subst k'|apply Hf]. rewrite zlen_app. intros Hi.
    destruct (Z.lt_ge_cases i (zlen (table k t))) as [Hlt|Hge].
    + rewrite aget_app_l by done. apply Hf. lia.
    + change (zlen [_]) with 1 in Hi. assert (i = zlen (table k t)) as -> by lia.
      rewrite aget_app_r by lia. by rewrite Z.sub_diag.
Qed.

(** An object in a table is found by its identifier. *)
Definition found (get_procgroup_impl : Z → option Z) (nodes : list node_tables) (k : kind) (id : Z) : Prop :=
  match k with
  | KProcessor => get_processor_impl get_procgroup_impl nodes id = Some id
  | _ => get_memory_impl nodes id = Some (TableMemory id)
  end.

Lemma entry_found pg nodes k t i :
  tables_ok t → aget nodes my_node_id = Some t → 0 ≤ i < zlen (table k t) → i < index_limit →
  found pg nodes k (make_id k i).
Proof.
  intros [_ Hf] Ht Hi Hl. specialize (Hf k i Hi). pose proof (id_limit (index_limit := index_limit)) as Hlim. pose proof (id_node (index_limit := index_limit)) as Hnode.
  destruct k; cbn [found make_id table] in *; unfold get_memory_impl, get_processor_impl, node_entry.
  - destruct (id_memory (index_limit := index_limit) i) as (E0 & E1 & E2); [lia|]. rewrite E0, E1, E2, decide_False by lia.
    rewrite Ht. cbn. by rewrite Hf.
  - destruct (id_ib_memory (index_limit := index_limit) i) as (E0 & E1 & _ & _ & E2 & E3); [lia|]. rewrite E0, E1, E2, E3, Ht. cbn. by rewrite Hf.
  - destruct (id_processor (index_limit := index_limit) i) as (E0 & E1 & E2 & E3); [lia|]. rewrite E0, E1, assert_true by done.
    rewrite E2, E3, Ht. cbn. by rewrite Hf.
Qed.

(** The identifiers of one kind among those created. *)
Definition ids_of (k : kind) (ks : list kind) (ids : list Z) : list Z :=
  snd <$> filter (λ e, e.1 = k) (zip ks ids).

Lemma create_all_ok ks : ∀ t, tables_ok t →
  (∀ k, zlen (table k t) + zlen ks ≤ index_limit) →
  ∃ t' ids, create_all ks t = Some (t', ids) ∧ tables_ok t' ∧ length ids = length ks ∧
    ∀ k, zlen (table k t) ≤ zlen (table k t') ≤ index_limit ∧
      ids_of k ks ids = make_id k <$> seqZ (zlen (table k t)) (zlen (table k t') - zlen (table k t)).
Proof.
  induction ks as [|k ks IH]; intros t Ht Hl.
  - exists t, []. split_all; [done..|]. intros k. specialize (Hl k).
    split; [unfold zlen in *; simpl in *; lia|]. by rewrite Z.sub_diag.
  - destruct (create_ok k t Ht) as (t1 & E1 & Ht1 & Htab1).
    { specialize (Hl k). rewrite zlen_cons in Hl. pose proof (zlen_nonneg ks). lia. }
    assert (∀ k', zlen (table k' t1) = zlen (table k' t) + (if decide (k' = k) then 1 else 0)) as Hz.
    { intros k'. rewrite Htab1. case_decide; [subst; rewrite zlen_app; done|lia]. }
    destruct (IH t1 Ht1) as (t2 & ids & E2 & Ht2 & Hlen & Hids).
    { intros k'. specialize (Hl k'). rewrite zlen_cons in Hl. rewrite Hz. case_decide; lia. }
    exists t2, (make_id k (zlen (table k t)) :: ids). cbn [create_all]. rewrite E1. cbn [mbind option_bind].
    rewrite E2. split_all; [done|done|simpl; lia|]. intros k'. destruct (Hids k') as [[H1 H2] H3].
    rewrite Hz in H1. split; [case_decide; lia|]. unfold ids_of in *. cbn [zip zip_with].
    rewrite filter_cons. cbn [fst]. rewrite Hz in H3. destruct (decide (k' = k)) as [->|Hne].
    + rewrite decide_True by done. rewrite fmap_cons, H3. cbn [snd].
      rewrite (seqZ_cons (zlen (table k t))) by lia. rewrite fmap_cons. do 2 f_equal.
      f_equal; unfold Z.succ, Z.pred; lia.
    + rewrite decide_False by congruence. rewrite H3. f_equal. f_equal; lia.
Qed.

(** What a node creates it finds again.  As many memories, intermediate
    buffers and processors as an index can number are created without failing
    an assertion, the identifiers of each kind are numbered in the order of
    creation, so that none is given twice, and looking an identifier up
    afterwards yields the object created with it, never the global memory. *)
Lemma created_found pg nodes ks :
  0 ≤ my_node_id < zlen nodes → zlen ks ≤ index_limit →
  ∃ t ids, create_all ks node_tables_init = Some (t, ids) ∧
    (∀ k, ids_of k ks ids = make_id k <$> seqZ 0 (zlen (table k t))) ∧
    Forall2 (found pg (aset nodes my_node_id t)) ks ids.
Proof.
  intros Hn Hl. destruct (create_all_ok ks node_tables_init tables_init_ok) as (t & ids & E & Ht & Hlen & Hids).
  { intros []; exact Hl. }
  assert (∀ k, ids_of k ks ids = make_id k <$> seqZ 0 (zlen (table k t))) as Hids'.
  { intros k. destruct (Hids k) as [_ ->]. f_equal. destruct k; f_equal; cbn; unfold zlen; simpl; lia. }
  exists t, ids. split_all; [done|done|]. apply Forall2_same_length_lookup_2; [done|].
  intros i k id Hk Hid.
  assert (id ∈ ids_of k ks ids) as Hin.
  { unfold ids_of. apply list_elem_of_fmap. exists (k, id). split; [done|]. apply list_elem_of_filter.
    split; [done|]. apply list_elem_of_lookup. exists i. by rewrite lookup_zip_with, Hk, Hid. }
  rewrite Hids' in Hin. apply list_elem_of_fmap in Hin as (j & -> & Hj%elem_of_seqZ).
  destruct (Hids k) as [[_ Hle] _]. apply (entry_found pg _ k t j); [done| |lia|lia].
  by apply aget_aset_eq.
Qed.
End tables.

(** A kind, an owner of 32 bits and an index of 16 bits. *)
Definition example_ids : IdOps := {|
  make_memory o i := 1 * 2 ^ 48 + (o * 2 ^ 16 + i);
  make_ib_memory o i := 2 * 2 ^ 48 + (o * 2 ^ 16 + i);
  make_processor o i := 3 * 2 ^ 48 + (o * 2 ^ 16 + i);
  is_memory id := bool_decide (id `div` 2 ^ 48 = 1);
  is_ib_memory id := bool_decide (id `div` 2 ^ 48 = 2);
  is_instance id := bool_decide (id `div` 2 ^ 48 = 4);
  is_processor id := bool_decide (id `div` 2 ^ 48 = 3);
  is_procgroup id := bool_decide (id `div` 2 ^ 48 = 5);
  owner_node id := (id `mod` 2 ^ 48) `div` 2 ^ 16;
  mem_idx id := (id `mod` 2 ^ 48) `mod` 2 ^ 16;
  ib_owner_node id := (id `mod` 2 ^ 48) `div` 2 ^ 16;
  ib_mem_idx id := (id `mod` 2 ^ 48) `mod` 2 ^ 16;
  inst_owner_node id := (id `mod` 2 ^ 48) `div` 2 ^ 16;
  inst_mem_idx id := (id `mod` 2 ^ 48) `mod` 2 ^ 16;
  proc_owner_node id := (id `mod` 2 ^ 48) `div` 2 ^ 16;
  proc_idx id := (id `mod` 2 ^ 48) `mod` 2 ^ 16;
  MAX_NODE_ID := 65535 |}.

Lemma example_id_parts k o i : 0 ≤ o ≤ 65535 → 0 ≤ i < 4095 →
  let id := k * 2 ^ 48 + (o * 2 ^ 16 + i) in
  id `div` 2 ^ 48 = k ∧ (id `mod` 2 ^ 48) `div` 2 ^ 16 = o ∧ (id `mod` 2 ^ 48) `mod` 2 ^ 16 = i.
Proof.
  intros Ho Hi id.
  assert (id `mod` 2 ^ 48 = o * 2 ^ 16 + i) as E.
  { unfold id. rewrite Z.add_comm, Z.mod_add by lia. apply Z.mod_small. lia. }
  rewrite E. split_all.
  - unfold id. rewrite Z.div_add_l by lia. rewrite Z.div_small by lia. lia.
  - rewrite Z.div_add_l by lia. rewrite Z.div_small by lia. lia.
  - rewrite Z.add_comm, Z.mod_add by lia. apply Z.mod_small. lia.
Qed.

Lemma example_ids_laws o : 0 ≤ o ≤ 65535 → IdLaws example_ids o 4095.
Proof.
  intros Ho. split; [done|apply Ho|intros i Hi; cbn -[Z.pow Z.mul Z.add]..].
  - destruct (example_id_parts 1 o i Ho Hi) as (-> & -> & ->). done.
  - destruct (example_id_parts 2 o i Ho Hi) as (-> & -> & ->). done.
  - destruct (example_id_parts 3 o i Ho Hi) as (-> & -> & ->). done.
Qed.

(** Node 1 of two creates two processors and a memory between them. *)
Lemma created_found_witness :
  ∃ t ids, create_all (O := example_ids) 1 [KProcessor; KMemory; KProcessor] node_tables_init = Some (t, ids) ∧
    Forall2 (found (O := example_ids) (λ _, None) (aset [node_tables_init; node_tables_init] 1 t))
      [KProcessor; KMemory; KProcessor] ids.
Proof.
  destruct (created_found (O := example_ids) 1 (index_limit := 4095) (L := example_ids_laws 1 ltac:(lia))
    (λ _, None) [node_tables_init; node_tables_init] [KProcessor; KMemory; KProcessor])
    as (t & ids & E & _ & Hf); [vm_compute; split; congruence|vm_compute; congruence|].
  exists t, ids. split; [exact E|exact Hf].
Defined.
