(* ===== verification/Lookup.v ===== *)
(** * Dynamic tables and look-up by handle

    Events, barriers, reservations, processor groups and sparsity maps live in
    dynamic tables: the leaf a table grows by and its place in the list of free
    entries ([DynamicTableAllocator::new_leaf_node] of
    src/templates/runtime_impl.h), the [get_*_impl] functions of
    src/templates/runtime_impl.cc that find the object of a handle, the
    lock-free construction of the table of sparsity maps in
    [get_sparsity_impl], and the repair of its entries.  [DynamicTable] itself
    is an interface with its law. *)

From stdpp Require Import gmap.
From S2P Require Import Prelude NodeTables.

(** ** A new leaf

    Entries are known by their address; [next_free] links the free ones, with
    0 for the null pointer. *)
Record elem := mkElem { me : Z; next_free : Z }.

Section leaf.
Context (make_id : Z → Z → Z) (LEAF_BITS : Z).

Definition last_ofs : Z := Z.shiftl 1 LEAF_BITS - 1.

(** "leaf->elems[i].init(make_id(...), owner)", whatever [next_free] was. *)
Definition init_elem (leaf first_index owner : Z) (h : gmap Z elem) (i : Z) : gmap Z elem :=
  <[leaf + i := mkElem (make_id owner (first_index + i)) (default (mkElem 0 0) (h !! (leaf + i))).(next_free)]> h.

Definition stitch_elem (leaf first_free : Z) (h : gmap Z elem) (i : Z) : gmap Z elem :=
  alter (λ e, mkElem (me e) (if decide (i < last_ofs) then leaf + (i + 1) else first_free)) (leaf + i) h.

(** [leaf] is the address of the new entries; the list of free ones, if there
    is one, is its first entry. *)
Definition new_leaf_node (leaf first_index owner : Z) (h : gmap Z elem) (free_list : option Z)
    : gmap Z elem * option Z :=
  let h := foldl (init_elem leaf first_index owner) h (seqZ 0 (last_ofs + 1)) in
  match free_list with
  | None => (h, None)
  | Some first_free =>
      (foldl (stitch_elem leaf first_free) h (seqZ 0 (last_ofs + 1)),
       Some (leaf + (if decide (first_index ≠ 0) then 0 else 1)))
  end.

(** The free entries from [p] on. *)
Fixpoint free_chain (h : gmap Z elem) (p : Z) (l : list Z) : Prop :=
  match l with
  | [] => p = 0
  | x :: l => p = x ∧ x ≠ 0 ∧ ∃ e, h !! x = Some e ∧ free_chain h (next_free e) l
  end.

(** *** What it makes *)

Lemma init_lookup leaf first owner n : ∀ k h x,
  foldl (init_elem leaf first owner) h (seqZ k (Z.of_nat n)) !! x =
  if decide (leaf + k ≤ x < leaf + k + Z.of_nat n)
  then Some (mkElem (make_id owner (first + (x - leaf))) (default (mkElem 0 0) (h !! x)).(next_free))
  else h !! x.
Proof.
  induction n as [|n IH]; intros k h x.
  { rewrite decide_False by lia. by rewrite seqZ_nil by lia. }
  rewrite (seqZ_cons k) by lia. replace (Z.pred (Z.of_nat (S n))) with (Z.of_nat n) by lia.
  cbn [foldl]. rewrite IH. unfold init_elem. unfold Z.succ.
  destruct (decide (x = leaf + k)) as [->|Hne].
  - rewrite lookup_insert_eq. repeat case_decide; try lia. do 3 f_equal. lia.
  - rewrite lookup_insert_ne by done. repeat case_decide; done || lia.
Qed.

Lemma stitch_lookup leaf ff n : ∀ k h x,
  foldl (stitch_elem leaf ff) h (seqZ k (Z.of_nat n)) !! x =
  if decide (leaf + k ≤ x < leaf + k + Z.of_nat n)
  then (λ e, mkElem (me e) (if decide (x - leaf < last_ofs) then x + 1 else ff)) <$> h !! x
  else h !! x.
Proof.
  induction n as [|n IH]; intros k h x.
  { rewrite decide_False by lia. by rewrite seqZ_nil by lia. }
  rewrite (seqZ_cons k) by lia. replace (Z.pred (Z.of_nat (S n))) with (Z.of_nat n) by lia.
  cbn [foldl]. rewrite IH. unfold stitch_elem. unfold Z.succ.
  destruct (decide (x = leaf + k)) as [->|Hne].
  - rewrite lookup_alter_eq. replace (leaf + k - leaf) with k by lia.
    replace (leaf + (k + 1)) with (leaf + k + 1) by lia.
    rewrite (decide_False (P := leaf + k + 1 ≤ _ < _)) by lia. by rewrite (decide_True (P := _ ≤ _ < _)) by lia.
  - rewrite lookup_alter_ne by done. repeat case_decide; done || lia.
Qed.

(** A chain does not look at other entries. *)
Lemma free_chain_frame h h' l : ∀ p,
  (∀ x, x ∈ l → h' !! x = h !! x) → free_chain h p l → free_chain h' p l.
Proof.
  induction l as [|x l IH]; intros p Hf; [done|]. intros (-> & Hx & e & E & Hc).
  split; [done|]. split; [done|]. exists e. rewrite Hf by (by left). split; [done|].
  apply IH; [|done]. intros y Hy. apply Hf. by right.
Qed.

(** A row of entries, each linked to the one after it. *)
Lemma free_chain_row h q l n : ∀ p, 0 < p →
  (∀ x, p ≤ x < p + Z.of_nat n → ∃ m, h !! x =
    Some (mkElem m (if decide (x < p + Z.of_nat n - 1) then x + 1 else q))) →
  (n = 0%nat → p = q) → free_chain h q l → free_chain h p (seqZ p (Z.of_nat n) ++ l).
Proof.
  induction n as [|n IH]; intros p Hp Hrow H0 Hc; [by rewrite (H0 eq_refl)|].
  rewrite seqZ_cons by lia. replace (Z.pred (Z.of_nat (S n))) with (Z.of_nat n) by lia.
  cbn [app free_chain]. split; [done|]. split; [lia|].
  destruct (Hrow p) as [m E]; [lia|]. eexists. split; [exact E|]. cbn [next_free].
  destruct n as [|n].
  - rewrite decide_False by lia. done.
  - rewrite decide_True by lia. unfold Z.succ. apply IH; [lia| |done|done].
    intros x Hx. destruct (Hrow x) as [m' E']; [lia|]. exists m'. rewrite E'.
    do 2 f_equal. repeat case_decide; done || lia.
Qed.

(** A new leaf is numbered and free.  Its entries carry the handles of their
    owner and of their places in the table, entries there were before are as
    they were, and the list of free entries now has those of the leaf in order
    before the old ones, except that the entry with index 0, which no handle
    may name, is left out. *)
Lemma new_leaf_node_ok leaf first_index owner h first_free l :
  1 ≤ LEAF_BITS → 0 < leaf → free_chain h first_free l →
  (∀ i, 0 ≤ i ≤ last_ofs → h !! (leaf + i) = None) →
  ∃ h' ff, new_leaf_node leaf first_index owner h (Some first_free) = (h', Some ff) ∧
    (∀ i, 0 ≤ i ≤ last_ofs → me <$> h' !! (leaf + i) = Some (make_id owner (first_index + i))) ∧
    (∀ x, is_Some (h !! x) → h' !! x = h !! x) ∧
    free_chain h' ff
      ((if decide (first_index = 0) then seqZ (leaf + 1) last_ofs else seqZ leaf (last_ofs + 1)) ++ l).
Proof.
  intros HB Hleaf Hc Hfresh.
  assert (1 ≤ last_ofs) as Hlast.
  { unfold last_ofs. rewrite Z.shiftl_1_l. pose proof (Z.pow_le_mono_r 2 1 LEAF_BITS). lia. }
  assert (∃ n, last_ofs = Z.of_nat n) as [n Hn] by (exists (Z.to_nat last_ofs); lia).
  unfold new_leaf_node. replace (last_ofs + 1) with (Z.of_nat (S n)) by lia.
  set (h' := foldl _ (foldl _ h _) _).
  assert (∀ x, h' !! x = if decide (leaf ≤ x ≤ leaf + last_ofs)
    then Some (mkElem (make_id owner (first_index + (x - leaf)))
      (if decide (x < leaf + last_ofs) then x + 1 else first_free)) else h !! x) as Hh'.
  { intros x. unfold h'. rewrite stitch_lookup, init_lookup. rewrite Z.add_0_r.
    repeat case_decide; done || lia. }
  eexists _, _. split; [done|]. split; [|split].
  - intros i Hi. rewrite Hh', decide_True by lia. simpl. do 2 f_equal. lia.
  - intros x [e E]. rewrite Hh'. case_decide as Hx; [|done].
    specialize (Hfresh (x - leaf) ltac:(lia)). replace (leaf + (x - leaf)) with x in Hfresh by lia.
    congruence.
  - assert (free_chain h' first_free l) as Hold.
    { apply (free_chain_frame h); [|done]. intros x Hx. rewrite Hh'. case_decide as Hr; [|done].
      exfalso. pose proof (Hfresh (x - leaf) ltac:(lia)) as Hnone.
      replace (leaf + (x - leaf)) with x in Hnone by lia.
      clear -Hx Hc Hnone. revert first_free Hc Hx. induction l as [|y l IH]; intros p; simpl.
      { by intros _ ?%elem_of_nil. }
      intros (-> & _ & e & E & Hc) [->|Hx]%elem_of_cons; [congruence|by apply (IH _ Hc)]. }
    destruct (decide (first_index = 0)) as [->|Hfi].
    + rewrite decide_False by tauto. rewrite Hn. apply (free_chain_row _ first_free); [lia| |lia|done].
      intros x Hx. eexists. rewrite Hh', decide_True by lia. do 2 f_equal. repeat case_decide; done || lia.
    + rewrite decide_True by done. rewrite Z.add_0_r.
      apply (free_chain_row _ first_free); [lia| |lia|done].
      intros x Hx. eexists. rewrite Hh', decide_True by lia. do 2 f_equal. repeat case_decide; done || lia.
Qed.
End leaf.

(** ** Handles

    [ID] packs a kind and its fields into a word. *)
Class HandleOps := {
  is_event : Z → bool; event_creator : Z → Z; gen_event_idx : Z → Z;
  is_barrier : Z → bool; barrier_creator : Z → Z; barrier_idx : Z → Z;
  is_reservation : Z → bool; rsrv_creator : Z → Z; rsrv_idx : Z → Z;
  pgroup_owner : Z → Z; pgroup_idx : Z → Z;
  is_sparsity : Z → bool;
  sparsity_owner : Z → Z; sparsity_creator : Z → Z; sparsity_idx : Z → Z;
  make_event : Z → Z → Z → Z; make_barrier : Z → Z → Z → Z;
  make_reservation : Z → Z → Z;
  make_procgroup : Z → Z → Z → Z; make_sparsity : Z → Z → Z → Z }.

(** A handle keeps its kind and its fields, for nodes below [nodes] and indices
    below [idx_limit]. *)
Class HandleLaws (Ids : IdOps) (Hs : HandleOps) (node_limit idx_limit : Z) := {
  h_event n i g : 0 ≤ n < node_limit → 0 ≤ i < idx_limit →
    let id := make_event n i g in
    is_event id = true ∧ event_creator id = n ∧ gen_event_idx id = i;
  h_barrier n i g : 0 ≤ n < node_limit → 0 ≤ i < idx_limit →
    let id := make_barrier n i g in
    is_event id = false ∧ is_barrier id = true ∧ barrier_creator id = n ∧ barrier_idx id = i;
  h_rsrv n i : 0 ≤ n < node_limit → 0 ≤ i < idx_limit →
    let id := make_reservation n i in
    is_reservation id = true ∧ rsrv_creator id = n ∧ rsrv_idx id = i;
  h_pgroup n i : 0 ≤ n < node_limit → 0 ≤ i < idx_limit →
    let id := make_procgroup n 0 i in
    is_reservation id = false ∧ is_instance id = false ∧ is_procgroup id = true ∧
    pgroup_owner id = n ∧ pgroup_idx id = i;
  h_sparsity n c i : 0 ≤ n < node_limit → 0 ≤ c < node_limit → 0 ≤ i < idx_limit →
    let id := make_sparsity n c i in
    is_sparsity id = true ∧ sparsity_owner id = n ∧ sparsity_creator id = c ∧ sparsity_idx id = i }.

(** ** The look-ups *)
Inductive table_kind := TEvent | TBarrier | TReservation | TProcGroup.

(** [lookup_entry] yields the address of the entry of an index in a table of
    [nodes[node]], making its leaf when there is none. *)
Class DynamicTable := {
  lookup_entry : table_kind → Z → Z → Z → Z;
  entry_me : Z → Z }.

Section lookup.
Context `{Ids : IdOps} `{Hs : HandleOps}.

(** "make_id": the handle a fresh entry gets. *)
Definition first_id (k : table_kind) (owner index : Z) : Z :=
  match k with
  | TEvent => make_event owner index 0
  | TBarrier => make_barrier owner index 0
  | TReservation => make_reservation owner index
  | TProcGroup => make_procgroup owner 0 index
  end.

(** An entry has the handle its leaf gave it ([new_leaf_node_ok]). *)
Class TableLaws (T : DynamicTable) :=
  entry_first k node idx : entry_me (lookup_entry k node idx node) = first_id k node idx.

Context `{T : DynamicTable}.

Definition get_genevent_impl (id : Z) : option Z :=
  assert! is_event id = true;
  let impl := lookup_entry TEvent (event_creator id) (gen_event_idx id) (event_creator id) in
  assert! event_creator (entry_me impl) = event_creator id;
  assert! gen_event_idx (entry_me impl) = gen_event_idx id;
  Some impl.

Definition get_barrier_impl (id : Z) : option Z :=
  assert! is_barrier id = true;
  let impl := lookup_entry TBarrier (barrier_creator id) (barrier_idx id) (barrier_creator id) in
  assert! barrier_creator (entry_me impl) = barrier_creator id;
  assert! barrier_idx (entry_me impl) = barrier_idx id;
  Some impl.

(** Generation events and barriers are events. *)
Inductive event_impl := GenEvent (e : Z) | Barrier (e : Z).

Definition get_event_impl (id : Z) : option event_impl :=
  if is_event id then GenEvent <$> get_genevent_impl id
  else if is_barrier id then Barrier <$> get_barrier_impl id
  else None.

Definition get_procgroup_impl (id : Z) : option Z :=
  assert! is_procgroup id = true;
  let impl := lookup_entry TProcGroup (pgroup_owner id) (pgroup_idx id) (pgroup_owner id) in
  assert! entry_me impl = id;
  Some impl.

(** [mem_get_instance] is the look-up in the memory's lists of instances. *)
Definition get_instance_impl (mem_get_instance : memory_impl → Z → option Z)
    (nodes : list node_tables) (id : Z) : option Z :=
  assert! is_instance id = true;
  mem ← get_memory_impl nodes id; mem_get_instance mem id.

(** The reservation of a handle: its own, or an instance's or a group's. *)
Inductive lock_ref := ReservationLock (e : Z) | InstanceLock (e : Z) | ProcGroupLock (e : Z).

Definition get_lock_impl (mem_get_instance : memory_impl → Z → option Z)
    (nodes : list node_tables) (id : Z) : option lock_ref :=
  if is_reservation id then
    let impl := lookup_entry TReservation (rsrv_creator id) (rsrv_idx id) (rsrv_creator id) in
    assert! entry_me impl = id;
    Some (ReservationLock impl)
  else if is_instance id then InstanceLock <$> get_instance_impl mem_get_instance nodes id
  else if is_procgroup id then ProcGroupLock <$> get_procgroup_impl id
  else None.

Context {node_limit idx_limit : Z} `{!HandleLaws Ids Hs node_limit idx_limit} `{!TableLaws T}.

(** Every handle leads to its own object.  An event of any generation, a
    barrier, a reservation and a processor group made for a node and an index
    are found without failing an assertion, in the table of their kind on
    that node, at that index; the lock of a group is the group's, and a
    processor look-up of it gives the group; a word that is no handle of an
    event, or of anything with a lock, stops the program. *)
Lemma handles_found get_inst nodes n i g :
  0 ≤ n < node_limit → 0 ≤ i < idx_limit →
  get_event_impl (make_event n i g) = Some (GenEvent (lookup_entry TEvent n i n)) ∧
  get_event_impl (make_barrier n i g) = Some (Barrier (lookup_entry TBarrier n i n)) ∧
  get_lock_impl get_inst nodes (make_reservation n i) =
    Some (ReservationLock (lookup_entry TReservation n i n)) ∧
  get_lock_impl get_inst nodes (make_procgroup n 0 i) =
    Some (ProcGroupLock (lookup_entry TProcGroup n i n)) ∧
  get_processor_impl get_procgroup_impl nodes (make_procgroup n 0 i) = Some (lookup_entry TProcGroup n i n) ∧
  (∀ id, is_event id = false → is_barrier id = false → get_event_impl id = None) ∧
  (∀ id, is_reservation id = false → is_instance id = false → is_procgroup id = false →
    get_lock_impl get_inst nodes id = None).
Proof.
  intros Hn Hi.
  destruct (h_event n i g Hn Hi) as (E1 & E2 & E3), (h_event n i 0 Hn Hi) as (_ & E2' & E3').
  destruct (h_barrier n i g Hn Hi) as (B0 & B1 & B2 & B3), (h_barrier n i 0 Hn Hi) as (_ & _ & B2' & B3').
  destruct (h_rsrv n i Hn Hi) as (R1 & R2 & R3), (h_pgroup n i Hn Hi) as (P0 & P1 & P2 & P3 & P4).
  assert (get_procgroup_impl (make_procgroup n 0 i) = Some (lookup_entry TProcGroup n i n)) as EP.
  { unfold get_procgroup_impl. by rewrite P2, P3, P4, (entry_first TProcGroup), !assert_true. }
  split_all.
  - unfold get_event_impl, get_genevent_impl. rewrite E1, E2, E3, (entry_first TEvent). simpl.
    by rewrite E2', E3', !assert_true.
  - unfold get_event_impl, get_barrier_impl. rewrite B0, B1, B2, B3, (entry_first TBarrier). simpl.
    by rewrite B2', B3', !assert_true.
  - unfold get_lock_impl. by rewrite R1, R2, R3, (entry_first TReservation), assert_true.
  - unfold get_lock_impl. by rewrite P0, P1, P2, EP.
  - unfold get_processor_impl. by rewrite P2.
  - intros id H1 H2. unfold get_event_impl. by rewrite H1, H2.
  - intros id H1 H2 H3. unfold get_lock_impl. by rewrite H1, H2, H3.
Qed.
End lookup.

(** ** Sparsity maps

    A node keeps, for each owner, a table per creator; [st] holds those that
    have been constructed, and in each the creator in the handles of the
    entries that have been looked up or allocated. *)
Section sparsity.
Context `{Hs : HandleOps}.

Abbreviation sparsity_tables := (gmap (Z * Z) (gmap Z Z)).

(** The entry is known by owner, creator and index. *)
Definition get_sparsity_impl (st : sparsity_tables) (id : Z) : option (sparsity_tables * (Z * Z * Z)) :=
  assert! is_sparsity id = true;
  let '(owner, creator, idx) := (sparsity_owner id, sparsity_creator id, sparsity_idx id) in
  let m := default ∅ (st !! (owner, creator)) in
  let c := default 0 (m !! idx) in
  if decide (make_sparsity owner c idx = id)
  then Some (<[(owner, creator) := <[idx := c]> m]> st, (owner, creator, idx))
  else
    let c := if decide (c = 0) then creator else c in
    assert! make_sparsity owner c idx = id;
    Some (<[(owner, creator) := <[idx := c]> m]> st, (owner, creator, idx)).

(** [idx] is what the list of free entries for the node yields. *)
Definition get_available_sparsity_impl (my_node_id : Z) (st : sparsity_tables) (target_node idx : Z)
    : sparsity_tables * Z :=
  let m := default ∅ (st !! (target_node, my_node_id)) in
  (<[(target_node, my_node_id) := <[idx := my_node_id]> m]> st,
   make_sparsity target_node my_node_id idx).

Inductive sparsity_op := LookUp (n c i : Z) | GetAvailable (target idx : Z).

(** What a sequence of calls returns: the handle and, for a look-up, the entry. *)
Fixpoint sparsity_run (my : Z) (st : sparsity_tables) (l : list sparsity_op)
    : option (sparsity_tables * list (Z * Z * Z)) :=
  match l with
  | [] => Some (st, [])
  | LookUp n c i :: l =>
      '(st, e) ← get_sparsity_impl st (make_sparsity n c i);
      '(st, es) ← sparsity_run my st l; Some (st, e :: es)
  | GetAvailable t i :: l =>
      let '(st, id) := get_available_sparsity_impl my st t i in
      '(st, es) ← sparsity_run my st l; Some (st, (t, my, i) :: es)
  end.

(** Entries of a creator's table have no creator or that one. *)
Definition sparsity_inv (st : sparsity_tables) : Prop :=
  ∀ n c m i c', st !! (n, c) = Some m → m !! i = Some c' → c' = 0 ∨ c' = c.

Context {Ids : IdOps} {node_limit idx_limit : Z} `{!HandleLaws Ids Hs node_limit idx_limit}.

Definition op_ok (o : sparsity_op) : Prop :=
  match o with
  | LookUp n c i => 0 ≤ n < node_limit ∧ 0 ≤ c < node_limit ∧ 0 ≤ i < idx_limit
  | GetAvailable t i => 0 ≤ t < node_limit ∧ 0 ≤ i < idx_limit
  end.
Definition op_entry (my : Z) (o : sparsity_op) : Z * Z * Z :=
  match o with LookUp n c i => (n, c, i) | GetAvailable t i => (t, my, i) end.

Lemma set_entry_inv st n c i c' :
  sparsity_inv st → c' = 0 ∨ c' = c →
  sparsity_inv (<[(n, c) := <[i := c']> (default ∅ (st !! (n, c)))]> st).
Proof.
  intros Hst Hc' n1 c1 m1 i1 c2. rewrite lookup_insert_Some. intros [[[= <- <-] <-]|[_ E]]; [|by apply (Hst n1)].
  rewrite lookup_insert_Some. intros [[_ <-]|[_ E]]; [done|].
  destruct (st !! (n, c)) as [m|] eqn:Em; simpl in E; [by apply (Hst n c m i1)|by rewrite lookup_empty in E].
Qed.

(** The handle an entry has. *)
Definition has_handle (st : sparsity_tables) (e : Z * Z * Z) : Prop :=
  ∃ m, st !! (e.1.1, e.1.2) = Some m ∧ m !! e.2 = Some e.1.2.

Lemma get_sparsity_ok st n c i :
  sparsity_inv st → 0 ≤ n < node_limit → 0 ≤ c < node_limit → 0 ≤ i < idx_limit →
  get_sparsity_impl st (make_sparsity n c i) =
    Some (<[(n, c) := <[i := c]> (default ∅ (st !! (n, c)))]> st, (n, c, i)).
Proof.
  intros Hst Hn Hc Hi. unfold get_sparsity_impl.
  destruct (h_sparsity n c i Hn Hc Hi) as (-> & -> & -> & ->). rewrite assert_true by done.
  cbv zeta. set (c0 := default 0 _).
  assert (c0 = 0 ∨ c0 = c) as Hc0.
  { unfold c0. destruct (st !! (n, c)) as [m|] eqn:Em; simpl; [|rewrite lookup_empty; by left].
    destruct (m !! i) as [c'|] eqn:Ec; simpl; [by apply (Hst n c m i)|by left]. }
  destruct (decide (make_sparsity n c0 i = make_sparsity n c i)) as [E|Hne].
  - assert (c0 = c) as ->; [|done].
    assert (0 ≤ c0 < node_limit) as Hr by (destruct Hc0; lia).
    destruct (h_sparsity n c0 i Hn Hr Hi) as (_ & _ & E1 & _), (h_sparsity n c i Hn Hc Hi) as (_ & _ & E2 & _).
    congruence.
  - destruct (decide (c0 = 0)) as [->|H0]; [by rewrite assert_true|].
    destruct Hc0 as [?| ->]; done.
Qed.

Lemma run_keeps my l : ∀ st, sparsity_inv st → 0 ≤ my < node_limit → Forall op_ok l →
  ∃ st', sparsity_run my st l = Some (st', op_entry my <$> l) ∧ sparsity_inv st' ∧
    (∀ e, has_handle st e → has_handle st' e) ∧ (∀ o, o ∈ l → has_handle st' (op_entry my o)).
Proof.
  assert (∀ (st : sparsity_tables) n c i,
    let st' : sparsity_tables := <[(n, c) := <[i := c]> (default ∅ (st !! (n, c)))]> st in
    has_handle st' (n, c, i) ∧ (∀ e, has_handle st e → has_handle st' e)) as Hset.
  { intros st n c i. split.
    - eexists. simpl. by rewrite lookup_insert_eq, lookup_insert_eq.
    - intros [[n1 c1] i1] (m & Em & Ei). simpl in *. unfold has_handle. simpl.
      destruct (decide ((n, c) = (n1, c1))) as [[= -> ->]|Hne].
      + rewrite lookup_insert_eq, Em. simpl. eexists. split; [done|].
        destruct (decide (i = i1)) as [->|]; [by rewrite lookup_insert_eq|by rewrite lookup_insert_ne].
      + rewrite lookup_insert_ne by done. by exists m. }
  induction l as [|o l IH]; intros st Hst Hmy Hl; cbn [sparsity_run].
  { exists st. split_all; try done. by intros o ?%elem_of_nil. }
  apply Forall_cons in Hl as [Ho Hl].
  destruct o as [n c i|t i]; simpl in Ho.
  - destruct Ho as (Hn & Hc & Hi). rewrite (get_sparsity_ok st n c i) by done. cbn [mbind option_bind].
    destruct (IH _ (set_entry_inv st n c i c Hst (or_intror eq_refl)) Hmy Hl) as (st' & -> & Hst' & Hk & Hall).
    destruct (Hset st n c i) as [H1 H2]. exists st'. split_all; try done; [by auto|].
    intros o [->|Hin]%elem_of_cons; [by apply Hk|by apply Hall].
  - unfold get_available_sparsity_impl.
    destruct (IH _ (set_entry_inv st t my i my Hst (or_intror eq_refl)) Hmy Hl) as (st' & -> & Hst' & Hk & Hall).
    destruct (Hset st t my i) as [H1 H2]. exists st'. split_all; try done; [by auto|].
    intros o [->|Hin]%elem_of_cons; [by apply Hk|by apply Hall].
Qed.

Lemma run_app my l1 l2 : ∀ st,
  sparsity_run my st (l1 ++ l2) =
  ('(st, es1) ← sparsity_run my st l1; '(st, es2) ← sparsity_run my st l2; Some (st, es1 ++ es2)).
Proof.
  induction l1 as [|o l1 IH]; intros st; cbn [app sparsity_run].
  { cbn [mbind option_bind]. by destruct (sparsity_run my st l2) as [[]|]. }
  destruct o as [n c i|t i].
  - destruct (get_sparsity_impl st _) as [[st1 e]|]; [|done]. cbn [mbind option_bind]. rewrite IH.
    destruct (sparsity_run my st1 l1) as [[st2 es]|]; [|done]. cbn [mbind option_bind].
    by destruct (sparsity_run my st2 l2) as [[]|].
  - destruct (get_available_sparsity_impl my st t i) as [st1 id]. rewrite IH.
    destruct (sparsity_run my st1 l1) as [[st2 es]|]; [|done]. cbn [mbind option_bind].
    by destruct (sparsity_run my st2 l2) as [[]|].
Qed.

(** C27. The repair of handles never fails.  On any node, in any sequence of
    look-ups of sparsity maps and of allocations of new ones, no assertion
    fails; what a call returns depends on the owner, creator and index alone,
    so the same handle always leads to the same entry and different ones to
    different entries; and from its first use on the entry carries that
    handle. *)
Theorem sparsity_lookups_safe my l :
  0 ≤ my < node_limit → Forall op_ok l →
  ∃ st, sparsity_run my ∅ l = Some (st, op_entry my <$> l) ∧
    (∀ o, o ∈ l → has_handle st (op_entry my o)) ∧
    (∀ l1 l2, l = l1 ++ l2 → ∃ st1, sparsity_run my ∅ l1 = Some (st1, op_entry my <$> l1) ∧
      ∀ e, has_handle st1 e → has_handle st e).
Proof.
  intros Hmy Hl.
  assert (sparsity_inv ∅) as H0 by (intros n c m i c'; by rewrite lookup_empty).
  destruct (run_keeps my l ∅ H0 Hmy Hl) as (st & E & _ & _ & Hall). exists st. split_all; [done|done|].
  intros l1 l2 ->. apply Forall_app in Hl as [Hl1 Hl2].
  destruct (run_keeps my l1 ∅ H0 Hmy Hl1) as (st1 & E1 & Hst1 & _). exists st1. split; [done|].
  destruct (run_keeps my l2 st1 Hst1 Hmy Hl2) as (st2 & E2 & _ & Hk & _).
  assert (st2 = st) as ->; [|done].
  rewrite run_app, E1 in E. simpl in E. rewrite E2 in E. by injection E.
Qed.
End sparsity.

(** ** Constructing a table without a lock

    Threads that find the slot [m] empty each make a table and try to swap its
    address in; the losers delete theirs.  [heap] holds the tables that exist. *)
Module Swap.

Inductive swap_pc := CheckNull | TrySwap (newm : Z) | DeleteNew (newm : Z) | UseTable.

Record swap_state := mkState { m : Z; heap : gset Z; threads : list swap_pc }.

Definition swap_start (n : nat) : swap_state := mkState 0 ∅ (replicate n CheckNull).

(** One statement of a thread; [fresh] is what "new" returns. *)
Definition thread_step (fresh : Z) (s : swap_state) (p : swap_pc) : option (Z * gset Z * swap_pc) :=
  match p with
  | CheckNull =>
      if decide (m s = 0) then Some (m s, heap s ∪ {[fresh]}, TrySwap fresh)
      else Some (m s, heap s, UseTable)
  | TrySwap newm =>
      if decide (m s = 0) then Some (newm, heap s, UseTable) else Some (m s, heap s, DeleteNew newm)
  | DeleteNew newm => Some (m s, heap s ∖ {[newm]}, UseTable)
  | UseTable => None
  end.

Inductive step : swap_state → swap_state → Prop :=
| step_thread s l1 p l2 fresh m' h' p' :
    threads s = l1 ++ p :: l2 → fresh ≠ 0 → fresh ∉ heap s →
    thread_step fresh s p = Some (m', h', p') →
    step s (mkState m' h' (l1 ++ p' :: l2)).

(** The table a thread has made and not yet given away. *)
Definition own (p : swap_pc) : list Z :=
  match p with TrySwap newm | DeleteNew newm => [newm] | _ => [] end.
(** Having seen the slot taken. *)
Definition late (p : swap_pc) : bool := match p with DeleteNew _ | UseTable => true | _ => false end.

Record inv (s : swap_state) : Prop := {
  inv_heap x : x ∈ heap s ↔ x ∈ (threads s ≫= own) ∨ (x = m s ∧ m s ≠ 0);
  inv_nodup : NoDup (m s :: (threads s ≫= own));
  inv_nonzero : 0 ∉ (threads s ≫= own);
  inv_late p : p ∈ threads s → late p = true → m s ≠ 0 }.

(** The invariant with one thread singled out. *)
Lemma inv_at mm h l1 p l2 :
  inv (mkState mm h (l1 ++ p :: l2)) ↔
  (∀ x, x ∈ h ↔ x ∈ own p ∨ x ∈ (l1 ++ l2) ≫= own ∨ (x = mm ∧ mm ≠ 0)) ∧
  NoDup (mm :: own p ++ ((l1 ++ l2) ≫= own)) ∧
  (0 ∉ own p) ∧ (0 ∉ ((l1 ++ l2) ≫= own)) ∧
  (late p = true → mm ≠ 0) ∧ (∀ q, q ∈ l1 ++ l2 → late q = true → mm ≠ 0).
Proof.
  assert ((l1 ++ p :: l2) ≫= own ≡ₚ own p ++ ((l1 ++ l2) ≫= own)) as Hp.
  { rewrite !bind_app, bind_cons, !(assoc_L (++)). f_equiv. apply Permutation_app_comm. }
  assert (∀ q, q ∈ l1 ++ p :: l2 ↔ q = p ∨ q ∈ l1 ++ l2) as Hq.
  { intros q. rewrite !elem_of_app, elem_of_cons. tauto. }
  split.
  - intros [Hh Hn Hz Hl]; simpl in *. rewrite Hp in Hn, Hz. rewrite elem_of_app in Hz.
    split_all; [|done|tauto|tauto| |].
    + intros x. rewrite Hh, Hp, elem_of_app. tauto.
    + apply Hl, Hq. by left.
    + intros q Hin. apply Hl, Hq. by right.
  - intros (Hh & Hn & Hz1 & Hz2 & Hl1 & Hl2). split; simpl.
    + intros x. rewrite Hh, Hp, elem_of_app. tauto.
    + by rewrite Hp.
    + rewrite Hp, elem_of_app. tauto.
    + intros q [->|Hin]%Hq; [done|by apply Hl2].
Qed.

Lemma swap_step_inv s s' : inv s → step s s' → inv s'.
Proof.
  intros Hs Hstep. destruct Hstep as [[mm h th] l1 p l2 fresh m' h' p' El Hf0 Hf E]. simpl in *. subst th.
  apply inv_at in Hs as (Hh & Hn & Hz1 & Hz2 & Hl1 & Hl2).
  apply inv_at. destruct p as [|n|n|]; simpl in *.
  - case_decide as Hm; simplify_eq; simpl.
    + split_all; try done; [| |set_solver].
      * intros x. rewrite elem_of_union, elem_of_singleton, Hh, list_elem_of_singleton, elem_of_nil. tauto.
      * apply NoDup_cons in Hn as [Hn1 Hn2]. rewrite !NoDup_cons, elem_of_cons.
        split_all; [intros [?|?]; congruence| |done]. intros Hin. apply Hf, Hh. by right; left.
    + split_all; done.
  - apply NoDup_cons in Hn as [Hn1 Hn2]. apply NoDup_cons in Hn2 as [Hn2 Hn3].
    rewrite elem_of_cons in Hn1. rewrite list_elem_of_singleton in Hz1.
    case_decide as Hm; simplify_eq; simpl.
    + assert (m' ≠ 0) as Hm' by congruence. split_all; try done.
      * intros x. rewrite Hh, list_elem_of_singleton, elem_of_nil. tauto.
      * by apply NoDup_cons.
      * by intros ?%elem_of_nil.
    + split_all; try done; rewrite ?NoDup_cons, ?elem_of_cons, ?list_elem_of_singleton, ?elem_of_nil; tauto.
  - simplify_eq. apply NoDup_cons in Hn as [Hn1 Hn2]. apply NoDup_cons in Hn2 as [Hn2 Hn3].
    rewrite elem_of_cons in Hn1. split_all; try done.
    + intros x. rewrite elem_of_difference, elem_of_singleton, Hh, list_elem_of_singleton, elem_of_nil.
      split; [tauto|]. intros [[]|[Hx|[-> ?]]]; (split; [tauto|]); [intros ->; tauto|].
      intros ->. tauto.
    + apply NoDup_cons. tauto.
    + by intros ?%elem_of_nil.
  - done.
Qed.

Lemma start_inv n : inv (swap_start n).
Proof.
  assert (replicate n CheckNull ≫= own = []) as E by (induction n; done).
  split; simpl; rewrite ?E.
  - intros x. split; [set_solver|]. intros [?%elem_of_nil|[_ ?]]; done.
  - apply NoDup_singleton.
  - by intros ?%elem_of_nil.
  - intros p Hp. apply elem_of_replicate in Hp as [-> _]. done.
Qed.

Lemma swap_reachable_inv n s : rtc step (swap_start n) s → inv s.
Proof.
  intros Hr. remember (swap_start n) as s0 eqn:E0. assert (inv s0) as H0 by (subst; apply start_inv).
  clear E0. induction Hr; eauto using swap_step_inv.
Qed.

Lemma step_keeps s s' : step s s' → m s ≠ 0 → m s' = m s.
Proof.
  intros [s1 l1 p l2 fresh m' h' p' El _ _ E] Hm. destruct p; simpl in *; repeat case_decide; by simplify_eq.
Qed.

(** What is left to do. *)
Definition pc_left (p : swap_pc) : nat :=
  match p with CheckNull => 3 | TrySwap _ => 2 | DeleteNew _ => 1 | UseTable => 0 end.
Definition left_to_do (s : swap_state) : nat := sum_list_with pc_left (threads s).

Lemma step_decreases s s' : step s s' → (left_to_do s' < left_to_do s)%nat.
Proof.
  intros [s1 l1 p l2 fresh m' h' p' El _ _ E]. unfold left_to_do. simpl. rewrite El, !sum_list_with_app. simpl.
  destruct p; simpl in *; repeat case_decide; simplify_eq; simpl; lia.
Qed.

(** C26. All threads get the same table.  However the statements of any number of
    threads that look up a sparsity map for the first time interleave: a
    thread that goes on to use the table finds one, which exists; once there,
    it is never replaced or deleted; no thread ever waits for another: each
    that is not done can execute its own next statement, and has at most
    three of them; and when all are done no other
    table is left. *)
Theorem sparsity_table_once n s :
  rtc step (swap_start n) s →
  (UseTable ∈ threads s → m s ≠ 0 ∧ m s ∈ heap s) ∧
  (∀ s', rtc step s s' → m s ≠ 0 → m s' = m s ∧ m s ∈ heap s') ∧
  (∀ l1 p l2, threads s = l1 ++ p :: l2 → p ≠ UseTable →
     ∃ m' h' p', step s (mkState m' h' (l1 ++ p' :: l2))) ∧
  (∀ s', step s s' → (left_to_do s' < left_to_do s)%nat) ∧
  ((∀ p, p ∈ threads s → p = UseTable) → threads s ≠ [] → heap s = {[m s]}).
Proof.
  intros Hr. pose proof (swap_reachable_inv n s Hr) as Hs. split_all.
  - intros Hu. assert (m s ≠ 0) as Hm by by apply (inv_late s Hs UseTable).
    split; [done|]. apply (inv_heap s Hs). by right.
  - intros s' Hss Hm. assert (m s' = m s) as E.
    { clear Hs Hr. induction Hss as [|s1 s2 s3 H12 H23 IH]; [done|].
      rewrite IH; [by apply step_keeps|]. by rewrite (step_keeps s1 s2). }
    split; [done|]. assert (inv s') as Hs' by (apply (swap_reachable_inv n); by etrans).
    apply (inv_heap s' Hs'). right. by rewrite E.
  - intros l1 p l2 E Hne.
    destruct (exist_fresh ({[0]} ∪ heap s)) as [fresh Hf].
    assert (∃ m' h' p', thread_step fresh s p = Some (m', h', p')) as (m' & h' & p' & Es).
    { destruct p; simpl; try case_decide; by eauto. }
    exists m', h', p'. eapply step_thread; [exact E| | |exact Es]; set_solver.
  - apply step_decreases.
  - intros Hall Hne. destruct (threads s) as [|p l] eqn:Et; [done|].
    assert (threads s ≫= own = []) as Eo.
    { rewrite Et. clear -Hall. revert Hall. generalize (p :: l). clear. intros l Hall.
      induction l as [|q l IH]; [done|]. rewrite bind_cons, (Hall q) by (by left).
      apply IH. intros r Hr. apply Hall. by right. }
    assert (m s ≠ 0) as Hm.
    { apply (inv_late s Hs UseTable); [|done]. rewrite Et, (Hall p) by (by left). by left. }
    apply set_eq. intros x. rewrite elem_of_singleton. rewrite (inv_heap s Hs), Eo, elem_of_nil. tauto.
Qed.
End Swap.

(** ** Examples *)

(** A kind and three fields of 20 bits. *)
Definition pack (k a b c : Z) : Z := k * 2 ^ 60 + (a * 2 ^ 40 + (b * 2 ^ 20 + c `mod` 2 ^ 20)).
Definition id_kind (id : Z) : Z := id `div` 2 ^ 60.
Definition id_a (id : Z) : Z := (id `mod` 2 ^ 60) `div` 2 ^ 40.
Definition id_b (id : Z) : Z := (id `mod` 2 ^ 40) `div` 2 ^ 20.
Definition id_c (id : Z) : Z := id `mod` 2 ^ 20.

Lemma pack_parts k a b c : 0 ≤ a < 2 ^ 20 → 0 ≤ b < 2 ^ 20 →
  id_kind (pack k a b c) = k ∧ id_a (pack k a b c) = a ∧ id_b (pack k a b c) = b ∧
  id_c (pack k a b c) = c `mod` 2 ^ 20.
Proof.
  intros Ha Hb. pose proof (Z.mod_pos_bound c (2 ^ 20) ltac:(lia)) as Hc.
  unfold id_kind, id_a, id_b, id_c, pack. set (d := c `mod` 2 ^ 20) in *.
  assert ((k * 2 ^ 60 + (a * 2 ^ 40 + (b * 2 ^ 20 + d))) `mod` 2 ^ 60 = a * 2 ^ 40 + (b * 2 ^ 20 + d)) as ->.
  { symmetry. apply (Z.mod_unique _ _ k); lia. }
  assert ((k * 2 ^ 60 + (a * 2 ^ 40 + (b * 2 ^ 20 + d))) `mod` 2 ^ 40 = b * 2 ^ 20 + d) as ->.
  { symmetry. apply (Z.mod_unique _ _ (k * 2 ^ 20 + a)); lia. }
  split_all.
  - symmetry. apply (Z.div_unique _ _ _ (a * 2 ^ 40 + (b * 2 ^ 20 + d))); lia.
  - symmetry. apply (Z.div_unique _ _ _ (b * 2 ^ 20 + d)); lia.
  - symmetry. apply (Z.div_unique _ _ _ d); lia.
  - symmetry. apply (Z.mod_unique _ _ (k * 2 ^ 40 + (a * 2 ^ 20 + b))); lia.
Qed.

Definition handle_ids : IdOps := {|
  make_memory := @make_memory example_ids; make_ib_memory := @make_ib_memory example_ids;
  make_processor := @make_processor example_ids; is_memory := @is_memory example_ids;
  is_ib_memory := @is_ib_memory example_ids; is_processor := @is_processor example_ids;
  owner_node := @owner_node example_ids; mem_idx := @mem_idx example_ids;
  ib_owner_node := @ib_owner_node example_ids; ib_mem_idx := @ib_mem_idx example_ids;
  inst_owner_node := @inst_owner_node example_ids; inst_mem_idx := @inst_mem_idx example_ids;
  proc_owner_node := @proc_owner_node example_ids; proc_idx := @proc_idx example_ids;
  MAX_NODE_ID := 65535;
  is_instance id := bool_decide (id_kind id = 7); is_procgroup id := bool_decide (id_kind id = 4) |}.

Definition handle_ops : HandleOps := {|
  is_event id := bool_decide (id_kind id = 1); event_creator := id_a; gen_event_idx := id_b;
  is_barrier id := bool_decide (id_kind id = 2); barrier_creator := id_a; barrier_idx := id_b;
  is_reservation id := bool_decide (id_kind id = 3); rsrv_creator := id_a; rsrv_idx := id_b;
  pgroup_owner := id_a; pgroup_idx := id_b;
  is_sparsity id := bool_decide (id_kind id = 5);
  sparsity_owner := id_a; sparsity_creator := id_b; sparsity_idx := id_c;
  make_event n i g := pack 1 n i g; make_barrier n i g := pack 2 n i g;
  make_reservation n i := pack 3 n i 0; make_procgroup n c i := pack 4 n i c;
  make_sparsity n c i := pack 5 n c i |}.

#[local] Instance handle_laws : HandleLaws handle_ids handle_ops (2 ^ 20) (2 ^ 20).
Proof.
  split; cbn -[pack Z.pow].
  - intros n i g Hn Hi. destruct (pack_parts 1 n i g Hn Hi) as (-> & -> & -> & _). done.
  - intros n i g Hn Hi. destruct (pack_parts 2 n i g Hn Hi) as (-> & -> & -> & _). done.
  - intros n i Hn Hi. destruct (pack_parts 3 n i 0 Hn Hi) as (-> & -> & -> & _). done.
  - intros n i Hn Hi. destruct (pack_parts 4 n i 0 Hn Hi) as (-> & -> & -> & _). done.
  - intros n c i Hn Hc Hi. destruct (pack_parts 5 n c i Hn Hc) as (-> & -> & -> & ->).
    split_all; [done..|]. apply Z.mod_small. lia.
Qed.

(** Entries whose addresses are their handles. *)
Definition handle_table : DynamicTable := {|
  lookup_entry k node idx owner := @first_id handle_ops k owner idx; entry_me e := e |}.

Lemma handles_found_witness :
  get_event_impl (Hs := handle_ops) (T := handle_table) (pack 1 3 17 9) = Some (GenEvent (pack 1 3 17 0)) ∧
  get_lock_impl (Ids := handle_ids) (Hs := handle_ops) (T := handle_table) (λ _ _, None) [] (pack 4 3 17 0)
    = Some (ProcGroupLock (pack 4 3 17 0)).
Proof.
  destruct (handles_found (Ids := handle_ids) (Hs := handle_ops) (T := handle_table)
    (node_limit := 2 ^ 20) (idx_limit := 2 ^ 20) (TableLaws0 := λ _ _ _, eq_refl) (λ _ _, None) [] 3 17 9)
    as (H1 & _ & _ & H4 & _); [lia|lia|]. split; [exact H1|exact H4].
Defined.

(** The first leaf of a table with an empty list, and then the second. *)
Lemma new_leaf_node_ok_witness :
  ∃ h ff, new_leaf_node (λ o i, pack 1 o i 0) 4 1000 0 3 ∅ (Some 0) = (h, Some ff) ∧
    free_chain h ff (seqZ 1001 15) ∧ me <$> h !! 1005 = Some (pack 1 3 5 0).
Proof.
  destruct (new_leaf_node_ok (λ o i, pack 1 o i 0) 4 1000 0 3 ∅ 0 [])
    as (h & ff & E & Hme & _ & Hc); [lia|lia|done|intros i _; apply lookup_empty|].
  exists h, ff. split; [exact E|]. rewrite app_nil_r in Hc. split; [exact Hc|].
  apply (Hme 5). split; [done|]. vm_compute. congruence.
Defined.

Lemma sparsity_lookups_safe_witness :
  ∃ st, sparsity_run (Hs := handle_ops) 2 ∅ [LookUp 1 5 7; GetAvailable 4 9; LookUp 4 2 9; LookUp 1 5 7] =
    Some (st, [(1, 5, 7); (4, 2, 9); (4, 2, 9); (1, 5, 7)]).
Proof.
  destruct (sparsity_lookups_safe (Hs := handle_ops) (Ids := handle_ids) (node_limit := 2 ^ 20) (idx_limit := 2 ^ 20)
    2 [LookUp 1 5 7; GetAvailable 4 9; LookUp 4 2 9; LookUp 1 5 7]) as (st & E & _).
  - lia.
  - repeat (apply Forall_cons; split; [simpl; lia|]). by apply Forall_nil.
  - exists st. exact E.
Defined.

(** Two threads, both of which make a table. *)
Lemma sparsity_table_once_witness :
  ∃ s, rtc Swap.step (Swap.swap_start 2) s ∧ Swap.threads s = [Swap.UseTable; Swap.UseTable] ∧
    Swap.m s = 200 ∧ Swap.heap s = {[200]}.
Proof.
  eexists (Swap.mkState 200 ((((∅ ∪ {[100]}) ∪ {[200]}) ∖ {[100]})) [Swap.UseTable; Swap.UseTable]).
  match goal with |- ?P ∧ _ => assert P as Hr end.
  { eapply rtc_l; [apply (Swap.step_thread _ [] Swap.CheckNull [Swap.CheckNull] 100); [done|done|simpl; set_solver|reflexivity]|].
    eapply rtc_l; [apply (Swap.step_thread _ [Swap.TrySwap 100] Swap.CheckNull [] 200); [done|done|simpl; set_solver|reflexivity]|].
    eapply rtc_l; [apply (Swap.step_thread _ [Swap.TrySwap 100] (Swap.TrySwap 200) [] 300); [done|done|simpl; set_solver|reflexivity]|].
    eapply rtc_l; [apply (Swap.step_thread _ [] (Swap.TrySwap 100) [Swap.UseTable] 300); [done|done|simpl; set_solver|reflexivity]|].
    eapply rtc_l; [apply (Swap.step_thread _ [] (Swap.DeleteNew 100) [Swap.UseTable] 300); [done|done|simpl; set_solver|reflexivity]|].
    apply rtc_refl. }
  split; [exact Hr|]. split; [done|]. split; [done|].
  destruct (Swap.sparsity_table_once 2 _ Hr) as (_ & _ & _ & _ & Hone). apply Hone; [|done].
  simpl. intros p Hp. rewrite !elem_of_cons in Hp. destruct Hp as [?|[?|?%elem_of_nil]]; done.
Defined.
