(* ===== verification/Startup.v ===== *)
(** * Startup: handler table, options and the layout of the segment

    [add_handler_entry] and [init_endpoints] of src/templates/activemsg.cc,
    and the registered memories that [RuntimeImpl::configure_from_command_line]
    of src/templates/runtime_impl.cc places in the same segment. *)

From S2P Require Import Prelude Spans SrcDataPool Bytes Payload RemoteWrite Fence Ring Endpoint EndpointManager NodeTables.

(** ** The handler table *)

(** Index and function of an entry. *)
Definition MAX_HANDLERS : Z := 128.

Definition add_handler_entry {F} (handlers : list (Z * F)) (msgid : Z) (fnptr : F)
    : option (list (Z * F)) :=
  assert! zlen handlers < MAX_HANDLERS; Some (handlers ++ [(msgid, fnptr)]).

Definition MSGID_RELEASE_SRCPTR : Z := 252.

Definition add_internal_handlers {F} (flip_req flip_ack release_srcptr : F)
    (handlers : list (Z * F)) : option (list (Z * F)) :=
  assert! zlen handlers < MAX_HANDLERS - 3;
  Some (handlers ++ [(MSGID_FLIP_REQ, flip_req); (MSGID_FLIP_ACK, flip_ack);
                     (MSGID_RELEASE_SRCPTR, release_srcptr)]).

(** ** Options *)
Inductive ll_option :=
| NumLmbs | LmbSize | ForceLong | SdpSize | MaxSend | SpillWarn | SpillStep | SpillStall.

(** The static variables and the locals the options are bound to. *)
Record ep_options := mkOpts {
  o_num_lmbs : Z;
  o_lmb_size : Z;                 (* the static [lmb_size] *)
  o_lmbsize_in_kb : Z;
  o_force_long : Z;
  o_sdpsize_in_mb : Z;
  o_max_msgs_to_send : Z;
  o_spillwarn_in_mb : Z;
  o_spillstep_in_mb : Z;
  o_spillstall_in_mb : Z }.

Definition default_options : ep_options :=
  mkOpts 2 (2 ^ 20) 0 1 64 8 0 0 0.

(** The variable the parser stores an option's value in: [-ll:spillstall] and
    [-ll:spillstep] share one. *)
Definition store_option (o : ep_options) (opt : ll_option * Z) : ep_options :=
  let '(name, v) := opt in
  let 'mkOpts nl ls lk fl sd ms sw st sl := o in
  match name with
  | NumLmbs => mkOpts v ls lk fl sd ms sw st sl
  | LmbSize => mkOpts nl ls v fl sd ms sw st sl
  | ForceLong => mkOpts nl ls lk v sd ms sw st sl
  | SdpSize => mkOpts nl ls lk fl v ms sw st sl
  | MaxSend => mkOpts nl ls lk fl sd v sw st sl
  | SpillWarn => mkOpts nl ls lk fl sd ms v st sl
  | SpillStep | SpillStall => mkOpts nl ls lk fl sd ms sw v sl
  end.

Definition srcdatapool_size (o : ep_options) : Z := u64 (Z.shiftl (o_sdpsize_in_mb o) 20).
Definition final_lmb_size (o : ep_options) : Z :=
  if decide (o_lmbsize_in_kb o ≠ 0) then u64 (Z.shiftl (o_lmbsize_in_kb o) 10) else o_lmb_size o.

(** The limits the pool starts with; one gigabyte by default. *)
Definition final_limits (o : ep_options) : spill_limits :=
  mkLimits
    (if decide (o_spillstall_in_mb o ≠ 0) then u64 (Z.shiftl (o_spillstall_in_mb o) 20) else 0)
    (if decide (o_spillwarn_in_mb o ≠ 0) then u64 (Z.shiftl (o_spillwarn_in_mb o) 20) else 2 ^ 30)
    (if decide (o_spillstep_in_mb o ≠ 0) then u64 (Z.shiftl (o_spillstep_in_mb o) 20) else 2 ^ 30).

(** ** The segment *)
(** [gasnet_nodes() * num_lmbs] is a product of 32 bits. *)
Definition total_lmb_size (o : ep_options) (nodes : Z) : Z :=
  u64 (u32 (nodes * o_num_lmbs o) * final_lmb_size o).

(** Three [int]s are widened before they are shifted. *)
Definition attach_size (o : ep_options) (nodes gasnet_mb registered_mb ib_mb : Z) : Z :=
  u64 (u64 (Z.shiftl (u64 gasnet_mb) 20) + u64 (Z.shiftl (u64 registered_mb) 20) +
       u64 (Z.shiftl (u64 ib_mb) 20) + srcdatapool_size o + total_lmb_size o nodes).

(** The same three are shifted as [int]s here. *)
Definition srcdatapool_base (addr gasnet_mb registered_mb ib_mb : Z) : Z :=
  addr + i32 (Z.shiftl gasnet_mb 20) + i32 (Z.shiftl registered_mb 20) + i32 (Z.shiftl ib_mb 20).

Definition my_segment_end (o : ep_options) (nodes addr gasnet_mb registered_mb ib_mb : Z) : Z :=
  srcdatapool_base addr gasnet_mb registered_mb ib_mb + srcdatapool_size o + total_lmb_size o nodes.

(** What [init_endpoints] leaves in the static variables. *)
Record endpoints_state {F} := mkEndpoints {
  es_options : ep_options;
  es_handlers : list (Z * F);
  es_pool : option SrcDataPool.SrcDataPool;
  es_manager : EndpointManager;
  es_deferred : DeferredFrees }.
Arguments endpoints_state : clear implicits.
Arguments mkEndpoints {F}.

Section init.
Context {F : Type} (flip_req flip_ack release_srcptr : F).
(* GASNet's limits, and [segment_info] after [gasnet_attach] of a size. *)
Context (AMMaxLongRequest AMMaxMedium : Z) (gasnet_attach : Z → list (Z * Z)).

Definition ep_config (o : ep_options) : Config :=
  mkConfig (o_num_lmbs o) (final_lmb_size o) AMMaxLongRequest AMMaxMedium.

(** [given] are the options [CommandLineParser] recognises, in order. *)
Definition init_endpoints (given : list (ll_option * Z)) (handlers : list (Z * F))
    (nodes mynode gasnet_mb registered_mb ib_mb : Z) : option (endpoints_state F) :=
  let o := foldl store_option default_options given in
  handlers ← add_internal_handlers flip_req flip_ack release_srcptr handlers;
  let segment_info := gasnet_attach (attach_size o nodes gasnet_mb registered_mb ib_mb) in
  '(addr, size) ← aget segment_info mynode;
  assert! my_segment_end o nodes addr gasnet_mb registered_mb ib_mb ≤ addr + size;
  let pool :=
    if decide (srcdatapool_size o > 0) then
      Some (SrcDataPool_init (final_limits o)
              (srcdatapool_base addr gasnet_mb registered_mb ib_mb) (srcdatapool_size o))
    else None in
  manager ← EndpointManager_init (ep_config o) segment_info mynode nodes;
  Some (mkEndpoints o handlers pool manager init_deferred_frees).

End init.

Section memories.
Context `{O : IdOps} (my_node_id : Z).

(** ** The registered memories

    [addr] is the start of the node's segment, and the sizes are [size_t]. *)
Definition regmem_base (addr gasnet_mb : Z) : Z := addr + u64 (Z.shiftl gasnet_mb 20).
Definition reg_ib_mem_base (addr gasnet_mb reg_mb : Z) : Z :=
  addr + u64 (Z.shiftl gasnet_mb 20) + u64 (Z.shiftl reg_mb 20).

Definition create_regmem (t : node_tables) (addr gasnet_mb reg_mb : Z)
    : option (node_tables * option LocalCPUMemory) :=
  if decide (reg_mb > 0) then
    let '(t, m) := next_local_memory_id my_node_id t in
    regmem ← LocalCPUMemory_init (regmem_base addr gasnet_mb) true 0;
    t ← add_memory my_node_id t m;
    Some (t, Some regmem)
  else Some (t, None).

Definition create_reg_ib_mem (t : node_tables) (addr gasnet_mb reg_mb ib_mb : Z)
    : option (node_tables * option LocalCPUMemory) :=
  if decide (ib_mb > 0) then
    let '(t, m) := next_local_ib_memory_id my_node_id t in
    reg_ib_mem ← LocalCPUMemory_init (reg_ib_mem_base addr gasnet_mb reg_mb) true 0;
    t ← add_ib_memory my_node_id t m;
    Some (t, Some reg_ib_mem)
  else Some (t, None).

Context {index_limit : Z} `{L : !IdLaws O my_node_id index_limit}.

(** The two memories, with the identifiers of the next free entries. *)
Lemma create_regmem_ok t addr g r :
  tables_ok my_node_id t → zlen (memories t) < index_limit → 0 < addr → 0 ≤ g < 2 ^ 43 →
  ∃ t', create_regmem t addr g r =
      Some (t', if decide (r > 0) then Some (mkLocal (addr + 2 ^ 20 * g) true true) else None) ∧
    tables_ok my_node_id t' ∧ ib_memories t' = ib_memories t.
Proof.
  intros Ht Hl Ha Hg. unfold create_regmem. case_decide; [|by exists t].
  destruct (create_ok my_node_id KMemory t Ht Hl) as (t2 & E & Ht2 & Htab). unfold create in E.
  specialize (Htab KIbMemory). rewrite decide_False in Htab by done.
  destruct (next_local_memory_id my_node_id t) as [t1 m]. apply bind_Some in E as (t2' & E & [= -> _]).
  unfold LocalCPUMemory_init, regmem_base.
  assert (u64 (Z.shiftl g 20) = 2 ^ 20 * g) as ->.
  { rewrite Z.shiftl_mul_pow2 by lia. rewrite u64_id by (unfold is_u64; lia). lia. }
  rewrite decide_True by lia. cbn. rewrite E. by exists t2.
Qed.

Lemma create_reg_ib_mem_ok t addr g r i :
  tables_ok my_node_id t → zlen (ib_memories t) < index_limit → 0 < addr → 0 ≤ g < 2 ^ 43 → 0 ≤ r < 2 ^ 43 →
  ∃ t', create_reg_ib_mem t addr g r i =
      Some (t', if decide (i > 0) then Some (mkLocal (addr + 2 ^ 20 * g + 2 ^ 20 * r) true true) else None) ∧
    tables_ok my_node_id t'.
Proof.
  intros Ht Hl Ha Hg Hr. unfold create_reg_ib_mem. case_decide; [|by exists t].
  destruct (create_ok my_node_id KIbMemory t Ht Hl) as (t2 & E & Ht2 & _). unfold create in E.
  destruct (next_local_ib_memory_id my_node_id t) as [t1 m]. apply bind_Some in E as (t2' & E & [= -> _]).
  unfold LocalCPUMemory_init, reg_ib_mem_base.
  assert (∀ x, 0 ≤ x < 2 ^ 43 → u64 (Z.shiftl x 20) = 2 ^ 20 * x) as Hu.
  { intros. rewrite Z.shiftl_mul_pow2 by lia. rewrite u64_id by (unfold is_u64; lia). lia. }
  rewrite !Hu by done. rewrite decide_True by lia. cbn. rewrite E. by exists t2.
Qed.
End memories.


(** ** Sizes without overflow *)
Lemma shiftl20 x : Z.shiftl x 20 = 2 ^ 20 * x.
Proof. rewrite Z.shiftl_mul_pow2 by lia. lia. Qed.

(** A number of megabytes an [int] can be shifted by 20 without overflow. *)
Definition mb_ok (x : Z) : Prop := 0 ≤ x < 2048.

Lemma mb_i32 x : mb_ok x → i32 (Z.shiftl x 20) = 2 ^ 20 * x.
Proof. unfold mb_ok. intros. rewrite shiftl20. apply i32_id. unfold is_i32. lia. Qed.

Lemma mb_u64 x : 0 ≤ x < 2 ^ 43 → u64 (Z.shiftl (u64 x) 20) = 2 ^ 20 * x.
Proof.
  intros. rewrite (u64_id x) by (unfold is_u64; lia). rewrite shiftl20.
  apply u64_id. unfold is_u64. lia.
Qed.

Lemma mb_u64' x : 0 ≤ x < 2 ^ 43 → u64 (Z.shiftl x 20) = 2 ^ 20 * x.
Proof. intros. rewrite shiftl20. apply u64_id. unfold is_u64. lia. Qed.

(** The sizes a node may be started with, and what GASNet gives for them:
    segments of one size, at least the one asked for.  The number of LMBs is an
    [int], and that of all buffers in a segment fits 32 bits. *)
Record layout_ok (o : ep_options) (segs : list (Z * Z)) (nodes mynode g r i size : Z) : Prop := {
  lo_mb : mb_ok g ∧ mb_ok r ∧ mb_ok i ∧ 0 ≤ o_sdpsize_in_mb o;
  lo_lmb : 0 < o_num_lmbs o < 2 ^ 31 ∧ 0 < final_lmb_size o;
  lo_nodes : 0 ≤ mynode < nodes;
  lo_buffers : nodes * o_num_lmbs o < 2 ^ 32;
  lo_total : 2 ^ 20 * (g + r + i + o_sdpsize_in_mb o) + nodes * o_num_lmbs o * final_lmb_size o < 2 ^ 63;
  lo_segs : zlen segs = nodes ∧ Forall (λ s, 0 < s.1 ∧ s.2 = size) segs;
  lo_size : attach_size o nodes g r i ≤ size < 2 ^ 63 }.

Section sizes.
Context {o : ep_options} {segs : list (Z * Z)} {nodes mynode g r i size : Z}.
Hypothesis Hok : layout_ok o segs nodes mynode g r i size.

Lemma total_lmb_ok :
  0 ≤ nodes * o_num_lmbs o * final_lmb_size o < 2 ^ 63 ∧
  total_lmb_size o nodes = nodes * o_num_lmbs o * final_lmb_size o.
Proof.
  destruct Hok as [(Hg & Hr & Hi & Hs) [Hn Hl] Hm Hb Ht _ _]. unfold mb_ok in *.
  assert (0 ≤ nodes * o_num_lmbs o) by nia.
  assert (0 ≤ nodes * o_num_lmbs o * final_lmb_size o) by nia.
  split; [lia|]. unfold total_lmb_size, u32. rewrite Z.mod_small by lia.
  apply u64_id. unfold is_u64. lia.
Qed.

Lemma srcdatapool_size_ok : srcdatapool_size o = 2 ^ 20 * o_sdpsize_in_mb o.
Proof.
  destruct Hok as [(Hg & Hr & Hi & Hs) _ _ _ Ht _ _]. destruct total_lmb_ok as [? _].
  unfold mb_ok in *. apply mb_u64'. lia.
Qed.

Lemma attach_size_ok :
  attach_size o nodes g r i =
    2 ^ 20 * (g + r + i + o_sdpsize_in_mb o) + nodes * o_num_lmbs o * final_lmb_size o.
Proof.
  pose proof Hok as [(Hg & Hr & Hi & Hs) _ _ _ Ht _ _]. destruct total_lmb_ok as [? E].
  unfold mb_ok in *. unfold attach_size. rewrite srcdatapool_size_ok, E, !mb_u64 by lia.
  rewrite u64_id by (unfold is_u64; lia). lia.
Qed.

Lemma srcdatapool_base_ok addr : srcdatapool_base addr g r i = addr + 2 ^ 20 * (g + r + i).
Proof.
  destruct Hok as [(Hg & Hr & Hi & _) _ _ _ _ _ _]. unfold srcdatapool_base.
  rewrite !mb_i32 by done. lia.
Qed.

(** The buffer that [i] and a peer name, counted from the segment's end. *)
Lemma lmb_r_base_layout ml mm addr p k :
  aget segs mynode = Some (addr, size) → 0 ≤ p < nodes → 0 ≤ k < o_num_lmbs o →
  lmb_r_base (mkConfig (o_num_lmbs o) (final_lmb_size o) ml mm) segs mynode p k =
    Some (addr + size - final_lmb_size o * (p * o_num_lmbs o + k + 1)).
Proof.
  intros Hmy Hp Hk. pose proof Hok as [_ [Hn Hl] _ Hnb Ht [Hz Hsegs] Hsz].
  rewrite attach_size_ok in Hsz. unfold lmb_r_base. rewrite Hmy. cbn.
  destruct (aget_is_Some segs p) as [[a' s'] Hp']; [lia|]. rewrite Hp'. cbn.
  assert (s' = size) as ->.
  { rewrite Forall_forall in Hsegs. unfold aget in Hp'. rewrite decide_True in Hp' by lia.
    apply list_elem_of_lookup_2, Hsegs in Hp' as [_ E]. done. }
  pose proof Hok as [(Hg & Hr & Hi & Hs) _ _ _ _ _ _]. unfold mb_ok in *.
  assert (0 ≤ p * o_num_lmbs o + k + 1 ≤ nodes * o_num_lmbs o) by nia.
  assert (∀ c, num_lmbs c = o_num_lmbs o → lmb_number c p k = p * o_num_lmbs o + k + 1) as Enum.
  { intros c Ec. unfold lmb_number, u32. rewrite Ec. apply Z.mod_small. lia. }
  rewrite Enum by done.
  assert (0 ≤ final_lmb_size o * (p * o_num_lmbs o + k + 1) ≤ size) by nia.
  rewrite (u64_id (final_lmb_size o * _)) by (unfold is_u64; lia).
  rewrite u64_id by (unfold is_u64; lia). f_equal. lia.
Qed.
End sizes.

(** ** The endpoints *)
Lemma mapM_seqZ_aget {A} (f : Z → option A) n k i y :
  mapM f (seqZ 0 n) = Some k → aget k i = Some y → 0 ≤ i < n ∧ f i = Some y.
Proof.
  intros H%mapM_Some Hi. pose proof (aget_Some_range _ _ _ Hi) as Hr.
  unfold aget in Hi. rewrite decide_True in Hi by lia.
  destruct (Forall2_lookup_r _ _ _ _ _ H Hi) as (x & Hx & Hf).
  apply lookup_seqZ in Hx as [-> Hlt]. split; [lia|]. rewrite <-Hf. f_equal. lia.
Qed.

Lemma mapM_seqZ_total {A} (f : Z → option A) n :
  0 ≤ n → (∀ i, 0 ≤ i < n → is_Some (f i)) → ∃ k, mapM f (seqZ 0 n) = Some k ∧ zlen k = n.
Proof.
  intros Hn Hf. assert (is_Some (mapM f (seqZ 0 n))) as [k Hk].
  { apply mapM_is_Some. apply Forall_forall. intros i Hi%elem_of_seqZ. apply Hf. lia. }
  exists k. split; [done|]. apply mapM_Some, Forall2_length in Hk. unfold zlen. rewrite <-Hk, length_seqZ. lia.
Qed.

(** [b] is the buffer with index [k] that messages of [p] arrive in. *)
Definition read_buffer (m : EndpointManager) (p k b : Z) : Prop :=
  ∃ e, get_endpoint m p = Some e ∧ aget (lmb_r_bases e) k = Some b.

Lemma endpoint_bases cfg segs my p :
  0 ≤ num_lmbs cfg → is_Some (aget segs my) → is_Some (aget segs p) →
  ∃ e, Endpoint_init cfg segs my p = Some e ∧ zlen (lmb_r_bases e) = num_lmbs cfg ∧
    (∀ k b, aget (lmb_r_bases e) k = Some b → 0 ≤ k < num_lmbs cfg ∧ lmb_r_base cfg segs my p k = Some b).
Proof.
  intros Hn [[a s] Hmy] [[a' s'] Hp]. unfold Endpoint_init.
  destruct (mapM_seqZ_total (lmb_w_base cfg segs my p) (num_lmbs cfg)) as (wb & Hwb & _).
  { done. } { intros. unfold lmb_w_base. rewrite Hp. done. }
  destruct (mapM_seqZ_total (lmb_r_base cfg segs my p) (num_lmbs cfg)) as (rb & Hrb & Hz).
  { done. } { intros. unfold lmb_r_base. rewrite Hmy, Hp. done. }
  rewrite Hwb, Hrb. eexists. split; [done|]. split; [done|].
  intros k b Hk. by eapply mapM_seqZ_aget in Hrb as [??].
Qed.

Lemma manager_buffers cfg segs my n :
  0 ≤ num_lmbs cfg → 0 ≤ my < n → zlen segs = n →
  ∃ m, EndpointManager_init cfg segs my n = Some m ∧
    (∀ p, 0 ≤ p < n → p ≠ my → ∃ e, get_endpoint m p = Some e ∧ zlen (lmb_r_bases e) = num_lmbs cfg) ∧
    (∀ p k b, read_buffer m p k b →
       0 ≤ p < n ∧ p ≠ my ∧ 0 ≤ k < num_lmbs cfg ∧ lmb_r_base cfg segs my p k = Some b).
Proof.
  intros Hn Hmy Hz. unfold EndpointManager_init.
  assert (∀ p, 0 ≤ p < n → is_Some (aget segs p)) as Hs by (intros; apply aget_is_Some; lia).
  destruct (mapM_seqZ_total
    (λ i, if decide (i = my) then Some None else e ← Endpoint_init cfg segs my i; Some (Some e)) n)
    as (eps & Heps & Hlen).
  { lia. }
  { intros i Hi. case_decide; [done|].
    destruct (endpoint_bases cfg segs my i Hn (Hs my Hmy) (Hs i Hi)) as (e & -> & _). done. }
  rewrite Heps. eexists. split; [done|]. unfold read_buffer, get_endpoint. cbn [endpoints]. split.
  - intros p Hp Hne. destruct (aget_is_Some eps p) as [oe Hoe]; [lia|].
    destruct (mapM_seqZ_aget _ _ _ _ _ Heps Hoe) as [_ Hf]. cbv beta in Hf.
    rewrite decide_False in Hf by done.
    destruct (endpoint_bases cfg segs my p Hn (Hs my Hmy) (Hs p Hp)) as (e & He & Hl & _).
    rewrite He in Hf. cbn in Hf. injection Hf as <-. exists e. by rewrite Hoe.
  - intros p k b (e & He & Hk). apply bind_Some in He as (oe & Hoe & ->).
    destruct (mapM_seqZ_aget _ _ _ _ _ Heps Hoe) as [Hp Hf]. cbv beta in Hf.
    case_decide as Hne; [discriminate|].
    destruct (endpoint_bases cfg segs my p Hn (Hs my Hmy) (Hs p Hp)) as (e' & He & _ & Hb).
    rewrite He in Hf. cbn in Hf. injection Hf as ->. destruct (Hb k b Hk). done.
Qed.

(** ** Properties *)

(** C39. The parts of a node's registered segment do not overlap.  For sizes
    below 2048 megabytes that fit the address space together, fewer than 2^32
    buffers in all, and segments at least as large as asked for, [init_endpoints] succeeds and the global
    memory, the two registered memories, the source-data pool and the message
    buffers of the peers follow one another inside the segment; the buffers
    of different peers and indices are disjoint, each other node has an
    endpoint with all of its buffers, and the pool starts in a state that
    satisfies its invariant as long as addresses stay below 2^63. *)
Theorem init_endpoints_layout {F} (flip_req flip_ack release_srcptr : F) ml mm attach given
    `{O : IdOps} index_limit t handlers nodes mynode g r i size :
  let o := foldl store_option default_options given in
  let segs := attach (attach_size o nodes g r i) in
  layout_ok o segs nodes mynode g r i size →
  zlen handlers < 125 →
  IdLaws O mynode index_limit → tables_ok mynode t →
  zlen (memories t) < index_limit → zlen (ib_memories t) < index_limit →
  ∃ addr st,
    aget segs mynode = Some (addr, size) ∧
    init_endpoints flip_req flip_ack release_srcptr ml mm attach given handlers nodes mynode g r i
      = Some st ∧
    let reg := addr + 2 ^ 20 * g in
    let ib := reg + 2 ^ 20 * r in
    let pool := ib + 2 ^ 20 * i in
    let lmbs := pool + 2 ^ 20 * o_sdpsize_in_mb o in
    (∃ t' t'',
       create_regmem mynode t addr g r =
         Some (t', if decide (r > 0) then Some (mkLocal reg true true) else None) ∧
       create_reg_ib_mem mynode t' addr g r i =
         Some (t'', if decide (i > 0) then Some (mkLocal ib true true) else None) ∧
       tables_ok mynode t'') ∧
    es_pool st = (if decide (o_sdpsize_in_mb o > 0)
                  then Some (SrcDataPool_init (final_limits o) pool (2 ^ 20 * o_sdpsize_in_mb o)) else None) ∧
    (∀ s, es_pool st = Some s → addr + size < 2 ^ 63 → sdp_inv pool s) ∧
    (∀ p, 0 ≤ p < nodes → p ≠ mynode → ∃ e,
       get_endpoint (es_manager st) p = Some e ∧ zlen (lmb_r_bases e) = o_num_lmbs o) ∧
    (∀ p k b, read_buffer (es_manager st) p k b → lmbs ≤ b ∧ b + final_lmb_size o ≤ addr + size) ∧
    (∀ p k b p' k' b', read_buffer (es_manager st) p k b → read_buffer (es_manager st) p' k' b' →
       (p, k) ≠ (p', k') → b + final_lmb_size o ≤ b' ∨ b' + final_lmb_size o ≤ b).
Proof.
  intros o segs Hok Hh HL Htab Hlm Hli. pose proof Hok as [(Hg & Hr & Hi & Hs) [Hn Hl] Hm Hnb Ht [Hz Hsegs] Hsz].
  rewrite (attach_size_ok Hok) in Hsz.
  assert (∃ addr, aget segs mynode = Some (addr, size) ∧ 0 < addr) as (addr & Hmy & Hpos).
  { destruct (aget_is_Some segs mynode) as [[a s] E]; [lia|]. exists a.
    assert ((a, s) ∈ segs) as Hin.
    { unfold aget in E. rewrite decide_True in E by lia. by eapply list_elem_of_lookup_2. }
    rewrite Forall_forall in Hsegs. destruct (Hsegs _ Hin) as [? <-]. done. }
  destruct (manager_buffers (ep_config ml mm o) segs mynode nodes) as (m & Em & Hpeers & Hbufs);
    [cbn; lia|done|done|].
  pose proof (total_lmb_ok Hok) as [? Etot].
  assert (∀ p k b, read_buffer m p k b → 0 ≤ p < nodes ∧ 0 ≤ k < o_num_lmbs o ∧
    b = addr + size - final_lmb_size o * (p * o_num_lmbs o + k + 1)) as Hb.
  { intros p k b (Hp & _ & Hk & Hb)%Hbufs.
    unfold ep_config in Hb. rewrite (lmb_r_base_layout Hok ml mm addr) in Hb by done. by simplify_eq. }
  unfold mb_ok in *.
  exists addr. eexists. split; [done|]. split.
  { unfold init_endpoints, add_internal_handlers. fold o.
    rewrite assert_true by (unfold MAX_HANDLERS; lia). cbn [mbind option_bind]. fold segs. rewrite Hmy.
    cbn [mbind option_bind]. unfold my_segment_end.
    rewrite (srcdatapool_base_ok Hok), (srcdatapool_size_ok Hok), Etot, assert_true by lia.
    rewrite Em. reflexivity. }
  cbn [es_pool es_manager]. split_all.
  - destruct (create_regmem_ok mynode t addr g r) as (t' & -> & Ht' & Ei); [done..|lia|].
    destruct (create_reg_ib_mem_ok mynode t' addr g r i) as (t'' & E & Ht''); [done|congruence|done|lia|lia|].
    exists t', t''. split; [done|]. split; [exact E|done].
  - case_decide; case_decide; try lia; [|done]. do 2 f_equal. lia.
  - case_decide; [|done]. intros s [= <-] Hend.
    replace (addr + 2 ^ 20 * (g + r + i)) with (addr + 2 ^ 20 * g + 2 ^ 20 * r + 2 ^ 20 * i) by lia.
    apply sdp_init_inv; try lia. exists (2 ^ 14 * o_sdpsize_in_mb o). unfold BLOCK_SIZE. lia.
  - done.
  - intros p k b (Hp & Hk & ->)%Hb.
    assert (0 ≤ p * o_num_lmbs o + k + 1 ≤ nodes * o_num_lmbs o) by nia. nia.
  - intros p k b p' k' b' (Hp & Hk & ->)%Hb (Hp' & Hk' & ->)%Hb Hne.
    assert (p * o_num_lmbs o + k ≠ p' * o_num_lmbs o + k').
    { intros E. apply Hne. assert (p = p') by nia. f_equal; [done|nia]. }
    destruct (Z.lt_total (p * o_num_lmbs o + k) (p' * o_num_lmbs o + k')) as [|[|]]; [|done|].
    + right. nia.
    + left. nia.
Qed.

(** Two nodes, a global memory and both registered memories, and the options
    [-ll:lmbsize 512 -ll:numlmbs 3]. *)
Lemma init_endpoints_layout_witness :
  let attach := λ n, [(2 ^ 32, n + 4096); (2 ^ 33, n + 4096)] in
  ∃ st, init_endpoints 10 11 12 65536 4096 attach [(LmbSize, 512); (NumLmbs, 3)] [(130, 13)] 2 1 256 128 64
      = Some st ∧
    (∀ p k b, read_buffer (es_manager st) p k b →
       2 ^ 33 + 2 ^ 20 * 512 ≤ b ∧ b + 2 ^ 19 ≤ 2 ^ 33 + 540020736).
Proof.
  intros attach.
  destruct (init_endpoints_layout 10 11 12 65536 4096 attach [(LmbSize, 512); (NumLmbs, 3)] 
              (O := example_ids) 4095 node_tables_init [(130, 13)] 2 1 256 128 64 540020736) as (addr & st & Ha & Hst & _ & _ & _ & _ & Hb & _).
  - set (o := foldl _ _ _).
    assert (final_lmb_size o = 2 ^ 19) as El by reflexivity.
    assert (o_num_lmbs o = 3) as En by reflexivity.
    assert (o_sdpsize_in_mb o = 64) as Es by reflexivity.
    assert (attach_size o 2 256 128 64 = 540016640) as Ea by reflexivity.
    split; rewrite ?El, ?En, ?Es, ?Ea; unfold mb_ok; [lia..| |lia].
    split; [reflexivity|]. by repeat constructor.
  - vm_compute. reflexivity.
  - by apply example_ids_laws.
  - apply tables_init_ok.
  - vm_compute. reflexivity.
  - vm_compute. reflexivity.
  - exists st. split; [exact Hst|]. vm_compute in Ha. injection Ha as <-.
    intros p k b Hp. specialize (Hb p k b Hp).
    change (final_lmb_size _) with (2 ^ 19) in Hb. change (o_sdpsize_in_mb _) with 64 in Hb. lia.
Defined.

(** With 4096 megabytes the shifted [int] is zero: the pool starts at the
    start of the segment, inside the global memory, and no check notices. *)
Lemma init_endpoints_shift_overflow :
  ∃ st s, init_endpoints () () () 65536 4096 (λ n, [(2 ^ 40, n)]) [] [] 1 0 4096 0 0 = Some st ∧
    es_pool st = Some s ∧ free_list s = [(2 ^ 40, 2 ^ 26)] ∧
    regmem_base (2 ^ 40) 4096 = 2 ^ 40 + 2 ^ 32.
Proof. eexists _, _. split; [vm_compute; reflexivity|]. split; [reflexivity|]. by split. Qed.

(** With 2048 megabytes of registered memory it lies in front of it. *)
Lemma srcdatapool_base_below addr g i :
  mb_ok g → mb_ok i → g + i < 2048 → srcdatapool_base addr g 2048 i < addr.
Proof.
  unfold srcdatapool_base. intros Hg Hi ?. rewrite (mb_i32 g), (mb_i32 i) by done.
  change (i32 (Z.shiftl 2048 20)) with (- 2 ^ 31). unfold mb_ok in *. lia.
Qed.

(** With 2^32 buffers in all, for example 1024 nodes and [-ll:numlmbs 4194304],
    their product is zero: no memory at all is asked for them. *)
Lemma total_lmb_size_wraps o nodes : nodes * o_num_lmbs o = 2 ^ 32 → total_lmb_size o nodes = 0.
Proof. unfold total_lmb_size. by intros ->. Qed.

(** The option for the spill limit changes the step of the warnings. *)
Lemma spillstall_sets_step v :
  max_spill_bytes (final_limits (foldl store_option default_options [(SpillStall, v)])) = 0 ∧
  o_spillstep_in_mb (foldl store_option default_options [(SpillStall, v)]) = v.
Proof. done. Qed.
