(* ===== verification/Messages.v ===== *)
(** * Message classes

    The typed layer over the endpoints, of src/templates/activemsg.h and the
    entry points of src/templates/activemsg.cc: [request] and the three
    [enqueue_message]s that turn a struct and a payload into an outgoing
    message, the handlers that turn handler arguments back into a typed
    incoming message, the release of the source pointer, and [run_handler].
    The theorems follow a message from the sender's struct to the receiver's
    queue and the sender's pool. *)

From S2P Require Import Prelude StdMap Spans SrcDataPool Bytes Words Payload Ring Endpoint Lmb EndpointManager Startup.

(** ** Message types *)

(** An instance of [ActiveMessageShortNoReply] or [ActiveMessageMediumNoReply]:
    the message id, size and alignment of the argument struct, and the offset
    of its [BaseMedium] when it has one. *)
Record MsgType := mkMsgType { mt_id : Z; mt_size : Z; mt_align : Z; mt_base : Z }.

(** [sizeof(AtLeastEightBytes<MSGTYPE>)] *)
Definition at_least_eight_bytes (T : MsgType) : Z :=
  round_up (Z.max (mt_align T) 8) (Z.max (mt_size T) 8).

(** The number of [handlerarg_t]s of [MessageRawArgsType]. *)
Definition raw_args (T : MsgType) : Z := (at_least_eight_bytes T + 3) `div` 4.

(** [sizeof(MessageRawArgsType) <= 64]; a structure of more than 16 arguments
    has no specialization at all. *)
Definition add_handler_entries {F} (T : MsgType) (handlers : list (Z * F)) (handler : F)
    : option (list (Z * F)) :=
  assert! 4 * raw_args T ≤ 64;
  add_handler_entry handlers (mt_id T) handler.

(** ** Requests *)

(** [BaseMedium]: [message_id] at 0, [message_chunks] at 4, [srcptr] at 8. *)
Definition magic_bytes : list Z :=
  le_bytes 4 MESSAGE_ID_MAGIC ++ le_bytes 4 MESSAGE_CHUNKS_MAGIC ++ le_bytes 8 0.

Definition set_magic (T : MsgType) (st : list Z) : list Z :=
  store_at (Z.to_nat (mt_base T)) magic_bytes st.

(** What the constructor of [OutgoingMessage] reads through [args]: [obj] is
    the struct followed by whatever is next in memory, which the last word
    reaches into when the size is no multiple of four. *)
Definition read_args (T : MsgType) (obj : list Z) : list Z :=
  ints_of (Z.to_nat (arg_words (mt_size T))) obj.

(** The header is allocated at [p] and handed to the manager, in order. *)
Definition enqueue_hdr (cfg : Config) (copy_ptr : Z) (m : EndpointManager) (w : Wire)
    (target p : Z) (hdr : OutgoingMessage) : option (EndpointManager * Wire) :=
  em_enqueue_message cfg copy_ptr m (mkWire (node w) (<[p := hdr]> (msgs w)) (sent w))
    target p true.

Definition short_request (cfg : Config) (mynode : Z) (seg : Z * Z) (T : MsgType)
    (target : Z) (st rest : list Z) : option OutgoingMessage :=
  contig_message (lmb_size cfg) mynode seg target (mt_id T) (read_args T (st ++ rest))
    (mt_size T) 0 0 PAYLOAD_NONE 0.

(** The three overloads of [request]; each also updates the caller's struct,
    which it takes by reference. *)
Inductive payload_desc :=
| DescContig (data datalen : Z)
| DescTwoD (data line_len line_stride line_count : Z)
| DescSpans (spans : list (Z * Z)) (datalen : Z).

Definition medium_request (cfg : Config) (mynode : Z) (seg : Z * Z) (T : MsgType)
    (target : Z) (st rest : list Z) (d : payload_desc) (mode : PayloadMode) (dst : Z)
    : option OutgoingMessage :=
  let ints := read_args T (set_magic T st ++ rest) in
  match d with
  | DescContig data datalen =>
      contig_message (lmb_size cfg) mynode seg target (mt_id T) ints (mt_size T)
        data datalen mode dst
  | DescTwoD data line_len line_stride line_count =>
      twod_message (lmb_size cfg) mynode target (mt_id T) ints (mt_size T)
        data line_len line_stride line_count mode dst
  | DescSpans spans datalen =>
      span_message (lmb_size cfg) mynode target (mt_id T) ints (mt_size T)
        spans datalen mode dst
  end.

(** ** Incoming messages *)

(** [IncomingShortMessage] and [IncomingMediumMessage]; the union is kept as
    its [raw] arguments. *)
Inductive IncomingMessage :=
| IncomingShortMessage (ty : MsgType) (sender : Z) (raw : list Z)
| IncomingMediumMessage (ty : MsgType) (sender msgdata msglen : Z) (raw : list Z).

(** [u.typed] *)
Definition typed (T : MsgType) (raw : list Z) : list Z :=
  take (Z.to_nat (mt_size T)) (bytes_of raw).

Definition get_peer (i : IncomingMessage) : Z :=
  match i with IncomingShortMessage _ s _ | IncomingMediumMessage _ s _ _ _ => s end.
Definition get_msgid (i : IncomingMessage) : Z :=
  match i with IncomingShortMessage T _ _ | IncomingMediumMessage T _ _ _ _ => mt_id T end.
Definition get_msgsize (i : IncomingMessage) : Z :=
  match i with
  | IncomingShortMessage T _ _ => mt_size T
  | IncomingMediumMessage T _ _ msglen _ => u64 (mt_size T + msglen)
  end.

(** GASNet calls a handler with the arguments that were sent.  A handler that
    is declared with more sees [extra] in the others: whatever the registers
    and the stack hold. *)
Definition call_params (T : MsgType) (a extra : list Z) : list Z :=
  take (Z.to_nat (raw_args T)) (a ++ extra).

Definition handler_short (T : MsgType) (src : Z) (params : list Z) : option IncomingMessage :=
  assert! zlen params = raw_args T;
  Some (IncomingShortMessage T src params).

(** The entry point in front of the endpoint manager's method. *)
Definition am_adjust_long_msgsize (mynode : Z) (m : EndpointManager)
    (source ptr buffer_size message_id nchunks : Z) : option (EndpointManager * Z * Z * bool) :=
  if decide (buffer_size = 0) then Some (m, ptr, buffer_size, true)
  else
    assert! source ≠ mynode;
    em_adjust_long_msgsize m source ptr buffer_size message_id nchunks.

(** [imsg->u.typed.srcptr] *)
Definition typed_srcptr (T : MsgType) (raw : list Z) : Z :=
  le_val (take 8 (drop (Z.to_nat (mt_base T + 8)) (bytes_of raw))).

(** A reply to the sender of the message, as destination and packet. *)
Definition send_srcptr_release (src srcptr : Z) : packet :=
  AMRequestShort src MSGID_RELEASE_SRCPTR [i32 srcptr; i32 (Z.shiftr srcptr 32)].

(** The results: the message passed to [enqueue_incoming] with the replies
    sent, if the message is complete. *)
Definition handler_medium (mynode : Z) (m : EndpointManager) (T : MsgType)
    (src buf nbytes : Z) (params : list Z)
    : option (EndpointManager * option (IncomingMessage * list packet)) :=
  assert! zlen params = raw_args T;
  arg0 ← aget params 0;
  arg1 ← aget params 1;
  '(m, buf, nbytes, handle_now) ← am_adjust_long_msgsize mynode m src buf nbytes arg0 arg1;
  if handle_now : bool then
    let imsg := IncomingMediumMessage T src buf nbytes params in
    let srcptr := typed_srcptr T params in
    if decide (srcptr ≠ 0) then
      assert! nbytes > 0;
      Some (m, Some (imsg, [send_srcptr_release src srcptr]))
    else Some (m, Some (imsg, []))
  else Some (m, None).

(** The sender's end of the release; the second result lists the messages
    that got their source pointer, which [release_srcptr] then fills. *)
Definition release_srcptr_handler (p : SrcDataPool) (arg0 arg1 : Z)
    : option (SrcDataPool * list (Z * Z)) :=
  let srcptr := srcptr_of_args arg0 arg1 in
  if decide (srcptr ≠ 0) then release_srcptr p srcptr else Some (p, []).

(** The internal handlers for flips. *)
Definition handle_flip_req (m : EndpointManager) (w : Wire) (src ack flip_buffer flip_count : Z)
    : option (EndpointManager * Wire) :=
  em_handle_flip_request m w src ack flip_buffer flip_count.

Definition am_handle_flip_ack (m : EndpointManager) (src ack_buffer : Z) : option EndpointManager :=
  em_handle_flip_ack m src ack_buffer.

(** [handle_long_msgptr], the entry point. *)
Definition am_handle_long_msgptr (cfg : Config) (mynode : Z) (m : EndpointManager) (w : Wire)
    (source ack ptr : Z) : option (EndpointManager * Wire) :=
  assert! source ≠ mynode;
  em_handle_long_msgptr cfg m w source ack ptr.

(** What the user's function is called with: the struct and the payload. *)
Definition handler_call (i : IncomingMessage) : list Z * (Z * Z) :=
  match i with
  | IncomingShortMessage T _ raw => (typed T raw, (0, 0))
  | IncomingMediumMessage T _ msgdata msglen raw => (typed T raw, (msgdata, msglen))
  end.

(** [run_handler] calls [user] and then, for a medium message, gives the
    buffer back. *)
Definition run_handler {S} (user : Z → list Z * (Z * Z) → S → S)
    (cfg : Config) (mynode : Z) (m : EndpointManager) (w : Wire) (ack : Z)
    (i : IncomingMessage) (s : S) : option (EndpointManager * Wire * S) :=
  let s := user (get_msgid i) (handler_call i) s in
  match i with
  | IncomingShortMessage _ _ _ => Some (m, w, s)
  | IncomingMediumMessage _ sender msgdata _ _ =>
      '(m, w) ← am_handle_long_msgptr cfg mynode m w sender ack msgdata; Some (m, w, s)
  end.

(** ** A node receiving medium messages *)

(** One call of a medium handler. *)
Record medium_am := mkMediumAm {
  ma_src : Z;
  ma_type : MsgType;
  ma_buf : Z;
  ma_nbytes : Z;
  ma_params : list Z }.

(** The calls in the order GASNet makes them; the result lists, for each call
    that completed a message, the call with what it enqueued and replied. *)
Fixpoint receive (mynode : Z) (m : EndpointManager) (l : list medium_am)
    : option (EndpointManager * list (medium_am * IncomingMessage * list packet)) :=
  match l with
  | [] => Some (m, [])
  | a :: l =>
      '(m, r) ← handler_medium mynode m (ma_type a) (ma_src a) (ma_buf a) (ma_nbytes a)
                  (ma_params a);
      '(m, rs) ← receive mynode m l;
      Some (m, match r with Some (i, reps) => (a, i, reps) :: rs | None => rs end)
  end.

(** ** Structs on the wire *)

Lemma call_params_typed T a extra :
  mt_size T ≤ 4 * zlen a → zlen a ≤ raw_args T →
  typed T (call_params T a extra) = take (Z.to_nat (mt_size T)) (bytes_of a).
Proof.
  intros Hs Ha. unfold typed, call_params, zlen in *.
  rewrite take_app, bytes_of_app.
  rewrite (take_ge a) by lia. rewrite take_app_le; [done|].
  rewrite bytes_of_length. lia.
Qed.

Lemma call_params_zlen T a extra :
  0 ≤ raw_args T ≤ zlen a + zlen extra → zlen (call_params T a extra) = raw_args T.
Proof. intros H. unfold call_params, zlen in *. rewrite length_take, length_app. lia. Qed.

Lemma call_params_aget T a extra i :
  0 ≤ i < zlen a → zlen a ≤ raw_args T → aget (call_params T a extra) i = aget a i.
Proof.
  intros Hi Ha. unfold call_params, aget, zlen in *.
  rewrite !(decide_True (P := 0 ≤ i)) by lia. rewrite lookup_take_lt by lia. by apply lookup_app_l; lia.
Qed.

Lemma arg_words_spec size : 0 ≤ size → size ≤ 4 * arg_words size < size + 4.
Proof.
  intros Hs. unfold arg_words. pose proof (Z.div_mod (size + 4 - 1) 4 ltac:(lia)).
  pose proof (Z.mod_pos_bound (size + 4 - 1) 4 ltac:(lia)). lia.
Qed.

(** A handler is declared with room for the struct. *)
Lemma raw_args_enough T :
  0 ≤ mt_size T → 2 ≤ raw_args T ∧ arg_words (mt_size T) ≤ raw_args T.
Proof.
  intros Hs. unfold raw_args, at_least_eight_bytes, arg_words.
  destruct (round_up_spec (Z.max (mt_align T) 8) (Z.max (mt_size T) 8)) as [_ Hr]; [lia..|].
  split; [apply Z.div_le_lower_bound; lia|]. apply Z.div_le_mono; lia.
Qed.

(** [obj] begins with the struct [st] and the words sent reach no further
    than [obj]. *)
Record struct_in (T : MsgType) (st obj : list Z) : Prop := {
  si_size : 0 < mt_size T ≤ 64;
  si_len : zlen st = mt_size T;
  si_pre : take (Z.to_nat (mt_size T)) obj = st;
  si_room : 4 * arg_words (mt_size T) ≤ zlen obj;
  si_bytes : Forall is_byte obj }.

Lemma struct_in_app T st rest :
  0 < mt_size T ≤ 64 → zlen st = mt_size T → 4 * arg_words (mt_size T) ≤ zlen (st ++ rest) →
  Forall is_byte (st ++ rest) → struct_in T st (st ++ rest).
Proof.
  intros Hs Hl Hr Hb. split; try done. unfold zlen in *. rewrite take_app_le by lia.
  by rewrite take_ge by lia.
Qed.

Lemma read_args_zlen T obj : 0 ≤ mt_size T → zlen (read_args T obj) = arg_words (mt_size T).
Proof.
  intros Hs. pose proof (arg_words_spec _ Hs). unfold read_args, zlen.
  rewrite ints_of_length. lia.
Qed.

(** The struct read as words and written back is the struct, whatever a
    handler with more arguments finds in the others. *)
Lemma typed_read_args T st obj extra :
  struct_in T st obj → typed T (call_params T (read_args T obj) extra) = st.
Proof.
  intros [Hs Hl Hp Hr Hb]. pose proof (arg_words_spec (mt_size T) ltac:(lia)).
  pose proof (raw_args_enough T ltac:(lia)) as [_ Hra].
  rewrite call_params_typed; rewrite ?read_args_zlen by lia; try lia.
  unfold read_args. unfold zlen in *. rewrite bytes_of_ints by (done || lia).
  rewrite take_take, Nat.min_l by lia. done.
Qed.

Lemma OutgoingMessage_init_args mid T obj :
  0 < mt_size T ≤ 64 →
  OutgoingMessage_init mid (arg_words (mt_size T)) (read_args T obj) =
  Some (mkMsg mid (arg_words (mt_size T)) (read_args T obj) 0 0 PAYLOAD_NONE 0 None).
Proof.
  intros Hs. pose proof (arg_words_spec (mt_size T) ltac:(lia)).
  unfold OutgoingMessage_init. rewrite assert_true by lia. do 2 f_equal.
  apply take_ge. pose proof (read_args_zlen T obj ltac:(lia)) as Hz. unfold zlen in Hz. lia.
Qed.

Lemma mapM_aget_all (l : list Z) : mapM (aget l) (seqZ 0 (zlen l)) = Some l.
Proof.
  apply mapM_Some. apply Forall2_same_length_lookup. split.
  { unfold zlen. rewrite length_seqZ. lia. }
  intros i x y Hx Hy. apply lookup_seqZ in Hx as [-> Hi]. unfold aget.
  rewrite decide_True by lia. by replace (Z.to_nat (0 + Z.of_nat i)) with i by lia.
Qed.

Lemma first_args_all hdr : num_args hdr = zlen (args hdr) → first_args hdr = Some (args hdr).
Proof. intros E. unfold first_args. rewrite E. apply mapM_aget_all. Qed.

(** C12. A short message delivers its struct.  The request to another node builds
    a header; if the number of words is one that [send_short] has a case for,
    one packet goes out and the handler at the receiver, whatever it sees in the
    arguments that were not sent, enqueues a message whose struct has the
    sender's bytes, with the sender and id of the message.  For any other
    number of words the send fails. *)
Theorem short_message_delivered cfg mynode seg T target st rest :
  target ≠ mynode → 0 < mt_size T ≤ 64 → zlen st = mt_size T →
  4 * arg_words (mt_size T) ≤ zlen (st ++ rest) → Forall is_byte (st ++ rest) →
  ∃ hdr, short_request cfg mynode seg T target st rest = Some hdr ∧
    ∀ e w, if short_args_supported (arg_words (mt_size T))
      then ∃ a, send_short e w hdr = Some (send_packet w (AMRequestShort (peer e) (mt_id T) a)) ∧
        ∀ src extra, raw_args T ≤ zlen a + zlen extra → ∃ i,
          handler_short T src (call_params T a extra) = Some i ∧
          get_peer i = src ∧ get_msgid i = mt_id T ∧ handler_call i = (st, (0, 0))
      else send_short e w hdr = None.
Proof.
  intros Ht Hs Hl Hr Hb. pose proof (struct_in_app T st rest Hs Hl Hr Hb) as Hsi.
  eexists. split.
  { unfold short_request, contig_message. rewrite assert_true by done.
    rewrite OutgoingMessage_init_args by done. simpl. done. }
  intros e w. unfold send_short. simpl. destruct (short_args_supported _) eqn:Esup; [|done].
  rewrite assert_true by done. eexists. split.
  { rewrite first_args_all; [done|]. simpl. by rewrite read_args_zlen by lia. }
  intros src extra Hx. pose proof (raw_args_enough T ltac:(lia)) as [H2 _].
  eexists. split; [unfold handler_short; rewrite assert_true; [done|]|].
  { apply call_params_zlen. lia. }
  split_all; try done. simpl. by rewrite (typed_read_args T st).
Qed.

(** ** The stamped struct *)

(** The struct as the receiver of a long message sees it: the sender's struct
    with the header filled in by [send_long]. *)
Definition stamped (st : list Z) (id nchunks srcptr : Z) : list Z :=
  le_bytes 4 (u32 id) ++ le_bytes 4 (u32 nchunks) ++ le_bytes 8 srcptr ++ drop 16 st.

Lemma le_bytes_app n m : ∀ z,
  le_bytes (n + m) z = le_bytes n z ++ le_bytes m (z `div` 256 ^ Z.of_nat n).
Proof.
  induction n as [|n IH]; intros z; cbn [le_bytes Nat.add app].
  - by rewrite Z.div_1_r.
  - rewrite IH, Nat2Z.inj_succ, Z.pow_succ_r, Z.div_div by lia. done.
Qed.

Lemma le_bytes_mod n : ∀ z, le_bytes n (z `mod` 256 ^ Z.of_nat n) = le_bytes n z.
Proof.
  intros z. rewrite <- le_val_bytes. apply le_bytes_val; [apply le_bytes_byte|].
  apply le_bytes_length.
Qed.

(** The two words of a pointer are the pointer in memory. *)
Lemma le_bytes_srcptr p :
  is_u64 p →
  le_bytes 4 (u32 (srcptr_lo p)) ++ le_bytes 4 (u32 (srcptr_hi p)) = le_bytes 8 p.
Proof.
  intros Hp. unfold srcptr_lo, srcptr_hi.
  rewrite u64_id, land_mask32, u32_i32, Z.mod_mod by (done || lia).
  change 8%nat with (4 + 4)%nat. rewrite (le_bytes_app 4 4).
  change (2 ^ 32) with (256 ^ Z.of_nat 4) at 1. rewrite le_bytes_mod. do 2 f_equal.
  rewrite Z.shiftr_div_pow2 by lia. apply u32_i32_id. unfold is_u64 in Hp.
  split; [apply Z.div_pos; lia|]. apply Z.div_lt_upper_bound; lia.
Qed.

Lemma srcptr_words p : is_u64 p → [i32 p; i32 (Z.shiftr p 32)] = [srcptr_lo p; srcptr_hi p].
Proof.
  intros Hp. unfold srcptr_lo, srcptr_hi. rewrite (u64_id p) by done.
  rewrite land_mask32. unfold i32 at 1 3. by rewrite Zplus_mod_idemp_l.
Qed.

(** What the sender stamps in front of the rest of the struct; [p] is the
    pointer the receiver is to release. *)
Definition release_ptr (hdr : OutgoingMessage) : Z :=
  if decide (payload_mode hdr = PAYLOAD_SRCPTR) then payload hdr else 0.

Lemma set_magic_drop T st :
  mt_base T = 0 → 16 ≤ zlen st → drop 16 (set_magic T st) = drop 16 st.
Proof. intros Hb Hl. unfold set_magic, store_at. by rewrite Hb. Qed.

Lemma set_magic_zlen T st :
  mt_base T = 0 → 16 ≤ zlen st → zlen (set_magic T st) = zlen st.
Proof.
  intros Hb Hl. unfold set_magic, zlen in *. rewrite Hb. f_equal. apply store_at_length.
  simpl. lia.
Qed.

Lemma set_magic_byte T st : Forall is_byte st → Forall is_byte (set_magic T st).
Proof.
  intros. apply store_at_byte; [|done]. unfold magic_bytes.
  repeat apply Forall_app_2; apply le_bytes_byte.
Qed.

Lemma struct_in_magic T st rest :
  mt_base T = 0 → 16 ≤ mt_size T ≤ 64 → zlen st = mt_size T →
  4 * arg_words (mt_size T) ≤ zlen (st ++ rest) → Forall is_byte (st ++ rest) →
  struct_in T (set_magic T st) (set_magic T st ++ rest).
Proof.
  intros Hb Hsz Hl Hr [? ?]%Forall_app. apply struct_in_app; [lia|..].
  - by rewrite set_magic_zlen by lia.
  - rewrite zlen_app, set_magic_zlen by lia. by rewrite zlen_app in Hr.
  - apply Forall_app_2; [by apply set_magic_byte|done].
Qed.

Lemma stamp_args_bytes hdr id n :
  4 ≤ zlen (args hdr) → is_u64 (payload hdr) →
  bytes_of (stamp_args hdr 0 id n) = stamped (bytes_of (args hdr)) id n (release_ptr hdr).
Proof.
  intros Hl Hp. unfold stamp_args, release_ptr, stamped.
  destruct (args hdr) as [|a0 [|a1 [|a2 [|a3 tl]]]]; try (unfold zlen in Hl; simpl in Hl; lia).
  rewrite !bytes_of_cons.
  assert (∀ b : list Z, drop 16 (le_bytes 4 (u32 a0) ++ le_bytes 4 (u32 a1) ++
    le_bytes 4 (u32 a2) ++ le_bytes 4 (u32 a3) ++ b) = b) as -> by done.
  case_decide.
  - rewrite <- (le_bytes_srcptr (payload hdr)), <- app_assoc by done. done.
  - rewrite <- (le_bytes_srcptr 0), <- app_assoc by done. done.
Qed.

(** The first words of a struct with [BaseMedium] in front are the magic
    words. *)
Lemma read_args_magic T st rest :
  mt_base T = 0 → 16 ≤ zlen st → 4 ≤ arg_words (mt_size T) →
  aget (read_args T (set_magic T st ++ rest)) 0 = Some MESSAGE_ID_MAGIC.
Proof.
  intros Hb Hl Hw. unfold read_args, set_magic, store_at. rewrite Hb.
  destruct (Z.to_nat (arg_words (mt_size T))) as [|k] eqn:Ek; [lia|]. done.
Qed.

Section long_struct.
Context (T : MsgType) (st rest : list Z) (hdr : OutgoingMessage).
Context (Hbase : mt_base T = 0) (Hsize : 16 ≤ mt_size T ≤ 64).
Context (Hsi : struct_in T (set_magic T st) (set_magic T st ++ rest)).
Context (Hst : zlen st = mt_size T).
Context (Hn : num_args hdr = arg_words (mt_size T)).
Context (Ha : args hdr = read_args T (set_magic T st ++ rest)).
Context (Hp : is_u64 (payload hdr)).

Lemma long_args_zlen : zlen (args hdr) = arg_words (mt_size T) ∧ 4 ≤ arg_words (mt_size T).
Proof.
  pose proof (arg_words_spec (mt_size T) ltac:(lia)). rewrite Ha, read_args_zlen by lia. lia.
Qed.

Lemma long_first_args id n :
  first_args (set_args hdr (stamp_args hdr 0 id n)) = Some (stamp_args hdr 0 id n).
Proof.
  destruct long_args_zlen as [Hz _].
  rewrite first_args_all; [done|]. simpl. rewrite stamp_args_zlen. congruence.
Qed.

Lemma long_typed id n extra :
  typed T (call_params T (stamp_args hdr 0 id n) extra) = stamped st id n (release_ptr hdr).
Proof.
  destruct long_args_zlen as [Hz H4]. destruct Hsi as [_ Hl Hpre Hr Hb].
  pose proof (arg_words_spec (mt_size T) ltac:(lia)).
  pose proof (raw_args_enough T ltac:(lia)) as [_ Hra].
  rewrite call_params_typed; rewrite ?stamp_args_zlen by lia; try lia.
  rewrite stamp_args_bytes by (done || lia). unfold stamped.
  rewrite Ha. unfold read_args. unfold zlen in *. rewrite bytes_of_ints by (done || lia).
  rewrite !app_assoc. rewrite take_app. rewrite !length_app, !le_bytes_length.
  rewrite take_ge by (rewrite !length_app, !le_bytes_length; lia). f_equal.
  rewrite <- (set_magic_drop T st) by (unfold zlen; lia).
  rewrite take_drop_commute, take_take. rewrite <- Hpre at 2. do 2 f_equal. lia.
Qed.

Lemma long_typed_srcptr id n extra :
  typed_srcptr T (call_params T (stamp_args hdr 0 id n) extra) = release_ptr hdr.
Proof.
  destruct long_args_zlen as [Hz H4].
  pose proof (raw_args_enough T ltac:(lia)) as [_ Hra].
  assert (4 ≤ zlen (stamp_args hdr 0 id n) ≤ raw_args T) as Hsl by (rewrite stamp_args_zlen; lia).
  unfold typed_srcptr, call_params.
  rewrite Hbase, take_app, (take_ge (stamp_args hdr 0 id n)), bytes_of_app by (unfold zlen in *; lia).
  rewrite stamp_args_bytes by (done || lia). unfold stamped. rewrite <- !app_assoc.
  change (Z.to_nat (0 + 8)) with 8%nat.
  assert (∀ b : list Z, drop 8 (le_bytes 4 (u32 id) ++ le_bytes 4 (u32 n) ++ b) = b) as -> by done.
  rewrite take_app_le, take_ge by (rewrite le_bytes_length; lia).
  rewrite le_val_bytes. apply Z.mod_small. unfold release_ptr. case_decide; [exact Hp|done].
Qed.
End long_struct.

(** ** Receiving *)

Lemma get_set_endpoint m s e0 e :
  get_endpoint m s = Some e0 → get_endpoint (set_endpoint m s e) s = Some e.
Proof.
  intros Hg. apply get_endpoint_aget, aget_Some_range in Hg.
  unfold get_endpoint. simpl. by rewrite aget_aset_eq.
Qed.

Lemma get_set_endpoint_ne m s s' e :
  s ≠ s' → get_endpoint (set_endpoint m s e) s' = get_endpoint m s'.
Proof. intros Hne. unfold get_endpoint. simpl. by rewrite aget_aset_ne. Qed.

(** The replies of a completed message. *)
Definition releases (src srcptr : Z) : list packet :=
  if decide (srcptr ≠ 0) then [send_srcptr_release src srcptr] else [].

Definition completion (a : medium_am) (d n : Z) : IncomingMessage * list packet :=
  (IncomingMediumMessage (ma_type a) (ma_src a) d n (ma_params a),
   releases (ma_src a) (typed_srcptr (ma_type a) (ma_params a))).

Definition handle (mynode : Z) (m : EndpointManager) (a : medium_am)
    : option (EndpointManager * option (IncomingMessage * list packet)) :=
  handler_medium mynode m (ma_type a) (ma_src a) (ma_buf a) (ma_nbytes a) (ma_params a).

(** A call as the endpoint of [source] sees it, if it does. *)
Definition arrival_at (source : Z) (a : medium_am) : option arrival :=
  if decide (ma_src a = source ∧ ma_nbytes a ≠ 0) then
    id ← aget (ma_params a) 0; n ← aget (ma_params a) 1;
    Some (mkArr (ma_buf a) (ma_nbytes a) id n)
  else None.

(** The calls for one message. *)
Definition own (source id : Z) (a : medium_am) : Prop :=
  ma_src a = source ∧ ma_nbytes a ≠ 0 ∧ aget (ma_params a) 0 = Some id.
#[global] Instance own_dec source id a : Decision (own source id a).
Proof. unfold own. apply _. Defined.

Lemma handle_done (m m' : EndpointManager) T src d n params r :
  (if decide (typed_srcptr T params ≠ 0)
   then assert! n > 0;
     Some (m, Some (IncomingMediumMessage T src d n params,
                    [send_srcptr_release src (typed_srcptr T params)]))
   else Some (m, Some (IncomingMediumMessage T src d n params, []))) = Some (m', r) →
  m' = m ∧ r = Some (IncomingMediumMessage T src d n params,
                     releases src (typed_srcptr T params)).
Proof. unfold releases. intros E. case_decide; asserts; by simplify_eq. Qed.

(** A call either is for an empty message and complete at once, or is one
    more arrival at the endpoint of its source. *)
Lemma handle_inv mynode m a m' r :
  handle mynode m a = Some (m', r) →
  (ma_nbytes a = 0 ∧ m' = m ∧ r = Some (completion a (ma_buf a) 0)) ∨
  (∃ e b, get_endpoint m (ma_src a) = Some e ∧ arrival_at (ma_src a) a = Some b ∧
     m' = set_endpoint m (ma_src a) (deliver_one e b).1 ∧
     match r with
     | Some c => ∃ d n, c = completion a d n ∧ (deliver_one e b).2 = [(ar_id b, d, n)]
     | None => (deliver_one e b).2 = []
     end).
Proof.
  unfold handle, handler_medium, am_adjust_long_msgsize, completion. intros E.
  apply assert_Some in E as [_ E].
  destruct (aget (ma_params a) 0) as [id|] eqn:E0; [|done]. simpl in E.
  destruct (aget (ma_params a) 1) as [n|] eqn:E1; [|done]. simpl in E.
  destruct (decide (ma_nbytes a = 0)) as [Hz|Hz].
  { simpl in E. apply handle_done in E as [-> ->]. left. by rewrite Hz. }
  right. unfold em_adjust_long_msgsize in E. unfold arrival_at. rewrite decide_True, E0, E1 by done.
  destruct (decide (ma_src a ≠ mynode)) as [Hne|Hne];
    [|unfold assert_ in E; by rewrite decide_False in E].
  rewrite assert_true in E by done.
  destruct (get_endpoint m (ma_src a)) as [e|]; [|done]. simpl in E.
  exists e. eexists. split_all; [done|done| |]; unfold deliver_one; simpl.
  all: destruct (adjust_long_msgsize e _ _ id n) as [[[e' d] k] ready]; simpl in *.
  all: destruct ready; [apply handle_done in E as [-> ->]|by simplify_eq]; [done||by eauto].
Qed.

(** The completed messages of [source], as the endpoint reports them. *)
Definition done_at (source : Z) (o : medium_am * IncomingMessage * list packet)
    : option (Z * Z * Z) :=
  let '(a, i, _) := o in
  if decide (ma_src a = source ∧ ma_nbytes a ≠ 0) then
    match i with
    | IncomingMediumMessage _ _ d n _ => id ← aget (ma_params a) 0; Some (id, d, n)
    | _ => None
    end
  else None.

Definition completed_by (l : list medium_am) (o : medium_am * IncomingMessage * list packet) : Prop :=
  let '(a, i, reps) := o in
  a ∈ l ∧ is_Some (aget (ma_params a) 0) ∧ ∃ d n, (i, reps) = completion a d n.

Lemma arrival_at_other source a : ma_src a ≠ source → arrival_at source a = None.
Proof. intros. unfold arrival_at. rewrite decide_False; [done|]. by intros [? _]. Qed.

Lemma arrival_at_id source a b :
  arrival_at source a = Some b →
  ma_src a = source ∧ ma_nbytes a ≠ 0 ∧ aget (ma_params a) 0 = Some (ar_id b) ∧
  aget (ma_params a) 1 = Some (ar_chunks b) ∧ ar_ptr b = ma_buf a ∧ ar_size b = ma_nbytes a.
Proof.
  unfold arrival_at. case_decide as H; [|done]. destruct (aget _ 0); [|done].
  simpl. destruct (aget _ 1); [|done]. simpl. intros. simplify_eq. naive_solver.
Qed.

(** What a node does with medium messages is, source by source, what the
    source's endpoint does with the arrivals. *)
Lemma receive_project mynode source : ∀ l m m' out r,
  get_endpoint m source = Some r → receive mynode m l = Some (m', out) →
  get_endpoint m' source = Some (deliver r (omap (arrival_at source) l)).1 ∧
  omap (done_at source) out = (deliver r (omap (arrival_at source) l)).2 ∧
  Forall (completed_by l) out.
Proof.
  induction l as [|a l IH]; intros m m' out r Hg E; [by simplify_eq/=|].
  cbn [receive] in E. change (handler_medium _ _ _ _ _ _ _) with (handle mynode m a) in E.
  destruct (handle mynode m a) as [[m1 c]|] eqn:Eh; [|done]. simpl in E.
  destruct (receive mynode m1 l) as [[m2 rs]|] eqn:Er; [|done]. simplify_eq/=.
  assert (∀ o, completed_by l o → completed_by (a :: l) o) as Hmono.
  { intros [[b i] reps] (? & ? & ?). refine (conj _ (conj _ _)); [by apply elem_of_cons; right|done|done]. }
  destruct (handle_inv _ _ _ _ _ Eh) as [(Hz & -> & ->)|(e & b & He & Hb & -> & Hc)].
  - assert (is_Some (aget (ma_params a) 0)) as H0.
    { unfold handle, handler_medium in Eh. apply assert_Some in Eh as [_ Eh].
      by destruct (aget (ma_params a) 0). }
    destruct (IH _ _ _ _ Hg Er) as (Hg' & Hd & Hall).
    assert (arrival_at source a = None) as ->.
    { unfold arrival_at. rewrite decide_False; [done|]. by intros [_ ?]. }
    cbn [completion omap list_omap done_at]. rewrite decide_False by (by intros [_ ?]).
    split_all; [done|done|]. constructor; [|by eapply Forall_impl].
    refine (conj _ (conj _ _)); [by apply elem_of_cons; left|done|]. by exists (ma_buf a), 0.
  - destruct (arrival_at_id _ _ _ Hb) as (_ & Hnz & H0 & _).
    destruct (decide (ma_src a = source)) as [Hs|Hs].
    + subst source. rewrite Hg in He. simplify_eq. rewrite Hb. cbn [omap list_omap deliver].
      rewrite (surjective_pairing (deliver_one e b)).
      destruct (IH _ _ _ (deliver_one e b).1 (get_set_endpoint _ _ _ _ Hg) Er) as (Hg' & Hd & Hall).
      rewrite (surjective_pairing (deliver (deliver_one e b).1 _)). cbn [fst snd].
      destruct c as [[i reps]|]; [|by rewrite Hc, Hd; split_all; [..|eapply Forall_impl]].
      destruct Hc as (d & n & Hi & Hd1). rewrite Hd1. cbn [omap list_omap done_at].
      rewrite decide_True by done. injection Hi as -> ->. rewrite H0. simpl. rewrite Hd.
      split_all; [done|done|]. constructor; [|by eapply Forall_impl].
      refine (conj _ (conj _ _)); [by apply elem_of_cons; left|by rewrite H0|by eauto].
    + rewrite (arrival_at_other _ _ Hs). cbn [omap list_omap].
      edestruct IH as (Hg' & Hd & Hall); [|exact Er|]; [by rewrite get_set_endpoint_ne by done|].
      destruct c as [[i reps]|]; [|by split_all; [..|eapply Forall_impl]].
      destruct Hc as (d & n & Hi & _). cbn [omap list_omap done_at].
      rewrite decide_False by (by intros [? _]). split_all; [done|done|].
      constructor; [|by eapply Forall_impl].
      refine (conj _ (conj _ _)); [by apply elem_of_cons; left|by rewrite H0|by eauto].
Qed.

(** The messages reported are those that arrived. *)
Lemma deliver_ids l : ∀ e d, d ∈ (deliver e l).2 → ∃ a, a ∈ l ∧ ar_id a = d.1.1.
Proof.
  induction l as [|a l IH]; intros e d Hd; [by apply elem_of_nil in Hd|].
  simpl in Hd. destruct (deliver_one e a) as [e1 d1] eqn:E1.
  destruct (deliver e1 l) as [e2 d2] eqn:E2. simpl in Hd. apply elem_of_app in Hd as [Hd|Hd].
  - exists a. split; [by apply elem_of_cons; left|]. unfold deliver_one in E1.
    destruct (adjust_long_msgsize _ _ _ _ _) as [[[? ?] ?] ready].
    destruct ready; simplify_eq; [|by apply elem_of_nil in Hd].
    by apply list_elem_of_singleton in Hd as ->.
  - destruct (IH e1 d) as (b & Hb & Hi); [by rewrite E2|].
    exists b. split; [by apply elem_of_cons; right|done].
Qed.

(** A node handles any sequence of chunks from a peer, as long as no message
    comes out empty. *)
Lemma receive_total mynode source : ∀ l m r,
  source ≠ mynode → get_endpoint m source = Some r →
  Forall (λ a, ma_src a = source ∧ ma_nbytes a ≠ 0 ∧
               zlen (ma_params a) = raw_args (ma_type a) ∧ 2 ≤ zlen (ma_params a)) l →
  Forall (λ d, 0 < d.2) (deliver r (omap (arrival_at source) l)).2 →
  is_Some (receive mynode m l).
Proof.
  induction l as [|a l IH]; intros m r Hne Hg Hall Hd; [by eexists|].
  apply Forall_cons in Hall as [(Hs & Hz & Hl & H2) Hall].
  destruct (aget_is_Some (ma_params a) 0) as [id H0]; [lia|].
  destruct (aget_is_Some (ma_params a) 1) as [n H1]; [lia|].
  assert (arrival_at source a = Some (mkArr (ma_buf a) (ma_nbytes a) id n)) as Hb.
  { unfold arrival_at. by rewrite decide_True, H0, H1. }
  cbn [omap list_omap] in Hd. rewrite Hb in Hd. cbn [deliver] in Hd.
  rewrite (surjective_pairing (deliver_one r _)) in Hd.
  rewrite (surjective_pairing (deliver (deliver_one r _).1 _)) in Hd. cbn [snd] in Hd.
  apply Forall_app in Hd as [Hd1 Hd2].
  assert (∃ c, handle mynode m a = Some (set_endpoint m source
    (deliver_one r (mkArr (ma_buf a) (ma_nbytes a) id n)).1, c)) as [c Hh].
  { unfold handle, handler_medium, am_adjust_long_msgsize, em_adjust_long_msgsize.
    rewrite Hs, assert_true, H0, H1 by done. simpl.
    rewrite (decide_False (P := ma_nbytes a = 0)), assert_true, Hg by done. simpl.
    unfold deliver_one in *. simpl in *.
    destruct (adjust_long_msgsize r _ _ id n) as [[[e' d] k] ready]. simpl in *.
    destruct ready; [|by eexists]. apply Forall_cons in Hd1 as [Hd1 _]. simpl in Hd1.
    case_decide; [rewrite assert_true by lia|]; by eexists. }
  cbn [receive]. change (handler_medium _ _ _ _ _ _ _) with (handle mynode m a).
  rewrite Hh. simpl. edestruct IH as [[m' rs] Hr]; [done|by eapply get_set_endpoint|done|exact Hd2|].
  rewrite Hr. by eexists.
Qed.

Lemma omap_singleton_inv {A B} (f : A → option B) l x :
  (∀ y, y ∈ l → is_Some (f y)) → omap f l = [x] → ∃ y, l = [y] ∧ f y = Some x.
Proof.
  intros Hf E. destruct l as [|y [|z l]]; [done| |]; cbn [omap list_omap] in E.
  - destruct (f y) eqn:Ey; simplify_eq. eauto.
  - destruct (Hf y) as [y' Hy]; [set_solver|]. destruct (Hf z) as [z' Hz]; [set_solver|].
    rewrite Hy, Hz in E. discriminate.
Qed.

(** The completions of one message among all. *)
Lemma done_own source id l out :
  Forall (completed_by l) out →
  omap (done_at source) (filter (λ o, own source id o.1.1) out) =
  filter (λ d, d.1.1 = id) (omap (done_at source) out).
Proof.
  induction 1 as [|[[a i] reps] out (_ & [j Hj] & d & n & Hi) _ IH]; [done|].
  injection Hi as -> ->. rewrite filter_cons. cbn [omap list_omap done_at fst].
  destruct (decide (ma_src a = source ∧ ma_nbytes a ≠ 0)) as [[Hs Hz]|Hn].
  - rewrite Hj. simpl. rewrite filter_cons. simpl. destruct (decide (j = id)) as [->|Hne].
    + rewrite decide_True by done. cbn [omap list_omap done_at].
      rewrite decide_True, Hj by done. simpl. by rewrite IH.
    + rewrite decide_False; [done|]. unfold own. rewrite Hj. naive_solver.
  - rewrite decide_False; [done|]. unfold own. naive_solver.
Qed.

(** The calls a packet leads to: GASNet has put the data at its destination
    and calls the handler of the message type. *)
Definition call_of (T : MsgType) (source : Z) (p : packet) (c : medium_am) : Prop :=
  match p with
  | AMRequestLongAsync _ _ _ n d a =>
      ∃ extra, raw_args T ≤ zlen a + zlen extra ∧ c = mkMediumAm source T d n (call_params T a extra)
  | _ => False
  end.

(** The calls [cs] are those of the packets [ps], in any order. *)
Definition carried (T : MsgType) (source : Z) (ps : list packet) (cs : list medium_am) : Prop :=
  ∃ ps', ps' ≡ₚ ps ∧ Forall2 (call_of T source) ps' cs.

Lemma filter_own_arrivals source id (l : list medium_am) :
  filter (λ a, ar_id a = id) (omap (arrival_at source) l) =
  omap (arrival_at source) (filter (own source id) l).
Proof.
  induction l as [|a l IH]; [done|]. rewrite filter_cons. cbn [omap list_omap].
  destruct (arrival_at source a) as [b|] eqn:Eb.
  - destruct (arrival_at_id _ _ _ Eb) as (Hs & Hz & H0 & _). rewrite filter_cons.
    destruct (decide (ar_id b = id)) as [Hi|Hi].
    + rewrite decide_True by (unfold own; by rewrite H0, Hi). cbn [omap list_omap].
      by rewrite Eb, IH.
    + rewrite decide_False; [done|]. unfold own. rewrite H0. naive_solver.
  - case_decide as Ho; [|done]. cbn [omap list_omap]. by rewrite Eb, IH.
Qed.

(** The chunk packets of a long message all carry its arguments. *)
Lemma long_packets_elem cfg e hdr dest a n p :
  p ∈ long_packets cfg e hdr dest a n →
  ∃ i, 0 ≤ i < n ∧ p = AMRequestLongAsync (peer e) (msgid hdr)
    (payload hdr + i * gasnet_AMMaxLongRequest cfg) (chunk_size cfg (payload_size hdr) n i)
    (dest + i * gasnet_AMMaxLongRequest cfg) a.
Proof.
  unfold long_packets. intros (i & -> & Hi)%list_elem_of_fmap.
  apply elem_of_reverse, elem_of_seqZ in Hi. exists i. split; [lia|done].
Qed.

Lemma chunk_size_pos cfg size n i :
  0 < gasnet_AMMaxLongRequest cfg < 2 ^ 32 → 0 < size < 2 ^ 31 → n = num_chunks cfg size →
  0 ≤ i < n → 0 < chunk_size cfg size n i.
Proof.
  intros Hm Hs -> Hi. destruct (num_chunks_spec cfg size Hm Hs) as [Hn Hr].
  unfold chunk_size. case_decide; [lia|].
  rewrite u64_id; [lia|]. unfold is_u64. lia.
Qed.

(** The calls for the packets as the endpoint sees them. *)
Lemma carried_arrivals T source ps cs a id n :
  2 ≤ zlen a ≤ raw_args T → aget a 0 = Some id → aget a 1 = Some n →
  (∀ p, p ∈ ps → match p with
                 | AMRequestLongAsync _ _ _ k _ a' => a' = a ∧ 0 < k
                 | _ => False end) →
  carried T source ps cs →
  omap (arrival_at source) cs ≡ₚ omap arrival_of ps ∧
  Forall (λ c, own source id c ∧ ma_type c = T ∧
               ∃ extra, raw_args T ≤ zlen a + zlen extra ∧
                        ma_params c = call_params T a extra) cs.
Proof.
  intros Ha H0 H1 Hps (ps' & Hperm & Hcs). rewrite <- Hperm.
  assert (∀ p, p ∈ ps' → match p with
                 | AMRequestLongAsync _ _ _ k _ a' => a' = a ∧ 0 < k
                 | _ => False end) as Hps' by (intros p Hp; apply Hps; by rewrite <- Hperm).
  clear Hps Hperm. induction Hcs as [|p c ps' cs Hc _ IH]; [done|].
  destruct IH as [IH1 IH2]; [intros q Hq; apply Hps'; by apply elem_of_cons; right|].
  specialize (Hps' p ltac:(by apply elem_of_cons; left)).
  destruct p as [| |dst mid s k d a']; [done..|]. destruct Hps' as [-> Hk]. simpl in Hc.
  destruct Hc as (extra & Hx & ->).
  assert (∀ i, 0 ≤ i < 2 → aget (call_params T a extra) i = aget a i) as Hg.
  { intros i Hi. apply call_params_aget; lia. }
  cbn [omap list_omap arrival_of]. unfold arrival_at at 1. simpl.
  rewrite decide_True, !Hg, H0, H1 by lia. simpl. split; [by constructor|].
  constructor; [|done]. split_all; [|done|by eauto].
  unfold own. simpl. rewrite Hg by lia. split_all; [done|lia|done].
Qed.

(** ** What requests build *)

Definition desc_size (d : payload_desc) : Z :=
  match d with
  | DescContig _ datalen | DescSpans _ datalen => datalen
  | DescTwoD _ line_len _ line_count => u64 (line_len * line_count)
  end.

(** The memory a request names, as ranges in the order they are sent. *)
Definition desc_ranges (d : payload_desc) : list (Z * Z) :=
  match d with
  | DescContig data datalen => [(data, datalen)]
  | DescTwoD data line_len line_stride line_count =>
      (λ i, (data + i * line_stride, line_len)) <$> seqZ 0 line_count
  | DescSpans spans _ => spans
  end.

Definition header_of (T : MsgType) (obj : list Z) (hdr : OutgoingMessage) : Prop :=
  msgid hdr = mt_id T ∧ num_args hdr = arg_words (mt_size T) ∧ args hdr = read_args T obj.

Lemma attach_header lmb T obj mode ps size dst hdr :
  attach lmb (mkMsg (mt_id T) (arg_words (mt_size T)) (read_args T obj) 0 0 PAYLOAD_NONE 0 None)
    mode ps size dst = Some hdr → mode ≠ PAYLOAD_NONE →
  header_of T obj hdr ∧
  if decide (size > 0) then payload_size hdr = size ∧ payload_src hdr = Some ps ∧ dstptr hdr = dst
  else payload_mode hdr = PAYLOAD_EMPTY ∧ payload_size hdr = 0.
Proof.
  intros E Hne. unfold attach in E. rewrite decide_True in E by done.
  destruct (decide (size > 0)); [|by simplify_eq].
  unfold set_payload in E. asserts. by simplify_eq.
Qed.

(** Every overload builds the header from the struct, and a payload of no
    bytes is an empty message, not a message without payload. *)
Lemma medium_request_header cfg mynode seg T target st rest d mode dst hdr :
  0 < mt_size T ≤ 64 → mode ≠ PAYLOAD_NONE →
  medium_request cfg mynode seg T target st rest d mode dst = Some hdr →
  header_of T (set_magic T st ++ rest) hdr ∧
  if decide (desc_size d > 0) then
    payload_size hdr = desc_size d ∧ dstptr hdr = dst
  else payload_mode hdr = PAYLOAD_EMPTY ∧ payload_size hdr = 0.
Proof.
  intros Hs Hne E. unfold medium_request in E.
  destruct d as [data datalen|data ll ls lc|spans datalen];
    unfold contig_message, twod_message, span_message in E;
    apply assert_Some in E as [_ E]; rewrite OutgoingMessage_init_args in E by done; simpl in E;
    apply attach_header in E as [Hh Hc]; try done.
  all: try (case_decide; done).
  all: simpl; split; [done|]; case_decide; naive_solver.
Qed.

(** What a request needs of its arguments to be queued on a node with a pool
    at [base]: ranges that add up to the size it gives and lie apart from the
    pool and from the block [malloc] may return, and, when the payload is to
    be freed, one live block. *)
Record sendable (base : Z) (n : Node) (p : SrcDataPool) (mid : Z) (d : payload_desc)
    (mode : PayloadMode) (cp : Z) : Prop := {
  sd_pool : srcdatapool n = Some p;
  sd_inv : sdp_inv base p;
  sd_pos : Forall (λ r, 0 ≤ r.2) (desc_ranges d);
  sd_total : sizes (desc_ranges d) = desc_size d;
  sd_size : 0 < desc_size d ≤ total_size p;
  sd_u64 : is_u64 (desc_size d);
  sd_clear : clear_of base (total_size p) (desc_ranges d);
  sd_cp : cp ≠ 0 ∧ clear_of cp (desc_size d) (desc_ranges d);
  sd_mid : 0 ≤ mid < zlen (current_permsg_spill_bytes (spill p));
  sd_mode : match mode, d with
            | (PAYLOAD_KEEP | PAYLOAD_COPY), DescContig data _ => data ≠ 0
            | (PAYLOAD_KEEP | PAYLOAD_COPY), _ => True
            | PAYLOAD_FREE, DescContig data _ => data ≠ 0 ∧ data ∈ heap n
            | _, _ => False
            end }.

(** The header a request builds names the request's own ranges. *)
Lemma medium_request_reservable base n p cfg mynode seg T target st rest d mode dst hdr cp :
  0 < mt_size T ≤ 64 → sendable base n p (mt_id T) d mode cp →
  medium_request cfg mynode seg T target st rest d mode dst = Some hdr →
  ∃ src, reservable base n p hdr src cp ∧ src_ranges src = desc_ranges d.
Proof.
  intros Hs [Hp Hi Hpos Htot Hsz Hu Hcl Hcp Hmid Hmode] E. unfold medium_request in E.
  destruct d as [data datalen|data ll ls lc|spans datalen];
    unfold contig_message, twod_message, span_message in E;
    apply assert_Some in E as [_ E]; rewrite OutgoingMessage_init_args in E by done;
    cbn [mbind option_bind] in E; unfold attach, set_payload in E.
  - set (mode' := if decide (mode = PAYLOAD_KEEP ∧ is_registered seg data = true)
                  then PAYLOAD_KEEPREG else mode) in E.
    simpl in *.
    assert (mode' = mode ∨ mode = PAYLOAD_KEEP ∧ mode' = PAYLOAD_KEEPREG) as Hm'.
    { unfold mode'. destruct (decide (mode = PAYLOAD_KEEP ∧ is_registered seg data = true))
        as [[? _]|_]; [by right|by left]. }
    clearbody mode'.
    case_decide as Hne; [|exfalso; destruct Hm' as [E'|[_ E']];
      rewrite Hne in E'; [by subst mode|discriminate]].
    case_decide as Hgt; [|lia]. asserts. simplify_eq.
    exists (ContiguousPayload data datalen mode'). split; [|done].
    split; simpl; try done.
    + destruct Hm' as [->|[-> ->]]; simpl; [destruct mode; try done|by eauto].
    + split; simpl; try done. destruct Hm' as [->|[-> ->]]; simpl; [by destruct mode|done].
  - simpl in *. case_decide as Hne; [|by subst mode].
    case_decide as Hgt; [|lia]. asserts. simplify_eq.
    exists (TwoDPayload data ll lc ls mode). split; [|done].
    split; simpl; try done; [by destruct mode].
  - simpl in *. case_decide as Hne; [|by subst mode].
    case_decide as Hgt; [|lia]. asserts. injection E as <-.
    exists (SpanPayload spans datalen mode). split; [|done].
    split; simpl; try done; [by destruct mode].
Qed.

(** How a message comes by its source pointer: [reserve_srcdata] finds one at
    once, or queues the message with the pool, which has
    [assign_srcdata_pointer] called on it later.  Until then the source the
    message was queued with, the sender's own memory or in [PAYLOAD_COPY] mode
    the private copy, is left alone. *)
Inductive sourced (self cp : Z) (m0 : OutgoingMessage) (n0 : Node)
    : OutgoingMessage → Node → Prop :=
| sourced_at_once m n :
    reserve_srcdata self cp m0 n0 = Some (m, n) → payload_mode m ≠ PAYLOAD_PENDING →
    sourced self cp m0 n0 m n
| sourced_later m1 n1 src n2 ptr m n :
    reserve_srcdata self cp m0 n0 = Some (m1, n1) → payload_mode m1 = PAYLOAD_PENDING →
    payload_src m1 = Some src → payload_ok n2 src (payload_size m1) →
    clear_of ptr (payload_size m1) (src_ranges src) →
    (∀ r, r ∈ src_ranges src → agree (bytes n1) (bytes n2) r.1 r.2) →
    assign_srcdata_pointer m1 ptr n2 = Some (m, n) →
    sourced self cp m0 n0 m n.

Definition same_header (m m' : OutgoingMessage) : Prop :=
  msgid m' = msgid m ∧ num_args m' = num_args m ∧ args m' = args m ∧
  payload_size m' = payload_size m ∧ dstptr m' = dstptr m.

Lemma reserve_locked_header self cp m src n p m' n' ptr :
  reserve_locked self cp m src n p = Some (m', n', ptr) → same_header m m'.
Proof.
  unfold reserve_locked. intros E. destruct (alloc_srcptr _ _) as [[p1 q]|]; [|done].
  simpl in E. destruct (decide (q ≠ 0)); [by asserts; simplify_eq|].
  destruct (if decide _ then _ else _) as [[s2 n2]|]; [|done]. simpl in E. asserts. by simplify_eq.
Qed.

Lemma reserve_srcdata_header self cp m n m' n' :
  reserve_srcdata self cp m n = Some (m', n') → same_header m m'.
Proof.
  intros E. unfold reserve_srcdata in E. case_decide; [by simplify_eq|].
  destruct (payload_src m) as [src|]; [|done]. simpl in E.
  destruct (if decide _ then _ else _) as [keep|]; [|done]. simpl in E.
  case_decide; [by simplify_eq|]. destruct (srcdatapool n) as [p|].
  - destruct (reserve_locked self cp m src n p) as [[[m1 n1] sp]|] eqn:El; [|done].
    apply reserve_locked_header in El as (? & ? & ? & ? & ?). simpl in E.
    case_decide; asserts; by simplify_eq.
  - unfold reserve_heap in E. destruct (get_contig_pointer src); [|done]. simpl in E.
    case_decide; [by simplify_eq|]. asserts. by simplify_eq.
Qed.

Lemma assign_srcdata_pointer_header m ptr n m' n' :
  assign_srcdata_pointer m ptr n = Some (m', n') → same_header m m'.
Proof. unfold assign_srcdata_pointer. intros E. asserts. by simplify_eq. Qed.

Lemma sourced_header self cp m0 n0 m n : sourced self cp m0 n0 m n → same_header m0 m.
Proof.
  intros [m' n' E _|m1 n1 src n2 ptr m' n' E _ _ _ _ _ E2]; apply reserve_srcdata_header in E;
    [done|]. apply assign_srcdata_pointer_header in E2.
  unfold same_header in *. intuition congruence.
Qed.

Lemma pool_release_spill_bytes n size mid n' :
  pool_release_spill n size mid = Some n' → bytes n' = bytes n.
Proof. unfold pool_release_spill. intros E. asserts. destruct x0. by simplify_eq. Qed.

Lemma assign_srcdata_pointer_bytes m src ptr n m' n' :
  payload_src m = Some src → payload_ok n src (payload_size m) →
  clear_of ptr (payload_size m) (src_ranges src) →
  assign_srcdata_pointer m ptr n = Some (m', n') →
  payload m' = ptr ∧ read_bytes (bytes n') ptr (payload_size m) = payload_bytes (bytes n) src.
Proof.
  intros Hs Hpo Hcl E. unfold assign_srcdata_pointer in E.
  apply assert_Some in E as [_ E]. rewrite Hs in E. cbn [mbind option_bind] in E.
  destruct (copy_data_gathers _ _ _ ptr Hpo Hcl) as (n1 & Ec & Hr & _). rewrite Ec in E.
  cbn [mbind option_bind] in E. destruct (bool_decide _).
  - destruct (pool_release_spill _ _ _) as [n2|] eqn:Er; [|done]. simplify_eq/=.
    apply pool_release_spill_bytes in Er. by rewrite Er.
  - by simplify_eq/=.
Qed.

(** The source pointer a message gets is that of a buffer with the payload's
    bytes. *)
Lemma sourced_bytes base n0 p m0 src cp self m n :
  reservable base n0 p m0 src cp → sourced self cp m0 n0 m n →
  read_bytes (bytes n) (payload m) (payload_size m0) = gather (bytes n0) (src_ranges src).
Proof.
  intros H Hso. destruct (reserve_srcdata_ready _ _ _ _ _ _ self H) as (m' & n' & E & Hsz & Hc).
  destruct Hso as [m n E' Hm|m1 n1 src1 n2 ptr m n E' Hm Hs1 Hpo Hcl Hag E2];
    rewrite E in E'; simplify_eq.
  - destruct (payload_mode m); try done. by destruct Hc as (_ & _ & _ & ?).
  - rewrite Hm in Hc. destruct Hc as (_ & src' & Hs' & Hby & _). simplify_eq.
    destruct (assign_srcdata_pointer_bytes _ _ _ _ _ _ Hs1 Hpo Hcl E2) as [-> Hr].
    rewrite <- Hsz, Hr. etrans; [|exact Hby]. symmetry. by apply gather_agree.
Qed.

Section delivery.
Context (cfg : Config) (e : Endpoint) (hdr : OutgoingMessage) (dest : Z).
Context (T : MsgType) (a : list Z) (id : Z).
Abbreviation n := (num_chunks cfg (payload_size hdr)).
Abbreviation ps := (long_packets cfg e hdr dest a n).
Context (Hm : 0 < gasnet_AMMaxLongRequest cfg < 2 ^ 32).
Context (Hs : 0 < payload_size hdr < 2 ^ 31).
Context (Ha : 2 ≤ zlen a ≤ raw_args T).
Context (Hid : aget a 0 = Some id) (Hnc : aget a 1 = Some n).
Context (receiver source : Z) (m : EndpointManager) (r : Endpoint).
Context (Hg : get_endpoint m source = Some r) (Ho : observed_messages r !! id = None).

Lemma chunk_packets p :
  p ∈ ps →
  match p with AMRequestLongAsync _ _ _ k _ a' => a' = a ∧ 0 < k | _ => False end.
Proof.
  intros (i & Hi & ->)%long_packets_elem. split; [done|]. by apply chunk_size_pos.
Qed.

(** Exactly one completion, with the arguments of the message. *)
Lemma delivered_once calls m' out :
  carried T source ps (filter (own source id) calls) →
  receive receiver m calls = Some (m', out) →
  (∃ c extra, filter (λ o, own source id o.1.1) out =
     [(c, IncomingMediumMessage T source dest (payload_size hdr) (call_params T a extra),
       releases source (typed_srcptr T (call_params T a extra)))]) ∧
  (∃ r', get_endpoint m' source = Some r' ∧ observed_messages r' !! id = None).
Proof.
  intros Hcar Hrec.
  destruct (receive_project _ _ _ _ _ _ _ Hg Hrec) as (Hg' & Hd & Hall).
  destruct (carried_arrivals _ _ _ _ a id n Ha Hid Hnc chunk_packets Hcar) as [Hperm Hown].
  rewrite <- filter_own_arrivals in Hperm.
  destruct (long_packets_delivered _ _ _ _ _ _ r _ Hm Hs Hid Hnc Hperm Ho) as [Hdel Ho'].
  split; [|by eauto]. rewrite <- Hd, <- (done_own _ _ _ _ Hall) in Hdel.
  assert (∀ o, o ∈ filter (λ o, own source id o.1.1) out → ∃ d k extra,
    done_at source o = Some (id, d, k) ∧
    o.1.2 = IncomingMediumMessage T source d k (call_params T a extra) ∧
    o.2 = releases source (typed_srcptr T (call_params T a extra))) as Hout.
  { intros [[c i] reps] [Hoo Hin]%list_elem_of_filter. rewrite Forall_forall in Hall. rewrite Forall_forall in Hown.
    destruct (Hall _ Hin) as (Hc & _ & d & k & Hi). simpl in Hoo.
    destruct (Hown c ltac:(by apply list_elem_of_filter)) as (_ & HT & extra & _ & Hpar).
    unfold completion in Hi. rewrite HT, Hpar in Hi. destruct Hoo as (Hsrc & Hnz & Hi0).
    rewrite Hsrc in Hi. injection Hi as -> ->. exists d, k, extra. simpl.
    by rewrite decide_True, Hi0 by done. }
  apply omap_singleton_inv in Hdel as ([[c i] reps] & E & Hdo).
  - destruct (Hout (c, i, reps)) as (d & k & extra & Hdo' & Hi & Hr); [rewrite E; set_solver|].
    rewrite Hdo in Hdo'. simpl in Hi, Hr. simplify_eq. eauto.
  - intros o (d & k & extra & -> & _)%Hout. by eexists.
Qed.

(** The handlers of the chunks complete. *)
Lemma chunks_handled calls :
  source ≠ receiver → carried T source ps calls → is_Some (receive receiver m calls).
Proof.
  intros Hne Hcar.
  destruct (carried_arrivals _ _ _ _ a id n Ha Hid Hnc chunk_packets Hcar) as [Hperm Hown].
  eapply receive_total; [done|done| |].
  { eapply Forall_impl; [exact Hown|]. intros c ((? & ? & _) & HT & extra & Hx & ->).
    rewrite HT, call_params_zlen by lia. split_all; [done|done|done|lia]. }
  assert (filter (own source id) calls = calls) as Hf.
  { clear -Hown. induction Hown as [|c cs [Hc _] _ IH]; [done|].
    rewrite filter_cons_True by done. by rewrite IH. }
  assert (filter (λ b, ar_id b = id) (omap (arrival_at source) calls) =
          omap (arrival_at source) calls) as Hf' by by rewrite filter_own_arrivals, Hf.
  rewrite <- Hf' in Hperm.
  destruct (long_packets_delivered _ _ _ _ _ _ r _ Hm Hs Hid Hnc Hperm Ho) as [Hdel _].
  apply Forall_forall. intros d Hd.
  assert (d ∈ filter (λ d, d.1.1 = id) (deliver r (omap (arrival_at source) calls)).2) as Hin.
  { apply list_elem_of_filter. split; [|done].
    destruct (deliver_ids _ _ _ Hd) as (b & Hbin & <-).
    rewrite <- Hf' in Hbin. by apply list_elem_of_filter in Hbin as [? _]. }
  rewrite Hdel in Hin. apply list_elem_of_singleton in Hin as ->. simpl. lia.
Qed.
End delivery.

(** C4. A medium message with a payload is delivered.  A request builds its
    header from the sender's struct and the memory its descriptor names, the
    message gets its source pointer at once or later, and [send_long] sends its
    chunks.  However the network orders them among themselves and among other
    messages, the receiver's handlers enqueue the message exactly once, with
    the sender's struct, its header stamped with the message id, the number of
    chunks and the source pointer, with the destination address and the full
    payload size, send exactly one reply when there is a source pointer and
    none otherwise, and keep nothing behind; the handlers of the chunks do
    complete; and the destination then holds, packed in order, the bytes that
    the ranges of the descriptor held when the request was made. *)
Theorem medium_message_delivered base pool cfg mynode seg target T st rest desc mode dst hdr0 n0
    self cp hdr n1 e w dest e' w' hdr' :
  0 < gasnet_AMMaxLongRequest cfg < 2 ^ 32 → desc_size desc < 2 ^ 31 →
  mt_base T = 0 → 16 ≤ mt_size T ≤ 64 → zlen st = mt_size T →
  4 * arg_words (mt_size T) ≤ zlen (st ++ rest) → Forall is_byte (st ++ rest) →
  sendable base n0 pool (mt_id T) desc mode cp →
  medium_request cfg mynode seg T target st rest desc mode dst = Some hdr0 →
  sourced self cp hdr0 n0 hdr n1 → is_u64 (payload hdr) →
  agree (bytes n1) (bytes (node w)) (payload hdr) (desc_size desc) →
  send_long cfg e w hdr dest = Some (e', w', hdr') →
  let id := next_outgoing_message_id e in
  let n := num_chunks cfg (desc_size desc) in
  let p := release_ptr hdr in
  ∃ ps, sent w' = sent w ++ ps ∧
    (∀ receiver source m r,
       get_endpoint m source = Some r → observed_messages r !! id = None →
       (∀ calls m' out, carried T source ps (filter (own source id) calls) →
          receive receiver m calls = Some (m', out) →
          (∃ c raw, filter (λ o, own source id o.1.1) out =
             [(c, IncomingMediumMessage T source dest (desc_size desc) raw,
               releases source p)] ∧ typed T raw = stamped st id n p) ∧
          (∃ r', get_endpoint m' source = Some r' ∧ observed_messages r' !! id = None)) ∧
       (∀ calls, source ≠ receiver → carried T source ps calls →
          is_Some (receive receiver m calls))) ∧
    (∀ m ps', ps' ≡ₚ ps →
       read_bytes (foldl (apply_long (bytes (node w))) m ps') dest (desc_size desc) =
       gather (bytes n0) (desc_ranges desc)).
Proof.
  intros Hm Hs' Hb Hsz Hl Hr Hby Hsend Ereq Hprep Hp Hag E id n p.
  pose proof (sd_size _ _ _ _ _ _ _ Hsend) as Hs0.
  assert (0 < desc_size desc < 2 ^ 31) as Hs by lia. clear Hs' Hs0.
  assert (mode ≠ PAYLOAD_NONE) as Hmode
    by (intros ->; by destruct desc, (sd_mode _ _ _ _ _ _ _ Hsend)).
  assert (0 < mt_size T ≤ 64) as Hsz' by lia.
  destruct (medium_request_reservable _ _ _ _ _ _ _ _ _ _ _ _ _ _ _ Hsz' Hsend Ereq)
    as (src & Hres & Hran).
  pose proof (sourced_bytes _ _ _ _ _ _ _ _ _ Hres Hprep) as Hbytes. rewrite Hran in Hbytes.
  apply medium_request_header in Ereq as [(_ & Hn & Ha) Hdesc]; [|lia|done].
  rewrite decide_True in Hdesc by lia. destruct Hdesc as [Hps _].
  apply sourced_header in Hprep as (_ & En & Ea' & Es & _).
  rewrite <- Es in Hbytes. rewrite <- En in Hn. rewrite <- Ea' in Ha. rewrite <- Es in Hps.
  clear En Ea' Es.
  subst n. rewrite <- Hps in *. set (n := num_chunks cfg (payload_size hdr)).
  pose proof (struct_in_magic T st rest Hb Hsz Hl Hr Hby) as Hsi.
  destruct (long_args_zlen T st rest hdr Hsz Ha) as [Hz H4].
  pose proof (raw_args_enough T ltac:(lia)) as [_ Hra].
  destruct (send_long_packets cfg e w hdr dest e' w' hdr' Hm Hs) as (a & Hid & Hnc & Esent & Ea);
    [by rewrite Ha; apply read_args_magic; [done|lia..]|done|].
  rewrite (long_first_args T st rest hdr Hsz Hn Ha) in Ea. injection Ea as <-.
  fold id n in Hid, Hnc, Esent.
  assert (2 ≤ zlen (stamp_args hdr 0 id n) ≤ raw_args T) as Hza by (rewrite stamp_args_zlen; lia).
  eexists. split; [exact Esent|]. split.
  - intros receiver source m r Hg Ho. split.
    + intros calls m' out Hcar Hrec.
      edestruct delivered_once as [(c & extra & Hout) Hclean]; [exact Hm|exact Hs|exact Hza|done..|].
      split; [|done]. rewrite (long_typed_srcptr T st rest) in Hout by done.
      eexists _, _. split; [exact Hout|]. by apply (long_typed T st rest).
    + intros calls Hne Hcar. by eapply chunks_handled.
  - intros m ps' Hperm. rewrite <- Hbytes, (read_bytes_agree _ _ _ _ Hag).
    by eapply long_packets_memory.
Qed.

(** ** Empty messages *)

(** A medium message without bytes is delivered at once: the packet
    carries no data, the handler takes it as complete without consulting the
    endpoint, passes on the struct as the sender's request left it, and
    replies nothing. *)
Theorem empty_medium_delivered cfg mynode seg T target st rest d mode dst hdr e w :
  mt_base T = 0 → 16 ≤ mt_size T ≤ 64 → zlen st = mt_size T →
  4 * arg_words (mt_size T) ≤ zlen (st ++ rest) → Forall is_byte (st ++ rest) →
  desc_size d ≤ 0 → mode ≠ PAYLOAD_NONE →
  short_args_supported (arg_words (mt_size T)) = true →
  medium_request cfg mynode seg T target st rest d mode dst = Some hdr →
  ∃ a, send_short e w hdr =
      Some (send_packet w (AMRequestMedium (peer e) (mt_id T) (payload hdr) 0 a)) ∧
    ∀ receiver m src buf extra, raw_args T ≤ zlen a + zlen extra → ∃ raw,
      handler_medium receiver m T src buf 0 (call_params T a extra) =
        Some (m, Some (IncomingMediumMessage T src buf 0 raw, [])) ∧
      typed T raw = set_magic T st.
Proof.
  intros Hb Hsz Hl Hr Hby Hd Hmode Hsup E.
  apply medium_request_header in E as [(Hid & Hn & Ha) Hp]; [|lia|done].
  rewrite decide_False in Hp by lia. destruct Hp as [Hpm Hps].
  pose proof (struct_in_magic T st rest Hb Hsz Hl Hr Hby) as Hsi.
  destruct (long_args_zlen T st rest hdr Hsz Ha) as [Hz H4].
  pose proof (raw_args_enough T ltac:(lia)) as [H2 Hra].
  exists (args hdr). split.
  { unfold send_short. rewrite Hn, Hsup, assert_true by done.
    rewrite first_args_all by congruence. simpl. rewrite decide_True by by rewrite Hpm.
    by rewrite Hid, Hps. }
  intros receiver m src buf extra Hx. exists (call_params T (args hdr) extra).
  split; [|rewrite Ha; by apply typed_read_args].
  unfold handler_medium. rewrite assert_true by (apply call_params_zlen; lia).
  destruct (aget_is_Some (args hdr) 0) as [a0 E0]; [lia|].
  destruct (aget_is_Some (args hdr) 1) as [a1 E1]; [lia|].
  rewrite !call_params_aget, E0, E1 by lia. simpl.
  assert (typed_srcptr T (call_params T (args hdr) extra) = 0) as ->; [|done].
  unfold typed_srcptr, call_params.
  rewrite Hb, take_app, (take_ge (args hdr)), bytes_of_app by (unfold zlen in *; lia).
  rewrite Ha. unfold read_args. destruct Hsi. pose proof (arg_words_spec (mt_size T) ltac:(lia)).
  unfold zlen in *. rewrite bytes_of_ints by (done || lia).
  change (Z.to_nat (0 + 8)) with 8%nat. unfold set_magic, store_at. rewrite Hb. cbn [Z.to_nat take app].
  replace (4 * Z.to_nat (arg_words (mt_size T)))%nat with
    (16 + (4 * Z.to_nat (arg_words (mt_size T)) - 16))%nat by lia. done.
Qed.

(** ** Releasing the source pointer *)

(** Every packet of a long message goes to the peer under the id of the class,
    and the handler called with its arguments reads the sender's struct with
    the header stamped. *)
Lemma long_arrives cfg e w T st rest hdr dest e' w' hdr' :
  0 < gasnet_AMMaxLongRequest cfg < 2 ^ 32 → 0 < payload_size hdr < 2 ^ 31 →
  mt_base T = 0 → 16 ≤ mt_size T ≤ 64 → zlen st = mt_size T →
  4 * arg_words (mt_size T) ≤ zlen (st ++ rest) → Forall is_byte (st ++ rest) →
  header_of T (set_magic T st ++ rest) hdr → is_u64 (payload hdr) →
  send_long cfg e w hdr dest = Some (e', w', hdr') →
  ∃ ps, sent w' = sent w ++ ps ∧ zlen ps = num_chunks cfg (payload_size hdr) ∧
    ∀ pkt, pkt ∈ ps → ∃ s k d a, pkt = AMRequestLongAsync (peer e) (mt_id T) s k d a ∧
      zlen a = arg_words (mt_size T) ∧
      ∀ extra,
        typed T (call_params T a extra) =
          stamped st (next_outgoing_message_id e) (num_chunks cfg (payload_size hdr))
            (release_ptr hdr) ∧
        typed_srcptr T (call_params T a extra) = release_ptr hdr.
Proof.
  intros Hm Hs Hb Hsz Hl Hr Hby (Hmid & Hn & Ha) Hp E.
  pose proof (struct_in_magic T st rest Hb Hsz Hl Hr Hby) as Hsi.
  destruct (long_args_zlen T st rest hdr Hsz Ha) as [Hz H4].
  destruct (send_long_packets cfg e w hdr dest e' w' hdr' Hm Hs) as (a & _ & _ & Esent & Ea);
    [by rewrite Ha; apply read_args_magic; [done|lia..]|done|].
  rewrite (long_first_args T st rest hdr Hsz Hn Ha) in Ea. injection Ea as <-.
  eexists. split; [exact Esent|]. split.
  { unfold long_packets, zlen. rewrite length_fmap, length_reverse, length_seqZ.
    destruct (num_chunks_spec cfg (payload_size hdr) Hm Hs) as [? _]. lia. }
  intros pkt (i & _ & ->)%long_packets_elem. rewrite Hmid. eexists _, _, _, _. split; [done|].
  split; [by rewrite stamp_args_zlen, Hz|]. intros extra. split.
  - by apply (long_typed T st rest).
  - by apply (long_typed_srcptr T st rest).
Qed.

(** The reply a completed call sends is for the pointer in its arguments. *)
Lemma handler_medium_reply receiver m T source d k params m' imsg reps :
  handler_medium receiver m T source d k params = Some (m', Some (imsg, reps)) →
  reps = releases source (typed_srcptr T params).
Proof.
  intros E. destruct (handle_inv receiver m (mkMediumAm source T d k params) m' _ E)
    as [(_ & _ & [= _ ->])|(e & b & _ & _ & _ & d' & k' & [= _ ->] & _)]; done.
Qed.

(** The two arguments of a reply are the pointer it releases. *)
Lemma releases_handled source ptr :
  is_u64 ptr →
  if decide (ptr ≠ 0) then
    ∃ arg0 arg1, releases source ptr = [AMRequestShort source MSGID_RELEASE_SRCPTR [arg0; arg1]] ∧
      ∀ pool, release_srcptr_handler pool arg0 arg1 = release_srcptr pool ptr
  else releases source ptr = [].
Proof.
  intros Hp. unfold releases. case_decide as Hz; [|done].
  eexists _, _. split; [done|]. intros pool.
  pose proof (srcptr_words _ Hp) as [= -> ->].
  unfold release_srcptr_handler. rewrite srcptr_roundtrip by done. by rewrite decide_True.
Qed.

(** C14. The source pointer makes the round trip.  Every packet [send_long]
    sends for a message carries its source pointer in the two words that
    [stamp_args] fills in; at the receiver, whatever the handler finds in the
    arguments that were not sent, the call that completes the message replies
    to the sender with two words, and the sender's handler puts the very
    pointer together and releases it in its pool.  For a message whose payload
    is not in the pool there is no reply at all. *)
Theorem release_reply_roundtrip cfg e w T st rest hdr dest e' w' hdr' :
  0 < gasnet_AMMaxLongRequest cfg < 2 ^ 32 → 0 < payload_size hdr < 2 ^ 31 →
  mt_base T = 0 → 16 ≤ mt_size T ≤ 64 → zlen st = mt_size T →
  4 * arg_words (mt_size T) ≤ zlen (st ++ rest) → Forall is_byte (st ++ rest) →
  header_of T (set_magic T st ++ rest) hdr → is_u64 (payload hdr) →
  send_long cfg e w hdr dest = Some (e', w', hdr') →
  ∃ ps, sent w' = sent w ++ ps ∧ zlen ps = num_chunks cfg (payload_size hdr) ∧
    ∀ pkt, pkt ∈ ps → ∃ s k d a, pkt = AMRequestLongAsync (peer e) (mt_id T) s k d a ∧
      ∀ receiver m source extra m' imsg reps,
        handler_medium receiver m T source d k (call_params T a extra) =
          Some (m', Some (imsg, reps)) →
        if decide (payload_mode hdr = PAYLOAD_SRCPTR ∧ payload hdr ≠ 0) then
          ∃ arg0 arg1, reps = [AMRequestShort source MSGID_RELEASE_SRCPTR [arg0; arg1]] ∧
            ∀ pool, release_srcptr_handler pool arg0 arg1 = release_srcptr pool (payload hdr)
        else reps = [].
Proof.
  intros Hm Hs Hb Hsz Hl Hr Hby Hh Hp E.
  destruct (long_arrives cfg e w T st rest hdr dest e' w' hdr' Hm Hs Hb Hsz Hl Hr Hby Hh Hp E)
    as (ps & Esent & Hlen & Hps).
  exists ps. split_all; [done|done|]. intros pkt Hin.
  destruct (Hps pkt Hin) as (s & k & d & a & -> & _ & Ha). exists s, k, d, a. split; [done|].
  intros receiver m source extra m' imsg reps ->%handler_medium_reply.
  rewrite (proj2 (Ha extra)). unfold release_ptr.
  pose proof (releases_handled source (payload hdr) Hp) as Hrel.
  destruct (decide (payload_mode hdr = PAYLOAD_SRCPTR)) as [Hmode|Hmode].
  - destruct (decide (payload hdr ≠ 0)) as [Hz0|Hz0].
    + by rewrite decide_True.
    + rewrite decide_False by (by intros [_ ?]). exact Hrel.
  - by rewrite decide_False by (by intros [? _]).
Qed.

(** ** Giving the buffer back *)

(** C13. [run_handler] implements the [lmb_handled] step of the flow-control
    protocol.  For a message in one of the LMBs it calls the user's function
    with the struct and the payload and counts the buffer exactly once; when
    that was the last message of a flipped buffer, the acknowledgement is
    queued behind the short messages of the sender's endpoint. *)
Theorem run_handler_gives_back {S} (user : Z → list Z * (Z * Z) → S → S)
    cfg mynode m w ack T sender d n raw s m' w' s' e y rest :
  run_handler user cfg mynode m w ack (IncomingMediumMessage T sender d n raw) s =
    Some (m', w', s') →
  get_endpoint m sender = Some e → 0 ≤ r_buffer_of cfg e d →
  rx y = e → inflight y ≡ₚ (d, n) :: rest →
  s' = user (mt_id T) (typed T raw, (d, n)) s ∧
  ∃ e' freed,
    lmb_step cfg y (mkLmbSys (tx y) e' rest (flips y) (option_list freed ++ acks y)) ∧
    get_endpoint m' sender =
      Some (set_queues e' (out_short_hdrs e ++ option_list ((λ _, ack) <$> freed)) (out_long_hdrs e)) ∧
    match freed with
    | Some b => msgs w' = <[ack := mkMsg MSGID_FLIP_ACK 1 [b] 0 0 PAYLOAD_NONE 0 None]> (msgs w)
    | None => w' = w
    end.
Proof.
  intros E Hg Hb Hy Hin. subst e. unfold run_handler, am_handle_long_msgptr in E. asserts.
  destruct x as [m1 w1]. simplify_eq/=. split; [done|].
  unfold em_handle_long_msgptr in H. rewrite Hg in H. simpl in H.
  unfold handle_long_msgptr in H. fold (r_buffer_of cfg (rx y) d) in H.
  rewrite decide_False in H by lia.
  destruct (count_received (rx y) (r_buffer_of cfg (rx y) d)) as [[e' freed]|] eqn:Ec; [|done].
  simpl in H. exists e', freed. split; [by econstructor|].
  assert (e' = set_queues e' (out_short_hdrs e') (out_long_hdrs e')) as Eq by by destruct e'.
  assert (out_short_hdrs (rx y) = out_short_hdrs e' ∧ out_long_hdrs (rx y) = out_long_hdrs e')
    as [-> ->].
  { unfold count_received in Ec. asserts. by simplify_eq. }
  assert (∀ b m0 e0 m2, add_if b (set_endpoint m0 sender e0) sender = Some m2 →
    get_endpoint m0 sender = Some (rx y) → get_endpoint m2 sender = Some e0) as Hadd.
  { intros b m0 e0 m2 Ha H0. destruct b; simpl in Ha; [|by simplify_eq; eapply get_set_endpoint].
    unfold add_todo_entry in Ha. asserts. simplify_eq. by eapply (get_set_endpoint m0). }
  destruct freed as [b|]; simpl in H; asserts; simplify_eq/=.
  - split; [|done]. by apply (Hadd _ _ _ _ H0).
  - split; [|done]. rewrite app_nil_r, <- Eq. by eapply get_set_endpoint.
Qed.

(** ** Examples *)

(** A medium message type of 24 bytes, its struct, and its message. *)
Definition example_type : MsgType := mkMsgType 40 24 8 0.
Definition example_struct : list Z := seqZ 1 24.
Definition example_pooled : OutgoingMessage * Node :=
  default (example_long, example_node)
    (hdr ← medium_request example_cfg 0 (0, 0) example_type 1 example_struct []
             (DescContig 20000 10) PAYLOAD_COPY 0;
     reserve_srcdata 1 9000 hdr example_node).
Definition example_medium : OutgoingMessage := example_pooled.1.
Definition example_sender : Wire := mkWire example_pooled.2 ∅ [].
Definition example_mgr : EndpointManager :=
  mkEpm 2 [Some example_ep; None] (mkRing [0; 0] 0 0) false.

Lemma example_struct_bytes : Forall is_byte (example_struct ++ []).
Proof.
  apply Forall_forall. intros x Hx. rewrite app_nil_r in Hx. apply elem_of_seqZ in Hx.
  unfold is_byte. lia.
Qed.

Lemma short_message_delivered_witness :
  ∃ hdr, short_request example_cfg 0 (0, 0) example_type 1 example_struct [] = Some hdr ∧
    ∀ e w, if short_args_supported 6
      then ∃ a, send_short e w hdr = Some (send_packet w (AMRequestShort (peer e) 40 a)) ∧
        ∀ src extra, 6 ≤ zlen a + zlen extra → ∃ i,
          handler_short example_type src (call_params example_type a extra) = Some i ∧
          get_peer i = src ∧ get_msgid i = 40 ∧ handler_call i = (example_struct, (0, 0))
      else send_short e w hdr = None.
Proof.
  exact (short_message_delivered example_cfg 0 (0, 0) example_type 1 example_struct []
    ltac:(lia) ltac:(simpl; lia) eq_refl ltac:(done) example_struct_bytes).
Defined.

Lemma example_sendable :
  sendable 4096 example_node
    (set_spill (SrcDataPool_init (mkLimits 0 0 0) 4096 1024)
       (mkSpill 100 100 0 (100 :: replicate 255 0) (replicate 256 0) (replicate 256 0) 0 0 0))
    40 (DescContig 20000 10) PAYLOAD_COPY 9000.
Proof.
  split; try done.
  - apply sdp_inv_set_spill, sdp_init_inv; [lia..|by exists 16].
  - by repeat constructor.
  - repeat constructor. unfold no_overlap. simpl. lia.
  - split; [done|]. repeat constructor. unfold no_overlap. simpl. lia.
Qed.

Lemma medium_message_delivered_witness :
  match send_long example_cfg example_ep example_sender example_medium 100000 with
  | Some (_, w', _) =>
      ∃ ps, sent w' = [] ++ ps ∧
        (∀ receiver source m r,
           get_endpoint m source = Some r → observed_messages r !! 7 = None →
           (∀ calls m' out, carried example_type source ps (filter (own source 7) calls) →
              receive receiver m calls = Some (m', out) →
              (∃ c raw, filter (λ o, own source 7 o.1.1) out =
                 [(c, IncomingMediumMessage example_type source 100000 10 raw,
                   releases source 5056)] ∧
                 typed example_type raw = stamped example_struct 7 3 5056) ∧
              (∃ r', get_endpoint m' source = Some r' ∧ observed_messages r' !! 7 = None)) ∧
           (∀ calls, source ≠ receiver → carried example_type source ps calls →
              is_Some (receive receiver m calls))) ∧
        (∀ m ps', ps' ≡ₚ ps →
           read_bytes (foldl (apply_long (bytes example_pooled.2)) m ps') 100000 10 =
           gather (bytes example_node) [(20000, 10)])
  | None => False
  end.
Proof.
  assert (∃ hdr0, medium_request example_cfg 0 (0, 0) example_type 1 example_struct []
      (DescContig 20000 10) PAYLOAD_COPY 0 = Some hdr0 ∧
      reserve_srcdata 1 9000 hdr0 example_node = Some (example_medium, node example_sender))
    as (hdr0 & Ereq & Eres) by (eexists; split; reflexivity).
  destruct (send_long example_cfg example_ep example_sender example_medium 100000)
    as [[[e' w'] hdr']|] eqn:E.
  - exact (medium_message_delivered 4096 _ example_cfg 0 (0, 0) 1 example_type example_struct []
      (DescContig 20000 10) PAYLOAD_COPY 0 hdr0 example_node 1 9000 example_medium
      (node example_sender) example_ep
      example_sender 100000 e' w' hdr' ltac:(simpl; lia) ltac:(simpl; lia) eq_refl
      ltac:(simpl; lia) eq_refl ltac:(done) example_struct_bytes example_sendable Ereq
      (sourced_at_once 1 9000 _ _ _ _ Eres ltac:(done)) ltac:(vm_compute; split; congruence)
      ltac:(done) E).
  - assert (bool_decide (is_Some (send_long example_cfg example_ep example_sender example_medium 100000)) = true)
      as H by (vm_compute; reflexivity).
    by rewrite E in H.
Defined.

(** A message of one chunk, whose pointer needs both words. *)
Definition example_small : OutgoingMessage :=
  mkMsg 40 6 (read_args example_type (set_magic example_type example_struct ++ []))
    0x7f12deadbeef40 4 PAYLOAD_SRCPTR 0 None.

Lemma release_reply_roundtrip_witness :
  ∃ e' w' hdr' d k a m' imsg arg0 arg1,
    send_long example_cfg example_ep example_wire example_small 100000 = Some (e', w', hdr') ∧
    sent w' = [AMRequestLongAsync 1 40 0x7f12deadbeef40 k d a] ∧
    handler_medium 1 example_mgr example_type 0 d k (call_params example_type a []) =
      Some (m', Some (imsg, [AMRequestShort 0 MSGID_RELEASE_SRCPTR [arg0; arg1]])) ∧
    release_srcptr_handler stall_pool arg0 arg1 = release_srcptr stall_pool 0x7f12deadbeef40.
Proof.
  destruct (send_long example_cfg example_ep example_wire example_small 100000)
    as [[[e' w'] hdr']|] eqn:E; [|vm_compute in E; discriminate].
  assert (header_of example_type (set_magic example_type example_struct ++ []) example_small)
    as Hhdr by done.
  destruct (release_reply_roundtrip example_cfg example_ep example_wire example_type example_struct []
    example_small 100000 e' w' hdr' ltac:(simpl; lia) ltac:(simpl; lia) eq_refl ltac:(simpl; lia)
    eq_refl ltac:(done) example_struct_bytes Hhdr ltac:(unfold is_u64; simpl; lia) E)
    as (ps & Eps & _ & Hps).
  assert (ps = [AMRequestLongAsync 1 40 0x7f12deadbeef40 4 100000
    [7; 1; -1379995840; 8327902; 336794129; 404166165]]) as Ps.
  { assert ((sent ∘ snd ∘ fst) <$> send_long example_cfg example_ep example_wire example_small 100000 =
      Some [AMRequestLongAsync 1 40 0x7f12deadbeef40 4 100000
    [7; 1; -1379995840; 8327902; 336794129; 404166165]]) as H by (vm_compute; reflexivity).
    rewrite E in H. simpl in H. injection H as H. by rewrite <- H, Eps. }
  rewrite Ps in Eps, Hps.
  destruct (Hps _ ltac:(by left)) as (s & k & d & a & [= <- <- <- <-] & Hcall).
  destruct (handler_medium 1 example_mgr example_type 0 100000 4
    (call_params example_type [7; 1; -1379995840; 8327902; 336794129; 404166165] []))
    as [[m' [[imsg reps]|]]|] eqn:Eh; [|vm_compute in Eh; discriminate..].
  specialize (Hcall 1 example_mgr 0 [] m' imsg reps Eh).
  rewrite decide_True in Hcall by done. destruct Hcall as (arg0 & arg1 & Er & Hrel).
  exists e', w', hdr', 100000, 4, [7; 1; -1379995840; 8327902; 336794129; 404166165], m', imsg, arg0, arg1.
  split_all; [done|by rewrite Eps|by rewrite Eh, Er|by apply Hrel].
Defined.

(** The whole way of [example_medium], with its three chunks out of order. *)
Example example_received :
  match send_long example_cfg example_ep example_sender example_medium 100000 with
  | Some (_, w', _) =>
      let calls := omap (λ p, match p with
        | AMRequestLongAsync _ _ _ n d a => Some (mkMediumAm 0 example_type d n a)
        | _ => None end) (sent w') in
      match receive 1 example_mgr (rotate 1 calls) with
      | Some (_, [(_, i, reps)]) =>
          (get_peer i, get_msgid i, get_msgsize i, handler_call i, reps) =
          (0, 40, 34, (stamped example_struct 7 3 5056, (100000, 10)),
           [AMRequestShort 0 MSGID_RELEASE_SRCPTR [5056; 0]])
      | _ => False
      end
  | None => False
  end.
Proof. vm_compute. reflexivity. Qed.

Lemma empty_medium_delivered_witness :
  match medium_request example_cfg 0 (0, 0) example_type 1 example_struct []
          (DescContig 5000 0) PAYLOAD_COPY 0 with
  | Some hdr =>
      ∃ a, send_short example_ep example_wire hdr =
          Some (send_packet example_wire (AMRequestMedium 1 40 0 0 a)) ∧
        ∀ receiver m src buf extra, 6 ≤ zlen a + zlen extra → ∃ raw,
          handler_medium receiver m example_type src buf 0 (call_params example_type a extra) =
            Some (m, Some (IncomingMediumMessage example_type src buf 0 raw, [])) ∧
          typed example_type raw = set_magic example_type example_struct
  | None => False
  end.
Proof.
  exact (empty_medium_delivered example_cfg 0 (0, 0) example_type 1 example_struct []
    (DescContig 5000 0) PAYLOAD_COPY 0 (set_payload_empty
      (mkMsg 40 6 (read_args example_type (set_magic example_type example_struct ++ [])) 0 0
         PAYLOAD_NONE 0 None)) example_ep example_wire eq_refl ltac:(simpl; lia) eq_refl
    ltac:(done) example_struct_bytes ltac:(simpl; lia) ltac:(done) eq_refl eq_refl).
Defined.

Lemma run_handler_gives_back_witness :
  let y := mkLmbSys example_ep example_ep [(200000, 10)] [] [] in
  ∃ e' freed,
    lmb_step example_cfg y (mkLmbSys example_ep e' [] [] (option_list freed ++ [])).
Proof.
  intros y.
  destruct (run_handler (λ _ c l, c :: l) example_cfg 1 example_mgr example_wire 77
    (IncomingMediumMessage example_type 0 200000 10 [1; 2; 3; 4; 5; 6]) [])
    as [[[m' w'] s']|] eqn:E; [|vm_compute in E; discriminate].
  destruct (run_handler_gives_back (λ _ c l, c :: l) example_cfg 1 example_mgr example_wire 77
    example_type 0 200000 10 [1; 2; 3; 4; 5; 6] [] m' w' s' example_ep y [] E eq_refl
    ltac:(vm_compute; discriminate) eq_refl ltac:(done)) as (_ & e' & freed & Hstep & _).
  by exists e', freed.
Defined.

(** ** Limits of the packing *)

(** A struct of 28 bytes has 7 words: its handler is declared with 8 and can be
    registered, but the message cannot be sent. *)
Lemma short_request_seven_words cfg mynode seg target st rest hdr e w :
  short_request cfg mynode seg (mkMsgType 40 28 4 (-1)) target st rest = Some hdr →
  is_Some (add_handler_entries (mkMsgType 40 28 4 (-1)) ([] : list (Z * unit)) tt) ∧
  send_short e w hdr = None.
Proof.
  intros E. split; [by eexists|]. unfold short_request, contig_message in E.
  apply assert_Some in E as [_ E]. rewrite OutgoingMessage_init_args in E by (simpl; lia).
  injection E as <-. reflexivity.
Qed.

(** A struct of at most 4 bytes travels as one argument to a handler that is
    declared with two. *)
Lemma short_request_one_word cfg mynode seg target st rest hdr :
  short_request cfg mynode seg (mkMsgType 40 4 4 (-1)) target st rest = Some hdr →
  num_args hdr = 1 ∧ raw_args (mkMsgType 40 4 4 (-1)) = 2.
Proof.
  intros E. unfold short_request, contig_message in E.
  apply assert_Some in E as [_ E]. rewrite OutgoingMessage_init_args in E by (simpl; lia).
  by injection E as <-.
Qed.

(** [send_long] finds a header that follows a pointer, but the handler reads
    the id and the number of chunks from the first two arguments: a message
    of one chunk is taken for the first of 32530. *)
Example leading_pointer_not_delivered :
  let T := mkMsgType 41 24 8 8 in
  let st := le_bytes 8 0x7f1200000007 ++ replicate 16 0 in
  let hdr := mkMsg 41 6 (read_args T (set_magic T st)) 5000 4 PAYLOAD_SRCPTR 0 None in
  match send_long example_cfg example_ep example_wire hdr 100000 with
  | Some (_, w', _) =>
      match sent w' with
      | [AMRequestLongAsync _ _ _ n d a] =>
          match receive 1 example_mgr [mkMediumAm 0 T d n a] with
          | Some (_, out) => out = []
          | None => False
          end
      | _ => False
      end
  | None => False
  end.
Proof. vm_compute. reflexivity. Qed.
