(* ===== verification/RemoteAlloc.v ===== *)
(** * Remote allocation, end to end

    [RemoteMemAllocRequest] of src/templates/mem_impl.h and mem_impl.cc over the
    message classes: the request struct travels in the words of a short
    message, the owner's handler allocates and answers in another, and the
    reply sets the future the caller waits on. *)

From S2P Require Import Prelude Words Spans MemAlloc SrcDataPool Bytes Payload Endpoint EndpointManager Messages Future.

(** ** The structs

    [RequestArgs]: an [int], four bytes of padding, a pointer, a [Memory] and a
    [size_t]; [ResponseArgs]: a pointer and an [off_t]. *)
Record alloc_request := mkAllocReq { ar_sender : Z; ar_resp_ptr : Z; ar_memory : Z; ar_size : Z }.
Record alloc_response := mkAllocResp { rs_resp_ptr : Z; rs_offset : Z }.

Definition enc_request (r : alloc_request) (pad : list Z) : list Z :=
  le_bytes 4 (u32 (ar_sender r)) ++ pad ++
  le_bytes 8 (ar_resp_ptr r) ++ le_bytes 8 (ar_memory r) ++ le_bytes 8 (ar_size r).
Definition dec_request (bs : list Z) : alloc_request :=
  mkAllocReq (i32 (le_val (take 4 bs))) (le_val (take 8 (drop 8 bs)))
    (le_val (take 8 (drop 16 bs))) (le_val (take 8 (drop 24 bs))).

Definition enc_response (r : alloc_response) : list Z :=
  le_bytes 8 (rs_resp_ptr r) ++ le_bytes 8 (u64 (rs_offset r)).
Definition dec_response (bs : list Z) : alloc_response :=
  mkAllocResp (le_val (take 8 bs)) (i64 (le_val (take 8 (drop 8 bs)))).

Definition Request (msgid : Z) : MsgType := mkMsgType msgid 32 8 0.
Definition Response (msgid : Z) : MsgType := mkMsgType msgid 16 8 0.

(** ** A short message from one node to another

    The request, the packet [send_short] hands to GASNet, and what the user's
    function is called with at the target; [extra] are the arguments of the
    handler that were not sent. *)
Definition short_hop (cfg : Config) (mynode : Z) (seg : Z * Z) (T : MsgType) (target : Z)
    (st : list Z) (e : Endpoint) (w : Wire) (extra : list Z) : option (Wire * Z * list Z) :=
  hdr ← short_request cfg mynode seg T target st [];
  w ← send_short e w hdr;
  match last (sent w) with
  | Some (AMRequestShort dst _ a) =>
      i ← handler_short T mynode (call_params T a extra); Some (w, dst, (handler_call i).1)
  | _ => None
  end.

(** ** The request *)

(** [handle_request] on the owner, whose memories are [mems]. *)
Definition handle_request (mems : gmap Z MemoryImpl) (args : alloc_request)
    : option (gmap Z MemoryImpl * Z * alloc_response) :=
  m ← mems !! ar_memory args;
  let '(m, s) := handle_malloc_request m (mkMallocReq (ar_sender args) (ar_resp_ptr args) (ar_size args)) in
  Some (<[ar_memory args := m]> mems, ms_target s, mkAllocResp (ms_resp_ptr s) (ms_offset s)).

(** [send_request] up to the wait, with what it causes: the last result is
    what [handle_response] gets, which sets the future at [rs_resp_ptr] to
    [rs_offset].  [ep_my] is the caller's endpoint for [owner], [ep_owner] are the
    endpoints of the owner. *)
Definition send_request (cfg : Config) (reqid rplid : Z) (seg_my seg_owner : Z * Z)
    (ep_my : Endpoint) (ep_owner : Z → Endpoint) (pad extra extra' : list Z)
    (my owner : Z) (w w' : Wire) (mems : gmap Z MemoryImpl) (resp_ptr memory size : Z)
    : option (gmap Z MemoryImpl * Wire * Wire * Z * alloc_response) :=
  '(w, dst, st) ← short_hop cfg my seg_my (Request reqid) owner
      (enc_request (mkAllocReq my resp_ptr memory size) pad) ep_my w extra;
  assert! dst = owner;
  '(mems, target, r) ← handle_request mems (dec_request st);
  '(w', dst', st') ← short_hop cfg owner seg_owner (Response rplid) target (enc_response r)
      (ep_owner target) w' extra';
  Some (mems, w, w', dst', dec_response st').

(** ** Round trips *)

Lemma take_drop_le (n k : nat) z (l r : list Z) :
  length l = k → take n (drop k (l ++ le_bytes n z ++ r)) = le_bytes n z.
Proof.
  intros <-. rewrite drop_app_length. apply take_app_length'. by rewrite le_bytes_length.
Qed.

Lemma le_val_bytes_id n z : 0 ≤ z < 256 ^ Z.of_nat n → le_val (le_bytes n z) = z.
Proof. intros H. rewrite le_val_bytes. by apply Z.mod_small. Qed.

Lemma i32_u32 z : is_i32 z → i32 (u32 z) = z.
Proof.
  intros Hz. unfold i32, u32. rewrite Zplus_mod_idemp_l. by apply i32_id.
Qed.

Lemma i64_u64 z : - 2 ^ 63 ≤ z < 2 ^ 63 → i64 (u64 z) = z.
Proof.
  intros Hz. unfold i64, u64. rewrite Zplus_mod_idemp_l. by apply i64_id.
Qed.

Lemma request_roundtrip r pad :
  length pad = 4%nat → is_i32 (ar_sender r) → is_u64 (ar_resp_ptr r) → is_u64 (ar_memory r) →
  is_u64 (ar_size r) → dec_request (enc_request r pad) = r.
Proof.
  destruct r as [s p m n]. intros Hpad Hs Hp Hm Hn. simpl in *. unfold dec_request, enc_request. simpl ar_sender.
  cbn [ar_resp_ptr ar_memory ar_size]. f_equal.
  - rewrite take_app_length' by (by rewrite le_bytes_length).
    rewrite le_val_bytes_id by (apply Z.mod_pos_bound; lia). by apply i32_u32.
  - rewrite (app_assoc (le_bytes 4 _)).
    rewrite take_drop_le by (rewrite length_app, le_bytes_length, Hpad; done). by apply le_val_bytes_id.
  - rewrite (app_assoc (le_bytes 4 _)), (app_assoc (_ ++ pad)).
    rewrite take_drop_le by (rewrite !length_app, !le_bytes_length, Hpad; done). by apply le_val_bytes_id.
  - rewrite (app_assoc (le_bytes 4 _)), (app_assoc (_ ++ pad)), (app_assoc ((_ ++ pad) ++ _)).
    rewrite <- (app_nil_r (le_bytes 8 n)).
    rewrite take_drop_le by (rewrite !length_app, !le_bytes_length, Hpad; done). by apply le_val_bytes_id.
Qed.

Lemma response_roundtrip r :
  is_u64 (rs_resp_ptr r) → - 2 ^ 63 ≤ rs_offset r < 2 ^ 63 → dec_response (enc_response r) = r.
Proof.
  destruct r as [p o]. intros Hp Ho. simpl in *. unfold dec_response, enc_response. cbn [rs_resp_ptr rs_offset]. f_equal.
  - rewrite take_app_length' by (by rewrite le_bytes_length). by apply le_val_bytes_id.
  - rewrite <- (app_nil_r (le_bytes 8 (u64 o))).
    rewrite take_drop_le by (by rewrite le_bytes_length).
    rewrite le_val_bytes_id by apply u64_range. by apply i64_u64.
Qed.

(** A struct of a supported size arrives as it was sent, in one packet. *)
Lemma short_hop_delivers cfg mynode seg T target st e w extra :
  target ≠ mynode → 0 < mt_size T ≤ 64 → zlen st = mt_size T → mt_size T `mod` 4 = 0 →
  Forall is_byte st → short_args_supported (arg_words (mt_size T)) = true →
  raw_args T ≤ arg_words (mt_size T) + zlen extra →
  short_hop cfg mynode seg T target st e w extra =
    Some (send_packet w (AMRequestShort (peer e) (mt_id T) (read_args T st)), peer e, st).
Proof.
  intros Ht Hs Hl H4 Hb Hsup Hx. pose proof (arg_words_spec (mt_size T) ltac:(lia)) as Hw.
  pose proof (Z.div_mod (mt_size T) 4 ltac:(lia)) as Hd.
  assert (struct_in T st st) as Hsi.
  { rewrite <- (app_nil_r st) at 2. apply struct_in_app; rewrite ?app_nil_r; try done. lia. }
  unfold short_hop, short_request, contig_message. rewrite app_nil_r.
  rewrite assert_true by done. rewrite OutgoingMessage_init_args by done. simpl.
  unfold send_short. simpl. rewrite assert_true by done.
  rewrite first_args_all by (simpl; by rewrite read_args_zlen by lia). simpl.
  rewrite last_snoc. unfold handler_short. rewrite assert_true; simpl.
  - by rewrite (typed_read_args T st st).
  - apply call_params_zlen. rewrite read_args_zlen by lia.
    pose proof (raw_args_enough T ltac:(lia)). lia.
Qed.

Lemma enc_request_struct r pad :
  zlen pad = 4 → Forall is_byte pad →
  zlen (enc_request r pad) = 32 ∧ Forall is_byte (enc_request r pad).
Proof.
  intros Hp Hb. unfold enc_request, zlen in *. split.
  - rewrite !length_app, !le_bytes_length. lia.
  - rewrite !Forall_app. split_all; (done || apply le_bytes_byte).
Qed.

Lemma enc_response_struct r :
  zlen (enc_response r) = 16 ∧ Forall is_byte (enc_response r).
Proof.
  unfold enc_response, zlen. split.
  - by rewrite !length_app, !le_bytes_length.
  - rewrite !Forall_app. split; apply le_bytes_byte.
Qed.

Lemma alloc_offset_range m a size m' off :
  mem_inv m a → 0 < size < 2 ^ 62 → alloc_bytes_local m size = (m', off) →
  - 2 ^ 63 ≤ off < 2 ^ 63 ∧ (off = -1 ∧ m' = m ∨ ∃ n, size ≤ n ∧ mem_inv m' ((off, n) :: a)).
Proof.
  intros H Hs E. pose proof (mi_size _ _ H).
  destruct (alloc_bytes_local_cases m a size H Hs) as [[E' _]|(f & n & m1 & E' & Hn & Hin & H1 & _)];
    rewrite E in E'; simplify_eq.
  - split; [lia|by left].
  - pose proof (pad_size_spec (alignment m) size (mi_align _ _ H) Hs) as [Hp _].
    pose proof (mem_inv_elem _ _ (f, n) H ltac:(set_solver)) as Hb. simpl in Hb.
    split; [lia|]. right. eexists. split; [|exact H1]. lia.
Qed.

Lemma handle_request_alloc mems r memory m m' off :
  ar_memory r = memory → mems !! memory = Some m → alloc_bytes_local m (ar_size r) = (m', off) →
  handle_request mems r = Some (<[memory := m']> mems, ar_sender r, mkAllocResp (ar_resp_ptr r) off).
Proof.
  intros <- Hm Ha. unfold handle_request. rewrite Hm. cbn [mbind option_bind].
  unfold handle_malloc_request. cbn [mr_size mr_sender mr_resp_ptr]. by rewrite Ha.
Qed.

Lemma request_room msgid (extra : list Z) :
  raw_args (Request msgid) ≤ arg_words (mt_size (Request msgid)) + zlen extra.
Proof. change (raw_args _) with 8. change (arg_words _) with 8. unfold zlen. lia. Qed.

Lemma response_room msgid (extra : list Z) :
  raw_args (Response msgid) ≤ arg_words (mt_size (Response msgid)) + zlen extra.
Proof. change (raw_args _) with 4. change (arg_words _) with 4. unfold zlen. lia. Qed.

(** ** The property *)

(** C28. A remote allocation is a local one on the owner.  The request reaches
    the owner of the memory in one packet with its fields intact, whatever the
    padding of the struct and the unsent arguments hold; the owner allocates,
    and its answer returns to the caller in one packet with the caller's own
    future pointer and the offset of [alloc_bytes_local] on the owner's
    memory, other memories unchanged; the offset is a block disjoint from all
    others or [-1], and a caller that waits on the future reads it. *)
Theorem remote_alloc_rpc_ok cfg reqid rplid seg_my seg_owner ep_my ep_owner pad extra extra'
    my owner w w' mems resp_ptr memory size m a :
  my ≠ owner → is_i32 my → is_u64 resp_ptr → is_u64 memory → 0 < size < 2 ^ 62 →
  zlen pad = 4 → Forall is_byte pad → peer ep_my = owner → peer (ep_owner my) = my →
  mems !! memory = Some m → mem_inv m a →
  ∃ m' off areq arpl,
    alloc_bytes_local m size = (m', off) ∧
    send_request cfg reqid rplid seg_my seg_owner ep_my ep_owner pad extra extra'
      my owner w w' mems resp_ptr memory size =
    Some (<[memory := m']> mems, send_packet w (AMRequestShort owner reqid areq),
      send_packet w' (AMRequestShort my rplid arpl), my, mkAllocResp resp_ptr off) ∧
    (off = -1 ∧ m' = m ∨ ∃ n, size ≤ n ∧ mem_inv m' ((off, n) :: a)) ∧
    ∀ garbage f r, rtc (future_step off) (Future_init garbage) f →
      waiter f = GotValue false r → r = off.
Proof.
  intros Hne Hmy Hrp Hmem Hsz Hpad Hpb Eo Em Hlk Hinv.
  destruct (alloc_bytes_local m size) as [m' off] eqn:Ea.
  destruct (alloc_offset_range _ _ _ _ _ Hinv Hsz Ea) as [Hoff Hcase].
  destruct (enc_request_struct (mkAllocReq my resp_ptr memory size) pad Hpad Hpb) as [Hl Hb].
  destruct (enc_response_struct (mkAllocResp resp_ptr off)) as [Hl' Hb'].
  do 4 eexists. split; [done|]. split; [|split; [done|]].
  - unfold send_request.
    rewrite short_hop_delivers by (done || apply request_room || (simpl; lia)).
    simpl. rewrite assert_true by done.
    rewrite request_roundtrip by (simpl; unfold is_u64, zlen in *; (done || lia)).
    rewrite (handle_request_alloc _ _ _ m m' off) by done. simpl.
    rewrite short_hop_delivers by (done || apply response_room || (simpl; lia)). simpl.
    rewrite response_roundtrip by done. rewrite Eo, Em. reflexivity.
  - intros garbage f r Hr Hw. destruct (future_reachable_inv _ _ _ Hr) as [_ _ _ _ Hi].
    rewrite Hw in Hi. apply Hi.
Qed.

(** Node 0 asks node 1, which owns memory 7, for 1000 bytes; the words that
    were not sent do not matter. *)
Definition example_owner_ep (_ : Z) : Endpoint :=
  mkEp 0 [] [] 0 0 0 [100000; 95904] [200000; 195904] [0; 0] [true; true] ∅ 7.

Lemma remote_alloc_rpc_ok_witness :
  ∃ m' areq arpl,
    send_request example_cfg 20 21 (0, 0) (0, 0) example_ep example_owner_ep [9; 9; 9; 9] [5] [6; 7]
      0 1 example_wire example_wire {[7 := mem_init 4096 256]} 140733193388032 7 1000 =
    Some (<[7 := m']> {[7 := mem_init 4096 256]}, send_packet example_wire (AMRequestShort 1 20 areq),
      send_packet example_wire (AMRequestShort 0 21 arpl), 0, mkAllocResp 140733193388032 3072).
Proof.
  destruct (remote_alloc_rpc_ok example_cfg 20 21 (0, 0) (0, 0) example_ep example_owner_ep [9; 9; 9; 9]
    [5] [6; 7] 0 1 example_wire example_wire {[7 := mem_init 4096 256]} 140733193388032 7 1000
    (mem_init 4096 256) []) as (m' & off & areq & arpl & Ea & E & _).
  all: try (unfold is_i32, is_u64, zlen; simpl; (reflexivity || lia)).
  - repeat (apply Forall_cons; split; [unfold is_byte; lia|]). by apply Forall_nil.
  - apply mem_init_inv; lia.
  - exists m', areq, arpl. assert (off = 3072) as <- by (vm_compute in Ea; congruence). exact E.
Defined.
