(* ===== verification/Launch.v ===== *)
(** * Launch: the message handlers

    What [configure_from_command_line] of src/templates/runtime_impl.cc
    registers: every message class under its id of src/templates/activemsg.h,
    with the structs that src/templates/mem_impl.h and
    src/templates/runtime_impl.h send, and the handlers of the endpoint manager
    itself, whose indices must not be taken. *)

From S2P Require Import Prelude StdMap Spans SrcDataPool Bytes Words Payload Ring Endpoint EndpointManager Startup Messages RemoteAlloc.

(** ** Message ids *)

(** [enum ActiveMessageIDs] *)
Inductive ActiveMessageID :=
| FIRST_AVAILABLE | NODE_ANNOUNCE_MSGID | SPAWN_TASK_MSGID | LOCK_REQUEST_MSGID
| LOCK_RELEASE_MSGID | LOCK_GRANT_MSGID | EVENT_SUBSCRIBE_MSGID
| EVENT_TRIGGER_MSGID | EVENT_UPDATE_MSGID | REMOTE_MALLOC_MSGID
| REMOTE_MALLOC_RPLID | CREATE_ALLOC_MSGID | CREATE_ALLOC_RPLID | CREATE_INST_MSGID
| CREATE_INST_RPLID | VALID_MASK_REQ_MSGID | VALID_MASK_DATA_MSGID
| VALID_MASK_FTH_MSGID | ROLL_UP_TIMER_MSGID | ROLL_UP_DATA_MSGID
| CLEAR_TIMER_MSGID | DESTROY_INST_MSGID | REMOTE_WRITE_MSGID | REMOTE_REDUCE_MSGID
| REMOTE_SERDEZ_MSGID | REMOTE_WRITE_FENCE_MSGID | REMOTE_WRITE_FENCE_ACK_MSGID
| DESTROY_LOCK_MSGID | REMOTE_REDLIST_MSGID | MACHINE_SHUTDOWN_MSGID
| BARRIER_ADJUST_MSGID | BARRIER_SUBSCRIBE_MSGID | BARRIER_TRIGGER_MSGID
| BARRIER_MIGRATE_MSGID | METADATA_REQUEST_MSGID | METADATA_RESPONSE_MSGID
| METADATA_INVALIDATE_MSGID | METADATA_INVALIDATE_ACK_MSGID
| XFERDES_REMOTEWRITE_MSGID | XFERDES_REMOTEWRITE_ACK_MSGID | XFERDES_CREATE_MSGID
| XFERDES_DESTROY_MSGID | XFERDES_NOTIFY_COMPLETION_MSGID
| XFERDES_UPDATE_BYTES_WRITE_MSGID | XFERDES_UPDATE_BYTES_READ_MSGID
| REGISTER_TASK_MSGID | REGISTER_TASK_COMPLETE_MSGID | REMOTE_MICROOP_MSGID
| REMOTE_MICROOP_COMPLETE_MSGID | REMOTE_SPARSITY_CONTRIB_MSGID
| REMOTE_SPARSITY_REQUEST_MSGID | APPROX_IMAGE_RESPONSE_MSGID
| SET_CONTRIB_COUNT_MSGID | REMOTE_ID_REQUEST_MSGID | REMOTE_ID_RESPONSE_MSGID
| REMOTE_IB_ALLOC_REQUEST_MSGID | REMOTE_IB_ALLOC_RESPONSE_MSGID
| REMOTE_IB_FREE_REQUEST_MSGID | REMOTE_COPY_MSGID | REMOTE_FILL_MSGID
| MEM_STORAGE_ALLOC_REQ_MSGID | MEM_STORAGE_ALLOC_RESP_MSGID
| MEM_STORAGE_RELEASE_REQ_MSGID | MEM_STORAGE_RELEASE_RESP_MSGID.

Definition ActiveMessageIDs : list ActiveMessageID :=
  [FIRST_AVAILABLE; NODE_ANNOUNCE_MSGID; SPAWN_TASK_MSGID; LOCK_REQUEST_MSGID;
   LOCK_RELEASE_MSGID; LOCK_GRANT_MSGID; EVENT_SUBSCRIBE_MSGID;
   EVENT_TRIGGER_MSGID; EVENT_UPDATE_MSGID; REMOTE_MALLOC_MSGID;
   REMOTE_MALLOC_RPLID; CREATE_ALLOC_MSGID; CREATE_ALLOC_RPLID; CREATE_INST_MSGID;
   CREATE_INST_RPLID; VALID_MASK_REQ_MSGID; VALID_MASK_DATA_MSGID;
   VALID_MASK_FTH_MSGID; ROLL_UP_TIMER_MSGID; ROLL_UP_DATA_MSGID;
   CLEAR_TIMER_MSGID; DESTROY_INST_MSGID; REMOTE_WRITE_MSGID; REMOTE_REDUCE_MSGID;
   REMOTE_SERDEZ_MSGID; REMOTE_WRITE_FENCE_MSGID; REMOTE_WRITE_FENCE_ACK_MSGID;
   DESTROY_LOCK_MSGID; REMOTE_REDLIST_MSGID; MACHINE_SHUTDOWN_MSGID;
   BARRIER_ADJUST_MSGID; BARRIER_SUBSCRIBE_MSGID; BARRIER_TRIGGER_MSGID;
   BARRIER_MIGRATE_MSGID; METADATA_REQUEST_MSGID; METADATA_RESPONSE_MSGID;
   METADATA_INVALIDATE_MSGID; METADATA_INVALIDATE_ACK_MSGID;
   XFERDES_REMOTEWRITE_MSGID; XFERDES_REMOTEWRITE_ACK_MSGID; XFERDES_CREATE_MSGID;
   XFERDES_DESTROY_MSGID; XFERDES_NOTIFY_COMPLETION_MSGID;
   XFERDES_UPDATE_BYTES_WRITE_MSGID; XFERDES_UPDATE_BYTES_READ_MSGID;
   REGISTER_TASK_MSGID; REGISTER_TASK_COMPLETE_MSGID; REMOTE_MICROOP_MSGID;
   REMOTE_MICROOP_COMPLETE_MSGID; REMOTE_SPARSITY_CONTRIB_MSGID;
   REMOTE_SPARSITY_REQUEST_MSGID; APPROX_IMAGE_RESPONSE_MSGID;
   SET_CONTRIB_COUNT_MSGID; REMOTE_ID_REQUEST_MSGID; REMOTE_ID_RESPONSE_MSGID;
   REMOTE_IB_ALLOC_REQUEST_MSGID; REMOTE_IB_ALLOC_RESPONSE_MSGID;
   REMOTE_IB_FREE_REQUEST_MSGID; REMOTE_COPY_MSGID; REMOTE_FILL_MSGID;
   MEM_STORAGE_ALLOC_REQ_MSGID; MEM_STORAGE_ALLOC_RESP_MSGID;
   MEM_STORAGE_RELEASE_REQ_MSGID; MEM_STORAGE_RELEASE_RESP_MSGID].


#[export] Instance ActiveMessageID_eq_dec : EqDecision ActiveMessageID.
Proof. solve_decision. Defined.

(** Enumerators count up from [FIRST_AVAILABLE = 140]. *)
Definition msgid (i : ActiveMessageID) : Z :=
  match list_find (λ j, i = j) ActiveMessageIDs with
  | Some (n, _) => 140 + Z.of_nat n
  | None => 0
  end.

(** ** Message classes

    [OwnMessage] are the classes of mem_impl.h and runtime_impl.h, whose ids
    and structs are there; [OtherMessage] are the others that are registered,
    with ids and structs in other files. *)
Inductive OwnMessage :=
| RemoteMemAllocRequest | RemoteMemAllocResponse | RemoteWriteMessage
| RemoteReduceMessage | RemoteSerdezMessage | RemoteWriteFenceMessage
| RemoteWriteFenceAckMessage | RemoteReduceListMessage | RuntimeShutdownMessage
| RemoteIDRequestMessage | RemoteIDResponseMessage | MemStorageAllocRequest
| MemStorageAllocResponse | MemStorageReleaseRequest | MemStorageReleaseResponse.

Inductive OtherMessage :=
| NodeAnnounceMessage | SpawnTaskMessage | LockRequestMessage | LockReleaseMessage
| LockGrantMessage | EventSubscribeMessage | EventTriggerMessage
| EventUpdateMessage | RemoteCopyMessage | RemoteFillMessage | DestroyLockMessage
| BarrierAdjustMessage | BarrierSubscribeMessage | BarrierTriggerMessage
| BarrierMigrationMessage | MetadataRequestMessage | MetadataResponseMessage
| MetadataInvalidateMessage | MetadataInvalidateAckMessage
| XferDesRemoteWriteMessage | XferDesRemoteWriteAckMessage | XferDesCreateMessage
| XferDesDestroyMessage | NotifyXferDesCompleteMessage | UpdateBytesWriteMessage
| UpdateBytesReadMessage | RegisterTaskMessage | RegisterTaskCompleteMessage
| RemoteMicroOpMessage | RemoteMicroOpCompleteMessage
| RemoteSparsityContribMessage | RemoteSparsityRequestMessage
| ApproxImageResponseMessage | SetContribCountMessage | RemoteIBAllocRequestAsync
| RemoteIBAllocResponseAsync | RemoteIBFreeRequestAsync | CancelOperationMessage.


Inductive MessageClass := Own (m : OwnMessage) | Other (m : OtherMessage).

Definition own_id (m : OwnMessage) : ActiveMessageID :=
  match m with
  | RemoteMemAllocRequest => REMOTE_MALLOC_MSGID
  | RemoteMemAllocResponse => REMOTE_MALLOC_RPLID
  | RemoteWriteMessage => REMOTE_WRITE_MSGID
  | RemoteReduceMessage => REMOTE_REDUCE_MSGID
  | RemoteSerdezMessage => REMOTE_SERDEZ_MSGID
  | RemoteWriteFenceMessage => REMOTE_WRITE_FENCE_MSGID
  | RemoteWriteFenceAckMessage => REMOTE_WRITE_FENCE_ACK_MSGID
  | RemoteReduceListMessage => REMOTE_REDLIST_MSGID
  | RuntimeShutdownMessage => MACHINE_SHUTDOWN_MSGID
  | RemoteIDRequestMessage => REMOTE_ID_REQUEST_MSGID
  | RemoteIDResponseMessage => REMOTE_ID_RESPONSE_MSGID
  | MemStorageAllocRequest => MEM_STORAGE_ALLOC_REQ_MSGID
  | MemStorageAllocResponse => MEM_STORAGE_ALLOC_RESP_MSGID
  | MemStorageReleaseRequest => MEM_STORAGE_RELEASE_REQ_MSGID
  | MemStorageReleaseResponse => MEM_STORAGE_RELEASE_RESP_MSGID
  end.


(** The layout of a struct: each member at the next offset of its alignment,
    the whole padded to the largest.  Fields are size and alignment; [base] is
    what the struct derives from. *)
Definition struct_layout (base : Z * Z) (fields : list (Z * Z)) : Z * Z :=
  let '(off, al) := foldl (λ '(off, al) '(sz, a), (round_up a off + sz, Z.max al a)) base fields in
  (round_up al off, al).

Definition no_base : Z * Z := (0, 1).
Definition BaseMedium : Z * Z := struct_layout no_base [(4, 4); (4, 4); (8, 8)].

(** The members, with [Memory], [RegionInstance], [Event] and [ID::IDType] as
    64-bit words and [ReductionOpID], [CustomSerdezID], [NodeID] and
    [ID::ID_Types] as 32-bit ones. *)
Definition W64 : Z * Z := (8, 8).
Definition W32 : Z * Z := (4, 4).
Definition BOOL : Z * Z := (1, 1).

Definition own_fields (m : OwnMessage) : list (Z * Z) :=
  match m with
  | RemoteMemAllocRequest => [W32; W64; W64; W64]
  | RemoteMemAllocResponse => [W64; W64]
  | RemoteWriteMessage => [W64; W64; W32; W32]
  | RemoteReduceMessage => [W64; W64; W32; W32; W32; W32]
  | RemoteSerdezMessage => [W64; W64; W64; W32; W32; W32]
  | RemoteWriteFenceMessage => [W64; W32; W32; W32; W64]
  | RemoteWriteFenceAckMessage => [W64]
  | RemoteReduceListMessage => [W64; W64; W32]
  | RuntimeShutdownMessage => [W32; W32]
  | RemoteIDRequestMessage => [W32; W32; W32]
  | RemoteIDResponseMessage => [W32; W32; W64; W64]
  | MemStorageAllocRequest => [W64; W64; W64; W64; W64; W64]
  | MemStorageAllocResponse => [W64; W64; BOOL]
  | MemStorageReleaseRequest => [W64; W64; W64]
  | MemStorageReleaseResponse => [W64]
  end.

(** [ActiveMessageMediumNoReply] *)
Definition is_medium (m : OwnMessage) : bool :=
  match m with
  | RemoteWriteMessage | RemoteReduceMessage | RemoteSerdezMessage | RemoteReduceListMessage => true
  | _ => false
  end.

Definition own_base (m : OwnMessage) : Z * Z := if is_medium m then BaseMedium else no_base.
Definition own_layout (m : OwnMessage) : Z * Z := struct_layout (own_base m) (own_fields m).

Definition own_type (m : OwnMessage) : MsgType :=
  mkMsgType (msgid (own_id m)) (own_layout m).1 (own_layout m).2 0.

(** ** Registration *)

(** The order of [configure_from_command_line], without the messages of
    [DETAILED_TIMING]. *)
Definition message_classes : list MessageClass :=
  [Other NodeAnnounceMessage; Other SpawnTaskMessage; Other LockRequestMessage;
   Other LockReleaseMessage; Other LockGrantMessage; Other EventSubscribeMessage;
   Other EventTriggerMessage; Other EventUpdateMessage; Own RemoteMemAllocRequest;
   Own RemoteMemAllocResponse; Other RemoteCopyMessage; Other RemoteFillMessage;
   Own RemoteWriteMessage; Own RemoteReduceMessage; Own RemoteSerdezMessage;
   Own RemoteWriteFenceMessage; Own RemoteWriteFenceAckMessage;
   Other DestroyLockMessage; Own RemoteReduceListMessage;
   Own RuntimeShutdownMessage; Other BarrierAdjustMessage;
   Other BarrierSubscribeMessage; Other BarrierTriggerMessage;
   Other BarrierMigrationMessage; Other MetadataRequestMessage;
   Other MetadataResponseMessage; Other MetadataInvalidateMessage;
   Other MetadataInvalidateAckMessage; Other XferDesRemoteWriteMessage;
   Other XferDesRemoteWriteAckMessage; Other XferDesCreateMessage;
   Other XferDesDestroyMessage; Other NotifyXferDesCompleteMessage;
   Other UpdateBytesWriteMessage; Other UpdateBytesReadMessage;
   Other RegisterTaskMessage; Other RegisterTaskCompleteMessage;
   Other RemoteMicroOpMessage; Other RemoteMicroOpCompleteMessage;
   Other RemoteSparsityContribMessage; Other RemoteSparsityRequestMessage;
   Other ApproxImageResponseMessage; Other SetContribCountMessage;
   Own RemoteIDRequestMessage; Own RemoteIDResponseMessage;
   Other RemoteIBAllocRequestAsync; Other RemoteIBAllocResponseAsync;
   Other RemoteIBFreeRequestAsync; Own MemStorageAllocRequest;
   Own MemStorageAllocResponse; Own MemStorageReleaseRequest;
   Own MemStorageReleaseResponse; Other CancelOperationMessage].

Section handlers.
Context {F : Type} (other_type : OtherMessage → MsgType) (handler : MessageClass → F).

Definition class_type (c : MessageClass) : MsgType :=
  match c with Own m => own_type m | Other m => other_type m end.

Fixpoint register (cs : list MessageClass) (handlers : list (Z * F)) : option (list (Z * F)) :=
  match cs with
  | [] => Some handlers
  | c :: cs => handlers ← add_handler_entries (class_type c) handlers (handler c); register cs handlers
  end.

Definition register_handlers : option (list (Z * F)) := register message_classes [].

End handlers.

#[export] Instance OwnMessage_eq_dec : EqDecision OwnMessage.
Proof. solve_decision. Defined.
#[export] Instance OtherMessage_eq_dec : EqDecision OtherMessage.
Proof. solve_decision. Defined.
#[export] Instance MessageClass_eq_dec : EqDecision MessageClass.
Proof. solve_decision. Defined.

Lemma message_classes_nodup : NoDup message_classes.
Proof. apply (bool_decide_unpack _). vm_compute. exact I. Qed.

Lemma message_classes_all c : c ∈ message_classes.
Proof. apply (bool_decide_unpack _). by destruct c as [[]|[]]; vm_compute. Qed.

Lemma own_id_range m : 140 < msgid (own_id m) ≤ 203.
Proof. destruct m; vm_compute; split; congruence. Qed.

Definition own_messages : list OwnMessage :=
  omap (λ c, match c with Own m => Some m | Other _ => None end) message_classes.
Definition own_of (id : Z) : option OwnMessage :=
  snd <$> list_find (λ m, msgid (own_id m) = id) own_messages.

Lemma own_of_id m : own_of (msgid (own_id m)) = Some m.
Proof. by destruct m; vm_compute. Qed.

Lemma own_id_inj m m' : msgid (own_id m) = msgid (own_id m') → m = m'.
Proof. intros H. pose proof (own_of_id m) as E. rewrite H, own_of_id in E. congruence. Qed.

(** The structs fit a handler, and [send_short] has a case for each; those with
    a payload have room for [BaseMedium]. *)
Lemma own_type_fits m :
  4 * raw_args (own_type m) ≤ 64 ∧ short_args_supported (arg_words (mt_size (own_type m))) = true ∧
  (is_medium m = true → 4 ≤ arg_words (mt_size (own_type m)) ≤ 16) ∧
  0 < mt_size (own_type m) ≤ 64 ∧ mt_size (own_type m) `mod` 4 = 0.
Proof. destruct m; split_all; by vm_compute. Qed.

Lemma own_medium_size m : is_medium m = true → 16 ≤ mt_size (own_type m).
Proof. by destruct m; vm_compute. Qed.

Lemma own_arg_words m : 4 * arg_words (mt_size (own_type m)) = mt_size (own_type m).
Proof. by destruct m; vm_compute. Qed.

Lemma own_medium_arrives m cfg mynode seg target st d mode dst hdr0 self cp n0 hdr n1 e w dest
    e' w' hdr' :
  is_medium m = true →
  0 < gasnet_AMMaxLongRequest cfg < 2 ^ 32 → 0 < desc_size d < 2 ^ 31 → mode ≠ PAYLOAD_NONE →
  zlen st = (own_layout m).1 → Forall is_byte st →
  medium_request cfg mynode seg (own_type m) target st [] d mode dst = Some hdr0 →
  sourced self cp hdr0 n0 hdr n1 → is_u64 (payload hdr) →
  send_long cfg e w hdr dest = Some (e', w', hdr') →
  ∃ ps, sent w' = sent w ++ ps ∧ zlen ps = num_chunks cfg (desc_size d) ∧
    ∀ pkt, pkt ∈ ps → ∃ s k d' a,
      pkt = AMRequestLongAsync (peer e) (msgid (own_id m)) s k d' a ∧
      ∀ extra, typed (own_type m) (call_params (own_type m) a extra) =
        stamped st (next_outgoing_message_id e) (num_chunks cfg (desc_size d)) (release_ptr hdr).
Proof.
  intros Hmed Hm Hs Hmode Hl Hb Ereq Hso Hp E.
  pose proof (own_medium_size m Hmed). pose proof (own_arg_words m).
  destruct (own_type_fits m) as (_ & _ & _ & Hsz & _). change (own_layout m).1 with (mt_size (own_type m)) in Hl.
  apply medium_request_header in Ereq as [(Hid & Hn & Ha) Hdesc]; [|lia|done].
  rewrite decide_True in Hdesc by lia. destruct Hdesc as [Hps _].
  apply sourced_header in Hso as (Eid & En & Ea & Es & _).
  destruct (long_arrives cfg e w (own_type m) st [] hdr dest e' w' hdr') as (ps & Esent & Hlen & Hpk);
    try done; try lia; rewrite ?app_nil_r; try done; try lia.
  { split; [by rewrite Eid|]. split; [by rewrite En|]. by rewrite Ea, Ha, ?app_nil_r. }
  rewrite Es, Hps in Hlen, Hpk. exists ps. split_all; [done|done|]. intros pkt Hin.
  destruct (Hpk pkt Hin) as (s & k & d' & a & -> & _ & Ht). exists s, k, d', a. split; [done|].
  intros extra. apply (Ht extra).
Qed.

Section installed.
Context {F : Type} (other_type : OtherMessage → MsgType) (handler : MessageClass → F).

Definition entry (c : MessageClass) : Z * F := (mt_id (class_type other_type c), handler c).

Lemma register_ok cs : ∀ hs,
  (∀ c, c ∈ cs → 4 * raw_args (class_type other_type c) ≤ 64) → zlen hs + zlen cs ≤ MAX_HANDLERS →
  register other_type handler cs hs = Some (hs ++ (entry <$> cs)).
Proof.
  induction cs as [|c cs IH]; intros hs Hfit Hlen; simpl; [by rewrite app_nil_r|].
  rewrite zlen_cons in Hlen. pose proof (zlen_nonneg cs).
  unfold add_handler_entries, add_handler_entry.
  rewrite assert_true by (apply Hfit; left). rewrite assert_true by lia. cbn [mbind option_bind].
  rewrite IH; [by rewrite <-(assoc_L (++))| |].
  - intros c' Hc'. apply Hfit. by right.
  - rewrite zlen_app. unfold zlen in *. simpl in *. lia.
Qed.

(** A class whose struct does not fit 16 arguments stops the node. *)
Lemma register_too_big cs c hs :
  c ∈ cs → 64 < 4 * raw_args (class_type other_type c) → register other_type handler cs hs = None.
Proof.
  intros Hc Hbig. revert hs. induction cs as [|c' cs IH]; intros hs; [by apply elem_of_nil in Hc|].
  simpl. destruct (add_handler_entries _ _ _) as [hs'|] eqn:E; [|done]. cbn [mbind option_bind].
  apply elem_of_cons in Hc as [->|Hc]; [|by apply IH].
  unfold add_handler_entries in E. apply assert_Some in E as [? _]. lia.
Qed.

(** Ids of the classes of other files: each its own, for users of GASNet, and
    none of those of this repository. *)
Record ids_ok : Prop := {
  io_range c : 128 ≤ mt_id (other_type c) < MSGID_RELEASE_SRCPTR;
  io_other c m : mt_id (other_type c) ≠ msgid (own_id m);
  io_inj c c' : mt_id (other_type c) = mt_id (other_type c') → c = c' }.

Lemma class_id_range c : ids_ok → 128 ≤ mt_id (class_type other_type c) < MSGID_RELEASE_SRCPTR.
Proof.
  intros H. destruct c as [m|m]; [|apply (io_range H)]. simpl. pose proof (own_id_range m).
  unfold MSGID_RELEASE_SRCPTR. lia.
Qed.

Lemma class_id_inj c c' :
  ids_ok → mt_id (class_type other_type c) = mt_id (class_type other_type c') → c = c'.
Proof.
  intros H. destruct c as [m|m], c' as [m'|m']; simpl; intros E.
  - f_equal. by apply own_id_inj.
  - by destruct (io_other H m' m).
  - by destruct (io_other H m m').
  - f_equal. by apply (io_inj H).
Qed.

(** C15. Every message finds its handler.  If the classes of other files have
    ids of their own and structs of at most 16 arguments, the registration of
    all message classes and of the internal handlers succeeds, no two handlers
    share an index and all are in GASNet's range for users; each class's handler
    is under its id.  The structs of this repository's own messages all have a
    number of words the senders have a case for.  What a node sends in one
    without a payload reaches the handler of its class byte for byte; what it
    sends in one with a payload reaches it in every packet of the message, with
    the 16 bytes of the [BaseMedium] in front filled in by the sender (message
    id, number of chunks, source pointer) and all members byte for byte. *)
Theorem handlers_installed (flip_req flip_ack release_srcptr : F) :
  (∀ c, 4 * raw_args (other_type c) ≤ 64) → ids_ok →
  ∃ hs, (hs ← register_handlers other_type handler;
         add_internal_handlers flip_req flip_ack release_srcptr hs) = Some hs ∧
    NoDup hs.*1 ∧ Forall (λ i, 128 ≤ i ≤ 255) hs.*1 ∧
    (∀ c, (mt_id (class_type other_type c), handler c) ∈ hs) ∧
    [(MSGID_FLIP_REQ, flip_req); (MSGID_FLIP_ACK, flip_ack); (MSGID_RELEASE_SRCPTR, release_srcptr)] ⊆ hs ∧
    ∀ m, short_args_supported (arg_words (mt_size (own_type m))) = true ∧
      if is_medium m then
        ∀ cfg mynode seg target st d mode dst hdr0 self cp n0 hdr n1 e w dest e' w' hdr',
        0 < gasnet_AMMaxLongRequest cfg < 2 ^ 32 → 0 < desc_size d < 2 ^ 31 → mode ≠ PAYLOAD_NONE →
        zlen st = (own_layout m).1 → Forall is_byte st →
        medium_request cfg mynode seg (own_type m) target st [] d mode dst = Some hdr0 →
        sourced self cp hdr0 n0 hdr n1 → is_u64 (payload hdr) →
        send_long cfg e w hdr dest = Some (e', w', hdr') →
        ∃ ps, sent w' = sent w ++ ps ∧ zlen ps = num_chunks cfg (desc_size d) ∧
          ∀ pkt, pkt ∈ ps → ∃ s k d' a,
            pkt = AMRequestLongAsync (peer e) (msgid (own_id m)) s k d' a ∧
            ∀ extra, typed (own_type m) (call_params (own_type m) a extra) =
              stamped st (next_outgoing_message_id e) (num_chunks cfg (desc_size d)) (release_ptr hdr)
      else ∀ cfg mynode seg target st e w extra,
        target ≠ mynode → zlen st = (own_layout m).1 → Forall is_byte st →
        raw_args (own_type m) ≤ arg_words (mt_size (own_type m)) + zlen extra →
        ∃ a, short_hop cfg mynode seg (own_type m) target st e w extra =
          Some (send_packet w (AMRequestShort (peer e) (msgid (own_id m)) a), peer e, st).
Proof.
  intros Hfit Hids. exists ((entry <$> message_classes) ++
    [(MSGID_FLIP_REQ, flip_req); (MSGID_FLIP_ACK, flip_ack); (MSGID_RELEASE_SRCPTR, release_srcptr)]).
  split_all.
  - unfold register_handlers. rewrite register_ok; [| |done].
    + cbn [mbind option_bind app]. unfold add_internal_handlers. by rewrite assert_true.
    + intros [m|m] _; [apply own_type_fits|apply Hfit].
  - rewrite fmap_app, <-list_fmap_compose. apply NoDup_app. split_all.
    + apply NoDup_fmap_2_strong; [|apply message_classes_nodup].
      intros c c' _ _. by apply class_id_inj.
    + intros i (c & -> & _)%list_elem_of_fmap Hi. pose proof (class_id_range c Hids) as Hr.
      unfold MSGID_RELEASE_SRCPTR in Hr. simpl in Hi.
      rewrite !elem_of_cons, elem_of_nil in Hi. unfold MSGID_FLIP_REQ, MSGID_FLIP_ACK, MSGID_RELEASE_SRCPTR in Hi.
      simpl in Hi. lia.
    + apply (bool_decide_unpack _). by vm_compute.
  - rewrite fmap_app, <-list_fmap_compose. apply Forall_app. split.
    + apply Forall_fmap, Forall_forall. intros c _. pose proof (class_id_range c Hids) as Hr.
      unfold MSGID_RELEASE_SRCPTR in Hr. simpl. lia.
    + repeat constructor; by vm_compute.
  - intros c. apply elem_of_app. left. apply list_elem_of_fmap. exists c. split; [done|].
    apply message_classes_all.
  - intros x Hx. apply elem_of_app. by right.
  - intros m. destruct (own_type_fits m) as (_ & Hs & Hm & Hsz & H4). split; [done|].
    destruct (is_medium m) eqn:Emed; [intros *; by apply own_medium_arrives|].
    intros cfg mynode seg target st e w extra Ht Hl Hb Hx. eexists.
    apply short_hop_delivers; [exact Ht|exact Hsz|exact Hl|exact H4|exact Hb|exact Hs|exact Hx].
Qed.

End installed.

(** The classes of other files in order from 204 on, each with a struct of two
    words: what a node then sends in a release of storage arrives. *)
Definition example_others : list OtherMessage :=
  omap (λ c, match c with Other m => Some m | Own _ => None end) message_classes.
Definition example_other_type (m : OtherMessage) : MsgType :=
  mkMsgType (204 + default 0 ((λ x, Z.of_nat x.1) <$> list_find (λ m', m = m') example_others)) 8 4 0.
Definition example_other_of (id : Z) : option OtherMessage := aget example_others (id - 204).

Lemma example_ids_ok : ids_ok example_other_type.
Proof.
  assert (∀ c, 204 ≤ mt_id (example_other_type c) < 250 ∧ example_other_of (mt_id (example_other_type c)) = Some c) as H.
  { intros c. destruct c; vm_compute; repeat split; discriminate. }
  split.
  - intros c. destruct (H c) as [Hc _]. unfold MSGID_RELEASE_SRCPTR. lia.
  - intros c m. destruct (H c) as [Hc _]. pose proof (own_id_range m). lia.
  - intros c c' E. destruct (H c) as [_ Hc], (H c') as [_ Hc']. rewrite E, Hc' in Hc. congruence.
Qed.

(** A piece of a remote write of 10 bytes, sent from the example node in three
    chunks. *)
Definition example_write : option (OutgoingMessage * Node) :=
  hdr ← medium_request example_cfg 0 (0, 0) (own_type RemoteWriteMessage) 1 (seqZ 1 40) []
          (DescContig 20000 10) PAYLOAD_COPY 0;
  reserve_srcdata 1 9000 hdr example_node.

Lemma handlers_installed_witness :
  (∃ hs, (hs ← register_handlers example_other_type (λ c, Some c);
         add_internal_handlers None None None hs) = Some hs ∧ NoDup hs.*1 ∧
    (203, Some (Own MemStorageReleaseResponse)) ∈ hs ∧ (204, Some (Other NodeAnnounceMessage)) ∈ hs) ∧
  match example_write with
  | Some (hdr, n) =>
      match send_long example_cfg example_ep (mkWire n ∅ []) hdr 100000 with
      | Some (_, w', _) => ∃ ps, sent w' = [] ++ ps ∧ zlen ps = 3 ∧
          ∀ pkt, pkt ∈ ps → ∃ s k d' a,
            pkt = AMRequestLongAsync 1 (msgid REMOTE_WRITE_MSGID) s k d' a ∧
            ∀ extra, typed (own_type RemoteWriteMessage) (call_params (own_type RemoteWriteMessage) a extra) =
              stamped (seqZ 1 40) 7 3 (release_ptr hdr)
      | None => False
      end
  | None => False
  end.
Proof.
  destruct (handlers_installed example_other_type (λ c, Some c) None None None)
    as (hs & E & Hn & _ & Hc & _ & Hown).
  - intros c. destruct c; vm_compute; discriminate.
  - exact example_ids_ok.
  - split.
    { exists hs. split_all; [exact E|exact Hn|exact (Hc (Own MemStorageReleaseResponse))|exact (Hc (Other NodeAnnounceMessage))]. }
    destruct (Hown RemoteWriteMessage) as [_ Hw].
    assert (bool_decide (is_Some example_write) = true) as Hx by (vm_compute; reflexivity).
    unfold example_write in *.
    destruct (medium_request example_cfg 0 (0, 0) (own_type RemoteWriteMessage) 1 (seqZ 1 40) []
          (DescContig 20000 10) PAYLOAD_COPY 0) as [hdr0|] eqn:Ereq; [|discriminate Hx].
    cbn [mbind option_bind] in *.
    destruct (reserve_srcdata 1 9000 hdr0 example_node) as [[hdr n]|] eqn:Eres; [|discriminate Hx].
    assert ((λ r, (payload_mode r.1, payload r.1, bool_decide (is_Some
        (send_long example_cfg example_ep (mkWire r.2 ∅ []) r.1 100000)))) <$>
      (hdr ← medium_request example_cfg 0 (0, 0) (own_type RemoteWriteMessage) 1 (seqZ 1 40) []
          (DescContig 20000 10) PAYLOAD_COPY 0; reserve_srcdata 1 9000 hdr example_node) =
      Some (PAYLOAD_SRCPTR, 5056, true)) as Hy by (vm_compute; reflexivity).
    rewrite Ereq in Hy. cbn [mbind option_bind] in Hy. rewrite Eres in Hy. injection Hy as Hmode Hpl Hs.
    destruct (send_long example_cfg example_ep (mkWire n ∅ []) hdr 100000)
      as [[[e' w'] hdr']|] eqn:Es; [|discriminate Hs].
    refine (Hw example_cfg 0 (0, 0) 1 (seqZ 1 40) (DescContig 20000 10) PAYLOAD_COPY 0 hdr0 1 9000
      example_node hdr n example_ep (mkWire n ∅ []) 100000 e' w' hdr' _ _ _ _ _ Ereq
      (sourced_at_once 1 9000 _ _ _ _ Eres _) _ Es); [simpl; lia|simpl; lia|done|done| |by rewrite Hmode|
      rewrite Hpl; unfold is_u64; lia].
    apply Forall_forall. intros x Hxx. apply elem_of_seqZ in Hxx. unfold is_byte. lia.
Defined.
