(* ===== verification/SendRequest.v ===== *)
(** * The short messages, member by member

    The [send_request] and [handle_request] functions of the short messages of
    src/templates/mem_impl.cc and src/templates/runtime_impl.cc: the first
    assign the members of a struct on the stack, the second read them from the
    struct GASNet's handler has rebuilt.  Members are stores and loads at their
    offsets in the bytes of the struct. *)

From S2P Require Import Prelude Words SrcDataPool Bytes Payload Endpoint EndpointManager Startup Messages RemoteAlloc Launch.

(** ** Members *)

(** Offset and size of each member. *)
Fixpoint member_offsets (pos : Z) (fields : list (Z * Z)) : list (Z * Z) :=
  match fields with
  | [] => []
  | (sz, al) :: fields => let off := round_up al pos in (off, sz) :: member_offsets (off + sz) fields
  end.

Definition members (m : OwnMessage) : list (Z * Z) := member_offsets (own_base m).1 (own_fields m).

(** [args.x = v], for the member in place [a.1]. *)
Definition assign (m : OwnMessage) (obj : list Z) (a : nat * Z) : list Z :=
  match members m !! a.1 with
  | Some (off, sz) => store_at (Z.to_nat off) (le_bytes (Z.to_nat sz) a.2) obj
  | None => obj
  end.

(** The member in place [i], as an unsigned number. *)
Definition member (m : OwnMessage) (obj : list Z) (i : nat) : Z :=
  match members m !! i with
  | Some (off, sz) => le_val (take (Z.to_nat sz) (drop (Z.to_nat off) obj))
  | None => 0
  end.

(** ** The messages *)

(** The members of each struct in the order of their declaration. *)
Inductive short_msg :=
| AllocReq (sender resp_ptr memory size : Z)
| AllocResp (resp_ptr offset : Z)
| WriteFence (mem sender sequence_id num_writes fence : Z)
| WriteFenceAck (fence : Z)
| ShutdownReq (initiating_node result_code : Z)
| IDReq (sender id_type count : Z)
| IDResp (responder id_type first_id last_id : Z)
| StorageAllocReq (memory inst bytes alignment offset precondition : Z)
| StorageAllocResp (inst offset : Z) (success : bool)
| StorageReleaseReq (memory inst precondition : Z)
| StorageReleaseResp (inst : Z).

Definition class_of (x : short_msg) : OwnMessage :=
  match x with
  | AllocReq _ _ _ _ => RemoteMemAllocRequest
  | AllocResp _ _ => RemoteMemAllocResponse
  | WriteFence _ _ _ _ _ => RemoteWriteFenceMessage
  | WriteFenceAck _ => RemoteWriteFenceAckMessage
  | ShutdownReq _ _ => RuntimeShutdownMessage
  | IDReq _ _ _ => RemoteIDRequestMessage
  | IDResp _ _ _ _ => RemoteIDResponseMessage
  | StorageAllocReq _ _ _ _ _ _ => MemStorageAllocRequest
  | StorageAllocResp _ _ _ => MemStorageAllocResponse
  | StorageReleaseReq _ _ _ => MemStorageReleaseRequest
  | StorageReleaseResp _ => MemStorageReleaseResponse
  end.

(** What [send_request] assigns, in its order. *)
Definition assignments (x : short_msg) : list (nat * Z) :=
  match x with
  | AllocReq sender resp_ptr memory size =>
      [(0%nat, sender); (1%nat, resp_ptr); (2%nat, memory); (3%nat, size)]
  | AllocResp resp_ptr offset => [(0%nat, resp_ptr); (1%nat, offset)]
  | WriteFence mem sender sequence_id num_writes fence =>
      [(0%nat, mem); (1%nat, sender); (2%nat, sequence_id); (3%nat, num_writes); (4%nat, fence)]
  | WriteFenceAck fence => [(0%nat, fence)]
  | ShutdownReq initiating_node result_code => [(0%nat, initiating_node); (1%nat, result_code)]
  | IDReq sender id_type count => [(0%nat, sender); (1%nat, id_type); (2%nat, count)]
  | IDResp responder id_type first_id last_id =>
      [(0%nat, responder); (1%nat, id_type); (2%nat, first_id); (3%nat, last_id)]
  | StorageAllocReq memory inst bytes alignment offset precondition =>
      [(0%nat, memory); (1%nat, inst); (2%nat, bytes); (3%nat, alignment); (5%nat, precondition); (4%nat, offset)]
  | StorageAllocResp inst offset success => [(0%nat, inst); (1%nat, offset); (2%nat, Z.b2z success)]
  | StorageReleaseReq memory inst precondition => [(0%nat, memory); (1%nat, inst); (2%nat, precondition)]
  | StorageReleaseResp inst => [(0%nat, inst)]
  end.

(** The struct, on a stack that holds [garbage]. *)
Definition send_args (x : short_msg) (garbage : list Z) : list Z :=
  foldl (assign (class_of x)) garbage (assignments x).

(** What [handle_request] finds in [args]; node ids, types and sequence numbers
    are unsigned, the other 32-bit members and offsets of the allocator are
    signed. *)
Definition handled_args (m : OwnMessage) (args : list Z) : option short_msg :=
  let x := member m args in
  match m with
  | RemoteMemAllocRequest => Some (AllocReq (i32 (x 0%nat)) (x 1%nat) (x 2%nat) (x 3%nat))
  | RemoteMemAllocResponse => Some (AllocResp (x 0%nat) (i64 (x 1%nat)))
  | RemoteWriteFenceMessage => Some (WriteFence (x 0%nat) (x 1%nat) (x 2%nat) (x 3%nat) (x 4%nat))
  | RemoteWriteFenceAckMessage => Some (WriteFenceAck (x 0%nat))
  | RuntimeShutdownMessage => Some (ShutdownReq (i32 (x 0%nat)) (i32 (x 1%nat)))
  | RemoteIDRequestMessage => Some (IDReq (x 0%nat) (x 1%nat) (i32 (x 2%nat)))
  | RemoteIDResponseMessage => Some (IDResp (x 0%nat) (x 1%nat) (x 2%nat) (x 3%nat))
  | MemStorageAllocRequest =>
      Some (StorageAllocReq (x 0%nat) (x 1%nat) (x 2%nat) (x 3%nat) (x 4%nat) (x 5%nat))
  | MemStorageAllocResponse => Some (StorageAllocResp (x 0%nat) (x 1%nat) (bool_decide (x 2%nat ≠ 0)))
  | MemStorageReleaseRequest => Some (StorageReleaseReq (x 0%nat) (x 1%nat) (x 2%nat))
  | MemStorageReleaseResponse => Some (StorageReleaseResp (x 0%nat))
  | _ => None
  end.

(** [send_request(target, ...)], and what [handle_request] is called with. *)
Definition send_short_msg (cfg : Config) (mynode : Z) (seg : Z * Z) (target : Z) (x : short_msg)
    (garbage : list Z) (e : Endpoint) (w : Wire) (extra : list Z) : option (Wire * Z * short_msg) :=
  '(w, dst, st) ← short_hop cfg mynode seg (own_type (class_of x)) target (send_args x garbage) e w extra;
  y ← handled_args (class_of x) st;
  Some (w, dst, y).

(** ** Loads and stores *)

Lemma load_store_eq off bs obj :
  (off + length bs ≤ length obj)%nat → take (length bs) (drop off (store_at off bs obj)) = bs.
Proof.
  intros H. unfold store_at. rewrite drop_app_ge by (rewrite length_take; lia).
  rewrite length_take, Nat.min_l, Nat.sub_diag by lia. rewrite drop_0. apply take_app_length.
Qed.

Lemma load_store_ne off bs obj o n :
  (off + length bs ≤ length obj)%nat → (o + n ≤ length obj)%nat →
  (o + n ≤ off ∨ off + length bs ≤ o)%nat → take n (drop o (store_at off bs obj)) = take n (drop o obj).
Proof.
  intros H Ho Hd. apply list_eq. intros i. destruct (decide (i < n)%nat) as [Hi|Hi].
  - rewrite !lookup_take_lt, !lookup_drop by done. unfold store_at.
    destruct (decide (o + i < off)%nat) as [Hlt|Hge].
    + rewrite lookup_app_l by (rewrite length_take; lia). by apply lookup_take_lt.
    + rewrite lookup_app_r by (rewrite length_take; lia). rewrite length_take, Nat.min_l by lia.
      rewrite lookup_app_r by lia. rewrite lookup_drop. f_equal. lia.
  - rewrite !lookup_take_ge by lia. done.
Qed.

(** Members lie in the struct and do not overlap. *)
Definition members_disjoint (m : OwnMessage) : bool :=
  forallb (λ '(i, (off, sz)),
    bool_decide (0 ≤ off ∧ 0 < sz ∧ off + sz ≤ mt_size (own_type m)) &&
    forallb (λ '(j, (off', sz')),
      bool_decide (i = j ∨ off + sz ≤ off' ∨ off' + sz' ≤ off)) (imap pair (members m)))
    (imap pair (members m)).

Lemma members_disjoint_all m : members_disjoint m = true.
Proof. by destruct m; vm_compute. Qed.

Lemma members_spec m i off sz :
  members m !! i = Some (off, sz) →
  (0 ≤ off ∧ 0 < sz ∧ off + sz ≤ mt_size (own_type m)) ∧
  ∀ j off' sz', members m !! j = Some (off', sz') → i ≠ j → off + sz ≤ off' ∨ off' + sz' ≤ off.
Proof.
  intros Hi. pose proof (members_disjoint_all m) as H. unfold members_disjoint in H.
  apply Is_true_eq_left in H. rewrite forallb_True, Forall_forall in H.
  assert (∀ i a, members m !! i = Some a → (i, a) ∈ imap pair (members m)) as Hin.
  { intros k a Hk. apply list_elem_of_lookup. exists k. by rewrite list_lookup_imap, Hk. }
  specialize (H _ (Hin _ _ Hi)). apply andb_prop_elim in H as [H1 H2].
  split; [by apply bool_decide_unpack in H1|]. intros j off' sz' Hj Hne.
  rewrite forallb_True, Forall_forall in H2. specialize (H2 _ (Hin _ _ Hj)).
  apply bool_decide_unpack in H2. by destruct H2 as [?|?].
Qed.

Section objects.
Context (m : OwnMessage).

Definition is_obj (obj : list Z) : Prop := zlen obj = mt_size (own_type m).

Lemma assign_obj a obj : is_obj obj → is_obj (assign m obj a).
Proof.
  unfold is_obj, assign, zlen. intros H. destruct (members m !! a.1) as [[off sz]|] eqn:E; [|done].
  destruct (members_spec _ _ _ _ E) as [Hr _]. rewrite store_at_length; [done|]. rewrite le_bytes_length. lia.
Qed.

Lemma assign_byte a obj : Forall is_byte obj → Forall is_byte (assign m obj a).
Proof.
  intros H. unfold assign. destruct (members m !! a.1) as [[off sz]|]; [|done].
  apply store_at_byte; [apply le_bytes_byte|done].
Qed.

Lemma member_assign_eq i v obj off sz :
  is_obj obj → members m !! i = Some (off, sz) → member m (assign m obj (i, v)) i = v `mod` 256 ^ sz.
Proof.
  unfold is_obj, zlen. intros Ho E. destruct (members_spec _ _ _ _ E) as [Hr _]. unfold member, assign. simpl.
  rewrite E. pose proof (load_store_eq (Z.to_nat off) (le_bytes (Z.to_nat sz) v) obj) as Hl.
  rewrite le_bytes_length in Hl. rewrite Hl, le_val_bytes by lia. by rewrite Z2Nat.id by lia.
Qed.

Lemma member_assign_ne i j v obj : is_obj obj → i ≠ j → member m (assign m obj (j, v)) i = member m obj i.
Proof.
  unfold is_obj, zlen. intros Ho Hne. unfold member, assign. simpl.
  destruct (members m !! i) as [[off sz]|] eqn:Ei; [|done]. destruct (members m !! j) as [[off' sz']|] eqn:Ej; [|done].
  destruct (members_spec _ _ _ _ Ei) as [Hi Hd], (members_spec _ _ _ _ Ej) as [Hj _].
  specialize (Hd _ _ _ Ej Hne). f_equal. apply load_store_ne; rewrite ?le_bytes_length; lia.
Qed.

Lemma assign_all_obj l : ∀ obj, is_obj obj → is_obj (foldl (assign m) obj l).
Proof. induction l as [|a l IH]; intros obj H; [done|]. by apply IH, assign_obj. Qed.

Lemma assign_all_byte l : ∀ obj, Forall is_byte obj → Forall is_byte (foldl (assign m) obj l).
Proof. induction l as [|a l IH]; intros obj H; [done|]. by apply IH, assign_byte. Qed.

Lemma member_assign_others l i : ∀ obj, is_obj obj → i ∉ l.*1 → member m (foldl (assign m) obj l) i = member m obj i.
Proof.
  induction l as [|[j v] l IH]; intros obj H Hi; [done|]. rewrite fmap_cons, not_elem_of_cons in Hi.
  simpl. rewrite IH by (tauto || by apply assign_obj). by apply member_assign_ne; [|tauto].
Qed.

(** Whatever the order of the assignments and the content of the stack. *)
Lemma member_assign_all l i v off sz : ∀ obj,
  is_obj obj → NoDup l.*1 → (i, v) ∈ l → members m !! i = Some (off, sz) →
  member m (foldl (assign m) obj l) i = v `mod` 256 ^ sz.
Proof.
  induction l as [|[j u] l IH]; intros obj H Hn Hin E; [by apply not_elem_of_nil in Hin|].
  rewrite fmap_cons in Hn. apply NoDup_cons in Hn as [Hj Hn]. simpl.
  apply elem_of_cons in Hin as [[= <- <-]|Hin]; [|apply IH; [by apply assign_obj|done..]].
  rewrite member_assign_others by (done || by apply assign_obj). by apply member_assign_eq with off.
Qed.

End objects.

(** ** Round trip *)

Definition is_u32 (z : Z) : Prop := 0 ≤ z < 2 ^ 32.

(** The members fit their types. *)
Definition msg_ok (x : short_msg) : Prop :=
  match x with
  | AllocReq sender resp_ptr memory size => is_i32 sender ∧ is_u64 resp_ptr ∧ is_u64 memory ∧ is_u64 size
  | AllocResp resp_ptr offset => is_u64 resp_ptr ∧ - 2 ^ 63 ≤ offset < 2 ^ 63
  | WriteFence mem sender sequence_id num_writes fence =>
      is_u64 mem ∧ is_u32 sender ∧ is_u32 sequence_id ∧ is_u32 num_writes ∧ is_u64 fence
  | WriteFenceAck fence => is_u64 fence
  | ShutdownReq initiating_node result_code => is_i32 initiating_node ∧ is_i32 result_code
  | IDReq sender id_type count => is_u32 sender ∧ is_u32 id_type ∧ is_i32 count
  | IDResp responder id_type first_id last_id =>
      is_u32 responder ∧ is_u32 id_type ∧ is_u64 first_id ∧ is_u64 last_id
  | StorageAllocReq memory inst bytes alignment offset precondition =>
      is_u64 memory ∧ is_u64 inst ∧ is_u64 bytes ∧ is_u64 alignment ∧ is_u64 offset ∧ is_u64 precondition
  | StorageAllocResp inst offset _ => is_u64 inst ∧ is_u64 offset
  | StorageReleaseReq memory inst precondition => is_u64 memory ∧ is_u64 inst ∧ is_u64 precondition
  | StorageReleaseResp inst => is_u64 inst
  end.

Lemma assignments_nodup x : NoDup (assignments x).*1.
Proof. destruct x; simpl; repeat (apply NoDup_cons; split; [set_solver|]); apply NoDup_nil_2. Qed.

(** The member is the value assigned, cut to its width. *)
Lemma member_sent x garbage i v off sz :
  is_obj (class_of x) garbage → (i, v) ∈ assignments x → members (class_of x) !! i = Some (off, sz) →
  member (class_of x) (send_args x garbage) i = v `mod` 256 ^ sz.
Proof. intros H Hin E. eapply member_assign_all; [done|apply assignments_nodup|done|exact E]. Qed.

Lemma mod_u64 z : is_u64 z → z `mod` 256 ^ 8 = z.
Proof. intros H. apply Z.mod_small. exact H. Qed.
Lemma mod_u32 z : is_u32 z → z `mod` 256 ^ 4 = z.
Proof. intros H. apply Z.mod_small. exact H. Qed.
Lemma mod_i32 z : is_i32 z → i32 (z `mod` 256 ^ 4) = z.
Proof. apply i32_u32. Qed.
Lemma mod_i64 z : - 2 ^ 63 ≤ z < 2 ^ 63 → i64 (z `mod` 256 ^ 8) = z.
Proof. apply i64_u64. Qed.

(** A member of a message that was sent: the value assigned fits. *)
Ltac read_member Hm :=
  lazymatch goal with
  | |- member _ _ ?i = ?v => rewrite (Hm i v _ _ ltac:(simpl; set_solver +) eq_refl)
  | |- i32 (member _ _ ?i) = ?v => rewrite (Hm i v _ _ ltac:(simpl; set_solver +) eq_refl)
  | |- i64 (member _ _ ?i) = ?v => rewrite (Hm i v _ _ ltac:(simpl; set_solver +) eq_refl)
  | |- bool_decide (member _ _ ?i ≠ 0) = ?v => rewrite (Hm i (Z.b2z v) _ _ ltac:(simpl; set_solver +) eq_refl)
  end;
  first [by apply mod_u64 | by apply mod_u32 | by apply mod_i32 | by apply mod_i64 | by match goal with b : bool |- _ => destruct b end].

Lemma handled_sent x garbage :
  is_obj (class_of x) garbage → msg_ok x → handled_args (class_of x) (send_args x garbage) = Some x.
Proof.
  intros Hg Hok.
  assert (∀ i v off sz, (i, v) ∈ assignments x → members (class_of x) !! i = Some (off, sz) →
    member (class_of x) (send_args x garbage) i = v `mod` 256 ^ sz) as Hm
    by (intros i v off sz; by apply member_sent).
  destruct x; cbn [class_of handled_args msg_ok] in *; destruct_and?; f_equal; f_equal; read_member Hm.
Qed.

(** C16. A short message of the memories or of the runtime arrives with the
    members it was sent with: the struct [send_request] fills on a stack with
    any content, whatever the order in which it assigns the members and however
    they are padded, reaches the target in one packet under the id of its class,
    and [handle_request] reads from it the very values, negative ones included,
    whatever the arguments hold that were not sent. *)
Theorem short_msg_roundtrip cfg mynode seg target x garbage e w extra :
  target ≠ mynode → msg_ok x → zlen garbage = mt_size (own_type (class_of x)) → Forall is_byte garbage →
  raw_args (own_type (class_of x)) ≤ arg_words (mt_size (own_type (class_of x))) + zlen extra →
  ∃ args, send_short_msg cfg mynode seg target x garbage e w extra =
    Some (send_packet w (AMRequestShort (peer e) (msgid (own_id (class_of x))) args), peer e, x).
Proof.
  intros Ht Hok Hg Hb Hx. destruct (own_type_fits (class_of x)) as (_ & Hs & _ & Hsz & H4).
  eexists. unfold send_short_msg. rewrite short_hop_delivers; [|exact Ht|exact Hsz| |exact H4| |exact Hs|exact Hx].
  - simpl. rewrite handled_sent by done. reflexivity.
  - by apply assign_all_obj.
  - by apply assign_all_byte.
Qed.

(** The fence after 5 writes of sequence 7, from node 0 to node 1, on a stack
    full of nines. *)
Lemma short_msg_roundtrip_witness :
  ∃ args, send_short_msg example_cfg 0 (0, 0) 1 (WriteFence 2 0 7 5 140733193388032) (replicate 32 9) example_ep
      example_wire [] =
    Some (send_packet example_wire (AMRequestShort 1 165 args), 1, WriteFence 2 0 7 5 140733193388032).
Proof.
  refine (short_msg_roundtrip example_cfg 0 (0, 0) 1 (WriteFence 2 0 7 5 140733193388032) (replicate 32 9)
    example_ep example_wire [] _ _ _ _ _).
  - done.
  - simpl. unfold is_u64, is_u32. lia.
  - reflexivity.
  - apply Forall_replicate. unfold is_byte. lia.
  - vm_compute. discriminate.
Defined.
