(* ===== verification/Timing.v ===== *)
(** * Message timing and handler statistics

    The two recorders of src/templates/activemsg.cc that are compiled in on
    request: [DetailedMessageTiming], whose threads claim a slot with an atomic
    counter and fill it in without a lock, and [ActiveMsgHandlerStats]. *)

From S2P Require Import Prelude.

(** ** Detailed timing *)

Definition DEFAULT_MESSAGE_MAX_COUNT : Z := Z.shiftl 4 20.

Record MessageTimingData := mkTiming {
  mtd_msg_id : Z; mtd_write_lmb : Z; mtd_target : Z; mtd_msg_size : Z;
  mtd_start : Z; mtd_dur_nsec : Z; mtd_queue_depth : Z }.

Record DetailedMessageTiming := mkDmt {
  dmt_path : bool;            (* LEGION_MESSAGE_TIMING_PATH is set *)
  message_count : Z;
  message_max_count : Z;
  message_timing : list MessageTimingData }.

(** [max] is the value of LEGION_MESSAGE_TIMING_MAX; [fresh] what "new" leaves
    in the slots. *)
Definition DetailedMessageTiming_init (path : bool) (max : option Z) (fresh : MessageTimingData)
    : DetailedMessageTiming :=
  if path then
    let n := i32 (default DEFAULT_MESSAGE_MAX_COUNT max) in
    mkDmt true 0 n (replicate (Z.to_nat n) fresh)
  else mkDmt false 0 0 [].

Definition get_next_index (t : DetailedMessageTiming) : DetailedMessageTiming * Z :=
  if decide (message_max_count t ≠ 0) then
    (mkDmt (dmt_path t) (i32 (message_count t + 1)) (message_max_count t) (message_timing t),
     message_count t)
  else (t, -1).

(** The duration is cut off at the largest [unsigned]. *)
Definition duration (t_start t_end : Z) : Z :=
  let delta := u64 (t_end - t_start) in
  if decide (delta > 2 ^ 32 - 1) then 2 ^ 32 - 1 else delta.

Definition timing_data (peer msg_id write_lmb msg_size queue_depth t_start t_end : Z) : MessageTimingData :=
  mkTiming msg_id write_lmb (peer `mod` 2 ^ 16) msg_size t_start (duration t_start t_end) queue_depth.

Definition record (t : DetailedMessageTiming) (index : Z) (d : MessageTimingData) : DetailedMessageTiming :=
  if decide (0 ≤ index ∧ index < message_max_count t) then
    mkDmt (dmt_path t) (message_count t) (message_max_count t) (aset (message_timing t) index d)
  else t.

(** What is written: nothing without a path, the filled part of the table
    otherwise; [to_write] is its size in bytes, which [write] returns unless it
    is negative. *)
Definition SIZEOF_MESSAGE_TIMING_DATA : Z := 24.

Definition to_write (t : DetailedMessageTiming) : Z :=
  let count := message_count t in
  let count := if decide (count > message_max_count t) then message_max_count t else count in
  i64 (u64 (count * SIZEOF_MESSAGE_TIMING_DATA)).

Definition dump_detailed_timing_data (t : DetailedMessageTiming) : option (list MessageTimingData) :=
  if dmt_path t then
    if decide (to_write t ≠ 0) then
      assert! 0 ≤ to_write t;
      Some (take (Z.to_nat (to_write t `div` SIZEOF_MESSAGE_TIMING_DATA)) (message_timing t))
    else Some []
  else Some [].

(** *** Threads

    A thread claims an index and records its message later; the events of all
    threads interleave. *)
Inductive timing_event := Claim | Record_ (index : Z) (d : MessageTimingData).

Fixpoint timing_run (t : DetailedMessageTiming) (l : list timing_event)
    : DetailedMessageTiming * list Z :=
  match l with
  | [] => (t, [])
  | Claim :: l =>
      let '(t, i) := get_next_index t in let '(t, is_) := timing_run t l in (t, i :: is_)
  | Record_ i d :: l => timing_run (record t i d) l
  end.

Definition records (l : list timing_event) : list (Z * MessageTimingData) :=
  l ≫= λ e, match e with Record_ i d => [(i, d)] | Claim => [] end.
Definition claims (l : list timing_event) : list timing_event :=
  l ≫= λ e, match e with Record_ _ _ => [] | Claim => [Claim] end.

Lemma timing_run_spec l : ∀ t,
  0 ≤ message_count t → message_max_count t ≠ 0 → message_count t + zlen (claims l) < 2 ^ 31 →
  let '(t', is_) := timing_run t l in
  is_ = seqZ (message_count t) (zlen (claims l)) ∧
  message_count t' = message_count t + zlen (claims l) ∧
  message_max_count t' = message_max_count t ∧ dmt_path t' = dmt_path t ∧
  message_timing t' = foldl (λ m e, if decide (0 ≤ e.1 ∧ e.1 < message_max_count t) then aset m e.1 e.2 else m)
    (message_timing t) (records l).
Proof.
  induction l as [|e l IH]; intros t H0 Hm Hl; cbn [timing_run].
  { change (zlen (claims [])) with 0. by rewrite Z.add_0_r. }
  destruct e as [|i d].
  - unfold get_next_index. rewrite decide_True by done.
    change (claims (Claim :: l)) with (Claim :: claims l) in Hl.
    change (claims (Claim :: l)) with (Claim :: claims l). change (records (Claim :: l)) with (records l).
    rewrite zlen_cons in *. pose proof (zlen_nonneg (claims l)) as Hn.
    specialize (IH (mkDmt (dmt_path t) (i32 (message_count t + 1)) (message_max_count t) (message_timing t))).
    cbn [message_count message_max_count dmt_path message_timing] in IH.
    rewrite i32_id in * by (unfold is_i32; lia). specialize (IH ltac:(lia) Hm ltac:(lia)).
    destruct (timing_run _ l) as [t' is_]. destruct IH as (-> & -> & -> & -> & ->).
    split_all; try done; [|lia]. rewrite (seqZ_cons (message_count t)) by lia. f_equal. f_equal; lia.
  - change (claims (Record_ i d :: l)) with (claims l) in *.
    change (records (Record_ i d :: l)) with ((i, d) :: records l). cbn [foldl fst snd].
    assert (message_count (record t i d) = message_count t ∧ message_max_count (record t i d) = message_max_count t ∧
      dmt_path (record t i d) = dmt_path t ∧ message_timing (record t i d) =
        if decide (0 ≤ i ∧ i < message_max_count t) then aset (message_timing t) i d else message_timing t)
      as (E1 & E2 & E3 & E4) by (unfold record; by case_decide).
    specialize (IH (record t i d)). rewrite E1, E2, E3, E4 in IH. apply IH; done.
Qed.

(** Slots are written once each, so the order of the writes does not matter. *)
Lemma slots_written max (rs : list (Z * MessageTimingData)) : ∀ m,
  NoDup rs.*1 → (∀ i d, (i, d) ∈ rs → 0 ≤ i) → zlen m = max →
  let m' := foldl (λ m e, if decide (0 ≤ e.1 ∧ e.1 < max) then aset m e.1 e.2 else m) m rs in
  zlen m' = max ∧ (∀ i d, (i, d) ∈ rs → i < max → aget m' i = Some d) ∧
  (∀ i, i ∉ rs.*1 → aget m' i = aget m i).
Proof.
  induction rs as [|[i d] rs IH] using rev_ind; intros m Hn Hr Hm; simpl.
  { split_all; [done| |done]. by intros i d ?%elem_of_nil. }
  rewrite fmap_app in Hn. apply NoDup_app in Hn as (Hn & Hd & _).
  destruct (IH m Hn) as (Hl & Hin & Hout); [|done|].
  { intros j e Hj. apply (Hr j e). apply elem_of_app. by left. }
  rewrite foldl_snoc. cbn [fst snd]. set (m1 := foldl _ m rs) in *.
  assert (0 ≤ i) as Hi by (apply (Hr i d), elem_of_app; right; by left).
  assert (i ∉ rs.*1) as Hni by (intros Hx; apply (Hd i Hx); by left).
  assert (∀ j, j ≠ i → aget (if decide (0 ≤ i ∧ i < max) then aset m1 i d else m1) j = aget m1 j) as Hne.
  { intros j Hj. case_decide; [|done]. by apply aget_aset_ne. }
  split_all.
  - case_decide; [|done]. unfold zlen in *. by rewrite aset_length.
  - intros j e [Hj|[= -> ->]%list_elem_of_singleton]%elem_of_app Hlt.
    + rewrite Hne; [by apply Hin|]. intros ->. by apply Hni, (list_elem_of_fmap_2 fst _ (i, e)).
    + rewrite decide_True by lia. apply aget_aset_eq. lia.
  - intros j Hj. rewrite fmap_app, elem_of_app in Hj. rewrite Hne; [apply Hout; tauto|].
    intros ->. apply Hj. right. by left.
Qed.

(** The timing file has every message once.  With recording on, while fewer
    than 2^31 messages are timed: however the threads' claims and records
    interleave, no two get the same slot; a message is recorded after its
    claim; and the file then has the first messages, up to the limit, each in
    the slot of its number, whatever the order of the records; later ones are
    left out, and nothing is written past the table. *)
Lemma timing_file_complete max fresh l :
  0 < max < 2 ^ 31 → zlen (claims l) < 2 ^ 31 →
  NoDup (records l).*1 → (∀ i d, (i, d) ∈ records l → 0 ≤ i < zlen (claims l)) →
  ∃ t out, timing_run (DetailedMessageTiming_init true (Some max) fresh) l = (t, seqZ 0 (zlen (claims l))) ∧
    dump_detailed_timing_data t = Some out ∧ zlen out = Z.min (zlen (claims l)) max ∧
    zlen (message_timing t) = max ∧
    (∀ i d, (i, d) ∈ records l → i < max → aget out i = Some d).
Proof.
  intros Hmax Hc Hn Hr. unfold DetailedMessageTiming_init.
  change (default DEFAULT_MESSAGE_MAX_COUNT (Some max)) with max. rewrite (i32_id max) by (unfold is_i32; lia).
  pose proof (timing_run_spec l (mkDmt true 0 max (replicate (Z.to_nat max) fresh))) as Hs.
  cbn [message_count message_max_count dmt_path message_timing] in Hs.
  specialize (Hs ltac:(lia) ltac:(lia) ltac:(lia)).
  destruct (timing_run _ l) as [t is_]. destruct Hs as (-> & Hcount & Hmm & Hp & Ht).
  destruct (slots_written max (records l) (replicate (Z.to_nat max) fresh) Hn) as (Hl & Hin & _).
  { intros i d Hi. apply (Hr i d Hi). }
  { unfold zlen. rewrite length_replicate. lia. }
  rewrite <- Ht in Hl, Hin. pose proof (zlen_nonneg (claims l)) as H0.
  assert (to_write t = Z.min (zlen (claims l)) max * 24) as Hw.
  { unfold to_write. rewrite Hcount, Hmm, Z.add_0_l. unfold SIZEOF_MESSAGE_TIMING_DATA.
    rewrite u64_id, i64_id; [case_decide; lia| |]; unfold is_u64; case_decide; lia. }
  exists t. unfold dump_detailed_timing_data. rewrite Hp, Hw.
  case_decide as Hz.
  - rewrite assert_true by lia. unfold SIZEOF_MESSAGE_TIMING_DATA. rewrite Z.div_mul by done.
    eexists. split_all; [done|done| |done|].
    + unfold zlen in *. rewrite length_take. lia.
    + intros i d Hi Hlt. specialize (Hin i d Hi Hlt). specialize (Hr i d Hi).
      unfold aget in *. rewrite decide_True in * by lia. by rewrite lookup_take_lt by lia.
  - exists []. split_all; [done|done|change (0 = Z.min (zlen (claims l)) max); lia|done|].
    intros i d Hi Hlt. specialize (Hr i d Hi). lia.
Qed.

(** When 2^31 messages have been timed the counter is negative and writing the
    file fails its assertion. *)
Lemma timing_counter_overflow max m :
  0 < max < 2 ^ 31 →
  let t := (get_next_index (mkDmt true (2 ^ 31 - 1) max m)).1 in
  message_count t = - 2 ^ 31 ∧ dump_detailed_timing_data t = None.
Proof.
  intros Hmax. cbv zeta. unfold get_next_index. cbn [message_max_count]. rewrite decide_True by lia.
  cbn [fst]. split; [done|]. unfold dump_detailed_timing_data, to_write.
  cbn [dmt_path message_count message_max_count].
  assert (i32 (2 ^ 31 - 1 + 1) = - 2 ^ 31) as -> by done. rewrite (decide_False (P := - 2 ^ 31 > max)) by lia.
  done.
Qed.

(** ** Handler statistics *)

Record ActiveMsgHandlerStats := mkStats {
  st_count : Z; st_sum : Z; st_sum2 : Z; st_minval : Z; st_maxval : Z }.

Definition ActiveMsgHandlerStats_init : ActiveMsgHandlerStats := mkStats 0 0 0 0 0.

(** A [timespec] is seconds and nanoseconds. *)
Definition stats_record (s : ActiveMsgHandlerStats) (ts_start ts_end : Z * Z) : ActiveMsgHandlerStats :=
  let val := u64 (1000000000 * (ts_end.1 - ts_start.1) + ts_end.2 - ts_start.2) in
  mkStats (u64 (st_count s + 1)) (u64 (st_sum s + val)) (u64 (st_sum2 s + u64 (val * val)))
    (if decide (st_count s = 0 ∨ val < st_minval s) then val else st_minval s)
    (if decide (st_count s = 0 ∨ val > st_maxval s) then val else st_maxval s).

(** The intervals, as long as they and their sums fit. *)
Definition interval (ts : (Z * Z) * (Z * Z)) : Z :=
  1000000000 * (ts.2.1 - ts.1.1) + ts.2.2 - ts.1.2.

(** Recording computes the statistics. *)
Lemma stats_correct l :
  l ≠ [] → Forall (λ ts, 0 ≤ interval ts) l →
  zlen l < 2 ^ 64 → Zsum (interval <$> l) < 2 ^ 64 → Zsum ((λ ts, interval ts * interval ts) <$> l) < 2 ^ 64 →
  let s := foldl (λ s ts, stats_record s ts.1 ts.2) ActiveMsgHandlerStats_init l in
  st_count s = zlen l ∧ st_sum s = Zsum (interval <$> l) ∧
  st_sum2 s = Zsum ((λ ts, interval ts * interval ts) <$> l) ∧
  st_minval s ∈ interval <$> l ∧ st_maxval s ∈ interval <$> l ∧
  Forall (λ ts, st_minval s ≤ interval ts ≤ st_maxval s) l.
Proof.
  induction l as [|ts l IH] using rev_ind; [done|]. intros _ Hall Hlen Hsum Hsum2.
  apply Forall_app in Hall as [Hall Hts]. apply Forall_cons in Hts as [Hts _]. cbv beta in Hts.
  rewrite fmap_app, Zsum_app in Hsum, Hsum2. rewrite zlen_app in Hlen. change (zlen [ts]) with 1 in Hlen.
  change (Zsum (interval <$> [ts])) with (interval ts + 0) in Hsum.
  change (Zsum ((λ ts, interval ts * interval ts) <$> [ts])) with (interval ts * interval ts + 0) in Hsum2.
  rewrite !fmap_app, !Zsum_app, zlen_app, foldl_snoc. change (zlen [ts]) with 1.
  change (Zsum (interval <$> [ts])) with (interval ts + 0).
  change (Zsum ((λ ts, interval ts * interval ts) <$> [ts])) with (interval ts * interval ts + 0).
  pose proof (zlen_nonneg l) as H0.
  assert (0 ≤ Zsum (interval <$> l)) as H1 by (apply Zsum_nonneg, Forall_fmap, Hall).
  assert (0 ≤ Zsum ((λ ts, interval ts * interval ts) <$> l)) as H2.
  { apply Zsum_nonneg, Forall_fmap. eapply Forall_impl; [exact Hall|]. intros x Hx. simpl in *. nia. }
  assert (is_u64 (interval ts)) as Hi by (unfold is_u64; lia).
  assert (is_u64 (interval ts * interval ts)) as Hi2 by (unfold is_u64; nia).
  cbv zeta. destruct (decide (l = [])) as [->|Hne].
  - cbn [foldl]. unfold stats_record. fold (interval ts). cbn [st_count st_sum st_sum2 st_minval st_maxval].
    rewrite (u64_id (interval ts)), (u64_id (interval ts * interval ts)) by done.
    rewrite !decide_True by (by left). unfold ActiveMsgHandlerStats_init. cbn [st_count st_sum st_sum2].
    rewrite !Z.add_0_l, !u64_id by done. change (Zsum (interval <$> [])) with 0.
    change (Zsum ((λ ts, interval ts * interval ts) <$> [])) with 0.
    split_all; try lia; [by left|by left|]. apply Forall_singleton. lia.
  - destruct (IH Hne Hall) as (Ec & Es & Es2 & Hmin & Hmax & Hb); [lia..|].
    set (s := foldl _ _ l) in *. unfold stats_record.
    fold (interval ts). rewrite (u64_id (interval ts)) by done.
    cbn [st_count st_sum st_sum2 st_minval st_maxval]. rewrite Ec, Es, Es2.
    assert (zlen l ≠ 0) as Hz by (destruct l; [done|rewrite zlen_cons; pose proof (zlen_nonneg l); lia]).
    rewrite (u64_id (interval ts * interval ts)) by done.
    rewrite !u64_id by (unfold is_u64; lia). split_all; [lia|lia|lia| | |].
    + rewrite elem_of_app. case_decide; [right; by left|by left].
    + rewrite elem_of_app. case_decide; [right; by left|by left].
    + apply Forall_app. split.
      * eapply Forall_impl; [exact Hb|]. intros x Hx. simpl in *. repeat case_decide; lia.
      * apply Forall_singleton. repeat case_decide; lia.
Qed.
