(* ===== verification/Collective.v ===== *)
(** * Collective spawns

    [collective_spawn], [collective_spawn_by_kind] and [run] of
    src/templates/runtime_impl.cc.  Every node runs the same code; the nodes
    meet in GASNet's gather and broadcast operations and spawn tasks in
    between.  A node is a program over these operations, and the machine steps
    by any node's spawn or by a collective that all nodes have reached.
    Events and the spawning of a task are an interface, with the order in
    which events trigger as its laws. *)

From S2P Require Import Prelude.

(** ** Events *)

(** [Event::exists], [Event::merge_events] of a [std::set] and
    [Processor::spawn], which returns the finish event of a task. *)
Class EventOps (Ev : Type) `{Countable Ev} := {
  no_event : Ev;
  ev_exists : Ev → bool;
  merge_events : gset Ev → Ev;
  spawn : Z → Z → list Z → Ev → Z → Ev }.   (* processor, task, args, precondition, priority *)

(** [ev_before a b]: when [b] has triggered, so has [a].  A merged event
    triggers when the last of its inputs does, and a task finishes after its
    precondition. *)
Class EventLaws (Ev : Type) `{EventOps Ev} := {
  ev_before : relation Ev;
  ev_before_pre : PreOrder ev_before;
  ev_not_exists : ∀ e, ev_exists e = false → e = no_event;
  no_event_before : ∀ e, ev_before no_event e;
  merge_after : ∀ s e, e ∈ s → ev_before e (merge_events s);
  merge_least : ∀ s e, (∀ x, x ∈ s → ev_before x e) → ev_before (merge_events s) e;
  spawn_after : ∀ p f a pre prio, ev_before pre (spawn p f a pre prio) }.
#[global] Existing Instance ev_before_pre.

(** ** Programs of a node *)

Section collective.
Context {Ev : Type} `{EventOps Ev}.

(** One call of [spawn]. *)
Record task := mkTask {
  t_proc : Z;
  t_func : Z;
  t_args : list Z;
  t_pre : Ev;
  t_prio : Z }.
Definition t_finish (t : task) : Ev :=
  spawn (t_proc t) (t_func t) (t_args t) (t_pre t) (t_prio t).

(** What a broadcast carries: an event, or one of the values the nodes are
    checked to agree on. *)
Inductive bval := BEvent (e : Ev) | BInt (z : Z).
#[global] Instance bval_eq_dec : EqDecision bval.
Proof. solve_decision. Defined.

(** The continuation of a gather gets all values on the root and nothing
    elsewhere; the value a node passes to a broadcast matters on the root
    only. *)
Inductive prog :=
| Ret (e : Ev)
| Spawn (t : task) (k : Ev → prog)
| Gather (root : Z) (v : Ev) (k : list Ev → prog)
| Broadcast (root : Z) (v : bval) (k : bval → prog)
| Abort.

(** [DEBUG_COLLECTIVES] is defined: node 0's value is compared. *)
Definition broadcast_check (v : Z) (k : prog) : prog :=
  Broadcast 0 (BInt v) (λ b, if decide (b = BInt v) then k else Abort).

Definition broadcast_event (root : Z) (e : Ev) (k : Ev → prog) : prog :=
  Broadcast root (BEvent e) (λ b, match b with BEvent e => k e | BInt _ => Abort end).

(** The loop over [all_events] and the merge. *)
Definition merge_all (all_events : list Ev) : Ev :=
  merge_events (list_to_set (filter (λ e, ev_exists e = true) all_events)).

(** ** The collective operations *)

(** [owner] is the owner node of a processor's identifier. *)
Definition collective_spawn (owner : Z → Z) (my_node_id target_proc task_id : Z) (args : list Z)
    (wait_on : Ev) (priority : Z) (k : Ev → prog) : prog :=
  broadcast_check target_proc (broadcast_check task_id (broadcast_check priority (
  let root := owner target_proc in
  if decide (my_node_id = root) then
    Gather root wait_on (λ all_events,
      let merged_event := merge_all all_events in
      Spawn (mkTask target_proc task_id args merged_event priority) (λ finish_event,
        broadcast_event root finish_event k))
  else
    Gather root wait_on (λ _, broadcast_event root no_event k)))).

(** [Processor::NO_KIND] *)
Context (NO_KIND : Z).

(** The processors of the loop that get a task, with the early [break]. *)
Fixpoint chosen (target_kind : Z) (one_per_node : bool) (local_procs : list (Z * Z)) : list Z :=
  match local_procs with
  | [] => []
  | (me, kind) :: ps =>
      if decide (target_kind = NO_KIND ∨ kind = target_kind) then
        me :: (if one_per_node then [] else chosen target_kind one_per_node ps)
      else chosen target_kind one_per_node ps
  end.

(** Spawning on them, collecting the finish events. *)
Fixpoint spawn_each (procs : list Z) (task_id : Z) (args : list Z) (pre : Ev) (priority : Z)
    (event_set : list Ev) (k : list Ev → prog) : prog :=
  match procs with
  | [] => k event_set
  | p :: ps =>
      Spawn (mkTask p task_id args pre priority) (λ e,
        spawn_each ps task_id args pre priority (event_set ++ [e]) k)
  end.

(** Gather the nodes' events on node 0, merge them, and broadcast the
    result. *)
Definition merge_round (my_node_id : Z) (v : Ev) (k : Ev → prog) : prog :=
  if decide (my_node_id = 0) then
    Gather 0 v (λ all_events, broadcast_event 0 (merge_all all_events) k)
  else
    Gather 0 v (λ _, broadcast_event 0 no_event k).

Definition collective_spawn_by_kind (my_node_id : Z) (local_procs : list (Z * Z))
    (target_kind task_id : Z) (args : list Z) (one_per_node : bool) (wait_on : Ev)
    (priority : Z) (k : Ev → prog) : prog :=
  broadcast_check target_kind (broadcast_check task_id
    (broadcast_check (Z.b2z one_per_node) (broadcast_check priority (
  merge_round my_node_id wait_on (λ merged_event,
    spawn_each (chosen target_kind one_per_node local_procs) task_id args merged_event priority []
      (λ event_set,
        let my_finish := merge_all event_set in
        merge_round my_node_id my_finish k)))))).

Inductive RunStyle := ONE_TASK_ONLY | ONE_TASK_PER_NODE | ONE_TASK_PER_PROC.
#[global] Instance RunStyle_eq_dec : EqDecision RunStyle.
Proof. solve_decision. Defined.

(** [Processor::TASK_ID_PROCESSOR_INIT] *)
Context (TASK_ID_PROCESSOR_INIT : Z).
Definition INT_MAX : Z := 2 ^ 31 - 1.

(** The steps of [run] before it waits for the shutdown; [first_proc] is
    [nodes[0].processors[0]->me]. *)
Definition run (owner : Z → Z) (my_node_id : Z) (local_procs : list (Z * Z)) (first_proc : Z)
    (task_id : Z) (style : RunStyle) (args : list Z) (k : Ev → prog) : prog :=
  collective_spawn_by_kind my_node_id local_procs NO_KIND TASK_ID_PROCESSOR_INIT [] false
    no_event INT_MAX (λ init_event,
  if decide (task_id ≠ 0) then
    if decide (style = ONE_TASK_ONLY) then
      collective_spawn owner my_node_id first_proc task_id args init_event 0 k
    else
      collective_spawn_by_kind my_node_id local_procs NO_KIND task_id args
        (bool_decide (style = ONE_TASK_PER_NODE)) init_event 0 k
  else k init_event).

(** ** The machine *)

(** A node: what it has left to do, and the tasks it spawned. *)
Abbreviation nodest := (prog * list task)%type.

Definition as_gather (root : Z) (x : nodest) : option (Ev * (list Ev → prog) * list task) :=
  match x with
  | (Gather r v k, log) => if decide (r = root) then Some (v, k, log) else None
  | _ => None
  end.

Definition as_broadcast (root : Z) (x : nodest) : option (bval * (bval → prog) * list task) :=
  match x with
  | (Broadcast r v k, log) => if decide (r = root) then Some (v, k, log) else None
  | _ => None
  end.

Definition gather_result (root : Z) (l : list (Ev * (list Ev → prog) * list task))
    : list nodest :=
  let all := (λ x : Ev * (list Ev → prog) * list task, x.1.1) <$> l in
  imap (λ i x, (x.1.2 (if decide (Z.of_nat i = root) then all else []), x.2)) l.

Definition broadcast_result (root : Z) (l : list (bval * (bval → prog) * list task))
    : option (list nodest) :=
  r ← aget l root;
  Some ((λ x : bval * (bval → prog) * list task, (x.1.2 r.1.1, x.2)) <$> l).

(** A collective takes place when every node has called it with the same
    root. *)
Definition coll_step (c : list nodest) : option (list nodest) :=
  match c with
  | (Gather root _ _, _) :: _ =>
      assert! 0 ≤ root < zlen c;
      l ← mapM (as_gather root) c; Some (gather_result root l)
  | (Broadcast root _ _, _) :: _ =>
      l ← mapM (as_broadcast root) c; broadcast_result root l
  | _ => None
  end.

Inductive local : nodest → nodest → Prop :=
| local_spawn t k log : local (Spawn t k, log) (k (t_finish t), log ++ [t]).

Definition lstep (c c' : list nodest) : Prop :=
  ∃ i x y, c !! i = Some x ∧ local x y ∧ c' = <[i:=y]> c.

Inductive step (c c' : list nodest) : Prop :=
| step_local : lstep c c' → step c c'
| step_coll : coll_step c = Some c' → step c c'.

(** ** Executions

    Spawns of different nodes commute, and a collective excludes them, so all
    executions that start in the same way end in the same way. *)

Lemma local_det x y y' : local x y → local x y' → y = y'.
Proof. intros H1 H2. inv H1. by inv H2. Qed.

Lemma local_not_coll c c' i x y :
  coll_step c = Some c' → c !! i = Some x → local x y → False.
Proof.
  intros Hc Hi Hl. inv Hl. destruct c as [|[p log0] c]; [done|].
  destruct p as [| |root v k0|root v k0|]; try done; cbn [coll_step] in Hc; asserts.
  all: match goal with Hm : mapM _ _ = Some _ |- _ => apply mapM_Some in Hm;
    eapply Forall2_lookup_l in Hm as (z & _ & Hz); [|exact Hi] end; done.
Qed.

Lemma step_diamond c c1 c2 :
  step c c1 → step c c2 → c1 = c2 ∨ ∃ d, step c1 d ∧ step c2 d.
Proof.
  intros [(i & x & y & Hi & Hl & ->)|E1] [(j & x' & y' & Hj & Hl' & ->)|E2].
  - destruct (decide (i = j)) as [->|Hne].
    + left. simplify_eq. f_equal. by eapply local_det.
    + right. exists (<[j:=y']> (<[i:=y]> c)). split; apply step_local.
      * exists j, x', y'. by rewrite list_lookup_insert_ne by done.
      * exists i, x, y. rewrite list_lookup_insert_ne by done.
        split_all; [done|done|]. by apply list_insert_insert_ne.
  - exfalso. by eapply local_not_coll.
  - exfalso. by eapply local_not_coll.
  - left. congruence.
Qed.

Definition final (c : list nodest) : Prop := ∀ c', ¬ step c c'.

(** Every execution from [c] can be continued to [n], the end, and none is
    longer than the others. *)
Lemma step_to_final k : ∀ c n c', nsteps step k c n → final n → step c c' →
  ∃ k', k = S k' ∧ nsteps step k' c' n.
Proof.
  induction k as [|k IH]; intros c n c' Hk Hn Hs.
  - inv Hk. by destruct (Hn c').
  - inversion Hk as [|? ? c1 ? Hs1 Hk1]; subst.
    destruct (step_diamond _ _ _ Hs1 Hs) as [->|(d & Hd1 & Hd2)]; [by exists k|].
    destruct (IH _ _ _ Hk1 Hn Hd1) as (k' & -> & Hk'). exists (S k'). split; [done|].
    by econstructor.
Qed.

Lemma execution_bounded m : ∀ k c c' n, nsteps step k c n → final n → nsteps step m c c' →
  ∃ k', k = (m + k')%nat ∧ nsteps step k' c' n.
Proof.
  induction m as [|m IH]; intros k c c' n Hk Hn Hm;
    inversion Hm as [|? ? c1 ? Hs1 Hm1]; subst; [by exists k|].
  destruct (step_to_final _ _ _ _ Hk Hn Hs1) as (k' & -> & Hk').
  destruct (IH _ _ _ _ Hk' Hn Hm1) as (k'' & -> & Hk''). by exists k''.
Qed.

(** ** Nodes that do the same

    A configuration given by what each node, with its input, has to do. *)
Definition ends_in (c n : list nodest) : Prop :=
  final n ∧ ∃ bound, ∀ m c', nsteps step m c c' → (m ≤ bound)%nat ∧ rtc step c' n.

Lemma reaches_ends_in c n : rtc step c n → final n → ends_in c n.
Proof.
  intros (k & Hk)%rtc_nsteps_1 Hn. split; [done|]. exists k. intros m c' Hm.
  destruct (execution_bounded _ _ _ _ _ Hk Hn Hm) as (k' & -> & Hk').
  split; [lia|]. by eapply rtc_nsteps_2.
Qed.

Lemma lstep_cons x c c' : lstep c c' → lstep (x :: c) (x :: c').
Proof. intros (i & y & z & Hi & Hl & ->). by exists (S i), y, z. Qed.

Lemma local_lift c c' : Forall2 (rtc local) c c' → rtc lstep c c'.
Proof.
  induction 1 as [|x y c c' Hxy _ IH]; [done|].
  transitivity (y :: c).
  - clear IH. induction Hxy as [x|x y z Hs _ IH]; [done|].
    econstructor; [|exact IH]. by exists O, x, y.
  - eapply rtc_congruence; [|exact IH]. intros. by apply lstep_cons.
Qed.

Lemma lsteps_steps c c' : rtc lstep c c' → rtc step c c'.
Proof. apply rtc_subrel. intros x y Hs. by apply step_local. Qed.

Definition conf (n : Z) (P : Z → prog) (L : Z → list task) : list nodest :=
  (λ i, (P i, L i)) <$> seqZ 0 n.

Lemma conf_ext n P P' L L' :
  (∀ i, 0 ≤ i < n → P i = P' i ∧ L i = L' i) → conf n P L = conf n P' L'.
Proof.
  intros He. apply list_fmap_ext. intros k i Hi%list_elem_of_lookup_2.
  apply elem_of_seqZ in Hi. destruct (He i) as [-> ->]; [lia|done].
Qed.

Lemma mapM_conf {A} (f : nodest → option A) n P L (g : Z → A) :
  (∀ i, 0 ≤ i < n → f (P i, L i) = Some (g i)) → mapM f (conf n P L) = Some (g <$> seqZ 0 n).
Proof.
  intros He. apply mapM_Some. unfold conf. apply Forall2_fmap_2, Forall_Forall2_diag.
  apply Forall_forall. intros i Hi%elem_of_seqZ. apply He. lia.
Qed.

Lemma conf_zlen n P L : 0 ≤ n → zlen (conf n P L) = n.
Proof. intros. unfold zlen, conf. rewrite length_fmap, length_seqZ. lia. Qed.

Lemma conf_head n P L : 0 < n → ∃ c, conf n P L = (P 0, L 0) :: c.
Proof. intros. unfold conf. rewrite seqZ_cons by lia. by eexists. Qed.

Lemma conf_broadcast n P L root V K :
  0 ≤ root < n → (∀ i, 0 ≤ i < n → P i = Broadcast root (V i) (K i)) →
  step (conf n P L) (conf n (λ i, K i (V root)) L).
Proof.
  intros Hr HP. apply step_coll.
  assert (mapM (as_broadcast root) (conf n P L) = Some ((λ i, (V i, K i, L i)) <$> seqZ 0 n)) as Hm.
  { apply mapM_conf. intros i Hi. rewrite HP by done. simpl. by rewrite decide_True. }
  destruct (conf_head n P L ltac:(lia)) as [c Hc]. unfold coll_step. rewrite Hc.
  rewrite HP by lia. rewrite <- (HP 0), <- Hc, Hm by lia. simpl. unfold broadcast_result.
  assert (aget ((λ i, (V i, K i, L i)) <$> seqZ 0 n) root = Some (V root, K root, L root)) as ->.
  { unfold aget. rewrite decide_True, list_lookup_fmap, lookup_seqZ_lt by lia. simpl.
    by replace (0 + Z.of_nat (Z.to_nat root)) with root by lia. }
  simpl. by rewrite <- list_fmap_compose.
Qed.

Lemma conf_gather n P L root V K :
  0 ≤ root < n → (∀ i, 0 ≤ i < n → P i = Gather root (V i) (K i)) →
  step (conf n P L) (conf n (λ i, K i (if decide (i = root) then V <$> seqZ 0 n else [])) L).
Proof.
  intros Hr HP. apply step_coll.
  assert (mapM (as_gather root) (conf n P L) = Some ((λ i, (V i, K i, L i)) <$> seqZ 0 n)) as Hm.
  { apply mapM_conf. intros i Hi. rewrite HP by done. simpl. by rewrite decide_True. }
  destruct (conf_head n P L ltac:(lia)) as [c Hc]. unfold coll_step. rewrite Hc.
  rewrite HP by lia. rewrite <- (HP 0), <- Hc, Hm, conf_zlen by lia.
  rewrite assert_true by done. simpl. f_equal. unfold gather_result.
  rewrite <- list_fmap_compose. unfold compose. simpl. apply list_eq. intros k.
  unfold conf. rewrite list_lookup_imap, !list_lookup_fmap.
  destruct (seqZ 0 n !! k) as [i|] eqn:Ek; [|done]. simpl.
  apply lookup_seqZ in Ek as [-> Hk]. by rewrite Z.add_0_l.
Qed.

Lemma conf_local n P L P' L' :
  (∀ i, 0 ≤ i < n → rtc local (P i, L i) (P' i, L' i)) → rtc step (conf n P L) (conf n P' L').
Proof.
  intros He. apply lsteps_steps, local_lift. unfold conf.
  apply Forall2_fmap_2, Forall_Forall2_diag, Forall_forall. intros i Hi%elem_of_seqZ.
  apply He. lia.
Qed.

Lemma conf_final n e L : 0 < n → final (conf n (λ _, Ret e) L).
Proof.
  intros Hn c' [(i & x & y & Hi & Hl & _)|Hc].
  - unfold conf in Hi. rewrite list_lookup_fmap in Hi.
    destruct (seqZ 0 n !! i); simplify_eq/=. inv Hl.
  - destruct (conf_head n (λ _, Ret e) L Hn) as [c E]. by rewrite E in Hc.
Qed.

Lemma step_conf c n P P' L :
  step c (conf n P L) → (∀ i, 0 ≤ i < n → P i = P' i) → rtc step c (conf n P' L).
Proof.
  intros Hs He. rewrite <- (conf_ext n P P' L L); [by apply rtc_once|].
  intros i Hi. by rewrite He.
Qed.

(** ** What each part of the programs does *)

Lemma check_ok n L v K :
  0 < n → rtc step (conf n (λ i, broadcast_check v (K i)) L) (conf n K L).
Proof.
  intros Hn. eapply step_conf; [eapply (conf_broadcast n _ L 0 (λ _, BInt v)); [lia|done]|].
  intros i Hi. simpl. by rewrite decide_True.
Qed.

Lemma merge_round_ok n L V K :
  0 < n →
  rtc step (conf n (λ i, merge_round i (V i) (K i)) L)
           (conf n (λ i, K i (merge_all (V <$> seqZ 0 n))) L).
Proof.
  intros Hn. set (m := merge_all (V <$> seqZ 0 n)).
  transitivity (conf n (λ i, broadcast_event 0 (if decide (i = 0) then m else no_event) (K i)) L).
  - eapply step_conf; [eapply (conf_gather n _ L 0 V (λ i all,
      broadcast_event 0 (if decide (i = 0) then merge_all all else no_event) (K i)));
      [lia|]|].
    + intros i Hi. unfold merge_round. by case_decide.
    + intros i Hi. simpl. by case_decide.
  - eapply step_conf; [eapply (conf_broadcast n _ L 0); [lia|done]|]. done.
Qed.

(** The tasks a node spawns on a list of processors. *)
Definition tasks_on (procs : list Z) (task_id : Z) (args : list Z) (pre : Ev) (priority : Z)
    : list task :=
  (λ p, mkTask p task_id args pre priority) <$> procs.

Lemma spawn_each_ok ps f a pre prio k : ∀ acc log,
  rtc local (spawn_each ps f a pre prio acc k, log)
    (k (acc ++ (t_finish <$> tasks_on ps f a pre prio)), log ++ tasks_on ps f a pre prio).
Proof.
  induction ps as [|p ps IH]; intros acc log; simpl; [by rewrite !app_nil_r|].
  econstructor; [constructor|]. set (t := mkTask p f a pre prio).
  specialize (IH (acc ++ [t_finish t]) (log ++ [t])). by rewrite <- !app_assoc in IH.
Qed.

(** The outcome of a collective spawn by kind: what node [i] spawns, and the
    event all nodes get. *)
Definition kind_pre (n : Z) (W : Z → Ev) : Ev := merge_all (W <$> seqZ 0 n).
Definition kind_tasks (n : Z) (procs : Z → list (Z * Z)) (kind f : Z) (args : Z → list Z)
    (one : bool) (W : Z → Ev) (prio i : Z) : list task :=
  tasks_on (chosen kind one (procs i)) f (args i) (kind_pre n W) prio.
Definition kind_finish (n : Z) (T : Z → list task) : Ev :=
  merge_all ((λ i, merge_all (t_finish <$> T i)) <$> seqZ 0 n).

Lemma by_kind_ok n L procs kind f args one W prio K :
  0 < n →
  let T := kind_tasks n procs kind f args one W prio in
  rtc step
    (conf n (λ i, collective_spawn_by_kind i (procs i) kind f (args i) one (W i) prio (K i)) L)
    (conf n (λ i, K i (kind_finish n T)) (λ i, L i ++ T i)).
Proof.
  intros Hn T. unfold collective_spawn_by_kind.
  do 4 (etrans; [by apply check_ok|]). etrans; [by apply merge_round_ok|].
  etrans; [|by apply (merge_round_ok n (λ i, L i ++ T i) (λ i, merge_all (t_finish <$> T i)) K)].
  apply conf_local. intros i Hi.
  apply (spawn_each_ok (chosen kind one (procs i)) f (args i) (kind_pre n W) prio
    (λ event_set, merge_round i (merge_all event_set) (K i)) [] (L i)).
Qed.

Definition the_task (n : Z) (owner : Z → Z) (target f : Z) (args : Z → list Z) (W : Z → Ev)
    (prio : Z) : task :=
  mkTask target f (args (owner target)) (merge_all (W <$> seqZ 0 n)) prio.

Lemma spawn_ok n L owner target f args W prio K :
  0 ≤ owner target < n →
  let t := the_task n owner target f args W prio in
  rtc step
    (conf n (λ i, collective_spawn owner i target f (args i) (W i) prio (K i)) L)
    (conf n (λ i, K i (t_finish t)) (λ i, L i ++ if decide (i = owner target) then [t] else [])).
Proof.
  intros Ho t. unfold collective_spawn. set (root := owner target) in *.
  do 3 (etrans; [by apply check_ok; lia|]).
  etrans.
  { apply rtc_once. eapply (conf_gather n _ L root W (λ i all, if decide (i = root) then
        Spawn (mkTask target f (args i) (merge_all all) prio) (λ fin,
          broadcast_event root fin (K i))
        else broadcast_event root no_event (K i))); [done|].
    intros i Hi. by case_decide. }
  etrans.
  { apply (conf_local n _ _ (λ i, broadcast_event root
      (if decide (i = root) then t_finish t else no_event) (K i))
      (λ i, L i ++ if decide (i = root) then [t] else [])).
    intros i Hi. case_decide as Hi0; [|by rewrite app_nil_r]. subst i.
    apply rtc_once. constructor. }
  eapply step_conf; [eapply (conf_broadcast n _ _ root); [done|done]|].
  intros i Hi. simpl. by rewrite decide_True.
Qed.
(** ** Disagreeing nodes *)

Definition checks (vs : list Z) (k : prog) : prog := foldr broadcast_check k vs.

Definition not_spawn (p : prog) : Prop := match p with Spawn _ _ => False | _ => True end.

Lemma abort_final n P L i :
  0 ≤ i < n → P i = Abort → (∀ j, 0 ≤ j < n → not_spawn (P j)) → final (conf n P L).
Proof.
  intros Hi Ha Hns c' [(j & x & y & Hj & Hl & _)|Hc].
  - unfold conf in Hj. rewrite list_lookup_fmap in Hj.
    destruct (seqZ 0 n !! j) as [k|] eqn:Ek; simplify_eq/=. apply lookup_seqZ in Ek.
    specialize (Hns k ltac:(lia)). inversion Hl as [t k0 log E1 E2]. by rewrite <- E1 in Hns.
  - assert (conf n P L !! Z.to_nat i = Some (Abort, L i)) as El.
    { unfold conf. rewrite list_lookup_fmap, lookup_seqZ_lt by lia. simpl.
      replace (0 + Z.of_nat (Z.to_nat i)) with i by lia. by rewrite Ha. }
    destruct (conf_head n P L ltac:(lia)) as [c E]. unfold coll_step in Hc. rewrite E in Hc.
    destruct (P 0) as [| |r v k|r v k|]; try done; rewrite <- E in Hc; asserts.
    all: match goal with Hm : mapM _ _ = Some _ |- _ => apply mapM_Some in Hm;
      eapply Forall2_lookup_l in Hm as (z & _ & Hz); [|exact El] end; done.
Qed.

Lemma checks_not_spawn vs k : not_spawn k → not_spawn (checks vs k).
Proof. by destruct vs. Qed.

(** The first value the nodes disagree on stops the machine. *)
Lemma checks_mismatch n L : ∀ m (vs : Z → list Z) K,
  0 < n → (∀ i, 0 ≤ i < n → length (vs i) = m ∧ not_spawn (K i)) →
  (∃ i, 0 ≤ i < n ∧ vs i ≠ vs 0) →
  ∃ P, ends_in (conf n (λ i, checks (vs i) (K i)) L) (conf n P L) ∧ ∃ i, 0 ≤ i < n ∧ P i = Abort.
Proof.
  induction m as [|m IH]; intros vs K Hn Hl (i & Hi & Hne).
  { destruct Hne. destruct (Hl i Hi) as [E _]. destruct (Hl 0 ltac:(lia)) as [E0 _].
    apply length_zero_iff_nil in E, E0. congruence. }
  set (hd i := default 0 (head (vs i))).
  assert (∀ j, 0 ≤ j < n → vs j = hd j :: tail (vs j)) as Hcons.
  { intros j Hj. unfold hd. destruct (Hl j Hj) as [E _]. by destruct (vs j). }
  set (P j := if decide (hd j = hd 0) then checks (tail (vs j)) (K j) else Abort).
  assert (rtc step (conf n (λ i, checks (vs i) (K i)) L) (conf n P L)) as Hstep.
  { eapply step_conf; [eapply (conf_broadcast n _ L 0 (λ j, BInt (hd j)) (λ j b,
      if decide (b = BInt (hd j)) then checks (tail (vs j)) (K j) else Abort)); [lia|]|].
    - intros j Hj. by rewrite (Hcons j Hj) at 1.
    - intros j Hj. unfold P. simpl. repeat case_decide; try done; congruence. }
  destruct (decide (Forall (λ j, hd j = hd 0) (seqZ 0 n))) as [Hall|Hsome].
  - rewrite Forall_forall in Hall.
    destruct (IH (λ j, tail (vs j)) K Hn) as (Q & [Hf (b & Hb)] & Ha).
    + intros j Hj. destruct (Hl j Hj) as [E ?]. split; [|done]. rewrite (Hcons j Hj) in E.
      simpl in E. lia.
    + exists i. split; [done|]. intros E. apply Hne. rewrite (Hcons i), (Hcons 0) by lia.
      rewrite E. f_equal. apply Hall, elem_of_seqZ. lia.
    + exists Q. split; [|done]. apply reaches_ends_in; [|done]. etrans; [exact Hstep|].
      rewrite (conf_ext n P (λ j, checks (tail (vs j)) (K j)) L L).
      * by destruct (Hb 0%nat _ (nsteps_O _ _)).
      * intros j Hj. split; [|done]. unfold P. rewrite decide_True; [done|].
        apply Hall, elem_of_seqZ. lia.
  - apply not_Forall_Exists in Hsome; [|apply _]. apply Exists_exists in Hsome as (j & Hj & Hd).
    apply elem_of_seqZ in Hj. exists P.
    assert (P j = Abort) as HPj by (unfold P; by rewrite decide_False).
    split; [|exists j; split; [lia|done]]. apply reaches_ends_in; [done|].
    apply (abort_final n P L j); [lia|done|]. intros k Hk. unfold P. case_decide; [|done].
    apply checks_not_spawn, Hl. lia.
Qed.
End collective.

(** ** Correctness *)

Section correct.
Context {Ev : Type} `{EventLaws Ev}.
Context (NO_KIND TASK_ID_PROCESSOR_INIT : Z).

Lemma merge_all_before (l : list Ev) e :
  ev_before (merge_all l) e ↔ ∀ x, x ∈ l → ev_before x e.
Proof.
  unfold merge_all. set (s := list_to_set _ : gset Ev).
  assert (∀ x, x ∈ l → ev_before x (merge_events s)) as Hin.
  { intros x Hx. destruct (ev_exists x) eqn:Ex.
    - apply merge_after. unfold s. apply elem_of_list_to_set, list_elem_of_filter. done.
    - rewrite (ev_not_exists _ Ex). apply no_event_before. }
  split.
  - intros He x Hx. etrans; [by apply Hin|done].
  - intros He. apply merge_least. intros x Hx. unfold s in Hx.
    apply elem_of_list_to_set, list_elem_of_filter in Hx as [_ Hx]. by apply He.
Qed.

Lemma kind_pre_before n (W : Z → Ev) e :
  ev_before (kind_pre n W) e ↔ ∀ i, 0 ≤ i < n → ev_before (W i) e.
Proof.
  unfold kind_pre. rewrite merge_all_before. split.
  - intros He i Hi. apply He, list_elem_of_fmap_2, elem_of_seqZ. lia.
  - intros He x (i & -> & Hi%elem_of_seqZ)%list_elem_of_fmap. apply He. lia.
Qed.

Lemma kind_finish_before n (T : Z → list task) e :
  ev_before (kind_finish n T) e ↔
  ∀ i t, 0 ≤ i < n → t ∈ T i → ev_before (t_finish t) e.
Proof.
  unfold kind_finish. rewrite merge_all_before. split.
  - intros He i t Hi Ht.
    assert (ev_before (merge_all (t_finish <$> T i)) e) as Hm.
    { apply He, list_elem_of_fmap. exists i. split; [done|]. apply elem_of_seqZ. lia. }
    rewrite merge_all_before in Hm. apply Hm. by apply list_elem_of_fmap_2.
  - intros He x (i & -> & Hi%elem_of_seqZ)%list_elem_of_fmap. apply merge_all_before.
    intros x (t & -> & Ht)%list_elem_of_fmap. apply (He i); [lia|done].
Qed.

(** The processors of a kind; with [one_per_node] the first of them. *)
Definition of_kind (kind : Z) (one : bool) (procs : list (Z * Z)) : list Z :=
  (if one then take 1 else id) (filter (λ p, kind = NO_KIND ∨ p.2 = kind) procs).*1.

Lemma chosen_of_kind kind one procs : chosen NO_KIND kind one procs = of_kind kind one procs.
Proof.
  unfold of_kind. induction procs as [|[me k] ps IH]; [by destruct one|].
  cbn [chosen]. rewrite filter_cons. cbn [snd].
  destruct (decide (kind = NO_KIND ∨ k = kind)); [|exact IH].
  rewrite fmap_cons. destruct one; [done|]. cbn [id]. by rewrite IH.
Qed.

Lemma kind_tasks_spec n procs kind f args one W prio i t :
  t ∈ kind_tasks NO_KIND n procs kind f args one W prio i →
  t_func t = f ∧ t_args t = args i ∧ t_prio t = prio ∧ t_pre t = kind_pre n W.
Proof.
  unfold kind_tasks, tasks_on. by intros (p & -> & _)%list_elem_of_fmap.
Qed.

Lemma kind_tasks_procs n procs kind f args one (W : Z → Ev) prio i :
  t_proc <$> kind_tasks NO_KIND n procs kind f args one W prio i = of_kind kind one (procs i).
Proof.
  unfold kind_tasks, tasks_on. rewrite <- list_fmap_compose, chosen_of_kind. apply list_fmap_id.
Qed.

(** C24. [collective_spawn_by_kind], called by every node with the same arguments,
    always ends, whatever the nodes' order, on all nodes with the same event.
    Each node has then spawned the task once on each of its processors of the
    kind (once in all with [one_per_node]); a task's precondition has
    triggered exactly when the events all the nodes wait on have, and the
    event returned exactly when all the tasks have finished. *)
Theorem by_kind_correct n procs kind f args one (W : Z → Ev) prio :
  0 < n → ∃ fin T,
    ends_in (conf n (λ i, collective_spawn_by_kind NO_KIND i (procs i) kind f (args i) one (W i)
                            prio Ret) (λ _, []))
            (conf n (λ _, Ret fin) T) ∧
    (∀ i, t_proc <$> T i = of_kind kind one (procs i)) ∧
    (∀ i t, t ∈ T i → t_func t = f ∧ t_args t = args i ∧ t_prio t = prio ∧
       ∀ e, ev_before (t_pre t) e ↔ ∀ j, 0 ≤ j < n → ev_before (W j) e) ∧
    (∀ e, ev_before fin e ↔ ∀ i t, 0 ≤ i < n → t ∈ T i → ev_before (t_finish t) e).
Proof.
  intros Hn. set (T := kind_tasks NO_KIND n procs kind f args one W prio).
  exists (kind_finish n T), T. split_all.
  - apply reaches_ends_in; [|by apply conf_final].
    apply (by_kind_ok NO_KIND n (λ _, []) procs kind f args one W prio (λ _, Ret) Hn).
  - intros i. apply kind_tasks_procs.
  - intros i t Ht. apply kind_tasks_spec in Ht as (? & ? & ? & ->). split_all; try done.
    apply kind_pre_before.
  - intros e. apply kind_finish_before.
Qed.

(** [collective_spawn], called by every node for the same processor, always
    ends on all nodes with the finish event of one task, which only the
    processor's owner spawned, with the owner's arguments, and whose
    precondition has triggered exactly when the events all the nodes wait on
    have. *)
Theorem collective_spawn_correct n owner target f args (W : Z → Ev) prio :
  0 ≤ owner target < n → ∃ t,
    ends_in (conf n (λ i, collective_spawn owner i target f (args i) (W i) prio Ret) (λ _, []))
            (conf n (λ _, Ret (t_finish t)) (λ i, if decide (i = owner target) then [t] else [])) ∧
    t_proc t = target ∧ t_func t = f ∧ t_args t = args (owner target) ∧ t_prio t = prio ∧
    (∀ e, ev_before (t_pre t) e ↔ ∀ j, 0 ≤ j < n → ev_before (W j) e).
Proof.
  intros Ho. exists (the_task n owner target f args W prio).
  split_all; try done; [|apply kind_pre_before].
  apply reaches_ends_in; [|apply conf_final; lia].
  apply (spawn_ok n (λ _, []) owner target f args W prio (λ _, Ret) Ho).
Qed.

(** C25. Nodes that disagree on the processor, task or priority of a collective
    spawn stop: in every execution some node fails its [broadcast_check], no
    node returns and no task is spawned; and the same holds for the kind,
    task, flag and priority of a spawn by kind. *)
Theorem collective_mismatch_aborts n owner (target f prio kind : Z → Z) procs args (one : Z → bool)
    (W : Z → Ev) :
  0 < n →
  ((∃ i, 0 ≤ i < n ∧ (target i, f i, prio i) ≠ (target 0, f 0, prio 0)) → ∃ P,
     ends_in (conf n (λ i, collective_spawn owner i (target i) (f i) (args i) (W i) (prio i) Ret)
                (λ _, [])) (conf n P (λ _, [])) ∧ ∃ i, 0 ≤ i < n ∧ P i = Abort) ∧
  ((∃ i, 0 ≤ i < n ∧ (kind i, f i, one i, prio i) ≠ (kind 0, f 0, one 0, prio 0)) → ∃ P,
     ends_in (conf n (λ i, collective_spawn_by_kind NO_KIND i (procs i) (kind i) (f i) (args i)
                (one i) (W i) (prio i) Ret)
                (λ _, [])) (conf n P (λ _, [])) ∧ ∃ i, 0 ≤ i < n ∧ P i = Abort).
Proof.
  intros Hn. split; intros (i & Hi & Hne).
  - eapply (checks_mismatch n (λ _, []) 3 (λ i, [target i; f i; prio i])); [done| |].
    + intros j Hj. split; [done|]. by case_decide.
    + exists i. split; [done|]. intros E. apply Hne. congruence.
  - eapply (checks_mismatch n (λ _, []) 4 (λ i, [kind i; f i; Z.b2z (one i); prio i])); [done| |].
    + intros j Hj. split; [done|]. unfold merge_round. by case_decide.
    + exists i. split; [done|]. intros E. injection E as E1 E2 E3 E4. apply Hne.
      assert (one i = one 0) by by destruct (one i), (one 0). congruence.
Qed.

(** The processors on which the main task runs. *)
Definition main_procs (owner : Z → Z) (style : RunStyle) (first_proc i : Z)
    (procs : list (Z * Z)) : list Z :=
  match style with
  | ONE_TASK_ONLY => if decide (i = owner first_proc) then [first_proc] else []
  | ONE_TASK_PER_NODE => take 1 procs.*1
  | ONE_TASK_PER_PROC => procs.*1
  end.

Lemma of_no_kind one procs :
  of_kind NO_KIND one procs = (if one then take 1 else id) procs.*1.
Proof.
  unfold of_kind. assert (filter (λ p : Z * Z, NO_KIND = NO_KIND ∨ p.2 = NO_KIND) procs = procs)
    as ->; [|done].
  induction procs as [|p ps IH]; [done|]. rewrite filter_cons_True by (by left). by rewrite IH.
Qed.

(** The main tasks of [run], given what a node's collective returns. *)
Lemma run_main n owner procs first_proc f style (args : Z → list Z) init L :
  0 < n → (style = ONE_TASK_ONLY → 0 ≤ owner first_proc < n) → ∃ fin M,
  rtc step (conf n (λ i, if decide (style = ONE_TASK_ONLY)
     then collective_spawn owner i first_proc f (args i) init 0 Ret
     else collective_spawn_by_kind NO_KIND i (procs i) NO_KIND f (args i)
            (bool_decide (style = ONE_TASK_PER_NODE)) init 0 Ret) L)
    (conf n (λ _, Ret fin) (λ i, L i ++ M i)) ∧
  (∀ i, t_proc <$> M i = main_procs owner style first_proc i (procs i)) ∧
  (∀ i t, t ∈ M i → t_func t = f ∧ t_prio t = 0 ∧ ev_before init (t_pre t)) ∧
  (∀ i t, 0 ≤ i < n → t ∈ M i → ev_before (t_finish t) fin).
Proof.
  intros Hn Ho. destruct (decide (style = ONE_TASK_ONLY)) as [->|Hs].
  - specialize (Ho eq_refl). set (t := the_task n owner first_proc f args (λ _, init) 0).
    exists (t_finish t), (λ i, if decide (i = owner first_proc) then [t] else []). split_all.
    + apply (spawn_ok n L owner first_proc f args (λ _, init) 0 (λ _, Ret) Ho).
    + intros i. simpl. by case_decide.
    + intros i t' Ht. case_decide; [|by apply elem_of_nil in Ht].
      apply list_elem_of_singleton in Ht as ->. split_all; try done.
      pose proof (kind_pre_before n (λ _, init) (t_pre t)) as [Hp _].
      apply (Hp ltac:(reflexivity) 0). lia.
    + intros i t' Hi Ht. case_decide; [|by apply elem_of_nil in Ht].
      by apply list_elem_of_singleton in Ht as ->.
  - set (one := bool_decide (style = ONE_TASK_PER_NODE)).
    set (T := kind_tasks NO_KIND n procs NO_KIND f args one (λ _, init) 0).
    exists (kind_finish n T), T. split_all.
    + apply (by_kind_ok NO_KIND n L procs NO_KIND f args one (λ _, init) 0 (λ _, Ret) Hn).
    + intros i. unfold T. rewrite kind_tasks_procs, of_no_kind. unfold one. by destruct style.
    + intros i t Ht. apply kind_tasks_spec in Ht as (? & _ & ? & ->). split_all; try done.
      pose proof (kind_pre_before n (λ _, init) (kind_pre n (λ _, init))) as [Hp _].
      apply (Hp ltac:(reflexivity) 0). lia.
    + pose proof (kind_finish_before n T (kind_finish n T)) as [Hf _]. by apply Hf.
Qed.

(** C23. [run], called by every node with the same task and style, brings the
    machine up in order.  It always gets to its end with the same event on all
    nodes; every processor of every node has been given the processor's
    initialization once, at the highest priority; with a main task, that has
    been given to the first processor of node 0, to the first processor of each
    node or to every processor, as the style says, and each of these starts
    only when every initialization on every node has finished; and the event
    is not triggered before the main tasks, or without one the
    initializations, have finished. *)
Theorem run_correct n owner procs first_proc f style args :
  0 < n → (f ≠ 0 → style = ONE_TASK_ONLY → 0 ≤ owner first_proc < n) → ∃ fin T M,
    ends_in (conf n (λ i, run NO_KIND TASK_ID_PROCESSOR_INIT owner i (procs i) first_proc f style
                            (args i) Ret) (λ _, []))
            (conf n (λ _, Ret fin) (λ i, T i ++ M i)) ∧
    (∀ i, t_proc <$> T i = (procs i).*1 ∧
       t_proc <$> M i = if decide (f = 0) then []
                        else main_procs owner style first_proc i (procs i)) ∧
    (∀ i t, t ∈ T i → t_func t = TASK_ID_PROCESSOR_INIT ∧ t_prio t = INT_MAX) ∧
    (∀ i t, t ∈ M i → t_func t = f ∧ t_prio t = 0) ∧
    (∀ i j t m, 0 ≤ i < n → t ∈ T i → m ∈ M j → ev_before (t_finish t) (t_pre m)) ∧
    (∀ i t, 0 ≤ i < n → t ∈ (if decide (f = 0) then T i else M i) → ev_before (t_finish t) fin).
Proof.
  intros Hn Ho.
  set (T := kind_tasks NO_KIND n procs NO_KIND TASK_ID_PROCESSOR_INIT (λ _, []) false
              (λ _, no_event) INT_MAX).
  set (init := kind_finish n T).
  pose proof (kind_finish_before n T init) as [Hinit _]. specialize (Hinit ltac:(reflexivity)).
  assert (∀ i, t_proc <$> T i = (procs i).*1) as HT.
  { intros i. unfold T. rewrite kind_tasks_procs. apply of_no_kind. }
  assert (∀ i t, t ∈ T i → t_func t = TASK_ID_PROCESSOR_INIT ∧ t_prio t = INT_MAX) as HT'.
  { intros i t Ht. apply kind_tasks_spec in Ht. tauto. }
  pose proof (by_kind_ok NO_KIND n (λ _, []) procs NO_KIND TASK_ID_PROCESSOR_INIT (λ _, []) false
    (λ _, no_event) INT_MAX (λ i init_event,
      if decide (f ≠ 0) then
        if decide (style = ONE_TASK_ONLY) then
          collective_spawn owner i first_proc f (args i) init_event 0 Ret
        else collective_spawn_by_kind NO_KIND i (procs i) NO_KIND f (args i)
          (bool_decide (style = ONE_TASK_PER_NODE)) init_event 0 Ret
      else Ret init_event) Hn) as Hrun. cbv zeta in Hrun. fold T init in Hrun.
  destruct (decide (f = 0)) as [Hf|Hf].
  - exists init, T, (λ _, []). split_all; try done.
    + apply reaches_ends_in; [|by apply conf_final]. etrans; [exact Hrun|].
      rewrite (conf_ext n _ (λ _, Ret init) _ (λ i, T i ++ [])); [done|].
      intros i Hi. rewrite decide_False by (intros ?; done). by rewrite app_nil_r.
    + intros i t Ht. by apply elem_of_nil in Ht.
    + intros i j t m _ _ Hm. by apply elem_of_nil in Hm.
  - destruct (run_main n owner procs first_proc f style args init (λ i, [] ++ T i) Hn (Ho Hf))
      as (fin & M & Hmain & HM & HM' & Hfin).
    exists fin, T, M. split_all; try done.
    + apply reaches_ends_in; [|by apply conf_final]. etrans; [exact Hrun|].
      erewrite (conf_ext n); [exact Hmain|].
      intros i Hi. split; [|done]. cbv beta. by rewrite decide_True.
    + intros i t Ht. by destruct (HM' i t Ht) as (? & ? & _).
    + intros i j t m Hi Ht Hm. destruct (HM' j m Hm) as (_ & _ & Hpre).
      etrans; [by eapply Hinit|done].
Qed.
End correct.

(** ** An instance: events as the times they trigger

    Every task takes one unit of time. *)
#[global] Instance time_ops : EventOps nat := {|
  no_event := 0%nat;
  ev_exists e := negb (bool_decide (e = 0%nat));
  merge_events s := max_list (elements s);
  spawn _ _ _ pre _ := S pre |}.

#[global] Instance time_laws : EventLaws nat.
Proof.
  refine {| ev_before := le |}.
  - simpl. intros e He. destruct (decide (e = 0%nat)); [done|].
    by rewrite bool_decide_false in He.
  - intros e. simpl. lia.
  - intros s e He. simpl. apply max_list_elem_of_le. by apply elem_of_elements.
  - intros s e He. simpl. destruct (elements s) as [|x l] eqn:El; [simpl; lia|].
    apply He. apply elem_of_elements. rewrite El. apply max_list_elem_of. done.
  - intros p f a pre prio. simpl. lia.
Defined.

(** Two nodes with a utility processor each (kind 2), and three CPU processors
    (kind 1) in all; kind 0 stands for [NO_KIND]. *)
Definition example_procs (i : Z) : list (Z * Z) :=
  if decide (i = 0) then [(0, 2); (1, 1)] else [(100, 2); (101, 1); (102, 1)].
Definition example_owner (p : Z) : Z := p `div` 100.

Lemma by_kind_correct_witness : ∃ (fin : nat) T,
  ends_in (conf 2 (λ i, collective_spawn_by_kind 0 i (example_procs i) 1 7 [] true
                          (Z.to_nat i) 5 Ret) (λ _, []))
          (conf 2 (λ _, Ret fin) T) ∧
  (∀ i, t_proc <$> T i = of_kind 0 1 true (example_procs i)) ∧
  (∀ i t, t ∈ T i → t_func t = 7 ∧ t_args t = [] ∧ t_prio t = 5 ∧
     ∀ e, ev_before (t_pre t) e ↔ ∀ j, 0 ≤ j < 2 → ev_before (Z.to_nat j) e) ∧
  (∀ e, ev_before fin e ↔ ∀ i t, 0 ≤ i < 2 → t ∈ T i → ev_before (t_finish t) e).
Proof.
  apply (by_kind_correct 0 2 example_procs 1 7 (λ _, []) true Z.to_nat 5). lia.
Defined.

Lemma collective_spawn_correct_witness : ∃ t : @task nat,
  ends_in (conf 2 (λ i, collective_spawn example_owner i 101 7 [] (Z.to_nat i) 5 Ret) (λ _, []))
          (conf 2 (λ _, Ret (t_finish t)) (λ i, if decide (i = 1) then [t] else [])) ∧
  t_proc t = 101 ∧ t_func t = 7 ∧ t_args t = [] ∧ t_prio t = 5 ∧
  (∀ e, ev_before (t_pre t) e ↔ ∀ j, 0 ≤ j < 2 → ev_before (Z.to_nat j) e).
Proof.
  apply (collective_spawn_correct 2 example_owner 101 7 (λ _, []) Z.to_nat 5).
  vm_compute. split; congruence.
Defined.

Lemma collective_mismatch_aborts_witness : ∃ P,
  ends_in (conf 2 (λ i, collective_spawn example_owner i 101 i [] 0%nat 5 Ret) (λ _, []))
          (conf 2 P (λ _, [])) ∧ ∃ i, 0 ≤ i < 2 ∧ P i = Abort.
Proof.
  apply (collective_mismatch_aborts 0 2 example_owner (λ _, 101) (λ i, i) (λ _, 5) (λ _, 1)
    (λ _, []) (λ _, []) (λ _, true) (λ _, 0%nat)); [lia|].
  exists 1. split; [lia|congruence].
Defined.

Lemma run_correct_witness : ∃ (fin : nat) T M,
  ends_in (conf 2 (λ i, run 0 3 example_owner i (example_procs i) 0 8 ONE_TASK_PER_NODE [] Ret)
             (λ _, []))
          (conf 2 (λ _, Ret fin) (λ i, T i ++ M i)) ∧
  (∀ i, t_proc <$> T i = (example_procs i).*1 ∧
        t_proc <$> M i = take 1 (example_procs i).*1) ∧
  (∀ i t, t ∈ T i → t_func t = 3 ∧ t_prio t = INT_MAX) ∧
  (∀ i t, t ∈ M i → t_func t = 8 ∧ t_prio t = 0) ∧
  (∀ i j t m, 0 ≤ i < 2 → t ∈ T i → m ∈ M j → ev_before (t_finish t) (t_pre m)) ∧
  (∀ i t, 0 ≤ i < 2 → t ∈ M i → ev_before (t_finish t) fin).
Proof.
  apply (run_correct 0 3 2 example_owner example_procs 0 8 ONE_TASK_PER_NODE (λ _, [])); [lia|].
  intros _ H. discriminate H.
Defined.
