(* ===== verification/Machine.v ===== *)
(** * The machine description

    What [RuntimeImpl::configure_from_command_line] of
    src/templates/runtime_impl.cc builds on a node before it starts: the
    memories and processors of [CoreModule] and its own, the affinities
    between them, and the announcement that tells the other nodes.  The store
    of affinities is [MachineImpl], an interface with its laws. *)

From stdpp Require Import sorting.
From S2P Require Import Prelude Bytes Fence NodeTables Startup.

(** ** The core module *)

Inductive ProcKind := LOC_PROC | UTIL_PROC | IO_PROC | PROC_SET | OtherProc (k : Z).
Inductive MemKind :=
| SYSTEM_MEM | REGDMA_MEM | DISK_MEM | HDF_MEM | FILE_MEM | GLOBAL_MEM | Z_COPY_MEM
| OtherMem (k : Z).

#[global] Instance ProcKind_eq_dec : EqDecision ProcKind.
Proof. solve_decision. Defined.
#[global] Instance MemKind_eq_dec : EqDecision MemKind.
Proof. solve_decision. Defined.

Record CoreModule := mkCore {
  num_cpu_procs : Z;
  num_util_procs : Z;
  num_io_procs : Z;
  concurrent_io_threads : Z;
  sysmem_size_in_mb : Z;
  stack_size_in_mb : Z;
  pin_util_procs : bool }.

Definition CoreModule_init : CoreModule := mkCore 1 1 0 1 512 2 false.

Inductive core_option := OptCpu | OptUtil | OptIo | OptConcurrentIo | OptCsize | OptStacksize | OptPinUtil.

(** The variable the parser stores an option's value in. *)
Definition store_core_option (m : CoreModule) (opt : core_option * Z) : CoreModule :=
  let '(name, v) := opt in
  let 'mkCore cpu util io cio sys st pin := m in
  match name with
  | OptCpu => mkCore v util io cio sys st pin
  | OptUtil => mkCore cpu v io cio sys st pin
  | OptIo => mkCore cpu util v cio sys st pin
  | OptConcurrentIo => mkCore cpu util io v sys st pin
  | OptCsize => mkCore cpu util io cio v st pin
  | OptStacksize => mkCore cpu util io cio sys v pin
  | OptPinUtil => mkCore cpu util io cio sys st true
  end.

(** The parser calls back for the options it finds. *)
Definition create_module (opts : list (core_option * Z)) : CoreModule :=
  foldl store_core_option CoreModule_init opts.

(** The objects of a node: the tables of identifiers, and what was created
    with them, in order. *)
Record mem_obj := mkMemObj { mo_me : Z; mo_kind : MemKind; mo_size : Z; mo_reg : Z }.
Record proc_obj := mkProcObj { po_me : Z; po_kind : ProcKind; po_cores : Z }.

Record objects := mkObjs {
  ob_tables : node_tables;
  ob_mems : list mem_obj;
  ob_ib_mems : list mem_obj;
  ob_procs : list proc_obj }.

Definition objects_init : objects := mkObjs node_tables_init [] [] [].

Definition mb (n : Z) : Z := u64 (Z.shiftl n 20).

Section node.
Context `{O : IdOps} (my_node_id : Z).

(** A new memory, intermediate buffer or processor, entered in the tables. *)
Definition new_memory (o : objects) (k : MemKind) (size reg : Z) : option objects :=
  '(t, m) ← create my_node_id KMemory (ob_tables o);
  Some (mkObjs t (ob_mems o ++ [mkMemObj m k size reg]) (ob_ib_mems o) (ob_procs o)).

Definition new_ib_memory (o : objects) (k : MemKind) (size reg : Z) : option objects :=
  '(t, m) ← create my_node_id KIbMemory (ob_tables o);
  Some (mkObjs t (ob_mems o) (ob_ib_mems o ++ [mkMemObj m k size reg]) (ob_procs o)).

(** [num_cores] of the processor is set by its constructor. *)
Definition new_processor (o : objects) (k : ProcKind) (cores : Z) : option objects :=
  '(t, p) ← create my_node_id KProcessor (ob_tables o);
  Some (mkObjs t (ob_mems o) (ob_ib_mems o) (ob_procs o ++ [mkProcObj p k cores])).

(** [CoreModule::create_memories]; the memory is not registered. *)
Definition create_memories (c : CoreModule) (o : objects) : option objects :=
  if decide (sysmem_size_in_mb c > 0)
  then new_memory o SYSTEM_MEM (mb (sysmem_size_in_mb c)) 0
  else Some o.

(** "for(int i = 0; i < num; i++)" over processors of one kind. *)
Fixpoint new_processors (num : nat) (o : objects) (k : ProcKind) (cores : Z) : option objects :=
  match num with
  | 0%nat => Some o
  | S num => o ← new_processor o k cores; new_processors num o k cores
  end.

Definition create_processors (c : CoreModule) (cores : ProcKind → Z) (o : objects)
    : option objects :=
  o ← new_processors (Z.to_nat (num_util_procs c)) o UTIL_PROC (cores UTIL_PROC);
  o ← new_processors (Z.to_nat (num_io_procs c)) o IO_PROC (cores IO_PROC);
  new_processors (Z.to_nat (num_cpu_procs c)) o LOC_PROC (cores LOC_PROC).

(** ** The objects of the node

    The sizes in MB as configured; [reg_base] and [ib_base] are the addresses
    of the registered memories in the segment.  The classes of the disk and
    file memories are elsewhere; [file_size] is the size the latter reports. *)
Definition create_objects (c : CoreModule) (cores : ProcKind → Z)
    (reg_mb ib_mb disk_mb reg_base ib_base file_size : Z) (o : objects) : option objects :=
  o ← create_memories c o;
  o ← (if decide (reg_mb > 0) then new_memory o REGDMA_MEM (mb reg_mb) reg_base else Some o);
  o ← create_processors c cores o;
  o ← (if decide (ib_mb > 0) then new_ib_memory o REGDMA_MEM (mb ib_mb) ib_base else Some o);
  o ← (if decide (disk_mb > 0) then new_memory o DISK_MEM (mb disk_mb) 0 else Some o);
  new_memory o FILE_MEM file_size 0.

(** *** The objects and the tables *)

#[local] Existing Instance kind_eq_dec.

Context {index_limit : Z} `{L : !IdLaws O my_node_id index_limit}.

Definition ids (k : kind) (o : objects) : list Z :=
  match k with
  | KMemory => mo_me <$> ob_mems o
  | KIbMemory => mo_me <$> ob_ib_mems o
  | KProcessor => po_me <$> ob_procs o
  end.

(** The objects are those of the tables, numbered in order. *)
Record objects_ok (o : objects) : Prop := {
  oo_tables : tables_ok my_node_id (ob_tables o);
  oo_ids k : ids k o = make_id my_node_id k <$> seqZ 0 (zlen (table k (ob_tables o))) }.

Lemma objects_init_ok : objects_ok objects_init.
Proof. split; [apply tables_init_ok|]. by intros []. Qed.

Lemma objects_zlen o k : objects_ok o → zlen (table k (ob_tables o)) = zlen (ids k o).
Proof.
  intros [_ ->]. unfold zlen. rewrite length_fmap, length_seqZ. lia.
Qed.

(** Creating one more object of a kind. *)
Lemma created_ok o k o' t id :
  objects_ok o → zlen (ids k o) < index_limit →
  create my_node_id k (ob_tables o) = Some (t, id) →
  ob_tables o' = t → (∀ k', ids k' o' = if decide (k' = k) then ids k o ++ [id] else ids k' o) →
  objects_ok o'.
Proof.
  intros Ho Hl E Et Hids. rewrite <- (objects_zlen o k Ho) in Hl.
  destruct (create_ok my_node_id k (ob_tables o) (oo_tables o Ho) Hl) as (t' & E' & Ht' & Htab).
  rewrite E in E'. injection E' as -> ->. split; [by rewrite Et|].
  intros k'. rewrite Hids, Et, Htab.
  case_decide as Hk; [|apply (oo_ids o Ho)]. rewrite zlen_app. change (zlen [_]) with 1.
  rewrite (oo_ids o Ho k). pose proof (zlen_nonneg (table k (ob_tables o))).
  rewrite seqZ_app, fmap_app by lia. by rewrite Z.add_0_l, Hk.
Qed.

Lemma new_memory_ok o k size reg :
  objects_ok o → zlen (ob_mems o) < index_limit → ∃ o',
    new_memory o k size reg = Some o' ∧ objects_ok o' ∧
    (∃ id, ob_mems o' = ob_mems o ++ [mkMemObj id k size reg]) ∧
    ob_ib_mems o' = ob_ib_mems o ∧ ob_procs o' = ob_procs o.
Proof.
  intros Ho Hl. assert (zlen (ids KMemory o) < index_limit) as Hl'.
  { simpl. unfold zlen in *. by rewrite length_fmap. }
  pose proof Hl' as Hl''. rewrite <- (objects_zlen o KMemory Ho) in Hl''.
  destruct (create_ok my_node_id KMemory (ob_tables o) (oo_tables o Ho) Hl'') as (t' & E & _).
  unfold new_memory. rewrite E. eexists. split; [done|]. split; [|by eauto].
  eapply created_ok; [exact Ho|exact Hl'|exact E|done|].
  intros []; simpl; rewrite ?fmap_app; done.
Qed.

Lemma new_ib_memory_ok o k size reg :
  objects_ok o → zlen (ob_ib_mems o) < index_limit → ∃ o',
    new_ib_memory o k size reg = Some o' ∧ objects_ok o' ∧
    (∃ id, ob_ib_mems o' = ob_ib_mems o ++ [mkMemObj id k size reg]) ∧
    ob_mems o' = ob_mems o ∧ ob_procs o' = ob_procs o.
Proof.
  intros Ho Hl. assert (zlen (ids KIbMemory o) < index_limit) as Hl'.
  { simpl. unfold zlen in *. by rewrite length_fmap. }
  pose proof Hl' as Hl''. rewrite <- (objects_zlen o KIbMemory Ho) in Hl''.
  destruct (create_ok my_node_id KIbMemory (ob_tables o) (oo_tables o Ho) Hl'') as (t' & E & _).
  unfold new_ib_memory. rewrite E. eexists. split; [done|]. split; [|by eauto].
  eapply created_ok; [exact Ho|exact Hl'|exact E|done|].
  intros []; simpl; rewrite ?fmap_app; done.
Qed.

Lemma new_processors_ok k cores num : ∀ o,
  objects_ok o → zlen (ob_procs o) + Z.of_nat num ≤ index_limit → ∃ o',
    new_processors num o k cores = Some o' ∧ objects_ok o' ∧
    po_kind <$> ob_procs o' = (po_kind <$> ob_procs o) ++ replicate num k ∧
    ob_mems o' = ob_mems o ∧ ob_ib_mems o' = ob_ib_mems o.
Proof.
  induction num as [|num IH]; intros o Ho Hl; cbn [new_processors].
  { exists o. split_all; try done. by rewrite app_nil_r. }
  assert (zlen (ids KProcessor o) < index_limit) as Hl'.
  { simpl. unfold zlen in *. rewrite length_fmap. lia. }
  pose proof Hl' as Hl''. rewrite <- (objects_zlen o KProcessor Ho) in Hl''.
  destruct (create_ok my_node_id KProcessor (ob_tables o) (oo_tables o Ho) Hl'') as (t' & E & _).
  unfold new_processor. rewrite E. cbn [mbind option_bind].
  destruct (IH (mkObjs t' (ob_mems o) (ob_ib_mems o)
    (ob_procs o ++ [mkProcObj (make_id my_node_id KProcessor (zlen (table KProcessor (ob_tables o)))) k cores])))
    as (o' & E' & Ho' & Hk & Hm & Hi).
  - eapply created_ok; [exact Ho|exact Hl'|exact E|done|].
    intros []; simpl; rewrite ?fmap_app; done.
  - simpl. rewrite zlen_app. change (zlen [_]) with 1. lia.
  - exists o'. split_all; try done. rewrite Hk. simpl. by rewrite fmap_app, <- app_assoc.
Qed.

(** What a configuration asks for. *)
Definition mems_wanted (c : CoreModule) (reg_mb disk_mb reg_base file_size : Z)
    : list (MemKind * (Z * Z)) :=
  (if decide (sysmem_size_in_mb c > 0) then [(SYSTEM_MEM, (mb (sysmem_size_in_mb c), 0))] else []) ++
  (if decide (reg_mb > 0) then [(REGDMA_MEM, (mb reg_mb, reg_base))] else []) ++
  (if decide (disk_mb > 0) then [(DISK_MEM, (mb disk_mb, 0))] else []) ++
  [(FILE_MEM, (file_size, 0))].
Definition procs_wanted (c : CoreModule) : list ProcKind :=
  replicate (Z.to_nat (num_util_procs c)) UTIL_PROC ++
  replicate (Z.to_nat (num_io_procs c)) IO_PROC ++
  replicate (Z.to_nat (num_cpu_procs c)) LOC_PROC.

Definition mem_desc (m : mem_obj) : MemKind * (Z * Z) := (mo_kind m, (mo_size m, mo_reg m)).

Lemma create_processors_ok c cores o :
  objects_ok o → zlen (ob_procs o) + zlen (procs_wanted c) ≤ index_limit → ∃ o',
    create_processors c cores o = Some o' ∧ objects_ok o' ∧
    po_kind <$> ob_procs o' = (po_kind <$> ob_procs o) ++ procs_wanted c ∧
    ob_mems o' = ob_mems o ∧ ob_ib_mems o' = ob_ib_mems o.
Proof.
  intros Ho Hl. unfold procs_wanted in Hl. unfold zlen in Hl.
  rewrite !length_app, !length_replicate in Hl.
  assert (∀ o' : objects, length (ob_procs o') = length (po_kind <$> ob_procs o')) as Hlen.
  { intros o'. by rewrite length_fmap. }
  unfold create_processors.
  destruct (new_processors_ok UTIL_PROC (cores UTIL_PROC) (Z.to_nat (num_util_procs c)) o Ho)
    as (o1 & -> & Ho1 & Hk1 & Hm1 & Hi1); [unfold zlen; lia|]. simpl.
  pose proof (Hlen o1) as Hl1. rewrite Hk1, length_app, length_replicate, <- Hlen in Hl1.
  destruct (new_processors_ok IO_PROC (cores IO_PROC) (Z.to_nat (num_io_procs c)) o1 Ho1)
    as (o2 & -> & Ho2 & Hk2 & Hm2 & Hi2); [unfold zlen; lia|]. simpl.
  pose proof (Hlen o2) as Hl2. rewrite Hk2, length_app, length_replicate, <- Hlen in Hl2.
  destruct (new_processors_ok LOC_PROC (cores LOC_PROC) (Z.to_nat (num_cpu_procs c)) o2 Ho2)
    as (o3 & -> & Ho3 & Hk3 & Hm3 & Hi3); [unfold zlen; lia|].
  exists o3. split_all; try done; try congruence. unfold procs_wanted.
  by rewrite Hk3, Hk2, Hk1, <- !app_assoc.
Qed.

(** An optional memory, or intermediate buffer. *)
Lemma opt_memory_ok (P : Prop) `{Decision P} o k size reg :
  objects_ok o → zlen (ob_mems o) < index_limit → ∃ o',
    (if decide P then new_memory o k size reg else Some o) = Some o' ∧ objects_ok o' ∧
    mem_desc <$> ob_mems o' =
      (mem_desc <$> ob_mems o) ++ (if decide P then [(k, (size, reg))] else []) ∧
    ob_ib_mems o' = ob_ib_mems o ∧ ob_procs o' = ob_procs o.
Proof.
  intros Ho Hl. case_decide; [|exists o; by rewrite app_nil_r].
  destruct (new_memory_ok o k size reg Ho Hl) as (o' & -> & Ho' & (id & Hm) & ? & ?).
  exists o'. split_all; try done. by rewrite Hm, fmap_app.
Qed.

Lemma opt_ib_memory_ok (P : Prop) `{Decision P} o k size reg :
  objects_ok o → zlen (ob_ib_mems o) < index_limit → ∃ o',
    (if decide P then new_ib_memory o k size reg else Some o) = Some o' ∧ objects_ok o' ∧
    mem_desc <$> ob_ib_mems o' =
      (mem_desc <$> ob_ib_mems o) ++ (if decide P then [(k, (size, reg))] else []) ∧
    ob_mems o' = ob_mems o ∧ ob_procs o' = ob_procs o.
Proof.
  intros Ho Hl. case_decide; [|exists o; by rewrite app_nil_r].
  destruct (new_ib_memory_ok o k size reg Ho Hl) as (o' & -> & Ho' & (id & Hm) & ? & ?).
  exists o'. split_all; try done. by rewrite Hm, fmap_app.
Qed.

(** An identifier of the kind and of this node. *)
Definition id_typed (k : kind) (id : Z) : Prop :=
  match k with
  | KMemory => is_memory id = true ∧ owner_node id = my_node_id
  | KIbMemory => is_memory id = false ∧ is_ib_memory id = true ∧ ib_owner_node id = my_node_id
  | KProcessor => is_procgroup id = false ∧ is_processor id = true ∧ proc_owner_node id = my_node_id
  end.

Lemma ids_typed o k id :
  objects_ok o → zlen (ids k o) ≤ index_limit → id ∈ ids k o → id_typed k id.
Proof.
  intros Ho Hl Hid. rewrite (oo_ids o Ho) in Hid.
  apply list_elem_of_fmap in Hid as (i & -> & Hi%elem_of_seqZ).
  rewrite objects_zlen in Hi by done. assert (0 ≤ i < index_limit) as Hi' by lia.
  pose proof (id_memory i Hi'). pose proof (id_ib_memory i Hi'). pose proof (id_processor i Hi').
  destruct k; simpl in *; tauto.
Qed.

(** An object is found by its identifier. *)
Lemma ids_found pg nodes o k id :
  objects_ok o → 0 ≤ my_node_id < zlen nodes → zlen (ids k o) ≤ index_limit → id ∈ ids k o →
  found pg (aset nodes my_node_id (ob_tables o)) k id.
Proof.
  intros Ho Hn Hl Hid. rewrite (oo_ids o Ho) in Hid.
  apply list_elem_of_fmap in Hid as (i & -> & Hi%elem_of_seqZ).
  apply (entry_found my_node_id pg _ k (ob_tables o)); [apply Ho|by apply aget_aset_eq|lia|].
  rewrite objects_zlen in Hi by done. lia.
Qed.

Lemma create_objects_good c cores reg_mb ib_mb disk_mb reg_base ib_base file_size :
  4 ≤ index_limit → zlen (procs_wanted c) ≤ index_limit →
  ∃ o, create_objects c cores reg_mb ib_mb disk_mb reg_base ib_base file_size objects_init = Some o ∧
    mem_desc <$> ob_mems o = mems_wanted c reg_mb disk_mb reg_base file_size ∧
    mem_desc <$> ob_ib_mems o = (if decide (ib_mb > 0) then [(REGDMA_MEM, (mb ib_mb, ib_base))] else []) ∧
    po_kind <$> ob_procs o = procs_wanted c ∧
    objects_ok o ∧ (∀ k, zlen (ids k o) ≤ index_limit).
Proof.
  intros H4 Hl. unfold create_objects, create_memories.
  assert (∀ (o : objects) l, mem_desc <$> ob_mems o = l → zlen (ob_mems o) = zlen l) as Hlen.
  { intros o l <-. unfold zlen. by rewrite length_fmap. }
  assert (∀ (P : Prop) `{Decision P} (x : MemKind * (Z * Z)),
    zlen (if decide P then [x] else []) ≤ 1) as Hopt by (intros; case_decide; done).
  destruct (opt_memory_ok (sysmem_size_in_mb c > 0) objects_init SYSTEM_MEM
    (mb (sysmem_size_in_mb c)) 0 objects_init_ok) as (o1 & -> & Ho1 & Hm1 & Hi1 & Hp1);
    [unfold zlen; simpl; lia|]. simpl in Hm1.
  pose proof (Hopt (sysmem_size_in_mb c > 0) _ (SYSTEM_MEM, (mb (sysmem_size_in_mb c), 0))) as S1.
  pose proof (Hlen o1 _ Hm1) as L1. cbn [mbind option_bind].
  destruct (opt_memory_ok (reg_mb > 0) o1 REGDMA_MEM (mb reg_mb) reg_base Ho1)
    as (o2 & -> & Ho2 & Hm2 & Hi2 & Hp2); [lia|]. cbn [mbind option_bind].
  pose proof (Hopt (reg_mb > 0) _ (REGDMA_MEM, (mb reg_mb, reg_base))) as S2.
  rewrite Hm1 in Hm2. pose proof (Hlen o2 _ Hm2) as L2. rewrite zlen_app in L2.
  destruct (create_processors_ok c cores o2 Ho2) as (o3 & -> & Ho3 & Hk3 & Hm3 & Hi3);
    [rewrite Hp2, Hp1; unfold zlen in *; simpl; lia|]. cbn [mbind option_bind].
  rewrite Hp2, Hp1 in Hk3. rewrite Hi2, Hi1 in Hi3. rewrite <- Hm3 in Hm2, L2.
  destruct (opt_ib_memory_ok (ib_mb > 0) o3 REGDMA_MEM (mb ib_mb) ib_base Ho3)
    as (o4 & -> & Ho4 & Hi4 & Hm4 & Hp4); [rewrite Hi3; unfold zlen; simpl; lia|].
  cbn [mbind option_bind]. rewrite Hi3 in Hi4. rewrite <- Hm4 in Hm2, L2.
  destruct (opt_memory_ok (disk_mb > 0) o4 DISK_MEM (mb disk_mb) 0 Ho4)
    as (o5 & -> & Ho5 & Hm5 & Hi5 & Hp5); [lia|]. cbn [mbind option_bind].
  pose proof (Hopt (disk_mb > 0) _ (DISK_MEM, (mb disk_mb, 0))) as S5.
  rewrite Hm2 in Hm5. pose proof (Hlen o5 _ Hm5) as L5. rewrite !zlen_app in L5.
  destruct (new_memory_ok o5 FILE_MEM file_size 0 Ho5) as (o & -> & Ho & (id & Hm) & Hi & Hp); [lia|].
  exists o. split_all; [done| | | | |].
  - rewrite Hm, fmap_app, Hm5. unfold mems_wanted. by rewrite <- !app_assoc.
  - by rewrite Hi, Hi5.
  - by rewrite Hp, Hp5, Hp4.
  - done.
  - assert (zlen (ob_mems o) ≤ 4) as Lm.
    { rewrite Hm, zlen_app. change (zlen [_]) with 1. lia. }
    assert (zlen (ob_ib_mems o) ≤ 1) as Li.
    { rewrite Hi, Hi5. transitivity (zlen (mem_desc <$> ob_ib_mems o4)).
      - unfold zlen. rewrite length_fmap. done.
      - rewrite Hi4. simpl. apply Hopt. }
    assert (zlen (ob_procs o) = zlen (procs_wanted c)) as Lp.
    { rewrite Hp, Hp5, Hp4. transitivity (zlen (po_kind <$> ob_procs o3)).
      - unfold zlen. by rewrite length_fmap.
      - by rewrite Hk3. }
    intros []; simpl; unfold zlen in *; rewrite length_fmap; lia.
Qed.

(** C31. A node's configuration creates what it asks for.  With no more processors
    than an index can number, no assertion fails; the memories are the system
    memory, the registered memory and the disk memory, as far as their sizes
    are not zero, and the file memory, with their sizes and registered bases;
    the processors are the utility, then the I/O, then the CPU processors;
    every identifier is one of its kind and of this node, they are numbered in
    this order, so none is given twice, and looking any of them up finds its
    object. *)
Theorem create_objects_ok pg nodes c cores reg_mb ib_mb disk_mb reg_base ib_base file_size :
  4 ≤ index_limit → zlen (procs_wanted c) ≤ index_limit → 0 ≤ my_node_id < zlen nodes →
  ∃ o, create_objects c cores reg_mb ib_mb disk_mb reg_base ib_base file_size objects_init = Some o ∧
    mem_desc <$> ob_mems o = mems_wanted c reg_mb disk_mb reg_base file_size ∧
    mem_desc <$> ob_ib_mems o = (if decide (ib_mb > 0) then [(REGDMA_MEM, (mb ib_mb, ib_base))] else []) ∧
    po_kind <$> ob_procs o = procs_wanted c ∧
    (∀ k, ids k o = make_id my_node_id k <$> seqZ 0 (zlen (ids k o))) ∧
    (∀ k id, id ∈ ids k o → id_typed k id) ∧
    (∀ k id, id ∈ ids k o → found pg (aset nodes my_node_id (ob_tables o)) k id).
Proof.
  intros H4 Hl Hn.
  destruct (create_objects_good c cores reg_mb ib_mb disk_mb reg_base ib_base file_size H4 Hl)
    as (o & E & Hm & Hi & Hp & Ho & Hlen).
  exists o. split_all; try done.
  - intros k. rewrite <- objects_zlen by done. apply Ho.
  - intros k id. by apply ids_typed.
  - intros k id. by apply ids_found.
Qed.
End node.

(** ** Affinities *)

(** A [ProcessorMemoryAffinity] or [MemoryMemoryAffinity]. *)
Record affinity := mkAff { af_from : Z; af_to : Z; bandwidth : Z; latency : Z }.

(** [MachineImpl]: look-up by pair or by first member, and addition. *)
Class MachineOps (M : Type) := {
  get_pma : M → Z → Z → list affinity;
  get_mma : M → Z → Z → list affinity;
  pmas_of : M → Z → list affinity;
  mmas_of : M → Z → list affinity;
  add_pma : M → affinity → M;
  add_mma : M → affinity → M }.

Definition is_aff (p q : Z) (a : affinity) : Prop := af_from a = p ∧ af_to a = q.
#[global] Instance is_aff_dec p q a : Decision (is_aff p q a).
Proof. unfold is_aff. apply _. Defined.

(** What is added is found, and the look-ups agree. *)
Class MachineLaws (M : Type) `{MachineOps M} := {
  get_pma_add m a p q : get_pma (add_pma m a) p q = get_pma m p q ++ filter (is_aff p q) [a];
  get_mma_add m a p q : get_mma (add_mma m a) p q = get_mma m p q ++ filter (is_aff p q) [a];
  get_pma_mma m a p q : get_pma (add_mma m a) p q = get_pma m p q;
  get_mma_pma m a p q : get_mma (add_pma m a) p q = get_mma m p q;
  pmas_of_get m p q : filter (is_aff p q) (pmas_of m p) = get_pma m p q;
  pmas_of_from m p a : a ∈ pmas_of m p → af_from a = p;
  mmas_of_get m p q : filter (is_aff p q) (mmas_of m p) = get_mma m p q }.

Section affinities.
Context {M : Type} `{MachineOps M}.

(** The body of the two nested loops, for processors and for memories. *)
Definition add_missing_pma (m : M) (a : affinity) : M :=
  match get_pma m (af_from a) (af_to a) with [] => add_pma m a | _ => m end.
Definition add_missing_mma (m : M) (a : affinity) : M :=
  match get_mma m (af_from a) (af_to a) with [] => add_mma m a | _ => m end.

Definition pairs (xs ys : list Z) (bw lat : Z) : list affinity :=
  xs ≫= λ x, (λ y, mkAff x y bw lat) <$> ys.

Definition add_proc_mem_affinities (m : M) (procs mems : list Z) (bw lat : Z) : M :=
  foldl add_missing_pma m (pairs procs mems bw lat).
Definition add_mem_mem_affinities (m : M) (mems1 mems2 : list Z) (bw lat : Z) : M :=
  foldl add_missing_mma m (pairs mems1 mems2 bw lat).

(** A [std::set] of identifiers, in the order of its iteration. *)
Definition id_set (l : list Z) : list Z := merge_sort Z.le (remove_dups l).

Definition procs_by_kind (o : objects) (k : ProcKind) : list Z :=
  id_set (po_me <$> filter (λ p, po_kind p = k) (ob_procs o)).

(** The global memory is entered under its kind when there is one. *)
Definition mems_by_kind (o : objects) (global_memory : option Z) (k : MemKind) : list Z :=
  id_set ((mo_me <$> filter (λ m, mo_kind m = k) (ob_mems o)) ++
          match global_memory with
          | Some g => if decide (k = GLOBAL_MEM) then [g] else []
          | None => []
          end).

(** The calls of the three blocks, with their constants. *)
Definition cpu_table : list (MemKind * (Z * Z)) :=
  [(SYSTEM_MEM, (100, 5)); (REGDMA_MEM, (80, 10)); (DISK_MEM, (5, 100)); (HDF_MEM, (5, 100));
   (FILE_MEM, (5, 100)); (GLOBAL_MEM, (10, 50))].
Definition mem_table : list (MemKind * (Z * Z)) :=
  [(GLOBAL_MEM, (30, 25)); (DISK_MEM, (15, 50)); (FILE_MEM, (15, 50))].

(** [local_cpu_kinds] is the set of the four kinds in the order of its
    iteration. *)
Definition add_affinities (o : objects) (global_memory : option Z)
    (local_cpu_kinds : list ProcKind) (m : M) : M :=
  let procs := procs_by_kind o in
  let mems := mems_by_kind o global_memory in
  let m := foldl (λ m k, foldl (λ m '(mk, (bw, lat)),
             add_proc_mem_affinities m (procs k) (mems mk) bw lat) m cpu_table)
             m local_cpu_kinds in
  let m := foldl (λ m '(mk, (bw, lat)),
             add_mem_mem_affinities m (mems SYSTEM_MEM) (mems mk) bw lat) m mem_table in
  foldl (λ m k, add_proc_mem_affinities m (procs k) (mems Z_COPY_MEM) 40 3) m local_cpu_kinds.
End affinities.

(** ** The affinities added *)

Section affinities_correct.
Context {M : Type} `{MachineLaws M}.

(** After adding the missing ones among [l], a pair that had affinities has
    the same, and one that had none has the first of [l], if any. *)
Lemma add_missing_pma_get l : ∀ (m : M) p q,
  get_pma (foldl add_missing_pma m l) p q =
  match get_pma m p q with
  | [] => take 1 (filter (is_aff p q) l)
  | as_ => as_
  end.
Proof.
  induction l as [|a l IH]; intros m p q; [simpl; by destruct (get_pma m p q)|]. simpl. rewrite IH.
  rewrite (filter_cons _ a). unfold add_missing_pma. destruct (decide (is_aff p q a)) as [Ha|Ha].
  - destruct Ha as [<- <-]. destruct (get_pma m (af_from a) (af_to a)) as [|b bs] eqn:E.
    + rewrite get_pma_add, E, filter_cons_True by done. done.
    + by rewrite E.
  - destruct (get_pma m (af_from a) (af_to a)); [|done].
    rewrite get_pma_add, filter_cons_False, app_nil_r by done. done.
Qed.

Lemma add_missing_mma_get l : ∀ (m : M) p q,
  get_mma (foldl add_missing_mma m l) p q =
  match get_mma m p q with
  | [] => take 1 (filter (is_aff p q) l)
  | as_ => as_
  end.
Proof.
  induction l as [|a l IH]; intros m p q; [simpl; by destruct (get_mma m p q)|]. simpl. rewrite IH.
  rewrite (filter_cons _ a). unfold add_missing_mma. destruct (decide (is_aff p q a)) as [Ha|Ha].
  - destruct Ha as [<- <-]. destruct (get_mma m (af_from a) (af_to a)) as [|b bs] eqn:E.
    + rewrite get_mma_add, E, filter_cons_True by done. done.
    + by rewrite E.
  - destruct (get_mma m (af_from a) (af_to a)); [|done].
    rewrite get_mma_add, filter_cons_False, app_nil_r by done. done.
Qed.

Lemma add_missing_pma_mma l : ∀ (m : M) p q,
  get_mma (foldl add_missing_pma m l) p q = get_mma m p q.
Proof.
  induction l as [|a l IH]; intros m p q; [done|]. simpl. rewrite IH.
  unfold add_missing_pma. destruct (get_pma _ _ _); [apply get_mma_pma|done].
Qed.

Lemma add_missing_mma_pma l : ∀ (m : M) p q,
  get_pma (foldl add_missing_mma m l) p q = get_pma m p q.
Proof.
  induction l as [|a l IH]; intros m p q; [done|]. simpl. rewrite IH.
  unfold add_missing_mma. destruct (get_mma _ _ _); [apply get_pma_mma|done].
Qed.

(** All the pairs the three blocks go through, in order. *)
Definition pma_jobs (o : objects) (g : option Z) (ks : list ProcKind) : list affinity :=
  (ks ≫= λ k, cpu_table ≫= λ e, pairs (procs_by_kind o k) (mems_by_kind o g e.1) e.2.1 e.2.2) ++
  (ks ≫= λ k, pairs (procs_by_kind o k) (mems_by_kind o g Z_COPY_MEM) 40 3).
Definition mma_jobs (o : objects) (g : option Z) : list affinity :=
  mem_table ≫= λ e, pairs (mems_by_kind o g SYSTEM_MEM) (mems_by_kind o g e.1) e.2.1 e.2.2.

Lemma foldl_bind {A B C} (f : C → B → C) (g : A → list B) (l : list A) : ∀ c,
  foldl f c (l ≫= g) = foldl (λ c x, foldl f c (g x)) c l.
Proof.
  induction l as [|x l IH]; intros c; [done|]. rewrite bind_cons, foldl_app. by rewrite IH.
Qed.

Lemma foldl_ext {A C} (f f' : C → A → C) (l : list A) : ∀ c,
  (∀ c x, f c x = f' c x) → foldl f c l = foldl f' c l.
Proof. induction l as [|x l IH]; intros c He; [done|]. simpl. by rewrite He, IH. Qed.

Lemma add_affinities_jobs o g ks (m : M) :
  add_affinities o g ks m =
  foldl add_missing_pma (foldl add_missing_mma (foldl add_missing_pma m
    (ks ≫= λ k, cpu_table ≫= λ e, pairs (procs_by_kind o k) (mems_by_kind o g e.1) e.2.1 e.2.2))
    (mma_jobs o g)) (ks ≫= λ k, pairs (procs_by_kind o k) (mems_by_kind o g Z_COPY_MEM) 40 3).
Proof.
  unfold add_affinities, mma_jobs, add_proc_mem_affinities, add_mem_mem_affinities.
  rewrite (foldl_bind add_missing_pma _ ks), (foldl_bind add_missing_mma _ mem_table).
  rewrite (foldl_bind add_missing_pma _ ks).
  assert (∀ m : M, foldl (λ (m : M) (k : ProcKind), foldl (λ (m : M) '(mk, (bw, lat)),
      foldl add_missing_pma m (pairs (procs_by_kind o k) (mems_by_kind o g mk) bw lat)) m cpu_table) m ks =
    foldl (λ (c : M) (x : ProcKind), foldl add_missing_pma c (cpu_table ≫= λ e,
      pairs (procs_by_kind o x) (mems_by_kind o g e.1) e.2.1 e.2.2)) m ks) as E1.
  { intros m'. apply foldl_ext. intros c k. rewrite foldl_bind. apply foldl_ext.
    by intros c' [mk [bw lat]]. }
  by rewrite E1.
Qed.

Lemma add_affinities_pma o g ks (m : M) p q :
  get_pma (add_affinities o g ks m) p q =
  match get_pma m p q with [] => take 1 (filter (is_aff p q) (pma_jobs o g ks)) | as_ => as_ end.
Proof.
  rewrite add_affinities_jobs, add_missing_pma_get, add_missing_mma_pma, add_missing_pma_get.
  unfold pma_jobs. rewrite filter_app. destruct (get_pma m p q); [|done].
  by destruct (filter (is_aff p q) (ks ≫= _)).
Qed.

Lemma add_affinities_mma o g ks (m : M) p q :
  get_mma (add_affinities o g ks m) p q =
  match get_mma m p q with [] => take 1 (filter (is_aff p q) (mma_jobs o g)) | as_ => as_ end.
Proof.
  by rewrite add_affinities_jobs, add_missing_pma_mma, add_missing_mma_get, add_missing_pma_mma.
Qed.

Lemma id_set_elem l x : x ∈ id_set l ↔ x ∈ l.
Proof. unfold id_set. by rewrite (merge_sort_Permutation Z.le), elem_of_remove_dups. Qed.

Lemma id_set_NoDup l : NoDup (id_set l).
Proof. unfold id_set. rewrite (merge_sort_Permutation Z.le). apply NoDup_remove_dups. Qed.

Lemma filter_none {A} (P : A → Prop) `{∀ x, Decision (P x)} l : (∀ x, x ∈ l → ¬ P x) → filter P l = [].
Proof.
  induction l as [|x l IH]; intros Hn; [done|].
  rewrite filter_cons_False by (apply Hn; by left). apply IH. intros y Hy. apply Hn. by right.
Qed.

Lemma filter_bind {A B} (P : B → Prop) `{∀ x, Decision (P x)} (f : A → list B) l :
  filter P (l ≫= f) = l ≫= λ x, filter P (f x).
Proof.
  induction l as [|x l IH]; [done|]. by rewrite !bind_cons, filter_app, IH.
Qed.

Lemma bind_one {A B} `{EqDecision A} (y : A) (X : list B) (l : list A) :
  NoDup l → l ≫= (λ x, if decide (x = y) then X else []) = if decide (y ∈ l) then X else [].
Proof.
  induction 1 as [|x l Hx _ IH]; [done|]. rewrite bind_cons, IH.
  destruct (decide (x = y)) as [->|Hne].
  - rewrite (decide_False (P := y ∈ l)) by done. rewrite decide_True by (by left). apply app_nil_r.
  - simpl. destruct (decide (y ∈ l)).
    + by rewrite decide_True by (by right).
    + rewrite decide_False; [done|]. rewrite elem_of_cons. naive_solver.
Qed.

Lemma row_filter x ys bw lat p q :
  NoDup ys →
  filter (is_aff p q) ((λ y, mkAff x y bw lat) <$> ys) =
  if decide (x = p) then if decide (q ∈ ys) then [mkAff p q bw lat] else [] else [].
Proof.
  intros Hy. rewrite <- (bind_one q [mkAff p q bw lat] ys Hy). clear Hy.
  induction ys as [|y ys IH]; [by case_decide|].
  rewrite fmap_cons, bind_cons, filter_cons, IH.
  destruct (decide (is_aff p q (mkAff x y bw lat))) as [[<- <-]|Hn]; simpl.
  - by rewrite !(decide_True (P := _ = _)).
  - destruct (decide (x = p)) as [->|?], (decide (y = q)) as [->|?]; try done. by destruct Hn.
Qed.

Lemma pairs_filter xs ys bw lat p q :
  NoDup xs → NoDup ys →
  filter (is_aff p q) (pairs xs ys bw lat) =
  if decide (p ∈ xs ∧ q ∈ ys) then [mkAff p q bw lat] else [].
Proof.
  intros Hx Hy. unfold pairs. rewrite filter_bind.
  rewrite (list_bind_ext _ (λ x, if decide (x = p) then
    if decide (q ∈ ys) then [mkAff p q bw lat] else [] else []) xs xs)
    by (intros; done || by apply row_filter).
  rewrite bind_one by done.
  destruct (decide (p ∈ xs)), (decide (q ∈ ys)); by (rewrite decide_True + rewrite decide_False by tauto).
Qed.

(** The memories an affinity may be to, with their kinds. *)
Definition all_mems (o : objects) (g : option Z) : list (Z * MemKind) :=
  ((λ m, (mo_me m, mo_kind m)) <$> ob_mems o) ++ ((λ g, (g, GLOBAL_MEM)) <$> option_list g).
Definition all_procs (o : objects) : list (Z * ProcKind) :=
  (λ p, (po_me p, po_kind p)) <$> ob_procs o.

Lemma mems_by_kind_elem o g k q : q ∈ mems_by_kind o g k ↔ (q, k) ∈ all_mems o g.
Proof.
  unfold mems_by_kind, all_mems. rewrite id_set_elem, !elem_of_app. f_equiv.
  - rewrite !list_elem_of_fmap. setoid_rewrite list_elem_of_filter. split.
    + intros (m & -> & <- & Hm). by exists m.
    + intros (m & E & Hm). injection E as -> ->. by exists m.
  - destruct g as [g|]; [|split; by intros ?%elem_of_nil]. simpl. case_decide; rewrite ?list_elem_of_singleton.
    + naive_solver.
    + split; [by intros ?%elem_of_nil|]. intros [= _ ?]. done.
Qed.

Lemma procs_by_kind_elem o k p : p ∈ procs_by_kind o k ↔ (p, k) ∈ all_procs o.
Proof.
  unfold procs_by_kind, all_procs. rewrite id_set_elem, !list_elem_of_fmap.
  setoid_rewrite list_elem_of_filter. split.
  - intros (m & -> & <- & Hm). by exists m.
  - intros (m & E & Hm). injection E as -> ->. by exists m.
Qed.

Definition cpu_kinds : list ProcKind := [LOC_PROC; UTIL_PROC; IO_PROC; PROC_SET].

(** Bandwidth and latency by kinds. *)
Definition pma_spec (pk : ProcKind) (mk : MemKind) : option (Z * Z) :=
  if decide (pk ∈ cpu_kinds) then
    match mk with
    | SYSTEM_MEM => Some (100, 5) | REGDMA_MEM => Some (80, 10)
    | DISK_MEM | HDF_MEM | FILE_MEM => Some (5, 100)
    | GLOBAL_MEM => Some (10, 50) | Z_COPY_MEM => Some (40, 3)
    | OtherMem _ => None
    end
  else None.
Definition mma_spec (mk1 mk2 : MemKind) : option (Z * Z) :=
  match mk1, mk2 with
  | SYSTEM_MEM, GLOBAL_MEM => Some (30, 25)
  | SYSTEM_MEM, DISK_MEM | SYSTEM_MEM, FILE_MEM => Some (15, 50)
  | _, _ => None
  end.

Definition aff_of (p q : Z) (s : option (Z * Z)) : list affinity :=
  match s with Some (bw, lat) => [mkAff p q bw lat] | None => [] end.

Lemma kind_unique {K} (l : list (Z * K)) p k k' :
  NoDup l.*1 → (p, k) ∈ l → (p, k') ∈ l → k' = k.
Proof.
  intros Hn Hk Hk'. apply list_elem_of_lookup in Hk as [i Hi], Hk' as [j Hj].
  assert (i = j) as ->; [|congruence].
  eapply NoDup_lookup; [exact Hn| |]; rewrite list_lookup_fmap; [by rewrite Hi|by rewrite Hj].
Qed.

Lemma pma_jobs_filter o g ks p pk q mk :
  NoDup (all_procs o).*1 → NoDup (all_mems o g).*1 → ks ≡ₚ cpu_kinds →
  (p, pk) ∈ all_procs o → (q, mk) ∈ all_mems o g →
  filter (is_aff p q) (pma_jobs o g ks) = aff_of p q (pma_spec pk mk).
Proof.
  intros Hnp Hnm Hks Hp Hq.
  assert (∀ k mk' bw lat, filter (is_aff p q) (pairs (procs_by_kind o k) (mems_by_kind o g mk') bw lat)
    = if decide (k = pk) then if decide (mk' = mk) then [mkAff p q bw lat] else [] else []) as E.
  { intros k mk' bw lat. rewrite pairs_filter by apply id_set_NoDup.
    destruct (decide (k = pk)) as [->|Hk].
    - destruct (decide (mk' = mk)) as [->|Hm'].
      + rewrite decide_True; [done|]. by rewrite procs_by_kind_elem, mems_by_kind_elem.
      + rewrite decide_False; [done|]. rewrite mems_by_kind_elem. intros [_ Hq'].
        by apply Hm', (kind_unique _ _ _ _ Hnm Hq).
    - rewrite decide_False; [done|]. rewrite procs_by_kind_elem. intros [Hp' _].
      by apply Hk, (kind_unique _ _ _ _ Hnp Hp). }
  assert (NoDup ks) as Hnd.
  { rewrite Hks. apply (bool_decide_unpack _). by vm_compute. }
  assert (∀ X : list affinity, ks ≫= (λ k, if decide (k = pk) then X else []) =
    if decide (pk ∈ cpu_kinds) then X else []) as Hbind.
  { intros X. rewrite bind_one by done.
    destruct (decide (pk ∈ ks)) as [Hin|Hin]; rewrite Hks in Hin;
      [by rewrite decide_True|by rewrite decide_False]. }
  unfold pma_jobs. rewrite filter_app, !filter_bind.
  rewrite (list_bind_ext _ (λ k, if decide (k = pk) then
    cpu_table ≫= λ e, if decide (e.1 = mk) then [mkAff p q e.2.1 e.2.2] else [] else []) ks ks).
  - rewrite (list_bind_ext (λ x, filter _ (pairs (procs_by_kind o x) _ 40 3)) (λ k, if decide (k = pk) then
      if decide (Z_COPY_MEM = mk) then [mkAff p q 40 3] else [] else []) ks ks) by (intros; done || apply E).
    rewrite !Hbind. unfold pma_spec. destruct (decide (pk ∈ cpu_kinds)); [|done].
    by destruct mk.
  - intros k. rewrite filter_bind.
    rewrite (list_bind_ext _ (λ e, if decide (k = pk) then
      if decide (e.1 = mk) then [mkAff p q e.2.1 e.2.2] else [] else []) cpu_table cpu_table)
      by (intros; done || apply E).
    by destruct (decide (k = pk)).
  - done.
Qed.

Lemma mma_jobs_filter o g p pk q mk :
  NoDup (all_mems o g).*1 → (p, pk) ∈ all_mems o g → (q, mk) ∈ all_mems o g →
  filter (is_aff p q) (mma_jobs o g) = aff_of p q (mma_spec pk mk).
Proof.
  intros Hnm Hp Hq. unfold mma_jobs. rewrite filter_bind.
  rewrite (list_bind_ext _ (λ e, if decide (SYSTEM_MEM = pk) then
    if decide (e.1 = mk) then [mkAff p q e.2.1 e.2.2] else [] else []) mem_table mem_table); [| |done].
  - destruct pk, mk; done.
  - intros e. rewrite pairs_filter by apply id_set_NoDup.
    destruct (decide (SYSTEM_MEM = pk)) as [<-|Hk].
    + destruct (decide (e.1 = mk)) as [<-|Hm'].
      * rewrite decide_True; [done|]. by rewrite !mems_by_kind_elem.
      * rewrite decide_False; [done|]. rewrite !mems_by_kind_elem. intros [_ Hq'].
        by apply Hm', (kind_unique _ _ _ _ Hnm Hq).
    + rewrite decide_False; [done|]. rewrite !mems_by_kind_elem. intros [Hp' _].
      by apply Hk, (kind_unique _ _ _ _ Hnm Hp).
Qed.

(** A pair that is not of the node's objects is not among the jobs. *)
Lemma pma_jobs_foreign o g ks p q :
  p ∉ (all_procs o).*1 ∨ q ∉ (all_mems o g).*1 → filter (is_aff p q) (pma_jobs o g ks) = [].
Proof.
  intros Hno.
  assert (∀ k mk bw lat, filter (is_aff p q) (pairs (procs_by_kind o k) (mems_by_kind o g mk) bw lat) = []) as E.
  { intros k mk bw lat. rewrite pairs_filter by apply id_set_NoDup. rewrite decide_False; [done|].
    rewrite procs_by_kind_elem, mems_by_kind_elem, !list_elem_of_fmap in *.
    intros [Hp Hq]. destruct Hno as [Hno|Hno]; apply Hno; by eexists (_, _). }
  unfold pma_jobs. rewrite filter_app, !filter_bind.
  assert (∀ A (l : list A), l ≫= (λ _, [] : list affinity) = []) as Hnil.
  { intros A l. by induction l. }
  rewrite (list_bind_ext _ (λ _, []) ks ks); [|intros k|done].
  - rewrite Hnil. rewrite (list_bind_ext _ (λ _, []) ks ks) by (intros; done || apply E). apply Hnil.
  - rewrite filter_bind, (list_bind_ext _ (λ _, []) cpu_table cpu_table) by (intros; done || apply E).
    apply Hnil.
Qed.

(** The machine knows every pair of local objects.  However the four CPU
    kinds are iterated, after the affinities are added: a local processor of
    kind [pk] and a memory of kind [mk] have the affinities they had, or, if
    they had none, the one of the table of kinds, and none when the table has
    none; so have two memories; and a pair that is not of this node's objects
    has what it had. *)
Lemma affinities_complete o g ks (m : M) :
  NoDup (all_procs o).*1 → NoDup (all_mems o g).*1 → ks ≡ₚ cpu_kinds →
  (∀ p pk q mk, (p, pk) ∈ all_procs o → (q, mk) ∈ all_mems o g →
    get_pma (add_affinities o g ks m) p q =
      match get_pma m p q with [] => aff_of p q (pma_spec pk mk) | as_ => as_ end) ∧
  (∀ p pk q mk, (p, pk) ∈ all_mems o g → (q, mk) ∈ all_mems o g →
    get_mma (add_affinities o g ks m) p q =
      match get_mma m p q with [] => aff_of p q (mma_spec pk mk) | as_ => as_ end) ∧
  (∀ p q, p ∉ (all_procs o).*1 ∨ q ∉ (all_mems o g).*1 →
    get_pma (add_affinities o g ks m) p q = get_pma m p q).
Proof.
  intros Hnp Hnm Hks. split; [|split].
  - intros p pk q mk Hp Hq. rewrite add_affinities_pma, (pma_jobs_filter o g ks p pk q mk) by done.
    destruct (get_pma m p q); [|done]. by destruct (pma_spec pk mk) as [[]|].
  - intros p pk q mk Hp Hq. rewrite add_affinities_mma, (mma_jobs_filter o g p pk q mk) by done.
    destruct (get_mma m p q); [|done]. by destruct (mma_spec pk mk) as [[]|].
  - intros p q Hno. rewrite add_affinities_pma, pma_jobs_foreign by done. by destruct (get_pma m p q).
Qed.
End affinities_correct.

(** ** The announcement

    [ADmaChannel] holds what a channel serializes of itself; that it may
    refuse is the channel's. *)
Inductive announce (B : Type) :=
| AProc (p : Z) (k : ProcKind) (num_cores : Z)
| AMem (m : Z) (k : MemKind) (size regptr : Z)
| AIbMem (m : Z) (k : MemKind) (size regptr : Z)
| APma (a : affinity)
| AMma (a : affinity)
| ADmaChannel (b : B)
| ADone.
Arguments AProc {B} _ _ _. Arguments AMem {B} _ _ _ _. Arguments AIbMem {B} _ _ _ _.
Arguments APma {B} _. Arguments AMma {B} _. Arguments ADmaChannel {B} _. Arguments ADone {B}.

(** The arguments of [NodeAnnounceMessage::send_request] but the target. *)
Record announcement_msg (B : Type) := mkAnn {
  an_num_procs : Z; an_num_memories : Z; an_num_ib_memories : Z; an_items : list (announce B) }.
Arguments mkAnn {B} _ _ _ _. Arguments an_num_procs {B} _. Arguments an_num_memories {B} _.
Arguments an_num_ib_memories {B} _. Arguments an_items {B} _.

Section announcement.
Context {M C B : Type} `{MachineOps M} (my_node_id : Z).
Context (address_space : Z → Z) (serialize_remote_info : C → option B).

(** The entries the loop does not pass over. *)
Definition mma_announced (m : Z) (a : affinity) : bool :=
  negb (bool_decide (af_from a ≠ m) || bool_decide (address_space (af_to a) ≠ my_node_id)).

Definition announcement (o : objects) (dma_channels : list C) (machine : M)
    : option (announcement_msg B) :=
  let procs := (λ p, AProc (po_me p) (po_kind p) (po_cores p)) <$> ob_procs o in
  let mems := (λ m, AMem (mo_me m) (mo_kind m) (mo_size m) (mo_reg m)) <$> ob_mems o in
  let ib_mems := (λ m, AIbMem (mo_me m) (mo_kind m) (mo_size m) (mo_reg m)) <$> ob_ib_mems o in
  let pmas := ob_procs o ≫= λ p, APma <$> pmas_of machine (po_me p) in
  let mmas := ob_mems o ≫= λ m,
    AMma <$> filter (λ a, mma_announced (mo_me m) a) (mmas_of machine (mo_me m)) in
  channels ← mapM serialize_remote_info dma_channels;
  Some (mkAnn (u32 (zlen (ob_procs o))) (u32 (zlen (ob_mems o))) (u32 (zlen (ob_ib_mems o)))
    (procs ++ mems ++ ib_mems ++ pmas ++ mmas ++ (ADmaChannel <$> channels) ++ [ADone])).

(** The targets of the loop over the nodes. *)
Definition announce_targets (max_node_id : Z) : list Z :=
  filter (λ i, i ≠ my_node_id) (seqZ 0 (max_node_id + 1)).
Definition announce_all (max_node_id : Z) (a : announcement_msg B) : list (Z * announcement_msg B) :=
  (λ i, (i, a)) <$> announce_targets max_node_id.
End announcement.

(** ** What the announcement tells *)

(** What a receiver finds in the items. *)
Definition ann_procs {B} (items : list (announce B)) : list proc_obj :=
  items ≫= λ i, match i with AProc p k n => [mkProcObj p k n] | _ => [] end.
Definition ann_mems {B} (items : list (announce B)) : list mem_obj :=
  items ≫= λ i, match i with AMem m k s r => [mkMemObj m k s r] | _ => [] end.
Definition ann_ib_mems {B} (items : list (announce B)) : list mem_obj :=
  items ≫= λ i, match i with AIbMem m k s r => [mkMemObj m k s r] | _ => [] end.
Definition ann_pmas {B} (items : list (announce B)) : list affinity :=
  items ≫= λ i, match i with APma a => [a] | _ => [] end.
Definition ann_mmas {B} (items : list (announce B)) : list affinity :=
  items ≫= λ i, match i with AMma a => [a] | _ => [] end.

Lemma bind_fmap_l {A B C} (f : A → B) (g : B → list C) l : (f <$> l) ≫= g = l ≫= λ x, g (f x).
Proof. induction l as [|x l IH]; [done|]. by rewrite fmap_cons, !bind_cons, IH. Qed.

Lemma bind_fmap_r {A B C} (f : B → C) (g : A → list B) l : l ≫= (λ x, f <$> g x) = f <$> (l ≫= g).
Proof. induction l as [|x l IH]; [done|]. by rewrite !bind_cons, fmap_app, IH. Qed.

Lemma bind_nil_l {A B} (l : list A) : l ≫= (λ _, []) = ([] : list B).
Proof. by induction l. Qed.

Lemma bind_single {A B} (f : A → B) (l : list A) : l ≫= (λ x, [f x]) = f <$> l.
Proof. induction l as [|x l IH]; [done|]. by rewrite bind_cons, fmap_cons, IH. Qed.

Create Rewrite HintDb items.
#[local] Hint Rewrite @bind_app @bind_fmap_l @bind_nil_l @bind_single @app_nil_r : items.

Section announced.
Context `{O : IdOps} {M C B : Type} `{MachineLaws M} (my_node_id : Z).
Context (address_space : Z → Z) (serialize_remote_info : C → option B).
Context {index_limit : Z} `{Ids : !IdLaws O my_node_id index_limit}.
#[local] Existing Instance kind_eq_dec.

Abbreviation announcement := (announcement my_node_id address_space serialize_remote_info).

Lemma ids_NoDup k o :
  objects_ok my_node_id o → zlen (ids k o) ≤ index_limit → NoDup (ids k o).
Proof.
  intros Ho Hl. rewrite (oo_ids my_node_id o Ho), (objects_zlen my_node_id o k Ho).
  apply NoDup_fmap_2_strong; [|apply NoDup_seqZ].
  intros i j Hi%elem_of_seqZ Hj%elem_of_seqZ E. destruct k; simpl in *.
  - assert (mem_idx (make_memory my_node_id i) = i) as <- by (apply id_memory; lia).
    rewrite E. apply id_memory. lia.
  - assert (ib_mem_idx (make_ib_memory my_node_id i) = i) as <- by (apply id_ib_memory; lia).
    rewrite E. apply id_ib_memory. lia.
  - assert (proc_idx (make_processor my_node_id i) = i) as <- by (apply id_processor; lia).
    rewrite E. apply id_processor. lia.
Qed.

Lemma announced_objects o chs (m : M) a :
  announcement o chs m = Some a →
  ann_procs (an_items a) = ob_procs o ∧ ann_mems (an_items a) = ob_mems o ∧
  ann_ib_mems (an_items a) = ob_ib_mems o ∧
  ann_pmas (an_items a) = (ob_procs o ≫= λ p, pmas_of m (po_me p)) ∧
  ann_mmas (an_items a) = (ob_mems o ≫= λ x,
    filter (λ a, mma_announced my_node_id address_space (mo_me x) a) (mmas_of m (mo_me x))) ∧
  last (an_items a) = Some ADone.
Proof.
  unfold announcement. destruct (mapM serialize_remote_info chs) as [cs|] eqn:E; [|done].
  cbn [mbind option_bind]. intros [= <-].
  unfold ann_procs, ann_mems, ann_ib_mems, ann_pmas, ann_mmas. cbn [an_items].
  rewrite (bind_fmap_r APma), (bind_fmap_r AMma).
  autorewrite with items. cbn. split_all; try done.
  - rewrite <- (list_fmap_id (ob_procs o)) at 2. apply list_fmap_ext. by intros ? [].
  - rewrite <- (list_fmap_id (ob_mems o)) at 2. apply list_fmap_ext. by intros ? [].
  - rewrite <- (list_fmap_id (ob_ib_mems o)) at 2. apply list_fmap_ext. by intros ? [].
  - apply list_fmap_id.
  - apply list_fmap_id.
  - by rewrite !app_assoc, last_snoc.
Qed.

Lemma announced_counts o chs (m : M) a :
  objects_ok my_node_id o → (∀ k, zlen (ids k o) ≤ index_limit) → announcement o chs m = Some a →
  an_num_procs a = zlen (ob_procs o) ∧ an_num_memories a = zlen (ob_mems o) ∧
  an_num_ib_memories a = zlen (ob_ib_mems o).
Proof.
  intros Ho Hl. unfold announcement. destruct (mapM serialize_remote_info chs) as [cs|]; [|done].
  cbn [mbind option_bind]. intros [= <-]. cbn [an_num_procs an_num_memories an_num_ib_memories].
  pose proof id_limit as Hlim. change (Z.shiftl 1 12) with 4096 in Hlim.
  pose proof (Hl KProcessor) as H1. pose proof (Hl KMemory) as H2. pose proof (Hl KIbMemory) as H3.
  unfold zlen, u32 in *. simpl in H1, H2, H3. rewrite length_fmap in H1. rewrite length_fmap in H2. rewrite length_fmap in H3.
  rewrite !Z.mod_small by lia. done.
Qed.

(** Entries gathered by first member. *)
Lemma gather_filter {A} (me : A → Z) (f : Z → list affinity) (G : list affinity) p q (l : list A) :
  (∀ x, filter (is_aff p q) (f x) = if decide (x = p) then G else []) → NoDup (me <$> l) →
  filter (is_aff p q) (l ≫= λ x, f (me x)) = if decide (p ∈ me <$> l) then G else [].
Proof.
  intros Hf Hn. rewrite <- (bind_fmap_l me f l), filter_bind, <- (bind_one p G) by done.
  apply list_bind_ext; [|done]. intros x. apply Hf.
Qed.

Lemma pmas_gathered (m : M) p q x :
  filter (is_aff p q) (pmas_of m x) = if decide (x = p) then get_pma m p q else [].
Proof.
  case_decide as Hx; [subst x; apply pmas_of_get|].
  apply filter_none. intros b Hb [Hfrom _]. apply Hx. rewrite <- Hfrom. symmetry.
  by apply (pmas_of_from m).
Qed.

Lemma mmas_gathered (m : M) p q x :
  filter (is_aff p q) (filter (λ a, mma_announced my_node_id address_space x a) (mmas_of m x)) =
  if decide (x = p) then if decide (address_space q = my_node_id) then get_mma m p q else [] else [].
Proof.
  rewrite list_filter_filter. case_decide as Hx; [subst x|].
  - rewrite <- (mmas_of_get m p q). case_decide as Hq.
    + apply list_filter_iff. intros b. split; [by intros []|]. intros [<- <-].
      split; [done|]. unfold mma_announced. by rewrite !bool_decide_eq_false_2 by auto.
    + apply filter_none. intros b _ [[<- <-] Hb]. unfold mma_announced in Hb.
      rewrite (bool_decide_eq_true_2 (address_space _ ≠ _)), orb_true_r in Hb by done. done.
  - apply filter_none. intros b _ [[<- <-] Hb]. unfold mma_announced in Hb.
    by rewrite (bool_decide_eq_true_2 (af_from b ≠ x)) in Hb by done.
Qed.

(** The identifiers of the tables of kinds are the objects', and the global
    memory's. *)
Lemma all_procs_ids o : (all_procs o).*1 = ids KProcessor o.
Proof. unfold all_procs. simpl. by rewrite <- list_fmap_compose. Qed.

Lemma all_mems_ids o g : (all_mems o g).*1 = ids KMemory o ++ option_list g.
Proof.
  unfold all_mems. rewrite fmap_app, <- !list_fmap_compose. f_equal. by destruct g.
Qed.

Lemma announce_all_spec max_node_id (a : announcement_msg B) :
  NoDup (announce_all my_node_id max_node_id a) ∧
  ∀ i b, (i, b) ∈ announce_all my_node_id max_node_id a ↔ 0 ≤ i ≤ max_node_id ∧ i ≠ my_node_id ∧ b = a.
Proof.
  unfold announce_all, announce_targets. split.
  - apply NoDup_fmap_2; [by intros ?? [= ->]|]. apply NoDup_filter, NoDup_seqZ.
  - intros i b. rewrite list_elem_of_fmap. setoid_rewrite list_elem_of_filter.
    setoid_rewrite elem_of_seqZ. split.
    + intros (j & [= -> ->] & ? & ?). split_all; try done; lia.
    + intros (? & ? & ->). exists i. split_all; try done; lia.
Qed.

(** C32. The other nodes are told the machine.  On a node whose objects are
    those of its tables, with a store that knew no affinity: once the missing
    affinities are added, every other node is sent the announcement, once;
    its counts are those of the objects it lists, which are the node's; it
    ends with the end mark; for a local processor and a memory it has just the
    affinity of their kinds; and for two memories the first of which is
    local that of their kinds when the second lives on this node, and none
    otherwise. *)
Theorem machine_announced o g ks m0 chs max_node_id a :
  objects_ok my_node_id o → (∀ k, zlen (ids k o) ≤ index_limit) →
  (∀ g', g = Some g' → g' ∉ ids KMemory o) → ks ≡ₚ cpu_kinds →
  (∀ p q, get_pma m0 p q = [] ∧ get_mma m0 p q = []) →
  announcement o chs (add_affinities o g ks m0) = Some a →
  NoDup (announce_all my_node_id max_node_id a) ∧
  (∀ i b, (i, b) ∈ announce_all my_node_id max_node_id a ↔
    0 ≤ i ≤ max_node_id ∧ i ≠ my_node_id ∧ b = a) ∧
  (ann_procs (an_items a) = ob_procs o ∧ an_num_procs a = zlen (ob_procs o)) ∧
  (ann_mems (an_items a) = ob_mems o ∧ an_num_memories a = zlen (ob_mems o)) ∧
  (ann_ib_mems (an_items a) = ob_ib_mems o ∧ an_num_ib_memories a = zlen (ob_ib_mems o)) ∧
  last (an_items a) = Some ADone ∧
  (∀ p pk q mk, (p, pk) ∈ all_procs o → (q, mk) ∈ all_mems o g →
    filter (is_aff p q) (ann_pmas (an_items a)) = aff_of p q (pma_spec pk mk)) ∧
  (∀ p pk q mk, p ∈ ids KMemory o → (p, pk) ∈ all_mems o g → (q, mk) ∈ all_mems o g →
    filter (is_aff p q) (ann_mmas (an_items a)) =
      if decide (address_space q = my_node_id) then aff_of p q (mma_spec pk mk) else []).
Proof.
  intros Ho Hl Hg Hks Hm0 Ha.
  destruct (announced_objects _ _ _ _ Ha) as (Hp & Hm & Hi & Hpm & Hmm & Hlast).
  destruct (announce_all_spec max_node_id a) as [Hnd Hto].
  pose proof (λ k, ids_NoDup k o Ho (Hl k)) as Hn.
  assert (NoDup (all_procs o).*1) as Hnp by (rewrite all_procs_ids; apply Hn).
  assert (NoDup (all_mems o g).*1) as Hnm.
  { rewrite all_mems_ids. apply NoDup_app. split; [apply Hn|]. destruct g as [g|]; simpl.
    - split; [|apply NoDup_singleton]. intros x Hx ->%list_elem_of_singleton. by apply (Hg g).
    - split; [|apply NoDup_nil_2]. by intros x _ ?%elem_of_nil. }
  refine (conj Hnd (conj Hto (conj (conj Hp _) (conj (conj Hm _) (conj (conj Hi _) (conj Hlast (conj _ _))))))).
  - eapply announced_counts, Ha; done.
  - eapply announced_counts, Ha; done.
  - eapply announced_counts, Ha; done.
  - intros p pk q mk Hpo Hqo. rewrite Hpm, (gather_filter po_me (pmas_of _) _ p q _ (pmas_gathered _ p q) (Hn KProcessor)).
    rewrite decide_True; [|change (p ∈ ids KProcessor o); rewrite <- all_procs_ids; by apply (list_elem_of_fmap_2 fst _ (p, pk))].
    rewrite add_affinities_pma, (pma_jobs_filter o g ks p pk q mk) by done.
    rewrite (proj1 (Hm0 p q)). by destruct (pma_spec pk mk) as [[]|].
  - intros p pk q mk Hpl Hpo Hqo.
    rewrite Hmm, (gather_filter mo_me _ _ p q _ (mmas_gathered _ p q) (Hn KMemory)).
    rewrite decide_True by done. case_decide; [|done].
    rewrite add_affinities_mma, (mma_jobs_filter o g p pk q mk) by done.
    rewrite (proj2 (Hm0 p q)). by destruct (mma_spec pk mk) as [[]|].
Qed.
End announced.

(** ** Examples *)

(** A store that keeps two lists. *)
Definition lists_machine : Type := list affinity * list affinity.

#[global] Instance lists_ops : MachineOps lists_machine := {
  get_pma m p q := filter (is_aff p q) m.1;
  get_mma m p q := filter (is_aff p q) m.2;
  pmas_of m p := filter (λ a, af_from a = p) m.1;
  mmas_of m p := filter (λ a, af_from a = p ∨ af_to a = p) m.2;
  add_pma m a := (m.1 ++ [a], m.2);
  add_mma m a := (m.1, m.2 ++ [a]) }.

#[global] Instance lists_laws : MachineLaws lists_machine.
Proof.
  split; simpl; try done.
  - intros m a p q. by rewrite filter_app.
  - intros m a p q. by rewrite filter_app.
  - intros m p q. apply list_filter_filter_l. by intros a [].
  - intros m p a [? _]%list_elem_of_filter. done.
  - intros m p q. apply list_filter_filter_l. intros a [? _]. by left.
Qed.

(** Node 1 with the defaults, registered memory and a disk. *)
Definition ex_objects : option objects :=
  create_objects (O := example_ids) 1 (create_module [(OptUtil, 1); (OptIo, 1); (OptCpu, 2)])
    (λ _, 1) 64 64 32 4096 8192 100 objects_init.

Lemma create_objects_ok_witness : ∃ o, ex_objects = Some o ∧
  po_kind <$> ob_procs o = [UTIL_PROC; IO_PROC; LOC_PROC; LOC_PROC].
Proof.
  destruct (create_objects_ok (O := example_ids) 1 (index_limit := 4095)
    (L := example_ids_laws 1 ltac:(lia)) (λ _, None) [node_tables_init; node_tables_init]
    (create_module [(OptUtil, 1); (OptIo, 1); (OptCpu, 2)]) (λ _, 1) 64 64 32 4096 8192 100)
    as (o & E & _ & _ & Hk & _); [lia|vm_compute; congruence|vm_compute; split; congruence|].
  exists o. split; [exact E|exact Hk].
Defined.

(** Its objects. *)
Definition ex_objs : objects := default objects_init ex_objects.

Lemma affinities_complete_witness :
  ∃ p q, (p, LOC_PROC) ∈ all_procs ex_objs ∧ (q, DISK_MEM) ∈ all_mems ex_objs (Some 77) ∧
  get_pma (add_affinities (M := lists_machine) ex_objs (Some 77) [PROC_SET; IO_PROC; UTIL_PROC; LOC_PROC] ([], [])) p q
    = [mkAff p q 5 100].
Proof.
  destruct (affinities_complete (M := lists_machine) ex_objs (Some 77)
    [PROC_SET; IO_PROC; UTIL_PROC; LOC_PROC] ([], [])) as [Hp _].
  - apply (bool_decide_unpack _). by vm_compute.
  - apply (bool_decide_unpack _). by vm_compute.
  - apply (bool_decide_unpack _). by vm_compute.
  - eexists _, _. split; [|split].
    + apply (list_elem_of_lookup_2 _ 3). by vm_compute.
    + apply (list_elem_of_lookup_2 _ 2). by vm_compute.
    + rewrite (Hp _ LOC_PROC _ DISK_MEM); [done| |].
      * apply (list_elem_of_lookup_2 _ 3). by vm_compute.
      * apply (list_elem_of_lookup_2 _ 2). by vm_compute.
Defined.

Lemma ex_objs_good :
  objects_ok (O := example_ids) 1 ex_objs ∧ (∀ k, zlen (ids k ex_objs) ≤ 4095).
Proof.
  destruct (create_objects_good (O := example_ids) 1 (index_limit := 4095)
    (L := example_ids_laws 1 ltac:(lia)) (create_module [(OptUtil, 1); (OptIo, 1); (OptCpu, 2)])
    (λ _, 1) 64 64 32 4096 8192 100) as (o & E & _ & _ & _ & Ho & Hl); [lia|by vm_compute|].
  unfold ex_objs, ex_objects. rewrite E. exact (conj Ho Hl).
Qed.

(** Its two channels are told as numbers. *)
Definition ex_announcement : option (announcement_msg Z) :=
  announcement 1 (@owner_node example_ids) Some ex_objs [5; 6]
    (add_affinities (M := lists_machine) ex_objs (Some 77) cpu_kinds ([], [])).
Definition ex_mem (i : nat) : Z := mo_me (nth i (ob_mems ex_objs) (mkMemObj 0 SYSTEM_MEM 0 0)).

(** It tells of the system memory and the disk, and of the two CPUs. *)
Lemma machine_announced_witness :
  ∃ a, ex_announcement = Some a ∧ an_num_procs a = 4 ∧
    filter (is_aff (ex_mem 0) (ex_mem 2)) (ann_mmas (an_items a)) = [mkAff (ex_mem 0) (ex_mem 2) 15 50] ∧
    filter (is_aff (ex_mem 0) 77) (ann_mmas (an_items a)) = [] ∧
    (∀ i, (i, a) ∈ announce_all 1 3 a ↔ 0 ≤ i ≤ 3 ∧ i ≠ 1).
Proof.
  destruct ex_announcement as [a|] eqn:E; [|by vm_compute in E].
  exists a. split; [done|].
  destruct (machine_announced (O := example_ids) (M := lists_machine) 1
    (@owner_node example_ids) Some (Ids := example_ids_laws 1 ltac:(lia)) ex_objs (Some 77) cpu_kinds ([], []) [5; 6] 3 a)
    as (_ & Hto & [_ Hp] & _ & _ & _ & _ & Hmm).
  - apply ex_objs_good.
  - apply ex_objs_good.
  - intros g [= <-]. apply (bool_decide_unpack _). by vm_compute.
  - done.
  - done.
  - exact E.
  - assert ((ex_mem 0, SYSTEM_MEM) ∈ all_mems ex_objs (Some 77)) as H0
      by (apply (list_elem_of_lookup_2 _ 0); by vm_compute).
    assert ((ex_mem 2, DISK_MEM) ∈ all_mems ex_objs (Some 77)) as H2
      by (apply (list_elem_of_lookup_2 _ 2); by vm_compute).
    assert ((77, GLOBAL_MEM) ∈ all_mems ex_objs (Some 77)) as H7
      by (apply (list_elem_of_lookup_2 _ 4); by vm_compute).
    assert (ex_mem 0 ∈ ids KMemory ex_objs) as Hin
      by (apply (list_elem_of_lookup_2 _ 0); by vm_compute).
    split_all.
    + rewrite Hp. by vm_compute.
    + rewrite (Hmm _ SYSTEM_MEM _ DISK_MEM Hin H0 H2). by vm_compute.
    + rewrite (Hmm _ SYSTEM_MEM _ GLOBAL_MEM Hin H0 H7). by vm_compute.
    + intros i. rewrite Hto. clear. split; [intros (? & ? & _); by split|intros [Hi Hne]; exact (conj Hi (conj Hne eq_refl))].
Defined.
