(* ===== verification/Shutdown.v ===== *)
(** * Shutting the nodes down

    [Runtime::shutdown] with [DeferredShutdown], [RuntimeImpl::shutdown] and
    [wait_for_shutdown] of src/templates/runtime_impl.cc, and the message that
    carries a request to the other nodes.  Requests may be made on several
    nodes at once, or by an event that triggers later. *)

From S2P Require Import Prelude.

(** ** One node *)

(** [shutdown_tasks] are the processors the shutdown task was spawned on. *)
Record node_sd := mkSd {
  shutdown_count : Z;
  shutdown_requested : bool;
  shutdown_result_code : Z;
  shutdown_tasks : list Z }.

Definition node_sd_init : node_sd := mkSd 0 false 0 [].

(** [RuntimeImpl::shutdown] up to its last block: nothing more for a duplicate
    request, else the messages to the other nodes. *)
Definition shutdown_enter (my_node_id max_node_id : Z) (run_method_called : bool) (procs : list Z)
    (local_request : bool) (result_code : Z) (s : node_sd) : node_sd * option (list (Z * Z)) :=
  let already_started := bool_decide (shutdown_count s > 0) in
  let s := mkSd (i32 (shutdown_count s + 1)) (shutdown_requested s) (shutdown_result_code s)
             (shutdown_tasks s) in
  if already_started then (s, None)
  else
    (mkSd (shutdown_count s) (shutdown_requested s) (shutdown_result_code s)
       (if run_method_called then shutdown_tasks s ++ procs else shutdown_tasks s),
     Some (if local_request
           then (λ i, (i, result_code)) <$> filter (λ i, i ≠ my_node_id) (seqZ 0 (max_node_id + 1))
           else [])).

(** The last block, under [shutdown_mutex]. *)
Definition shutdown_finish (result_code : Z) (s : node_sd) : node_sd :=
  mkSd (shutdown_count s) true result_code (shutdown_tasks s).

(** ** All nodes *)

(** [net]: shutdown messages under way; [running]: threads in front of the
    last block; [waiters]: deferred shutdowns; each with its node and code.
    [requests] records the codes of all calls of [Runtime::shutdown]. *)
Record cluster := mkCluster {
  nodes : list node_sd;
  net : list (Z * Z);
  running : list (Z * Z);
  waiters : list (Z * Z);
  requests : list Z }.

Section cluster.
Context (max_node_id : Z) (run_method_called : Z → bool) (procs : Z → list Z).

Definition cluster_init : cluster :=
  mkCluster (replicate (Z.to_nat (max_node_id + 1)) node_sd_init) [] [] [] [].

Definition shutdown (local_request : bool) (n code : Z) (y : cluster) : option cluster :=
  s ← aget (nodes y) n;
  let '(s, go_on) := shutdown_enter n max_node_id (run_method_called n) (procs n) local_request code s in
  Some (mkCluster (aset (nodes y) n s) (default [] go_on ++ net y)
          (match go_on with Some _ => (n, code) :: running y | None => running y end) (waiters y) (requests y)).

(** [Runtime::shutdown], by whether its precondition has triggered. *)
Definition Runtime_shutdown (n code : Z) (has_triggered : bool) (y : cluster) : option cluster :=
  let y := mkCluster (nodes y) (net y) (running y) (waiters y) (code :: requests y) in
  if has_triggered then shutdown true n code y
  else Some (mkCluster (nodes y) (net y) (running y) ((n, code) :: waiters y) (requests y)).

Definition event_triggered (n code : Z) (poisoned : bool) (y : cluster) : option cluster :=
  assert! poisoned = false; shutdown true n code y.

(** The handler of the message. *)
Definition handle_shutdown (n code : Z) (y : cluster) : option cluster := shutdown false n code y.

(** [wait_for_shutdown] returns once the nodes have met at the barrier behind
    the wait for [shutdown_requested]. *)
Definition wait_for_shutdown (n : Z) (y : cluster) : option Z :=
  if forallb shutdown_requested (nodes y)
  then s ← aget (nodes y) n; Some (shutdown_result_code s) else None.

(** What goes on by itself, and what the application and its events do. *)
Inductive internal (y : cluster) : cluster → Prop :=
| i_message n code rest y' :
    net y ≡ₚ (n, code) :: rest →
    handle_shutdown n code (mkCluster (nodes y) rest (running y) (waiters y) (requests y)) = Some y' →
    internal y y'
| i_finish n code rest s :
    running y ≡ₚ (n, code) :: rest → aget (nodes y) n = Some s →
    internal y (mkCluster (aset (nodes y) n (shutdown_finish code s)) (net y) rest (waiters y) (requests y)).

Inductive step (y y' : cluster) : Prop :=
| s_internal : internal y y' → step y y'
| s_request n code has_triggered :
    0 ≤ n ≤ max_node_id → Runtime_shutdown n code has_triggered y = Some y' → step y y'
| s_trigger n code rest :
    waiters y ≡ₚ (n, code) :: rest →
    event_triggered n code false
      (mkCluster (nodes y) (net y) (running y) rest (requests y)) = Some y' → step y y'.

(** ** The invariant *)
Definition to (n : Z) (l : list (Z * Z)) : Z := zlen (filter (λ m, m.1 = n) l).

Definition node_ok (y : cluster) (n : Z) (s : node_sd) : Prop :=
  (shutdown_count s = 0 ∧ shutdown_requested s = false ∧ shutdown_tasks s = [] ∧ (n ∉ (running y).*1)) ∨
  (0 < shutdown_count s ∧ shutdown_tasks s = (if run_method_called n then procs n else []) ∧
   ((shutdown_requested s = false ∧ (n ∈ (running y).*1)) ∨
    (shutdown_requested s = true ∧ (n ∉ (running y).*1) ∧ shutdown_result_code s ∈ requests y))).

(** [first] are the nodes that told the others; [skip] is a node whose message
    has just been taken from the net. *)
Record cluster_inv (y : cluster) (first : list Z) (skip : option Z) : Prop := {
  ci_len : zlen (nodes y) = max_node_id + 1;
  ci_node n s : aget (nodes y) n = Some s → node_ok y n s;
  ci_running : NoDup (running y).*1;
  ci_range : Forall (λ m, 0 ≤ m.1 ≤ max_node_id ∧ (m.2 ∈ requests y)) (net y ++ running y ++ waiters y);
  ci_first : NoDup first ∧ Forall (λ i, 0 ≤ i ≤ max_node_id) first;
  ci_first_on i s : i ∈ first → aget (nodes y) i = Some s → 0 < shutdown_count s;
  ci_told i n s : i ∈ first → n ≠ i → Some n ≠ skip → aget (nodes y) n = Some s →
    n ∈ (net y).*1 ∨ 0 < shutdown_count s;
  ci_caused n s : aget (nodes y) n = Some s → 0 < shutdown_count s → first ≠ [];
  ci_net : net y ≠ [] → first ≠ [];
  ci_count n s : aget (nodes y) n = Some s →
    shutdown_count s + to n (net y) + to n (waiters y) ≤ zlen (requests y) + zlen first }.

Lemma to_app n l k : to n (l ++ k) = to n l + to n k.
Proof. unfold to. by rewrite filter_app, zlen_app. Qed.

Lemma to_perm n l k : l ≡ₚ k → to n l = to n k.
Proof. intros H. unfold to. by rewrite H. Qed.

Lemma to_cons n m l : to n (m :: l) = (if decide (m.1 = n) then 1 else 0) + to n l.
Proof. unfold to. rewrite filter_cons. case_decide; [by rewrite zlen_cons|lia]. Qed.

Lemma to_nonneg n l : 0 ≤ to n l.
Proof. apply zlen_nonneg. Qed.

Lemma to_distinct n code (l : list Z) : NoDup l →
  to n ((λ i, (i, code)) <$> l) = if decide (n ∈ l) then 1 else 0.
Proof.
  induction 1 as [|i l Hi _ IH]; [done|]. rewrite fmap_cons, to_cons, IH. cbn [fst].
  destruct (decide (i = n)) as [->|Hne].
  - destruct (decide (n ∈ l)); [done|]. by rewrite decide_True by left.
  - destruct (decide (n ∈ l)); [by rewrite decide_True by (by right)|].
    rewrite decide_False; [done|]. intros [|]%elem_of_cons; congruence.
Qed.

Lemma others_elem n m : m ∈ filter (λ i, i ≠ n) (seqZ 0 (max_node_id + 1)) ↔ m ≠ n ∧ 0 ≤ m ≤ max_node_id.
Proof. rewrite list_elem_of_filter, elem_of_seqZ. split; intros []; split; try done; lia. Qed.

Lemma first_bound y first skip : cluster_inv y first skip → 0 ≤ max_node_id → zlen first ≤ max_node_id + 1.
Proof.
  intros H Hm. destruct (ci_first _ _ _ H) as [Hnd Hr].
  assert (length first ≤ length (seqZ 0 (max_node_id + 1)))%nat as Hl.
  { apply submseteq_length, NoDup_submseteq; [done|]. intros i Hi. rewrite Forall_forall in Hr.
    specialize (Hr i Hi). apply elem_of_seqZ. lia. }
  rewrite length_seqZ in Hl. unfold zlen. lia.
Qed.

Lemma aset_elem_cases {A} (l : list A) n x m y :
  aget (aset l n x) m = Some y → m = n ∧ y = x ∨ m ≠ n ∧ aget l m = Some y.
Proof.
  intros H. destruct (decide (m = n)) as [->|Hne].
  - left. split; [done|]. pose proof (aget_Some_range _ _ _ H) as Hr. unfold zlen in Hr.
    rewrite aset_length in Hr. rewrite aget_aset_eq in H; [congruence|done].
  - right. by rewrite aget_aset_ne in H.
Qed.

Section enter.
Context {n code : Z} {y : cluster} {first : list Z} {skip : option Z} {s : node_sd}.
Hypothesis Hinv : cluster_inv y first skip.
Hypothesis Hskip : skip = None ∨ skip = Some n.
Hypothesis Hn : 0 ≤ n ≤ max_node_id.
Hypothesis Hcode : code ∈ requests y.
Hypothesis Hbound : zlen (requests y) + max_node_id + 1 < 2 ^ 31.
Hypothesis Hs : aget (nodes y) n = Some s.
Hypothesis Hslack : shutdown_count s + to n (net y) + to n (waiters y) + 1 ≤ zlen (requests y) + zlen first.

Lemma enter_count : 0 ≤ shutdown_count s → i32 (shutdown_count s + 1) = shutdown_count s + 1.
Proof.
  intros H0. pose proof (first_bound _ _ _ Hinv ltac:(lia)). pose proof (to_nonneg n (net y)).
  pose proof (to_nonneg n (waiters y)). apply i32_id. unfold is_i32. lia.
Qed.

(** A duplicate request changes the count alone. *)
Lemma enter_again local : 0 < shutdown_count s →
  ∃ y', shutdown local n code y = Some y' ∧ cluster_inv y' first None ∧ requests y' = requests y.
Proof.
  intros Hc. unfold shutdown. rewrite Hs. cbn [mbind option_bind]. unfold shutdown_enter.
  rewrite bool_decide_true by lia. cbn [shutdown_count]. rewrite enter_count by lia.
  eexists. split; [done|]. split; [|done]. cbn [default app].
  set (s' := mkSd _ _ _ _). destruct Hinv as [Hl Hnode Hr Hg Hf Hfo Ht Hca Hne Hco].
  split; cbn [nodes net running waiters requests]; try done.
  - unfold zlen. rewrite aset_length. exact Hl.
  - intros m x [[-> ->]|[Hm Hx]]%aset_elem_cases; [|by apply Hnode].
    destruct (Hnode n s Hs) as [(? & _)|(_ & H1 & H2)]; [lia|]. right. split; [simpl; lia|]. by split.
  - intros i x Hi [[-> ->]|[Hm Hx]]%aset_elem_cases; [simpl; lia|by eapply Hfo].
  - intros i m x Hi Hmi _ [[-> ->]|[Hm Hx]]%aset_elem_cases; [right; simpl; lia|].
    eapply Ht; [done|done| |done]. destruct Hskip; congruence.
  - intros m x [[-> ->]|[Hm Hx]]%aset_elem_cases _; [by apply (Hca n s)|].
    by apply (Hca n s).
  - intros m x [[-> ->]|[Hm Hx]]%aset_elem_cases; [simpl; lia|by apply Hco].
Qed.

(** The first request on a node. *)
Lemma enter_first local : shutdown_count s = 0 → (local = false → first ≠ []) →
  ∃ y' first', shutdown local n code y = Some y' ∧ cluster_inv y' first' None ∧ requests y' = requests y.
Proof.
  intros Hc Hlocal. unfold shutdown. rewrite Hs. cbn [mbind option_bind]. unfold shutdown_enter.
  rewrite bool_decide_false by lia. cbn [shutdown_count shutdown_requested shutdown_result_code shutdown_tasks].
  rewrite enter_count by lia.
  eexists _, (if local then n :: first else first). split; [done|]. split; [|done]. cbn [from_option id].
  set (others := filter (λ i, i ≠ n) (seqZ 0 (max_node_id + 1))).
  set (msgs := if local then (λ i, (i, code)) <$> others else []).
  set (s' := mkSd _ _ _ _). destruct Hinv as [Hl Hnode Hr Hg [Hfn Hfr] Hfo Ht Hca Hne Hco].
  destruct (Hnode n s Hs) as [(_ & Hreq & Htasks & Hrun)|(? & _)]; [|lia].
  assert (n ∉ first) as Hnf by (intros Hin; specialize (Hfo _ _ Hin Hs); lia).
  assert (∀ m, to m msgs ≤ (if decide (m = n) then 0 else 1) ∧ (local = false → to m msgs = 0)) as Hmsgs.
  { intros m. unfold msgs. destruct local; [|split; [case_decide|]; done]. split; [|done].
    rewrite to_distinct by apply NoDup_filter, NoDup_seqZ. unfold others. case_decide as Hin; case_decide; try lia.
    apply others_elem in Hin as [? _]. done. }
  split; cbn [nodes net running waiters requests].
  - unfold zlen. rewrite aset_length. exact Hl.
  - intros m x [[-> ->]|[Hm Hx]]%aset_elem_cases.
    + right. unfold s'. cbn. split; [lia|]. split; [rewrite Htasks; by destruct (run_method_called n)|].
      left. split; [done|]. left.
    + destruct (Hnode m x Hx) as [(? & ? & ? & Hnr)|(? & ? & [[? Hr']|(? & Hnr & ?)])].
      * left. split_all; [done..|]. cbn. intros [|]%elem_of_cons; congruence.
      * right. split_all; [done..|]. left. split; [done|]. cbn. by right.
      * right. split_all; [done..|]. right. split_all; [done| |done]. cbn.
        intros [|]%elem_of_cons; congruence.
  - cbn. by constructor.
  - rewrite <-(assoc_L (++)). apply Forall_app. split.
    + unfold msgs. destruct local; [|constructor]. apply Forall_fmap, Forall_forall.
      intros i Hi. apply others_elem in Hi as [_ Hi]. done.
    + apply Forall_app in Hg as [Hg1 Hg2]. apply Forall_app. split; [done|]. cbn. by constructor.
  - destruct local; [|done]. split; by constructor.
  - intros i x Hi [[-> ->]|[Hm Hx]]%aset_elem_cases; [cbn; lia|].
    destruct local; [apply elem_of_cons in Hi as [->|Hi]; [done|]|]; by eapply Hfo.
  - intros i m x Hi Hmi _ [[-> ->]|[Hm Hx]]%aset_elem_cases; [right; cbn; lia|].
    rewrite fmap_app, elem_of_app. destruct (decide (i = n)) as [->|Hin].
    + destruct local; [|by destruct (Hnf Hi)]. left. left. apply list_elem_of_fmap. exists (m, code). split; [done|].
      unfold msgs. apply list_elem_of_fmap. exists m. split; [done|].
      apply others_elem. split; [done|]. pose proof (aget_Some_range _ _ _ Hx). lia.
    + assert (i ∈ first) as Hi' by (destruct local; [apply elem_of_cons in Hi as [|]|]; congruence || done).
      destruct (Ht i m x Hi' Hmi) as [?|?]; [destruct Hskip; congruence|done|left; by right|by right].
  - intros _ _ _ _. destruct local; [done|by apply Hlocal].
  - intros _. destruct local; [done|by apply Hlocal].
  - intros m x [[-> ->]|[Hm Hx]]%aset_elem_cases; rewrite to_app; destruct (Hmsgs m) as [H1 H2] || destruct (Hmsgs n) as [H1 H2].
    + rewrite decide_True in H1 by done. unfold s'. cbn [shutdown_count].
      destruct local; rewrite ?zlen_cons; lia.
    + rewrite decide_False in H1 by done. specialize (Hco m x Hx).
      destruct local; rewrite ?zlen_cons; [lia|]. rewrite H2 by done. lia.
Qed.

Lemma enter_preserves local : (local = false → first ≠ []) →
  ∃ y' first', shutdown local n code y = Some y' ∧ cluster_inv y' first' None ∧ requests y' = requests y.
Proof.
  intros Hl. destruct (ci_node _ _ _ Hinv n s Hs) as [(Hc & _)|(Hc & _)].
  - by apply enter_first.
  - destruct (enter_again local Hc) as (y' & H1 & H2 & H3). by exists y', first.
Qed.
End enter.

Lemma cluster_init_inv : 0 ≤ max_node_id → cluster_inv cluster_init [] None.
Proof.
  intros Hm.
  assert (∀ n s, aget (nodes cluster_init) n = Some s → s = node_sd_init) as Hs.
  { intros n s. unfold aget. case_decide; [|done]. by intros [-> _]%lookup_replicate. }
  split; cbn [net running waiters requests]; try done.
  - unfold cluster_init, zlen. simpl. rewrite length_replicate. lia.
  - intros n s ->%Hs. left. split_all; [done..|]. apply not_elem_of_nil.
  - constructor.
  - split; constructor.
  - intros i s Hi. by apply elem_of_nil in Hi.
  - intros i n s Hi. by apply elem_of_nil in Hi.
  - intros n s ->%Hs. simpl. lia.
  - intros n s ->%Hs. done.
Qed.

Lemma inv_node y first skip n : cluster_inv y first skip → 0 ≤ n ≤ max_node_id → ∃ s, aget (nodes y) n = Some s.
Proof. intros H Hn. apply aget_is_Some. rewrite (ci_len _ _ _ H). lia. Qed.

Lemma take_message y first n code rest :
  cluster_inv y first None → net y ≡ₚ (n, code) :: rest →
  cluster_inv (mkCluster (nodes y) rest (running y) (waiters y) (requests y)) first (Some n).
Proof.
  intros [Hl Hnode Hr Hg Hf Hfo Ht Hca Hne Hco] Hp. split; cbn [nodes net running waiters requests]; try done.
  - rewrite Hp in Hg. by apply Forall_cons in Hg as [_ Hg].
  - intros i m s Hi Hmi Hskip Hs. destruct (Ht i m s Hi Hmi) as [Hin|]; [done|done| |by right].
    rewrite Hp, fmap_cons in Hin. apply elem_of_cons in Hin as [->|Hin]; [by destruct Hskip|by left].
  - intros _. apply Hne. intros E. rewrite E in Hp. by apply Permutation_nil_cons in Hp.
  - intros m s Hs. specialize (Hco m s Hs). rewrite (to_perm _ _ _ Hp), to_cons in Hco.
    case_decide; lia.
Qed.

Lemma internal_inv y y' first :
  internal y y' → cluster_inv y first None → zlen (requests y) + max_node_id + 1 < 2 ^ 31 →
  ∃ first', cluster_inv y' first' None ∧ requests y' = requests y.
Proof.
  intros Hstep H Hbound. destruct Hstep as [n code rest y' Hp E|n code rest s Hp Hs].
  - pose proof (ci_range _ _ _ H) as Hg. rewrite Hp in Hg. apply Forall_cons in Hg as [[Hn Hc] _].
    destruct (inv_node _ _ _ n H Hn) as [s Hs].
    assert (net y ≠ []) as Hnet by (intros Enil; rewrite Enil in Hp; by apply Permutation_nil_cons in Hp).
    destruct (enter_preserves (n := n) (code := code) (s := s) (take_message _ _ _ _ _ H Hp) (or_intror eq_refl))
      with (local := false) as (y2 & first' & E2 & H2 & Er); try done.
    + pose proof (ci_count _ _ _ H n s Hs) as Hco. rewrite (to_perm _ _ _ Hp), to_cons in Hco.
      cbn [fst] in Hco. rewrite decide_True in Hco by done. cbn. lia.
    + intros _. by apply (ci_net _ _ _ H).
    + unfold handle_shutdown in E. rewrite E in E2. simplify_eq. by exists first'.
  - exists first. split; [|done]. destruct H as [Hl Hnode Hr Hg Hf Hfo Ht Hca Hne Hco].
    rewrite Hp, fmap_cons in Hr. apply NoDup_cons in Hr as [Hnr Hr]. cbn [fst] in Hnr.
    assert (code ∈ requests y) as Hc.
    { rewrite Hp in Hg. apply Forall_app in Hg as [_ Hg]. by apply Forall_cons in Hg as [[_ ?] _]. }
    split; cbn [nodes net running waiters requests]; try done.
    + unfold zlen. by rewrite aset_length.
    + intros m x [[-> ->]|[Hm Hx]]%aset_elem_cases.
      * destruct (Hnode n s Hs) as [(_ & _ & _ & Hno)|(Hpos & Htk & _)].
        { destruct Hno. rewrite Hp, fmap_cons. by left. }
        right. split_all; [done|done|]. right. by split_all.
      * destruct (Hnode m x Hx) as [(? & ? & ? & Hno)|(? & ? & Hor)]; rewrite Hp, fmap_cons in *.
        -- left. split_all; [done..|]. intros ?. apply Hno. by right.
        -- right. split_all; [done..|]. cbn [running]. destruct Hor as [(? & [->|?]%elem_of_cons)|(? & Hno & ?)].
           ++ done.
           ++ by left.
           ++ right. split_all; [done| |done]. intros ?. apply Hno. by right.
    + rewrite Hp in Hg. apply Forall_app in Hg as [Hg1 Hg2]. apply Forall_cons in Hg2 as [_ Hg2].
      by apply Forall_app.
    + intros i x Hi [[-> ->]|[Hm Hx]]%aset_elem_cases; [|by eapply Hfo]. by apply (Hfo n s).
    + intros i m x Hi Hmi Hsk [[-> ->]|[Hm Hx]]%aset_elem_cases; [by apply (Ht i n s)|by eapply Ht].
    + intros m x [[-> ->]|[Hm Hx]]%aset_elem_cases; [by apply (Hca n s)|by eapply Hca].
    + intros m x [[-> ->]|[Hm Hx]]%aset_elem_cases; [by apply (Hco n s)|by eapply Hco].
Qed.

(** One more request, not yet acted on. *)
Lemma record_request y first code ws :
  cluster_inv y first None →
  (∀ n, to n ws ≤ to n (waiters y) + 1) →
  Forall (λ m, 0 ≤ m.1 ≤ max_node_id ∧ (m.2 ∈ code :: requests y)) ws →
  cluster_inv (mkCluster (nodes y) (net y) (running y) ws (code :: requests y)) first None.
Proof.
  intros [Hl Hnode Hr Hg Hf Hfo Ht Hca Hne Hco] Hws Hgws.
  split; cbn [nodes net running waiters requests]; try done.
  - intros n s Hs. destruct (Hnode n s Hs) as [?|(? & ? & [?|(? & ? & ?)])]; [by left|right..].
    + split_all; [done..|]. by left.
    + split_all; [done..|]. right. split_all; [done|done|]. by right.
  - rewrite (assoc_L (++)) in Hg |- *. apply Forall_app in Hg as [Hg _]. apply Forall_app. split; [|done].
    eapply Forall_impl; [exact Hg|]. intros m [? ?]. split; [done|by right].
  - intros n s Hs. specialize (Hco n s Hs). specialize (Hws n). rewrite zlen_cons. lia.
Qed.

Lemma step_requests y y' : step y y' → zlen (requests y) ≤ zlen (requests y').
Proof.
  assert (∀ local n code y y', shutdown local n code y = Some y' → requests y' = requests y) as Hsd.
  { intros local n code y0 y1 (s & _ & E)%bind_Some. destruct (shutdown_enter _ _ _ _ _ _ _) as [s' go_on].
    by simplify_eq. }
  intros [[n code rest y1 _ E|n code rest s _ _]|n code tr _ E|n code rest _ E].
  - apply Hsd in E. rewrite E. done.
  - done.
  - unfold Runtime_shutdown in E. destruct tr; [apply Hsd in E; rewrite E|simplify_eq]; cbn; rewrite zlen_cons; lia.
  - apply assert_Some in E as [_ E]. apply Hsd in E. rewrite E. done.
Qed.

Lemma step_inv y y' first :
  step y y' → cluster_inv y first None → zlen (requests y') + max_node_id + 1 < 2 ^ 31 →
  ∃ first', cluster_inv y' first' None.
Proof.
  intros Hstep H Hbound. pose proof (step_requests _ _ Hstep) as Hle.
  destruct Hstep as [Hi|n code tr Hn E|n code rest Hp E].
  - destruct (internal_inv _ _ _ Hi H) as (f & Hf & _); [lia|]. by exists f.
  - unfold Runtime_shutdown in E. destruct (inv_node _ _ _ n H Hn) as [s Hs]. destruct tr.
    + pose proof (ci_range _ _ _ H) as Hg. rewrite (assoc_L (++)) in Hg. apply Forall_app in Hg as [_ Hg].
      assert (cluster_inv (mkCluster (nodes y) (net y) (running y) (waiters y) (code :: requests y)) first None) as H1.
      { apply record_request; [done|intros; lia|]. eapply Forall_impl; [exact Hg|]. intros m [? ?]. split; [done|by right]. }
      destruct (enter_preserves (n := n) (code := code) (s := s) H1 (or_introl eq_refl))
        with (local := true) as (y2 & f & E2 & H2 & Er); try done.
      * by left.
      * unfold shutdown in E. apply bind_Some in E as (x & _ & E).
        destruct (shutdown_enter _ _ _ _ _ _ _). simplify_eq. cbn in Hbound |- *. lia.
      * pose proof (ci_count _ _ _ H n s Hs) as Hco. cbn. rewrite zlen_cons. lia.
      * rewrite E in E2. simplify_eq. by exists f.
    + simplify_eq. exists first. apply (record_request y first code ((n, code) :: waiters y)); [done| |].
      * intros m. rewrite to_cons. case_decide; lia.
      * constructor; [split; [done|by left]|]. pose proof (ci_range _ _ _ H) as Hg.
        rewrite (assoc_L (++)) in Hg. apply Forall_app in Hg as [_ Hg].
        eapply Forall_impl; [exact Hg|]. intros m [? ?]. split; [done|by right].
  - apply assert_Some in E as [_ E]. pose proof H as [Hl Hnode Hr Hg Hf Hfo Ht Hca Hne Hco].
    rewrite (assoc_L (++)) in Hg. apply Forall_app in Hg as [Hg1 Hg2]. rewrite Hp in Hg2.
    apply Forall_cons in Hg2 as [[Hn Hc] Hg2]. destruct (inv_node _ _ _ n H Hn) as [s Hs].
    assert (∀ m, to m (waiters y) = (if decide (n = m) then 1 else 0) + to m rest) as Hto.
    { intros m. by rewrite (to_perm _ _ _ Hp), to_cons. }
    assert (cluster_inv (mkCluster (nodes y) (net y) (running y) rest (requests y)) first None) as H1.
    { split; cbn [nodes net running waiters requests]; try done.
      - rewrite (assoc_L (++)). by apply Forall_app.
      - intros m x Hx. specialize (Hco m x Hx). rewrite Hto in Hco. case_decide; lia. }
    destruct (enter_preserves (n := n) (code := code) (s := s) H1 (or_introl eq_refl))
      with (local := true) as (y2 & f & E2 & H2 & Er); try done.
    + unfold shutdown in E. apply bind_Some in E as (x & _ & E).
      destruct (shutdown_enter _ _ _ _ _ _ _). simplify_eq. cbn in Hbound |- *. lia.
    + specialize (Hco n s Hs). rewrite Hto, decide_True in Hco by done. cbn. lia.
    + rewrite E in E2. simplify_eq. by exists f.
Qed.

Lemma reachable_inv y :
  0 ≤ max_node_id → rtc step cluster_init y → zlen (requests y) + max_node_id + 1 < 2 ^ 31 →
  ∃ first, cluster_inv y first None.
Proof.
  intros Hm Hr. revert y Hr.
  apply (rtc_ind_r (λ y, zlen (requests y) + max_node_id + 1 < 2 ^ 31 → ∃ first, cluster_inv y first None)
    cluster_init).
  - intros _. exists []. by apply cluster_init_inv.
  - intros y1 y2 _ Hs IH Hb.
    destruct IH as [f Hf]; [pose proof (step_requests _ _ Hs); lia|]. by eapply step_inv.
Qed.

(** ** What a node that was asked keeps *)
Definition kept (s s' : node_sd) : Prop :=
  shutdown_requested s' = shutdown_requested s ∧
  shutdown_result_code s' = shutdown_result_code s ∧ shutdown_tasks s' = shutdown_tasks s.

Lemma shutdown_kept local n code y y' m s :
  shutdown local n code y = Some y' → aget (nodes y) m = Some s → 0 < shutdown_count s →
  ∃ s', aget (nodes y') m = Some s' ∧ kept s s'.
Proof.
  intros (x & Hx & E)%bind_Some Hs Hc. destruct (shutdown_enter _ _ _ _ _ _ _) as [s' go_on] eqn:Een.
  simplify_eq. cbn [nodes]. destruct (decide (m = n)) as [->|Hne].
  - rewrite Hs in Hx. simplify_eq. unfold shutdown_enter in Een. rewrite bool_decide_true in Een by lia.
    simplify_eq. eexists. split; [apply aget_aset_eq; by eapply aget_Some_range|by split].
  - exists s. rewrite aget_aset_ne by done. by split.
Qed.

Lemma step_kept y y' first m s :
  step y y' → cluster_inv y first None → aget (nodes y) m = Some s → shutdown_requested s = true →
  ∃ s', aget (nodes y') m = Some s' ∧ kept s s'.
Proof.
  intros Hstep H Hs Hreq. destruct (ci_node _ _ _ H m s Hs) as [(_ & ? & _)|(Hc & _ & Hor)]; [congruence|].
  destruct Hor as [[? _]|(_ & Hno & _)]; [congruence|].
  destruct Hstep as [[n code rest y1 _ E|n code rest x Hp Hx]|n code tr _ E|n code rest _ E].
  - by eapply shutdown_kept in E.
  - cbn [nodes]. exists s. split; [|by split]. rewrite aget_aset_ne; [done|].
    intros ->. apply Hno. rewrite Hp, fmap_cons. by left.
  - unfold Runtime_shutdown in E. destruct tr; [by eapply shutdown_kept in E|]. simplify_eq. by exists s.
  - apply assert_Some in E as [_ E]. by eapply shutdown_kept in E.
Qed.

(** ** Nothing goes on for ever *)
Definition measure (y : cluster) : nat := 2 * length (net y) + length (running y).

Lemma internal_measure y y' : internal y y' → (measure y' < measure y)%nat.
Proof.
  intros [n code rest y1 Hp E|n code rest s Hp _]; unfold measure.
  - unfold handle_shutdown in E. apply bind_Some in E as (x & _ & E). unfold shutdown_enter in E.
    rewrite Hp. destruct (bool_decide _) in E; simplify_eq; simpl; lia.
  - rewrite Hp. simpl. lia.
Qed.

Lemma internal_steps k y y' : nsteps internal k y y' → (k + measure y' ≤ measure y)%nat.
Proof. induction 1 as [|k y1 y2 y3 Hs _ IH]; [lia|]. apply internal_measure in Hs. lia. Qed.

Lemma internal_enabled y first :
  cluster_inv y first None → net y ≠ [] ∨ running y ≠ [] → ∃ y', internal y y'.
Proof.
  intros H Hor. pose proof (ci_range _ _ _ H) as Hg.
  destruct (net y) as [|[n code] rest] eqn:En.
  - destruct (running y) as [|[n code] rest] eqn:Er; [naive_solver|].
    apply Forall_cons in Hg as [[Hn _] _]. destruct (inv_node _ _ _ n H Hn) as [s Hs].
    eexists. eapply (i_finish y n code rest s); [by rewrite Er|done].
  - apply Forall_cons in Hg as [[Hn _] _]. destruct (inv_node _ _ _ n H Hn) as [s Hs].
    destruct (handle_shutdown n code (mkCluster (nodes y) rest (running y) (waiters y) (requests y))) as [y'|] eqn:E.
    + exists y'. eapply i_message; [by rewrite En|done].
    + unfold handle_shutdown, shutdown in E. cbn in E. rewrite Hs in E. cbn in E.
      by destruct (shutdown_enter _ _ _ _ _ _ _).
Qed.

(** With nothing under way and one node asked, all have been. *)
Lemma quiescent_all y first n s :
  cluster_inv y first None → net y = [] → running y = [] →
  aget (nodes y) n = Some s → 0 < shutdown_count s →
  ∀ m x, aget (nodes y) m = Some x → shutdown_requested x = true ∧ shutdown_result_code x ∈ requests y.
Proof.
  intros H Hnet Hrun Hs Hc m x Hx. pose proof (ci_caused _ _ _ H n s Hs Hc) as Hfirst.
  destruct first as [|i f]; [done|].
  assert (0 < shutdown_count x) as Hpos.
  { destruct (decide (m = i)) as [->|Hne]; [eapply (ci_first_on _ _ _ H); [by left|done]|].
    destruct (ci_told _ _ _ H i m x) as [Hin|]; [by left|done|done|done| |done].
    rewrite Hnet in Hin. by apply elem_of_nil in Hin. }
  destruct (ci_node _ _ _ H m x Hx) as [(? & _)|(_ & _ & [[_ Hin]|(? & _ & ?)])]; [lia| |done].
  rewrite Hrun in Hin. by apply elem_of_nil in Hin.
Qed.

(** ** Properties *)

(** C33. A shutdown reaches every node once.  Whatever nodes call
    [Runtime::shutdown], directly or deferred to an event, and in whatever
    order messages arrive and threads run (for fewer requests than an [int]
    can count): a node spawns its shutdown tasks at most once, keeps the
    result code it took, which is one that was requested, and ignores later
    requests; messages and threads are finished after a bounded number of
    steps; and when one node has started, either something is still under way
    and can go on, or [wait_for_shutdown] returns on every node. *)
Theorem shutdown_reaches_all y :
  0 ≤ max_node_id → rtc step cluster_init y → zlen (requests y) + max_node_id + 1 < 2 ^ 31 →
  (∀ n s, aget (nodes y) n = Some s →
     (shutdown_tasks s = [] ∨ shutdown_tasks s = if run_method_called n then procs n else []) ∧
     (shutdown_requested s = true → shutdown_result_code s ∈ requests y ∧
        ∀ y', step y y' → ∃ s', aget (nodes y') n = Some s' ∧ kept s s')) ∧
  (∀ k y', nsteps internal k y y' → (k ≤ 2 * length (net y) + length (running y))%nat) ∧
  (∀ n s, aget (nodes y) n = Some s → 0 < shutdown_count s →
     (∃ y', internal y y') ∨
     ∀ m, 0 ≤ m ≤ max_node_id → ∃ code, wait_for_shutdown m y = Some code ∧ code ∈ requests y).
Proof.
  intros Hm Hr Hb. destruct (reachable_inv y Hm Hr Hb) as [first H]. split_all.
  - intros n s Hs. split.
    + destruct (ci_node _ _ _ H n s Hs) as [(_ & _ & ? & _)|(_ & ? & _)]; auto.
    + intros Hreq. split.
      * destruct (ci_node _ _ _ H n s Hs) as [(_ & ? & _)|(_ & _ & [[? _]|(_ & _ & ?)])]; congruence || done.
      * intros y' Hs'. by eapply step_kept.
  - intros k y' Hk. apply internal_steps in Hk. unfold measure in Hk. lia.
  - intros n s Hs Hc.
    destruct (decide (net y = [])) as [Hnet|Hnet]; [|left; by eapply internal_enabled; [|left]].
    destruct (decide (running y = [])) as [Hrun|Hrun]; [|left; by eapply internal_enabled; [|right]].
    right. intros m Hmr. pose proof (quiescent_all y first n s H Hnet Hrun Hs Hc) as Hall.
    destruct (inv_node _ _ _ m H Hmr) as [x Hx]. exists (shutdown_result_code x).
    split; [|by apply (Hall m x)]. unfold wait_for_shutdown. rewrite Hx.
    assert (forallb shutdown_requested (nodes y) = true) as ->; [|done].
    apply forallb_forall. intros z Hz. apply list_elem_of_In, list_elem_of_lookup_1 in Hz as [k Hk].
    apply (Hall (Z.of_nat k) z). unfold aget. rewrite decide_True by lia. by rewrite Nat2Z.id.
Qed.
End cluster.

(** Two nodes; node 0 asks with code 7, and the message has just arrived. *)
Lemma shutdown_reaches_all_witness :
  let y := mkCluster [mkSd 1 true 7 [10]; mkSd 1 false 0 [20]] [] [(1, 7)] [] [7] in
  (∃ y', internal 1 (λ _, true) (λ n, [10 * (n + 1)]) y y') ∨
  ∀ m, 0 ≤ m ≤ 1 → ∃ code, wait_for_shutdown m y = Some code ∧ code ∈ requests y.
Proof.
  intros y.
  destruct (shutdown_reaches_all 1 (λ _, true) (λ n, [10 * (n + 1)]) y) as (_ & _ & H);
    [lia| |vm_compute; reflexivity|].
  - eapply rtc_l; [apply (s_request _ _ _ _ _ 0 7 true); [lia|reflexivity]|].
    eapply rtc_l; [apply s_internal, (i_finish _ _ _ _ 0 7 [] (mkSd 1 false 0 [10])); reflexivity|].
    eapply rtc_l; [apply s_internal, (i_message _ _ _ _ 1 7 []); [reflexivity|vm_compute; reflexivity]|].
    apply rtc_refl.
  - apply (H 0 (mkSd 1 true 7 [10])); [reflexivity|simpl; lia].
Defined.

(** Requests made at the same time are not reconciled: each node returns the
    code of the request that came to it first. *)
Lemma result_codes_differ :
  ∃ y, rtc (step 1 (λ _, false) (λ _, [])) (cluster_init 1) y ∧ net y = [] ∧ running y = [] ∧
    wait_for_shutdown 0 y = Some 1 ∧ wait_for_shutdown 1 y = Some 2.
Proof.
  eexists. split.
  - eapply rtc_l; [apply (s_request _ _ _ _ _ 0 1 true); [lia|reflexivity]|].
    eapply rtc_l; [apply (s_request _ _ _ _ _ 1 2 true); [lia|reflexivity]|].
    eapply rtc_l; [apply s_internal, (i_message _ _ _ _ 0 2 [(1, 1)]); [reflexivity|vm_compute; reflexivity]|].
    eapply rtc_l; [apply s_internal, (i_message _ _ _ _ 1 1 []); [reflexivity|vm_compute; reflexivity]|].
    eapply rtc_l; [apply s_internal, (i_finish _ _ _ _ 0 1 [(1, 2)] (mkSd 2 false 0 [])); [apply perm_swap|reflexivity]|].
    eapply rtc_l; [apply s_internal, (i_finish _ _ _ _ 1 2 [] (mkSd 2 false 0 [])); reflexivity|].
    apply rtc_refl.
  - by vm_compute.
Qed.
