(* ===== verification/Runtime.v ===== *)
(** * The runtime object

    The class [Runtime] and the life of its [RuntimeImpl] in
    src/templates/runtime_impl.cc: construction, the objects it comes to own,
    the tables of reductions and serializers, the request to shut down and the
    teardown in [wait_for_shutdown].  Objects are pointers into a heap that
    knows which are alive; deleting any other is an error. *)

From S2P Require Import Prelude Shutdown.

(** ** The heap *)
Record Heap := mkHeap { live : gset Z; brk : Z }.

Definition c_new (h : Heap) : Heap * Z := (mkHeap ({[brk h]} ∪ live h) (brk h + 1), brk h).

Definition c_delete (p : Z) (h : Heap) : option Heap :=
  if decide (p = 0) then Some h else assert! p ∈ live h; Some (mkHeap (live h ∖ {[p]}) (brk h)).

Fixpoint new_all (n : nat) (h : Heap) : Heap * list Z :=
  match n with
  | O => (h, [])
  | S n => let '(h, p) := c_new h in let '(h, ps) := new_all n h in (h, p :: ps)
  end.

Fixpoint delete_all (ps : list Z) (h : Heap) : option Heap :=
  match ps with [] => Some h | p :: ps => h ← c_delete p h; delete_all ps h end.

(** ** [RuntimeImpl] *)

(** The pointers of a [Node]. *)
Record NodeObjs := mkNode {
  memories : list Z;
  ib_memories : list Z;
  processors : list Z;
  dma_channels : list Z;
  sparsity_maps : list Z }.

Record RuntimeImpl := mkRuntime {
  machine : Z;
  nodes_ptr : Z;
  nodes : list NodeObjs;          (* what [nodes] points to *)
  global_memory : Z;
  local_event_free_list : Z;
  local_barrier_free_list : Z;
  local_reservation_free_list : Z;
  local_proc_group_free_list : Z;
  local_sparsity_map_free_lists : list Z;
  core_map : Z;
  core_reservations : Z;
  reduce_op_table : gmap Z Z;
  custom_serdez_table : gmap Z Z;
  code_translators : list Z;
  modules : list Z;
  requested : bool;               (* [shutdown_requested] *)
  result_code : Z }.

Definition RuntimeImpl_init (h : Heap) : Heap * RuntimeImpl :=
  let '(h, m) := c_new h in
  (h, mkRuntime m 0 [] 0 0 0 0 0 [] 0 0 ∅ ∅ [] [] false 0).

Section runtime.
Context (my_node_id max_node_id : Z).
(* "realm/utils.h": deletes what the container points to and empties it. *)
Context (delete_container_contents : list Z → Heap → option Heap).

(** The objects that [configure_from_command_line] creates itself, in an order
    of their own, which only decides their addresses; the registrar supplies
    [num_modules] modules. *)
Definition new_tables (h : Heap) : Heap * Z * list NodeObjs * list Z :=
  let n := Z.to_nat (max_node_id + 1) in
  let '(h, p) := c_new h in
  let '(h, ms) := new_all n h in
  let '(h, fls) := new_all n h in
  (h, p, (λ m, mkNode [] [] [] [] (aset (replicate n 0) my_node_id m)) <$> ms, fls).

Definition configure_objects (num_modules : nat) (gasnet_mem_size_in_mb : Z) (h : Heap) (r : RuntimeImpl)
    : Heap * RuntimeImpl :=
  let '(h, mods) := new_all num_modules h in
  let '(h, cm) := c_new h in
  let '(h, cr) := c_new h in
  let '(h, np, ns, fls) := new_tables h in
  let '(h, ev) := c_new h in
  let '(h, ba) := c_new h in
  let '(h, re) := c_new h in
  let '(h, pg) := c_new h in
  let '(h, gm) := if decide (gasnet_mem_size_in_mb > 0) then c_new h else (h, 0) in
  (h, mkRuntime (machine r) np ns gm ev ba re pg fls cm cr (reduce_op_table r) (custom_serdez_table r)
        (code_translators r) mods (requested r) (result_code r)).

(** What joins the tables later. *)
Inductive table_slot :=
| SMemory | SIbMemory | SProcessor | SChannel
| SSparsity (creator : Z).        (* [sparsity_maps[creator]], when it is null *)

Definition put (s : table_slot) (p : Z) (n : NodeObjs) : option NodeObjs :=
  let 'mkNode ms ims ps cs ss := n in
  match s with
  | SMemory => Some (mkNode (ms ++ [p]) ims ps cs ss)
  | SIbMemory => Some (mkNode ms (ims ++ [p]) ps cs ss)
  | SProcessor => Some (mkNode ms ims (ps ++ [p]) cs ss)
  | SChannel => Some (mkNode ms ims ps (cs ++ [p]) ss)
  | SSparsity c => m ← aget ss c; assert! m = 0; Some (mkNode ms ims ps cs (aset ss c p))
  end.

Definition set_nodes (r : RuntimeImpl) (ns : list NodeObjs) : RuntimeImpl :=
  mkRuntime (machine r) (nodes_ptr r) ns (global_memory r) (local_event_free_list r)
    (local_barrier_free_list r) (local_reservation_free_list r) (local_proc_group_free_list r)
    (local_sparsity_map_free_lists r) (core_map r) (core_reservations r) (reduce_op_table r)
    (custom_serdez_table r) (code_translators r) (modules r) (requested r) (result_code r).
Definition set_tables (r : RuntimeImpl) (red ser : gmap Z Z) (ct : list Z) : RuntimeImpl :=
  mkRuntime (machine r) (nodes_ptr r) (nodes r) (global_memory r) (local_event_free_list r)
    (local_barrier_free_list r) (local_reservation_free_list r) (local_proc_group_free_list r)
    (local_sparsity_map_free_lists r) (core_map r) (core_reservations r) red ser ct (modules r)
    (requested r) (result_code r).
Definition set_shutdown (r : RuntimeImpl) (req : bool) (code : Z) : RuntimeImpl :=
  mkRuntime (machine r) (nodes_ptr r) (nodes r) (global_memory r) (local_event_free_list r)
    (local_barrier_free_list r) (local_reservation_free_list r) (local_proc_group_free_list r)
    (local_sparsity_map_free_lists r) (core_map r) (core_reservations r) (reduce_op_table r)
    (custom_serdez_table r) (code_translators r) (modules r) req code.

Definition add_object (s : table_slot) (node : Z) (h : Heap) (r : RuntimeImpl) : option (Heap * RuntimeImpl) :=
  n ← aget (nodes r) node;
  let '(h, p) := c_new h in
  n ← put s p n;
  Some (h, set_nodes r (aset (nodes r) node n)).

Definition add_code_translator (h : Heap) (r : RuntimeImpl) : Heap * RuntimeImpl :=
  let '(h, p) := c_new h in
  (h, set_tables r (reduce_op_table r) (custom_serdez_table r) (code_translators r ++ [p])).

(** The first registration of an id stays; what is stored is a clone. *)
Definition register_reduction (id : Z) (h : Heap) (r : RuntimeImpl) : Heap * RuntimeImpl * bool :=
  match reduce_op_table r !! id with
  | Some _ => (h, r, false)
  | None =>
      let '(h, p) := c_new h in
      (h, set_tables r (<[id := p]> (reduce_op_table r)) (custom_serdez_table r) (code_translators r), true)
  end.

Definition register_custom_serdez (id : Z) (h : Heap) (r : RuntimeImpl) : Heap * RuntimeImpl * bool :=
  match custom_serdez_table r !! id with
  | Some _ => (h, r, false)
  | None =>
      let '(h, p) := c_new h in
      (h, set_tables r (reduce_op_table r) (<[id := p]> (custom_serdez_table r)) (code_translators r), true)
  end.

(** *** Teardown *)

Definition delete_node (n : NodeObjs) (h : Heap) : option Heap :=
  h ← delete_container_contents (memories n) h;
  h ← delete_container_contents (processors n) h;
  h ← delete_container_contents (ib_memories n) h;
  h ← delete_container_contents (dma_channels n) h;
  delete_container_contents (sparsity_maps n) h.

Fixpoint delete_nodes (ns : list NodeObjs) (h : Heap) : option Heap :=
  match ns with [] => Some h | n :: ns => h ← delete_node n h; delete_nodes ns h end.

(** [RuntimeImpl::wait_for_shutdown] behind the barrier: [nodes] is read for
    the local processors first. *)
Definition teardown (r : RuntimeImpl) (h : Heap) : option Heap :=
  _ ← aget (nodes r) my_node_id;
  h ← delete_nodes (nodes r) h;
  h ← c_delete (nodes_ptr r) h;
  h ← c_delete (global_memory r) h;
  h ← c_delete (local_event_free_list r) h;
  h ← c_delete (local_barrier_free_list r) h;
  h ← c_delete (local_reservation_free_list r) h;
  h ← c_delete (local_proc_group_free_list r) h;
  h ← delete_container_contents (local_sparsity_map_free_lists r) h;
  h ← delete_container_contents (code_translators r) h;
  delete_all (modules r) h.

Definition values (t : gmap Z Z) : list Z := (map_to_list t).*2.

(** [~RuntimeImpl] *)
Definition RuntimeImpl_fini (r : RuntimeImpl) (h : Heap) : option Heap :=
  h ← c_delete (machine r) h;
  h ← c_delete (core_reservations r) h;
  h ← c_delete (core_map r) h;
  h ← delete_container_contents (values (reduce_op_table r)) h;
  delete_container_contents (values (custom_serdez_table r)) h.

(** ** [Runtime] *)

(** [impls]: the [RuntimeImpl] objects by address; [shutdown_count] is static;
    [handles]: the member [impl] of each object of class [Runtime]. *)
Record Process := mkWorld {
  heap : Heap;
  runtime_singleton : Z;
  impls : gmap Z RuntimeImpl;
  static_shutdown_count : Z;
  handles : list Z }.

(** A call, with the [Runtime] object it is made on; the last two are made by
    the runtime itself, on [get_runtime()]. *)
Inductive call :=
| Runtime_new
| Runtime_get_runtime
| Runtime_network_init (i : Z)
| Runtime_configure (i : Z) (num_modules : nat) (gasnet_mem_size_in_mb : Z)
| Runtime_register_reduction (i id : Z)
| Runtime_register_custom_serdez (i id : Z)
| Runtime_shutdown_now (i code : Z)
| Runtime_wait_for_shutdown (i : Z)
| AddObject (s : table_slot) (node : Z)
| AddTranslator.

(** How a call ends: it returns, sleeps, or fails an assertion or uses a
    pointer that is null or dangling. *)
Inductive outcome := Returns (w : Process) (res : Z) | Sleeps | Crashes.

Definition update (w : Process) (h : Heap) (p : Z) (r : RuntimeImpl) : Process :=
  mkWorld h (runtime_singleton w) (<[p := r]> (impls w)) (static_shutdown_count w) (handles w).

(** The object behind a [Runtime]. *)
Definition deref (w : Process) (i : Z) : option (Z * RuntimeImpl) :=
  p ← aget (handles w) i; r ← impls w !! p; Some (p, r).

(** [RuntimeImpl::shutdown], for a local request before [run]. *)
Definition shutdown_impl (code : Z) (w : Process) (p : Z) (r : RuntimeImpl) : Process :=
  let s := mkSd (static_shutdown_count w) (requested r) (result_code r) [] in
  let '(s, go_on) := shutdown_enter my_node_id max_node_id false [] true code s in
  let s := match go_on with Some _ => shutdown_finish code s | None => s end in
  mkWorld (heap w) (runtime_singleton w)
    (<[p := set_shutdown r (shutdown_requested s) (shutdown_result_code s)]> (impls w))
    (shutdown_count s) (handles w).

Definition of_bool (b : bool) : Z := if b then 1 else 0.

(** [Runtime::wait_for_shutdown] *)
Definition Runtime_wait (i : Z) (w : Process) : outcome :=
  match deref w i with
  | Some (p, r) =>
      if requested r then
        match (h ← teardown r (heap w); h ← RuntimeImpl_fini r h; c_delete p h) with
        | Some h => Returns (mkWorld h 0 (delete p (impls w)) (static_shutdown_count w) (aset (handles w) i 0))
                      (result_code r)
        | None => Crashes
        end
      else Sleeps
  | None => Crashes
  end.

Definition exec (c : call) (w : Process) : outcome :=
  match c with
  | Runtime_new => Returns (mkWorld (heap w) (runtime_singleton w) (impls w) (static_shutdown_count w) (handles w ++ [0])) 0
  | Runtime_get_runtime =>
      Returns (mkWorld (heap w) (runtime_singleton w) (impls w) (static_shutdown_count w)
        (handles w ++ [runtime_singleton w])) 0
  | Runtime_network_init i =>
      if decide (runtime_singleton w ≠ 0) then Returns w 0
      else if decide (aget (handles w) i = None) then Crashes
      else
        let '(h, p) := c_new (heap w) in
        let '(h, r) := RuntimeImpl_init h in
        Returns (mkWorld h p (<[p := r]> (impls w)) (static_shutdown_count w) (aset (handles w) i p)) 1
  | Runtime_configure i n mb =>
      match deref w i with
      | Some (p, r) => let '(h, r) := configure_objects n mb (heap w) r in Returns (update w h p r) 1
      | None => Crashes
      end
  | Runtime_register_reduction i id =>
      match deref w i with
      | Some (p, r) => let '(h, r, b) := register_reduction id (heap w) r in Returns (update w h p r) (of_bool b)
      | None => Crashes
      end
  | Runtime_register_custom_serdez i id =>
      match deref w i with
      | Some (p, r) => let '(h, r, b) := register_custom_serdez id (heap w) r in Returns (update w h p r) (of_bool b)
      | None => Crashes
      end
  | Runtime_shutdown_now i code =>
      match deref w i with Some (p, r) => Returns (shutdown_impl code w p r) 0 | None => Crashes end
  | Runtime_wait_for_shutdown i => Runtime_wait i w
  | AddObject s node =>
      match impls w !! runtime_singleton w with
      | Some r =>
          match add_object s node (heap w) r with
          | Some (h, r) => Returns (update w h (runtime_singleton w) r) 0
          | None => Crashes
          end
      | None => Crashes
      end
  | AddTranslator =>
      match impls w !! runtime_singleton w with
      | Some r => let '(h, r) := add_code_translator (heap w) r in Returns (update w h (runtime_singleton w) r) 0
      | None => Crashes
      end
  end.

(** ** Ownership *)

Definition nz (l : list Z) : list Z := filter (λ p, p ≠ 0) l.
#[local] Arguments nz : simpl never.

(** The live objects are those of [base] and the pointers of [l] that are not
    null, each once. *)
Record owns (base : gset Z) (h : Heap) (l : list Z) : Prop := {
  ow_nodup : NoDup (nz l);
  ow_live : live h = base ∪ list_to_set (nz l);
  ow_disjoint x : x ∈ nz l → x ∉ base;
  ow_range x : x ∈ live h → 0 < x < brk h;
  ow_brk : 0 < brk h }.

Lemma nz_app l k : nz (l ++ k) = nz l ++ nz k.
Proof. apply filter_app. Qed.

Lemma nz_cons p l : p ≠ 0 → nz (p :: l) = p :: nz l.
Proof. intros. unfold nz. by rewrite filter_cons_True. Qed.

Lemma nz_zero l : nz (0 :: l) = nz l.
Proof. unfold nz. by rewrite filter_cons_False by lia. Qed.

Lemma nz_id l : Forall (λ p, p ≠ 0) l → nz l = l.
Proof. induction 1 as [|p l Hp _ IH]; [done|]. by rewrite nz_cons, IH. Qed.

Lemma owns_perm base h l l' : nz l ≡ₚ nz l' → owns base h l → owns base h l'.
Proof.
  intros Hp [Hn Hl Hd Hr Hb]. split; try done.
  - by rewrite <-Hp.
  - rewrite Hl. apply leibniz_equiv. by rewrite Hp.
  - intros x. rewrite <-Hp. apply Hd.
Qed.

Lemma owns_new base h l h' p : owns base h l → c_new h = (h', p) → p ≠ 0 ∧ owns base h' (p :: l).
Proof.
  intros [Hn Hl Hd Hr Hb] [= <- <-]. split; [lia|].
  assert (brk h ∉ live h) as Hnew by (intros Hin%Hr; lia).
  split; simpl; rewrite ?nz_cons by lia.
  - apply NoDup_cons. split; [|done]. intros Hin. apply Hnew. rewrite Hl. set_solver.
  - rewrite Hl. apply leibniz_equiv. set_solver.
  - intros x [->|Hx]%elem_of_cons; [|by apply Hd]. intros Hx. apply Hnew. rewrite Hl. set_solver.
  - intros x [->%elem_of_singleton|Hx%Hr]%elem_of_union; lia.
  - lia.
Qed.

Lemma owns_new_all base n : ∀ h l h' ps,
  owns base h l → new_all n h = (h', ps) → length ps = n ∧ Forall (λ p, p ≠ 0) ps ∧ owns base h' (ps ++ l).
Proof.
  induction n as [|n IH]; intros h l h' ps H; cbn [new_all]; [by intros [= <- <-]|].
  destruct (c_new h) as [h1 p] eqn:E1. destruct (new_all n h1) as [h2 qs] eqn:E2. intros [= <- <-].
  destruct (owns_new _ _ _ _ _ H E1) as [Hp H1]. destruct (IH _ _ _ _ H1 E2) as (Hl & Hf & H2).
  split_all; [by simpl; f_equal|by constructor|]. revert H2. apply owns_perm.
  simpl. rewrite nz_app, !nz_cons, nz_app by done. solve_Permutation.
Qed.

Lemma owns_delete base h p l : owns base h (p :: l) → ∃ h', c_delete p h = Some h' ∧ owns base h' l.
Proof.
  intros [Hn Hl Hd Hr Hb]. unfold c_delete. case_decide as H0.
  { subst. rewrite nz_zero in *. exists h. by split. }
  rewrite nz_cons in * by done. apply NoDup_cons in Hn as [Hnp Hn].
  rewrite assert_true by (rewrite Hl; set_solver). eexists. split; [done|]. split; simpl; try done.
  - rewrite Hl. apply leibniz_equiv. specialize (Hd p ltac:(left)). set_solver.
  - intros x Hx. apply Hd. by right.
  - intros x Hx. apply Hr. set_solver.
Qed.

Lemma owns_delete_all base l k : ∀ h,
  owns base h (l ++ k) → ∃ h', delete_all l h = Some h' ∧ owns base h' k.
Proof.
  induction l as [|p l IH]; intros h H; simpl; [by exists h|].
  destruct (owns_delete _ _ _ _ H) as (h1 & -> & H1). by apply IH.
Qed.

Lemma delete_all_app l k h : delete_all (l ++ k) h = (h ← delete_all l h; delete_all k h).
Proof.
  revert h. induction l as [|p l IH]; intros h; simpl; [done|].
  destruct (c_delete p h); simpl; [apply IH|done].
Qed.

Definition node_ptrs (n : NodeObjs) : list Z :=
  memories n ++ processors n ++ ib_memories n ++ dma_channels n ++ sparsity_maps n.

(** What [teardown] deletes, and then the destructor. *)
Definition table_ptrs (r : RuntimeImpl) : list Z :=
  (nodes r ≫= node_ptrs) ++
  [nodes_ptr r; global_memory r; local_event_free_list r; local_barrier_free_list r;
   local_reservation_free_list r; local_proc_group_free_list r] ++
  local_sparsity_map_free_lists r ++ code_translators r ++ modules r.
Definition own_ptrs (r : RuntimeImpl) : list Z :=
  [machine r; core_reservations r; core_map r] ++ values (reduce_op_table r) ++ values (custom_serdez_table r).
Definition owned (r : RuntimeImpl) : list Z := table_ptrs r ++ own_ptrs r.

Context (dcc_law : ∀ l h, delete_container_contents l h = delete_all l h).

(** One deletion after the other on both sides. *)
Ltac delete_chain :=
  repeat (cbn [app delete_all]; rewrite ?dcc_law, ?delete_all_app;
    lazymatch goal with
    | |- (?x ≫= _) = (?x ≫= _) => destruct x; cbn [mbind option_bind]; [|done]
    end).

Lemma delete_node_all n h : delete_node n h = delete_all (node_ptrs n) h.
Proof. unfold delete_node, node_ptrs. delete_chain. by rewrite dcc_law. Qed.

Lemma delete_nodes_all ns h : delete_nodes ns h = delete_all (ns ≫= node_ptrs) h.
Proof.
  revert h. induction ns as [|n ns IH]; intros h; [done|]. rewrite bind_cons, delete_all_app.
  cbn [delete_nodes]. rewrite delete_node_all. destruct (delete_all _ h); [apply IH|done].
Qed.

Lemma teardown_all r h :
  is_Some (aget (nodes r) my_node_id) → teardown r h = delete_all (table_ptrs r) h.
Proof.
  intros [n Hn]. unfold teardown, table_ptrs. rewrite Hn. cbn [mbind option_bind].
  rewrite delete_nodes_all. delete_chain. done.
Qed.

Lemma RuntimeImpl_fini_all r h : RuntimeImpl_fini r h = delete_all (own_ptrs r) h.
Proof. unfold RuntimeImpl_fini, own_ptrs. delete_chain. by rewrite dcc_law. Qed.

(** Everything the object owns can be deleted, once, and nothing is left. *)
Lemma delete_runtime base h r p :
  is_Some (aget (nodes r) my_node_id) → owns base h (owned r ++ [p]) →
  ∃ h', (h ← teardown r h; h ← RuntimeImpl_fini r h; c_delete p h) = Some h' ∧ owns base h' [] ∧ live h' = base.
Proof.
  intros Hn H. unfold owned in H. rewrite <-!(assoc_L (++)) in H.
  destruct (owns_delete_all _ _ _ _ H) as (h1 & E1 & H1).
  destruct (owns_delete_all _ _ _ _ H1) as (h2 & E2 & H2).
  destruct (owns_delete _ _ _ _ H2) as (h3 & E3 & H3).
  exists h3. rewrite teardown_all, E1 by done. simpl. rewrite RuntimeImpl_fini_all, E2. simpl.
  split_all; [done|done|]. rewrite (ow_live _ _ _ H3). apply (right_id_L ∅ (∪)).
Qed.

(** *** Operations that add an object *)

Lemma put_ptrs s p n n' : put s p n = Some n' → p ≠ 0 → nz (node_ptrs n') ≡ₚ p :: nz (node_ptrs n).
Proof.
  destruct n as [ms ims ps cs ss]. unfold node_ptrs. intros H Hp.
  assert (nz [p] = [p]) as Hp1 by (by apply nz_id; constructor).
  destruct s as [| | | |c]; simpl in H; [injection H as <-..|];
    cbn [memories ib_memories processors dma_channels sparsity_maps].
  1-4: rewrite !nz_app, Hp1; solve_Permutation.
  apply bind_Some in H as (m & Hm & H). apply assert_Some in H as [-> [= <-]].
  cbn [memories ib_memories processors dma_channels sparsity_maps].
  assert (nz (aset ss c p) ≡ₚ p :: nz ss) as Hss; [|rewrite !nz_app, Hss; solve_Permutation].
  unfold aget, aset in *. case_decide; [|done].
  apply list_elem_of_split_length in Hm as (l1 & l2 & -> & ->). rewrite insert_app_r_alt by lia.
  rewrite Nat.sub_diag. simpl. rewrite !nz_app, nz_cons, nz_zero by done. solve_Permutation.
Qed.

Lemma owns_grow base h q r h' p r' :
  owns base h (q :: owned r) → c_new h = (h', p) → (p ≠ 0 → nz (owned r') ≡ₚ p :: nz (owned r)) →
  owns base h' (q :: owned r').
Proof.
  intros H E Hp. destruct (owns_new _ _ _ _ _ H E) as [H0 H1]. specialize (Hp H0).
  revert H1. apply owns_perm. change (q :: owned r) with ([q] ++ owned r). change (q :: owned r') with ([q] ++ owned r').
  rewrite nz_cons, !nz_app, Hp by done. solve_Permutation.
Qed.

Lemma bind_aset (f : NodeObjs → list Z) l i n n' p :
  aget l i = Some n → nz (f n') ≡ₚ p :: nz (f n) → nz (aset l i n' ≫= f) ≡ₚ p :: nz (l ≫= f).
Proof.
  intros Hn Hp. unfold aget, aset in *. case_decide; [|done].
  apply list_elem_of_split_length in Hn as (l1 & l2 & -> & ->). rewrite insert_app_r_alt by lia.
  rewrite Nat.sub_diag. simpl. rewrite !bind_app, !bind_cons, !nz_app, Hp. solve_Permutation.
Qed.

(** Nothing is set up before [configure_objects]. *)
Record rt_ok (r : RuntimeImpl) : Prop := {
  ro_before : nodes_ptr r = 0 →
    nodes r = [] ∧ global_memory r = 0 ∧ local_event_free_list r = 0 ∧ local_barrier_free_list r = 0 ∧
    local_reservation_free_list r = 0 ∧ local_proc_group_free_list r = 0 ∧
    local_sparsity_map_free_lists r = [] ∧ modules r = [] ∧ core_map r = 0 ∧ core_reservations r = 0;
  ro_nodes : nodes_ptr r ≠ 0 → zlen (nodes r) = max_node_id + 1 }.

Lemma add_object_ok base s node h q r h' r' :
  owns base h (q :: owned r) → rt_ok r → add_object s node h r = Some (h', r') →
  owns base h' (q :: owned r') ∧ rt_ok r'.
Proof.
  intros H Hok Hadd. unfold add_object in Hadd. apply bind_Some in Hadd as (n & Hn & Hadd).
  destruct (c_new h) as [h1 p] eqn:E. apply bind_Some in Hadd as (n' & Hn' & [= <- <-]). split.
  - eapply owns_grow; [exact H|exact E|]. intros Hp.
    pose proof (bind_aset node_ptrs _ _ _ _ _ Hn (put_ptrs _ _ _ _ Hn' Hp)) as Hb.
    unfold owned, table_ptrs, own_ptrs, set_nodes. cbn -[node_ptrs app]. rewrite !nz_app, Hb. done.
  - destruct Hok as [H0 H1]. split; cbn; intros Hp.
    + destruct (H0 Hp) as (Hnil & _). rewrite Hnil, aget_nil in Hn. done.
    + rewrite <-H1 by done. unfold zlen. by rewrite aset_length.
Qed.

Lemma values_insert t id p : t !! id = None → values (<[id := p]> t) ≡ₚ p :: values t.
Proof. intros H. unfold values. by rewrite map_to_list_insert. Qed.

Lemma values_insert_nz t id p :
  t !! id = None → p ≠ 0 → nz (values (<[id := p]> t)) ≡ₚ p :: nz (values t).
Proof. intros H Hp. rewrite <-nz_cons by done. unfold nz. by rewrite values_insert. Qed.

Lemma add_code_translator_ok base h q r h' r' :
  owns base h (q :: owned r) → rt_ok r → add_code_translator h r = (h', r') →
  owns base h' (q :: owned r') ∧ rt_ok r'.
Proof.
  intros H [H0 H1] Hadd. unfold add_code_translator in Hadd. destruct (c_new h) as [h1 p] eqn:E. injection Hadd as <- <-.
  split; [|by split]. eapply owns_grow; [exact H|exact E|]. intros Hp.
  unfold owned, table_ptrs, own_ptrs, set_tables. cbn -[node_ptrs app]. rewrite !nz_app, (nz_id [p]) by (by constructor).
  solve_Permutation.
Qed.

Lemma register_reduction_ok base id h q r h' r' b :
  owns base h (q :: owned r) → rt_ok r → register_reduction id h r = (h', r', b) →
  owns base h' (q :: owned r') ∧ rt_ok r'.
Proof.
  intros H [H0 H1] Hreg. unfold register_reduction in Hreg.
  destruct (reduce_op_table r !! id) eqn:Ei; [injection Hreg as <- <- <-; done|].
  destruct (c_new h) as [h1 p] eqn:E. injection Hreg as <- <- <-.
  split; [|by split]. eapply owns_grow; [exact H|exact E|]. intros Hp.
  unfold owned, table_ptrs, own_ptrs, set_tables. cbn -[node_ptrs app].
  rewrite !nz_app, values_insert_nz by done. solve_Permutation.
Qed.

Lemma register_custom_serdez_ok base id h q r h' r' b :
  owns base h (q :: owned r) → rt_ok r → register_custom_serdez id h r = (h', r', b) →
  owns base h' (q :: owned r') ∧ rt_ok r'.
Proof.
  intros H [H0 H1] Hreg. unfold register_custom_serdez in Hreg.
  destruct (custom_serdez_table r !! id) eqn:Ei; [injection Hreg as <- <- <-; done|].
  destruct (c_new h) as [h1 p] eqn:E. injection Hreg as <- <- <-.
  split; [|by split]. eapply owns_grow; [exact H|exact E|]. intros Hp.
  unfold owned, table_ptrs, own_ptrs, set_tables. cbn -[node_ptrs app].
  rewrite !nz_app, values_insert_nz by done. solve_Permutation.
Qed.

(** *** [configure_objects] *)

Lemma nz_table n i m : (i < n)%nat → m ≠ 0 → nz (<[i := m]> (replicate n 0)) = [m].
Proof.
  assert (∀ k, nz (replicate k 0) = []) as H0.
  { induction k as [|k IH]; [done|]. change (replicate (S k) 0) with (0 :: replicate k 0). by rewrite nz_zero. }
  revert i. induction n as [|n IH]; intros i Hi Hm; [lia|]. destruct i as [|i]; simpl.
  - by rewrite nz_cons, H0.
  - rewrite nz_zero. apply IH; [lia|done].
Qed.

Lemma new_tables_ok base h l h' p ns fls :
  0 ≤ my_node_id ≤ max_node_id → owns base h l → new_tables h = (h', p, ns, fls) →
  p ≠ 0 ∧ zlen ns = max_node_id + 1 ∧ owns base h' (p :: (ns ≫= node_ptrs) ++ fls ++ l).
Proof.
  intros Hmy H. unfold new_tables. destruct (c_new h) as [h1 p1] eqn:E1.
  destruct (new_all _ h1) as [h2 ms] eqn:E2. destruct (new_all _ h2) as [h3 fs] eqn:E3. intros [= <- <- <- <-].
  destruct (owns_new _ _ _ _ _ H E1) as [Hp H1]. destruct (owns_new_all _ _ _ _ _ _ H1 E2) as (Hl & Hms & H2).
  destruct (owns_new_all _ _ _ _ _ _ H2 E3) as (_ & _ & H3).
  split_all; [done|unfold zlen; rewrite length_fmap; lia|]. revert H3. apply owns_perm.
  assert (nz (((λ m, mkNode [] [] [] [] (aset (replicate (Z.to_nat (max_node_id + 1)) 0) my_node_id m)) <$> ms)
    ≫= node_ptrs) = nz ms) as Hns.
  { clear H2 E2 E3 Hl. induction Hms as [|m ms Hm _ IH]; [done|].
    rewrite fmap_cons, bind_cons, nz_app, IH, nz_cons by done. unfold node_ptrs. cbn [memories ib_memories processors dma_channels sparsity_maps app].
    unfold aset. rewrite decide_True by lia. by rewrite nz_table by (done || lia). }
  rewrite nz_cons, !nz_app, Hns, nz_cons by done. solve_Permutation.
Qed.

Lemma configure_objects_ok base n mb h q r h' r' :
  0 ≤ my_node_id ≤ max_node_id → owns base h (q :: owned r) → rt_ok r → nodes_ptr r = 0 →
  configure_objects n mb h r = (h', r') → owns base h' (q :: owned r') ∧ rt_ok r'.
Proof.
  intros Hmy H [H0 _] Hnp. destruct (H0 Hnp) as (En & Eg & Ee & Eb & Er & Ep & Es & Em & Ec & Ecr).
  unfold configure_objects. destruct (new_all n h) as [h1 mods] eqn:E1.
  destruct (c_new h1) as [h2 cm] eqn:E2. destruct (c_new h2) as [h3 cr] eqn:E3.
  destruct (new_tables h3) as [[[h4 np] ns] fls] eqn:E4.
  destruct (c_new h4) as [h5 ev] eqn:E5. destruct (c_new h5) as [h6 ba] eqn:E6.
  destruct (c_new h6) as [h7 re] eqn:E7. destruct (c_new h7) as [h8 pg] eqn:E8.
  destruct (if decide (mb > 0) then c_new h8 else (h8, 0)) as [h9 gm] eqn:E9. intros [= <- <-].
  destruct (owns_new_all _ _ _ _ _ _ H E1) as (_ & _ & H1).
  destruct (owns_new _ _ _ _ _ H1 E2) as [_ H2]. destruct (owns_new _ _ _ _ _ H2 E3) as [_ H3].
  destruct (new_tables_ok _ _ _ _ _ _ _ Hmy H3 E4) as (Hp & Hz & H4).
  destruct (owns_new _ _ _ _ _ H4 E5) as [_ H5]. destruct (owns_new _ _ _ _ _ H5 E6) as [_ H6].
  destruct (owns_new _ _ _ _ _ H6 E7) as [_ H7]. destruct (owns_new _ _ _ _ _ H7 E8) as [_ H8].
  assert (owns base h9 ([gm] ++ [pg; re; ba; ev; np] ++ (ns ≫= node_ptrs) ++ fls ++ [cr; cm] ++ mods ++ [q] ++ owned r)) as H9.
  { case_decide; [by destruct (owns_new _ _ _ _ _ H8 E9)|]. injection E9 as <- <-.
    revert H8. apply owns_perm. cbn [app]. by rewrite nz_zero. }
  split; [|split; cbn; [done|intros; exact Hz]]. revert H9. apply owns_perm.
  unfold owned, table_ptrs, own_ptrs. rewrite En, Eg, Ee, Eb, Er, Ep, Es, Em, Ec, Ecr, Hnp. cbn -[node_ptrs app].
  match goal with |- _ ≡ₚ nz (q :: ?l) => change (q :: l) with ([q] ++ l) end.
  change [np; gm; ev; ba; re; pg] with ([np] ++ [gm] ++ [ev] ++ [ba] ++ [re] ++ [pg]).
  change [machine r; cr; cm] with ([machine r] ++ [cr] ++ [cm]).
  change [pg; re; ba; ev; np] with ([pg] ++ [re] ++ [ba] ++ [ev] ++ [np]). change [cr; cm] with ([cr] ++ [cm]).
  rewrite !nz_app. solve_Permutation.
Qed.

(** ** The process *)

Definition world_init (h : Heap) : Process := mkWorld h 0 ∅ 0 [].

(** The application configures a runtime once. *)
Definition legal (c : call) (w : Process) : Prop :=
  match c with
  | Runtime_configure i _ _ => ∀ p r, deref w i = Some (p, r) → nodes_ptr r = 0
  | _ => True
  end.

Definition api_step (w w' : Process) : Prop := ∃ c res, legal c w ∧ exec c w = Returns w' res.

#[local] Instance legal_dec c w : Decision (legal c w).
Proof.
  destruct c; simpl; try exact (left I). destruct (deref w i) as [[p r]|].
  - destruct (decide (nodes_ptr r = 0)) as [H|H]; [left|right]; [by intros ? ? [= <- <-]|].
    intros Hall. by apply H, (Hall p r).
  - by left.
Defined.

(** A program of calls that all return. *)
Fixpoint exec_all (cs : list call) (w : Process) : option Process :=
  match cs with
  | [] => Some w
  | c :: cs =>
      assert! legal c w;
      match exec c w with Returns w _ => exec_all cs w | _ => None end
  end.

Lemma exec_all_reachable cs w w' : exec_all cs w = Some w' → rtc api_step w w'.
Proof.
  revert w. induction cs as [|c cs IH]; intros w; simpl; [intros [= <-]; apply rtc_refl|].
  intros H. apply assert_Some in H as [Hl H]. destruct (exec c w) as [w1 res| |] eqn:E; [|done..].
  eapply rtc_l; [|by apply IH]. by exists c, res.
Qed.

(** There is no runtime, and no object of one, or there is one, which the
    singleton points to and which owns the others. *)
Definition no_runtime (base : gset Z) (w : Process) : Prop :=
  runtime_singleton w = 0 ∧ impls w = ∅ ∧ owns base (heap w) [].
Definition one_runtime (base : gset Z) (w : Process) (r : RuntimeImpl) : Prop :=
  runtime_singleton w ≠ 0 ∧ impls w = {[runtime_singleton w := r]} ∧
  owns base (heap w) (runtime_singleton w :: owned r) ∧ rt_ok r.

Lemma one_deref base w r i p r' :
  one_runtime base w r → deref w i = Some (p, r') → p = runtime_singleton w ∧ r' = r.
Proof.
  intros (_ & Ei & _) Hd. unfold deref in Hd. apply bind_Some in Hd as (q & _ & Hd).
  apply bind_Some in Hd as (r2 & Hr & [= <- <-]). rewrite Ei in Hr.
  by apply lookup_singleton_Some in Hr as [-> ->].
Qed.

Lemma none_deref base w i : no_runtime base w → deref w i = None.
Proof. intros (_ & Ei & _). unfold deref. rewrite Ei. destruct (aget _ _); simpl; [|done]. by rewrite lookup_empty. Qed.

Lemma one_update base w r h r' :
  one_runtime base w r → owns base h (runtime_singleton w :: owned r') ∧ rt_ok r' →
  one_runtime base (update w h (runtime_singleton w) r') r'.
Proof. intros (Hs & Ei & _) [H Hok].
  refine (conj Hs (conj _ (conj H Hok))). simpl. by rewrite Ei, insert_singleton_eq.
Qed.

Lemma init_ok base w i : no_runtime base w → aget (handles w) i ≠ None →
  ∃ w' r, exec (Runtime_network_init i) w = Returns w' 1 ∧ one_runtime base w' r ∧ nodes_ptr r = 0 ∧
    requested r = false ∧ aget (handles w') i = Some (runtime_singleton w').
Proof.
  intros (Es & Ei & H) Hi. unfold exec, Runtime_wait. rewrite decide_False by (rewrite Es; tauto). rewrite decide_False by done.
  destruct (c_new (heap w)) as [h1 p] eqn:E1. unfold RuntimeImpl_init. destruct (c_new h1) as [h2 m] eqn:E2.
  destruct (owns_new _ _ _ _ _ H E1) as [Hp H1]. destruct (owns_new _ _ _ _ _ H1 E2) as [Hm H2].
  eexists _, (mkRuntime m 0 [] 0 0 0 0 0 [] 0 0 ∅ ∅ [] [] false 0). split; [done|].
  split; [refine (conj Hp (conj _ (conj _ _)))|refine (conj eq_refl (conj eq_refl _))]; simpl.
  - by rewrite Ei.
  - revert H2. apply owns_perm. unfold owned, table_ptrs, own_ptrs, values. cbn -[app].
    rewrite !map_to_list_empty. simpl. rewrite !nz_cons, !nz_zero, !nz_cons by done. apply Permutation_swap.
  - split; simpl; [by split_all|done].
  - apply aget_aset_eq. destruct (aget (handles w) i) as [q|] eqn:E; [|done]. by eapply aget_Some_range.
Qed.

Lemma wait_ok base w r i :
  one_runtime base w r → aget (handles w) i = Some (runtime_singleton w) → requested r = true →
  is_Some (aget (nodes r) my_node_id) →
  ∃ w', exec (Runtime_wait_for_shutdown i) w = Returns w' (result_code r) ∧ no_runtime base w' ∧
    live (heap w') = base.
Proof.
  intros (Hs & Ei & H & Hok) Hh Hreq Hn. unfold exec, Runtime_wait, deref. rewrite Hh. simpl. rewrite Ei, lookup_singleton_eq. simpl.
  rewrite Hreq. destruct (delete_runtime base (heap w) r (runtime_singleton w) Hn) as (h' & -> & H' & Hl).
  { revert H. apply owns_perm. rewrite nz_app, !nz_cons by done. apply Permutation_cons_append. }
  eexists. split; [done|]. split; [|done].
  refine (conj eq_refl (conj _ H')). simpl. by rewrite delete_singleton_eq.
Qed.

Definition runtime_inv (base : gset Z) (w : Process) : Prop :=
  no_runtime base w ∨ ∃ r, one_runtime base w r.

(** A call on the one object: what it does to it. *)
Lemma on_runtime base w i p r :
  runtime_inv base w → deref w i = Some (p, r) → p = runtime_singleton w ∧ one_runtime base w r.
Proof.
  intros [Hn|[r' H]] Hd; [by rewrite (none_deref _ _ _ Hn) in Hd|].
  by destruct (one_deref _ _ _ _ _ _ H Hd) as [-> ->].
Qed.

Lemma on_singleton base w r :
  runtime_inv base w → impls w !! runtime_singleton w = Some r → one_runtime base w r.
Proof.
  intros [(_ & Ei & _)|[r' H]] Hr; [by rewrite Ei, lookup_empty in Hr|].
  destruct H as (Hs & Ei & H). rewrite Ei, lookup_singleton_eq in Hr. injection Hr as <-. done.
Qed.

Lemma wait_returns base w r i w' res :
  one_runtime base w r → aget (handles w) i = Some (runtime_singleton w) →
  exec (Runtime_wait_for_shutdown i) w = Returns w' res → no_runtime base w' ∧ live (heap w') = base.
Proof.
  intros H Hh Hx. pose proof H as (Hs & Ei & _). pose proof Hx as Hx'. unfold exec, Runtime_wait, deref in Hx.
  rewrite Hh in Hx. simpl in Hx. rewrite Ei, lookup_singleton_eq in Hx. simpl in Hx.
  destruct (requested r) eqn:Hr; [|done].
  assert (is_Some (aget (nodes r) my_node_id)) as Hn.
  { unfold teardown in Hx. destruct (aget (nodes r) my_node_id) eqn:En; [by eexists|done]. }
  destruct (wait_ok base w r i H Hh Hr Hn) as (w2 & E & Hw). rewrite Hx' in E. by injection E as -> _.
Qed.

Lemma shutdown_one base w r code :
  one_runtime base w r →
  ∃ r', one_runtime base (shutdown_impl code w (runtime_singleton w) r) r' ∧ nodes r' = nodes r.
Proof.
  intros (Hs & Ei & H & [H0 H1]). unfold shutdown_impl.
  destruct (shutdown_enter _ _ _ _ _ _ _) as [s go_on]. set (s' := match go_on with Some _ => _ | None => _ end).
  exists (set_shutdown r (shutdown_requested s') (shutdown_result_code s')). split; [|done].
  refine (conj Hs (conj _ (conj H _))); [simpl; by rewrite Ei, insert_singleton_eq|by split].
Qed.

Lemma api_step_inv base w w' :
  0 ≤ my_node_id ≤ max_node_id → runtime_inv base w → api_step w w' → runtime_inv base w'.
Proof.
  intros Hmy H (c & res & Hleg & Hx).
  assert (∀ h r r', one_runtime base w r → owns base h (runtime_singleton w :: owned r') ∧ rt_ok r' →
    runtime_inv base (update w h (runtime_singleton w) r')) as Hup.
  { intros h r r' H1 H2. right. exists r'. by eapply one_update. }
  destruct c as [| |i|i n mb|i id|i id|i code|i|s node|]; cbn [exec] in Hx.
  - injection Hx as <- _. destruct H as [H|[r H]]; [left; exact H|right; exists r; exact H].
  - injection Hx as <- _. destruct H as [H|[r H]]; [left; exact H|right; exists r; exact H].
  - case_decide as Hs; [by injection Hx as <- _|]. case_decide as Hi; [done|].
    destruct H as [H|[r (Hs' & _)]]; [|tauto].
    destruct (init_ok base w i H Hi) as (w2 & r & E & H2 & _). cbn [exec] in E.
    rewrite decide_False in E by (rewrite Hs; tauto). rewrite decide_False in E by exact Hi.
    rewrite Hx in E. injection E as -> _. right. by exists r.
  - destruct (deref w i) as [[p r]|] eqn:Hd; [|done].
    destruct (on_runtime _ _ _ _ _ H Hd) as [-> H1].
    destruct (configure_objects n mb (heap w) r) as [h r'] eqn:E. injection Hx as <- _. apply (Hup _ r _ H1).
    eapply configure_objects_ok; [exact Hmy|apply H1|apply H1| |exact E]. by eapply Hleg.
  - destruct (deref w i) as [[p r]|] eqn:Hd; [|done]. destruct (on_runtime _ _ _ _ _ H Hd) as [-> H1].
    destruct (register_reduction id (heap w) r) as [[h r'] b] eqn:E. injection Hx as <- _. apply (Hup _ r _ H1).
    eapply register_reduction_ok; [apply H1..|exact E].
  - destruct (deref w i) as [[p r]|] eqn:Hd; [|done]. destruct (on_runtime _ _ _ _ _ H Hd) as [-> H1].
    destruct (register_custom_serdez id (heap w) r) as [[h r'] b] eqn:E. injection Hx as <- _. apply (Hup _ r _ H1).
    eapply register_custom_serdez_ok; [apply H1..|exact E].
  - destruct (deref w i) as [[p r]|] eqn:Hd; [|done]. destruct (on_runtime _ _ _ _ _ H Hd) as [-> H1].
    injection Hx as <- _. destruct (shutdown_one base w r code H1) as (r' & H2 & _). right. by exists r'.
  - unfold Runtime_wait in Hx. destruct (deref w i) as [[p r]|] eqn:Hd; [|done]. destruct (on_runtime _ _ _ _ _ H Hd) as [-> H1].
    left. refine (proj1 (wait_returns base w r i w' res H1 _ _)).
    + unfold deref in Hd. apply bind_Some in Hd as (q & Hq & Hd). apply bind_Some in Hd as (r2 & _ & [= -> _]). done.
    + unfold exec, Runtime_wait. by rewrite Hd.
  - destruct (impls w !! runtime_singleton w) as [r|] eqn:Hr; [|done]. pose proof (on_singleton _ _ _ H Hr) as H1.
    destruct (add_object s node (heap w) r) as [[h r']|] eqn:E; [|done]. injection Hx as <- _. apply (Hup _ r _ H1).
    eapply add_object_ok; [apply H1..|exact E].
  - destruct (impls w !! runtime_singleton w) as [r|] eqn:Hr; [|done]. pose proof (on_singleton _ _ _ H Hr) as H1.
    destruct (add_code_translator (heap w) r) as [h r'] eqn:E. injection Hx as <- _. apply (Hup _ r _ H1).
    eapply add_code_translator_ok; [apply H1..|exact E].
Qed.

Lemma runtime_reachable_inv base h0 w :
  0 ≤ my_node_id ≤ max_node_id → owns base h0 [] → rtc api_step (world_init h0) w → runtime_inv base w.
Proof.
  intros Hmy H0 Hr. assert (runtime_inv base (world_init h0)) as Hi by (left; by split_all).
  revert Hi. induction Hr as [w|w1 w2 w3 Hs _ IH]; [done|]. intros Hi. by eapply IH, api_step_inv.
Qed.

(** C34. One runtime at a time, and everything it made is deleted once.  In every
    state that calls of the API and additions to the tables can reach there is
    either no runtime, and exactly the objects that were there before are
    alive, or one, which the singleton points to, and the live objects besides
    are that object and what it owns, no pointer held twice.  While there is one
    [network_init] refuses and changes nothing.  [wait_for_shutdown] on a
    configured runtime sleeps until a shutdown has been requested, and then
    returns the code of the request, without deleting anything twice, and leaves
    the state without a runtime. *)
Theorem runtime_lifecycle base h0 w :
  0 ≤ my_node_id ≤ max_node_id → owns base h0 [] → rtc api_step (world_init h0) w →
  (runtime_singleton w = 0 ∧ impls w = ∅ ∧ live (heap w) = base ∨
   ∃ r, runtime_singleton w ≠ 0 ∧ impls w = {[runtime_singleton w := r]} ∧
     NoDup (nz (runtime_singleton w :: owned r)) ∧
     live (heap w) = base ∪ list_to_set (nz (runtime_singleton w :: owned r))) ∧
  (∀ i, runtime_singleton w ≠ 0 → exec (Runtime_network_init i) w = Returns w 0) ∧
  (∀ i r, aget (handles w) i = Some (runtime_singleton w) → impls w !! runtime_singleton w = Some r →
    nodes_ptr r ≠ 0 →
    if requested r
    then ∃ w', exec (Runtime_wait_for_shutdown i) w = Returns w' (result_code r) ∧
      runtime_singleton w' = 0 ∧ impls w' = ∅ ∧ live (heap w') = base
    else exec (Runtime_wait_for_shutdown i) w = Sleeps).
Proof.
  intros Hmy H0 Hr. pose proof (runtime_reachable_inv _ _ _ Hmy H0 Hr) as H. split_all.
  - destruct H as [(Es & Ei & H)|[r (Es & Ei & H & _)]].
    + left. refine (conj Es (conj Ei _)). rewrite (ow_live _ _ _ H). apply (right_id_L ∅ (∪)).
    + right. exists r. refine (conj Es (conj Ei (conj _ _))); apply H.
  - intros i Hs. cbn [exec]. by rewrite decide_True.
  - intros i r Hh Hl Hn. pose proof (on_singleton _ _ _ H Hl) as H1. destruct (requested r) eqn:Hreq.
    + destruct H1 as (Hs & Ei & Ho & Hok).
      destruct (wait_ok base w r i (conj Hs (conj Ei (conj Ho Hok))) Hh Hreq) as (w' & E & (Hw1 & Hw2 & _) & Hw3).
      { apply aget_is_Some. rewrite (ro_nodes _ Hok Hn). lia. }
      by exists w'.
    + cbn [exec]. unfold Runtime_wait, deref. rewrite Hh. simpl. rewrite Hl. simpl. by rewrite Hreq.
Qed.

(** The first registration under an id stays. *)
Lemma registration_first_wins w i id w' b p r :
  deref w i = Some (p, r) → exec (Runtime_register_reduction i id) w = Returns w' b →
  ∃ r', impls w' !! p = Some r' ∧ (b = 1 ↔ reduce_op_table r !! id = None) ∧
    is_Some (reduce_op_table r' !! id) ∧
    ∀ id' q, reduce_op_table r !! id' = Some q → reduce_op_table r' !! id' = Some q.
Proof.
  intros Hd Hx. cbn [exec] in Hx. rewrite Hd in Hx. unfold register_reduction in Hx.
  destruct (reduce_op_table r !! id) as [q|] eqn:Eid.
  - injection Hx as <- <-. exists r. simpl. rewrite lookup_insert_eq. split_all; [done|done|by eexists|done].
  - cbn in Hx. injection Hx as <- <-. eexists. simpl. rewrite lookup_insert_eq. split_all; [done|done| |].
    + simpl. rewrite lookup_insert_eq. by eexists.
    + intros id' q Hq. simpl. rewrite lookup_insert_ne; [done|congruence].
Qed.

(** *** A second runtime *)

(** [shutdown_count] outlives the runtime. *)
Definition past_shutdown (w : Process) : Prop :=
  0 < static_shutdown_count w ∧ ∀ p r, impls w !! p = Some r → requested r = false.

Lemma past_shutdown_step w w' :
  static_shutdown_count w < 2 ^ 31 - 1 → past_shutdown w → api_step w w' →
  past_shutdown w' ∧ static_shutdown_count w' ≤ static_shutdown_count w + 1.
Proof.
  intros Hb [Hc Hr] (c & res & _ & Hx).
  assert (∀ h p r, requested r = false → past_shutdown (update w h p r) ∧
    static_shutdown_count (update w h p r) ≤ static_shutdown_count w + 1) as Hup.
  { intros h p r Hf. split; [split; [done|]|simpl; lia]. simpl.
    intros q r' [[_ <-]|[_ Hq]]%lookup_insert_Some; [done|by eapply Hr]. }
  assert (∀ i p r, deref w i = Some (p, r) → requested r = false) as Hd.
  { intros i p r Hd. unfold deref in Hd. apply bind_Some in Hd as (q & _ & Hd).
    apply bind_Some in Hd as (r2 & Hr2 & [= _ <-]). by eapply Hr. }
  assert (static_shutdown_count w ≤ static_shutdown_count w + 1) as Hle by lia.
  destruct c as [| |i|i n mb|i id|i id|i code|i|s node|]; cbn [exec] in Hx.
  - by injection Hx as <- _.
  - by injection Hx as <- _.
  - case_decide; [by injection Hx as <- _|]. case_decide; [done|]. cbn in Hx. injection Hx as <- _.
    split; [|simpl; lia]. split; [done|]. simpl.
    intros q r' [[_ <-]|[_ Hq]]%lookup_insert_Some; [done|by eapply Hr].
  - destruct (deref w i) as [[p r]|] eqn:E; [|done]. destruct (configure_objects n mb (heap w) r) as [h r'] eqn:Ec.
    injection Hx as <- _. apply Hup. rewrite <-(Hd _ _ _ E). revert Ec. unfold configure_objects.
    repeat case_match; intros [= <- <-]; done.
  - destruct (deref w i) as [[p r]|] eqn:E; [|done]. specialize (Hd _ _ _ E). unfold register_reduction in Hx.
    destruct (_ !! id); cbn in Hx; injection Hx as <- _; by apply Hup.
  - destruct (deref w i) as [[p r]|] eqn:E; [|done]. specialize (Hd _ _ _ E). unfold register_custom_serdez in Hx.
    destruct (_ !! id); cbn in Hx; injection Hx as <- _; by apply Hup.
  - destruct (deref w i) as [[p r]|] eqn:E; [|done]. specialize (Hd _ _ _ E). injection Hx as <- _.
    unfold shutdown_impl, shutdown_enter. cbn [shutdown_count]. rewrite bool_decide_true by lia. simpl.
    rewrite i32_id by (unfold is_i32; lia). split; [|simpl; lia]. split; [simpl; lia|]. simpl.
    intros q r' [[_ <-]|[_ Hq]]%lookup_insert_Some; [done|by eapply Hr].
  - unfold Runtime_wait in Hx. destruct (deref w i) as [[p r]|] eqn:E; [|done]. rewrite (Hd _ _ _ E) in Hx. done.
  - destruct (impls w !! runtime_singleton w) as [r|] eqn:E; [|done].
    destruct (add_object s node (heap w) r) as [[h r']|] eqn:Ea; [|done]. injection Hx as <- _. apply Hup.
    unfold add_object in Ea. apply bind_Some in Ea as (n & _ & Ea). cbn in Ea.
    apply bind_Some in Ea as (n' & _ & [= _ <-]). exact (Hr _ _ E).
  - destruct (impls w !! runtime_singleton w) as [r|] eqn:E; [|done]. cbn in Hx. injection Hx as <- _.
    apply Hup. exact (Hr _ _ E).
Qed.

(** Once a runtime has been shut down and deleted, no later one can be: its
    requests are taken for duplicates and [wait_for_shutdown] never returns. *)
Lemma second_runtime_never_returns n w w' :
  nsteps api_step n w w' → impls w = ∅ → 0 < static_shutdown_count w →
  static_shutdown_count w + Z.of_nat n < 2 ^ 31 →
  ∀ i w2 res, exec (Runtime_wait_for_shutdown i) w' ≠ Returns w2 res.
Proof.
  intros Hn Hi Hc Hb.
  assert (past_shutdown w) as Hp by (split; [done|]; intros p r; by rewrite Hi, lookup_empty).
  clear Hi Hc. assert (past_shutdown w') as [_ Hr].
  { induction Hn as [w|n w w1 w' Hs _ IH]; [done|].
    assert (static_shutdown_count w < 2 ^ 31 - 1) as Hw by lia.
    destruct (past_shutdown_step _ _ Hw Hp Hs) as [H1 H2]. apply IH; [lia|done]. }
  intros i w2 res Hx. cbn [exec] in Hx. unfold Runtime_wait in Hx. destruct (deref w' i) as [[p r]|] eqn:Hd; [|done].
  unfold deref in Hd. apply bind_Some in Hd as (q & _ & Hd). apply bind_Some in Hd as (r2 & Hr2 & [= <- <-]).
  by rewrite (Hr _ _ Hr2) in Hx.
Qed.

End runtime.

(** Node 0 of 2, an object of the application's own at 1: a runtime with one
    module and a global memory gets a reduction and a memory, is asked to shut
    down with code 3 and returns it with only that object left. *)
Lemma runtime_lifecycle_witness :
  let w0 := world_init (mkHeap {[1]} 2) in
  let cs := [Runtime_new; Runtime_network_init 0; Runtime_configure 0 1 256;
    Runtime_register_reduction 0 7; AddObject SMemory 0; Runtime_shutdown_now 0 3] in
  let w := default w0 (exec_all 0 1 delete_all cs w0) in
  ∃ w', exec 0 1 delete_all (Runtime_wait_for_shutdown 0) w = Returns w' 3 ∧ runtime_singleton w' = 0 ∧
    live (heap w') = {[1]}.
Proof.
  intros w0 cs w.
  assert (rtc (api_step 0 1 delete_all) w0 w) as Hr.
  { apply (exec_all_reachable 0 1 delete_all cs). vm_compute. reflexivity. }
  destruct (runtime_lifecycle 0 1 delete_all (λ l h, eq_refl) {[1]} (mkHeap {[1]} 2) w) as (_ & _ & Hw); [lia| |exact Hr|].
  - split; cbn; [constructor|set_solver|intros x Hx; by apply not_elem_of_nil in Hx|set_solver by lia|lia].
  - set (r := default (mkRuntime 0 0 [] 0 0 0 0 0 [] 0 0 ∅ ∅ [] [] false 0) (impls w !! runtime_singleton w)).
    assert (requested r = true) as Hreq by (vm_compute; reflexivity).
    assert (result_code r = 3) as Hc by (vm_compute; reflexivity).
    assert (aget (handles w) 0 = Some (runtime_singleton w)) as H1 by (vm_compute; reflexivity).
    assert (impls w !! runtime_singleton w = Some r) as H2 by (vm_compute; reflexivity).
    assert (nodes_ptr r ≠ 0) as H3 by (vm_compute; discriminate).
    clearbody r w. specialize (Hw 0 r H1 H2 H3). rewrite Hreq, Hc in Hw. destruct Hw as (w' & Hx & Hs & _ & Hl).
    exists w'. exact (conj Hx (conj Hs Hl)).
Defined.
